(* ===== verification/_CoqProject ===== *)
-Q . S2P
Prelude.v
Error.v
Amount.v
Account.v
Transfer.v
Ledger.v
LedgerStep.v
LedgerInv.v
LedgerBatch.v
LedgerVerify.v
LedgerHistory.v
LedgerProps.v
Bytes.v
WalRecord.v
WalScan.v
Wal.v
WalInv.v
WalDurable.v
WalSnapshot.v
WalProps.v
WalStream.v
Merkle.v
MerkleInv.v
MerkleLocate.v
MerkleProof.v
MerkleProps.v
Codec.v
Engine.v
EngineInv.v
EngineSerial.v
EngineAnswers.v
EngineProps.v
Server.v
ServerProps.v
Settle.v
SettleInv.v
SettleFormat.v
SettleProps.v
Raft.v
RaftProps.v
RaftCluster.v
RaftClusterProps.v
Payment.v
Rail.v
RailInv.v
Api.v
PaymentBook.v
ApiInv.v
ApiSettle.v
ApiProps.v
ApiAudit.v
ApiClock.v
ApiThreads.v
ApiLocks.v
ApiPool.v
ApiThreadsProps.v
ApiKeys.v
Verifier.v
SimNet.v
SimNode.v
SimCluster.v
SimScenario.v
SimInv.v
SimSafe.v
SimWealth.v
SimRun.v
SimProps.v
F64.v
Metrics.v
MetricsProps.v
Endpoints.v
EndpointProps.v
Dashboard.v
DashboardProps.v
