(* ===== verification/Prelude.v ===== *)
(** * TrustLedger: a verification development

    TrustLedger is a double-entry ledger: a deterministic accounting state machine,
    a write-ahead log under it, a single-writer ingest engine that turns client
    commands into logged and committed batches, a gRPC server in front of it, a
    replicated state machine for Raft, a Merkle Mountain Range that commits to
    transfers, a Solana program that records settled batches, a payment application
    on top, a registry of metrics, and a simulator that runs a small cluster under
    injected faults.  This library models those parts as Rocq functions, translated from
    the sources under [src/], and proves what makes them correct.

    ** Parts, sources and files

    - Results, the state-and-error monad, machine integers, sums over maps, the
      sorted iteration of a [BTreeMap] and the automation: [Prelude] (this file).
      A method taking [&mut self] and returning a [Result] is a function from a
      state to a state and a result; the state is returned on errors too, so that
      "an error changes nothing" is always a theorem.
    - [crates/ledger-core/src/{error,id,amount,account,transfer,journal}.rs]:
      [Error], [Amount], [Account], [Transfer].  Identifiers and amounts are the
      [u128] they wrap, as [N], with the width in every checked operation.
    - [crates/ledger-core/src/ledger.rs]: [Ledger] (state, [create_account],
      [close_account], [create_transfer], [create_pending], [post_pending],
      [void_pending], [apply_event], [replay]), [LedgerBatch] (undo log, [rollback],
      [commit_events], [apply_batch], [prepare_batch], [prepare_transactions]) and
      [LedgerVerify] ([verify_invariants] and the debug-build re-check).
    - [LedgerStep] is the abstract specification, a transition relation [lstep] from
      ledger to ledger labelled by journal events, and the proof that the code
      refines it; [LedgerInv] the accounting invariant and its preservation, runs
      and reachable ledgers; [LedgerHistory] what holds along runs (finality,
      chronology, audit).  [LedgerProps] states the results.
    - [crates/ledger-core/src/codec.rs]: [Codec].
    - [crates/wal/src/record.rs]: [Bytes], [WalRecord] (frames) and [WalScan] (the
      streaming scanner over a reader with short reads and interruptions);
      [crates/wal/src/wal.rs]: [Wal] and [WalStream]; [crates/wal/src/snapshot.rs]: [WalSnapshot];
      [WalInv] holds the invariant of an open log, [WalProps] the results.
    - [crates/merkle/src/{hash,event_hasher,mmr,proof,error}.rs]: [Merkle], with
      [MerkleInv] (well-formed mountains and their leaves), [MerkleLocate] (the walk
      from a leaf index to its mountain), [MerkleProof] (completeness and binding of
      proofs) and [MerkleProps].
    - [crates/ingest/src/{error,queue,engine}.rs]: [Engine], with [EngineInv] (the
      invariant tying the log to the ledger, recovery), [EngineSerial] (serving
      commands one at a time, the reference for group commit), [EngineAnswers] (what
      answers say about the ledger) and [EngineProps].
    - [crates/ingest/src/server.rs]: [Server] (protobuf messages to operations and
      back, every handler) and [ServerProps].
    - [crates/raft/src/{types,state_machine,storage,network,node,cluster}.rs]: [Raft]
      (applying entries, snapshots, the in-memory log, the router, proposals) with
      [RaftProps], and [RaftCluster] (network clients, nodes and the life of a cluster)
      with [RaftClusterProps].
    - [crates/solana-settle/src/]: [Settle] (account layout, the three instructions
      over a store of account cells, instruction builders, receipts), [SettleInv]
      (what a successful call comes to, the recorded history), [SettleFormat] (a
      concrete Borsh layout, proof bytes and address derivation) and [SettleProps];
      receipts on disk and the stand-alone verifier: [Verifier].
    - [apps/demo/src/{error,payment,idempotency,webhook,reconciliation}.rs]:
      [Payment]; [rail.rs]: [Rail], with [RailInv]; [api.rs]: [Api].  [PaymentBook] is
      the abstract state machine of payments over the ledger, with its invariant;
      [ApiInv] shows that the handlers refine it and what each leaves alone,
      [ApiSettle] what a settlement batch contains; [ApiProps] states the results,
      [ApiAudit] those on reconciliation and [ApiClock] those on timestamps.
      [ApiThreads] has the handlers that change payments and the one that shows the data as
      threads, sections under locks in any order, [ApiPool] the invariant of their ghost state by a rely on the lock's
      holder, and [ApiThreadsProps] the results; [ApiKeys] follows an idempotency key
      through the threads.  The endpoints that run the simulator and show the metrics are
      in [Endpoints], with [EndpointProps]; [dashboard.rs], [server.rs], [main.rs] and the
      routes of [api.rs] are in [Dashboard], with [DashboardProps].
    - [simulator/src/{rng,clock,network,storage}.rs]: [SimNet]; [workload.rs] and the
      node of [cluster.rs]: [SimNode]; the rest of [cluster.rs] and [oracle.rs]:
      [SimCluster]; [scenario.rs] and [main.rs]: [SimScenario].  [SimInv] relates a
      node's disk, log and ledger, [SimSafe] is the cluster's invariant with the
      decisions as ghost state, by weakest preconditions, [SimWealth] the money supply
      of a funded ledger, [SimRun] the runs of the scenarios; [SimProps] states the
      results.
    - [crates/observability/src/]: [F64] (the floating point it uses) and [Metrics]
      (counters, gauges and histograms as shared cells, the registry and its text);
      [MetricsProps] has the interleavings of threads and the results.

    The engine calls the ledger ([prepare_transactions], [commit_events]), the codec
    and the log ([append_batch]); recovery opens the log, reads, decodes and replays.
    The server turns requests into commands for the engine; a Raft replica applies
    the same operations to the same ledger.  The application calls the ledger
    directly and settles captured payments through a rail, which builds the Merkle
    tree of the batch and runs the settlement program on its registry.  The simulator's
    nodes apply operations to the ledger and write the log's frames to a simulated disk.
    Each layer's theorems are proved from the invariant of the layer below ([wal_ok],
    [run], [registry], [rail_ready], [book_inv], [store_ok]) and not from its code.

    ** What is proved

    - Ledger: every mutation implements [lstep] exactly and an error leaves the
      ledger untouched; in every reachable ledger debits equal credits, no limited
      account is overdrawn, nothing overflows, pending balances equal the open
      holds and posted balances equal what the journal booked; the journal is
      chronological and replays to the ledger; posted and voided transfers and
      closed accounts are final; [verify_invariants] decides its declarative
      counterpart.
    - Batches: [commit_events] is all or nothing, preparation never changes the
      ledger, its events commit to what sequential execution would give, and a
      batch cannot be committed twice.
    - Log: frames round trip and are accepted only if well formed; opening any
      prefix of a log recovers exactly its whole records; [append_batch] is
      described on every outcome, and acknowledged records survive any failure; a
      stream can be left anywhere; snapshots are atomic under crashes.
    - Merkle: every leaf has a proof that verifies, an accepted proof binds its leaf
      or exhibits a hash collision, appending preserves the structure.
    - Engine: over any run with any failures, what is on disk replays to the
      engine's ledger or to that ledger and part of a batch reported as failed; every
      account or transfer shown to a client is still there after recovery; group commit has the ledger and the replies of serial execution; every
      command is answered exactly once.
    - Server: operations survive the trip through protobuf, every reply is of the
      kind its command expects, and an answered mutation shows its effect.
    - Raft: a replica ends with the ledger and the replies of the single-writer
      path; one that installs a snapshot agrees with its source from then on, and
      no bytes offered as a snapshot break the ledger; the log store is a list of
      numbered entries.  Whatever faults are injected into a cluster, calls reach exactly
      the living nodes that nothing separates; waiting for a leader and proposing end.
    - Settlement: over any calls by anyone a registry shows the batches accepted
      since its initialisation, numbered, chained by root and exactly summed; only
      the authority changes it; failures change nothing; a committed batch's leaves
      verify on chain, and what verifies was in the batch or there is a collision; saved
      receipts of settled transfers pass the stand-alone verifier.
    - Application: over any requests every payment is backed by its hold and its
      settlement in the ledger; requests take only steps of the payment book;
      settlement takes each captured payment exactly once, succeeds when there is
      room, and its payments then verify against the registry; authorisations are
      idempotent per key and webhook events take effect at most once, and only with
      a valid signature.  After any orderly traffic (no deposit to a merchant's account,
      no payment number chosen by a delivery) captured payments and merchants' credits
      agree, and the audit finds no drift.  Requests that run at the same time all end,
      in any schedule, with the payments backed; no transfer is accepted by a rail twice,
      and requests with one key have one response; undisturbed the threads are the
      handlers.  The dashboard page shows the state's own values in its holes and is
      otherwise its template, every path has at most one route, and the port is one.
    - Simulator: a tick delivers exactly the packets due; a node that crashes, torn
      write or not, recovers exactly what it had; under any schedule of faults and any
      random choices the cluster does not panic and no committed operation is ever
      contradicted; every scenario finishes for every seed with money conserved and
      logs in agreement; the exit code depends on the arguments alone, and the endpoint
      that runs a scenario always reports that it passed.
    - Metrics: however threads interleave, and whatever stale values they load, a
      histogram ends as if the observations had been made one after the other, and
      bucket counts are exact and cumulative; the text shows the sum of all updates.
    - Theorems that exhibit behaviour the code does not intend:
      [failed_cleanup_resurrects], [debug_build_overflow], [leaf_count_unbound],
      [backdated_is_refused], [reinitialise_erases], [root_accepted_as_leaf],
      [deposit_credits_merchant], [made_up_receipt_verified], [webhook_replaces_captured],
      [behind_refused] with [delivery_sets_clock], [overtaken_is_refused], [view_shows_phantom_drift],
      [hint_misses_errors], [lost_proposal_stalls],
      [vote_forgotten], [torn_snapshot] and [counters_of_transfers].

    ** Parameters

    Code outside the repository is a parameter.  CRC-32C is the class [Crc32c] (a
    32-bit checksum that can be continued), with the Castagnoli polynomial as an instance for
    worked examples; [postcard] is the class [Postcard] with its round-trip
    property, with a variable-length format as an instance; SHA-256 is a function
    argument of the Merkle definitions, and the binding theorem returns a collision
    instead of assuming there is none.  Borsh, the Solana runtime (address derivation,
    clock) and proof bytes are the classes [Borsh], [Runtime] and [ProofBytes], JSON is
    the class [Json], the snapshot format of a replica is [SnapshotCodec]; each has a
    concrete instance in a worked example.  HMAC-SHA256 and the texts of errors are
    function arguments, as are the text of a public key, the parsing of an address and the
    serving of connections; openraft's log identifiers and memberships are types, and its
    engine, with tokio's timer, is the class [Openraft] of operations on a world, of which
    only that a sleep lasts is asked; JSON receipts are [ReceiptJson].  The
    simulator's ChaCha8 generator is the class [Rng], which bounds its draws and
    promises nothing else; its log entries' format is [EntryCodec]; a counting generator and a fixed-width format are instances.  System
    calls, the wall clock and arrivals on the queue are scripts given to the
    operations, so the theorems quantify over every behaviour of the environment,
    including failing clean-up calls.

    ** Bounds and fuel

    [open_loop] takes as fuel one more than the number of bytes in the file, and
    [collect] two more than the number of records: each turn consumes a frame of at
    least [FRAME_OVERHEAD] bytes, or a record, and the theorems on [open] and
    [read_records] show that the results are complete.  The scanner's loops run on
    the bytes and events left.  The walk of [generate_proof] from a leaf to its peak
    has as fuel one more than the number of nodes, and [generated_proofs_verify] shows
    that it arrives.  A simulated node's recovery has the bytes of its disk as fuel,
    which [recover_ok] shows to be enough, waiting for a leader two more polls than fifteen
    milliseconds fit in the timeout ([wait_for_leader_ends]), and the application of pending commits one
    turn more than there are entries, after which none applies ([apply_pending_done]);
    the workload's loop for another receiver, unbounded in the source, has a fuel that is
    an argument: the theorems hold for every fuel, and say that a run which uses it up has
    drawn one number that many times in a row ([streak]).  All other recursion is structural.  Sequence
    numbers are 64-bit in the frame; the theorems assume that fewer than [2 ^ 64]
    records are written, and those on the simulator fewer than about [2 ^ 64] ticks.

    ** What is not modelled, and what comes next

    Not modelled: texts of errors beyond what the code stores, the protobuf wire
    format and openraft's protocol (generated or library code), the static HTML of the
    page (an argument of its rendering, whose texts between the placeholders satisfy
    [page_ok]) and its browser script, and what command-line tools print.  Threads are modelled for the metrics
    and for the application's handlers that change payments and the dashboard's data; the
    sample payments and the other handlers that only read run one at a time, and the engine is the only writer of its
    ledger.  Probabilities are fractions where the simulator has floating-point numbers.
    What is left of the sources is tests, imports and the text of the page. *)

From stdpp Require Export base tactics gmap fin_maps list sorting strings.
From Stdlib Require Export NArith ZArith Lia.

#[export] Set Warnings "-clear-no-such-hyp".
#[global] Open Scope N_scope.

(** ** Results: Rust's [Result<A, E>] *)

Inductive result (E A : Type) : Type :=
| Ok (a : A)
| Err (e : E).
Arguments Ok {E A} a.
Arguments Err {E A} e.

Definition is_ok {E A} (r : result E A) : bool :=
  match r with Ok _ => true | Err _ => false end.

#[global] Instance result_eq_dec {E A} `{EqDecision E, EqDecision A} :
  EqDecision (result E A).
Proof. solve_decision. Defined.

#[global] Instance result_ret {E} : MRet (result E) := fun A x => Ok x.
#[global] Instance result_bind {E} : MBind (result E) := fun A B f r =>
  match r with Ok a => f a | Err e => Err e end.
#[global] Instance result_fmap {E} : FMap (result E) := fun A B f r =>
  match r with Ok a => Ok (f a) | Err e => Err e end.

(** [Option::ok_or] and [Result::map_err]. *)
Definition ok_or {E A} (o : option A) (e : E) : result E A :=
  match o with Some a => Ok a | None => Err e end.

Definition map_err {E F A} (f : E -> F) (r : result E A) : result F A :=
  match r with Ok a => Ok a | Err e => Err (f e) end.

(** [Result::ok]. *)
Definition result_ok {E A} (r : result E A) : option A :=
  match r with Ok a => Some a | Err _ => None end.

Lemma bind_ok {E A B} (f : A -> result E B) (r : result E A) b :
  mbind f r = Ok b <-> exists a, r = Ok a /\ f a = Ok b.
Proof. destruct r; simpl; naive_solver. Qed.

Lemma bind_err {E A B} (f : A -> result E B) (r : result E A) e :
  mbind f r = Err e <-> r = Err e \/ exists a, r = Ok a /\ f a = Err e.
Proof. destruct r; simpl; naive_solver. Qed.

Lemma ok_or_ok {E A} (o : option A) (e : E) a : ok_or o e = Ok a <-> o = Some a.
Proof. destruct o; simpl; naive_solver. Qed.

Lemma ok_or_err {E A} (o : option A) (e e' : E) :
  ok_or o e = Err e' <-> o = None /\ e = e'.
Proof. destruct o; simpl; naive_solver. Qed.

(** ** State and errors: a method taking [&mut self] and returning a [Result]

    The state is returned on the error branch too, exactly as Rust leaves it
    there: whatever was written before the failing [?] stays written.  That an
    error leaves the state untouched is therefore a theorem about each method,
    not a feature of the encoding. *)

Definition st (S E A : Type) : Type := S -> S * result E A.

Definition st_ret {S E A} (a : A) : st S E A := fun s => (s, Ok a).
Definition st_fail {S E A} (e : E) : st S E A := fun s => (s, Err e).
Definition st_bind {S E A B} (m : st S E A) (f : A -> st S E B) : st S E B :=
  fun s => match m s with
           | (s', Ok a) => f a s'
           | (s', Err e) => (s', Err e)
           end.

(** A read-only computation ([&self]) followed by [?]. *)
Definition st_reads {S E A} (f : S -> result E A) : st S E A := fun s => (s, f s).
(** An infallible write. *)
Definition st_modify {S E} (f : S -> S) : st S E unit := fun s => (f s, Ok tt).

Declare Scope st_scope.
Delimit Scope st_scope with st.
Bind Scope st_scope with st.
(** [let? x := m in k] is [let x = m?; k], [do? m ; k] is [m?; k], and
    [reject? b with e ; k] is [if b { return Err(e); } k]. *)
Notation "'let?' x ':=' m 'in' k" := (st_bind m (fun x => k))
  (at level 10, x binder, m at level 100, k at level 200) : st_scope.
Notation "'do?' m ; k" := (st_bind m (fun _ => k))
  (at level 10, m at level 100, k at level 200) : st_scope.
Notation "'reject?' b 'with' e ; k" := (if b then st_fail e else k)
  (at level 10, b at level 100, e at level 100, k at level 200) : st_scope.

(** Inversion of a run into the runs of its parts. *)
Lemma st_bind_ok {S E A B} (m : st S E A) (f : A -> st S E B) s s' b :
  st_bind m f s = (s', Ok b) <-> exists s1 a, m s = (s1, Ok a) /\ f a s1 = (s', Ok b).
Proof.
  unfold st_bind. destruct (m s) as [s1 [a|e]]; split; try naive_solver.
Qed.

Lemma st_bind_err {S E A B} (m : st S E A) (f : A -> st S E B) s s' e :
  st_bind m f s = (s', Err e) <->
  m s = (s', Err e) \/ exists s1 a, m s = (s1, Ok a) /\ f a s1 = (s', Err e).
Proof.
  unfold st_bind. destruct (m s) as [s1 [a|e1]]; split; try naive_solver.
Qed.

Lemma st_reads_ok {S E A} (f : S -> result E A) s s' a :
  st_reads f s = (s', Ok a) <-> s' = s /\ f s = Ok a.
Proof. unfold st_reads. split; [intros [= <- ?]; auto | intros [-> ->]; auto]. Qed.

Lemma st_reads_err {S E A} (f : S -> result E A) s s' e :
  st_reads f s = (s', Err e) <-> s' = s /\ f s = Err e.
Proof. unfold st_reads. split; [intros [= <- ?]; auto | intros [-> ->]; auto]. Qed.

Lemma st_modify_ok {S E} (f : S -> S) s s' (u : unit) :
  @st_modify S E f s = (s', Ok u) <-> s' = f s.
Proof. unfold st_modify. destruct u. split; [intros [= <-]; auto | intros ->; auto]. Qed.

(** Loops over a slice: with [?] in a pure body, and threading the state. *)
Fixpoint try_fold {E A B} (f : B -> A -> result E B) (l : list A) (b : B) : result E B :=
  match l with
  | [] => Ok b
  | x :: l' => f b x ≫= try_fold f l'
  end.

Fixpoint st_for {S E A} (f : A -> st S E unit) (l : list A) : st S E unit :=
  match l with
  | [] => st_ret tt
  | x :: l' => st_bind (f x) (fun _ => st_for f l')
  end.

Lemma try_fold_app {E A B} (f : B -> A -> result E B) l1 l2 b :
  try_fold f (l1 ++ l2) b = try_fold f l1 b ≫= try_fold f l2.
Proof.
  revert b. induction l1 as [|x l1 IH]; intros b; simpl; [done|].
  destruct (f b x); simpl; auto.
Qed.

(** ** Unsigned machine integers

    A value of type [u64], [u128] or [usize] is an [N]; the widths appear where
    the source can notice them, in the checked and saturating operations. *)

Definition U8_MAX : N := 255.
Definition U32_MAX : N := 4294967295.
Definition U64_MAX : N := 18446744073709551615.
Definition U128_MAX : N := 340282366920938463463374607431768211455.
Definition I128_MAX : N := 170141183460469231731687303715884105727.

Definition checked_add (max a b : N) : option N :=
  if a + b <=? max then Some (a + b) else None.
Definition checked_sub (a b : N) : option N :=
  if b <=? a then Some (a - b) else None.
Definition checked_mul (max a b : N) : option N :=
  if a * b <=? max then Some (a * b) else None.
Definition checked_div (a b : N) : option N :=
  if b =? 0 then None else Some (a / b).
Definition saturating_add (max a b : N) : N := N.min max (a + b).
Definition saturating_sub (a b : N) : N := a - b.

Lemma checked_add_Some max a b c :
  checked_add max a b = Some c <-> c = a + b /\ a + b <= max.
Proof. unfold checked_add. destruct (N.leb_spec (a + b) max); split; intros; destruct_and?; simplify_eq; try lia; f_equal; lia. Qed.

Lemma checked_add_None max a b : checked_add max a b = None <-> max < a + b.
Proof. unfold checked_add. destruct (N.leb_spec (a + b) max); split; intros; destruct_and?; simplify_eq; try lia; f_equal; lia. Qed.

Lemma checked_sub_Some a b c : checked_sub a b = Some c <-> a = b + c.
Proof. unfold checked_sub. destruct (N.leb_spec b a); split; intros; destruct_and?; simplify_eq; try lia; f_equal; lia. Qed.

Lemma checked_sub_None a b : checked_sub a b = None <-> a < b.
Proof. unfold checked_sub. destruct (N.leb_spec b a); split; intros; destruct_and?; simplify_eq; try lia; f_equal; lia. Qed.

(** ** Sums over finite maps *)

Definition map_sum {A} (f : A -> N) (m : gmap N A) : N :=
  map_fold (fun _ v acc => f v + acc) 0 m.

Section map_sum.
Context {A : Type}.
Implicit Types (f g : A -> N) (m : gmap N A).

Lemma map_sum_empty f : map_sum f ∅ = 0.
Proof. apply map_fold_empty. Qed.

Lemma map_sum_insert_new f m k v :
  m !! k = None -> map_sum f (<[k:=v]> m) = f v + map_sum f m.
Proof.
  intros Hk. unfold map_sum. rewrite map_fold_insert_L; [done| |done].
  intros; lia.
Qed.

Lemma map_sum_delete f m k v :
  m !! k = Some v -> map_sum f m = f v + map_sum f (delete k m).
Proof.
  intros Hk. rewrite <- (insert_delete_id m k v Hk) at 1.
  apply map_sum_insert_new, lookup_delete_eq.
Qed.

Lemma map_sum_update f m k v w :
  m !! k = Some v -> map_sum f (<[k:=w]> m) + f v = map_sum f m + f w.
Proof.
  intros Hk. rewrite (map_sum_delete f m k v Hk), <- insert_delete_eq.
  rewrite map_sum_insert_new by apply lookup_delete_eq. lia.
Qed.

Lemma map_sum_ext f g m :
  (forall k v, m !! k = Some v -> f v = g v) -> map_sum f m = map_sum g m.
Proof.
  induction m as [|k v m Hk IH] using map_ind; intros Hfg.
  - by rewrite !map_sum_empty.
  - rewrite !map_sum_insert_new by done. f_equal.
    + apply (Hfg k). by rewrite lookup_insert_eq.
    + apply IH. intros k' v' Hk'. apply (Hfg k').
      rewrite lookup_insert_ne; [done|]. by intros ->; rewrite Hk in Hk'.
Qed.

Lemma map_sum_lookup_le f m k v : m !! k = Some v -> f v <= map_sum f m.
Proof. intros Hk. rewrite (map_sum_delete f m k v Hk). lia. Qed.

Lemma map_sum_zero f m :
  (forall k v, m !! k = Some v -> f v = 0) -> map_sum f m = 0.
Proof.
  intros Hf. rewrite (map_sum_ext f (fun _ => 0) m Hf).
  induction m as [|k v m Hk IH] using map_ind; [apply map_sum_empty|].
  rewrite map_sum_insert_new by done. rewrite IH; [done|].
  intros k' v' Hk'. apply (Hf k'). rewrite lookup_insert_ne; [done|].
  by intros ->; rewrite Hk in Hk'.
Qed.

End map_sum.

(** ** [BTreeMap] iteration: entries in ascending key order *)

Definition key_le {A} (x y : N * A) : Prop := x.1 <= y.1.
#[global] Instance key_le_dec {A} (x y : N * A) : Decision (key_le x y) := N.le_dec _ _.

Definition btree_iter {A} (m : gmap N A) : list (N * A) :=
  merge_sort key_le (map_to_list m).
Definition btree_values {A} (m : gmap N A) : list A := (btree_iter m).*2.

Lemma btree_iter_perm {A} (m : gmap N A) : btree_iter m ≡ₚ map_to_list m.
Proof. apply merge_sort_Permutation. Qed.

Lemma elem_of_btree_iter {A} (m : gmap N A) k v :
  (k, v) ∈ btree_iter m <-> m !! k = Some v.
Proof. rewrite btree_iter_perm. apply elem_of_map_to_list. Qed.

Lemma btree_iter_sorted {A} (m : gmap N A) : Sorted key_le (btree_iter m).
Proof.
  apply Sorted_merge_sort. intros x y. unfold key_le. lia.
Qed.

(** The sum over a list of entries agrees with [map_sum], whatever the order. *)
Definition list_sum {A} (f : A -> N) (l : list A) : N := foldr (fun v acc => f v + acc) 0 l.

Lemma list_sum_app {A} (f : A -> N) l1 l2 :
  list_sum f (l1 ++ l2) = list_sum f l1 + list_sum f l2.
Proof. induction l1; simpl; lia. Qed.

#[global] Instance list_sum_proper {A} (f : A -> N) :
  Proper ((≡ₚ) ==> (=)) (list_sum f).
Proof. induction 1; simpl; lia. Qed.

Lemma map_sum_btree {A} (f : A -> N) (m : gmap N A) :
  map_sum f m = list_sum f (btree_values m).
Proof.
  unfold btree_values. rewrite (btree_iter_perm m).
  unfold map_sum. rewrite map_fold_foldr.
  induction (map_to_list m) as [|[k v] l IH]; simpl; [done|]. by rewrite IH.
Qed.

(** ** Sorted lists and bit lengths *)

Lemma filter_all {A} (Q : A -> Prop) `{!forall x, Decision (Q x)} l : Forall Q l -> filter Q l = l.
Proof. induction 1; [done|]. rewrite filter_cons, decide_True by done. by f_equal. Qed.

Lemma filter_none {A} (Q : A -> Prop) `{!forall x, Decision (Q x)} l : Forall (fun x => ~ Q x) l -> filter Q l = [].
Proof. induction 1; [done|]. by rewrite filter_cons, decide_False by done. Qed.

Lemma StronglySorted_snoc {A} (R : relation A) l x :
  StronglySorted R l -> Forall (fun y => R y x) l -> StronglySorted R (l ++ [x]).
Proof.
  induction 1 as [|y l Hs IH Hy]; intros Hx; simpl; [repeat constructor|].
  inversion Hx; subst. constructor; [by apply IH|]. apply Forall_app. auto.
Qed.

Lemma size_nat_size n : N.of_nat (N.size_nat n) = N.size n.
Proof. destruct n as [|p]; [done|]. simpl. induction p; simpl; lia. Qed.

(** ** Automation *)

Create HintDb ledger.

(** Break a successful (or failing) monadic run in the hypotheses into the runs
    of its parts, splitting the guards on the way. *)
Ltac step_run :=
  match goal with
  | H : ?x = ?x |- _ => clear H
  | H : Ok _ = Ok _ |- _ => injection H as H; subst
  | H : Err _ = Err _ |- _ => injection H as H; subst
  | H : Ok _ = Err _ |- _ => discriminate H
  | H : Err _ = Ok _ |- _ => discriminate H
  | H : (_, _) = (_, _) |- _ => injection H as H; subst
  | H : _ /\ _ |- _ => destruct H
  | H : exists _, _ |- _ => destruct H
  | u : unit |- _ => destruct u
  | H : st_bind _ _ _ = (_, Ok _) |- _ => apply st_bind_ok in H
  | H : st_reads _ _ = (_, Ok _) |- _ => apply st_reads_ok in H
  | H : st_modify _ _ = (_, Ok _) |- _ => apply st_modify_ok in H
  | H : st_ret _ _ = _ |- _ => unfold st_ret in H
  | H : st_fail _ _ = _ |- _ => unfold st_fail in H
  | H : mbind _ _ = Ok _ |- _ => apply bind_ok in H
  | H : ok_or _ _ = Ok _ |- _ => apply ok_or_ok in H
  | H : checked_add _ _ _ = Some _ |- _ => apply checked_add_Some in H
  | H : checked_sub _ _ = Some _ |- _ => apply checked_sub_Some in H
  | H : (if ?b then _ else _) _ = (_, _) |- _ => destruct b eqn:?
  | H : (if ?b then _ else _) = Ok _ |- _ => destruct b eqn:?
  | H : negb _ = false |- _ => apply negb_false_iff in H
  | H : negb _ = true |- _ => apply negb_true_iff in H
  | H : bool_decide _ = true |- _ => apply bool_decide_eq_true in H
  | H : bool_decide _ = false |- _ => apply bool_decide_eq_false in H
  end.
Ltac run_inv := repeat (step_run; simplify_eq/=).

(** A read followed by a continuation either fails with the state untouched or
    continues in the same state. *)
Lemma st_bind_reads {S E A B} (f : S -> result E A) (k : A -> st S E B) s :
  st_bind (st_reads f) k s = match f s with Ok a => k a s | Err e => (s, Err e) end.
Proof. unfold st_bind, st_reads. by destruct (f s). Qed.

Lemma st_bind_assoc {S E A B C} (m : st S E A) (f : A -> st S E B) (g : B -> st S E C) s :
  st_bind (st_bind m f) g s = st_bind m (fun a => st_bind (f a) g) s.
Proof. unfold st_bind. by destruct (m s) as [s' [a|e]]. Qed.

Lemma st_bind_modify {S E B} (f : S -> S) (k : unit -> st S E B) s :
  st_bind (st_modify f) k s = k tt (f s).
Proof. done. Qed.

Lemma alter_insert_eq {A} (f : A -> A) (m : gmap N A) i x :
  m !! i = Some x -> alter f i m = <[i := f x]> m.
Proof.
  intros Hi. apply map_eq. intros j. destruct (decide (i = j)) as [<-|Hne].
  - by rewrite lookup_alter_eq, Hi, lookup_insert_eq.
  - by rewrite lookup_alter_ne, lookup_insert_ne by done.
Qed.

Lemma map_sum_alter {A} (f : A -> N) g (m : gmap N A) k v :
  m !! k = Some v -> map_sum f (alter g k m) + f v = map_sum f m + f (g v).
Proof. intros Hk. rewrite (alter_insert_eq g m k v Hk). by apply map_sum_update. Qed.

(** Altering an entry in a way the weight does not see. *)
Lemma map_sum_alter_same {A} (f : A -> N) g (m : gmap N A) k :
  (forall v, m !! k = Some v -> f (g v) = f v) -> map_sum f (alter g k m) = map_sum f m.
Proof.
  intros Hfg. destruct (m !! k) as [v|] eqn:Hk.
  - pose proof (map_sum_alter f g m k v Hk). specialize (Hfg v eq_refl). lia.
  - f_equal. apply map_eq. intros j. destruct (decide (k = j)) as [<-|Hne].
    + by rewrite lookup_alter_eq, Hk.
    + by rewrite lookup_alter_ne.
Qed.
