(* ===== verification/Error.v ===== *)
(** * The shared data types and the errors of [ledger-core]

    [crates/ledger-core/src/{error,id,amount,transfer}.rs]: the newtypes
    [AccountId], [TransferId] and [Amount] are the [u128] they wrap, as [N];
    [Scale] keeps its constructor because the source compares scales as values. *)

From S2P Require Import Prelude.

Abbreviation AccountId := N (only parsing).
Abbreviation TransferId := N (only parsing).
Abbreviation Amount := N (only parsing).

(** [Scale(u8)]. *)
Record Scale : Type := mkScale { scale_raw : N }.

(** [TransferState]. *)
Inductive TransferState : Type := Pending | Posted | Voided.

(** [LedgerError]. *)
Inductive LedgerError : Type :=
| InvalidIdentifier (s : string)
| InvalidScale (scale : N)
| ArithmeticOverflow
| DivisionByZero
| SignedBalanceOverflow
| InsufficientFunds (account_id : AccountId) (requested available : Amount)
| AccountAlreadyExists (id : AccountId)
| AccountNotFound (id : AccountId)
| AccountClosed (id : AccountId)
| TransferAlreadyExists (id : TransferId)
| TransferNotFound (id : TransferId)
| InvalidTransferState (id : TransferId) (expected actual : TransferState)
| DebitCreditAccountSame (id : AccountId)
| ZeroAmountTransfer (id : TransferId)
| ScaleMismatch (expected actual : Scale)
| ConservationViolation (total_debits total_credits : Amount)
| PartialAmountExceedsPending (transfer_id : TransferId) (requested pending : Amount)
| TimestampBehindPrior (timestamp last : N)
| JournalVoidedAmountMismatch (pending_id : TransferId) (pending amount : Amount)
| PendingBalanceMismatch (account_id : AccountId) (balance_pending transfers_pending : Amount)
| InvalidPendingLink (transfer_id pending_id : TransferId) (actual : TransferState)
| PendingLinkMissing (transfer_id pending_id : TransferId).

#[global] Instance Scale_eq_dec : EqDecision Scale.
Proof. solve_decision. Defined.
#[global] Instance TransferState_eq_dec : EqDecision TransferState.
Proof. solve_decision. Defined.
#[global] Instance LedgerError_eq_dec : EqDecision LedgerError.
Proof. solve_decision. Defined.
