(* ===== verification/Amount.v ===== *)
(** * Fixed-point amounts, scales and identifiers

    [crates/ledger-core/src/amount.rs] and [crates/ledger-core/src/id.rs].  The
    arithmetic is checked at the [u128] boundary; decimal rendering and parsing
    follow the standard library's [Display]/[FromStr] for unsigned integers. *)

From Stdlib Require Import Ascii.
From S2P Require Import Prelude Error.

Definition MAX_SCALE : N := 18.

(** ** [Scale] *)

Definition Scale_new (scale : N) : result LedgerError Scale :=
  if MAX_SCALE <? scale then Err (InvalidScale scale) else Ok (mkScale scale).

Definition Scale_usd : Scale := mkScale 2.
Definition Scale_usdc : Scale := mkScale 6.
Definition Scale_btc : Scale := mkScale 8.
Definition Scale_eth : Scale := mkScale 18.

(** [10u128.checked_pow(self.0)]. *)
Definition multiplier (self : Scale) : result LedgerError N :=
  let p := 10 ^ scale_raw self in
  ok_or (if p <=? U128_MAX then Some p else None) ArithmeticOverflow.

(** ** [Amount] *)

Definition amount_is_zero (self : Amount) : bool := self =? 0.

Definition amount_checked_add (self other : Amount) : result LedgerError Amount :=
  ok_or (checked_add U128_MAX self other) ArithmeticOverflow.
Definition amount_checked_sub (self other : Amount) : result LedgerError Amount :=
  ok_or (checked_sub self other) ArithmeticOverflow.
Definition amount_checked_mul (self : Amount) (factor : N) : result LedgerError Amount :=
  ok_or (checked_mul U128_MAX self factor) ArithmeticOverflow.
Definition amount_checked_div (self : Amount) (divisor : N) : result LedgerError Amount :=
  ok_or (checked_div self divisor) DivisionByZero.

(** ** Decimal rendering *)

(** Decimal digits, most significant first; [fuel] bounds their number. *)
Fixpoint dec_digits (fuel : nat) (n : N) (acc : list N) : list N :=
  match fuel with
  | O => acc
  | S fuel' =>
      if n <? 10 then n :: acc else dec_digits fuel' (n / 10) (n mod 10 :: acc)
  end.

Definition digit_char (d : N) : ascii := ascii_of_N (48 + d).

Fixpoint string_of_digits (ds : list N) : string :=
  match ds with [] => EmptyString | d :: ds' => String (digit_char d) (string_of_digits ds') end.

(** [u128::to_string]: no leading zeros, ["0"] for zero.  A number has at most as
    many decimal digits as binary ones. *)
Definition dec_string (n : N) : string :=
  string_of_digits (dec_digits (S (N.size_nat n)) n []).

(** The [{:0width$}] format: left-pad with zeros up to [width] characters. *)
Definition pad_zeros (width : nat) (s : string) : string :=
  string_of_digits (replicate (width - String.length s) 0) +:+ s.

Definition format_with_scale (self : Amount) (scale : Scale) : string :=
  if scale_raw scale =? 0 then dec_string self
  else
    let mult := match multiplier scale with Ok m => m | Err _ => 1 end in
    let integer_part := self / mult in
    let fractional_part := self mod mult in
    dec_string integer_part +:+ "." +:+
      pad_zeros (N.to_nat (scale_raw scale)) (dec_string fractional_part).

(** ** Parsing identifiers *)

(** [str::parse::<u128>]: an optional plus sign, then at least one digit, with
    checked multiplication and addition per digit; leading zeros are accepted. *)
Definition char_digit (c : ascii) : option N :=
  let n := N_of_ascii c in
  if (48 <=? n) && (n <=? 57) then Some (n - 48) else None.

Fixpoint parse_digits (acc : N) (s : string) : option N :=
  match s with
  | EmptyString => Some acc
  | String c s' =>
      match char_digit c with
      | None => None
      | Some d =>
          match checked_mul U128_MAX acc 10 with
          | None => None
          | Some m =>
              match checked_add U128_MAX m d with
              | None => None
              | Some acc' => parse_digits acc' s'
              end
          end
      end
  end.

Definition strip_plus (s : string) : string :=
  match s with
  | String c s' => if Ascii.eqb c "+" then s' else s
  | EmptyString => s
  end.

Definition parse_u128 (s : string) : option N :=
  match strip_plus s with
  | EmptyString => None
  | s' => parse_digits 0 s'
  end.

Definition AccountId_from_str (s : string) : result LedgerError AccountId :=
  ok_or (parse_u128 s) (InvalidIdentifier s).
Definition TransferId_from_str (s : string) : result LedgerError TransferId :=
  ok_or (parse_u128 s) (InvalidIdentifier s).

(** ** Checked arithmetic is exact or an overflow *)

Lemma amount_add_ok a b c :
  amount_checked_add a b = Ok c <-> c = a + b /\ a + b <= U128_MAX.
Proof. unfold amount_checked_add. by rewrite ok_or_ok, checked_add_Some. Qed.

Lemma amount_add_err a b e :
  amount_checked_add a b = Err e <-> e = ArithmeticOverflow /\ U128_MAX < a + b.
Proof.
  unfold amount_checked_add. rewrite ok_or_err, checked_add_None. naive_solver.
Qed.

Lemma amount_sub_ok a b c : amount_checked_sub a b = Ok c <-> a = b + c.
Proof. unfold amount_checked_sub. by rewrite ok_or_ok, checked_sub_Some. Qed.

(** The multiplier of every scale [Scale::new] accepts fits in a [u128]. *)
Lemma multiplier_valid s sc : Scale_new s = Ok sc -> multiplier sc = Ok (10 ^ s).
Proof.
  unfold Scale_new, multiplier, MAX_SCALE. intros H.
  destruct (18 <? s) eqn:E; [done|]. simplify_eq/=.
  apply N.ltb_ge in E.
  rewrite (proj2 (N.leb_le (10 ^ s) U128_MAX)); [done|].
  transitivity (10 ^ 18); [by apply N.pow_le_mono_r | by vm_compute].
Qed.

(** ** Decimal digits *)

Lemma char_digit_char d : d < 10 -> char_digit (digit_char d) = Some d.
Proof.
  intros Hd. unfold char_digit, digit_char.
  rewrite N_ascii_embedding by lia.
  rewrite (proj2 (N.leb_le 48 (48 + d))) by lia.
  rewrite (proj2 (N.leb_le (48 + d) 57)) by lia. simpl. f_equal; lia.
Qed.

Lemma parse_digits_step acc d s :
  d < 10 -> acc * 10 + d <= U128_MAX ->
  parse_digits acc (String (digit_char d) s) = parse_digits (acc * 10 + d) s.
Proof.
  intros Hd Hle. simpl. rewrite char_digit_char by done.
  unfold checked_mul. rewrite (proj2 (N.leb_le (acc * 10) U128_MAX)) by lia.
  unfold checked_add. by rewrite (proj2 (N.leb_le _ _) Hle).
Qed.

Lemma parse_dec_digits fuel n ds :
  n < 10 ^ N.of_nat fuel -> n <= U128_MAX ->
  parse_digits 0 (string_of_digits (dec_digits fuel n ds)) =
  parse_digits n (string_of_digits ds).
Proof.
  revert n ds. induction fuel as [|fuel IH]; intros n ds Hn Hmax.
  { simpl in *. by replace n with 0 by lia. }
  cbn [dec_digits]. destruct (N.ltb_spec n 10) as [Hlt|Hge].
  - cbn [string_of_digits]. rewrite parse_digits_step by lia. f_equal; lia.
  - pose proof (N.div_mod n 10 ltac:(lia)). pose proof (N.mod_lt n 10 ltac:(lia)).
    rewrite IH; [|rewrite Nat2N.inj_succ, N.pow_succ_r in Hn by lia|].
    + cbn [string_of_digits]. rewrite parse_digits_step by lia. f_equal; lia.
    + apply N.Div0.div_lt_upper_bound. lia.
    + transitivity n; [|done]. apply N.Div0.div_le_upper_bound. lia.
Qed.

Lemma dec_fuel_enough n : n < 10 ^ N.of_nat (S (N.size_nat n)).
Proof.
  rewrite Nat2N.inj_succ, size_nat_size.
  apply N.lt_le_trans with (2 ^ N.size n); [apply N.size_gt|].
  transitivity (10 ^ N.size n).
  - apply N.pow_le_mono_l. lia.
  - apply N.pow_le_mono_r; lia.
Qed.

Lemma dec_digits_length fuel n ds k :
  (1 <= k)%nat -> n < 10 ^ N.of_nat k ->
  (String.length (string_of_digits (dec_digits fuel n ds)) <= k + length ds)%nat.
Proof.
  revert n ds k. induction fuel as [|fuel IH]; intros n ds k Hk Hn; simpl.
  { clear. induction ds; simpl; lia. }
  assert (forall ds, String.length (string_of_digits ds) = length ds) as Hlen.
  { clear. induction ds; simpl; auto. }
  destruct (N.ltb_spec n 10) as [Hlt|Hge]; simpl; [rewrite Hlen; lia|].
  destruct k as [|[|k]]; [lia| |].
  { rewrite N.pow_1_r in Hn. lia. }
  rewrite (IH _ _ (S k)); [simpl; lia|lia|].
  rewrite Nat2N.inj_succ, N.pow_succ_r in Hn by lia.
  apply N.Div0.div_lt_upper_bound. lia.
Qed.

Lemma dec_digits_cons fuel n ds :
  exists d ds', dec_digits (S fuel) n ds = d :: ds' /\ d < 10.
Proof.
  revert n ds. induction fuel as [|fuel IH]; intros n ds; simpl.
  - destruct (N.ltb_spec n 10); [eauto|]. exists (n mod 10), ds.
    split; [done|]. apply N.mod_lt. lia.
  - destruct (N.ltb_spec n 10); [eauto|]. apply IH.
Qed.

Lemma digit_char_not_plus d : d < 10 -> Ascii.eqb (digit_char d) "+" = false.
Proof.
  intros Hd. apply Ascii.eqb_neq. intros Heq.
  apply (f_equal N_of_ascii) in Heq. unfold digit_char in Heq.
  rewrite N_ascii_embedding in Heq by lia. simpl in Heq. lia.
Qed.

Lemma parse_u128_dec_string n : n <= U128_MAX -> parse_u128 (dec_string n) = Some n.
Proof.
  intros Hn. unfold parse_u128, dec_string.
  destruct (dec_digits_cons (N.size_nat n) n []) as (d & ds & E & Hd).
  pose proof (parse_dec_digits (S (N.size_nat n)) n [] (dec_fuel_enough n) Hn) as Hp.
  rewrite E in Hp |- *. cbn [string_of_digits strip_plus].
  rewrite digit_char_not_plus by done. exact Hp.
Qed.

(** Zero-padding does not change the value, and gives exactly [width] characters
    to a number that fits in them. *)
Lemma parse_pad_zeros k acc s :
  acc = 0 -> parse_digits acc (string_of_digits (replicate k 0) +:+ s) = parse_digits 0 s.
Proof.
  intros ->. induction k as [|k IH]; [done|].
  change (parse_digits 0 (String (digit_char 0) (string_of_digits (replicate k 0) +:+ s)) =
          parse_digits 0 s).
  rewrite parse_digits_step; [exact IH|lia|by vm_compute].
Qed.

Lemma length_append (s t : string) :
  String.length (s +:+ t) = (String.length s + String.length t)%nat.
Proof.
  induction s as [|c s IH]; [done|].
  change (S (String.length (s +:+ t)) = S (String.length s + String.length t)).
  by rewrite IH.
Qed.

Lemma length_pad_zeros w s :
  (String.length s <= w)%nat -> String.length (pad_zeros w s) = w.
Proof.
  intros Hs. unfold pad_zeros. rewrite length_append.
  assert (forall k, String.length (string_of_digits (replicate k 0)) = k) as ->.
  { induction k; simpl; auto. }
  lia.
Qed.

(** The rendering of an amount at a positive scale: the quotient by the
    multiplier, a point, and the remainder in exactly [scale] digits. *)
Lemma format_with_scale_parts n s sc :
  Scale_new s = Ok sc -> 0 < s -> n <= U128_MAX ->
  exists int frac,
    format_with_scale n sc = int +:+ "." +:+ frac /\
    parse_u128 int = Some (n / 10 ^ s) /\
    parse_digits 0 frac = Some (n mod 10 ^ s) /\
    String.length frac = N.to_nat s.
Proof.
  intros Hs Hpos Hn. pose proof (multiplier_valid s sc Hs) as Hm.
  unfold Scale_new in Hs. destruct (MAX_SCALE <? s); [done|]. simplify_eq/=.
  unfold format_with_scale. simpl.
  rewrite (proj2 (N.eqb_neq s 0)) by lia. rewrite Hm.
  assert (10 ^ s <> 0) as Hnz by (apply N.pow_nonzero; lia).
  eexists _, _. split; [reflexivity|].
  pose proof (N.mod_lt n (10 ^ s) Hnz) as Hlt.
  pose proof (N.Div0.mod_le n (10 ^ s)) as Hmle.
  assert (n / 10 ^ s <= n) as Hdle by (apply N.Div0.div_le_upper_bound; nia).
  repeat split.
  - apply parse_u128_dec_string. lia.
  - unfold pad_zeros. rewrite parse_pad_zeros by done.
    unfold dec_string. rewrite parse_dec_digits; [done|apply dec_fuel_enough|lia].
  - apply length_pad_zeros. unfold dec_string.
    rewrite (dec_digits_length _ _ _ (N.to_nat s)); simpl; [lia|lia|].
    by rewrite N2Nat.id.
Qed.
