(* ===== verification/Account.v ===== *)
(** * Accounts, balance limits and balances

    [crates/ledger-core/src/account.rs]. *)

From S2P Require Import Prelude Error Amount.

Inductive AccountType : Type := Asset | Liability | Equity | Revenue | Expense.

Record AccountFlags : Type := mkFlags {
  debits_must_not_exceed_credits : bool;
  credits_must_not_exceed_debits : bool;
  is_closed : bool;
}.

Definition flags_customer : AccountFlags := mkFlags true false false.
Definition flags_bank_asset : AccountFlags := mkFlags false true false.
Definition flags_fee_revenue : AccountFlags := mkFlags false false false.
Definition flags_unrestricted : AccountFlags := mkFlags false false false.

Record Balance : Type := mkBalance {
  debits_posted : Amount;
  credits_posted : Amount;
  debits_pending : Amount;
  credits_pending : Amount;
}.

Definition Balance_new : Balance := mkBalance 0 0 0 0.

Record Account : Type := mkAccount {
  acc_id : AccountId;
  account_type : AccountType;
  acc_flags : AccountFlags;
  acc_scale : Scale;
  acc_balance : Balance;
}.

Definition Account_new (id : AccountId) (ty : AccountType) (flags : AccountFlags)
    (scale : Scale) : Account :=
  mkAccount id ty flags scale Balance_new.

#[global] Instance AccountType_eq_dec : EqDecision AccountType.
Proof. solve_decision. Defined.
#[global] Instance AccountFlags_eq_dec : EqDecision AccountFlags.
Proof. solve_decision. Defined.
#[global] Instance Balance_eq_dec : EqDecision Balance.
Proof. solve_decision. Defined.
#[global] Instance Account_eq_dec : EqDecision Account.
Proof. solve_decision. Defined.

(** Field assignments ([account.balance = b], [balance.debits_posted = v], ...). *)
Definition set_flags (f : AccountFlags) (a : Account) : Account :=
  mkAccount (acc_id a) (account_type a) f (acc_scale a) (acc_balance a).
Definition set_balance (b : Balance) (a : Account) : Account :=
  mkAccount (acc_id a) (account_type a) (acc_flags a) (acc_scale a) b.
Definition set_closed (f : AccountFlags) : AccountFlags :=
  mkFlags (debits_must_not_exceed_credits f) (credits_must_not_exceed_debits f) true.
Definition set_debits_posted (v : Amount) (b : Balance) : Balance :=
  mkBalance v (credits_posted b) (debits_pending b) (credits_pending b).
Definition set_credits_posted (v : Amount) (b : Balance) : Balance :=
  mkBalance (debits_posted b) v (debits_pending b) (credits_pending b).
Definition set_debits_pending (v : Amount) (b : Balance) : Balance :=
  mkBalance (debits_posted b) (credits_posted b) v (credits_pending b).
Definition set_credits_pending (v : Amount) (b : Balance) : Balance :=
  mkBalance (debits_posted b) (credits_posted b) (debits_pending b) v.

(** [i128::try_from(u128)]. *)
Definition i128_try_from (n : N) : result LedgerError Z :=
  if n <=? I128_MAX then Ok (Z.of_N n) else Err SignedBalanceOverflow.

Definition net_settled (self : Balance) (ty : AccountType) : result LedgerError Z :=
  debits ← i128_try_from (debits_posted self);
  credits ← i128_try_from (credits_posted self);
  Ok (match ty with
      | Asset | Expense => debits - credits
      | Liability | Equity | Revenue => credits - debits
      end)%Z.

Definition available_liability (self : Balance) : result LedgerError Amount :=
  debits ← amount_checked_add (debits_posted self) (debits_pending self);
  if debits <=? credits_posted self then Ok (credits_posted self - debits) else Ok 0.

Definition available_asset (self : Balance) : result LedgerError Amount :=
  credits ← amount_checked_add (credits_posted self) (credits_pending self);
  if credits <=? debits_posted self then Ok (debits_posted self - credits) else Ok 0.

Definition ensure_can_debit (self : Account) (amount : Amount) : result LedgerError unit :=
  if is_closed (acc_flags self) then Err (AccountClosed (acc_id self))
  else if debits_must_not_exceed_credits (acc_flags self) then
    t ← amount_checked_add (debits_posted (acc_balance self)) (debits_pending (acc_balance self));
    total_debits ← amount_checked_add t amount;
    if credits_posted (acc_balance self) <? total_debits then
      available ← available_liability (acc_balance self);
      Err (InsufficientFunds (acc_id self) amount available)
    else Ok tt
  else Ok tt.

Definition ensure_can_credit (self : Account) (amount : Amount) : result LedgerError unit :=
  if is_closed (acc_flags self) then Err (AccountClosed (acc_id self))
  else if credits_must_not_exceed_debits (acc_flags self) then
    t ← amount_checked_add (credits_posted (acc_balance self)) (credits_pending (acc_balance self));
    total_credits ← amount_checked_add t amount;
    if debits_posted (acc_balance self) <? total_credits then
      available ← available_asset (acc_balance self);
      Err (InsufficientFunds (acc_id self) amount available)
    else Ok tt
  else Ok tt.

(** ** What the two limit checks decide *)

(** The limit the flags put on a balance: posted plus reserved debits are covered
    by posted credits (customer accounts), and dually for reserve accounts. *)
Definition within_limits (f : AccountFlags) (b : Balance) : Prop :=
  (debits_must_not_exceed_credits f = true ->
     debits_posted b + debits_pending b <= credits_posted b) /\
  (credits_must_not_exceed_debits f = true ->
     credits_posted b + credits_pending b <= debits_posted b).

Lemma ensure_can_debit_ok a amt u :
  ensure_can_debit a amt = Ok u ->
  is_closed (acc_flags a) = false /\
  (debits_must_not_exceed_credits (acc_flags a) = true ->
   debits_posted (acc_balance a) + debits_pending (acc_balance a) + amt
     <= credits_posted (acc_balance a)).
Proof.
  unfold ensure_can_debit. intros H.
  destruct (is_closed (acc_flags a)); [done|]. split; [done|]. intros Hf.
  rewrite Hf in H. run_inv.
  rewrite amount_add_ok in *. destruct_and!. subst.
  match goal with H : (_ <? _) = false |- _ => apply N.ltb_ge in H; done end.
Qed.

Lemma ensure_can_credit_ok a amt u :
  ensure_can_credit a amt = Ok u ->
  is_closed (acc_flags a) = false /\
  (credits_must_not_exceed_debits (acc_flags a) = true ->
   credits_posted (acc_balance a) + credits_pending (acc_balance a) + amt
     <= debits_posted (acc_balance a)).
Proof.
  unfold ensure_can_credit. intros H.
  destruct (is_closed (acc_flags a)); [done|]. split; [done|]. intros Hf.
  rewrite Hf in H. run_inv.
  rewrite amount_add_ok in *. destruct_and!. subst.
  match goal with H : (_ <? _) = false |- _ => apply N.ltb_ge in H; done end.
Qed.

(** The spendable amount: credits not yet spent or reserved, zero if none. *)
Lemma available_liability_spec b :
  available_liability b =
    if debits_posted b + debits_pending b <=? U128_MAX
    then Ok (credits_posted b - (debits_posted b + debits_pending b))
    else Err ArithmeticOverflow.
Proof.
  unfold available_liability, amount_checked_add, checked_add.
  destruct (_ <=? U128_MAX); simpl; [|done].
  destruct (N.leb_spec (debits_posted b + debits_pending b) (credits_posted b)); [done|].
  f_equal. lia.
Qed.

Lemma available_asset_spec b :
  available_asset b =
    if credits_posted b + credits_pending b <=? U128_MAX
    then Ok (debits_posted b - (credits_posted b + credits_pending b))
    else Err ArithmeticOverflow.
Proof.
  unfold available_asset, amount_checked_add, checked_add.
  destruct (_ <=? U128_MAX); simpl; [|done].
  destruct (N.leb_spec (credits_posted b + credits_pending b) (debits_posted b)); [done|].
  f_equal. lia.
Qed.

(** The limit check as one formula: [held] is what the limited side has posted
    and reserved, [cover] what covers it. *)
Definition limit_check (closed limited : bool) (id : AccountId) (held cover amt : Amount) :
    result LedgerError unit :=
  if closed then Err (AccountClosed id)
  else if negb limited then Ok tt
  else if U128_MAX <? held + amt then Err ArithmeticOverflow
  else if cover <? held + amt then Err (InsufficientFunds id amt (cover - held))
  else Ok tt.

Lemma ensure_can_debit_eq a amt :
  ensure_can_debit a amt =
    limit_check (is_closed (acc_flags a)) (debits_must_not_exceed_credits (acc_flags a))
      (acc_id a) (debits_posted (acc_balance a) + debits_pending (acc_balance a))
      (credits_posted (acc_balance a)) amt.
Proof.
  unfold ensure_can_debit, limit_check.
  destruct (is_closed _); [done|]. destruct (debits_must_not_exceed_credits _); [|done].
  simpl. rewrite available_liability_spec. unfold amount_checked_add, checked_add.
  set (h := debits_posted _ + _).
  destruct (N.leb_spec h U128_MAX); simpl.
  - destruct (N.leb_spec (h + amt) U128_MAX), (N.ltb_spec U128_MAX (h + amt)); simpl; try lia; done.
  - destruct (N.ltb_spec U128_MAX (h + amt)); [done|lia].
Qed.

Lemma ensure_can_credit_eq a amt :
  ensure_can_credit a amt =
    limit_check (is_closed (acc_flags a)) (credits_must_not_exceed_debits (acc_flags a))
      (acc_id a) (credits_posted (acc_balance a) + credits_pending (acc_balance a))
      (debits_posted (acc_balance a)) amt.
Proof.
  unfold ensure_can_credit, limit_check.
  destruct (is_closed _); [done|]. destruct (credits_must_not_exceed_debits _); [|done].
  simpl. rewrite available_asset_spec. unfold amount_checked_add, checked_add.
  set (h := credits_posted _ + _).
  destruct (N.leb_spec h U128_MAX); simpl.
  - destruct (N.leb_spec (h + amt) U128_MAX), (N.ltb_spec U128_MAX (h + amt)); simpl; try lia; done.
  - destruct (N.ltb_spec U128_MAX (h + amt)); [done|lia].
Qed.
