(* ===== verification/Transfer.v ===== *)
(** * Transfers, journal events and batch operations

    [crates/ledger-core/src/transfer.rs], [journal.rs] and the [BatchOp] enum of
    [ledger.rs]. *)

From S2P Require Import Prelude Error Amount Account.

Record Transfer : Type := mkTransfer {
  tr_id : TransferId;
  debit_account_id : AccountId;
  credit_account_id : AccountId;
  tr_amount : Amount;
  tr_state : TransferState;
  pending_id : option TransferId;
  tr_timestamp : N;
}.

#[global] Instance Transfer_eq_dec : EqDecision Transfer.
Proof. solve_decision. Defined.

Definition validate_invariants (id : TransferId) (debit credit : AccountId) (amount : Amount) :
    result LedgerError unit :=
  if debit =? credit then Err (DebitCreditAccountSame debit)
  else if amount_is_zero amount then Err (ZeroAmountTransfer id)
  else Ok tt.

Definition new_immediate (id : TransferId) (debit credit : AccountId) (amount : Amount)
    (timestamp : N) : result LedgerError Transfer :=
  _ ← validate_invariants id debit credit amount;
  Ok (mkTransfer id debit credit amount Posted None timestamp).

Definition new_pending (id : TransferId) (debit credit : AccountId) (amount : Amount)
    (timestamp : N) : result LedgerError Transfer :=
  _ ← validate_invariants id debit credit amount;
  Ok (mkTransfer id debit credit amount Pending None timestamp).

Definition new_settlement (id : TransferId) (debit credit : AccountId) (amount : Amount)
    (pending : TransferId) (timestamp : N) : result LedgerError Transfer :=
  _ ← validate_invariants id debit credit amount;
  Ok (mkTransfer id debit credit amount Posted (Some pending) timestamp).

Definition validate_shape (self : Transfer) : result LedgerError unit :=
  match tr_state self, pending_id self with
  | Pending, Some p => Err (InvalidPendingLink (tr_id self) p Pending)
  | _, _ => Ok tt
  end.

(** [restore_state]: the assignment [self.state = state]. *)
Definition restore_state (s : TransferState) (self : Transfer) : Transfer :=
  mkTransfer (tr_id self) (debit_account_id self) (credit_account_id self)
    (tr_amount self) s (pending_id self) (tr_timestamp self).

Definition transition_to (target : TransferState) (self : Transfer) :
    result LedgerError Transfer :=
  match tr_state self, target with
  | Pending, Posted | Pending, Voided => Ok (restore_state target self)
  | _, _ => Err (InvalidTransferState (tr_id self) Pending (tr_state self))
  end.

(** [LedgerEvent]. *)
Inductive LedgerEvent : Type :=
| EvAccountCreated (id : AccountId) (ty : AccountType) (flags : AccountFlags)
    (scale : Scale) (timestamp : N)
| EvAccountClosed (id : AccountId) (timestamp : N)
| EvTransferPosted (transfer : Transfer)
| EvTransferPendingCreated (transfer : Transfer)
| EvTransferPendingPosted (pending post : TransferId) (amount : Amount) (timestamp : N)
| EvTransferPendingVoided (pending : TransferId) (amount : Amount) (timestamp : N).

(** [BatchOp]. *)
Inductive BatchOp : Type :=
| OpCreateAccount (id : AccountId) (ty : AccountType) (flags : AccountFlags)
    (scale : Scale) (timestamp : N)
| OpTransfer (transfer : Transfer)
| OpPending (transfer : Transfer)
| OpPostPending (pending post : TransferId) (amount : Amount) (timestamp : N)
| OpVoidPending (pending : TransferId) (timestamp : N)
| OpCloseAccount (id : AccountId) (timestamp : N).

#[global] Instance LedgerEvent_eq_dec : EqDecision LedgerEvent.
Proof. solve_decision. Defined.
#[global] Instance BatchOp_eq_dec : EqDecision BatchOp.
Proof. solve_decision. Defined.

(** [impl From<Transfer> for BatchOp]. *)
Definition BatchOp_from (t : Transfer) : BatchOp :=
  if bool_decide (tr_state t = Pending) then OpPending t else OpTransfer t.

Definition event_timestamp (e : LedgerEvent) : N :=
  match e with
  | EvAccountCreated _ _ _ _ t | EvAccountClosed _ t
  | EvTransferPendingPosted _ _ _ t | EvTransferPendingVoided _ _ t => t
  | EvTransferPosted tr | EvTransferPendingCreated tr => tr_timestamp tr
  end.

(** ** The lifecycle of a transfer *)

(** The legal lifecycle: only a pending transfer moves, to one of the two
    terminal states. *)
Inductive lifecycle : TransferState -> TransferState -> Prop :=
| lc_post : lifecycle Pending Posted
| lc_void : lifecycle Pending Voided.

Lemma transition_to_ok target t t' :
  transition_to target t = Ok t' <->
  lifecycle (tr_state t) target /\ t' = restore_state target t.
Proof.
  unfold transition_to. split.
  - destruct (tr_state t) eqn:Hs, target; intros; simplify_eq; split; auto; constructor.
  - intros [Hl ->]. by destruct Hl.
Qed.

Lemma validate_invariants_ok id d c a u :
  validate_invariants id d c a = Ok u <-> d <> c /\ 0 < a.
Proof.
  unfold validate_invariants, amount_is_zero. destruct u.
  destruct (N.eqb_spec d c), (N.eqb_spec a 0); split; intros; destruct_and?; try done; lia.
Qed.
