(* ===== verification/Ledger.v ===== *)
(** * The ledger: state and single operations

    [crates/ledger-core/src/ledger.rs], the mutations [create_account],
    [close_account], [create_transfer], [create_pending], [post_pending] and
    [void_pending] with their validation helpers, in the state-and-error monad of
    the prelude.  Writes happen in the order of the source, so a failing [?]
    between two writes would leave the first one behind.

    The [debug_assertions] re-check at the end of each mutation is
    [check_after_mutation] of [LedgerVerify]; here is the release build. *)

From S2P Require Import Prelude Error Amount Account Transfer.

Record Ledger : Type := mkLedger {
  ledger_scale : Scale;
  accounts : gmap N Account;
  transfers : gmap N Transfer;
  journal : list LedgerEvent;
  last_timestamp : N;
}.

#[global] Instance Ledger_eq_dec : EqDecision Ledger.
Proof. solve_decision. Defined.

Definition Ledger_new (scale : Scale) : Ledger := mkLedger scale ∅ ∅ [] 0.

Definition set_accounts (m : gmap N Account) (l : Ledger) : Ledger :=
  mkLedger (ledger_scale l) m (transfers l) (journal l) (last_timestamp l).
Definition set_transfers (m : gmap N Transfer) (l : Ledger) : Ledger :=
  mkLedger (ledger_scale l) (accounts l) m (journal l) (last_timestamp l).
Definition set_journal (j : list LedgerEvent) (l : Ledger) : Ledger :=
  mkLedger (ledger_scale l) (accounts l) (transfers l) j (last_timestamp l).
Definition set_last_timestamp (t : N) (l : Ledger) : Ledger :=
  mkLedger (ledger_scale l) (accounts l) (transfers l) (journal l) t.

Abbreviation ledger_m := (st Ledger LedgerError).

(** ** Lookups and writes through [get_mut] *)

Definition get_account (self : Ledger) (id : AccountId) : result LedgerError Account :=
  ok_or (accounts self !! id) (AccountNotFound id).

Definition get_transfer (self : Ledger) (id : TransferId) : result LedgerError Transfer :=
  ok_or (transfers self !! id) (TransferNotFound id).

(** [let a = self.accounts.get_mut(&id).ok_or(..)?; a.balance.<field> = v]. *)
Definition write_balance (id : AccountId) (f : Balance -> Balance) : ledger_m unit :=
  fun self =>
    match accounts self !! id with
    | None => (self, Err (AccountNotFound id))
    | Some a =>
        (set_accounts (<[id := set_balance (f (acc_balance a)) a]> (accounts self)) self, Ok tt)
    end.

(** [self.transfers.get_mut(&id).ok_or(..)?.transition_to(target)?]. *)
Definition write_transition (id : TransferId) (target : TransferState) : ledger_m unit :=
  fun self =>
    match transfers self !! id with
    | None => (self, Err (TransferNotFound id))
    | Some t =>
        match transition_to target t with
        | Ok t' => (set_transfers (<[id := t']> (transfers self)) self, Ok tt)
        | Err e => (self, Err e)
        end
    end.

Definition insert_transfer (id : TransferId) (t : Transfer) : ledger_m unit :=
  st_modify (fun self => set_transfers (<[id := t]> (transfers self)) self).

Definition push_event (e : LedgerEvent) : ledger_m unit :=
  st_modify (fun self => set_journal (journal self ++ [e]) self).

(** ** Timestamps *)

Definition check_timestamp (timestamp : N) (self : Ledger) : result LedgerError unit :=
  if timestamp <? last_timestamp self
  then Err (TimestampBehindPrior timestamp (last_timestamp self))
  else Ok tt.

Definition advance_timestamp (timestamp : N) : ledger_m unit :=
  st_modify (fun self => set_last_timestamp (N.max (last_timestamp self) timestamp) self).

(** ** Accounts *)

Definition create_account (id : AccountId) (ty : AccountType) (flags : AccountFlags)
    (scale : Scale) (timestamp : N) : ledger_m unit :=
  (do? st_reads (check_timestamp timestamp);
   do? st_reads (fun self =>
     if bool_decide (is_Some (accounts self !! id)) then Err (AccountAlreadyExists id)
     else if negb (bool_decide (scale = ledger_scale self))
     then Err (ScaleMismatch (ledger_scale self) scale)
     else Ok tt);
   do? st_modify (fun self =>
     set_accounts (<[id := Account_new id ty flags scale]> (accounts self)) self);
   do? advance_timestamp timestamp;
   push_event (EvAccountCreated id ty flags scale timestamp))%st.

Definition close_account (id : AccountId) (timestamp : N) : ledger_m unit :=
  (do? st_reads (check_timestamp timestamp);
   do? (fun self =>
     match accounts self !! id with
     | None => (self, Err (AccountNotFound id))
     | Some account =>
         if is_closed (acc_flags account) then (self, Err (AccountClosed id))
         else (set_accounts (<[id := set_flags (set_closed (acc_flags account)) account]>
                               (accounts self)) self, Ok tt)
     end);
   do? advance_timestamp timestamp;
   push_event (EvAccountClosed id timestamp))%st.

(** ** Validation of transfers *)

Definition validate_new_transfer (transfer : Transfer) (self : Ledger) :
    result LedgerError unit :=
  if bool_decide (is_Some (transfers self !! tr_id transfer))
  then Err (TransferAlreadyExists (tr_id transfer))
  else if debit_account_id transfer =? credit_account_id transfer
  then Err (DebitCreditAccountSame (debit_account_id transfer))
  else if amount_is_zero (tr_amount transfer)
  then Err (ZeroAmountTransfer (tr_id transfer))
  else validate_shape transfer.

Definition validate_pending_link (transfer : Transfer) (self : Ledger) :
    result LedgerError unit :=
  match pending_id transfer with
  | None => Ok tt
  | Some pid =>
      hold ← ok_or (transfers self !! pid) (PendingLinkMissing (tr_id transfer) pid);
      if bool_decide (tr_state hold = Posted) then Ok tt
      else Err (InvalidPendingLink (tr_id transfer) pid (tr_state hold))
  end.

(** ** Transfers *)

(** The read-only block shared by [create_transfer] and [create_pending]: both
    accounts may take the amount, and the new totals ([dfield]/[cfield] is the
    balance component that grows). *)
Definition new_totals (dfield cfield : Balance -> Amount) (transfer : Transfer)
    (self : Ledger) : result LedgerError (Amount * Amount) :=
  debit_acc ← get_account self (debit_account_id transfer);
  _ ← ensure_can_debit debit_acc (tr_amount transfer);
  new_debits ← amount_checked_add (dfield (acc_balance debit_acc)) (tr_amount transfer);
  credit_acc ← get_account self (credit_account_id transfer);
  _ ← ensure_can_credit credit_acc (tr_amount transfer);
  new_credits ← amount_checked_add (cfield (acc_balance credit_acc)) (tr_amount transfer);
  Ok (new_debits, new_credits).

Definition create_transfer (transfer : Transfer) : ledger_m unit :=
  (do? st_reads (check_timestamp (tr_timestamp transfer));
   reject? negb (bool_decide (tr_state transfer = Posted))
     with InvalidTransferState (tr_id transfer) Posted (tr_state transfer);
   do? st_reads (validate_new_transfer transfer);
   do? st_reads (validate_pending_link transfer);
   let? totals := st_reads (new_totals debits_posted credits_posted transfer) in
   do? write_balance (debit_account_id transfer) (set_debits_posted totals.1);
   do? write_balance (credit_account_id transfer) (set_credits_posted totals.2);
   do? advance_timestamp (tr_timestamp transfer);
   do? insert_transfer (tr_id transfer) transfer;
   push_event (EvTransferPosted transfer))%st.

Definition create_pending (transfer : Transfer) : ledger_m unit :=
  (do? st_reads (check_timestamp (tr_timestamp transfer));
   reject? negb (bool_decide (tr_state transfer = Pending))
     with InvalidTransferState (tr_id transfer) Pending (tr_state transfer);
   do? st_reads (validate_new_transfer transfer);
   let? totals := st_reads (new_totals debits_pending credits_pending transfer) in
   do? write_balance (debit_account_id transfer) (set_debits_pending totals.1);
   do? write_balance (credit_account_id transfer) (set_credits_pending totals.2);
   do? advance_timestamp (tr_timestamp transfer);
   do? insert_transfer (tr_id transfer) transfer;
   push_event (EvTransferPendingCreated transfer))%st.

(** ** Settling and cancelling holds *)

Definition post_pending (pending post : TransferId) (amount : Amount) (timestamp : N) :
    ledger_m unit :=
  (do? st_reads (check_timestamp timestamp);
   do? st_reads (fun self =>
     if bool_decide (is_Some (transfers self !! post))
     then Err (TransferAlreadyExists post) else Ok tt);
   let? hold := st_reads (fun self =>
     hold ← get_transfer self pending;
     if negb (bool_decide (tr_state hold = Pending))
     then Err (InvalidTransferState pending Pending (tr_state hold))
     else if tr_amount hold <? amount
     then Err (PartialAmountExceedsPending pending amount (tr_amount hold))
     else if amount_is_zero amount then Err (ZeroAmountTransfer post)
     else Ok hold) in
   let? debits := st_reads (fun self =>
     account ← get_account self (debit_account_id hold);
     p ← amount_checked_sub (debits_pending (acc_balance account)) (tr_amount hold);
     d ← amount_checked_add (debits_posted (acc_balance account)) amount;
     Ok (p, d)) in
   let? credits := st_reads (fun self =>
     account ← get_account self (credit_account_id hold);
     p ← amount_checked_sub (credits_pending (acc_balance account)) (tr_amount hold);
     c ← amount_checked_add (credits_posted (acc_balance account)) amount;
     Ok (p, c)) in
   let? posted_transfer := st_reads (fun _ =>
     new_settlement post (debit_account_id hold) (credit_account_id hold) amount pending
       timestamp) in
   do? write_balance (debit_account_id hold)
         (fun b => set_debits_posted debits.2 (set_debits_pending debits.1 b));
   do? write_balance (credit_account_id hold)
         (fun b => set_credits_posted credits.2 (set_credits_pending credits.1 b));
   do? write_transition pending Posted;
   do? advance_timestamp timestamp;
   do? insert_transfer post posted_transfer;
   push_event (EvTransferPendingPosted pending post amount timestamp))%st.

Definition void_pending (pending : TransferId) (timestamp : N) : ledger_m unit :=
  (do? st_reads (check_timestamp timestamp);
   let? hold := st_reads (fun self =>
     hold ← get_transfer self pending;
     if negb (bool_decide (tr_state hold = Pending))
     then Err (InvalidTransferState pending Pending (tr_state hold))
     else Ok hold) in
   let? debits := st_reads (fun self =>
     account ← get_account self (debit_account_id hold);
     amount_checked_sub (debits_pending (acc_balance account)) (tr_amount hold)) in
   let? credits := st_reads (fun self =>
     account ← get_account self (credit_account_id hold);
     amount_checked_sub (credits_pending (acc_balance account)) (tr_amount hold)) in
   do? write_balance (debit_account_id hold) (set_debits_pending debits);
   do? write_balance (credit_account_id hold) (set_credits_pending credits);
   do? write_transition pending Voided;
   do? advance_timestamp timestamp;
   push_event (EvTransferPendingVoided pending (tr_amount hold) timestamp))%st.

(** ** Events, batch operations and replay *)

Definition apply_event (event : LedgerEvent) : ledger_m unit :=
  match event with
  | EvAccountCreated id ty flags scale timestamp => create_account id ty flags scale timestamp
  | EvAccountClosed id timestamp => close_account id timestamp
  | EvTransferPosted transfer => create_transfer transfer
  | EvTransferPendingCreated transfer => create_pending transfer
  | EvTransferPendingPosted pending post amount timestamp =>
      post_pending pending post amount timestamp
  | EvTransferPendingVoided pending_ amount timestamp =>
      (let? pending := st_reads (fun self =>
         ok_or (tr_amount <$> transfers self !! pending_) (TransferNotFound pending_)) in
       reject? negb (pending =? amount)
         with JournalVoidedAmountMismatch pending_ pending amount;
       void_pending pending_ timestamp)%st
  end.

Definition apply_batch_op (op : BatchOp) : ledger_m unit :=
  match op with
  | OpCreateAccount id ty flags scale timestamp => create_account id ty flags scale timestamp
  | OpTransfer transfer => create_transfer transfer
  | OpPending transfer => create_pending transfer
  | OpPostPending pending post amount timestamp => post_pending pending post amount timestamp
  | OpVoidPending pending timestamp => void_pending pending timestamp
  | OpCloseAccount id timestamp => close_account id timestamp
  end.

(** [Ledger::replay]: on an error the half-built ledger is dropped. *)
Definition replay (scale : Scale) (events : list LedgerEvent) : result LedgerError Ledger :=
  match st_for apply_event events (Ledger_new scale) with
  | (ledger, Ok _) => Ok ledger
  | (_, Err e) => Err e
  end.
