(* ===== verification/LedgerStep.v ===== *)
(** * The ledger's transition relation and its refinement

    [lstep l ev l'] is the abstract specification of the state machine: which
    journal event may happen in a ledger and what it changes.  Every mutation of
    [Ledger] is shown to implement it: the mutation succeeds exactly on the
    transitions of its event and leaves the ledger untouched otherwise. *)

From S2P Require Import Prelude Error Amount Account Transfer Ledger.

(** ** The balance effects *)

Definition upd (f : Balance -> Balance) (a : Account) : Account :=
  set_balance (f (acc_balance a)) a.

Definition debit_post (x : Amount) (b : Balance) : Balance :=
  set_debits_posted (debits_posted b + x) b.
Definition credit_post (x : Amount) (b : Balance) : Balance :=
  set_credits_posted (credits_posted b + x) b.
Definition debit_hold (x : Amount) (b : Balance) : Balance :=
  set_debits_pending (debits_pending b + x) b.
Definition credit_hold (x : Amount) (b : Balance) : Balance :=
  set_credits_pending (credits_pending b + x) b.
Definition debit_release (x : Amount) (b : Balance) : Balance :=
  set_debits_pending (debits_pending b - x) b.
Definition credit_release (x : Amount) (b : Balance) : Balance :=
  set_credits_pending (credits_pending b - x) b.

(** Update a debit and a credit account. *)
Definition upd2 (d c : AccountId) (f g : Balance -> Balance) (m : gmap N Account) :
    gmap N Account :=
  alter (upd g) c (alter (upd f) d m).

(** Both accounts of a movement, and that the movement is allowed on each. *)
Record can_move (l : Ledger) (d c : AccountId) (x : Amount) (da ca : Account) : Prop := {
  cm_debit : accounts l !! d = Some da;
  cm_credit : accounts l !! c = Some ca;
  cm_can_debit : ensure_can_debit da x = Ok tt;
  cm_can_credit : ensure_can_credit ca x = Ok tt;
}.

(** A new transfer of a given state is well shaped. *)
Record fresh_transfer (l : Ledger) (t : Transfer) (s : TransferState) : Prop := {
  ft_time : last_timestamp l <= tr_timestamp t;
  ft_state : tr_state t = s;
  ft_fresh : transfers l !! tr_id t = None;
  ft_accounts : debit_account_id t <> credit_account_id t;
  ft_amount : 0 < tr_amount t;
}.

(** A pending hold whose amount is reserved on both its accounts. *)
Record live_hold (l : Ledger) (p : TransferId) (h : Transfer) (da ca : Account) : Prop := {
  lh_hold : transfers l !! p = Some h;
  lh_state : tr_state h = Pending;
  lh_debit : accounts l !! debit_account_id h = Some da;
  lh_credit : accounts l !! credit_account_id h = Some ca;
  lh_debits : tr_amount h <= debits_pending (acc_balance da);
  lh_credits : tr_amount h <= credits_pending (acc_balance ca);
}.

Inductive lstep (l : Ledger) : LedgerEvent -> Ledger -> Prop :=
| ls_create id ty fl sc ts :
    last_timestamp l <= ts -> accounts l !! id = None -> sc = ledger_scale l ->
    lstep l (EvAccountCreated id ty fl sc ts)
      (mkLedger (ledger_scale l) (<[id := Account_new id ty fl sc]> (accounts l)) (transfers l)
         (journal l ++ [EvAccountCreated id ty fl sc ts]) ts)
| ls_close id ts a :
    last_timestamp l <= ts -> accounts l !! id = Some a -> is_closed (acc_flags a) = false ->
    lstep l (EvAccountClosed id ts)
      (mkLedger (ledger_scale l)
         (<[id := set_flags (set_closed (acc_flags a)) a]> (accounts l)) (transfers l)
         (journal l ++ [EvAccountClosed id ts]) ts)
| ls_transfer t da ca :
    fresh_transfer l t Posted ->
    (forall p, pending_id t = Some p ->
       exists h, transfers l !! p = Some h /\ tr_state h = Posted) ->
    can_move l (debit_account_id t) (credit_account_id t) (tr_amount t) da ca ->
    debits_posted (acc_balance da) + tr_amount t <= U128_MAX ->
    credits_posted (acc_balance ca) + tr_amount t <= U128_MAX ->
    lstep l (EvTransferPosted t)
      (mkLedger (ledger_scale l)
         (upd2 (debit_account_id t) (credit_account_id t)
            (debit_post (tr_amount t)) (credit_post (tr_amount t)) (accounts l))
         (<[tr_id t := t]> (transfers l))
         (journal l ++ [EvTransferPosted t]) (tr_timestamp t))
| ls_pending t da ca :
    fresh_transfer l t Pending -> pending_id t = None ->
    can_move l (debit_account_id t) (credit_account_id t) (tr_amount t) da ca ->
    debits_pending (acc_balance da) + tr_amount t <= U128_MAX ->
    credits_pending (acc_balance ca) + tr_amount t <= U128_MAX ->
    lstep l (EvTransferPendingCreated t)
      (mkLedger (ledger_scale l)
         (upd2 (debit_account_id t) (credit_account_id t)
            (debit_hold (tr_amount t)) (credit_hold (tr_amount t)) (accounts l))
         (<[tr_id t := t]> (transfers l))
         (journal l ++ [EvTransferPendingCreated t]) (tr_timestamp t))
| ls_post p q x ts h da ca :
    last_timestamp l <= ts -> transfers l !! q = None -> live_hold l p h da ca ->
    debit_account_id h <> credit_account_id h -> 0 < x -> x <= tr_amount h ->
    debits_posted (acc_balance da) + x <= U128_MAX ->
    credits_posted (acc_balance ca) + x <= U128_MAX ->
    lstep l (EvTransferPendingPosted p q x ts)
      (mkLedger (ledger_scale l)
         (upd2 (debit_account_id h) (credit_account_id h)
            (fun b => debit_post x (debit_release (tr_amount h) b))
            (fun b => credit_post x (credit_release (tr_amount h) b)) (accounts l))
         (<[q := mkTransfer q (debit_account_id h) (credit_account_id h) x Posted (Some p) ts]>
            (<[p := restore_state Posted h]> (transfers l)))
         (journal l ++ [EvTransferPendingPosted p q x ts]) ts)
| ls_void p ts h da ca :
    last_timestamp l <= ts -> live_hold l p h da ca ->
    lstep l (EvTransferPendingVoided p (tr_amount h) ts)
      (mkLedger (ledger_scale l)
         (upd2 (debit_account_id h) (credit_account_id h)
            (debit_release (tr_amount h)) (credit_release (tr_amount h)) (accounts l))
         (<[p := restore_state Voided h]> (transfers l))
         (journal l ++ [EvTransferPendingVoided p (tr_amount h) ts]) ts).

(** ** Writing two balances *)

Lemma write_balance_ok id f l a :
  accounts l !! id = Some a ->
  write_balance id f l = (set_accounts (alter (upd f) id (accounts l)) l, Ok tt).
Proof.
  intros Ha. unfold write_balance. rewrite Ha. by rewrite (alter_insert_eq _ _ _ a Ha).
Qed.

Lemma lookup_alter_some {A} (f : A -> A) (m : gmap N A) i j x :
  m !! j = Some x -> exists y, alter f i m !! j = Some y.
Proof.
  intros Hj. destruct (decide (i = j)) as [<-|Hne].
  - rewrite lookup_alter_eq, Hj. eauto.
  - rewrite lookup_alter_ne by done. eauto.
Qed.

Lemma write_two_balances {B} d c f g (k : unit -> ledger_m B) l da ca :
  accounts l !! d = Some da -> accounts l !! c = Some ca ->
  st_bind (write_balance d f) (fun _ => st_bind (write_balance c g) k) l =
  k tt (set_accounts (upd2 d c f g (accounts l)) l).
Proof.
  intros Hd Hc. unfold st_bind at 1. rewrite (write_balance_ok _ _ _ _ Hd).
  destruct (lookup_alter_some (upd f) (accounts l) d c ca Hc) as [ca' Hc'].
  unfold st_bind. by rewrite (write_balance_ok c g _ ca').
Qed.

(** Two updates that agree on the accounts they meet give the same map. *)
Lemma upd2_ext d c f g f' g' (m : gmap N Account) da ca :
  m !! d = Some da -> m !! c = Some ca ->
  f (acc_balance da) = f' (acc_balance da) ->
  (d <> c -> g (acc_balance ca) = g' (acc_balance ca)) ->
  (d = c -> g (f' (acc_balance da)) = g' (f' (acc_balance da))) ->
  upd2 d c f g m = upd2 d c f' g' m.
Proof.
  intros Hd Hc Hf Hg Hg'. unfold upd2. apply map_eq. intros i.
  destruct (decide (i = c)) as [->|Hic].
  - rewrite !lookup_alter_eq. destruct (decide (d = c)) as [->|Hne].
    + rewrite !lookup_alter_eq, Hd. simpl. unfold upd; simpl. by rewrite Hf, Hg'.
    + rewrite !lookup_alter_ne, Hc by done. simpl. unfold upd. by rewrite Hg.
  - rewrite !(lookup_alter_ne _ _ c) by done. destruct (decide (i = d)) as [->|Hid].
    + rewrite !lookup_alter_eq, Hd. simpl. unfold upd. by rewrite Hf.
    + by rewrite !lookup_alter_ne.
Qed.

(** ** The mutations refine the relation *)

(** What it means for a run of a mutation to respect the specification: success is
    a transition of [ev], failure changes nothing. *)
Definition respects (l : Ledger) (ev : LedgerEvent) (r : Ledger * result LedgerError unit) : Prop :=
  match r with
  | (l', Ok _) => lstep l ev l'
  | (l', Err _) => l' = l
  end.

(** Execute the leading read of a run, closing the failure branch. *)
Ltac read_step H :=
  rewrite st_bind_reads;
  match goal with
  | |- respects _ _ (match ?x with Ok _ => _ | Err _ => _ end) =>
      destruct x eqn:H; [|done]
  end.

Lemma check_timestamp_ok ts l u : check_timestamp ts l = Ok u <-> last_timestamp l <= ts.
Proof.
  unfold check_timestamp. destruct u. destruct (N.ltb_spec ts (last_timestamp l)); split; done || lia.
Qed.

Lemma validate_new_transfer_ok t l u :
  validate_new_transfer t l = Ok u ->
  transfers l !! tr_id t = None /\ debit_account_id t <> credit_account_id t /\
  0 < tr_amount t /\ (tr_state t = Pending -> pending_id t = None).
Proof.
  unfold validate_new_transfer, amount_is_zero, validate_shape. intros H.
  case_bool_decide as Hs; [done|]. rewrite <- eq_None_not_Some in Hs.
  destruct (N.eqb_spec (debit_account_id t) (credit_account_id t)); [done|].
  destruct (N.eqb_spec (tr_amount t) 0); [done|].
  repeat split; [done|done|lia|]. intros Hp. rewrite Hp in H. by destruct (pending_id t).
Qed.

Lemma validate_pending_link_ok t l u :
  validate_pending_link t l = Ok u ->
  forall p, pending_id t = Some p -> exists h, transfers l !! p = Some h /\ tr_state h = Posted.
Proof.
  unfold validate_pending_link. intros H p Hp. rewrite Hp in H. run_inv. eauto.
Qed.

Lemma new_totals_ok df cf t l r :
  new_totals df cf t l = Ok r ->
  exists da ca,
    can_move l (debit_account_id t) (credit_account_id t) (tr_amount t) da ca /\
    r = (df (acc_balance da) + tr_amount t, cf (acc_balance ca) + tr_amount t) /\
    df (acc_balance da) + tr_amount t <= U128_MAX /\
    cf (acc_balance ca) + tr_amount t <= U128_MAX.
Proof.
  unfold new_totals, get_account. intros H. run_inv.
  rewrite amount_add_ok in *. destruct_and!. subst. eexists _, _. split; [|done].
  by constructor.
Qed.

Lemma create_account_respects id ty fl sc ts l :
  respects l (EvAccountCreated id ty fl sc ts) (create_account id ty fl sc ts l).
Proof.
  unfold create_account. read_step Ht. read_step Hc.
  apply check_timestamp_ok in Ht. run_inv.
  rewrite <- eq_None_not_Some in *. simpl. rewrite N.max_r by done. by apply ls_create.
Qed.

Lemma close_account_respects id ts l :
  respects l (EvAccountClosed id ts) (close_account id ts l).
Proof.
  unfold close_account. read_step Ht. apply check_timestamp_ok in Ht.
  unfold st_bind at 1. destruct (accounts l !! id) as [acc|] eqn:Ha; [|done].
  destruct (is_closed (acc_flags acc)) eqn:Hc; [done|].
  simpl. rewrite N.max_r by done. by apply (ls_close l id ts acc).
Qed.

Lemma create_transfer_respects t l : respects l (EvTransferPosted t) (create_transfer t l).
Proof.
  unfold create_transfer. read_step Ht. apply check_timestamp_ok in Ht.
  case_bool_decide as Hs; simpl; [|done].
  read_step Hv. apply validate_new_transfer_ok in Hv as (Hf & Hne & Hpos & _).
  read_step Hl.
  read_step Hn. apply new_totals_ok in Hn as (da & ca & Hm & -> & Hd & Hc).
  destruct Hm as [Hda Hca Hed Hec].
  rewrite (write_two_balances _ _ _ _ _ _ da ca) by done.
  simpl. rewrite N.max_r by done.
  rewrite (upd2_ext _ _ _ _ (debit_post (tr_amount t)) (credit_post (tr_amount t)) _ da ca) by done.
  eapply ls_transfer; eauto using validate_pending_link_ok.
  all: by constructor.
Qed.

Lemma create_pending_respects t l :
  respects l (EvTransferPendingCreated t) (create_pending t l).
Proof.
  unfold create_pending. read_step Ht. apply check_timestamp_ok in Ht.
  case_bool_decide as Hs; simpl; [|done].
  read_step Hv. apply validate_new_transfer_ok in Hv as (Hf & Hne & Hpos & Hlink).
  read_step Hn. apply new_totals_ok in Hn as (da & ca & Hm & -> & Hd & Hc).
  destruct Hm as [Hda Hca Hed Hec].
  rewrite (write_two_balances _ _ _ _ _ _ da ca) by done.
  simpl. rewrite N.max_r by done.
  rewrite (upd2_ext _ _ _ _ (debit_hold (tr_amount t)) (credit_hold (tr_amount t)) _ da ca) by done.
  eapply ls_pending; eauto.
  all: by constructor.
Qed.

Lemma post_hold_ok p q x l h :
  (hold ← get_transfer l p;
   if negb (bool_decide (tr_state hold = Pending))
   then Err (InvalidTransferState p Pending (tr_state hold))
   else if tr_amount hold <? x
   then Err (PartialAmountExceedsPending p x (tr_amount hold))
   else if amount_is_zero x then Err (ZeroAmountTransfer q)
   else Ok hold) = Ok h ->
  transfers l !! p = Some h /\ tr_state h = Pending /\ 0 < x /\ x <= tr_amount h.
Proof.
  unfold get_transfer, amount_is_zero. intros H. run_inv.
  match goal with H : (_ <? _) = false |- _ => apply N.ltb_ge in H end.
  match goal with H : (_ =? _) = false |- _ => apply N.eqb_neq in H end.
  repeat split; [done|done|lia|done].
Qed.

(** The two sides of a settlement: what is released from the reservation and
    posted, for an account component pair. *)
Lemma settle_side_ok pend post id x held l r :
  (account ← get_account l id;
   p ← amount_checked_sub (pend (acc_balance account)) held;
   d ← amount_checked_add (post (acc_balance account)) x;
   Ok (p, d)) = Ok r ->
  exists a, accounts l !! id = Some a /\ held <= pend (acc_balance a) /\
    post (acc_balance a) + x <= U128_MAX /\
    r = (pend (acc_balance a) - held, post (acc_balance a) + x).
Proof.
  unfold get_account. intros H. run_inv.
  rewrite amount_add_ok, amount_sub_ok in *. destruct_and!. subst.
  eexists. split_and!; [done|lia|done|]. f_equal; lia.
Qed.

Lemma release_side_ok pend id held l r :
  (account ← get_account l id;
   amount_checked_sub (pend (acc_balance account)) held) = Ok r ->
  exists a, accounts l !! id = Some a /\ held <= pend (acc_balance a) /\
    r = pend (acc_balance a) - held.
Proof.
  unfold get_account. intros H. run_inv. rewrite amount_sub_ok in *.
  eexists. split_and!; [done|lia|lia].
Qed.

Lemma write_transition_ok p target l h :
  transfers l !! p = Some h -> lifecycle (tr_state h) target ->
  write_transition p target l =
    (set_transfers (<[p := restore_state target h]> (transfers l)) l, Ok tt).
Proof.
  intros Hh Hl. unfold write_transition. rewrite Hh.
  by rewrite (proj2 (transition_to_ok target h _) (conj Hl eq_refl)).
Qed.

Lemma post_pending_respects p q x ts l :
  respects l (EvTransferPendingPosted p q x ts) (post_pending p q x ts l).
Proof.
  unfold post_pending. read_step Ht. apply check_timestamp_ok in Ht.
  read_step Hq. case_bool_decide as Hq'; [done|]. rewrite <- eq_None_not_Some in Hq'.
  read_step Hh. apply post_hold_ok in Hh as (Hh & Hs & Hx & Hle).
  read_step Hd. apply settle_side_ok in Hd as (da & Hda & Hdp & Hdm & ->).
  read_step Hc. apply settle_side_ok in Hc as (ca & Hca & Hcp & Hcm & ->).
  read_step Hn. unfold new_settlement in Hn. run_inv.
  match goal with H : validate_invariants _ _ _ _ = _ |- _ =>
    apply validate_invariants_ok in H as [Hne _] end.
  rewrite (write_two_balances _ _ _ _ _ _ da ca) by done.
  unfold st_bind at 1. erewrite write_transition_ok by (simpl; eauto; rewrite Hs; constructor).
  simpl. rewrite N.max_r by done.
  erewrite (upd2_ext _ _ _ _ (fun b => debit_post x (debit_release _ b))
    (fun b => credit_post x (credit_release _ b)) _ da ca) by done.
  eapply (ls_post l p q x ts _ da ca); eauto. by constructor.
Qed.

Lemma void_pending_respects p ts l l' r :
  void_pending p ts l = (l', r) ->
  match r with
  | Ok _ => exists h, transfers l !! p = Some h /\ lstep l (EvTransferPendingVoided p (tr_amount h) ts) l'
  | Err _ => l' = l
  end.
Proof.
  intros H. destruct (transfers l !! p) as [h|] eqn:Hp.
  - assert (respects l (EvTransferPendingVoided p (tr_amount h) ts) (void_pending p ts l)) as Hr.
    { clear H. unfold void_pending. read_step Ht. apply check_timestamp_ok in Ht.
      read_step Hh. unfold get_transfer in Hh. run_inv.
      read_step Hd. apply release_side_ok in Hd as (da & Hda & Hdp & ->).
      read_step Hc. apply release_side_ok in Hc as (ca & Hca & Hcp & ->).
      rewrite (write_two_balances _ _ _ _ _ _ da ca) by done.
      unfold st_bind at 1.
      erewrite write_transition_ok by (simpl; eauto; match goal with H : tr_state _ = _ |- _ =>
        rewrite H end; constructor).
      simpl. rewrite N.max_r by done.
      erewrite (upd2_ext _ _ _ _ (debit_release _) (credit_release _) _ da ca); try done.
      - eapply (ls_void l p ts _ da ca); eauto. by constructor.
      - intros Heq. rewrite Heq in Hda. assert (da = ca) as -> by congruence. done. }
    rewrite H in Hr. destruct r; simpl in Hr; eauto.
  - revert H. unfold void_pending. rewrite st_bind_reads.
    destruct (check_timestamp ts l); [|by intros [= <- <-]].
    rewrite st_bind_reads. unfold get_transfer. rewrite Hp. by intros [= <- <-].
Qed.

Lemma apply_event_respects ev l : respects l ev (apply_event ev l).
Proof.
  destruct ev as [| | | | |p x ts]; simpl;
    auto using create_account_respects, close_account_respects, create_transfer_respects,
      create_pending_respects, post_pending_respects.
  read_step Hp. destruct (_ =? x) eqn:Hx; simpl; [|done]. apply N.eqb_eq in Hx as ->.
  destruct (void_pending p ts l) as [l' r] eqn:Hv. apply void_pending_respects in Hv.
  destruct r; simpl; [|done]. destruct Hv as (h & Hh & Hs). rewrite Hh in Hp. simpl in Hp.
  run_inv. done.
Qed.

(** ** ... and the relation is no larger than the mutations *)

Lemma check_timestamp_le ts l : last_timestamp l <= ts -> check_timestamp ts l = Ok tt.
Proof. intros H. by apply check_timestamp_ok. Qed.

Lemma validate_new_transfer_fresh l t s :
  fresh_transfer l t s -> (s = Pending -> pending_id t = None) ->
  validate_new_transfer t l = Ok tt.
Proof.
  intros [? Hst Hf Hne Hpos] Hlink. unfold validate_new_transfer, amount_is_zero, validate_shape.
  rewrite Hf, Hst. rewrite bool_decide_false by (by intros [? ?]).
  rewrite (proj2 (N.eqb_neq _ _) Hne), (proj2 (N.eqb_neq (tr_amount t) 0)) by lia.
  destruct s; [|done|done]. by rewrite Hlink.
Qed.

Lemma new_totals_can_move df cf t l da ca :
  can_move l (debit_account_id t) (credit_account_id t) (tr_amount t) da ca ->
  df (acc_balance da) + tr_amount t <= U128_MAX ->
  cf (acc_balance ca) + tr_amount t <= U128_MAX ->
  new_totals df cf t l =
    Ok (df (acc_balance da) + tr_amount t, cf (acc_balance ca) + tr_amount t).
Proof.
  intros [Hd Hc Hed Hec] Hdm Hcm. unfold new_totals, get_account.
  rewrite Hd, Hc. simpl. rewrite Hed. simpl.
  rewrite (proj2 (amount_add_ok _ _ _) (conj eq_refl Hdm)). simpl. rewrite Hec. simpl.
  by rewrite (proj2 (amount_add_ok _ _ _) (conj eq_refl Hcm)).
Qed.

Lemma create_transfer_enabled l t da ca :
  fresh_transfer l t Posted ->
  (forall p, pending_id t = Some p ->
     exists h, transfers l !! p = Some h /\ tr_state h = Posted) ->
  can_move l (debit_account_id t) (credit_account_id t) (tr_amount t) da ca ->
  debits_posted (acc_balance da) + tr_amount t <= U128_MAX ->
  credits_posted (acc_balance ca) + tr_amount t <= U128_MAX ->
  is_ok (create_transfer t l).2.
Proof.
  intros Hf Hl Hm Hd Hc. pose proof Hf as [Ht Hst _ _ _]. pose proof Hm as [Hda Hca _ _].
  unfold create_transfer. rewrite st_bind_reads, check_timestamp_le by done.
  rewrite bool_decide_true by done. simpl.
  rewrite st_bind_reads, (validate_new_transfer_fresh l t Posted) by done.
  rewrite st_bind_reads. unfold validate_pending_link.
  destruct (pending_id t) as [p|]; [destruct (Hl p eq_refl) as (h & -> & Hp);
    simpl; rewrite bool_decide_true by done|].
  all: rewrite st_bind_reads, (new_totals_can_move _ _ _ _ da ca) by done;
    by erewrite write_two_balances by done.
Qed.

Lemma create_pending_enabled l t da ca :
  fresh_transfer l t Pending -> pending_id t = None ->
  can_move l (debit_account_id t) (credit_account_id t) (tr_amount t) da ca ->
  debits_pending (acc_balance da) + tr_amount t <= U128_MAX ->
  credits_pending (acc_balance ca) + tr_amount t <= U128_MAX ->
  is_ok (create_pending t l).2.
Proof.
  intros Hf Hl Hm Hd Hc. pose proof Hf as [Ht Hst _ _ _]. pose proof Hm as [Hda Hca _ _].
  unfold create_pending. rewrite st_bind_reads, check_timestamp_le by done.
  rewrite bool_decide_true by done. simpl.
  rewrite st_bind_reads, (validate_new_transfer_fresh l t Pending) by done.
  rewrite st_bind_reads, (new_totals_can_move _ _ _ _ da ca) by done.
  by erewrite write_two_balances by done.
Qed.

Lemma amount_sub_le a b : b <= a -> amount_checked_sub a b = Ok (a - b).
Proof. intros H. apply amount_sub_ok. lia. Qed.

Lemma amount_add_le a b : a + b <= U128_MAX -> amount_checked_add a b = Ok (a + b).
Proof. intros H. by apply amount_add_ok. Qed.

Lemma post_pending_enabled l p q x ts h da ca :
  last_timestamp l <= ts -> transfers l !! q = None -> live_hold l p h da ca ->
  debit_account_id h <> credit_account_id h -> 0 < x -> x <= tr_amount h ->
  debits_posted (acc_balance da) + x <= U128_MAX ->
  credits_posted (acc_balance ca) + x <= U128_MAX ->
  is_ok (post_pending p q x ts l).2.
Proof.
  intros Ht Hq [Hh Hs Hda Hca Hdp Hcp] Hne Hx Hle Hd Hc.
  unfold post_pending. rewrite st_bind_reads, check_timestamp_le by done.
  rewrite st_bind_reads, Hq, bool_decide_false by (by intros [? ?]).
  rewrite st_bind_reads. unfold get_transfer, amount_is_zero. rewrite Hh. simpl.
  rewrite bool_decide_true by done. simpl.
  rewrite (proj2 (N.ltb_ge _ _) Hle), (proj2 (N.eqb_neq x 0)) by lia.
  rewrite st_bind_reads. unfold get_account. rewrite Hda. simpl.
  rewrite amount_sub_le by done. simpl. rewrite amount_add_le by done. simpl.
  rewrite st_bind_reads, Hca. simpl.
  rewrite amount_sub_le by done. simpl. rewrite amount_add_le by done. simpl.
  rewrite st_bind_reads. unfold new_settlement.
  rewrite (proj2 (validate_invariants_ok q _ _ x tt) (conj Hne Hx)). simpl.
  erewrite write_two_balances by done. unfold st_bind at 1.
  by erewrite write_transition_ok by (simpl; eauto; rewrite Hs; constructor).
Qed.

Lemma void_pending_enabled l p ts h da ca :
  last_timestamp l <= ts -> live_hold l p h da ca -> is_ok (void_pending p ts l).2.
Proof.
  intros Ht [Hh Hs Hda Hca Hdp Hcp].
  unfold void_pending. rewrite st_bind_reads, check_timestamp_le by done.
  rewrite st_bind_reads. unfold get_transfer. rewrite Hh. simpl.
  rewrite bool_decide_true by done. simpl.
  rewrite st_bind_reads. unfold get_account. rewrite Hda. simpl. rewrite amount_sub_le by done.
  rewrite st_bind_reads, Hca. simpl. rewrite amount_sub_le by done.
  erewrite write_two_balances by done. unfold st_bind at 1.
  by erewrite write_transition_ok by (simpl; eauto; rewrite Hs; constructor).
Qed.

Lemma apply_event_void l p h ts :
  transfers l !! p = Some h ->
  apply_event (EvTransferPendingVoided p (tr_amount h) ts) l = void_pending p ts l.
Proof. intros Hh. simpl. rewrite st_bind_reads, Hh. simpl. by rewrite N.eqb_refl. Qed.

Lemma apply_event_enabled l ev l' : lstep l ev l' -> is_ok (apply_event ev l).2.
Proof.
  intros Hs. destruct Hs as [id ty fl sc ts Ht Hid -> | id ts a Ht Ha Hc | | | |].
  - simpl. unfold create_account. rewrite st_bind_reads, check_timestamp_le by done.
    rewrite st_bind_reads, Hid. rewrite bool_decide_false by (by intros [? ?]).
    by rewrite bool_decide_true by done.
  - simpl. unfold close_account. rewrite st_bind_reads, check_timestamp_le by done.
    unfold st_bind at 1. by rewrite Ha, Hc.
  - by eapply create_transfer_enabled.
  - by eapply create_pending_enabled.
  - by eapply post_pending_enabled.
  - rewrite apply_event_void by (by eapply lh_hold). by eapply void_pending_enabled.
Qed.

Lemma lstep_det l ev l1 l2 : lstep l ev l1 -> lstep l ev l2 -> l1 = l2.
Proof.
  intros H1 H2. destruct H1; inversion H2; subst; try done;
    repeat match goal with H : live_hold _ _ _ _ _ |- _ => destruct H end; simplify_eq; done.
Qed.

Lemma apply_event_step l ev l' : apply_event ev l = (l', Ok tt) <-> lstep l ev l'.
Proof.
  split.
  - intros H. pose proof (apply_event_respects ev l) as Hr. by rewrite H in Hr.
  - intros Hs. pose proof (apply_event_enabled l ev l' Hs) as He.
    pose proof (apply_event_respects ev l) as Hr.
    destruct (apply_event ev l) as [l'' [[]|e]]; simpl in *; [|done].
    by rewrite (lstep_det l ev l' l'' Hs Hr).
Qed.

Lemma apply_event_err l ev l' e : apply_event ev l = (l', Err e) -> l' = l.
Proof. intros H. pose proof (apply_event_respects ev l) as Hr. by rewrite H in Hr. Qed.

(** ** Batch operations are events *)

(** The event a batch operation journals; a void reports the amount of its hold. *)
Definition op_event (l : Ledger) (op : BatchOp) : option LedgerEvent :=
  match op with
  | OpCreateAccount id ty fl sc ts => Some (EvAccountCreated id ty fl sc ts)
  | OpTransfer t => Some (EvTransferPosted t)
  | OpPending t => Some (EvTransferPendingCreated t)
  | OpPostPending p q x ts => Some (EvTransferPendingPosted p q x ts)
  | OpVoidPending p ts =>
      (fun h => EvTransferPendingVoided p (tr_amount h) ts) <$> transfers l !! p
  | OpCloseAccount id ts => Some (EvAccountClosed id ts)
  end.

Lemma apply_batch_op_event l op ev :
  op_event l op = Some ev -> apply_batch_op op l = apply_event ev l.
Proof.
  destruct op; simpl; intros; simplify_eq; [done..| |done].
  destruct (transfers l !! pending) eqn:Hh; simplify_eq/=. symmetry. by apply apply_event_void.
Qed.

Lemma apply_batch_op_none l op :
  op_event l op = None -> exists e, apply_batch_op op l = (l, Err e).
Proof.
  destruct op; simpl; intros; simplify_eq.
  destruct (transfers l !! pending) eqn:Hh; simplify_eq/=.
  destruct (void_pending pending timestamp l) as [l' r] eqn:Hv.
  pose proof (void_pending_respects _ _ _ _ _ Hv) as Hr.
  destruct r; [destruct Hr as (? & ? & _); congruence|subst; eauto].
Qed.

Lemma apply_batch_op_ok l op l' :
  apply_batch_op op l = (l', Ok tt) <-> exists ev, op_event l op = Some ev /\ lstep l ev l'.
Proof.
  split.
  - intros H. destruct (op_event l op) as [ev|] eqn:He.
    + exists ev. split; [done|]. rewrite (apply_batch_op_event l op ev He) in H.
      by apply apply_event_step.
    + destruct (apply_batch_op_none l op He) as [e ?]. congruence.
  - intros (ev & He & Hs). rewrite (apply_batch_op_event l op ev He). by apply apply_event_step.
Qed.

Lemma apply_batch_op_err l op l' e : apply_batch_op op l = (l', Err e) -> l' = l.
Proof.
  intros H. destruct (op_event l op) as [ev|] eqn:He.
  - rewrite (apply_batch_op_event l op ev He) in H. by eapply apply_event_err.
  - destruct (apply_batch_op_none l op He) as [e' ?]. congruence.
Qed.

(** Every transition journals exactly its event, at a time not before the last. *)
Lemma lstep_frame l ev l' :
  lstep l ev l' ->
  ledger_scale l' = ledger_scale l /\ journal l' = journal l ++ [ev] /\
  last_timestamp l' = event_timestamp ev /\ last_timestamp l <= event_timestamp ev.
Proof.
  destruct 1; simpl; split_and!; try done; by eapply ft_time.
Qed.
