(* ===== verification/LedgerInv.v ===== *)
(** * Accounting invariants

    The invariant every reachable ledger satisfies: double-entry conservation,
    reservations backed by pending transfers, balance limits, well-shaped
    transfers and links, widths.  It is an invariant of [lstep], hence of every
    mutation, batch and replay. *)

From S2P Require Import Prelude Error Amount Account Transfer Ledger LedgerStep.

(** ** The invariant *)

(** What pending transfer [t] reserves on account [i], on the given side. *)
Definition hold_on (side : Transfer -> AccountId) (i : AccountId) (t : Transfer) : N :=
  if bool_decide (tr_state t = Pending /\ side t = i) then tr_amount t else 0.
Definition held (side : Transfer -> AccountId) (i : AccountId) (m : gmap N Transfer) : N :=
  map_sum (hold_on side i) m.

Definition total (f : Balance -> Amount) (m : gmap N Account) : N :=
  map_sum (fun a => f (acc_balance a)) m.

(** The shape of one stored transfer in a ledger. *)
Record transfer_ok (acc : gmap N Account) (trs : gmap N Transfer) (i : TransferId)
    (t : Transfer) : Prop := {
  tok_key : tr_id t = i;
  tok_accounts : debit_account_id t <> credit_account_id t;
  tok_amount : 0 < tr_amount t;
  tok_debit : is_Some (acc !! debit_account_id t);
  tok_credit : is_Some (acc !! credit_account_id t);
  tok_link : forall p, pending_id t = Some p ->
    tr_state t = Posted /\ exists h, trs !! p = Some h /\ tr_state h = Posted;
}.

Record account_ok (sc : Scale) (trs : gmap N Transfer) (i : AccountId) (a : Account) : Prop := {
  aok_key : acc_id a = i;
  aok_scale : acc_scale a = sc;
  aok_held_debits : debits_pending (acc_balance a) = held debit_account_id i trs;
  aok_held_credits : credits_pending (acc_balance a) = held credit_account_id i trs;
  aok_limits : within_limits (acc_flags a) (acc_balance a);
  aok_dp : debits_posted (acc_balance a) <= U128_MAX;
  aok_cp : credits_posted (acc_balance a) <= U128_MAX;
  aok_dh : debits_pending (acc_balance a) <= U128_MAX;
  aok_ch : credits_pending (acc_balance a) <= U128_MAX;
}.

Record ledger_inv (l : Ledger) : Prop := {
  inv_transfers : forall i t, transfers l !! i = Some t ->
    transfer_ok (accounts l) (transfers l) i t;
  inv_accounts : forall i a, accounts l !! i = Some a ->
    account_ok (ledger_scale l) (transfers l) i a;
  inv_posted : total debits_posted (accounts l) = total credits_posted (accounts l);
  inv_pending : total debits_pending (accounts l) = total credits_pending (accounts l);
}.

(** ** Updating two accounts *)

(** The balance component of the account map after [upd2]. *)
Lemma upd2_lookup d c f g (m : gmap N Account) i a' :
  d <> c -> upd2 d c f g m !! i = Some a' ->
  exists a b, m !! i = Some a /\ a' = set_balance b a /\
    ((i = d /\ b = f (acc_balance a)) \/ (i = c /\ b = g (acc_balance a)) \/
     (i <> d /\ i <> c /\ b = acc_balance a)).
Proof.
  intros Hne. unfold upd2. destruct (decide (i = c)) as [->|Hc].
  - rewrite lookup_alter_eq, lookup_alter_ne by done.
    destruct (m !! c) as [a|]; intros; simplify_eq/=. eexists _, _; split_and!; eauto.
  - rewrite lookup_alter_ne by done. destruct (decide (i = d)) as [->|Hd].
    + rewrite lookup_alter_eq. destruct (m !! d) as [a|]; intros; simplify_eq/=.
      eexists _, _; split_and!; eauto.
    + rewrite lookup_alter_ne by done. intros Ha. eexists _, (acc_balance a').
      split_and!; [done|by destruct a'|]. auto.
Qed.

Lemma upd2_dom d c f g (m : gmap N Account) i : is_Some (upd2 d c f g m !! i) <-> is_Some (m !! i).
Proof. unfold upd2. by rewrite !lookup_alter_is_Some. Qed.

Lemma total_upd2 φ d c f g (m : gmap N Account) da ca :
  d <> c -> m !! d = Some da -> m !! c = Some ca ->
  total φ (upd2 d c f g m) + φ (acc_balance da) + φ (acc_balance ca) =
  total φ m + φ (f (acc_balance da)) + φ (g (acc_balance ca)).
Proof.
  intros Hne Hd Hc. unfold total, upd2.
  pose proof (map_sum_alter (fun a => φ (acc_balance a)) (upd f) m d da Hd) as H1.
  assert (alter (upd f) d m !! c = Some ca) as Hc' by (by rewrite lookup_alter_ne).
  pose proof (map_sum_alter (fun a => φ (acc_balance a)) (upd g) _ c ca Hc') as H2.
  simpl in *. lia.
Qed.

Lemma total_insert_new φ id ty fl sc (m : gmap N Account) :
  m !! id = None -> φ Balance_new = 0 ->
  total φ (<[id := Account_new id ty fl sc]> m) = total φ m.
Proof. intros Hm H0. unfold total. rewrite map_sum_insert_new by done. simpl. by rewrite H0. Qed.

Lemma total_set_flags φ id f a (m : gmap N Account) :
  m !! id = Some a -> total φ (<[id := set_flags f a]> m) = total φ m.
Proof.
  intros Ha. unfold total.
  pose proof (map_sum_update (fun a => φ (acc_balance a)) m id a (set_flags f a) Ha).
  simpl in *. lia.
Qed.

(** ** Reservations *)

Lemma hold_on_not_pending side i t : tr_state t <> Pending -> hold_on side i t = 0.
Proof. intros H. unfold hold_on. rewrite bool_decide_false; [done|]. tauto. Qed.

Lemma hold_on_pending side i t :
  tr_state t = Pending -> hold_on side i t = if bool_decide (side t = i) then tr_amount t else 0.
Proof. intros H. unfold hold_on. by rewrite (bool_decide_ext _ (side t = i)) by tauto. Qed.

Lemma held_insert_posted side i t (m : gmap N Transfer) k :
  m !! k = None -> tr_state t = Posted -> held side i (<[k := t]> m) = held side i m.
Proof.
  intros Hk Ht. unfold held. rewrite map_sum_insert_new by done.
  rewrite hold_on_not_pending by congruence. done.
Qed.

Lemma held_insert_pending side i t (m : gmap N Transfer) k :
  m !! k = None -> tr_state t = Pending ->
  held side i (<[k := t]> m) = held side i m + if bool_decide (side t = i) then tr_amount t else 0.
Proof.
  intros Hk Ht. unfold held. rewrite map_sum_insert_new by done.
  rewrite hold_on_pending by done. lia.
Qed.

Lemma held_release side i h s (m : gmap N Transfer) p :
  m !! p = Some h -> tr_state h = Pending -> s <> Pending ->
  held side i m =
    held side i (<[p := restore_state s h]> m) +
    if bool_decide (side h = i) then tr_amount h else 0.
Proof.
  intros Hp Hh Hs. unfold held.
  pose proof (map_sum_update (hold_on side i) m p h (restore_state s h) Hp) as H.
  rewrite (hold_on_not_pending side i (restore_state s h)) in H by done.
  rewrite hold_on_pending in H by done. lia.
Qed.

(** ** Preservation *)

Lemma transfer_ok_mono acc trs acc' trs' i t :
  transfer_ok acc trs i t ->
  (forall j, is_Some (acc !! j) -> is_Some (acc' !! j)) ->
  (forall p h, trs !! p = Some h -> tr_state h = Posted ->
     exists h', trs' !! p = Some h' /\ tr_state h' = Posted) ->
  transfer_ok acc' trs' i t.
Proof.
  intros [Hk Hne Hpos Hd Hc Hl] Ha Ht. constructor; auto.
  intros p Hp. destruct (Hl p Hp) as (Hs & h & Hh & Hps). eauto.
Qed.

(** Posted transfers survive inserting a fresh transfer or moving a pending one. *)
Lemma posted_insert_fresh (trs : gmap N Transfer) k t p h :
  trs !! k = None -> trs !! p = Some h -> tr_state h = Posted ->
  exists h', <[k := t]> trs !! p = Some h' /\ tr_state h' = Posted.
Proof. intros Hk Hp Hs. exists h. rewrite lookup_insert_ne; [done|congruence]. Qed.

Lemma posted_move_pending (trs : gmap N Transfer) k t g p h :
  trs !! k = Some g -> tr_state g = Pending -> trs !! p = Some h -> tr_state h = Posted ->
  exists h', <[k := t]> trs !! p = Some h' /\ tr_state h' = Posted.
Proof. intros Hk Hg Hp Hs. exists h. rewrite lookup_insert_ne; [done|congruence]. Qed.

(** Storing a transfer: the others stay well shaped, and the new one must be. *)
Lemma transfers_insert acc trs acc' k t :
  (forall i t', trs !! i = Some t' -> transfer_ok acc trs i t') ->
  (forall j, is_Some (acc !! j) -> is_Some (acc' !! j)) ->
  (forall p h, trs !! p = Some h -> tr_state h = Posted ->
     exists h', <[k := t]> trs !! p = Some h' /\ tr_state h' = Posted) ->
  transfer_ok acc' (<[k := t]> trs) k t ->
  forall i t', <[k := t]> trs !! i = Some t' -> transfer_ok acc' (<[k := t]> trs) i t'.
Proof.
  intros Hold Hacc Hpost Hnew i t' Hi. destruct (decide (k = i)) as [<-|Hne].
  - rewrite lookup_insert_eq in Hi. by simplify_eq.
  - rewrite lookup_insert_ne in Hi by done. by eapply transfer_ok_mono; eauto.
Qed.

Lemma lstep_transfers l ev l' :
  lstep l ev l' ->
  (forall i t, transfers l !! i = Some t -> transfer_ok (accounts l) (transfers l) i t) ->
  forall i t, transfers l' !! i = Some t -> transfer_ok (accounts l') (transfers l') i t.
Proof.
  intros Hs Hinv. destruct Hs as [id ty fl sc ts Ht Hid -> | id ts a Ht Ha Hc
    | t da ca Hf Hl Hm Hd Hc | t da ca Hf Hl Hm Hd Hc
    | p q x ts h da ca Ht Hq Hh Hne Hx Hle Hd Hc | p ts h da ca Ht Hh]; simpl.
  - intros i t Hi. eapply transfer_ok_mono; eauto. intros j Hj. by apply lookup_insert_is_Some'; right.
  - intros i t Hi. eapply transfer_ok_mono; eauto. intros j Hj. by apply lookup_insert_is_Some'; right.
  - destruct Hf as [_ Hst Hfr Hne Hpos], Hm as [Hda Hca _ _].
    eapply transfers_insert; eauto; [by intros; apply upd2_dom|by intros; eapply posted_insert_fresh|].
    constructor; auto; [by apply upd2_dom; eauto..|].
    intros p Hp. split; [done|]. destruct (Hl p Hp) as (h & Hh & Hps).
    by eapply posted_insert_fresh.
  - destruct Hf as [_ Hst Hfr Hne Hpos], Hm as [Hda Hca _ _].
    eapply transfers_insert; eauto; [by intros; apply upd2_dom|by intros; eapply posted_insert_fresh|].
    constructor; auto; [by apply upd2_dom; eauto..|]. congruence.
  - destruct Hh as [Hh Hst Hda Hca _ _].
    assert (<[p:=restore_state Posted h]> (transfers l) !! q = None) as Hq'.
    { rewrite lookup_insert_ne; [done|congruence]. }
    pose proof (Hinv p h Hh) as [Hk Hne' Hpos Hd' Hc' Hl'].
    apply (transfers_insert (accounts l)); [|by intros; apply upd2_dom| |].
    + eapply transfers_insert; eauto; [by intros; eapply posted_move_pending|].
      constructor; auto. intros p' Hp'. destruct (Hl' p' Hp'). congruence.
    + by intros; eapply posted_insert_fresh.
    + constructor; simpl; auto; [by apply upd2_dom..|].
      intros p' [= <-]. split; [done|]. eapply posted_insert_fresh; [done|apply lookup_insert_eq|done].
  - destruct Hh as [Hh Hst Hda Hca _ _].
    pose proof (Hinv p h Hh) as [Hk Hne' Hpos Hd' Hc' Hl'].
    eapply transfers_insert; eauto; [by intros; apply upd2_dom|by intros; eapply posted_move_pending|].
    constructor; simpl; auto; [by apply upd2_dom..|].
    intros p' Hp'. destruct (Hl' p' Hp'). congruence.
Qed.

Lemma account_ok_new sc trs id ty fl :
  (forall i t, trs !! i = Some t -> tr_state t = Pending ->
     debit_account_id t <> id /\ credit_account_id t <> id) ->
  account_ok sc trs id (Account_new id ty fl sc).
Proof.
  intros Hnone.
  assert (forall side, (forall i t, trs !! i = Some t -> tr_state t = Pending -> side t <> id) ->
    held side id trs = 0) as Hz.
  { intros side Hside. apply map_sum_zero. intros i t Hi. unfold hold_on.
    rewrite bool_decide_false; [done|]. intros [Hp He]. by apply (Hside i t Hi Hp). }
  constructor; simpl; try done; try (by vm_compute).
  - symmetry. apply Hz. intros i t Hi Hp. by apply (Hnone i t Hi Hp).
  - symmetry. apply Hz. intros i t Hi Hp. by apply (Hnone i t Hi Hp).
Qed.

(** One side of a movement: [f] changes the balance, [trs'] the reservations. *)
Lemma account_ok_balance sc trs trs' i a b :
  account_ok sc trs i a ->
  debits_pending b = held debit_account_id i trs' ->
  credits_pending b = held credit_account_id i trs' ->
  within_limits (acc_flags a) b ->
  debits_posted b <= U128_MAX -> credits_posted b <= U128_MAX ->
  debits_pending b <= U128_MAX -> credits_pending b <= U128_MAX ->
  account_ok sc trs' i (set_balance b a).
Proof. intros [] ? ? ? ? ? ? ?. by constructor. Qed.

(** Decide at which account a reservation of a step falls. *)
Ltac held_cases := repeat (case_bool_decide; try congruence).

Lemma accounts_transfer l t da ca :
  fresh_transfer l t Posted ->
  can_move l (debit_account_id t) (credit_account_id t) (tr_amount t) da ca ->
  debits_posted (acc_balance da) + tr_amount t <= U128_MAX ->
  credits_posted (acc_balance ca) + tr_amount t <= U128_MAX ->
  (forall i a, accounts l !! i = Some a -> account_ok (ledger_scale l) (transfers l) i a) ->
  forall i a,
    upd2 (debit_account_id t) (credit_account_id t)
      (debit_post (tr_amount t)) (credit_post (tr_amount t)) (accounts l) !! i = Some a ->
    account_ok (ledger_scale l) (<[tr_id t := t]> (transfers l)) i a.
Proof.
  intros [_ Hst Hfr Hne Hpos] [Hda Hca Hed Hec] Hdm Hcm Hinv i a Hi.
  apply ensure_can_debit_ok in Hed as [_ Hed]. apply ensure_can_credit_ok in Hec as [_ Hec].
  apply upd2_lookup in Hi as (a0 & b & Ha0 & -> & Hb); [|done].
  pose proof (Hinv i a0 Ha0) as Hok. eapply account_ok_balance; [done|..];
    rewrite ?held_insert_posted by done; destruct Hok as [_ _ Hhd Hhc [L1 L2] ? ? ? ?];
    destruct Hb as [[-> ->]|[[-> ->]|(? & ? & ->)]]; simplify_eq; simpl; try done; try lia.
  all: split; intros F; [specialize (L1 F); try specialize (Hed F)
                        |specialize (L2 F); try specialize (Hec F)]; simpl; lia.
Qed.

Lemma accounts_pending l t da ca :
  fresh_transfer l t Pending ->
  can_move l (debit_account_id t) (credit_account_id t) (tr_amount t) da ca ->
  debits_pending (acc_balance da) + tr_amount t <= U128_MAX ->
  credits_pending (acc_balance ca) + tr_amount t <= U128_MAX ->
  (forall i a, accounts l !! i = Some a -> account_ok (ledger_scale l) (transfers l) i a) ->
  forall i a,
    upd2 (debit_account_id t) (credit_account_id t)
      (debit_hold (tr_amount t)) (credit_hold (tr_amount t)) (accounts l) !! i = Some a ->
    account_ok (ledger_scale l) (<[tr_id t := t]> (transfers l)) i a.
Proof.
  intros [_ Hst Hfr Hne Hpos] [Hda Hca Hed Hec] Hdm Hcm Hinv i a Hi.
  apply ensure_can_debit_ok in Hed as [_ Hed]. apply ensure_can_credit_ok in Hec as [_ Hec].
  apply upd2_lookup in Hi as (a0 & b & Ha0 & -> & Hb); [|done].
  pose proof (Hinv i a0 Ha0) as Hok. eapply account_ok_balance; [done|..];
    rewrite ?held_insert_pending by done; destruct Hok as [_ _ Hhd Hhc [L1 L2] ? ? ? ?];
    destruct Hb as [[-> ->]|[[-> ->]|(? & ? & ->)]]; simplify_eq; held_cases; simpl;
    try done; try lia.
  all: split; intros F; [specialize (L1 F); try specialize (Hed F)
                        |specialize (L2 F); try specialize (Hec F)]; simpl; lia.
Qed.

(** Reservations after a hold is posted (and its settlement stored) or voided. *)
Lemma held_settled side i l p q h t :
  transfers l !! q = None -> transfers l !! p = Some h -> tr_state h = Pending ->
  tr_state t = Posted ->
  held side i (transfers l) =
    held side i (<[q := t]> (<[p := restore_state Posted h]> (transfers l))) +
    if bool_decide (side h = i) then tr_amount h else 0.
Proof.
  intros Hq Hp Hs Ht. rewrite held_insert_posted; [|rewrite lookup_insert_ne; congruence|done].
  by apply held_release.
Qed.

Lemma accounts_post l p q x ts h da ca :
  transfers l !! q = None -> live_hold l p h da ca ->
  debit_account_id h <> credit_account_id h -> x <= tr_amount h ->
  debits_posted (acc_balance da) + x <= U128_MAX ->
  credits_posted (acc_balance ca) + x <= U128_MAX ->
  (forall i a, accounts l !! i = Some a -> account_ok (ledger_scale l) (transfers l) i a) ->
  forall i a,
    upd2 (debit_account_id h) (credit_account_id h)
      (fun b => debit_post x (debit_release (tr_amount h) b))
      (fun b => credit_post x (credit_release (tr_amount h) b)) (accounts l) !! i = Some a ->
    account_ok (ledger_scale l)
      (<[q := mkTransfer q (debit_account_id h) (credit_account_id h) x Posted (Some p) ts]>
         (<[p := restore_state Posted h]> (transfers l))) i a.
Proof.
  intros Hq [Hh Hst Hda Hca Hdl Hcl] Hne Hx Hdm Hcm Hinv i a Hi.
  apply upd2_lookup in Hi as (a0 & b & Ha0 & -> & Hb); [|done].
  pose proof (Hinv i a0 Ha0) as Hok.
  set (t := mkTransfer q _ _ _ _ _ _).
  pose proof (held_settled debit_account_id i l p q h t Hq Hh Hst eq_refl) as Hd.
  pose proof (held_settled credit_account_id i l p q h t Hq Hh Hst eq_refl) as Hc.
  revert Hd Hc. held_cases; intros Hd Hc.
  all: eapply account_ok_balance; [done|..]; destruct Hok as [_ _ Hhd Hhc [L1 L2] ? ? ? ?];
    destruct Hb as [[-> ->]|[[-> ->]|(? & ? & ->)]]; simplify_eq; simpl; try done; try lia.
  all: split; intros F; [specialize (L1 F)|specialize (L2 F)]; simpl; lia.
Qed.

Lemma accounts_void l p h da ca :
  live_hold l p h da ca -> debit_account_id h <> credit_account_id h ->
  (forall i a, accounts l !! i = Some a -> account_ok (ledger_scale l) (transfers l) i a) ->
  forall i a,
    upd2 (debit_account_id h) (credit_account_id h)
      (debit_release (tr_amount h)) (credit_release (tr_amount h)) (accounts l) !! i = Some a ->
    account_ok (ledger_scale l) (<[p := restore_state Voided h]> (transfers l)) i a.
Proof.
  intros [Hh Hst Hda Hca Hdl Hcl] Hne Hinv i a Hi.
  apply upd2_lookup in Hi as (a0 & b & Ha0 & -> & Hb); [|done].
  pose proof (Hinv i a0 Ha0) as Hok.
  pose proof (held_release debit_account_id i h Voided (transfers l) p Hh Hst ltac:(done)) as Hd.
  pose proof (held_release credit_account_id i h Voided (transfers l) p Hh Hst ltac:(done)) as Hc.
  revert Hd Hc. held_cases; intros Hd Hc.
  all: eapply account_ok_balance; [done|..]; destruct Hok as [_ _ Hhd Hhc [L1 L2] ? ? ? ?];
    destruct Hb as [[-> ->]|[[-> ->]|(? & ? & ->)]]; simplify_eq; simpl; try done; try lia.
  all: split; intros F; [specialize (L1 F)|specialize (L2 F)]; simpl; lia.
Qed.

Lemma lstep_accounts l ev l' :
  lstep l ev l' -> ledger_inv l ->
  forall i a, accounts l' !! i = Some a -> account_ok (ledger_scale l') (transfers l') i a.
Proof.
  intros Hs [Htr Hacc _ _]. destruct Hs as [id ty fl sc ts Ht Hid -> | id ts a Ht Ha Hc
    | t da ca Hf Hl Hm Hd Hc | t da ca Hf Hl Hm Hd Hc
    | p q x ts h da ca Ht Hq Hh Hne Hx Hle Hd Hc | p ts h da ca Ht Hh]; simpl.
  - intros i a Hi. destruct (decide (id = i)) as [<-|Hne].
    + rewrite lookup_insert_eq in Hi. simplify_eq. apply account_ok_new.
      intros j t Hj _. destruct (Htr j t Hj) as [_ _ _ [? Hd] [? Hc] _]. split; congruence.
    + rewrite lookup_insert_ne in Hi by done. by apply Hacc.
  - intros i a' Hi. destruct (decide (id = i)) as [<-|Hne].
    + rewrite lookup_insert_eq in Hi. simplify_eq. destruct (Hacc id a Ha). by constructor.
    + rewrite lookup_insert_ne in Hi by done. by apply Hacc.
  - by eapply accounts_transfer.
  - by eapply accounts_pending.
  - by eapply accounts_post.
  - eapply accounts_void; eauto. destruct Hh as [Hh _ _ _ _ _]. by destruct (Htr p h Hh).
Qed.

(** A movement that changes two components by the same amount keeps their totals
    equal. *)
Lemma total_balanced φ ψ d c f g (m : gmap N Account) da ca :
  d <> c -> m !! d = Some da -> m !! c = Some ca ->
  φ (f (acc_balance da)) + φ (g (acc_balance ca)) + ψ (acc_balance da) + ψ (acc_balance ca) =
  ψ (f (acc_balance da)) + ψ (g (acc_balance ca)) + φ (acc_balance da) + φ (acc_balance ca) ->
  total φ m = total ψ m -> total φ (upd2 d c f g m) = total ψ (upd2 d c f g m).
Proof.
  intros Hne Hd Hc Hb Ht.
  pose proof (total_upd2 φ d c f g m da ca Hne Hd Hc).
  pose proof (total_upd2 ψ d c f g m da ca Hne Hd Hc). lia.
Qed.

Lemma lstep_totals l ev l' :
  lstep l ev l' -> ledger_inv l ->
  total debits_posted (accounts l') = total credits_posted (accounts l') /\
  total debits_pending (accounts l') = total credits_pending (accounts l').
Proof.
  intros Hs [Htr _ Hpo Hpe]. destruct Hs as [id ty fl sc ts Ht Hid -> | id ts a Ht Ha Hc
    | t da ca [_ _ _ Hne _] Hl [Hda Hca _ _] Hd Hc | t da ca [_ _ _ Hne _] Hl [Hda Hca _ _] Hd Hc
    | p q x ts h da ca Ht Hq [Hh _ Hda Hca Hdl Hcl] Hne Hx Hle Hd Hc
    | p ts h da ca Ht [Hh _ Hda Hca Hdl Hcl]]; simpl.
  - by rewrite !total_insert_new.
  - by rewrite !(total_set_flags _ _ _ a).
  - split; eapply total_balanced; eauto; simpl; lia.
  - split; eapply total_balanced; eauto; simpl; lia.
  - split; eapply total_balanced; eauto; simpl; lia.
  - destruct (Htr p h Hh) as [_ Hne _ _ _ _]. split; eapply total_balanced; eauto; simpl; lia.
Qed.

Lemma ledger_inv_new sc : ledger_inv (Ledger_new sc).
Proof. constructor; simpl; try done. Qed.

Lemma lstep_inv l ev l' : lstep l ev l' -> ledger_inv l -> ledger_inv l'.
Proof.
  intros Hs Hi. destruct (lstep_totals l ev l' Hs Hi) as [Hpo Hpe].
  constructor; [|by eapply lstep_accounts|done|done].
  by eapply lstep_transfers; [done|apply inv_transfers].
Qed.

(** ** Reachable ledgers *)

(** [run l evs l']: the events [evs] happen in order from [l]. *)
Inductive run : Ledger -> list LedgerEvent -> Ledger -> Prop :=
| run_nil l : run l [] l
| run_cons l ev l1 evs l2 : lstep l ev l1 -> run l1 evs l2 -> run l (ev :: evs) l2.

Lemma run_app l evs1 l1 evs2 l2 : run l evs1 l1 -> run l1 evs2 l2 -> run l (evs1 ++ evs2) l2.
Proof. induction 1; simpl; [done|]. intros. econstructor; eauto. Qed.

Lemma run_one l ev l' : lstep l ev l' -> run l [ev] l'.
Proof. intros. econstructor; [done|constructor]. Qed.

Lemma run_inv_ledger l evs l' : run l evs l' -> ledger_inv l -> ledger_inv l'.
Proof. induction 1; eauto using lstep_inv. Qed.

Lemma run_frame l evs l' :
  run l evs l' -> ledger_scale l' = ledger_scale l /\ journal l' = journal l ++ evs /\
    last_timestamp l <= last_timestamp l'.
Proof.
  induction 1 as [l|l ev l1 evs l2 Hs _ (IHs & IHj & IHt)].
  - by rewrite app_nil_r.
  - destruct (lstep_frame _ _ _ Hs) as (Es & Ej & Et & Ele).
    rewrite IHs, Es, IHj, Ej, <- app_assoc. split_and!; [done|done|lia].
Qed.

Lemma run_det l evs l1 l2 : run l evs l1 -> run l evs l2 -> l1 = l2.
Proof.
  intros H1. revert l2. induction H1 as [l|l ev l1 evs l2 Hs _ IH]; intros l3 H3; inversion H3; subst.
  - done.
  - apply IH. by rewrite (lstep_det _ _ _ _ Hs H2).
Qed.

Definition reachable (sc : Scale) (l : Ledger) : Prop := exists evs, run (Ledger_new sc) evs l.

Lemma reachable_new sc : reachable sc (Ledger_new sc).
Proof. exists []. constructor. Qed.

Lemma reachable_inv sc l : reachable sc l -> ledger_inv l.
Proof. intros [evs H]. eapply run_inv_ledger; eauto using ledger_inv_new. Qed.

Lemma reachable_step sc l ev l' : reachable sc l -> lstep l ev l' -> reachable sc l'.
Proof. intros [evs H] Hs. exists (evs ++ [ev]). eapply run_app; eauto using run_one. Qed.

(** Running the implementation over events is [run]. *)
Lemma st_for_events l evs l' : st_for apply_event evs l = (l', Ok tt) <-> run l evs l'.
Proof.
  revert l. induction evs as [|ev evs IH]; intros l; simpl.
  - split; [intros [= <-]; constructor|]. intros H. by inversion H.
  - rewrite st_bind_ok. split.
    + intros (l1 & [] & H1 & H2). apply apply_event_step in H1. apply IH in H2.
      by econstructor.
    + intros H. inversion H; subst. eexists _, tt. rewrite apply_event_step, IH. eauto.
Qed.

Lemma replay_run sc evs l : replay sc evs = Ok l <-> run (Ledger_new sc) evs l.
Proof.
  unfold replay. rewrite <- st_for_events.
  destruct (st_for apply_event evs (Ledger_new sc)) as [l' [[]|e]]; naive_solver.
Qed.

#[export] Hint Resolve ledger_inv_new lstep_inv run_inv_ledger reachable_inv reachable_step
  reachable_new run_one run_app : ledger.
