(* ===== verification/LedgerBatch.v ===== *)
(** * Batches: undo log, rollback, speculative preparation and commit

    The second half of [crates/ledger-core/src/ledger.rs]: [UndoOp], the
    pre-image captures, [rollback], [apply_with_undo], [apply_batch],
    [commit_events], [prepare_batch], [prepare_transactions],
    [prepare_batch_results] and [prepare_transfers].  The undo log is kept in the
    order the source pushes it and replayed backwards. *)

From S2P Require Import Prelude Error Amount Account Transfer Ledger LedgerStep LedgerInv.

(** ** The undo log *)

Inductive UndoOp : Type :=
| RemoveAccount (id : AccountId)
| AccountFlagsBefore (id : AccountId) (flags : AccountFlags)
| AccountBalanceBefore (id : AccountId) (balance : Balance)
| RemoveTransfer (id : TransferId)
| TransferStateBefore (id : TransferId) (state : TransferState).

Definition push_balance_before (ledger : Ledger) (id : AccountId) (undo : list UndoOp) :
    result LedgerError (list UndoOp) :=
  account ← ok_or (accounts ledger !! id) (AccountNotFound id);
  Ok (undo ++ [AccountBalanceBefore id (acc_balance account)]).

Definition pre_images (event : LedgerEvent) (ledger : Ledger) (undo : list UndoOp) :
    result LedgerError (list UndoOp) :=
  match event with
  | EvAccountCreated id _ _ _ _ => Ok (undo ++ [RemoveAccount id])
  | EvAccountClosed id _ =>
      account ← ok_or (accounts ledger !! id) (AccountNotFound id);
      Ok (undo ++ [AccountFlagsBefore id (acc_flags account)])
  | EvTransferPosted transfer | EvTransferPendingCreated transfer =>
      undo ← push_balance_before ledger (debit_account_id transfer) undo;
      undo ← push_balance_before ledger (credit_account_id transfer) undo;
      Ok (undo ++ [RemoveTransfer (tr_id transfer)])
  | EvTransferPendingPosted pending_ post _ _ =>
      pending ← ok_or (transfers ledger !! pending_) (TransferNotFound pending_);
      undo ← push_balance_before ledger (debit_account_id pending) undo;
      undo ← push_balance_before ledger (credit_account_id pending) undo;
      Ok (undo ++ [TransferStateBefore pending_ (tr_state pending)] ++ [RemoveTransfer post])
  | EvTransferPendingVoided pending_ _ _ =>
      pending ← ok_or (transfers ledger !! pending_) (TransferNotFound pending_);
      undo ← push_balance_before ledger (debit_account_id pending) undo;
      undo ← push_balance_before ledger (credit_account_id pending) undo;
      Ok (undo ++ [TransferStateBefore pending_ (tr_state pending)])
  end.

Definition op_pre_images (op : BatchOp) (ledger : Ledger) (undo : list UndoOp) :
    result LedgerError (list UndoOp) :=
  match op with
  | OpCreateAccount id _ _ _ _ =>
      if bool_decide (is_Some (accounts ledger !! id)) then Err (AccountAlreadyExists id)
      else Ok (undo ++ [RemoveAccount id])
  | OpCloseAccount id _ =>
      account ← ok_or (accounts ledger !! id) (AccountNotFound id);
      Ok (undo ++ [AccountFlagsBefore id (acc_flags account)])
  | OpTransfer transfer | OpPending transfer =>
      undo ← push_balance_before ledger (debit_account_id transfer) undo;
      undo ← push_balance_before ledger (credit_account_id transfer) undo;
      Ok (undo ++ [RemoveTransfer (tr_id transfer)])
  | OpPostPending pending_ post _ _ =>
      pending ← ok_or (transfers ledger !! pending_) (TransferNotFound pending_);
      undo ← push_balance_before ledger (debit_account_id pending) undo;
      undo ← push_balance_before ledger (credit_account_id pending) undo;
      Ok (undo ++ [TransferStateBefore pending_ (tr_state pending)] ++ [RemoveTransfer post])
  | OpVoidPending pending_ _ =>
      pending ← ok_or (transfers ledger !! pending_) (TransferNotFound pending_);
      undo ← push_balance_before ledger (debit_account_id pending) undo;
      undo ← push_balance_before ledger (credit_account_id pending) undo;
      Ok (undo ++ [TransferStateBefore pending_ (tr_state pending)])
  end.

(** One arm of the loop in [rollback]; a missing entry is left as it is. *)
Definition undo_one (l : Ledger) (op : UndoOp) : Ledger :=
  match op with
  | RemoveAccount id => set_accounts (delete id (accounts l)) l
  | AccountFlagsBefore id flags => set_accounts (alter (set_flags flags) id (accounts l)) l
  | AccountBalanceBefore id balance =>
      set_accounts (alter (set_balance balance) id (accounts l)) l
  | RemoveTransfer id => set_transfers (delete id (transfers l)) l
  | TransferStateBefore id state => set_transfers (alter (restore_state state) id (transfers l)) l
  end.

Definition undo_all (undo : list UndoOp) (l : Ledger) : Ledger :=
  foldl undo_one l (reverse undo).

Definition rollback (undo : list UndoOp) (base_journal_len : nat) (base_timestamp : N)
    (l : Ledger) : Ledger :=
  let l' := undo_all undo l in
  set_last_timestamp base_timestamp (set_journal (take base_journal_len (journal l')) l').

(** ** Committing events *)

(** The loop of [apply_with_undo], with the undo log gathered so far. *)
Fixpoint apply_with_undo_loop (events : list LedgerEvent) (undo : list UndoOp)
    (base_journal_len : nat) (base_timestamp : N) : ledger_m (list UndoOp) :=
  fun self =>
    match events with
    | [] => (self, Ok undo)
    | event :: rest =>
        match pre_images event self [] with
        | Err err => (rollback undo base_journal_len base_timestamp self, Err err)
        | Ok pre =>
            match apply_event event self with
            | (self', Err err) => (rollback undo base_journal_len base_timestamp self', Err err)
            | (self', Ok _) =>
                apply_with_undo_loop rest (undo ++ pre) base_journal_len base_timestamp self'
            end
        end
    end.

Definition apply_with_undo (events : list LedgerEvent) (base_journal_len : nat)
    (base_timestamp : N) : ledger_m (list UndoOp) :=
  apply_with_undo_loop events [] base_journal_len base_timestamp.

Definition commit_events (events : list LedgerEvent) : ledger_m unit :=
  fun self =>
    st_bind (apply_with_undo events (length (journal self)) (last_timestamp self))
      (fun _ => st_ret tt) self.

Definition apply_batch (ts : list Transfer) : ledger_m unit :=
  fun self =>
    let events := EvTransferPosted <$> ts in
    st_bind (apply_with_undo events (length (journal self)) (last_timestamp self))
      (fun _ => st_ret tt) self.

(** ** Speculative preparation *)

(** The loop over operations of [prepare_batch] and [prepare_transactions]: apply
    each, gathering pre-images, up to the first failure. *)
Fixpoint speculate (ops : list BatchOp) (undo : list UndoOp) (self : Ledger) :
    Ledger * list UndoOp * option LedgerError :=
  match ops with
  | [] => (self, undo, None)
  | op :: rest =>
      match op_pre_images op self [] with
      | Err err => (self, undo, Some err)
      | Ok pre =>
          match apply_batch_op op self with
          | (self', Err err) => (self', undo, Some err)
          | (self', Ok _) => speculate rest (undo ++ pre) self'
          end
      end
  end.

Definition prepare_batch (ops : list BatchOp) : ledger_m (list LedgerEvent) :=
  fun self =>
    let base_journal_len := length (journal self) in
    let base_timestamp := last_timestamp self in
    match speculate ops [] self with
    | (self', undo, Some err) => (rollback undo base_journal_len base_timestamp self', Err err)
    | (self', undo, None) =>
        let produced := drop base_journal_len (journal self') in
        (rollback undo base_journal_len base_timestamp self', Ok produced)
    end.

Fixpoint prepare_transactions_loop (txs : list (list BatchOp)) (all_undo : list UndoOp)
    (self : Ledger) : Ledger * list UndoOp * list (result LedgerError (list LedgerEvent)) :=
  match txs with
  | [] => (self, all_undo, [])
  | tx :: rest =>
      let tx_journal_len := length (journal self) in
      let tx_timestamp := last_timestamp self in
      match speculate tx [] self with
      | (self', tx_undo, Some err) =>
          let self'' := rollback tx_undo tx_journal_len tx_timestamp self' in
          let '(l, u, rs) := prepare_transactions_loop rest all_undo self'' in
          (l, u, Err err :: rs)
      | (self', tx_undo, None) =>
          let events := drop tx_journal_len (journal self') in
          let '(l, u, rs) := prepare_transactions_loop rest (all_undo ++ tx_undo) self' in
          (l, u, Ok events :: rs)
      end
  end.

Definition prepare_transactions (txs : list (list BatchOp)) (self : Ledger) :
    Ledger * list (result LedgerError (list LedgerEvent)) :=
  let base_journal_len := length (journal self) in
  let base_timestamp := last_timestamp self in
  let '(self', all_undo, results) := prepare_transactions_loop txs [] self in
  (rollback all_undo base_journal_len base_timestamp self', results).

Definition prepare_batch_results (ops : list BatchOp) (self : Ledger) :
    Ledger * list (result LedgerError (list LedgerEvent)) :=
  prepare_transactions ((fun op => [op]) <$> ops) self.

Definition prepare_transfers (ts : list Transfer) : ledger_m (list LedgerEvent) :=
  prepare_batch (OpTransfer <$> ts).

(** ** Undoing restores the maps *)

(** Ledgers with the same accounts and transfers; the journal and the watermark
    are restored separately by [rollback]. *)
Record same_maps (l1 l2 : Ledger) : Prop := {
  sm_scale : ledger_scale l1 = ledger_scale l2;
  sm_accounts : accounts l1 = accounts l2;
  sm_transfers : transfers l1 = transfers l2;
}.

#[global] Instance same_maps_equiv : Equivalence same_maps.
Proof.
  split.
  - by constructor.
  - intros ? ? []. by constructor.
  - intros ? ? ? [] []. constructor; congruence.
Qed.

#[global] Instance undo_one_proper : Proper (same_maps ==> (=) ==> same_maps) undo_one.
Proof.
  intros l1 l2 [Hs Ha Ht] op _ <-. destruct op; constructor; simpl; congruence.
Qed.

#[global] Instance undo_all_proper : Proper ((=) ==> same_maps ==> same_maps) undo_all.
Proof.
  intros u _ <-. unfold undo_all. induction (reverse u) as [|op ops IH]; intros l1 l2 Hl; simpl.
  - done.
  - apply IH. by apply undo_one_proper.
Qed.

Lemma undo_all_app u1 u2 l : undo_all (u1 ++ u2) l = undo_all u1 (undo_all u2 l).
Proof. unfold undo_all. by rewrite reverse_app, foldl_app. Qed.

Lemma undo_all_frame u l :
  journal (undo_all u l) = journal l /\ last_timestamp (undo_all u l) = last_timestamp l.
Proof.
  unfold undo_all. revert l. induction (reverse u) as [|op ops IH]; intros l; simpl; [done|].
  destruct (IH (undo_one l op)) as [-> ->]. by destruct op.
Qed.

Lemma rollback_exact u l l0 evs :
  same_maps (undo_all u l) l0 -> journal l = journal l0 ++ evs ->
  rollback u (length (journal l0)) (last_timestamp l0) l = l0.
Proof.
  intros [Hs Ha Ht] Hj. unfold rollback. destruct (undo_all_frame u l) as [Hj' _].
  destruct l0 as [sc0 acc0 tr0 j0 t0]. simpl in *.
  unfold set_last_timestamp, set_journal. simpl. rewrite Hs, Ha, Ht, Hj', Hj.
  by rewrite take_app_length.
Qed.

(** Restoring the two balances of a movement, whatever it did to them. *)
Lemma restore_balances d c f g (m : gmap N Account) da ca :
  m !! d = Some da -> m !! c = Some ca ->
  alter (set_balance (acc_balance da)) d
    (alter (set_balance (acc_balance ca)) c (upd2 d c f g m)) = m.
Proof.
  intros Hd Hc. unfold upd2. apply map_eq. intros i.
  destruct (decide (d = c)) as [<-|Hne]; [destruct (decide (i = d)) as [->|Hi]|].
  - rewrite !lookup_alter_eq, Hd. simpl. f_equal. by destruct da.
  - by rewrite !lookup_alter_ne.
  - destruct (decide (i = d)) as [->|Hid]; [|destruct (decide (i = c)) as [->|Hic]].
    + rewrite lookup_alter_eq, !(lookup_alter_ne _ _ c) by done.
      rewrite lookup_alter_eq, Hd. simpl. f_equal. by destruct da.
    + rewrite (lookup_alter_ne _ _ d), !lookup_alter_eq, lookup_alter_ne, Hc by done.
      simpl. f_equal. by destruct ca.
    + by rewrite !lookup_alter_ne.
Qed.

Lemma restore_pending (m : gmap N Transfer) p s h :
  m !! p = Some h -> alter (restore_state (tr_state h)) p (<[p := restore_state s h]> m) = m.
Proof.
  intros Hp. rewrite (alter_insert_eq _ _ _ (restore_state s h)) by apply lookup_insert_eq.
  rewrite insert_insert_eq. rewrite insert_id; [done|]. rewrite Hp. by destruct h.
Qed.

(** The pre-images of a transition exist, and undoing them takes its effect back. *)
Lemma pre_images_undo l ev l' :
  lstep l ev l' ->
  exists pre, pre_images ev l [] = Ok pre /\ same_maps (undo_all pre l') l.
Proof.
  intros Hs. destruct Hs as [id ty fl sc ts Ht Hid -> | id ts a Ht Ha Hc
    | t da ca [_ _ Hf _ _] Hl [Hda Hca _ _] Hd Hc | t da ca [_ _ Hf _ _] Hl [Hda Hca _ _] Hd Hc
    | p q x ts h da ca Ht Hq [Hh _ Hda Hca _ _] Hne Hx Hle Hd Hc
    | p ts h da ca Ht [Hh _ Hda Hca _ _]];
    unfold pre_images, push_balance_before; rewrite ?Ha, ?Hh; simpl; rewrite ?Hda; simpl;
    rewrite ?Hca; simpl; (eexists; split; [reflexivity|]); constructor; simpl; try done.
  - by apply delete_insert_id.
  - rewrite (alter_insert_eq _ _ _ _ (lookup_insert_eq _ _ _)), insert_insert_eq.
    rewrite insert_id; [done|]. rewrite Ha. by destruct a.
  - by apply restore_balances.
  - by apply delete_insert_id.
  - by apply restore_balances.
  - by apply delete_insert_id.
  - by apply restore_balances.
  - rewrite delete_insert_id by (rewrite lookup_insert_ne; congruence). by apply restore_pending.
  - by apply restore_balances.
  - by apply restore_pending.
Qed.

Lemma op_pre_images_event l op ev l' :
  op_event l op = Some ev -> lstep l ev l' -> op_pre_images op l [] = pre_images ev l [].
Proof.
  intros He Hs. destruct op; simpl in He; simplify_eq; try done.
  - inversion Hs; subst. simpl. rewrite bool_decide_false; [done|].
    by rewrite <- eq_None_not_Some.
  - destruct (transfers l !! pending) eqn:Hp; simplify_eq/=. by rewrite Hp.
Qed.

(** ** Commit *)

(** The undo log gathered between [l0] and [l] takes [l] back to [l0]. *)
Record undoable (l0 : Ledger) (undo : list UndoOp) (evs : list LedgerEvent) (l : Ledger) : Prop := {
  ua_run : run l0 evs l;
  ua_undo : same_maps (undo_all undo l) l0;
}.

Lemma undoable_start l : undoable l [] [] l.
Proof. split; [constructor|done]. Qed.

Lemma undoable_step l0 undo evs l ev l' pre :
  undoable l0 undo evs l -> lstep l ev l' -> pre_images ev l [] = Ok pre ->
  undoable l0 (undo ++ pre) (evs ++ [ev]) l'.
Proof.
  intros [Hr Hu] Hs Hp. destruct (pre_images_undo l ev l' Hs) as (pre' & Hp' & Hm).
  rewrite Hp in Hp'. simplify_eq. split; [by eapply run_app; [|by apply run_one]|].
  rewrite undo_all_app. by rewrite Hm.
Qed.

Lemma undoable_rollback l0 undo evs l :
  undoable l0 undo evs l -> rollback undo (length (journal l0)) (last_timestamp l0) l = l0.
Proof. intros [Hr Hu]. apply run_frame in Hr as (_ & Hj & _). by eapply rollback_exact. Qed.

(** Applying an event as the commit loop does: pre-images first, and their error
    if they cannot be taken. *)
Definition guarded_event (ev : LedgerEvent) : ledger_m unit :=
  fun l => match pre_images ev l [] with Ok _ => apply_event ev l | Err e => (l, Err e) end.

Lemma guarded_event_ok ev l l' : guarded_event ev l = (l', Ok tt) <-> lstep l ev l'.
Proof.
  rewrite <- apply_event_step. unfold guarded_event. split.
  - by destruct (pre_images ev l []).
  - intros H. destruct (pre_images_undo l ev l') as (pre & -> & _); [by apply apply_event_step|done].
Qed.

Lemma guarded_event_err ev l l' e : guarded_event ev l = (l', Err e) -> l' = l.
Proof.
  unfold guarded_event. destruct (pre_images ev l []); [apply apply_event_err|by intros [= <- _]].
Qed.

Lemma apply_with_undo_spec events l0 undo evs l :
  undoable l0 undo evs l ->
  match st_for guarded_event events l with
  | (l', Ok _) => exists undo',
      apply_with_undo_loop events undo (length (journal l0)) (last_timestamp l0) l = (l', Ok undo')
      /\ undoable l0 undo' (evs ++ events) l'
  | (_, Err e) =>
      apply_with_undo_loop events undo (length (journal l0)) (last_timestamp l0) l = (l0, Err e)
  end.
Proof.
  revert undo evs l. induction events as [|ev events IH]; intros undo evs l Hu; simpl.
  - exists undo. by rewrite app_nil_r.
  - unfold st_bind. destruct (guarded_event ev l) as [l1 [[]|e]] eqn:Hg.
    + pose proof (proj1 (guarded_event_ok _ _ _) Hg) as Hs. unfold guarded_event in Hg.
      destruct (pre_images ev l []) as [pre|] eqn:Hp; [|done]. rewrite Hg.
      specialize (IH _ _ l1 (undoable_step _ _ _ _ _ _ _ Hu Hs Hp)).
      by rewrite <- (app_assoc evs [ev] events) in IH.
    + pose proof (guarded_event_err _ _ _ _ Hg) as ->. unfold guarded_event in Hg.
      destruct (pre_images ev l []) as [pre|] eqn:Hp; simplify_eq; [rewrite Hg|];
        by erewrite undoable_rollback.
Qed.

(** What [commit_events] computes: the events one after the other, or nothing. *)
Lemma commit_events_eq events l :
  commit_events events l =
  match st_for guarded_event events l with
  | (l', Ok _) => (l', Ok tt)
  | (_, Err e) => (l, Err e)
  end.
Proof.
  pose proof (apply_with_undo_spec events l [] [] l (undoable_start l)) as H.
  unfold commit_events, apply_with_undo, st_bind.
  destruct (st_for guarded_event events l) as [l' [[]|e]]; [destruct H as (u & -> & _)|rewrite H]; done.
Qed.

Lemma apply_batch_eq ts l : apply_batch ts l = commit_events (EvTransferPosted <$> ts) l.
Proof. done. Qed.

Lemma st_for_guarded events l l' : st_for guarded_event events l = (l', Ok tt) <-> run l events l'.
Proof.
  revert l. induction events as [|ev events IH]; intros l; simpl.
  - split; [intros [= <-]; constructor|]. intros H. by inversion H.
  - rewrite st_bind_ok. split.
    + intros (l1 & [] & H1 & H2). apply guarded_event_ok in H1. apply IH in H2. by econstructor.
    + intros H. inversion H; subst. eexists _, tt. rewrite guarded_event_ok, IH. eauto.
Qed.

Lemma commit_events_ok events l l' : commit_events events l = (l', Ok tt) <-> run l events l'.
Proof.
  rewrite commit_events_eq, <- st_for_guarded.
  destruct (st_for guarded_event events l) as [l1 [[]|e]]; split; by intros [= <-].
Qed.

Lemma commit_events_err events l l' e : commit_events events l = (l', Err e) -> l' = l.
Proof.
  rewrite commit_events_eq.
  destruct (st_for guarded_event events l) as [l1 [[]|e']]; by intros [= <-].
Qed.

(** ** Speculation *)

(** Applying an operation as the speculation loop does. *)
Definition guarded_op (op : BatchOp) : ledger_m unit :=
  fun l => match op_pre_images op l [] with Ok _ => apply_batch_op op l | Err e => (l, Err e) end.

Lemma guarded_op_ok op l l' :
  guarded_op op l = (l', Ok tt) <-> exists ev, op_event l op = Some ev /\ lstep l ev l'.
Proof.
  rewrite <- apply_batch_op_ok. unfold guarded_op. split.
  - by destruct (op_pre_images op l []).
  - intros H. pose proof H as (ev & He & Hs)%apply_batch_op_ok.
    rewrite (op_pre_images_event l op ev l' He Hs).
    by destruct (pre_images_undo l ev l' Hs) as (pre & -> & _).
Qed.

Lemma guarded_op_err op l l' e : guarded_op op l = (l', Err e) -> l' = l.
Proof.
  unfold guarded_op. destruct (op_pre_images op l []);
    [apply apply_batch_op_err|by intros [= <- _]].
Qed.

(** The reference for one transaction: its operations one after the other, with
    the events they journal. *)
Definition exec_tx (ops : list BatchOp) (l : Ledger) : result LedgerError (Ledger * list LedgerEvent) :=
  match st_for guarded_op ops l with
  | (l', Ok _) => Ok (l', drop (length (journal l)) (journal l'))
  | (_, Err e) => Err e
  end.

(** Operations that succeed one after the other are a run of the events they journal. *)
Lemma guarded_ops_run ops l l' :
  st_for guarded_op ops l = (l', Ok tt) ->
  run l (drop (length (journal l)) (journal l')) l' /\
  length (drop (length (journal l)) (journal l')) = length ops.
Proof.
  assert (forall evs, run l evs l' -> evs = drop (length (journal l)) (journal l')) as Hev.
  { intros evs (_ & -> & _)%run_frame. by rewrite drop_app_length. }
  intros H. cut (exists evs, run l evs l' /\ length evs = length ops).
  { intros (evs & Hr & Hl). by rewrite <- (Hev evs Hr). }
  clear Hev. revert l H. induction ops as [|op ops IH]; intros l H; simpl in H.
  - injection H as <-. exists []. split; [constructor|done].
  - apply st_bind_ok in H as (l1 & [] & (ev & He & Hs)%guarded_op_ok & H2).
    destruct (IH l1 H2) as (evs & Hr & Hl). exists (ev :: evs). simpl. rewrite Hl.
    split; [by econstructor|done].
Qed.

Lemma exec_tx_run ops l l' evs :
  exec_tx ops l = Ok (l', evs) -> run l evs l' /\ length evs = length ops.
Proof.
  unfold exec_tx. destruct (st_for guarded_op ops l) as [l1 [[]|e]] eqn:H; [|done].
  intros [= <- <-]. by apply guarded_ops_run.
Qed.

Lemma speculate_spec ops l0 undo evs l :
  undoable l0 undo evs l ->
  exists lf u evs', speculate ops undo l =
    (lf, u, match st_for guarded_op ops l with (_, Ok _) => None | (_, Err e) => Some e end) /\
    undoable l0 u (evs ++ evs') lf /\
    forall l', st_for guarded_op ops l = (l', Ok tt) -> lf = l'.
Proof.
  revert undo evs l. induction ops as [|op ops IH]; intros undo evs l Hu; simpl.
  - exists l, undo, []. rewrite app_nil_r. split_and!; [done|done|]. by intros l' [= <-].
  - unfold st_bind. destruct (guarded_op op l) as [l1 [[]|e]] eqn:Hg.
    + pose proof (proj1 (guarded_op_ok _ _ _) Hg) as (ev & He & Hs). unfold guarded_op in Hg.
      rewrite (op_pre_images_event l op ev l1 He Hs) in Hg |- *.
      destruct (pre_images ev l []) as [pre|] eqn:Hp; [|done]. rewrite Hg.
      destruct (IH _ _ l1 (undoable_step _ _ _ _ _ _ _ Hu Hs Hp)) as (lf & u & evs' & -> & Hu' & Hl).
      exists lf, u, (ev :: evs'). by rewrite <- app_assoc in Hu'.
    + pose proof (guarded_op_err _ _ _ _ Hg) as ->. unfold guarded_op in Hg.
      exists l, undo, []. rewrite app_nil_r.
      destruct (op_pre_images op l []); simplify_eq; [rewrite Hg|]; done.
Qed.

Lemma prepare_batch_eq ops l :
  prepare_batch ops l = (l, snd <$> exec_tx ops l).
Proof.
  destruct (speculate_spec ops l [] [] l (undoable_start l)) as (lf & u & evs & Hs & Hu & Hl).
  unfold prepare_batch, exec_tx. rewrite Hs.
  destruct (st_for guarded_op ops l) as [l' [[]|e]]; erewrite undoable_rollback by done; [|done].
  by rewrite (Hl l' eq_refl).
Qed.

(** The reference for a list of transactions: each sees the successful ones before
    it, and a failing one changes nothing. *)
Fixpoint exec_txs (txs : list (list BatchOp)) (l : Ledger) :
    Ledger * list (result LedgerError (list LedgerEvent)) :=
  match txs with
  | [] => (l, [])
  | tx :: rest =>
      match exec_tx tx l with
      | Ok (l', evs) => let '(lf, rs) := exec_txs rest l' in (lf, Ok evs :: rs)
      | Err e => let '(lf, rs) := exec_txs rest l in (lf, Err e :: rs)
      end
  end.

Lemma prepare_transactions_loop_spec txs l0 undo evs l :
  undoable l0 undo evs l ->
  exists u evs', prepare_transactions_loop txs undo l = ((exec_txs txs l).1, u, (exec_txs txs l).2) /\
    undoable l0 u evs' (exec_txs txs l).1.
Proof.
  revert undo evs l. induction txs as [|tx txs IH]; intros undo evs l Hu; simpl; [eauto|].
  destruct (speculate_spec tx l [] [] l (undoable_start l)) as (lf & u & evs1 & -> & [Hr1 Hu1] & Hl).
  unfold exec_tx. destruct (st_for guarded_op tx l) as [l' [[]|e]].
  - specialize (Hl l' eq_refl) as ->. simpl in Hr1.
    assert (undoable l0 (undo ++ u) (evs ++ evs1) l') as Hu'.
    { destruct Hu as [Hr Hu]. split; [by eapply run_app|]. rewrite undo_all_app. by rewrite Hu1. }
    destruct (IH _ _ l' Hu') as (u' & evs' & -> & ?).
    destruct (exec_txs txs l') eqn:E. simpl in *. eauto.
  - rewrite (undoable_rollback l u evs1 lf) by done.
    destruct (IH _ _ l Hu) as (u' & evs' & -> & ?).
    destruct (exec_txs txs l) eqn:E. simpl in *. eauto.
Qed.

Lemma prepare_transactions_eq txs l :
  prepare_transactions txs l = (l, (exec_txs txs l).2).
Proof.
  destruct (prepare_transactions_loop_spec txs l [] [] l (undoable_start l)) as (u & evs & H & Hu).
  unfold prepare_transactions. rewrite H. by erewrite undoable_rollback.
Qed.

(** The events of the transactions that were accepted. *)
Definition accepted (rs : list (result LedgerError (list LedgerEvent))) : list LedgerEvent :=
  concat (omap result_ok rs).

Lemma exec_txs_run txs l : run l (accepted (exec_txs txs l).2) (exec_txs txs l).1.
Proof.
  revert l. induction txs as [|tx txs IH]; intros l; simpl; [constructor|].
  destruct (exec_tx tx l) as [[l' evs]|e] eqn:Ht.
  - specialize (IH l'). destruct (exec_txs txs l'). simpl in *.
    apply exec_tx_run in Ht as [Hr _]. by eapply run_app.
  - specialize (IH l). by destruct (exec_txs txs l).
Qed.
