(* ===== verification/LedgerVerify.v ===== *)
(** * The self-check of the ledger

    [verify_invariants] and [verify_structure] of
    [crates/ledger-core/src/ledger.rs], and the debug build, which runs the check
    after every mutation.  The check is shown to decide a declarative property, to
    accept every reachable ledger whose totals fit in 128 bits, and to answer
    [ArithmeticOverflow], and nothing else, on a reachable ledger whose totals do
    not. *)

From S2P Require Import Prelude Error Amount Account Transfer Ledger LedgerStep LedgerInv.

(** ** The check *)

(** The four accumulators of [verify_invariants]. *)
Record Totals : Type := mkTotals {
  total_debits_posted : Amount;
  total_credits_posted : Amount;
  total_debits_pending : Amount;
  total_credits_pending : Amount;
}.

Definition add_totals (t : Totals) (account : Account) : result LedgerError Totals :=
  dp ← amount_checked_add (total_debits_posted t) (debits_posted (acc_balance account));
  cp ← amount_checked_add (total_credits_posted t) (credits_posted (acc_balance account));
  dh ← amount_checked_add (total_debits_pending t) (debits_pending (acc_balance account));
  ch ← amount_checked_add (total_credits_pending t) (credits_pending (acc_balance account));
  Ok (mkTotals dp cp dh ch).

(** [held.entry(id).or_insert(ZERO)] followed by the checked addition. *)
Definition entry_add (id : AccountId) (amount : Amount) (held : gmap N Amount) :
    result LedgerError (gmap N Amount) :=
  t ← amount_checked_add (default 0 (held !! id)) amount;
  Ok (<[id := t]> held).

(** The body of the loop over transfers; the accumulators are [held_debits] and
    [held_credits]. *)
Definition verify_transfer (self : Ledger) (acc : gmap N Amount * gmap N Amount)
    (transfer : Transfer) : result LedgerError (gmap N Amount * gmap N Amount) :=
  if negb (bool_decide (is_Some (accounts self !! debit_account_id transfer)))
  then Err (AccountNotFound (debit_account_id transfer))
  else if negb (bool_decide (is_Some (accounts self !! credit_account_id transfer)))
  then Err (AccountNotFound (credit_account_id transfer))
  else match tr_state transfer with
       | Pending =>
           hd ← entry_add (debit_account_id transfer) (tr_amount transfer) acc.1;
           hc ← entry_add (credit_account_id transfer) (tr_amount transfer) acc.2;
           Ok (hd, hc)
       | Posted => _ ← validate_pending_link transfer self; Ok acc
       | Voided =>
           match pending_id transfer with
           | Some p => Err (InvalidPendingLink (tr_id transfer) p (tr_state transfer))
           | None => Ok acc
           end
       end.

(** The body of the loop over accounts. *)
Definition verify_reservations (acc : gmap N Amount * gmap N Amount) (_ : unit)
    (entry : N * Account) : result LedgerError unit :=
  let '(account_id, account) := entry in
  let held := default 0 (acc.1 !! account_id) in
  if negb (debits_pending (acc_balance account) =? held)
  then Err (PendingBalanceMismatch account_id (debits_pending (acc_balance account)) held)
  else
    let held := default 0 (acc.2 !! account_id) in
    if negb (credits_pending (acc_balance account) =? held)
    then Err (PendingBalanceMismatch account_id (credits_pending (acc_balance account)) held)
    else Ok tt.

Definition verify_structure (self : Ledger) : result LedgerError unit :=
  acc ← try_fold (verify_transfer self) (btree_values (transfers self)) (∅, ∅);
  try_fold (verify_reservations acc) (btree_iter (accounts self)) tt.

Definition verify_invariants (self : Ledger) : result LedgerError unit :=
  t ← try_fold add_totals (btree_values (accounts self)) (mkTotals 0 0 0 0);
  if negb (total_debits_posted t =? total_credits_posted t)
  then Err (ConservationViolation (total_debits_posted t) (total_credits_posted t))
  else if negb (total_debits_pending t =? total_credits_pending t)
  then Err (ConservationViolation (total_debits_pending t) (total_credits_pending t))
  else verify_structure self.

(** ** The debug build *)

Definition check_after_mutation (self : Ledger) : result LedgerError unit :=
  verify_invariants self.

(** A mutation compiled with [debug_assertions]: the release code, then the
    check. *)
Definition with_check {A} (m : ledger_m A) : ledger_m A :=
  (let? a := m in do? st_reads check_after_mutation; st_ret a)%st.

(** ** Sums by checked additions *)

(** The four accumulators fit their width. *)
Definition totals_fit (t : Totals) : Prop :=
  total_debits_posted t <= U128_MAX /\ total_credits_posted t <= U128_MAX /\
  total_debits_pending t <= U128_MAX /\ total_credits_pending t <= U128_MAX.

#[global] Instance totals_fit_dec t : Decision (totals_fit t).
Proof. unfold totals_fit. solve_decision. Defined.

(** The sums of [l] on top of [t], with no bound on their width. *)
Definition sum_totals (t : Totals) (l : list Account) : Totals :=
  let s f := list_sum (fun a => f (acc_balance a)) l in
  mkTotals (total_debits_posted t + s debits_posted) (total_credits_posted t + s credits_posted)
    (total_debits_pending t + s debits_pending) (total_credits_pending t + s credits_pending).

Lemma add_totals_eq t a :
  add_totals t a =
    if bool_decide (totals_fit (sum_totals t [a])) then Ok (sum_totals t [a])
    else Err ArithmeticOverflow.
Proof.
  unfold add_totals, amount_checked_add, checked_add, sum_totals, totals_fit. simpl.
  rewrite !N.add_0_r.
  repeat match goal with
  | |- context [ok_or (if ?x <=? U128_MAX then _ else _) _] =>
      destruct (N.leb_spec x U128_MAX); simpl; [|by rewrite bool_decide_false by lia]
  end.
  by rewrite bool_decide_true.
Qed.

(** Adding up with overflow checks succeeds exactly when the whole sum fits. *)
Lemma try_fold_totals l t :
  totals_fit t ->
  try_fold add_totals l t =
    if bool_decide (totals_fit (sum_totals t l)) then Ok (sum_totals t l)
    else Err ArithmeticOverflow.
Proof.
  revert t. induction l as [|a l IH]; intros t Ht; simpl.
  { replace (sum_totals t []) with t; [by rewrite bool_decide_true|].
    destruct t; unfold sum_totals; simpl; f_equal; lia. }
  assert (sum_totals t (a :: l) = sum_totals (sum_totals t [a]) l) as ->.
  { unfold sum_totals. simpl. f_equal; lia. }
  rewrite add_totals_eq. case_bool_decide as Hf; simpl; [by apply IH|].
  rewrite bool_decide_false; [done|]. intros Hf'. apply Hf.
  unfold totals_fit, sum_totals in *. simpl in *. lia.
Qed.

Definition ledger_totals (l : Ledger) : Totals :=
  mkTotals (total debits_posted (accounts l)) (total credits_posted (accounts l))
    (total debits_pending (accounts l)) (total credits_pending (accounts l)).

Lemma fold_ledger_totals l :
  try_fold add_totals (btree_values (accounts l)) (mkTotals 0 0 0 0) =
    if bool_decide (totals_fit (ledger_totals l)) then Ok (ledger_totals l)
    else Err ArithmeticOverflow.
Proof.
  rewrite try_fold_totals by (by vm_compute).
  replace (sum_totals _ _) with (ledger_totals l); [done|].
  unfold ledger_totals, sum_totals, total. by rewrite !map_sum_btree.
Qed.

(** ** Reservations *)

(** The condition on one transfer, apart from the amounts. *)
Definition transfer_legal (l : Ledger) (t : Transfer) : Prop :=
  is_Some (accounts l !! debit_account_id t) /\ is_Some (accounts l !! credit_account_id t) /\
  match tr_state t with
  | Pending => True
  | Posted => forall p, pending_id t = Some p ->
      exists h, transfers l !! p = Some h /\ tr_state h = Posted
  | Voided => pending_id t = None
  end.

Lemma validate_pending_link_iff t l :
  validate_pending_link t l = Ok tt <->
  forall p, pending_id t = Some p -> exists h, transfers l !! p = Some h /\ tr_state h = Posted.
Proof.
  split; [apply validate_pending_link_ok|]. unfold validate_pending_link. intros H.
  destruct (pending_id t) as [p|]; [|done]. destruct (H p eq_refl) as (h & -> & Hs). simpl.
  by rewrite bool_decide_true.
Qed.

(** What the reservation maps hold after some transfers. *)
Definition holds (acc : gmap N Amount * gmap N Amount) (ts : list Transfer) : Prop :=
  forall i, default 0 (acc.1 !! i) = list_sum (hold_on debit_account_id i) ts /\
            default 0 (acc.2 !! i) = list_sum (hold_on credit_account_id i) ts.

Lemma entry_add_ok id x m m' :
  entry_add id x m = Ok m' <->
  m' = <[id := default 0 (m !! id) + x]> m /\ default 0 (m !! id) + x <= U128_MAX.
Proof.
  unfold entry_add. rewrite bind_ok. setoid_rewrite amount_add_ok. split.
  - intros (y & [-> Hy] & [= <-]). done.
  - intros [-> Hy]. eauto.
Qed.

Lemma default_insert_add id x (m : gmap N Amount) i :
  default 0 (<[id := default 0 (m !! id) + x]> m !! i) =
    default 0 (m !! i) + (if bool_decide (id = i) then x else 0).
Proof.
  case_bool_decide as Hi; [subst; by rewrite lookup_insert_eq|].
  rewrite lookup_insert_ne by done. lia.
Qed.

(** Both reservation sums of some transfers fit, on every account. *)
Definition holds_fit (ts : list Transfer) : Prop :=
  forall i, list_sum (hold_on debit_account_id i) ts <= U128_MAX /\
            list_sum (hold_on credit_account_id i) ts <= U128_MAX.

Lemma holds_snoc_same acc ts t :
  tr_state t <> Pending -> holds acc ts -> holds acc (ts ++ [t]).
Proof.
  intros Ht H i. rewrite !list_sum_app. simpl. rewrite !hold_on_not_pending by done.
  destruct (H i). lia.
Qed.

Lemma verify_transfer_ok l acc ts t acc' :
  holds acc ts -> verify_transfer l acc t = Ok acc' ->
  transfer_legal l t /\ holds acc' (ts ++ [t]).
Proof.
  unfold verify_transfer, transfer_legal. intros Hh H. run_inv.
  destruct (tr_state t) eqn:Hs.
  - run_inv. rewrite entry_add_ok in *. destruct_and!. subst. split_and!; [done..|].
    intros i. destruct (Hh i). rewrite !list_sum_app. simpl. rewrite !default_insert_add.
    rewrite !hold_on_pending by done. lia.
  - run_inv. rewrite validate_pending_link_iff in *. split_and!; [done..|].
    apply holds_snoc_same; [congruence|done].
  - destruct (pending_id t); run_inv. split_and!; [done..|].
    apply holds_snoc_same; [congruence|done].
Qed.

Lemma verify_transfer_enabled l acc ts t :
  holds acc ts -> transfer_legal l t -> holds_fit (ts ++ [t]) ->
  exists acc', verify_transfer l acc t = Ok acc'.
Proof.
  intros Hh (Hd & Hc & Hl) Hf. unfold verify_transfer.
  rewrite !bool_decide_true by done. simpl. destruct (tr_state t) eqn:Hs.
  - pose proof (Hh (debit_account_id t)) as [Hh1 _]. pose proof (Hh (credit_account_id t)) as [_ Hh2].
    pose proof (Hf (debit_account_id t)) as [Hf1 _]. pose proof (Hf (credit_account_id t)) as [_ Hf2].
    rewrite !list_sum_app in *. simpl in *. rewrite !hold_on_pending in * by done.
    rewrite bool_decide_true in Hf1, Hf2 by done.
    erewrite (proj2 (entry_add_ok _ _ acc.1 _)) by (split; [done|lia]). simpl.
    erewrite (proj2 (entry_add_ok _ _ acc.2 _)) by (split; [done|lia]). simpl. eauto.
  - rewrite (proj2 (validate_pending_link_iff t l) Hl). simpl. eauto.
  - rewrite Hl. eauto.
Qed.

Lemma holds_fit_prefix ts1 ts2 : holds_fit (ts1 ++ ts2) -> holds_fit ts1.
Proof. intros H i. specialize (H i). rewrite !list_sum_app in H. lia. Qed.

Lemma fold_verify_transfer_ok l ts acc ts0 acc' :
  holds acc ts0 -> try_fold (verify_transfer l) ts acc = Ok acc' ->
  Forall (transfer_legal l) ts /\ holds acc' (ts0 ++ ts).
Proof.
  revert acc ts0. induction ts as [|t ts IH]; intros acc ts0 Hh H; simpl in H.
  - injection H as <-. by rewrite app_nil_r.
  - apply bind_ok in H as (acc1 & H1 & H2).
    destruct (verify_transfer_ok _ _ _ _ _ Hh H1) as [Hl Hh1].
    destruct (IH _ _ Hh1 H2) as [Hls Hh2]. rewrite <- app_assoc in Hh2. split; [by constructor|done].
Qed.

Lemma fold_verify_transfer_enabled l ts acc ts0 :
  holds acc ts0 -> Forall (transfer_legal l) ts -> holds_fit (ts0 ++ ts) ->
  exists acc', try_fold (verify_transfer l) ts acc = Ok acc'.
Proof.
  revert acc ts0. induction ts as [|t ts IH]; intros acc ts0 Hh Hl Hf; simpl; [eauto|].
  inversion Hl as [|? ? Ht Hts]; subst. rewrite cons_middle, app_assoc in Hf.
  destruct (verify_transfer_enabled l acc ts0 t Hh Ht (holds_fit_prefix _ _ Hf)) as [acc1 H1].
  rewrite H1. simpl. destruct (verify_transfer_ok _ _ _ _ _ Hh H1) as [_ Hh1]. eauto.
Qed.

Lemma fold_verify_reservations acc es :
  try_fold (verify_reservations acc) es tt = Ok tt <->
  Forall (fun '(i, a) => debits_pending (acc_balance a) = default 0 (acc.1 !! i) /\
                         credits_pending (acc_balance a) = default 0 (acc.2 !! i)) es.
Proof.
  induction es as [|[i a] es IH]; simpl; [split; auto|]. rewrite Forall_cons, <- IH.
  destruct (N.eqb_spec (debits_pending (acc_balance a)) (default 0 (acc.1 !! i))); simpl.
  - destruct (N.eqb_spec (credits_pending (acc_balance a)) (default 0 (acc.2 !! i))); simpl;
      [tauto|]. split; [done|]. by intros [[_ ?] _].
  - split; [done|]. by intros [[? _] _].
Qed.

Lemma holds_empty : holds (∅, ∅) [].
Proof. intros i. simpl. by rewrite !lookup_empty. Qed.

Lemma elem_of_btree_values {A} (m : gmap N A) x :
  x ∈ btree_values m <-> exists i, m !! i = Some x.
Proof.
  unfold btree_values. rewrite list_elem_of_fmap. split.
  - intros ([i y] & -> & H). exists i. by apply elem_of_btree_iter.
  - intros [i H]. exists (i, x). by rewrite elem_of_btree_iter.
Qed.

(** ** What the check decides *)

Record verified (l : Ledger) : Prop := {
  vf_fit : totals_fit (ledger_totals l);
  vf_posted : total debits_posted (accounts l) = total credits_posted (accounts l);
  vf_pending : total debits_pending (accounts l) = total credits_pending (accounts l);
  vf_legal : forall i t, transfers l !! i = Some t -> transfer_legal l t;
  vf_held : forall i a, accounts l !! i = Some a ->
    debits_pending (acc_balance a) = held debit_account_id i (transfers l) /\
    credits_pending (acc_balance a) = held credit_account_id i (transfers l);
}.

(** The reservations the transfers make fit when the pending totals do: what a
    transfer reserves is part of the balance of an existing account. *)
Lemma verified_holds_fit l : verified l -> holds_fit (btree_values (transfers l)).
Proof.
  intros [Hfit _ _ Hleg Hheld] i. rewrite <- !map_sum_btree.
  destruct (accounts l !! i) as [a|] eqn:Ha.
  - destruct (Hheld i a Ha) as [Hd Hc]. unfold held in *. rewrite <- Hd, <- Hc.
    pose proof (map_sum_lookup_le (fun a => debits_pending (acc_balance a)) _ _ _ Ha).
    pose proof (map_sum_lookup_le (fun a => credits_pending (acc_balance a)) _ _ _ Ha).
    destruct Hfit as (_ & _ & ? & ?). unfold ledger_totals, total in *. simpl in *. lia.
  - rewrite !map_sum_zero; [done|..].
    all: intros j t Hj; unfold hold_on; rewrite bool_decide_false; [done|]; intros [_ He];
      destruct (Hleg j t Hj) as ([? Hd] & [? Hc] & _); congruence.
Qed.

Lemma holds_held l acc i :
  holds acc (btree_values (transfers l)) ->
  default 0 (acc.1 !! i) = held debit_account_id i (transfers l) /\
  default 0 (acc.2 !! i) = held credit_account_id i (transfers l).
Proof. intros H. unfold held. rewrite !map_sum_btree. apply H. Qed.

Lemma reservations_held l acc :
  holds acc (btree_values (transfers l)) ->
  try_fold (verify_reservations acc) (btree_iter (accounts l)) tt = Ok tt <->
  forall i a, accounts l !! i = Some a ->
    debits_pending (acc_balance a) = held debit_account_id i (transfers l) /\
    credits_pending (acc_balance a) = held credit_account_id i (transfers l).
Proof.
  intros Hh. rewrite fold_verify_reservations, Forall_forall. split.
  - intros H i a Ha. apply elem_of_btree_iter in Ha. specialize (H (i, a) Ha). simpl in H.
    destruct (holds_held l acc i Hh) as [<- <-]. done.
  - intros H [i a] Ha. apply elem_of_btree_iter in Ha.
    destruct (holds_held l acc i Hh) as [-> ->]. by apply H.
Qed.

Lemma verify_structure_ok l :
  verify_structure l = Ok tt ->
  (forall i t, transfers l !! i = Some t -> transfer_legal l t) /\
  (forall i a, accounts l !! i = Some a ->
    debits_pending (acc_balance a) = held debit_account_id i (transfers l) /\
    credits_pending (acc_balance a) = held credit_account_id i (transfers l)).
Proof.
  unfold verify_structure. intros H. apply bind_ok in H as (acc & Hf & Hr).
  apply (fold_verify_transfer_ok l _ _ [] _ holds_empty) in Hf as [Hl Hh]. simpl in Hh.
  rewrite Forall_forall in Hl. split; [|by apply (reservations_held l acc)].
  intros i t Ht. apply Hl, elem_of_btree_values. eauto.
Qed.

Lemma verify_structure_enabled l : verified l -> verify_structure l = Ok tt.
Proof.
  intros Hv. unfold verify_structure.
  assert (Forall (transfer_legal l) (btree_values (transfers l))) as Hl.
  { apply Forall_forall. intros t [i Ht]%elem_of_btree_values. by eapply vf_legal. }
  destruct (fold_verify_transfer_enabled l _ _ [] holds_empty Hl) as [acc Hf];
    [by apply verified_holds_fit|].
  pose proof (fold_verify_transfer_ok l _ _ [] _ holds_empty Hf) as [_ Hh]. simpl in Hh.
  rewrite Hf. simpl. apply (reservations_held l acc Hh), vf_held, Hv.
Qed.

Lemma verify_invariants_iff l : verify_invariants l = Ok tt <-> verified l.
Proof.
  unfold verify_invariants. rewrite fold_ledger_totals. split.
  - case_bool_decide as Hf; simpl; [|done]. intros H. run_inv.
    apply verify_structure_ok in H as [Hl Hh].
    repeat match goal with H : (_ =? _) = true |- _ => apply N.eqb_eq in H end. by constructor.
  - intros Hv. rewrite bool_decide_true by apply Hv. simpl.
    rewrite (vf_posted l Hv), (vf_pending l Hv), !N.eqb_refl. by apply verify_structure_enabled.
Qed.

(** On ledgers that satisfy the invariant the check can only object to the width
    of the totals. *)
Lemma ledger_inv_verified l : ledger_inv l -> totals_fit (ledger_totals l) -> verified l.
Proof.
  intros [Htr Hacc Hpo Hpe] Hf. constructor; try done.
  - intros i t Ht. destruct (Htr i t Ht) as [_ _ _ Hd Hc Hl]. unfold transfer_legal.
    split_and!; [done|done|]. destruct (tr_state t) eqn:Hs; [done| |].
    + intros p Hp. by apply Hl.
    + destruct (pending_id t) as [p|] eqn:Hp; [|done]. by destruct (Hl p eq_refl).
  - intros i a Ha. destruct (Hacc i a Ha). done.
Qed.

Lemma verify_invariants_inv l :
  ledger_inv l ->
  verify_invariants l =
    if bool_decide (totals_fit (ledger_totals l)) then Ok tt else Err ArithmeticOverflow.
Proof.
  intros Hi. case_bool_decide as Hf.
  - by apply verify_invariants_iff, ledger_inv_verified.
  - unfold verify_invariants. rewrite fold_ledger_totals. by rewrite bool_decide_false.
Qed.

Lemma with_check_inv {A} (m : ledger_m A) l l' a :
  m l = (l', Ok a) -> ledger_inv l' ->
  with_check m l =
    (l', if bool_decide (totals_fit (ledger_totals l')) then Ok a else Err ArithmeticOverflow).
Proof.
  intros Hm Hi. unfold with_check, st_bind at 1. rewrite Hm. unfold check_after_mutation.
  rewrite st_bind_reads, verify_invariants_inv by done. by case_bool_decide.
Qed.

#[export] Hint Resolve ledger_inv_verified verified_holds_fit : ledger.
