(* ===== verification/LedgerHistory.v ===== *)
(** * The ledger over time

    What a sequence of transitions can and cannot change: settled transfers and
    closed accounts are final, identifiers are never reused, the journal is
    chronological, and posted balances are exactly what the journal booked. *)

From S2P Require Import Prelude Error Amount Account Transfer Ledger LedgerStep LedgerInv.
From S2P Require Import LedgerBatch.

(** ** One transfer *)

(** [t'] is [t] at a later time: the same transfer, in the same state or settled
    from pending. *)
Definition later_transfer (t t' : Transfer) : Prop :=
  t' = t \/ tr_state t = Pending /\ exists s, s <> Pending /\ t' = restore_state s t.

#[global] Instance later_transfer_preorder : PreOrder later_transfer.
Proof.
  split; [by left|]. intros t1 t2 t3 [->|(Hp & s & Hs & ->)]; [done|].
  intros [->|(Hp' & _)]; [right; eauto|]. by destruct Hs.
Qed.

Lemma lstep_transfer_later l ev l' i t :
  lstep l ev l' -> transfers l !! i = Some t ->
  exists t', transfers l' !! i = Some t' /\ later_transfer t t'.
Proof.
  intros Hs Ht. destruct Hs as [id ty fl sc ts _ Hid -> | id ts a _ Ha Hc
    | u da ca [_ _ Hf _ _] _ _ _ _ | u da ca [_ _ Hf _ _] _ _ _ _
    | p q x ts h da ca _ Hq [Hh Hst _ _ _ _] _ _ _ _ _ | p ts h da ca _ [Hh Hst _ _ _ _]]; simpl.
  - exists t. split; [done|by left].
  - exists t. split; [done|by left].
  - exists t. rewrite lookup_insert_ne by congruence. split; [done|by left].
  - exists t. rewrite lookup_insert_ne by congruence. split; [done|by left].
  - rewrite lookup_insert_ne by congruence. destruct (decide (p = i)) as [<-|Hne].
    + simplify_eq. rewrite lookup_insert_eq. eexists. split; [done|]. right. split; [done|]. by exists Posted.
    + rewrite lookup_insert_ne by done. exists t. split; [done|by left].
  - destruct (decide (p = i)) as [<-|Hne].
    + simplify_eq. rewrite lookup_insert_eq. eexists. split; [done|]. right. split; [done|]. by exists Voided.
    + rewrite lookup_insert_ne by done. exists t. split; [done|by left].
Qed.

Lemma run_transfer_later l evs l' i t :
  run l evs l' -> transfers l !! i = Some t ->
  exists t', transfers l' !! i = Some t' /\ later_transfer t t'.
Proof.
  intros Hr. revert t. induction Hr as [l|l ev l1 evs l2 Hs _ IH]; intros t Ht; [by exists t|].
  destruct (lstep_transfer_later _ _ _ _ _ Hs Ht) as (t1 & Ht1 & Hl1).
  destruct (IH t1 Ht1) as (t2 & Ht2 & Hl2). exists t2. split; [done|by etrans].
Qed.

(** ** One account *)

(** [a'] is [a] at a later time: identity, type, scale and limits are fixed, what was posted
    stays posted, and an account that is closed stays closed. *)
Record later_account (a a' : Account) : Prop := {
  la_id : acc_id a' = acc_id a;
  la_type : account_type a' = account_type a;
  la_scale : acc_scale a' = acc_scale a;
  la_debit_limit : debits_must_not_exceed_credits (acc_flags a') =
    debits_must_not_exceed_credits (acc_flags a);
  la_credit_limit : credits_must_not_exceed_debits (acc_flags a') =
    credits_must_not_exceed_debits (acc_flags a);
  la_debits : debits_posted (acc_balance a) <= debits_posted (acc_balance a');
  la_credits : credits_posted (acc_balance a) <= credits_posted (acc_balance a');
  la_closed : is_closed (acc_flags a) = true -> is_closed (acc_flags a') = true;
}.

#[global] Instance later_account_preorder : PreOrder later_account.
Proof. split; [by constructor|]. intros a1 a2 a3 [] []. constructor; eauto; first [congruence|lia]. Qed.

(** A change of a balance that takes nothing back that was posted. *)
Definition posts (f : Balance -> Balance) : Prop :=
  forall b, debits_posted b <= debits_posted (f b) /\ credits_posted b <= credits_posted (f b).

Lemma later_account_upd h (m : gmap N Account) i j a :
  posts h -> m !! i = Some a -> exists a', alter (upd h) j m !! i = Some a' /\ later_account a a'.
Proof.
  intros Hh Ha. destruct (decide (i = j)) as [->|Hne].
  - rewrite lookup_alter_eq, Ha. eexists. split; [done|]. destruct (Hh (acc_balance a)). by constructor.
  - rewrite lookup_alter_ne by done. by exists a.
Qed.

Lemma later_account_upd2 d c f g (m : gmap N Account) i a :
  posts f -> posts g -> m !! i = Some a -> exists a', upd2 d c f g m !! i = Some a' /\ later_account a a'.
Proof.
  intros Hf Hg Ha. unfold upd2. destruct (later_account_upd f m i d a Hf Ha) as (a1 & H1 & L1).
  destruct (later_account_upd g _ i c a1 Hg H1) as (a2 & H2 & L2). exists a2. split; [done|by etrans].
Qed.

Lemma lstep_account_later l ev l' i a :
  lstep l ev l' -> accounts l !! i = Some a ->
  exists a', accounts l' !! i = Some a' /\ later_account a a'.
Proof.
  intros Hs Ha. destruct Hs; simpl; try (apply later_account_upd2; [split; simpl; lia..|done]).
  - exists a. rewrite lookup_insert_ne by congruence. done.
  - destruct (decide (id = i)) as [<-|Hne].
    + simplify_eq. rewrite lookup_insert_eq. eexists. split; [done|]. by constructor.
    + rewrite lookup_insert_ne by done. by exists a.
Qed.

Lemma run_account_later l evs l' i a :
  run l evs l' -> accounts l !! i = Some a ->
  exists a', accounts l' !! i = Some a' /\ later_account a a'.
Proof.
  intros Hr. revert a. induction Hr as [l|l ev l1 evs l2 Hs _ IH]; intros a Ha; [by exists a|].
  destruct (lstep_account_later _ _ _ _ _ Hs Ha) as (a1 & Ha1 & Hl1).
  destruct (IH a1 Ha1) as (a2 & Ha2 & Hl2). exists a2. split; [done|by etrans].
Qed.

(** The new movements an event makes: not the settlement or release of a hold. *)
Definition new_movement (ev : LedgerEvent) : option Transfer :=
  match ev with EvTransferPosted t | EvTransferPendingCreated t => Some t | _ => None end.

Lemma lstep_new_movement_open l ev l' t :
  lstep l ev l' -> new_movement ev = Some t ->
  forall i a, i = debit_account_id t \/ i = credit_account_id t -> accounts l !! i = Some a ->
    is_closed (acc_flags a) = false.
Proof.
  intros Hs Ht i a Hi Ha. destruct Hs; simplify_eq/=;
    match goal with H : can_move _ _ _ _ _ _ |- _ => destruct H as [Hd Hc Hed Hec] end;
    apply ensure_can_debit_ok in Hed as [? _]; apply ensure_can_credit_ok in Hec as [? _];
    destruct Hi as [-> | ->]; congruence.
Qed.

Lemma closed_no_movement l evs l' i a t ev :
  run l evs l' -> accounts l !! i = Some a -> is_closed (acc_flags a) = true ->
  ev ∈ evs -> new_movement ev = Some t -> i <> debit_account_id t /\ i <> credit_account_id t.
Proof.
  intros Hr Ha Hc Hin Ht. revert a Ha Hc.
  induction Hr as [|l ev' l1 evs l2 Hs _ IH]; intros a Ha Hc; [by apply elem_of_nil in Hin|].
  apply elem_of_cons in Hin as [<-|Hin].
  - pose proof (lstep_new_movement_open _ _ _ _ Hs Ht i a) as Ho.
    split; intros E; rewrite (Ho (ltac:(auto)) Ha) in Hc; done.
  - destruct (lstep_account_later _ _ _ _ _ Hs Ha) as (a1 & Ha1 & [_ _ _ _ _ _ _ Hc1]). eauto.
Qed.

(** ** No event happens twice *)

Lemma lstep_once l ev l' : lstep l ev l' -> forall evs l2, run l' evs l2 -> forall l3, ~ lstep l2 ev l3.
Proof.
  intros Hs evs l2 Hr l3 Hs3.
  assert (forall i t, transfers l' !! i = Some t -> exists t', transfers l2 !! i = Some t' /\
    later_transfer t t') as Htr by (intros; by eapply run_transfer_later).
  assert (forall i a, accounts l' !! i = Some a -> exists a', accounts l2 !! i = Some a' /\
    later_account a a') as Hac by (intros; by eapply run_account_later).
  destruct Hs as [id ty fl sc ts _ Hid -> | id ts a _ Ha Hc | u da ca _ _ _ _ _ | u da ca _ _ _ _ _
    | p q x ts h da ca _ Hq _ _ _ _ _ _ | p ts h da ca _ [Hh Hst _ _ _ _]];
    inversion Hs3; subst; simpl in *.
  - destruct (Hac id _ (lookup_insert_eq _ _ _)) as (? & ? & _). congruence.
  - destruct (Hac id _ (lookup_insert_eq _ _ _)) as (? & ? & [_ _ _ _ _ _ _ Hcl]).
    specialize (Hcl eq_refl). congruence.
  - destruct (Htr _ _ (lookup_insert_eq _ _ _)) as (? & ? & _).
    match goal with H : fresh_transfer _ _ _ |- _ => destruct H end. congruence.
  - destruct (Htr _ _ (lookup_insert_eq _ _ _)) as (? & ? & _).
    match goal with H : fresh_transfer _ _ _ |- _ => destruct H end. congruence.
  - destruct (Htr _ _ (lookup_insert_eq _ _ _)) as (? & ? & _). congruence.
  - destruct (Htr _ _ (lookup_insert_eq _ _ _)) as (? & ? & [->|(? & _)]); [|done].
    match goal with H : live_hold _ _ _ _ _ |- _ => destruct H as [? Hs' _ _ _ _] end.
    simplify_eq.
Qed.

(** ** The journal is chronological *)

Definition event_le (e1 e2 : LedgerEvent) : Prop := event_timestamp e1 <= event_timestamp e2.

Record chronological (l : Ledger) : Prop := {
  ch_sorted : StronglySorted event_le (journal l);
  ch_bound : Forall (fun ev => event_timestamp ev <= last_timestamp l) (journal l);
  ch_last : last_timestamp l = default 0 (event_timestamp <$> last (journal l));
}.

Lemma lstep_chronological l ev l' : lstep l ev l' -> chronological l -> chronological l'.
Proof.
  intros Hs [Hso Hb Hla]. destruct (lstep_frame _ _ _ Hs) as (_ & Hj & Ht & Hle).
  constructor; rewrite Hj, ?Ht.
  - apply StronglySorted_snoc; [done|]. eapply Forall_impl; [done|]. unfold event_le. simpl. lia.
  - apply Forall_app. split; [|by constructor]. eapply Forall_impl; [done|]. simpl. lia.
  - by rewrite last_snoc.
Qed.

Lemma run_chronological l evs l' : run l evs l' -> chronological l -> chronological l'.
Proof. induction 1; eauto using lstep_chronological. Qed.

Lemma chronological_new sc : chronological (Ledger_new sc).
Proof. constructor; simpl; constructor || done. Qed.

(** ** Posted balances are what the journal booked *)

(** What an event books on account [i]; a settlement is booked on the accounts of
    the transfer it stores. *)
Definition booked (side : Transfer -> AccountId) (trs : gmap N Transfer) (i : AccountId)
    (ev : LedgerEvent) : N :=
  match ev with
  | EvTransferPosted t => if bool_decide (side t = i) then tr_amount t else 0
  | EvTransferPendingPosted _ q x _ =>
      match trs !! q with
      | Some s => if bool_decide (side s = i) then x else 0
      | None => 0
      end
  | _ => 0
  end.

(** The settlements of the journal are stored. *)
Definition settlements_stored (l : Ledger) : Prop :=
  Forall (fun ev => match ev with
                    | EvTransferPendingPosted _ q _ _ => is_Some (transfers l !! q)
                    | _ => True end) (journal l).

(** A balance component of an account, zero if there is no such account. *)
Definition balance_of (f : Balance -> Amount) (m : gmap N Account) (i : AccountId) : N :=
  default 0 ((fun a => f (acc_balance a)) <$> m !! i).

Record balances_booked (l : Ledger) : Prop := {
  bb_stored : settlements_stored l;
  bb_debits : forall i, balance_of debits_posted (accounts l) i =
    list_sum (booked debit_account_id (transfers l) i) (journal l);
  bb_credits : forall i, balance_of credits_posted (accounts l) i =
    list_sum (booked credit_account_id (transfers l) i) (journal l);
}.

(** A side of a transfer that does not look at its state. *)
Definition stateless (side : Transfer -> AccountId) : Prop :=
  forall s t, side (restore_state s t) = side t.

Lemma booked_stable side l ev l' i :
  stateless side -> lstep l ev l' -> settlements_stored l ->
  list_sum (booked side (transfers l') i) (journal l) =
  list_sum (booked side (transfers l) i) (journal l).
Proof.
  intros Hst Hs Hstored. unfold settlements_stored in Hstored.
  induction (journal l) as [|e j IH]; simpl; [done|]. inversion Hstored as [|? ? He Hj]; subst.
  rewrite IH by done. f_equal. destruct e; simpl; try done. destruct He as [s He].
  destruct (lstep_transfer_later _ _ _ _ _ Hs He) as (s' & -> & Hl). rewrite He.
  destruct Hl as [->|(_ & st & _ & ->)]; [done|]. by rewrite Hst.
Qed.

Lemma settlements_stored_step l ev l' :
  lstep l ev l' -> settlements_stored l -> settlements_stored l'.
Proof.
  intros Hs Hst. unfold settlements_stored. destruct (lstep_frame _ _ _ Hs) as (_ & -> & _).
  apply Forall_app. split.
  - eapply Forall_impl; [done|]. intros [] H; try done. destruct H as [t Ht].
    destruct (lstep_transfer_later _ _ _ _ _ Hs Ht) as (t' & ? & _). eauto.
  - constructor; [|done]. destruct Hs; simpl; try done. rewrite lookup_insert_eq. eauto.
Qed.

Lemma balance_of_upd2 f d c g h (m : gmap N Account) i da ca :
  d <> c -> m !! d = Some da -> m !! c = Some ca ->
  balance_of f (upd2 d c g h m) i =
    if bool_decide (d = i) then f (g (acc_balance da))
    else if bool_decide (c = i) then f (h (acc_balance ca)) else balance_of f m i.
Proof.
  intros Hne Hd Hc. unfold balance_of, upd2. repeat case_bool_decide; subst.
  - by rewrite lookup_alter_ne, lookup_alter_eq, Hd by done.
  - by rewrite lookup_alter_eq, lookup_alter_ne, Hc by done.
  - by rewrite !lookup_alter_ne by done.
Qed.

Lemma balance_of_some f (m : gmap N Account) i a : m !! i = Some a -> balance_of f m i = f (acc_balance a).
Proof. intros Ha. unfold balance_of. by rewrite Ha. Qed.

Lemma balance_of_insert f (m : gmap N Account) k a i :
  f (acc_balance a) = balance_of f m k -> balance_of f (<[k := a]> m) i = balance_of f m i.
Proof.
  intros Ha. unfold balance_of in *. destruct (decide (k = i)) as [<-|Hne].
  - by rewrite lookup_insert_eq.
  - by rewrite lookup_insert_ne.
Qed.

(** One transition moves the posted balances by what it books. *)
Lemma lstep_booked l ev l' i :
  lstep l ev l' -> ledger_inv l ->
  balance_of debits_posted (accounts l') i =
    balance_of debits_posted (accounts l) i + booked debit_account_id (transfers l') i ev /\
  balance_of credits_posted (accounts l') i =
    balance_of credits_posted (accounts l) i + booked credit_account_id (transfers l') i ev.
Proof.
  intros Hs Hi. destruct Hs as [id ty fl sc ts _ Hid -> | id ts a _ Ha Hc
    | t da ca [_ _ _ Hne _] _ [Hda Hca _ _] _ _ | t da ca [_ _ _ Hne _] _ [Hda Hca _ _] _ _
    | p q x ts h da ca _ Hq [Hh Hst Hda Hca _ _] Hne _ _ _ _ | p ts h da ca _ [Hh Hst Hda Hca _ _]];
    simpl; rewrite ?lookup_insert_eq; simpl.
  1,2: rewrite !balance_of_insert; [lia|..]; unfold balance_of; by rewrite ?Hid, ?Ha.
  4: assert (debit_account_id h <> credit_account_id h) as Hne
       by (destruct Hi as [Htr _ _ _]; by destruct (Htr p h Hh)).
  all: rewrite !(balance_of_upd2 _ _ _ _ _ _ _ da ca) by done; repeat case_bool_decide; subst;
    rewrite ?(balance_of_some _ _ _ _ Hda), ?(balance_of_some _ _ _ _ Hca); simpl; try congruence; lia.
Qed.

Lemma lstep_balances_booked l ev l' :
  lstep l ev l' -> ledger_inv l -> balances_booked l -> balances_booked l'.
Proof.
  intros Hs Hi [Hst Hd Hc].
  destruct (lstep_frame _ _ _ Hs) as (_ & Hj & _).
  constructor; [by eapply settlements_stored_step|..]; intros i;
    destruct (lstep_booked l ev l' i Hs Hi) as [Ed Ec]; rewrite ?Ed, ?Ec, Hj, list_sum_app;
    rewrite (booked_stable _ l ev l') by done; simpl; rewrite <- ?Hd, <- ?Hc; lia.
Qed.

Lemma run_balances_booked l evs l' :
  run l evs l' -> ledger_inv l -> balances_booked l -> balances_booked l'.
Proof. induction 1; eauto using lstep_balances_booked, lstep_inv. Qed.

Lemma balances_booked_new sc : balances_booked (Ledger_new sc).
Proof. by constructor; [constructor|..]; intros i; unfold balance_of; simpl; rewrite ?lookup_empty. Qed.

Lemma reachable_history sc l : reachable sc l -> chronological l /\ balances_booked l.
Proof.
  intros [evs Hr]. split.
  - eapply run_chronological; eauto using chronological_new.
  - eapply run_balances_booked; eauto using balances_booked_new, ledger_inv_new.
Qed.

#[export] Hint Resolve chronological_new balances_booked_new reachable_history
  run_chronological : ledger.
