(* ===== verification/LedgerProps.v ===== *)
(** * Properties of the ledger core

    The correctness theorems of [crates/ledger-core], over the definitions of
    [Amount], [Account], [Transfer], [Ledger], [LedgerBatch] and [LedgerVerify],
    with a worked ledger that instantiates their hypotheses. *)

From S2P Require Import Prelude Error Amount Account Transfer Ledger LedgerStep LedgerInv.
From S2P Require Import LedgerBatch LedgerVerify LedgerHistory.

(** ** A worked ledger *)

Definition demo_scale : Scale := Scale_usd.
Definition demo_immediate (id d c x ts : N) : Transfer := mkTransfer id d c x Posted None ts.
Definition demo_hold (id d c x ts : N) : Transfer := mkTransfer id d c x Pending None ts.

(** A reserve (1), two customers (2, 3); a deposit, a hold settled in part, a hold
    voided and an account closed. *)
Definition demo_events : list LedgerEvent :=
  [ EvAccountCreated 1 Asset flags_unrestricted demo_scale 1;
    EvAccountCreated 2 Liability flags_customer demo_scale 1;
    EvAccountCreated 3 Liability flags_customer demo_scale 2;
    EvTransferPosted (demo_immediate 10 1 2 500 3);
    EvTransferPendingCreated (demo_hold 11 2 3 200 4);
    EvTransferPendingPosted 11 12 150 5;
    EvTransferPendingCreated (demo_hold 13 2 3 100 6);
    EvTransferPendingVoided 13 100 7;
    EvAccountClosed 3 8 ].

Definition ledger_after (sc : Scale) (evs : list LedgerEvent) : Ledger :=
  (st_for apply_event evs (Ledger_new sc)).1.

Definition demo : Ledger := ledger_after demo_scale demo_events.
(** The same ledger before the account was closed, with a hold pending. *)
Definition demo_open : Ledger := ledger_after demo_scale (take 5 demo_events).

Lemma demo_run : run (Ledger_new demo_scale) demo_events demo.
Proof. apply st_for_events. by vm_compute. Qed.

Lemma demo_reachable : reachable demo_scale demo.
Proof. exists demo_events. apply demo_run. Qed.

Lemma demo_open_reachable : reachable demo_scale demo_open.
Proof. exists (take 5 demo_events). apply st_for_events. by vm_compute. Qed.

(** ** The state machine *)

(** C1: [apply_event], and with it every mutation of the ledger, implements the
    transition relation [lstep] exactly: it succeeds precisely on the transitions
    of its event, with that transition's successor, and an error leaves the ledger
    untouched. *)
Theorem apply_event_refines ev l :
  (forall l', apply_event ev l = (l', Ok tt) <-> lstep l ev l') /\
  (forall l' e, apply_event ev l = (l', Err e) -> l' = l).
Proof. split; [intros; apply apply_event_step|apply apply_event_err]. Qed.

Lemma apply_event_refines_witness :
  lstep demo_open (EvTransferPendingPosted 11 12 150 5)
    (apply_event (EvTransferPendingPosted 11 12 150 5) demo_open).1 /\
  (apply_event (EvTransferPendingPosted 11 12 201 5) demo_open).1 = demo_open.
Proof.
  split.
  - apply (proj1 (apply_event_refines _ _)). by vm_compute.
  - apply (proj2 (apply_event_refines (EvTransferPendingPosted 11 12 201 5) demo_open) _
      (PartialAmountExceedsPending 11 201 200)). by vm_compute.
Defined.

(** C5: double entry.  In every reachable ledger the posted debits of all accounts
    add up to their posted credits, and the reserved debits to the reserved
    credits. *)
Theorem reachable_conservation sc l :
  reachable sc l ->
  total debits_posted (accounts l) = total credits_posted (accounts l) /\
  total debits_pending (accounts l) = total credits_pending (accounts l).
Proof. intros H. apply reachable_inv in H as [_ _ ? ?]. done. Qed.

Lemma reachable_conservation_witness :
  reachable demo_scale demo_open /\
  total debits_posted (accounts demo_open) = total credits_posted (accounts demo_open) /\
  total debits_pending (accounts demo_open) = total credits_pending (accounts demo_open).
Proof.
  split; [exact demo_open_reachable|].
  apply (reachable_conservation demo_scale), demo_open_reachable.
Defined.

(** C28: no overdraft.  In every reachable ledger an account whose debits are
    limited has posted and reserved no more than was credited to it (and dually
    for a limited credit side), with every balance component within 128 bits. *)
Theorem reachable_no_overdraft sc l i a :
  reachable sc l -> accounts l !! i = Some a ->
  within_limits (acc_flags a) (acc_balance a) /\
  debits_posted (acc_balance a) <= U128_MAX /\ credits_posted (acc_balance a) <= U128_MAX /\
  debits_pending (acc_balance a) <= U128_MAX /\ credits_pending (acc_balance a) <= U128_MAX.
Proof. intros H Ha. apply reachable_inv in H as [_ Hacc _ _]. by destruct (Hacc i a Ha). Qed.

Lemma reachable_no_overdraft_witness :
  exists a, accounts demo_open !! 2 = Some a /\
    debits_must_not_exceed_credits (acc_flags a) = true /\
    within_limits (acc_flags a) (acc_balance a).
Proof.
  eexists. split; [by vm_compute|]. split; [by vm_compute|].
  apply (reachable_no_overdraft demo_scale demo_open 2 _ demo_open_reachable). by vm_compute.
Defined.

(** Reservations are backed.  In every reachable ledger the pending balance of
    each account is exactly the sum of the pending transfers on it, per side. *)
Theorem reachable_reservations sc l i a :
  reachable sc l -> accounts l !! i = Some a ->
  debits_pending (acc_balance a) = held debit_account_id i (transfers l) /\
  credits_pending (acc_balance a) = held credit_account_id i (transfers l).
Proof. intros H Ha. apply reachable_inv in H as [_ Hacc _ _]. by destruct (Hacc i a Ha). Qed.

Lemma reachable_reservations_witness :
  exists a, accounts demo_open !! 2 = Some a /\ debits_pending (acc_balance a) = 200 /\
    debits_pending (acc_balance a) = held debit_account_id 2 (transfers demo_open).
Proof.
  eexists. split; [by vm_compute|]. split; [by vm_compute|].
  apply (reachable_reservations demo_scale demo_open 2 _ demo_open_reachable). by vm_compute.
Defined.

(** C29: the journal determines the ledger.  Replaying the journal of a reachable
    ledger rebuilds exactly that ledger, and whatever a replay builds is reachable
    and has the replayed events as its journal. *)
Theorem replay_journal sc l :
  reachable sc l <-> replay sc (journal l) = Ok l.
Proof.
  rewrite replay_run. split.
  - intros [evs Hr]. pose proof (run_frame _ _ _ Hr) as (_ & Hj & _). simpl in Hj. by rewrite Hj.
  - intros Hr. by exists (journal l).
Qed.

(** Audit trail.  In every reachable ledger the posted debits and credits of
    an account are exactly the sums the journal booked on it. *)
Theorem reachable_audit sc l i a :
  reachable sc l -> accounts l !! i = Some a ->
  debits_posted (acc_balance a) = list_sum (booked debit_account_id (transfers l) i) (journal l) /\
  credits_posted (acc_balance a) = list_sum (booked credit_account_id (transfers l) i) (journal l).
Proof.
  intros H Ha. apply reachable_history in H as [_ [_ Hd Hc]]. rewrite <- Hd, <- Hc.
  by rewrite !(balance_of_some _ _ _ _ Ha).
Qed.

Lemma reachable_audit_witness :
  exists a, accounts demo !! 2 = Some a /\ debits_posted (acc_balance a) = 150 /\
    debits_posted (acc_balance a) = list_sum (booked debit_account_id (transfers demo) 2) (journal demo).
Proof.
  eexists. split; [by vm_compute|]. split; [by vm_compute|].
  apply (reachable_audit demo_scale demo 2 _ demo_reachable). by vm_compute.
Defined.

(** The journal of a reachable ledger is in chronological order, and the
    watermark is the timestamp of its last event. *)
Theorem reachable_chronological sc l :
  reachable sc l ->
  StronglySorted event_le (journal l) /\
  last_timestamp l = default 0 (event_timestamp <$> last (journal l)).
Proof. intros H. apply reachable_history in H as [[? _ ?] _]. done. Qed.

Lemma reachable_chronological_witness :
  StronglySorted event_le (journal demo) /\ last_timestamp demo = 8.
Proof. exact (reachable_chronological demo_scale demo demo_reachable). Defined.

(** ** Final states *)

(** Transfers are final.  Over any sequence of events a stored transfer keeps
    its identity, accounts and amount; its state changes at most once, from pending
    to posted or voided, and a posted or voided transfer never changes. *)
Theorem transfer_final l evs l' i t :
  run l evs l' -> transfers l !! i = Some t ->
  exists t', transfers l' !! i = Some t' /\
    t' = restore_state (tr_state t') t /\
    (tr_state t' = tr_state t \/ tr_state t = Pending /\ tr_state t' <> Pending).
Proof.
  intros Hr Ht. destruct (run_transfer_later _ _ _ _ _ Hr Ht) as (t' & Ht' & Hl).
  exists t'. split; [done|]. destruct Hl as [->|(Hp & s & Hs & ->)]; simpl; [|auto].
  split; [by destruct t|auto].
Qed.

Lemma transfer_final_witness :
  exists t', transfers demo !! 11 = Some t' /\ t' = restore_state (tr_state t') (demo_hold 11 2 3 200 4).
Proof.
  destruct (transfer_final demo_open (drop 5 demo_events) demo 11 (demo_hold 11 2 3 200 4))
    as (t' & Ht' & E & _); [apply st_for_events; by vm_compute|by vm_compute|eauto].
Defined.

(** Closed is closed.  Once an account is closed it stays closed, and no later
    transfer or hold names it on either side (only holds made before can still be
    settled or voided). *)
Theorem closed_account_final l evs l' i a :
  run l evs l' -> accounts l !! i = Some a -> is_closed (acc_flags a) = true ->
  (exists a', accounts l' !! i = Some a' /\ is_closed (acc_flags a') = true) /\
  forall ev t, ev ∈ evs -> new_movement ev = Some t ->
    i <> debit_account_id t /\ i <> credit_account_id t.
Proof.
  intros Hr Ha Hc. split.
  - destruct (run_account_later _ _ _ _ _ Hr Ha) as (a' & Ha' & [_ _ _ _ _ _ _ Hc']). eauto.
  - intros ev t Hin Ht. by eapply closed_no_movement.
Qed.

Definition after_closing : list LedgerEvent := [EvTransferPosted (demo_immediate 20 1 2 5 9)].

Lemma closed_account_final_witness :
  exists a', accounts (ledger_after demo_scale (demo_events ++ after_closing)) !! 3 = Some a' /\
    is_closed (acc_flags a') = true.
Proof.
  eapply (closed_account_final demo after_closing); [apply st_for_events| |]; by vm_compute.
Defined.

(** ** Batches *)

(** C4: commit is all or nothing.  [commit_events] succeeds exactly when its
    events can happen one after the other, ending in the ledger they lead to; an
    error, after any number of applied events, restores the ledger exactly,
    journal and watermark included. *)
Theorem commit_events_atomic events l :
  (forall l', commit_events events l = (l', Ok tt) <-> run l events l') /\
  (forall l' e, commit_events events l = (l', Err e) -> l' = l).
Proof. split; [intros; apply commit_events_ok|apply commit_events_err]. Qed.

(** Two good events and one that overdraws account 2. *)
Definition failing_events : list LedgerEvent :=
  [ EvTransferPosted (demo_immediate 30 1 2 7 9); EvAccountClosed 2 9;
    EvTransferPosted (demo_immediate 31 2 1 5 9) ].

Lemma commit_events_atomic_witness :
  commit_events failing_events demo = (demo, Err (AccountClosed 2)) /\
  (commit_events failing_events demo).1 = demo /\
  run demo (take 2 failing_events) (commit_events (take 2 failing_events) demo).1.
Proof.
  split; [by vm_compute|]. split.
  - apply (proj2 (commit_events_atomic failing_events demo) _ (AccountClosed 2)). by vm_compute.
  - apply (proj1 (commit_events_atomic _ _)). by vm_compute.
Defined.

(** No event batch can be applied twice.  A batch that was committed, and
    anything committed after it, leaves a ledger that rejects the batch and is
    unchanged by the attempt. *)
Theorem commit_events_once ev evs l l1 later l2 :
  commit_events (ev :: evs) l = (l1, Ok tt) -> commit_events later l1 = (l2, Ok tt) ->
  exists e, commit_events (ev :: evs) l2 = (l2, Err e).
Proof.
  intros H1%commit_events_ok H2%commit_events_ok. inversion H1 as [|? ? l0 ? ? Hs Hr]; subst.
  destruct (commit_events (ev :: evs) l2) as [l3 [[]|e]] eqn:H3.
  - apply commit_events_ok in H3. inversion H3 as [|? ? l4 ? ? Hs' _]; subst.
    destruct (lstep_once _ _ _ Hs _ _ (run_app _ _ _ _ _ Hr H2) _ Hs').
  - apply commit_events_err in H3 as E. subst. eauto.
Qed.

Lemma commit_events_once_witness :
  exists e, commit_events demo_events demo = (demo, Err e).
Proof.
  apply (commit_events_once (EvAccountCreated 1 Asset flags_unrestricted demo_scale 1)
    (drop 1 demo_events) (Ledger_new demo_scale) demo [] demo); by vm_compute.
Defined.

Lemma guarded_ops_apply ops l l' :
  st_for guarded_op ops l = (l', Ok tt) <-> st_for apply_batch_op ops l = (l', Ok tt).
Proof.
  revert l. induction ops as [|op ops IH]; intros l; simpl; [done|].
  rewrite !st_bind_ok. split; intros (l1 & [] & H1 & H2); exists l1, tt;
    rewrite guarded_op_ok, <- apply_batch_op_ok, IH in *; done.
Qed.

(** Prepare, then commit.  [prepare_batch] never changes the ledger; it
    succeeds exactly when its operations succeed one after the other, returns one
    event per operation, and committing those events gives exactly the ledger the
    operations give. *)
Theorem prepare_batch_commit ops l :
  (prepare_batch ops l).1 = l /\
  (forall e, (prepare_batch ops l).2 = Err e -> forall l', st_for apply_batch_op ops l <> (l', Ok tt)) /\
  (forall evs, (prepare_batch ops l).2 = Ok evs -> length evs = length ops /\
     exists l', st_for apply_batch_op ops l = (l', Ok tt) /\ commit_events evs l = (l', Ok tt)).
Proof.
  rewrite prepare_batch_eq. split_and!; [done|..]; unfold exec_tx; simpl.
  - intros e He l' Hl. rewrite <- guarded_ops_apply in Hl. by rewrite Hl in He.
  - intros evs He. destruct (st_for guarded_op ops l) as [l' [[]|e]] eqn:Hg; [|done].
    injection He as <-. destruct (guarded_ops_run _ _ _ Hg) as [Hr Hlen]. split; [done|].
    exists l'. by rewrite commit_events_ok, <- guarded_ops_apply.
Qed.

Definition demo_ops : list BatchOp :=
  [ OpVoidPending 11 5; OpTransfer (demo_immediate 40 2 3 450 6); OpCloseAccount 2 6 ].

Lemma prepare_batch_commit_witness :
  exists evs, (prepare_batch demo_ops demo_open).2 = Ok evs /\ length evs = 3%nat /\
    exists l', commit_events evs demo_open = (l', Ok tt).
Proof.
  assert (exists evs, (prepare_batch demo_ops demo_open).2 = Ok evs) as [evs He]
    by (eexists; vm_compute; reflexivity).
  destruct (proj2 (proj2 (prepare_batch_commit demo_ops demo_open)) evs He) as (H & l' & _ & Hc).
  exists evs. split; [exact He|]. split; [exact H|]. by exists l'.
Defined.

(** C13: transactions are isolated.  [prepare_transactions] leaves the ledger
    unchanged and answers as if the transactions ran one after the other, each on
    the ledger left by the accepted ones before it and rejected ones leaving no
    trace; committing the accepted events in order succeeds and reaches that
    final ledger. *)
Theorem prepare_transactions_isolated txs l :
  prepare_transactions txs l = (l, (exec_txs txs l).2) /\
  commit_events (accepted (prepare_transactions txs l).2) l = ((exec_txs txs l).1, Ok tt).
Proof.
  rewrite prepare_transactions_eq. split; [done|]. simpl. apply commit_events_ok, exec_txs_run.
Qed.

(** ** The self-check *)

(** [verify_invariants] decides the accounting property [verified]: totals
    that fit and balance, transfers on existing accounts with legal links, and
    reservations backed by pending transfers. *)
Theorem verify_invariants_decides l : verify_invariants l = Ok tt <-> verified l.
Proof. apply verify_invariants_iff. Qed.

(** The self-check on reachable ledgers accepts exactly when the four grand
    totals fit in 128 bits, and its only other answer is [ArithmeticOverflow]: a
    reachable ledger is never reported as unbalanced. *)
Theorem verify_reachable sc l :
  reachable sc l ->
  verify_invariants l =
    if bool_decide (totals_fit (ledger_totals l)) then Ok tt else Err ArithmeticOverflow.
Proof. intros H. by apply verify_invariants_inv, (reachable_inv sc). Qed.

Lemma verify_reachable_witness :
  verify_invariants demo =
    if bool_decide (totals_fit (ledger_totals demo)) then Ok tt else Err ArithmeticOverflow.
Proof. apply (verify_reachable demo_scale), demo_reachable. Defined.

(** The debug build agrees with the release build.  From a reachable ledger,
    an event whose successor has totals that fit has the same outcome with the
    self-check compiled in, and an event that fails fails the same way. *)
Theorem debug_build_agrees sc ev l :
  reachable sc l ->
  (forall l', apply_event ev l = (l', Ok tt) -> totals_fit (ledger_totals l') ->
     with_check (apply_event ev) l = (l', Ok tt)) /\
  (forall l' e, apply_event ev l = (l', Err e) -> with_check (apply_event ev) l = (l', Err e)).
Proof.
  intros Hr. split.
  - intros l' Ha Hf. rewrite (with_check_inv _ _ _ _ Ha); [by rewrite bool_decide_true|].
    apply apply_event_step in Ha. eapply reachable_inv, reachable_step; done.
  - intros l' e Ha. unfold with_check, st_bind at 1. by rewrite Ha.
Qed.

Lemma debug_build_agrees_witness :
  with_check (apply_event (EvAccountClosed 2 9)) demo =
    ((apply_event (EvAccountClosed 2 9) demo).1, Ok tt).
Proof.
  apply (debug_build_agrees demo_scale _ _ demo_reachable); [by vm_compute|].
  apply (bool_decide_eq_true_1 _). by vm_compute.
Defined.

(** Two movements of the largest amount, between two pairs of unlimited accounts. *)
Definition heavy_events : list LedgerEvent :=
  [ EvAccountCreated 1 Asset flags_unrestricted demo_scale 1;
    EvAccountCreated 2 Asset flags_unrestricted demo_scale 1;
    EvAccountCreated 3 Asset flags_unrestricted demo_scale 1;
    EvAccountCreated 4 Asset flags_unrestricted demo_scale 1;
    EvTransferPosted (demo_immediate 10 1 2 U128_MAX 1) ].
Definition heavy : Ledger := ledger_after demo_scale heavy_events.
Definition heavy_transfer : Transfer := demo_immediate 11 3 4 1 2.

(** The debug build is not atomic at the top of the range.  There is a
    reachable ledger and a transfer the release build accepts for which the debug
    build reports [ArithmeticOverflow] although the transfer has been applied. *)
Theorem debug_build_overflow :
  reachable demo_scale heavy /\
  (create_transfer heavy_transfer heavy).2 = Ok tt /\
  (with_check (create_transfer heavy_transfer) heavy).2 = Err ArithmeticOverflow /\
  is_Some (transfers (with_check (create_transfer heavy_transfer) heavy).1 !! 11).
Proof.
  split; [exists heavy_events; apply st_for_events; by vm_compute|].
  split; [by vm_compute|]. split; [by vm_compute|]. eexists. by vm_compute.
Qed.

(** ** Accounts and amounts *)

(** The limit checks, on every branch.  [ensure_can_debit] rejects a closed
    account, accepts an unlimited one, and otherwise compares posted plus reserved
    debits plus the amount with the posted credits, reporting an overflow or the
    amount still available; [ensure_can_credit] is its mirror image. *)
Theorem ensure_can_move_decides a amt :
  let b := acc_balance a in let f := acc_flags a in
  ensure_can_debit a amt =
    limit_check (is_closed f) (debits_must_not_exceed_credits f) (acc_id a)
      (debits_posted b + debits_pending b) (credits_posted b) amt /\
  ensure_can_credit a amt =
    limit_check (is_closed f) (credits_must_not_exceed_debits f) (acc_id a)
      (credits_posted b + credits_pending b) (debits_posted b) amt.
Proof. split; [apply ensure_can_debit_eq|apply ensure_can_credit_eq]. Qed.

(** [net_settled] never overflows: it fails exactly when a component exceeds
    the signed range, and otherwise its difference lies in that range and is the
    balance on the account type's own side. *)
Theorem net_settled_range b ty :
  match net_settled b ty with
  | Ok z => (- Z.of_N I128_MAX <= z <= Z.of_N I128_MAX)%Z /\
      z = (match ty with Asset | Expense => 1 | _ => -1 end *
             (Z.of_N (debits_posted b) - Z.of_N (credits_posted b)))%Z
  | Err e => e = SignedBalanceOverflow /\
      (I128_MAX < debits_posted b \/ I128_MAX < credits_posted b)
  end.
Proof.
  unfold net_settled, i128_try_from.
  destruct (N.leb_spec (debits_posted b) I128_MAX); simpl; [|auto].
  destruct (N.leb_spec (credits_posted b) I128_MAX); simpl; [|auto].
  unfold I128_MAX in *. destruct ty; split; lia.
Qed.

(** Rendering an amount loses nothing.  At a positive scale the text is the
    quotient, a point and the remainder in exactly [scale] digits, so the amount
    can be read back from it. *)
Theorem format_with_scale_exact n s sc :
  Scale_new s = Ok sc -> 0 < s -> n <= U128_MAX ->
  exists int frac q r,
    format_with_scale n sc = int +:+ "." +:+ frac /\
    parse_u128 int = Some q /\ parse_digits 0 frac = Some r /\
    String.length frac = N.to_nat s /\ n = q * 10 ^ s + r.
Proof.
  intros Hs Hpos Hn. destruct (format_with_scale_parts n s sc Hs Hpos Hn)
    as (int & frac & Ef & Ei & Er & El). exists int, frac, (n / 10 ^ s), (n mod 10 ^ s).
  split_and!; try done. rewrite N.mul_comm. apply N.div_mod, N.pow_nonzero. lia.
Qed.

Lemma format_with_scale_exact_witness :
  format_with_scale 12305 Scale_usd = "123.05" /\
  exists int frac q r, format_with_scale 12305 Scale_usd = int +:+ "." +:+ frac /\
    parse_u128 int = Some q /\ parse_digits 0 frac = Some r /\
    String.length frac = 2%nat /\ 12305 = q * 10 ^ 2 + r.
Proof.
  split; [by vm_compute|].
  apply (format_with_scale_exact 12305 2 Scale_usd); [reflexivity|lia|by vm_compute].
Defined.

(** Identifiers survive the text form: parsing the decimal text of any
    128-bit account or transfer id gives the id back. *)
Theorem id_text_roundtrip n :
  n <= U128_MAX ->
  AccountId_from_str (dec_string n) = Ok n /\ TransferId_from_str (dec_string n) = Ok n.
Proof.
  intros Hn. unfold AccountId_from_str, TransferId_from_str.
  by rewrite parse_u128_dec_string.
Qed.

Lemma id_text_roundtrip_witness :
  AccountId_from_str (dec_string U128_MAX) = Ok U128_MAX /\
  TransferId_from_str (dec_string U128_MAX) = Ok U128_MAX.
Proof. apply (id_text_roundtrip U128_MAX). by vm_compute. Defined.
