(* ===== verification/Bytes.v ===== *)
(** * Bytes and little-endian integers

    Byte strings as [list byte], [to_le_bytes] and [from_le_bytes], and the
    CRC-32C checksum: the interface the write-ahead log uses of the [crc32c]
    crate, as a class, with the Castagnoli polynomial as its instance. *)

From Stdlib Require Export Strings.Byte.
From S2P Require Import Prelude.

#[global] Instance byte_eq_dec : EqDecision byte.
Proof. intros x y. apply Byte.byte_eq_dec. Defined.

Abbreviation bytes := (list byte).

(** [n as u8]. *)
Definition byte_of (n : N) : byte := default x00 (Byte.of_N (n mod 256)).

Lemma to_N_byte_of n : Byte.to_N (byte_of n) = n mod 256.
Proof.
  unfold byte_of. assert (n mod 256 < 256) by (apply N.mod_lt; lia).
  destruct (Byte.of_N (n mod 256)) as [b|] eqn:Hb; simpl.
  - by apply Byte.to_of_N.
  - apply Byte.of_N_None_iff in Hb. lia.
Qed.

Lemma byte_of_to_N b : byte_of (Byte.to_N b) = b.
Proof.
  unfold byte_of. pose proof (Byte.to_N_bounded b).
  rewrite N.mod_small by lia. by rewrite Byte.of_to_N.
Qed.

(** [to_le_bytes] of a [k]-byte integer and [from_le_bytes]. *)
Fixpoint le_bytes (k : nat) (n : N) : bytes :=
  match k with O => [] | S k' => byte_of n :: le_bytes k' (n / 256) end.

Fixpoint le_val (bs : bytes) : N :=
  match bs with [] => 0 | b :: bs' => Byte.to_N b + 256 * le_val bs' end.

Lemma length_le_bytes k n : length (le_bytes k n) = k.
Proof. revert n. induction k as [|k IH]; intros n; simpl; auto. Qed.

Lemma pow256_succ k : 256 ^ N.of_nat (S k) = 256 * 256 ^ N.of_nat k.
Proof. rewrite Nat2N.inj_succ. apply N.pow_succ_r'. Qed.

Lemma le_val_le_bytes k n : n < 256 ^ N.of_nat k -> le_val (le_bytes k n) = n.
Proof.
  revert n. induction k as [|k IH]; intros n Hn.
  - simpl in *. lia.
  - cbn [le_bytes le_val]. rewrite pow256_succ in Hn. rewrite to_N_byte_of, IH.
    + pose proof (N.div_mod n 256 ltac:(lia)). lia.
    + apply N.Div0.div_lt_upper_bound. lia.
Qed.

Lemma le_val_bound bs : le_val bs < 256 ^ N.of_nat (length bs).
Proof.
  induction bs as [|b bs IH]; [by vm_compute|]. cbn [le_val length]. rewrite pow256_succ.
  pose proof (Byte.to_N_bounded b). lia.
Qed.

Lemma le_bytes_le_val bs : le_bytes (length bs) (le_val bs) = bs.
Proof.
  induction bs as [|b bs IH]; [done|]. cbn [le_val length le_bytes].
  pose proof (Byte.to_N_bounded b).
  assert (byte_of (Byte.to_N b + 256 * le_val bs) = b) as ->.
  { unfold byte_of. rewrite (N.mul_comm 256), N.Div0.mod_add, N.mod_small by lia.
    by rewrite Byte.of_to_N. }
  rewrite (N.mul_comm 256), N.div_add, N.div_small, N.add_0_l by lia. by rewrite IH.
Qed.

(** Slices [&b[i..i + n]]. *)
Definition slice (i n : nat) (b : bytes) : bytes := take n (drop i b).

Lemma length_slice i n b : (i + n <= length b)%nat -> length (slice i n b) = n.
Proof. intros H. unfold slice. rewrite length_take, length_drop. lia. Qed.

(** Writing a slice over [b] at [i] ([b[i..].copy_from_slice]), in range. *)
Lemma slice_app_l i n a b : (i + n <= length a)%nat -> slice i n (a ++ b) = slice i n a.
Proof.
  intros H. unfold slice. rewrite drop_app_le, take_app_le; [done|rewrite length_drop; lia|lia].
Qed.

Lemma slice_app_r i n a b : slice (length a + i) n (a ++ b) = slice i n b.
Proof. unfold slice. by rewrite <- drop_drop, drop_app_length. Qed.

Lemma slice_all a n : length a = n -> slice 0 n a = a.
Proof. intros <-. unfold slice. rewrite drop_0. by apply firstn_all. Qed.

(** ** The checksum *)

(** What the log relies on: appending to a checksum is the checksum of the
    concatenation, and checksums are 32 bits wide. *)
Class Crc32c : Type := {
  crc32c : bytes -> N;
  crc32c_append : N -> bytes -> N;
  crc32c_append_app : forall a b, crc32c_append (crc32c a) b = crc32c (a ++ b);
  crc32c_width : forall a, crc32c a < 2 ^ 32;
}.

(** CRC-32C, bit by bit: reflected polynomial [0x82F63B78], register
    complemented before and after. *)
Definition crc_poly : N := 2197175160.
Definition crc_mask : N := 4294967295.

Definition crc_bit (c : N) : N :=
  if N.odd c then N.lxor (N.shiftr c 1) crc_poly else N.shiftr c 1.
Definition crc_byte (c : N) (b : byte) : N := Nat.iter 8 crc_bit (N.lxor c (Byte.to_N b)).
Definition crc_register (c : N) (bs : bytes) : N := foldl crc_byte c bs.

Lemma lxor_bound a b k : a < 2 ^ k -> b < 2 ^ k -> N.lxor a b < 2 ^ k.
Proof.
  intros Ha Hb. destruct (N.eq_0_gt_0_cases (N.lxor a b)) as [->|Hpos].
  { apply N.neq_0_lt_0, N.pow_nonzero. lia. }
  destruct (N.eq_0_gt_0_cases k) as [->|Hk].
  { simpl in *. replace a with 0 in Hpos by lia. replace b with 0 in Hpos by lia. done. }
  apply N.log2_lt_pow2; [done|]. eapply N.le_lt_trans; [apply N.log2_lxor|].
  apply N.max_lub_lt; [destruct (N.eq_0_gt_0_cases a) as [->|]
                      |destruct (N.eq_0_gt_0_cases b) as [->|]];
    (by apply N.log2_lt_pow2) || (simpl; lia).
Qed.

Lemma crc_bit_bound c : c < 2 ^ 32 -> crc_bit c < 2 ^ 32.
Proof.
  intros Hc. unfold crc_bit. rewrite N.shiftr_div_pow2.
  assert (c / 2 ^ 1 < 2 ^ 32) by (apply N.Div0.div_lt_upper_bound; lia).
  destruct (N.odd c); [|done]. by apply lxor_bound.
Qed.

Lemma crc_byte_bound c b : c < 2 ^ 32 -> crc_byte c b < 2 ^ 32.
Proof.
  intros Hc. unfold crc_byte. pose proof (Byte.to_N_bounded b).
  assert (N.lxor c (Byte.to_N b) < 2 ^ 32) as Hx by (apply lxor_bound; lia).
  revert Hx. generalize (N.lxor c (Byte.to_N b)). intros x Hx.
  generalize 8%nat. intros n. induction n as [|n IH]; simpl; [done|]. by apply crc_bit_bound.
Qed.

Lemma crc_register_bound c bs : c < 2 ^ 32 -> crc_register c bs < 2 ^ 32.
Proof.
  revert c. induction bs as [|b bs IH]; intros c Hc; simpl; [done|].
  by apply IH, crc_byte_bound.
Qed.

Definition castagnoli : Crc32c.
Proof.
  refine {| crc32c a := N.lxor (crc_register crc_mask a) crc_mask;
            crc32c_append c a := N.lxor (crc_register (N.lxor c crc_mask) a) crc_mask |}.
  - intros a b. rewrite N.lxor_assoc, N.lxor_nilpotent, N.lxor_0_r.
    unfold crc_register. by rewrite foldl_app.
  - intros a. apply lxor_bound; [|by vm_compute]. by apply crc_register_bound.
Defined.

(** The check value of the catalogue: the checksum of the digits 1 to 9. *)
Example castagnoli_check :
  crc32c (Crc32c := castagnoli) [x31; x32; x33; x34; x35; x36; x37; x38; x39] = 3808858755.
Proof. by vm_compute. Qed.
