(* ===== verification/WalRecord.v ===== *)
(** * Record framing of the write-ahead log

    [crates/wal/src/record.rs] and [error.rs]: the frame layout, the encoders, the
    whole-frame decoder and the streaming scanner [next_record], which reads from
    a reader that may deliver fewer bytes than asked, be interrupted, or fail. *)

From S2P Require Import Prelude Bytes.

(** ** Constants and errors *)

Definition MAGIC : N := le_val [x4c; x45; x54; x57].
Definition VERSION : byte := x01.
Definition HEADER_LEN : nat := 18.
Definition TRAILER_LEN : nat := 4.
Definition FRAME_OVERHEAD : nat := HEADER_LEN + TRAILER_LEN.
Definition DEFAULT_MAX_PAYLOAD_LEN : N := 256 * 1024.
Definition SEQ_OFFSET : nat := 6.
Definition LEN_OFFSET : nat := 14.

Inductive HeaderError : Type :=
| BadMagic
| UnsupportedVersion (v : byte)
| HeaderPayloadTooLarge
| TruncatedFrame.

(** The source's path and underlying io error are kept as the failing operation. *)
Inductive WalError : Type :=
| WalIo (op : string)
| WalLocked
| PayloadTooLarge (actual max : N)
| InvalidHeader (offset : N) (kind : HeaderError)
| SeqMismatch (offset actual expected : N)
| ChecksumMismatch (offset : N)
| ChangedWhileOpen.

Record WalRecord : Type := mkWalRecord { rec_seq : N; rec_payload : bytes }.

#[global] Instance HeaderError_eq_dec : EqDecision HeaderError.
Proof. solve_decision. Defined.
#[global] Instance WalError_eq_dec : EqDecision WalError.
Proof. solve_decision. Defined.
#[global] Instance WalRecord_eq_dec : EqDecision WalRecord.
Proof. solve_decision. Defined.

Definition frame_len (payload_len : nat) : nat := payload_len + FRAME_OVERHEAD.

Definition lenN {A} (l : list A) : N := N.of_nat (length l).

Definition read_u32_le (b : bytes) (offset : nat) : N := le_val (slice offset 4 b).
Definition read_u64_le (b : bytes) (offset : nat) : N := le_val (slice offset 8 b).
Definition byte_at (b : bytes) (i : nat) : byte := nth i b x00.

(** [dst[i..i + src.len()].copy_from_slice(src)], in range. *)
Definition write_at (i : nat) (src dst : bytes) : bytes :=
  take i dst ++ src ++ drop (i + length src) dst.

(** ** Encoding *)

Section codec.
Context `{Crc32c}.

Definition encode_frame_append (magic : N) (version : byte) (seq : N) (payload : bytes)
    (max_payload_len : N) (dest : bytes) : bytes * result WalError unit :=
  if max_payload_len <? lenN payload
  then (dest, Err (PayloadTooLarge (lenN payload) max_payload_len))
  else
    let start := length dest in
    let total_len := frame_len (length payload) in
    let d := dest ++ replicate total_len x00 in
    let d := write_at start (le_bytes 4 magic) d in
    let d := write_at (start + 4) [version] d in
    let d := write_at (start + 5) [x00] d in
    let d := write_at (start + SEQ_OFFSET) (le_bytes 8 seq) d in
    let d := write_at (start + LEN_OFFSET) (le_bytes 4 (lenN payload mod 2 ^ 32)) d in
    let d := write_at (start + HEADER_LEN) payload d in
    let checksum := crc32c (slice start (total_len - TRAILER_LEN) d) in
    let crc_offset := (start + total_len - TRAILER_LEN)%nat in
    (write_at crc_offset (le_bytes 4 checksum) d, Ok tt).

Definition encode_frame_into (magic : N) (version : byte) (seq : N) (payload : bytes)
    (max_payload_len : N) (dest : bytes) : bytes * result WalError unit :=
  encode_frame_append magic version seq payload max_payload_len [].

Definition encode_frame (magic : N) (version : byte) (seq : N) (payload : bytes)
    (max_payload_len : N) : result WalError bytes :=
  match encode_frame_into magic version seq payload max_payload_len [] with
  | (frame, Ok _) => Ok frame
  | (_, Err e) => Err e
  end.

Definition encode_append := encode_frame_append MAGIC VERSION.
Definition encode_into := encode_frame_into MAGIC VERSION.

Definition encode (seq : N) (payload : bytes) (max_payload_len : N) : result WalError bytes :=
  match encode_into seq payload max_payload_len [] with
  | (frame, Ok _) => Ok frame
  | (_, Err e) => Err e
  end.

(** ** Decoding a whole frame *)

Definition decode_frame_with (magic : N) (version : byte) (frame : bytes) (max_payload_len : N) :
    result WalError (N * N) :=
  let len := length frame in
  if bool_decide (len < FRAME_OVERHEAD)%nat then Err (InvalidHeader 0 TruncatedFrame)
  else
    let offset := N.of_nat HEADER_LEN in
    let actual_magic := read_u32_le frame 0 in
    if negb (actual_magic =? magic) then Err (InvalidHeader offset BadMagic)
    else
      let actual_version := byte_at frame 4 in
      if negb (bool_decide (actual_version = version))
      then Err (InvalidHeader offset (UnsupportedVersion actual_version))
      else
        let payload_len := read_u32_le frame LEN_OFFSET in
        if max_payload_len <? payload_len
        then Err (InvalidHeader offset HeaderPayloadTooLarge)
        else if negb (N.of_nat len =? payload_len + N.of_nat FRAME_OVERHEAD)
        then Err (InvalidHeader offset TruncatedFrame)
        else
          let seq := read_u64_le frame SEQ_OFFSET in
          let checksum := read_u32_le frame (len - TRAILER_LEN) in
          let computed := crc32c (take (len - TRAILER_LEN) frame) in
          if negb (computed =? checksum) then Err (ChecksumMismatch offset)
          else Ok (seq, payload_len).

Definition decode_frame := decode_frame_with MAGIC VERSION.

(** ** The frame as a string *)

(** The layout of the module's documentation.  The scanner and the decoder ignore
    the flags byte, which the encoders write as zero. *)
Definition header (magic : N) (version flags : byte) (seq len : N) : bytes :=
  le_bytes 4 magic ++ [version; flags] ++ le_bytes 8 seq ++ le_bytes 4 len.

Definition frame_of (magic : N) (version flags : byte) (seq : N) (payload : bytes) : bytes :=
  let body := header magic version flags seq (lenN payload) ++ payload in
  body ++ le_bytes 4 (crc32c body).

Lemma length_header magic version flags seq len :
  length (header magic version flags seq len) = HEADER_LEN.
Proof. unfold header. rewrite !length_app, !length_le_bytes. done. Qed.

Lemma length_frame_of magic version flags seq payload :
  length (frame_of magic version flags seq payload) = frame_len (length payload).
Proof.
  unfold frame_of, frame_len, FRAME_OVERHEAD. rewrite !length_app, length_header, length_le_bytes.
  unfold HEADER_LEN, TRAILER_LEN. lia.
Qed.

Lemma write_at_app a src b c :
  length b = length src -> write_at (length a) src (a ++ b ++ c) = a ++ src ++ c.
Proof.
  intros Hb. unfold write_at. rewrite take_app_length, <- drop_drop, drop_app_length.
  by rewrite <- Hb, drop_app_length.
Qed.

(** Filling the next [k] zero bytes of a buffer. *)
Lemma write_at_zeros a src n k m :
  n = length a -> length src = k -> (m >= k)%nat ->
  write_at n src (a ++ replicate m x00) = (a ++ src) ++ replicate (m - k) x00.
Proof.
  intros -> <- Hm. replace m with (length src + (m - length src))%nat at 1 by lia.
  rewrite replicate_add, write_at_app by (by rewrite length_replicate). by rewrite app_assoc.
Qed.

Lemma encode_frame_append_eq magic version seq payload max dest :
  lenN payload < 2 ^ 32 ->
  encode_frame_append magic version seq payload max dest =
    if max <? lenN payload then (dest, Err (PayloadTooLarge (lenN payload) max))
    else (dest ++ frame_of magic version x00 seq payload, Ok tt).
Proof.
  intros Hlen. unfold encode_frame_append. destruct (max <? lenN payload); [done|].
  rewrite N.mod_small by done. set (n := length payload). f_equal.
  unfold frame_len, FRAME_OVERHEAD, SEQ_OFFSET, LEN_OFFSET, HEADER_LEN, TRAILER_LEN.
  rewrite (write_at_zeros dest (le_bytes 4 magic) _ 4) by (rewrite ?length_le_bytes; lia).
  rewrite (write_at_zeros _ [version] _ 1) by (rewrite ?length_app, ?length_le_bytes; simpl; lia).
  rewrite (write_at_zeros _ [x00] _ 1) by (rewrite ?length_app, ?length_le_bytes; simpl; lia).
  rewrite (write_at_zeros _ (le_bytes 8 seq) _ 8)
    by (rewrite ?length_app, ?length_le_bytes; simpl; lia).
  rewrite (write_at_zeros _ (le_bytes 4 _) _ 4)
    by (rewrite ?length_app, ?length_le_bytes; simpl; lia).
  rewrite (write_at_zeros _ payload _ n) by (rewrite ?length_app, ?length_le_bytes; simpl; lia).
  assert ((((((dest ++ le_bytes 4 magic) ++ [version]) ++ [x00]) ++ le_bytes 8 seq) ++
    le_bytes 4 (lenN payload)) ++ payload =
    dest ++ header magic version x00 seq (lenN payload) ++ payload) as ->.
  { unfold header. by rewrite <- !app_assoc. }
  set (body := header _ _ _ _ _ ++ payload).
  assert (length body = (18 + n)%nat) as Hb by (unfold body; rewrite length_app, length_header; done).
  assert (forall k z, k = length body -> slice (length dest) k ((dest ++ body) ++ z) = body) as ->.
  { intros k z ->. unfold slice. rewrite <- app_assoc, drop_app_length. apply take_app_length. }
  2: { lia. }
  rewrite (write_at_zeros (dest ++ body) _ _ 4)
    by (rewrite ?length_app, ?length_le_bytes; lia).
  replace (n + (18 + 4) - 4 - 1 - 1 - 8 - 4 - n - 4)%nat with 0%nat by lia.
  unfold frame_of. fold body. by rewrite app_nil_r, <- app_assoc.
Qed.

(** ** Reading a header back *)

(** The fields of a header, read from a string that starts with it. *)
Lemma header_fields magic version flags seq len rest :
  magic < 2 ^ 32 -> seq < 2 ^ 64 -> len < 2 ^ 32 ->
  let b := header magic version flags seq len ++ rest in
  read_u32_le b 0 = magic /\ byte_at b 4 = version /\
  read_u64_le b SEQ_OFFSET = seq /\ read_u32_le b LEN_OFFSET = len.
Proof.
  intros Hm Hs Hl b. unfold read_u32_le, read_u64_le, b. split_and!.
  - change (le_val (le_bytes 4 magic) = magic). by apply le_val_le_bytes.
  - done.
  - change (le_val (le_bytes 8 seq) = seq). by apply le_val_le_bytes.
  - change (le_val (le_bytes 4 len) = len). by apply le_val_le_bytes.
Qed.

(** Any string of at least a header's length starts with the header of its fields. *)
Lemma header_split b :
  (HEADER_LEN <= length b)%nat ->
  exists flags, b = header (read_u32_le b 0) (byte_at b 4) flags (read_u64_le b SEQ_OFFSET)
                   (read_u32_le b LEN_OFFSET) ++ drop HEADER_LEN b.
Proof.
  unfold HEADER_LEN. intros Hlen. exists (byte_at b 5). unfold header.
  do 18 (destruct b as [|? b]; [simpl in Hlen; lia|]). clear Hlen.
  unfold read_u32_le, read_u64_le, slice, SEQ_OFFSET, LEN_OFFSET, byte_at.
  cbn [drop take nth].
  repeat match goal with
  | |- context [le_bytes ?k (le_val ?l)] => rewrite (le_bytes_le_val l : le_bytes k (le_val l) = l)
  end. done.
Qed.

Lemma read_widths b i : read_u32_le b i < 2 ^ 32 /\ read_u64_le b i < 2 ^ 64.
Proof.
  assert (forall n, le_val (slice i n b) < 256 ^ N.of_nat n) as Hb.
  { intros n. eapply N.lt_le_trans; [apply le_val_bound|].
    apply N.pow_le_mono_r; [lia|]. unfold slice. rewrite length_take. lia. }
  split; [apply (Hb 4%nat)|apply (Hb 8%nat)].
Qed.

(** A string of the length its header declares, in three parts. *)
Lemma frame_parts f :
  N.of_nat (length f) = read_u32_le f LEN_OFFSET + N.of_nat FRAME_OVERHEAD ->
  exists flags payload,
    lenN payload = read_u32_le f LEN_OFFSET /\
    take (length f - TRAILER_LEN) f =
      header (read_u32_le f 0) (byte_at f 4) flags (read_u64_le f SEQ_OFFSET)
        (read_u32_le f LEN_OFFSET) ++ payload /\
    f = take (length f - TRAILER_LEN) f ++ le_bytes 4 (read_u32_le f (length f - TRAILER_LEN)).
Proof.
  unfold FRAME_OVERHEAD, HEADER_LEN, TRAILER_LEN. intros Hlen.
  destruct (header_split f ltac:(unfold HEADER_LEN; lia)) as [flags Hs].
  set (h := header _ _ _ _ _) in *. set (n := N.to_nat (read_u32_le f LEN_OFFSET)) in *.
  exists flags, (take n (drop 18 f)). unfold lenN. split_and!.
  - rewrite length_take, length_drop. lia.
  - rewrite Hs at 2. rewrite take_app_ge by (unfold h; rewrite length_header; unfold HEADER_LEN; lia).
    f_equal. unfold h. rewrite length_header. f_equal. unfold HEADER_LEN. lia.
  - unfold read_u32_le, slice. rewrite (take_ge (drop _ f)) by (rewrite length_drop; lia).
    pose proof (le_bytes_le_val (drop (length f - 4) f)) as E. rewrite length_drop in E.
    replace (length f - (length f - 4))%nat with 4%nat in E by lia. by rewrite E, take_drop.
Qed.

(** A frame is exactly a header, a payload of the declared length and the
    checksum of both. *)
Lemma decode_frame_with_sound magic version f max seq len :
  decode_frame_with magic version f max = Ok (seq, len) ->
  exists flags payload, f = frame_of magic version flags seq payload /\ len = lenN payload /\
    len <= max /\ len < 2 ^ 32 /\ seq < 2 ^ 64.
Proof.
  unfold decode_frame_with. intros Hd. run_inv.
  repeat match goal with
  | H : (_ =? _) = true |- _ => apply N.eqb_eq in H
  | H : (_ <? _) = false |- _ => apply N.ltb_ge in H
  end.
  destruct (frame_parts f ltac:(done)) as (flags & payload & Hp & Hb & Hf).
  exists flags, payload. split_and!; try (by apply read_widths); try done.
  rewrite Hf at 1. unfold frame_of. rewrite Hp, Hb.
  match goal with E : read_u32_le f 0 = _, C : _ = read_u32_le f (length f - TRAILER_LEN) |- _ =>
    by rewrite <- C, Hb, E end.
Qed.

Lemma decode_frame_with_complete magic version flags seq payload max :
  magic < 2 ^ 32 -> lenN payload <= max -> lenN payload < 2 ^ 32 -> seq < 2 ^ 64 ->
  decode_frame_with magic version (frame_of magic version flags seq payload) max =
    Ok (seq, lenN payload).
Proof.
  intros Hm Hmax H32 H64. unfold decode_frame_with, FRAME_OVERHEAD, HEADER_LEN, TRAILER_LEN.
  pose proof (length_frame_of magic version flags seq payload) as Hlen.
  unfold frame_len, FRAME_OVERHEAD, HEADER_LEN, TRAILER_LEN in Hlen. rewrite Hlen.
  rewrite bool_decide_false by lia. unfold frame_of. rewrite <- app_assoc.
  set (body := header _ _ _ _ _ ++ payload).
  pose proof (header_fields magic version flags seq (lenN payload)
    (payload ++ le_bytes 4 (crc32c body)) Hm H64 H32) as (-> & -> & -> & ->).
  rewrite N.eqb_refl, bool_decide_true by done. cbn [negb].
  rewrite (proj2 (N.ltb_ge _ _) Hmax).
  rewrite (proj2 (N.eqb_eq _ _)) by (unfold lenN; lia). cbn [negb].
  rewrite app_assoc. fold body.
  assert (length body = (length payload + (18 + 4) - 4)%nat) as <-.
  { unfold body. rewrite length_app, length_header. unfold HEADER_LEN. lia. }
  rewrite take_app_length. unfold read_u32_le, slice. rewrite drop_app_length, take_ge.
  - rewrite le_val_le_bytes by apply crc32c_width. by rewrite N.eqb_refl.
  - by rewrite length_le_bytes.
Qed.

End codec.

#[global] Arguments header : simpl never.
#[global] Arguments frame_of : simpl never.
