(* ===== verification/WalScan.v ===== *)
(** * The streaming scanner

    [read_upto] and [next_record] of [crates/wal/src/record.rs], over a reader
    whose [read] calls follow an arbitrary script of short deliveries,
    interruptions and failures.  Whatever the script, as long as no read fails,
    the scanner computes the pure function [scan] of the bytes. *)

From S2P Require Import Prelude Bytes WalRecord.

(** ** Readers *)

(** What the next [read] call does: deliver at most [S n] bytes, be interrupted,
    or fail.  Once the script is used up, reads deliver all they are asked for. *)
Inductive read_event : Type := Deliver (n : nat) | Interrupted | Failed.

Record reader : Type := mkReader { rd_data : bytes; rd_script : list read_event }.

Inductive read_outcome : Type := ROk (bs : bytes) | RInterrupted | RFailed.

(** [Read::read(&mut buf)] with a buffer of [want] bytes. *)
Definition read (rd : reader) (want : nat) : reader * read_outcome :=
  match rd_script rd with
  | [] => (mkReader (drop want (rd_data rd)) [], ROk (take want (rd_data rd)))
  | Deliver n :: s =>
      let k := Nat.min want (S n) in
      (mkReader (drop k (rd_data rd)) s, ROk (take k (rd_data rd)))
  | Interrupted :: s => (mkReader (rd_data rd) s, RInterrupted)
  | Failed :: s => (mkReader (rd_data rd) s, RFailed)
  end.

(** An io error other than an interruption. *)
Inductive IoError : Type := ReadFailed.

(** The loop of [read_upto], [buf] being the part of the buffer filled so far.
    Each turn uses up a script entry or fills a byte, so the fuel of [read_upto]
    is enough ([read_upto_fuel]). *)
Fixpoint read_upto_loop (fuel : nat) (rd : reader) (len : nat) (buf : bytes) :
    reader * result IoError bytes :=
  match fuel with
  | O => (rd, Ok buf)
  | S fuel' =>
      if bool_decide (length buf < len)%nat then
        match read rd (len - length buf) with
        | (rd', ROk []) => (rd', Ok buf)
        | (rd', ROk bs) => read_upto_loop fuel' rd' len (buf ++ bs)
        | (rd', RInterrupted) => read_upto_loop fuel' rd' len buf
        | (rd', RFailed) => (rd', Err ReadFailed)
        end
      else (rd, Ok buf)
  end.

Definition read_upto (rd : reader) (len : nat) : reader * result IoError bytes :=
  read_upto_loop (S (len + length (rd_script rd))) rd len [].

(** ** [next_record] *)

Inductive ScanStep : Type :=
| ScanRecord (seq len : N) (payload : option bytes)
| ScanEnd
| ScanBroken.

Definition CHUNK : N := 64 * 1024.

Section scanner.
Context `{Crc32c}.

(** The loop over the payload; [None] is the early [return Ok(Broken)].  Each turn
    reads at least one byte, so [len] turns are enough. *)
Fixpoint payload_loop (fuel : nat) (rd : reader) (remaining crc : N) (payload : option bytes) :
    reader * result IoError (option (N * option bytes)) :=
  match fuel with
  | O => (rd, Ok None)
  | S fuel' =>
      if remaining =? 0 then (rd, Ok (Some (crc, payload)))
      else
        let want := N.min remaining CHUNK in
        match read_upto rd (N.to_nat want) with
        | (rd', Err e) => (rd', Err e)
        | (rd', Ok []) => (rd', Ok None)
        | (rd', Ok bs) =>
            payload_loop fuel' rd' (remaining - lenN bs) (crc32c_append crc bs)
              ((fun p => p ++ bs) <$> payload)
        end
  end.

Definition next_record (rd : reader) (max_payload_len : N) (fetch_payload : bool) :
    reader * result IoError ScanStep :=
  match read_upto rd HEADER_LEN with
  | (rd, Err e) => (rd, Err e)
  | (rd, Ok head) =>
      if bool_decide (length head = 0)%nat then (rd, Ok ScanEnd)
      else if bool_decide (length head < HEADER_LEN)%nat then (rd, Ok ScanBroken)
      else if negb (read_u32_le head 0 =? MAGIC) || negb (bool_decide (byte_at head 4 = VERSION))
      then (rd, Ok ScanBroken)
      else
        let seq := read_u64_le head SEQ_OFFSET in
        let len := read_u32_le head LEN_OFFSET in
        if max_payload_len <? len then (rd, Ok ScanBroken)
        else
          match payload_loop (S (N.to_nat len)) rd len (crc32c head)
                  (if fetch_payload then Some [] else None) with
          | (rd, Err e) => (rd, Err e)
          | (rd, Ok None) => (rd, Ok ScanBroken)
          | (rd, Ok (Some (crc, payload))) =>
              match read_upto rd TRAILER_LEN with
              | (rd, Err e) => (rd, Err e)
              | (rd, Ok trailer) =>
                  if bool_decide (length trailer < TRAILER_LEN)%nat then (rd, Ok ScanBroken)
                  else if negb (crc =? read_u32_le trailer 0) then (rd, Ok ScanBroken)
                  else (rd, Ok (ScanRecord seq len payload))
              end
          end
  end.

(** ** The scan as a function of the bytes *)

Definition scan (max_payload_len : N) (fetch_payload : bool) (data : bytes) : ScanStep :=
  let head := take HEADER_LEN data in
  let len := read_u32_le head LEN_OFFSET in
  let rest := drop HEADER_LEN data in
  let payload := take (N.to_nat len) rest in
  let trailer := take TRAILER_LEN (drop (N.to_nat len) rest) in
  if bool_decide (data = []) then ScanEnd
  else if bool_decide (length head = HEADER_LEN /\ read_u32_le head 0 = MAGIC /\
            byte_at head 4 = VERSION /\ len <= max_payload_len /\ length trailer = TRAILER_LEN /\
            crc32c (head ++ payload) = read_u32_le trailer 0)
  then ScanRecord (read_u64_le head SEQ_OFFSET) len (if fetch_payload then Some payload else None)
  else ScanBroken.

(** ** Readers that do not fail *)

Definition benign (rd : reader) : Prop := Failed ∉ rd_script rd.

Lemma benign_tail e s d : Failed ∉ (e :: s) -> benign (mkReader d s).
Proof. unfold benign. simpl. rewrite not_elem_of_cons. tauto. Qed.

Lemma read_upto_loop_benign fuel rd len buf :
  benign rd -> (len - length buf + length (rd_script rd) < fuel)%nat ->
  exists s, (Failed ∉ s) /\
    read_upto_loop fuel rd len buf =
      (mkReader (drop (len - length buf) (rd_data rd)) s,
       Ok (buf ++ take (len - length buf) (rd_data rd))).
Proof.
  revert rd buf. induction fuel as [|fuel IH]; intros [d s] buf Hb Hf; [lia|].
  simpl in *. case_bool_decide as Hlt.
  2: { replace (len - length buf)%nat with 0%nat by lia. rewrite take_0, drop_0, app_nil_r. eauto. }
  assert (forall k s', Failed ∉ s' -> (0 < k <= len - length buf)%nat -> (length s' <= length s)%nat ->
    exists s2, (Failed ∉ s2) /\
    match take k d with
    | [] => (mkReader (drop k d) s', Ok buf)
    | _ :: _ => read_upto_loop fuel (mkReader (drop k d) s') len (buf ++ take k d)
    end = (mkReader (drop (len - length buf) d) s2, Ok (buf ++ take (len - length buf) d))) as Hk.
  { intros k s' Hs' Hk Hl. destruct (take k d) as [|b bs] eqn:Ht.
    - assert (d = []) as ->. { destruct d, k; simpl in Ht; (lia || done). }
      rewrite !drop_nil, take_nil, app_nil_r. eauto.
    - rewrite <- Ht. assert (length (take k d) = Nat.min k (length d)) as Hlen by apply length_take.
      assert (0 < length (take k d))%nat by (rewrite Ht; simpl; lia).
      destruct (IH (mkReader (drop k d) s') (buf ++ take k d) Hs') as (s2 & Hs2 & ->).
      { simpl. rewrite length_app. lia. }
      exists s2. split; [done|]. simpl. rewrite length_app, drop_drop, <- app_assoc.
      destruct (decide (k <= length d)%nat) as [Hkd|Hkd].
      + rewrite Hlen. replace (k + (len - (length buf + Nat.min k (length d))))%nat
          with (len - length buf)%nat by lia.
        f_equal. f_equal. f_equal. rewrite take_take_drop. f_equal. lia.
      + rewrite (take_ge d k), (drop_ge d k) by lia. rewrite take_nil, app_nil_r.
        rewrite (take_ge d), !drop_ge by lia. done. }
  unfold read. simpl. destruct s as [|[n| |] s]; simpl in *.
  - apply (Hk (len - length buf)%nat []); [done|lia|done].
  - apply Hk; [by apply (benign_tail (Deliver n) s d)|lia|lia].
  - apply (IH (mkReader d s)); [by eapply benign_tail|simpl; lia].
  - unfold benign in Hb. simpl in Hb. set_solver.
Qed.

(** Short reads and interruptions are invisible: the buffer is filled with the next
    bytes of the input, as far as there are any. *)
Lemma read_upto_benign rd len :
  benign rd -> exists rd', read_upto rd len = (rd', Ok (take len (rd_data rd))) /\
    rd_data rd' = drop len (rd_data rd) /\ benign rd'.
Proof.
  intros Hb. destruct (read_upto_loop_benign (S (len + length (rd_script rd))) rd len [] Hb)
    as (s & Hs & E); [simpl; lia|]. unfold read_upto. rewrite E. simpl.
  rewrite Nat.sub_0_r. eauto.
Qed.

Lemma read_upto_loop_S fuel rd len buf :
  read_upto_loop (S fuel) rd len buf =
    if bool_decide (length buf < len)%nat then
      match read rd (len - length buf) with
      | (rd', ROk []) => (rd', Ok buf)
      | (rd', ROk bs) => read_upto_loop fuel rd' len (buf ++ bs)
      | (rd', RInterrupted) => read_upto_loop fuel rd' len buf
      | (rd', RFailed) => (rd', Err ReadFailed)
      end
    else (rd, Ok buf).
Proof. done. Qed.

(** Failures included, more fuel changes nothing. *)
Lemma read_upto_fuel fuel rd len buf :
  (len - length buf + length (rd_script rd) < fuel)%nat ->
  read_upto_loop (S fuel) rd len buf = read_upto_loop fuel rd len buf.
Proof.
  revert rd buf. induction fuel as [|fuel IH]; intros [d s] buf Hf; [lia|].
  rewrite (read_upto_loop_S (S fuel)), (read_upto_loop_S fuel).
  case_bool_decide as Hlt; [|done]. unfold read. simpl in *.
  destruct s as [|[n| |] s]; cbn [rd_script rd_data length] in *.
  - destruct (take _ d) as [|b bs]; [done|]. apply IH. simpl. rewrite length_app. simpl. lia.
  - destruct (take _ d) as [|b bs]; [done|]. apply IH. simpl. rewrite length_app. simpl. lia.
  - apply IH. simpl. lia.
  - done.
Qed.

(** ** The scanner computes [scan] *)

Lemma lenN_take n (l : bytes) : lenN (take n l) = N.min (N.of_nat n) (lenN l).
Proof. unfold lenN. rewrite length_take. lia. Qed.

Lemma payload_loop_benign fuel rd remaining seen payload :
  benign rd -> (N.to_nat remaining < fuel)%nat ->
  exists rd', benign rd' /\
    (if bool_decide (remaining <= lenN (rd_data rd)) then
       rd_data rd' = drop (N.to_nat remaining) (rd_data rd) /\
       payload_loop fuel rd remaining (crc32c seen) payload =
         (rd', Ok (Some (crc32c (seen ++ take (N.to_nat remaining) (rd_data rd)),
            (fun p => p ++ take (N.to_nat remaining) (rd_data rd)) <$> payload)))
     else payload_loop fuel rd remaining (crc32c seen) payload = (rd', Ok None)).
Proof.
  revert rd remaining seen payload.
  induction fuel as [|fuel IH]; intros rd remaining seen payload Hb Hf; [lia|].
  cbn [payload_loop]. destruct (N.eqb_spec remaining 0) as [->|Hne].
  { exists rd. split; [done|]. rewrite bool_decide_true by lia. simpl.
    rewrite take_0, drop_0, app_nil_r. split; [done|]. do 4 f_equal.
    destruct payload; simpl; by rewrite ?app_nil_r. }
  set (w := N.to_nat (N.min remaining CHUNK)).
  assert (0 < w)%nat as Hw by (unfold w, CHUNK; lia).
  destruct (read_upto_benign rd w Hb) as (rd1 & -> & Hd1 & Hb1).
  destruct (take w (rd_data rd)) as [|b bs] eqn:Ht.
  { exists rd1. split; [done|]. assert (rd_data rd = []) as ->.
    { destruct (rd_data rd), w; simpl in Ht; (lia || done). }
    rewrite bool_decide_false; [done|]. unfold lenN. simpl. lia. }
  rewrite <- Ht, crc32c_append_app.
  set (got := take w (rd_data rd)) in *.
  assert (lenN got = N.min (N.of_nat w) (lenN (rd_data rd))) as Hg by apply lenN_take.
  assert (0 < lenN got) by (rewrite Ht; unfold lenN; simpl; lia).
  destruct (IH rd1 (remaining - lenN got) (seen ++ got) ((fun p => p ++ got) <$> payload) Hb1)
    as (rd2 & Hb2 & E); [lia|].
  exists rd2. split; [done|].
  assert (lenN (rd_data rd1) = lenN (rd_data rd) - N.of_nat w) as Hl1
    by (rewrite Hd1; unfold lenN; rewrite length_drop; lia).
  case_bool_decide as Hle; case_bool_decide as Hle'; try done; try (unfold w in *; lia).
  assert (got ++ take (N.to_nat (remaining - lenN got)) (rd_data rd1) =
          take (N.to_nat remaining) (rd_data rd)) as Hcat.
  { rewrite Hd1, Hg. unfold got. rewrite take_take_drop. f_equal. unfold w in *. lia. }
  destruct E as [E1 ->]. split; [rewrite E1, Hd1, drop_drop; f_equal; unfold w in *; lia|].
  rewrite <- app_assoc, Hcat. do 4 f_equal.
  destruct payload; simpl; [|done]. by rewrite <- app_assoc, Hcat.
Qed.

(** Splitting a conjunction test, first conjunct first. *)
Lemma bool_decide_and_if {A} (P Q : Prop) `{Decision P, Decision Q} (x y : A) :
  (if bool_decide (P /\ Q) then x else y) =
  if bool_decide P then (if bool_decide Q then x else y) else y.
Proof. repeat case_bool_decide; tauto. Qed.

Lemma next_record_benign rd max fetch :
  benign rd ->
  exists rd', benign rd' /\ next_record rd max fetch = (rd', Ok (scan max fetch (rd_data rd))) /\
    forall seq len p, scan max fetch (rd_data rd) = ScanRecord seq len p ->
      rd_data rd' = drop (HEADER_LEN + N.to_nat len + TRAILER_LEN) (rd_data rd).
Proof.
  intros Hb. unfold next_record, scan.
  destruct (read_upto_benign rd HEADER_LEN Hb) as (rd1 & -> & Hd1 & Hb1).
  set (data := rd_data rd) in *. set (head := take HEADER_LEN data) in *.
  set (len := read_u32_le head LEN_OFFSET).
  rewrite !bool_decide_and_if.
  assert (length head = Nat.min HEADER_LEN (length data)) as Hh by apply length_take.
  destruct (decide (data = [])) as [Hnil|Hnil].
  { exists rd1. rewrite !bool_decide_true by (rewrite ?Hh, ?Hnil; done). done. }
  assert (0 < length data)%nat by (destruct data; simpl; [done|lia]).
  rewrite (bool_decide_false (data = [])) by done.
  rewrite (bool_decide_false (length head = 0%nat)) by (unfold HEADER_LEN in *; lia).
  case_bool_decide as Hlt.
  { rewrite bool_decide_false by lia. exists rd1. done. }
  rewrite (bool_decide_true (length head = HEADER_LEN)) by lia.
  destruct (N.eqb_spec (read_u32_le head 0) MAGIC) as [Hm|Hm];
    [rewrite (bool_decide_true (read_u32_le head 0 = MAGIC)) by done
    |rewrite (bool_decide_false (read_u32_le head 0 = MAGIC)) by done; by exists rd1].
  cbn [negb orb].
  case_bool_decide as Hv; [cbn [negb]|by exists rd1].
  destruct (N.ltb_spec max len) as [Hmax|Hmax];
    [rewrite bool_decide_false by lia; by exists rd1|rewrite bool_decide_true by done].
  destruct (payload_loop_benign (S (N.to_nat len)) rd1 len head (if fetch then Some [] else None) Hb1)
    as (rd2 & Hb2 & E); [lia|]. rewrite Hd1 in E. revert E. case_bool_decide as Hrem; intros E.
  2: { rewrite E. rewrite bool_decide_false; [by exists rd2|].
       rewrite length_take, !length_drop. unfold lenN, TRAILER_LEN in *. rewrite length_drop in Hrem. lia. }
  destruct E as [Hd2 ->].
  destruct (read_upto_benign rd2 TRAILER_LEN Hb2) as (rd3 & -> & Hd3 & Hb3). rewrite Hd2.
  set (trailer := take TRAILER_LEN _).
  assert (length trailer <= TRAILER_LEN)%nat by (unfold trailer; rewrite length_take; lia).
  case_bool_decide as Htl; [rewrite bool_decide_false by lia; by exists rd3|].
  rewrite bool_decide_true by lia.
  destruct (N.eqb_spec (crc32c (head ++ take (N.to_nat len) (drop HEADER_LEN data)))
    (read_u32_le trailer 0)) as [Hc|Hc]; [rewrite bool_decide_true by done|
      rewrite bool_decide_false by done; by exists rd3].
  exists rd3. split; [done|]. split; [by destruct fetch|].
  intros seq len' p [= <- <- <-]. by rewrite Hd3, Hd2, !drop_drop.
Qed.

(** ** What is scanned is what was framed *)

Lemma scan_frame max fetch flags seq payload rest :
  lenN payload <= max -> lenN payload < 2 ^ 32 -> seq < 2 ^ 64 ->
  scan max fetch (frame_of MAGIC VERSION flags seq payload ++ rest) =
    ScanRecord seq (lenN payload) (if fetch then Some payload else None).
Proof.
  intros Hmax H32 H64. unfold scan, frame_of.
  set (h := header MAGIC VERSION flags seq (lenN payload)).
  set (crc := le_bytes 4 (crc32c (h ++ payload))).
  replace (((h ++ payload) ++ crc) ++ rest) with (h ++ payload ++ crc ++ rest)
    by (by rewrite <- !app_assoc).
  assert (length h = HEADER_LEN) as Hh by apply length_header.
  rewrite <- Hh, take_app_length, drop_app_length.
  pose proof (header_fields MAGIC VERSION flags seq (lenN payload) [] eq_refl H64 H32) as Hf.
  fold h in Hf. rewrite app_nil_r in Hf. destruct Hf as (-> & -> & -> & ->).
  replace (N.to_nat (lenN payload)) with (length payload) by (unfold lenN; lia).
  rewrite take_app_length, drop_app_length.
  assert (take TRAILER_LEN (crc ++ rest) = crc) as ->.
  { replace TRAILER_LEN with (length crc) by (unfold crc; by rewrite length_le_bytes).
    apply take_app_length. }
  rewrite bool_decide_false.
  - rewrite bool_decide_true; [done|]. split_and!; try done.
    unfold read_u32_le. rewrite (slice_all crc) by (unfold crc; by rewrite length_le_bytes).
    unfold crc. rewrite le_val_le_bytes; [done|apply crc32c_width].
  - intros E. apply (f_equal length) in E. rewrite length_app, Hh in E. done.
Qed.

(** A scanned record is a frame of its sequence number and payload. *)
Lemma scan_sound max fetch data seq len p :
  scan max fetch data = ScanRecord seq len p ->
  exists flags payload rest, data = frame_of MAGIC VERSION flags seq payload ++ rest /\
    len = lenN payload /\ lenN payload <= max /\ lenN payload < 2 ^ 32 /\ seq < 2 ^ 64 /\
    p = if fetch then Some payload else None.
Proof.
  unfold scan. case_bool_decide as Hnil; [done|]. case_bool_decide as Hok; [|done].
  intros [= <- <- <-]. set (head := take HEADER_LEN data) in *.
  set (len := read_u32_le head LEN_OFFSET) in *.
  set (payload := take (N.to_nat len) (drop HEADER_LEN data)) in *.
  set (trailer := take TRAILER_LEN (drop (N.to_nat len) (drop HEADER_LEN data))) in *.
  destruct Hok as (Hh & Hm & Hv & Hmax & Ht & Hc).
  destruct (header_split head) as [flags Hs]; [lia|].
  rewrite Hm, Hv, (drop_ge head), app_nil_r in Hs by lia.
  assert (lenN payload = len) as Hp.
  { unfold trailer in Ht. rewrite length_take, !length_drop in Ht. unfold TRAILER_LEN in Ht.
    unfold lenN, payload. rewrite length_take, length_drop. lia. }
  exists flags, payload, (drop TRAILER_LEN (drop (N.to_nat len) (drop HEADER_LEN data))).
  pose proof (read_widths head LEN_OFFSET) as [? _]. pose proof (read_widths head SEQ_OFFSET) as [_ ?].
  split_and!; try (rewrite ?Hp; done).
  unfold frame_of. rewrite Hp. fold len in Hs. rewrite <- Hs, Hc.
  assert (le_bytes 4 (read_u32_le trailer 0) = trailer) as ->.
  { unfold read_u32_le. rewrite (slice_all trailer) by done.
    rewrite <- (le_bytes_le_val trailer) at 2. by rewrite Ht. }
  rewrite <- app_assoc. unfold trailer. rewrite take_drop. rewrite <- app_assoc.
  unfold payload. rewrite take_drop. unfold head. by rewrite take_drop.
Qed.

End scanner.
