(* ===== verification/Wal.v ===== *)
(** * The write-ahead log

    [crates/wal/src/wal.rs]: [Wal::open] with its recovery scan and truncation,
    [append] and [append_batch] with their error paths, [RecordStream] and
    [read_records].  The file is its bytes and a cursor
    over a disk with a page cache; every system call of an
    operation takes its outcome from an explicit script, so that short writes,
    failing syncs and failing clean-up are all cases of the definitions. *)

From S2P Require Import Prelude Bytes WalRecord WalScan.

(** ** Files *)

(** Bytes written at a position, which extends the file where needed (a gap reads as
    zeros), and a change of length. *)
Definition overwrite (pos : nat) (bs file : bytes) : bytes :=
  let base := file ++ replicate (pos - length file) x00 in
  take pos base ++ bs ++ drop (pos + length bs) base.
Definition set_length (n : nat) (file : bytes) : bytes := take n file ++ replicate (n - length file) x00.

Inductive FileOp : Type := OpWrite (pos : nat) (bs : bytes) | OpSetLen (n : nat).
Definition file_op (file : bytes) (op : FileOp) : bytes :=
  match op with OpWrite pos bs => overwrite pos bs file | OpSetLen n => set_length n file end.

(** A file as its reader sees it and its cursor; beneath, what the disk was last known to
    hold, and the operations since then, which are only in the page cache. *)
Record File : Type := mkFile { content : bytes; cursor : nat; on_disk : bytes; unflushed : list FileOp }.

(** A file that was found on the disk. *)
Definition file_found (disk : bytes) : File := mkFile disk 0 disk [].

Definition file_write (bs : bytes) (f : File) : File :=
  mkFile (overwrite (cursor f) bs (content f)) (cursor f + length bs) (on_disk f)
    (unflushed f ++ [OpWrite (cursor f) bs]).
Definition file_set_len (n : nat) (f : File) : File :=
  mkFile (set_length n (content f)) (cursor f) (on_disk f) (unflushed f ++ [OpSetLen n]).
Definition file_seek (n : nat) (f : File) : File := mkFile (content f) n (on_disk f) (unflushed f).
(** A sync that succeeds. *)
Definition file_sync (f : File) : File := mkFile (content f) (cursor f) (content f) [].

(** The operations that reached the disk before a power failure: the first [k] of them and
    the first [j] bytes of a write after these. *)
Definition reached (k j : nat) (ops : list FileOp) : list FileOp :=
  take k ops ++ match ops !! k with Some (OpWrite pos bs) => [OpWrite pos (take j bs)] | _ => [] end.

(** What a power failure may leave of a file. *)
Definition power_cut (f : File) (disk : bytes) : Prop :=
  exists k j, disk = foldl file_op (on_disk f) (reached k j (unflushed f)).

(** ** State *)

Record WalOptions : Type := mkWalOptions {
  max_record_payload_len : N;
  sync_per_append : bool;
}.

Definition WalOptions_default : WalOptions := mkWalOptions DEFAULT_MAX_PAYLOAD_LEN true.

Record Recovery : Type := mkRecovery {
  rv_next_seq : N;
  truncated_bytes : N;
  verified_records : N;
}.

Record Wal : Type := mkWal {
  wal_file : File;
  next_seq : N;
  committed_end : N;
  wal_options : WalOptions;
  encode_buf : bytes;
}.

Definition set_file (f : File) (w : Wal) : Wal :=
  mkWal f (next_seq w) (committed_end w) (wal_options w) (encode_buf w).
Definition set_encode_buf (b : bytes) (w : Wal) : Wal :=
  mkWal (wal_file w) (next_seq w) (committed_end w) (wal_options w) b.

Section wal.
Context `{Crc32c}.

(** ** Opening *)

(** Which system calls of [open] succeed, and how its reads are delivered. *)
Record OpenIo : Type := mkOpenIo {
  oi_open : bool; oi_lock : bool; oi_reads : list read_event; oi_metadata : bool;
  oi_set_len : bool; oi_sync_all : bool; oi_seek_end : bool;
}.

(** The recovery loop.  Every record takes at least [FRAME_OVERHEAD] bytes, so the
    number of bytes bounds the number of turns. *)
Fixpoint open_loop (fuel : nat) (rd : reader) (max next_seq verified_records verified_end : N) :
    result WalError (N * N * N) :=
  match fuel with
  | O => Ok (next_seq, verified_records, verified_end)
  | S fuel' =>
      match next_record rd max false with
      | (_, Err ReadFailed) => Err (WalIo "read_frame")
      | (rd', Ok (ScanRecord seq len _)) =>
          if negb (seq =? next_seq) then Err (SeqMismatch verified_end seq next_seq)
          else open_loop fuel' rd' max (next_seq + 1) (verified_records + 1)
                 (verified_end + (len + N.of_nat FRAME_OVERHEAD))
      | (_, Ok ScanEnd) | (_, Ok ScanBroken) => Ok (next_seq, verified_records, verified_end)
      end
  end.

(** [Wal::open] on a file with bytes [disk]; the bytes left on disk are returned
    with the outcome. *)
Definition open (io : OpenIo) (disk : bytes) (options : WalOptions) :
    bytes * result WalError (Wal * Recovery) :=
  if negb (oi_open io) then (disk, Err (WalIo "open"))
  else if negb (oi_lock io) then (disk, Err WalLocked)
  else
    match open_loop (S (length disk)) (mkReader disk (oi_reads io))
            (max_record_payload_len options) 0 0 0 with
    | Err e => (disk, Err e)
    | Ok (next_seq, verified_records, verified_end) =>
        if negb (oi_metadata io) then (disk, Err (WalIo "metadata"))
        else
          let truncated := saturating_sub (lenN disk) verified_end in
          let keep := N.to_nat verified_end in
          if (0 <? truncated) && negb (oi_set_len io) then (disk, Err (WalIo "set_len"))
          else
            let file := if 0 <? truncated then file_set_len keep (file_found disk) else file_found disk in
            if (0 <? truncated) && negb (oi_sync_all io)
            then (content file, Err (WalIo "sync_all"))
            else
            let file := if 0 <? truncated then file_sync file else file in
            if negb (oi_seek_end io) then (content file, Err (WalIo "seek_end"))
            else (content file,
                  Ok (mkWal (file_seek keep file) next_seq verified_end options [],
                      mkRecovery next_seq truncated verified_records))
    end.

(** ** Appending *)

(** Outcomes of the calls of [append_batch]: the write fails after some bytes, the
    sync fails, and the clean-up calls after a failure may fail too. *)
Record AppendIo : Type := mkAppendIo {
  ai_write : option nat; ai_sync : bool; ai_set_len : bool; ai_seek : bool;
}.

(** The validation loop over the payload lengths; [usize] is 64 bits. *)
Fixpoint validate_payloads (max total : N) (payloads : list bytes) : result WalError N :=
  match payloads with
  | [] => Ok total
  | p :: rest =>
      if max <? lenN p then Err (PayloadTooLarge (lenN p) max)
      else
        match checked_add U64_MAX total (N.of_nat (frame_len (length p))) with
        | None => Err (PayloadTooLarge U64_MAX max)
        | Some t => validate_payloads max t rest
        end
  end.

Fixpoint encode_all (max cur_seq : N) (payloads : list bytes) (buf : bytes) :
    bytes * result WalError N :=
  match payloads with
  | [] => (buf, Ok cur_seq)
  | p :: rest =>
      match encode_append cur_seq p max buf with
      | (buf', Err e) => (buf', Err e)
      | (buf', Ok _) => encode_all max (cur_seq + 1) rest buf'
      end
  end.

(** [let _ = set_len(committed_end); let _ = seek(committed_end)]. *)
Definition discard_tail (io : AppendIo) (w : Wal) (f : File) : File :=
  let keep := N.to_nat (committed_end w) in
  let f := if ai_set_len io then file_set_len keep f else f in
  if ai_seek io then file_seek keep f else f.

Definition append_batch (io : AppendIo) (payloads : list bytes) (w : Wal) :
    Wal * result WalError (N * N) :=
  let max := max_record_payload_len (wal_options w) in
  match payloads with
  | [] => (w, Ok (next_seq w, next_seq w))
  | _ =>
      match validate_payloads max 0 payloads with
      | Err e => (w, Err e)
      | Ok _ =>
          match encode_all max (next_seq w) payloads [] with
          | (buf, Err e) => (set_encode_buf buf w, Err e)
          | (buf, Ok cur_seq) =>
              let w := set_encode_buf buf w in
              match ai_write io with
              | Some j =>
                  (set_file (discard_tail io w (file_write (take j buf) (wal_file w))) w,
                   Err (WalIo "write_all"))
              | None =>
                  let f := file_write buf (wal_file w) in
                  if sync_per_append (wal_options w) && negb (ai_sync io)
                  then (set_file (discard_tail io w f) w, Err (WalIo "sync_data"))
                  else
                    let f := if sync_per_append (wal_options w) then file_sync f else f in
                    (mkWal f cur_seq (committed_end w + lenN buf) (wal_options w) buf,
                     Ok (next_seq w, cur_seq))
              end
          end
      end
  end.

Definition append (io : AppendIo) (payload : bytes) (w : Wal) : Wal * result WalError N :=
  match append_batch io [payload] w with
  | (w', Ok range) => (w', Ok range.1)
  | (w', Err e) => (w', Err e)
  end.

(** ** Streaming *)

Record RecordStream : Type := mkStream {
  st_reader : reader;
  st_max_payload_len : N;
  expected_next_seq : N;
  st_committed_end : N;
  current_seq : N;
  seek_restored : bool;
  finished : bool;
}.

Definition stream_finish (s : RecordStream) : RecordStream :=
  mkStream (st_reader s) (st_max_payload_len s) (expected_next_seq s) (st_committed_end s)
    (current_seq s) (seek_restored s) true.
Definition stream_advance (rd : reader) (s : RecordStream) : RecordStream :=
  mkStream rd (st_max_payload_len s) (expected_next_seq s) (st_committed_end s)
    (current_seq s + 1) (seek_restored s) (finished s).
Definition stream_restored (s : RecordStream) : RecordStream :=
  mkStream (st_reader s) (st_max_payload_len s) (expected_next_seq s) (st_committed_end s)
    (current_seq s) true (finished s).

(** [Iterator::next]; [seek_ok] is the outcome of the seek in [restore_cursor]. *)
Definition stream_next (seek_ok : bool) (s : RecordStream) :
    RecordStream * option (result WalError WalRecord) :=
  if finished s then (s, None)
  else if current_seq s <? expected_next_seq s then
    match next_record (st_reader s) (st_max_payload_len s) true with
    | (rd, Ok (ScanRecord seq _ payload)) =>
        match payload with
        | None => (stream_finish s, Some (Err ChangedWhileOpen))
        | Some payload =>
            if negb (seq =? current_seq s)
            then (stream_finish s, Some (Err ChangedWhileOpen))
            else (stream_advance rd s, Some (Ok (mkWalRecord seq payload)))
        end
    | (_, Ok ScanEnd) | (_, Ok ScanBroken) => (stream_finish s, Some (Err ChangedWhileOpen))
    | (_, Err ReadFailed) => (stream_finish s, Some (Err (WalIo "read_record")))
    end
  else
    let s := stream_finish s in
    match next_record (st_reader s) (st_max_payload_len s) false with
    | (_, Ok ScanEnd) =>
        if seek_restored s then (s, None)
        else if seek_ok then (stream_restored s, None)
        else (s, Some (Err (WalIo "seek_end")))
    | (_, Ok (ScanRecord _ _ _)) | (_, Ok ScanBroken) => (s, Some (Err ChangedWhileOpen))
    | (_, Err ReadFailed) => (s, Some (Err (WalIo "read_record")))
    end.

(** Outcomes of the calls of [read_records]: the seek to the start, the reads, the
    seek in [restore_cursor] and, if that did not succeed, where the cursor is left
    after the drop handler has tried again. *)
Record ReadIo : Type := mkReadIo {
  ri_seek_start : bool; ri_reads : list read_event; ri_seek_end : bool;
  ri_drop_seek : option nat;
}.

Definition stream_records (io : ReadIo) (w : Wal) : result WalError RecordStream :=
  if negb (ri_seek_start io) then Err (WalIo "seek_start")
  else Ok (mkStream (mkReader (content (wal_file w)) (ri_reads io))
             (max_record_payload_len (wal_options w)) (next_seq w) (committed_end w) 0 false false).

(** The [for] loop of [read_records].  It stops at the first error or at the end,
    and each other turn yields a record, so [next_seq] turns and one more are
    enough. *)
Fixpoint collect (fuel : nat) (seek_ok : bool) (s : RecordStream) (records : list WalRecord) :
    RecordStream * result WalError (list WalRecord) :=
  match fuel with
  | O => (s, Ok records)
  | S fuel' =>
      match stream_next seek_ok s with
      | (s', None) => (s', Ok records)
      | (s', Some (Err e)) => (s', Err e)
      | (s', Some (Ok r)) => collect fuel' seek_ok s' (records ++ [r])
      end
  end.

Definition read_records (io : ReadIo) (w : Wal) : Wal * result WalError (list WalRecord) :=
  match stream_records io w with
  | Err e => (w, Err e)
  | Ok s =>
      let '(s', r) := collect (S (S (N.to_nat (next_seq w)))) (ri_seek_end io) s [] in
      let keep := N.to_nat (committed_end w) in
      let pos := if seek_restored s' then keep
                 else match ri_drop_seek io with None => keep | Some p => p end in
      (set_file (file_seek pos (wal_file w)) w, r)
  end.

End wal.
