(* ===== verification/WalInv.v ===== *)
(** * What a log contains

    The bytes of a committed history, the invariant of an open log, and the lemmas
    that carry the theorems about [open], [append_batch] and [read_records]. *)

From S2P Require Import Prelude Bytes WalRecord WalScan Wal.

Section wal.
Context `{Crc32c}.

(** The frames of payloads numbered from [s]. *)
Fixpoint log_from (s : N) (ps : list bytes) : bytes :=
  match ps with
  | [] => []
  | p :: rest => frame_of MAGIC VERSION x00 s p ++ log_from (s + 1) rest
  end.

Lemma log_from_app s ps qs : log_from s (ps ++ qs) = log_from s ps ++ log_from (s + lenN ps) qs.
Proof.
  revert s. induction ps as [|p ps IH]; intros s; cbn [log_from app].
  - unfold lenN. simpl. by rewrite N.add_0_r.
  - rewrite IH, <- app_assoc. by replace (s + lenN (p :: ps)) with (s + 1 + lenN ps)
      by (unfold lenN; cbn [length]; lia).
Qed.

Lemma length_log_from_cons s p ps :
  length (log_from s (p :: ps)) = (frame_len (length p) + length (log_from (s + 1) ps))%nat.
Proof. cbn [log_from]. by rewrite length_app, length_frame_of. Qed.

(** ** Payloads that fit *)

Definition fits (max : N) (ps : list bytes) : Prop := Forall (fun p => lenN p <= max) ps.

(** Payload lengths fit the frame's 32-bit field and sequence numbers 64 bits. *)
Record log_bounds (max : N) (s : N) (ps : list bytes) : Prop := {
  lb_max : max < 2 ^ 32;
  lb_fits : fits max ps;
  lb_seq : s + lenN ps < 2 ^ 64;
}.

Lemma log_bounds_cons max s p ps :
  log_bounds max s (p :: ps) ->
  lenN p <= max /\ lenN p < 2 ^ 32 /\ s < 2 ^ 64 /\ log_bounds max (s + 1) ps.
Proof.
  intros [Hm Hf Hs]. inversion Hf as [|? ? Hp Hps]; subst. unfold lenN in *. simpl in *.
  split_and!; try lia. constructor; [done|done|unfold lenN; lia].
Qed.

Lemma scan_log max fetch s p ps tail :
  log_bounds max s (p :: ps) ->
  scan max fetch (log_from s (p :: ps) ++ tail) =
    ScanRecord s (lenN p) (if fetch then Some p else None).
Proof.
  intros Hb. apply log_bounds_cons in Hb as (? & ? & ? & _). cbn [log_from].
  rewrite <- app_assoc. by apply scan_frame.
Qed.

Lemma drop_log s p ps tail n :
  n = (HEADER_LEN + length p + TRAILER_LEN)%nat ->
  drop n (log_from s (p :: ps) ++ tail) = log_from (s + 1) ps ++ tail.
Proof.
  intros ->. cbn [log_from]. rewrite <- app_assoc.
  replace (HEADER_LEN + length p + TRAILER_LEN)%nat
    with (length (frame_of MAGIC VERSION x00 s p)).
  - apply drop_app_length.
  - rewrite length_frame_of. unfold frame_len, FRAME_OVERHEAD. lia.
Qed.

(** A tail no record can be read from. *)
Definition torn (max : N) (tail : bytes) : Prop :=
  forall fetch seq len p, scan max fetch tail <> ScanRecord seq len p.

Lemma torn_nil max : torn max [].
Proof. by intros fetch seq len p. Qed.

(** ** The recovery loop *)

Lemma open_loop_log fuel rd max s recs pos ps tail :
  benign rd -> rd_data rd = log_from s ps ++ tail -> log_bounds max s ps -> torn max tail ->
  (length ps < fuel)%nat ->
  open_loop fuel rd max s recs pos =
    Ok (s + lenN ps, recs + lenN ps, pos + lenN (log_from s ps)).
Proof.
  revert rd s recs pos ps. induction fuel as [|fuel IH]; intros rd s recs pos ps Hrd Hd Hlb Ht Hf; [lia|].
  destruct (next_record_benign rd max false Hrd) as (rd' & Hrd' & E & Hd').
  cbn [open_loop]. rewrite E. destruct ps as [|p ps].
  - simpl in Hd. rewrite Hd. unfold lenN. simpl. rewrite !N.add_0_r.
    destruct (scan max false tail) as [sq ln pl| |] eqn:Es; [by apply Ht in Es|done|done].
  - pose proof (scan_log max false s p ps tail Hlb) as Hs. rewrite Hd, Hs.
    rewrite N.eqb_refl. cbn [negb]. rewrite Hd in Hd'. specialize (Hd' _ _ _ Hs).
    apply log_bounds_cons in Hlb as (_ & _ & _ & Hlb).
    rewrite drop_log in Hd' by (unfold lenN; lia).
    rewrite (IH rd' (s + 1) _ _ ps) by (done || (simpl in Hf; lia)).
    f_equal. unfold lenN. rewrite length_log_from_cons. cbn [length].
    unfold frame_len. f_equal; [f_equal|]; lia.
Qed.

(** ** Torn tails *)

(** The length a scan of at least a header commits to is the one in the header, so
    a proper prefix of a frame is never taken for a record. *)
Lemma frame_prefix_torn max s p k :
  lenN p < 2 ^ 32 -> s < 2 ^ 64 -> (k < frame_len (length p))%nat ->
  torn max (take k (frame_of MAGIC VERSION x00 s p)).
Proof.
  intros H32 H64 Hk fetch seq len pl E.
  apply scan_sound in E as (flags & q & rest & Ed & -> & _ & Hq & Hseq & _).
  assert (length (take k (frame_of MAGIC VERSION x00 s p)) = k) as Hl.
  { rewrite length_take, length_frame_of. lia. }
  rewrite Ed, length_app, length_frame_of in Hl.
  assert (read_u32_le (take k (frame_of MAGIC VERSION x00 s p)) LEN_OFFSET = lenN p) as Hp.
  { unfold read_u32_le.
    rewrite <- (slice_app_l _ _ _ (drop k (frame_of MAGIC VERSION x00 s p))).
    - rewrite take_drop. fold (read_u32_le (frame_of MAGIC VERSION x00 s p) LEN_OFFSET).
      unfold frame_of. rewrite <- app_assoc.
      by apply (header_fields MAGIC VERSION x00 s (lenN p)).
    - rewrite Ed, length_app, length_frame_of.
      unfold LEN_OFFSET, frame_len, FRAME_OVERHEAD, HEADER_LEN. lia. }
  rewrite Ed in Hp. unfold frame_of in Hp. rewrite <- !app_assoc in Hp.
  pose proof (header_fields MAGIC VERSION flags seq (lenN q)
    (q ++ le_bytes 4 (crc32c (header MAGIC VERSION flags seq (lenN q) ++ q)) ++ rest)
    eq_refl Hseq Hq) as (_ & _ & _ & E). rewrite E in Hp.
  unfold lenN, frame_len in *. lia.
Qed.

(** How many whole frames the first [k] bytes of a log hold. *)
Fixpoint whole_frames (k : nat) (ps : list bytes) : nat :=
  match ps with
  | [] => 0
  | p :: rest =>
      if bool_decide (frame_len (length p) <= k)%nat
      then S (whole_frames (k - frame_len (length p)) rest) else 0
  end.

(** Any prefix of a log is a log of its whole frames and a torn tail. *)
Lemma log_prefix max s ps k :
  log_bounds max s ps ->
  exists tail, take k (log_from s ps) = log_from s (take (whole_frames k ps) ps) ++ tail /\
    torn max tail.
Proof.
  revert s k. induction ps as [|p ps IH]; intros s k Hb; cbn [whole_frames log_from].
  - exists []. rewrite take_nil. split; [done|apply torn_nil].
  - apply log_bounds_cons in Hb as (Hp & H32 & H64 & Hb).
    pose proof (length_frame_of MAGIC VERSION x00 s p) as Hl. case_bool_decide as Hk.
    + destruct (IH (s + 1) (k - frame_len (length p))%nat Hb) as (tail & E & Ht).
      exists tail. split; [|done]. cbn [take log_from].
      rewrite take_app_ge by lia. by rewrite Hl, E, app_assoc.
    + exists (take k (frame_of MAGIC VERSION x00 s p)). split.
      * by rewrite take_app_le by lia.
      * apply frame_prefix_torn; [done|done|lia].
Qed.

Lemma log_bounds_take max s ps n : log_bounds max s ps -> log_bounds max s (take n ps).
Proof.
  intros [Hm Hf Hs]. constructor; [done|by apply Forall_take|].
  unfold lenN in *. rewrite length_take. lia.
Qed.

(** ** An open log *)

Record wal_ok (w : Wal) (ps : list bytes) : Prop := {
  wo_content : content (wal_file w) = log_from 0 ps;
  wo_cursor : cursor (wal_file w) = length (log_from 0 ps);
  wo_seq : next_seq w = lenN ps;
  wo_end : committed_end w = lenN (log_from 0 ps);
  wo_bounds : log_bounds (max_record_payload_len (wal_options w)) 0 ps;
}.

Lemma validate_payloads_fits max total ps t : validate_payloads max total ps = Ok t -> fits max ps.
Proof.
  revert total. induction ps as [|p ps IH]; intros total Hv; cbn [validate_payloads] in Hv; [constructor|].
  destruct (N.ltb_spec max (lenN p)); [done|].
  destruct (checked_add _ _ _); [|done]. constructor; [done|by eapply IH].
Qed.

Lemma encode_all_eq max s ps buf :
  max < 2 ^ 32 -> fits max ps ->
  encode_all max s ps buf = (buf ++ log_from s ps, Ok (s + lenN ps)).
Proof.
  intros Hm. revert s buf. induction ps as [|p ps IH]; intros s buf Hf; cbn [encode_all log_from].
  - rewrite app_nil_r. unfold lenN. simpl. by rewrite N.add_0_r.
  - inversion Hf as [|? ? Hp Hps]; subst. unfold encode_append.
    rewrite encode_frame_append_eq by lia. rewrite (proj2 (N.ltb_ge _ _) Hp).
    rewrite IH by done. rewrite <- app_assoc.
    by replace (s + lenN (p :: ps)) with (s + 1 + lenN ps) by (unfold lenN; cbn [length]; lia).
Qed.

(** Writing at the end of the bytes appends; cutting what was appended undoes it. *)
Lemma overwrite_end bs file : overwrite (length file) bs file = file ++ bs.
Proof.
  unfold overwrite. rewrite Nat.sub_diag. simpl. rewrite app_nil_r.
  by rewrite take_ge, drop_ge, app_nil_r by lia.
Qed.

Lemma set_length_prefix a b : set_length (length a) (a ++ b) = a.
Proof.
  unfold set_length. rewrite take_app_length, length_app.
  replace (length a - (length a + length b))%nat with 0%nat by lia. simpl. by rewrite app_nil_r.
Qed.

Lemma set_length_same a : set_length (length a) a = a.
Proof. pose proof (set_length_prefix a []) as E. by rewrite app_nil_r in E. Qed.

Lemma content_write_end bs f :
  cursor f = length (content f) -> content (file_write bs f) = content f ++ bs.
Proof. intros Hc. simpl. rewrite Hc. apply overwrite_end. Qed.

(** Cleaning up after a failed write of some of the new bytes. *)
Lemma discard_tail_ok io w ps bs buf :
  wal_ok w ps -> ai_set_len io = true -> ai_seek io = true ->
  wal_ok (set_file (discard_tail io (set_encode_buf buf w) (file_write bs (wal_file w)))
            (set_encode_buf buf w)) ps.
Proof.
  intros [Hc Hcur Hs He Hb] Hl Hk. unfold discard_tail. rewrite Hl, Hk. simpl.
  rewrite He. unfold lenN. rewrite Nat2N.id. constructor; simpl; try done.
  by rewrite Hcur, Hc, overwrite_end, set_length_prefix.
Qed.

Lemma discard_tail_content io w ps bs buf :
  wal_ok w ps ->
  exists k, content (discard_tail io (set_encode_buf buf w) (file_write bs (wal_file w))) =
    take (length (log_from 0 ps) + k) (log_from 0 ps ++ bs).
Proof.
  intros [Hc Hcur Hs He Hb]. unfold discard_tail. simpl.
  rewrite He. unfold lenN. rewrite Nat2N.id.
  assert (overwrite (cursor (wal_file w)) bs (content (wal_file w)) = log_from 0 ps ++ bs) as Ew
    by (by rewrite Hcur, Hc, overwrite_end).
  destruct (ai_set_len io).
  - exists 0%nat. rewrite Nat.add_0_r, take_app_length.
    destruct (ai_seek io); simpl; by rewrite Ew, set_length_prefix.
  - exists (length bs). rewrite take_ge by (rewrite length_app; lia). destruct (ai_seek io); simpl; by rewrite Ew.
Qed.

Lemma wal_ok_write w ps qs buf (synced : bool) :
  wal_ok w ps -> fits (max_record_payload_len (wal_options w)) qs -> lenN (ps ++ qs) < 2 ^ 64 ->
  let f := file_write (log_from (lenN ps) qs) (wal_file w) in
  wal_ok (mkWal (if synced then file_sync f else f) (lenN ps + lenN qs)
            (committed_end w + lenN (log_from (lenN ps) qs)) (wal_options w) buf) (ps ++ qs).
Proof.
  intros [Hc Hcur Hs He [Hm Hf _]] Hq H64 f.
  assert (content (if synced then file_sync f else f) = log_from 0 ps ++ log_from (lenN ps) qs) as Ef.
  { rewrite <- Hc. destruct synced; apply content_write_end; congruence. }
  assert (cursor (if synced then file_sync f else f) = (length (log_from 0 ps) + length (log_from (lenN ps) qs))%nat) as Ec
    by (rewrite <- Hcur; by destruct synced).
  rewrite He.
  pose proof (log_from_app 0 ps qs) as E. rewrite N.add_0_l in E.
  constructor; cbn [wal_file next_seq committed_end wal_options content cursor].
  - by rewrite E.
  - by rewrite E, length_app, Ec.
  - unfold lenN. rewrite length_app, Nat2N.inj_add. done.
  - rewrite E. unfold lenN. rewrite length_app, Nat2N.inj_add. done.
  - constructor; [done|by apply Forall_app|lia].
Qed.

(** Every outcome of [append_batch]. *)
Lemma append_batch_spec io qs w ps w' r :
  wal_ok w ps -> lenN (ps ++ qs) < 2 ^ 64 -> append_batch io qs w = (w', r) ->
  match r with
  | Ok (a, b) => wal_ok w' (ps ++ qs) /\ a = lenN ps /\ b = lenN (ps ++ qs)
  | Err _ =>
      (ai_set_len io = true -> ai_seek io = true -> wal_ok w' ps) /\
      exists k, content (wal_file w') = take (length (log_from 0 ps) + k) (log_from 0 (ps ++ qs)) /\
        (k = 0%nat \/ fits (max_record_payload_len (wal_options w)) qs)
  end.
Proof.
  intros Hw H64 Ha. pose proof (wo_seq w ps Hw) as Hs. pose proof (wo_bounds w ps Hw) as [Hm _ _].
  assert (forall w', wal_file w' = wal_file w -> exists k,
    content (wal_file w') = take (length (log_from 0 ps) + k) (log_from 0 (ps ++ qs)) /\
    (k = 0%nat \/ fits (max_record_payload_len (wal_options w)) qs)) as Hkeep.
  { intros w1 ->. exists 0%nat. rewrite (wo_content w ps Hw), log_from_app, Nat.add_0_r.
    rewrite take_app_length. auto. }
  destruct qs as [|q qs].
  { injection Ha as <- <-. rewrite app_nil_r. by rewrite <- Hs. }
  unfold append_batch in Ha. set (qs' := q :: qs) in *.
  destruct (validate_payloads _ 0 qs') as [t|e] eqn:Hv; [|injection Ha as <- <-; auto].
  apply validate_payloads_fits in Hv. rewrite encode_all_eq in Ha by done. rewrite Hs in Ha.
  rewrite app_nil_l in Ha.
  assert (forall j, exists k, content (discard_tail io (set_encode_buf (log_from (lenN ps) qs') w)
    (file_write (take j (log_from (lenN ps) qs')) (wal_file w))) =
    take (length (log_from 0 ps) + k) (log_from 0 (ps ++ qs')) /\
    (k = 0%nat \/ fits (max_record_payload_len (wal_options w)) qs')) as Htail.
  { intros j. destruct (discard_tail_content io w ps (take j (log_from (lenN ps) qs'))
      (log_from (lenN ps) qs') Hw) as [k ->]. exists (Nat.min k j).
    rewrite log_from_app, N.add_0_l, !take_app_add, take_take. split; [by do 2 f_equal|auto]. }
  destruct (ai_write io) as [j|].
  { apply pair_equal_spec in Ha as [<- <-]. split; [intros; by apply (discard_tail_ok io w ps)|apply Htail]. }
  cbn [wal_options set_encode_buf] in Ha. destruct (_ && _).
  - apply pair_equal_spec in Ha as [<- <-]. split; [intros; by apply (discard_tail_ok io w ps)|].
    specialize (Htail (length (log_from (lenN ps) qs'))). by rewrite firstn_all in Htail.
  - apply pair_equal_spec in Ha as [<- <-]. split; [by apply (wal_ok_write w ps)|].
    unfold lenN. rewrite length_app. cbn [next_seq set_encode_buf]. rewrite Hs. unfold lenN. lia.
Qed.

(** ** Opening *)

Lemma length_log_ge s ps : (length ps <= length (log_from s ps))%nat.
Proof.
  revert s. induction ps as [|p ps IH]; intros s; [done|]. rewrite length_log_from_cons.
  cbn [length]. specialize (IH (s + 1)). unfold frame_len, FRAME_OVERHEAD, HEADER_LEN. lia.
Qed.

Definition no_open_faults (io : OpenIo) : Prop :=
  oi_open io = true /\ oi_lock io = true /\ (Failed ∉ oi_reads io) /\ oi_metadata io = true /\
  oi_set_len io = true /\ oi_sync_all io = true /\ oi_seek_end io = true.

(** Nothing is in the page cache only. *)
Definition flushed_file (f : File) : Prop := on_disk f = content f /\ unflushed f = [].

(** Opening keeps the records before a torn tail and cuts the tail off; all of it is on the
    disk. *)
Lemma open_log io ps tail opts :
  no_open_faults io -> log_bounds (max_record_payload_len opts) 0 ps ->
  torn (max_record_payload_len opts) tail ->
  exists w, open io (log_from 0 ps ++ tail) opts =
      (log_from 0 ps, Ok (w, mkRecovery (lenN ps) (lenN tail) (lenN ps))) /\
    wal_options w = opts /\ wal_ok w ps /\ flushed_file (wal_file w).
Proof.
  intros (Ho & Hl & Hr & Hme & Hsl & Hsy & Hsk) Hb Ht. unfold open.
  rewrite Ho, Hl, Hme, Hsl, Hsy, Hsk. cbn [negb].
  rewrite (open_loop_log _ _ _ 0 0 0 ps tail) by
    (done || (rewrite length_app; pose proof (length_log_ge 0 ps); lia)).
  rewrite !N.add_0_l, !andb_false_r.
  replace (saturating_sub (lenN (log_from 0 ps ++ tail)) (lenN (log_from 0 ps))) with (lenN tail)
    by (unfold saturating_sub, lenN; rewrite length_app; lia).
  replace (N.to_nat (lenN (log_from 0 ps))) with (length (log_from 0 ps)) by (unfold lenN; lia).
  set (file := if 0 <? lenN tail then _ else file_found _).
  assert ((if 0 <? lenN tail then file_sync file else file) = file_found (log_from 0 ps)) as Ef.
  { unfold file, file_sync, file_found. destruct (N.ltb_spec 0 (lenN tail)) as [Hlt|Hge].
    - simpl. by rewrite set_length_prefix.
    - destruct tail; [by rewrite app_nil_r|]. unfold lenN in Hge. cbn [length] in Hge. lia. }
  rewrite Ef. eexists. split; [reflexivity|]. split; [done|]. split; [by constructor|done].
Qed.

Lemma append_batch_options io qs w : wal_options (append_batch io qs w).1 = wal_options w.
Proof.
  unfold append_batch. destruct qs as [|q qs]; [done|].
  destruct (validate_payloads _ _ _); [|done]. destruct (encode_all _ _ _ _) as [buf [c|e]]; [|done].
  destruct (ai_write io); [done|]. by destruct (_ && _).
Qed.

Lemma whole_frames_log s ps qs k :
  exists j, whole_frames (length (log_from s ps) + k) (ps ++ qs) = (length ps + j)%nat.
Proof.
  revert s. induction ps as [|p ps IH]; intros s.
  - simpl. eauto.
  - rewrite length_log_from_cons. cbn [app whole_frames]. rewrite bool_decide_true by lia.
    replace (frame_len (length p) + length (log_from (s + 1) ps) + k - frame_len (length p))%nat
      with (length (log_from (s + 1) ps) + k)%nat by lia.
    destruct (IH (s + 1)) as [j ->]. exists j. done.
Qed.

(** Reopening a log with some of the bytes of a refused batch: the records before it, and at
    most a prefix of the batch. *)
Lemma open_partial oio opts ps qs k :
  no_open_faults oio -> log_bounds (max_record_payload_len opts) 0 ps ->
  k = 0%nat \/ fits (max_record_payload_len opts) qs -> lenN (ps ++ qs) < 2 ^ 64 ->
  exists j w2 r, open oio (take (length (log_from 0 ps) + k) (log_from 0 (ps ++ qs))) opts =
      (log_from 0 (ps ++ take j qs), Ok (w2, r)) /\ wal_ok w2 (ps ++ take j qs).
Proof.
  intros Hoio Hb0 [-> | Hq] H64.
  { rewrite Nat.add_0_r, log_from_app, take_app_length.
    destruct (open_log oio ps [] opts Hoio Hb0 (torn_nil _)) as (w2 & Eo & _ & Hw2 & _).
    rewrite app_nil_r in Eo. exists 0%nat, w2. cbn [take]. rewrite app_nil_r. eauto. }
  destruct Hb0 as [Hm Hf _].
  assert (log_bounds (max_record_payload_len opts) 0 (ps ++ qs)) as Hb
    by (constructor; [done|by apply Forall_app|by rewrite N.add_0_l]).
  destruct (log_prefix _ 0 (ps ++ qs) (length (log_from 0 ps) + k) Hb) as (tail & E & Ht).
  destruct (whole_frames_log 0 ps qs k) as [j Hj]. rewrite Hj, take_app_add in E. rewrite E.
  destruct (open_log oio (ps ++ take j qs) tail opts Hoio) as (w2 & Eo & _ & Hw2 & _);
    [|done|by eauto].
  rewrite <- (take_app_add ps qs j). by apply log_bounds_take.
Qed.

(** Reopening after a failed append. *)
Lemma append_err_open io qs w ps w' e oio :
  wal_ok w ps -> lenN (ps ++ qs) < 2 ^ 64 -> append_batch io qs w = (w', Err e) ->
  no_open_faults oio ->
  exists j w2 r, open oio (content (wal_file w')) (wal_options w) =
      (log_from 0 (ps ++ take j qs), Ok (w2, r)) /\ wal_ok w2 (ps ++ take j qs).
Proof.
  intros Hw H64 Ha Hoio. pose proof (append_batch_spec io qs w ps w' (Err e) Hw H64 Ha) as [_ (k & -> & Hk)].
  apply open_partial; [done|by apply wo_bounds|done..].
Qed.

(** ** Reading back *)

Fixpoint records_from (s : N) (ps : list bytes) : list WalRecord :=
  match ps with [] => [] | p :: rest => mkWalRecord s p :: records_from (s + 1) rest end.

(** A stream over the rest of a committed log, before its next record. *)
Record stream_at (st : RecordStream) (s : N) (ps : list bytes) : Prop := {
  sa_benign : benign (st_reader st);
  sa_data : rd_data (st_reader st) = log_from s ps;
  sa_seq : current_seq st = s;
  sa_expected : expected_next_seq st = s + lenN ps;
  sa_bounds : log_bounds (st_max_payload_len st) s ps;
  sa_open : finished st = false;
  sa_seek : seek_restored st = false;
}.

Lemma stream_next_end st s seek_ok :
  stream_at st s [] ->
  exists st', stream_next seek_ok st =
    (st', if seek_ok then None else Some (Err (WalIo "seek_end"))) /\ seek_restored st' = seek_ok.
Proof.
  intros [Hrd Hd Hc He _ Hf Hk]. unfold stream_next. rewrite Hf, Hc, He. unfold lenN. simpl length.
  rewrite N.add_0_r, N.ltb_irrefl.
  destruct (next_record_benign (st_reader st) (st_max_payload_len st) false Hrd) as (rd' & _ & E & _).
  cbn [st_reader st_max_payload_len stream_finish]. rewrite E, Hd.
  change (scan _ false (log_from s [])) with ScanEnd. cbn [seek_restored stream_finish]. rewrite Hk.
  destruct seek_ok; eexists; split; (reflexivity || done).
Qed.

Lemma stream_next_record st s p ps seek_ok :
  stream_at st s (p :: ps) ->
  exists st', stream_next seek_ok st = (st', Some (Ok (mkWalRecord s p))) /\ stream_at st' (s + 1) ps.
Proof.
  intros [Hrd Hd Hc He Hb Hf Hk]. unfold stream_next. rewrite Hf, Hc, He.
  rewrite (proj2 (N.ltb_lt _ _)) by (unfold lenN; cbn [length]; lia).
  destruct (next_record_benign (st_reader st) (st_max_payload_len st) true Hrd)
    as (rd' & Hrd' & E & Hd').
  rewrite E. rewrite Hd in *. pose proof (scan_log _ true s p ps [] Hb) as Hs.
  rewrite app_nil_r in Hs. rewrite Hs in *. rewrite N.eqb_refl. cbn [negb].
  eexists. split; [reflexivity|]. specialize (Hd' _ _ _ eq_refl).
  pose proof (drop_log s p ps [] (HEADER_LEN + N.to_nat (lenN p) + TRAILER_LEN)) as Hdl.
  rewrite !app_nil_r in Hdl. rewrite Hdl in Hd' by (unfold lenN; lia).
  apply log_bounds_cons in Hb as (_ & _ & _ & Hb).
  constructor; cbn [stream_advance st_reader current_seq expected_next_seq st_max_payload_len
    finished seek_restored]; try done; [lia|].
  rewrite He. unfold lenN. cbn [length]. lia.
Qed.

Lemma collect_stream fuel st s ps seek_ok acc :
  stream_at st s ps -> (length ps < fuel)%nat ->
  exists st', collect fuel seek_ok st acc =
    (st', if seek_ok then Ok (acc ++ records_from s ps) else Err (WalIo "seek_end")) /\
    seek_restored st' = seek_ok.
Proof.
  revert st s ps acc. induction fuel as [|fuel IH]; intros st s ps acc Hst Hf; [lia|].
  cbn [collect]. destruct ps as [|p ps].
  - destruct (stream_next_end st s seek_ok Hst) as (st' & -> & Hk).
    exists st'. cbn [records_from]. rewrite app_nil_r. by destruct seek_ok.
  - destruct (stream_next_record st s p ps seek_ok Hst) as (st' & -> & Hst').
    destruct (IH st' (s + 1) ps (acc ++ [mkWalRecord s p]) Hst') as (st2 & -> & Hk);
      [simpl in Hf; lia|].
    exists st2. by rewrite <- app_assoc.
Qed.

Lemma read_records_log io w ps :
  wal_ok w ps -> ri_seek_start io = true -> (Failed ∉ ri_reads io) -> ri_seek_end io = true ->
  exists w', read_records io w = (w', Ok (records_from 0 ps)) /\ wal_ok w' ps.
Proof.
  intros Hw Hss Hr Hse. pose proof Hw as [Hc Hcur Hs He Hb].
  unfold read_records, stream_records. rewrite Hss. cbn [negb].
  set (st := mkStream _ _ _ _ _ _ _).
  assert (stream_at st 0 ps) as Hst.
  { constructor; simpl; try done. }
  destruct (collect_stream (S (S (N.to_nat (next_seq w)))) st 0 ps (ri_seek_end io) [] Hst)
    as (st' & -> & Hk); [rewrite Hs; unfold lenN; lia|].
  rewrite Hk, Hse. eexists. split; [reflexivity|]. rewrite He. unfold lenN. rewrite Nat2N.id.
  by constructor.
Qed.

End wal.
