(* ===== verification/WalDurable.v ===== *)
(** * Appends and power failures

    Sequences of appends over a disk with a page cache: what may be in the cache only, and what
    a power failure leaves of the log. *)

From S2P Require Import Prelude Bytes WalRecord WalScan Wal WalInv.

Section durable.
Context `{Crc32c}.

(** ** Sequences of appends *)

(** The batches given to [append_batch], each with the outcomes of its calls, and what it
    returned for each. *)
Fixpoint append_all (calls : list (AppendIo * list bytes)) (w : Wal) :
    Wal * list (list bytes * result WalError (N * N)) :=
  match calls with
  | [] => (w, [])
  | (io, qs) :: rest =>
      let '(w, r) := append_batch io qs w in
      let '(w, answers) := append_all rest w in (w, (qs, r) :: answers)
  end.

(** The records acknowledged, and the batches refused. *)
Definition acknowledged (answers : list (list bytes * result WalError (N * N))) : list bytes :=
  concat (fst <$> filter (fun a => is_ok a.2) answers).
Definition refused (answers : list (list bytes * result WalError (N * N))) : list (list bytes) :=
  fst <$> filter (fun a => negb (is_ok a.2)) answers.

(** The clean-up after a failure, should there be one, succeeds. *)
Definition cleans (call : AppendIo * list bytes) : Prop := ai_set_len call.1 = true /\ ai_seek call.1 = true.

Lemma append_all_app calls calls' w :
  append_all (calls ++ calls') w =
    let '(w1, a1) := append_all calls w in let '(w2, a2) := append_all calls' w1 in (w2, a1 ++ a2).
Proof.
  revert w. induction calls as [|[io qs] calls IH]; intros w; simpl; [by destruct (append_all calls' w)|].
  destruct (append_batch io qs w) as [w1 r]. rewrite IH. destruct (append_all calls w1) as [w2 a].
  by destruct (append_all calls' w2).
Qed.

Lemma acknowledged_app a b : acknowledged (a ++ b) = acknowledged a ++ acknowledged b.
Proof. unfold acknowledged. by rewrite filter_app, fmap_app, concat_app. Qed.
Lemma refused_app a b : refused (a ++ b) = refused a ++ refused b.
Proof. unfold refused. by rewrite filter_app, fmap_app. Qed.

Lemma acknowledged_cons qs r a : acknowledged ((qs, r) :: a) = (if is_ok r then qs else []) ++ acknowledged a.
Proof. unfold acknowledged. rewrite filter_cons. by destruct r. Qed.
Lemma refused_cons qs r a : refused ((qs, r) :: a) = (if is_ok r then [] else [qs]) ++ refused a.
Proof. unfold refused. rewrite filter_cons. by destruct r. Qed.

(** ** The page cache of a log *)

(** Writes at the end of the log, each undone again. *)
Definition undone (n : nat) (bss : list bytes) : list FileOp :=
  concat ((fun bs => [OpWrite n bs; OpSetLen n]) <$> bss).

Lemma undone_app n a b : undone n (a ++ b) = undone n a ++ undone n b.
Proof. unfold undone. by rewrite fmap_app, concat_app. Qed.

Lemma append_undone log bs : file_op (file_op log (OpWrite (length log) bs)) (OpSetLen (length log)) = log.
Proof. simpl. by rewrite overwrite_end, set_length_prefix. Qed.

(** A power failure among such writes, and perhaps one that is not undone, leaves the log and some
    bytes of one of them. *)
Lemma reached_undone log bss last k j :
  (length last <= 1)%nat ->
  exists bs i, bs ∈ [] :: bss ++ last /\
    foldl file_op log (reached k j (undone (length log) bss ++ (OpWrite (length log) <$> last))) = log ++ take i bs.
Proof.
  intros Hlast. revert k. induction bss as [|b bss IH]; intros k.
  - destruct last as [|b [|]]; simpl in Hlast; [|clear Hlast|lia].
    + exists [], 0%nat. split; [left|]. unfold reached, undone. by destruct k; simpl; rewrite app_nil_r.
    + exists b. destruct k as [|k]; unfold reached; simpl.
      * exists j. rewrite overwrite_end. split; [right; left|done].
      * exists (length b). rewrite firstn_all. split; [right; left|]. by destruct k; simpl; rewrite overwrite_end.
  - change (undone (length log) (b :: bss)) with (OpWrite (length log) b :: OpSetLen (length log) :: undone (length log) bss).
    destruct k as [|[|k]].
    + exists b, j. unfold reached. simpl. rewrite overwrite_end. split; [right; left|done].
    + exists b, (length b). unfold reached. simpl. rewrite overwrite_end, firstn_all. split; [right; left|done].
    + destruct (IH k) as (bs & i & Hin & E). exists bs, i. split; [set_solver|].
      unfold reached in *. cbn [take app foldl]. rewrite append_undone. exact E.
Qed.

(** Some bytes of a batch that was refused. *)
Definition piece (max : N) (ps : list bytes) (batches : list (list bytes)) (bs : bytes) : Prop :=
  exists qs j, qs ∈ batches /\ fits max qs /\ lenN (ps ++ qs) < 2 ^ 64 /\ bs = take j (log_from (lenN ps) qs).

(** A log whose records [ps] are on the disk, with pieces of batches written and undone in
    the cache, and perhaps a last one that is still there. *)
Record cached (f : File) (max : N) (ps : list bytes) (batches : list (list bytes)) (last : list bytes) : Prop := {
  ca_disk : on_disk f = log_from 0 ps;
  ca_last : (length last <= 1)%nat;
  ca_ops : exists bss, unflushed f = undone (length (log_from 0 ps)) bss ++ (OpWrite (length (log_from 0 ps)) <$> last) /\
    Forall (piece max ps batches) (bss ++ last);
}.

Lemma piece_mono max ps batches batches' bs : batches ⊆ batches' -> piece max ps batches bs -> piece max ps batches' bs.
Proof. intros Hb (qs & j & ? & ?). exists qs, j. split; [by apply Hb|done]. Qed.

Lemma cached_mono f max ps batches batches' last :
  batches ⊆ batches' -> cached f max ps batches last -> cached f max ps batches' last.
Proof.
  intros Hb [Hd Hl (bss & Hu & Hp)]. constructor; [done|done|]. exists bss. split; [done|].
  eapply Forall_impl; [done|]. intros bs. by apply piece_mono.
Qed.

Lemma cached_flushed f max ps : content f = log_from 0 ps -> flushed_file f -> cached f max ps [] [].
Proof. intros Hc [Hd Hu]. constructor; [congruence|simpl; lia|]. exists []. split; [done|constructor]. Qed.

(** What the power leaves of a log. *)
Lemma cached_power_cut f max ps batches last disk :
  log_bounds max 0 ps -> cached f max ps batches last -> power_cut f disk ->
  exists qs k, qs ∈ [] :: batches /\ fits max qs /\ lenN (ps ++ qs) < 2 ^ 64 /\
    disk = take (length (log_from 0 ps) + k) (log_from 0 (ps ++ qs)).
Proof.
  intros [_ _ H64] [Hd Hl (bss & Hu & Hp)] (k & j & ->). rewrite Hd, Hu.
  destruct (reached_undone (log_from 0 ps) bss last k j Hl) as (bs & i & Hin & ->).
  apply elem_of_cons in Hin as [->|Hin].
  - exists [], 0%nat. split_and!; [left|constructor|by rewrite app_nil_r|].
    by rewrite app_nil_r, take_nil, app_nil_r, Nat.add_0_r, firstn_all.
  - rewrite Forall_forall in Hp. destruct (Hp bs Hin) as (qs & j' & Hqs & Hf & Hfit & ->).
    exists qs, (Nat.min i j'). split_and!; [by right|done|done|].
    by rewrite log_from_app, N.add_0_l, take_app_add, take_take.
Qed.

(** ** One append *)

Lemma append_cached io qs w ps batches w' r (max := max_record_payload_len (wal_options w)) :
  sync_per_append (wal_options w) = true -> wal_ok w ps -> lenN (ps ++ qs) < 2 ^ 64 ->
  cached (wal_file w) max ps batches [] -> append_batch io qs w = (w', r) ->
  match r with
  | Ok _ => wal_ok w' (ps ++ qs) /\ cached (wal_file w') max (ps ++ qs) batches []
  | Err _ => exists last, cached (wal_file w') max ps (batches ++ [qs]) last /\
      (cleans (io, qs) -> wal_ok w' ps /\ last = [])
  end.
Proof.
  intros Hsync Hw H64 Hc Ha. pose proof (append_batch_spec io qs w ps w' r Hw H64 Ha) as Hspec.
  pose proof (wo_seq w ps Hw) as Hs. pose proof (wo_bounds w ps Hw) as [Hm _ _].
  assert (cached (wal_file w) max ps (batches ++ [qs]) []) as Hc' by (apply (cached_mono _ _ _ batches); [set_solver|done]).
  destruct qs as [|q qs].
  { injection Ha as <- <-. rewrite app_nil_r in *. split; [by apply Hspec|done]. }
  unfold append_batch in Ha. set (qs' := q :: qs) in *.
  destruct (validate_payloads _ 0 qs') as [t|e] eqn:Hv.
  2: { injection Ha as <- <-. exists []. split; [done|]. by intros [? ?]. }
  apply validate_payloads_fits in Hv. rewrite encode_all_eq in Ha by done. rewrite Hs, app_nil_l in Ha.
  set (n := length (log_from 0 ps)).
  assert (forall j, exists last, cached (discard_tail io (set_encode_buf (log_from (lenN ps) qs') w)
      (file_write (take j (log_from (lenN ps) qs')) (wal_file w))) max ps (batches ++ [qs']) last /\
      (cleans (io, qs') -> last = [])) as Hfail.
  { intros j. destruct Hc' as [Hd _ (bss & Hu & Hp)]. simpl in Hu. rewrite app_nil_r in Hu, Hp.
    set (bs := take j (log_from (lenN ps) qs')).
    assert (piece max ps (batches ++ [qs']) bs) as Hbs by (exists qs', j; split_and!; [apply elem_of_app; right; by left|done..]).
    assert (N.to_nat (committed_end w) = n) as Hn by (rewrite (wo_end w ps Hw); unfold lenN, n; lia).
    unfold discard_tail. cbn [set_encode_buf committed_end]. rewrite Hn. destruct (ai_set_len io) eqn:El.
    - exists []. split; [|done]. constructor; [by destruct (ai_seek io)|simpl; lia|]. exists (bss ++ [bs]). split.
      + destruct (ai_seek io); simpl; rewrite Hu, (wo_cursor w ps Hw), undone_app, app_nil_r, <- app_assoc; done.
      + rewrite app_nil_r. apply Forall_app. by rewrite Forall_singleton.
    - exists [bs]. split; [|by intros [E _]; simpl in E; rewrite El in E].
      constructor; [by destruct (ai_seek io)|simpl; lia|]. exists bss. split.
      + destruct (ai_seek io); simpl; by rewrite Hu, (wo_cursor w ps Hw).
      + apply Forall_app. by rewrite Forall_singleton. }
  destruct (ai_write io) as [j|].
  { apply pair_equal_spec in Ha as [<- <-]. destruct (Hfail j) as (last & ? & ?). exists last. split; [done|].
    intros Hcl. split; [by apply Hspec; apply Hcl|auto]. }
  cbn [wal_options set_encode_buf] in Ha. rewrite Hsync in Ha. destruct (ai_sync io); simpl in Ha.
  - apply pair_equal_spec in Ha as [<- <-]. destruct Hspec as (Hw' & _ & _). split; [done|].
    apply (cached_mono _ _ _ []); [set_solver|apply cached_flushed; [apply Hw'|done]].
  - apply pair_equal_spec in Ha as [<- <-]. destruct (Hfail (length (log_from (lenN ps) qs'))) as (last & Hl & ?).
    rewrite firstn_all in Hl. exists last. split; [exact Hl|]. intros Hcl. split; [by apply Hspec; apply Hcl|auto].
Qed.

(** ** All of them *)

Lemma append_all_cached calls w ps batches w' answers (max := max_record_payload_len (wal_options w)) :
  sync_per_append (wal_options w) = true -> wal_ok w ps -> lenN (ps ++ concat calls.*2) < 2 ^ 64 ->
  cached (wal_file w) max ps batches [] -> Forall cleans calls -> append_all calls w = (w', answers) ->
  wal_ok w' (ps ++ acknowledged answers) /\ wal_options w' = wal_options w /\
  lenN (acknowledged answers) <= lenN (concat calls.*2) /\
  cached (wal_file w') max (ps ++ acknowledged answers) (batches ++ refused answers) [].
Proof.
  revert w ps batches answers max. induction calls as [|[io qs] calls IH]; intros w ps batches answers max Hsync Hw H64 Hc Hcl Ha.
  { injection Ha as <- <-. by rewrite !app_nil_r. }
  cbn [append_all] in Ha. destruct (append_batch io qs w) as [w1 r] eqn:E1.
  destruct (append_all calls w1) as [w2 rest] eqn:E2. injection Ha as <- <-.
  inversion Hcl as [|? ? Hcl1 Hcl2]; subst. cbn [fmap list_fmap concat snd] in H64.
  pose proof (append_batch_options io qs w) as Ho. rewrite E1 in Ho. simpl in Ho.
  assert (lenN (ps ++ qs) < 2 ^ 64) as H64q by (unfold lenN in *; rewrite !length_app in *; lia).
  pose proof (append_cached io qs w ps batches w1 r Hsync Hw H64q Hc E1) as Hone.
  rewrite acknowledged_cons, refused_cons. cbn [fmap list_fmap concat snd]. destruct r as [ab|e]; cbn [is_ok app].
  - destruct Hone as [Hw1 Hc1].
    destruct (IH w1 (ps ++ qs) batches rest) as (? & ? & ? & Hc2);
      [by rewrite Ho|done|by rewrite <- app_assoc|by rewrite Ho|done|done|].
    rewrite <- app_assoc in *. rewrite Ho in *. split_and!; [done|done| |done]. unfold lenN in *. rewrite !length_app. lia.
  - destruct Hone as (last & Hc1 & Hlast). destruct (Hlast Hcl1) as [Hw1 ->].
    destruct (IH w1 ps (batches ++ [qs]) rest) as (? & ? & ? & Hc2);
      [by rewrite Ho|done| |by rewrite Ho|done|done|].
    { unfold lenN in *. rewrite !length_app in *. lia. }
    rewrite Ho in *. rewrite <- app_assoc in Hc2. split_and!; [done|done| |done]. unfold lenN in *. rewrite length_app. lia.
Qed.

End durable.
