(* ===== verification/WalSnapshot.v ===== *)
(** * Checkpoint snapshots

    [crates/wal/src/snapshot.rs]: a snapshot is one frame under its own magic,
    written to a temporary file, flushed and renamed into place.  [save] is a program of
    file system calls over a directory with a cache, whose run keeps every state of the
    directory on the way, so that a power failure can strike between any two calls. *)

From S2P Require Import Prelude Bytes WalRecord.

Definition SNAP_MAGIC : N := le_val [x4c; x54; x53; x4e].

Record Snapshot : Type := mkSnapshot { last_seq : N; snap_payload : bytes }.

(** ** The directory and its cache

    A file is what a read returns, and whether all of it has been flushed to the disk.
    The directory has the file at the snapshot path, what stood there before the renames
    that have not been flushed, and the temporary file. *)
Record SnapFile : Type := mkSnapFile { snap_bytes : bytes; flushed : bool }.
Record SnapDir : Type := mkSnapDir {
  snap_path : option SnapFile; replaced : list (option SnapFile); tmp_path : option SnapFile;
}.

(** What a power failure leaves: at the snapshot path the file or, as long as a rename is
    not flushed, one from before it; of a file that is not flushed any bytes at all. *)
Definition left_of (f f' : option SnapFile) : Prop :=
  match f, f' with
  | None, None => True
  | Some f, Some f' => flushed f = true -> snap_bytes f' = snap_bytes f
  | _, _ => False
  end.

Definition power_failure (d d' : SnapDir) : Prop :=
  exists f, f ∈ snap_path d :: replaced d /\ left_of f (snap_path d').

(** The calls of [save], each of which may fail: the write after some bytes, and the
    deletion of the temporary file and the sync of the directory without a trace. *)
Record SaveIo : Type := mkSaveIo {
  si_open_tmp : bool; si_write : option nat; si_sync : bool; si_persist : bool;
  si_delete : bool; si_sync_dir : bool;
}.

(** A run keeps the directory as it is now and all it has been on the way. *)
Record SnapRun : Type := mkSnapRun { here : SnapDir; passed : list SnapDir }.
Definition snap_io := st SnapRun WalError.

Definition changes (f : SnapDir -> SnapDir) : snap_io unit :=
  fun r => let d := f (here r) in (mkSnapRun d (passed r ++ [d]), Ok tt).
Definition attempt (ok : bool) (op : string) (f : SnapDir -> SnapDir) : snap_io unit :=
  if ok then changes f else st_fail (WalIo op).

Definition set_tmp (t : option SnapFile) (d : SnapDir) : SnapDir := mkSnapDir (snap_path d) (replaced d) t.

Definition create_tmp (io : SaveIo) : snap_io unit :=
  attempt (si_open_tmp io) "open_tmp" (set_tmp (Some (mkSnapFile [] true))).
(** Bytes at the end of the temporary file, in the cache. *)
Definition extend_tmp (bs : bytes) (d : SnapDir) : SnapDir :=
  set_tmp ((fun f => mkSnapFile (snap_bytes f ++ bs) false) <$> tmp_path d) d.
Definition write_tmp (io : SaveIo) (bs : bytes) : snap_io unit :=
  match si_write io with
  | None => changes (extend_tmp bs)
  | Some j => st_bind (changes (extend_tmp (take j bs))) (fun _ => st_fail (WalIo "write_tmp"))
  end.
Definition sync_tmp (io : SaveIo) : snap_io unit :=
  attempt (si_sync io) "sync_tmp" (fun d => set_tmp ((fun f => mkSnapFile (snap_bytes f) true) <$> tmp_path d) d).
(** [tmp.persist(path)] is a rename. *)
Definition persist (io : SaveIo) : snap_io unit :=
  attempt (si_persist io) "persist_snapshot" (fun d => mkSnapDir (tmp_path d) (snap_path d :: replaced d) None).
Definition sync_dir (io : SaveIo) : snap_io unit :=
  if si_sync_dir io then changes (fun d => mkSnapDir (snap_path d) [] (tmp_path d)) else st_ret tt.

(** The drop handler of the temporary file deletes it when an error returns early. *)
Definition dropping_tmp {A} (io : SaveIo) (body : snap_io A) : snap_io A := fun r =>
  match body r with
  | (r', Err e) => ((if si_delete io then (changes (set_tmp None) r').1 else r'), Err e)
  | res => res
  end.

Section snapshot.
Context `{Crc32c} (max_payload_len : N).
#[local] Open Scope st_scope.

(** [SnapshotFile::save]. *)
Definition save (io : SaveIo) (seq : N) (payload : bytes) : snap_io unit :=
  reject? max_payload_len <? lenN payload with PayloadTooLarge (lenN payload) max_payload_len;
  do? create_tmp io;
  do? dropping_tmp io (
    let? frame := st_reads (fun _ => encode_frame SNAP_MAGIC VERSION seq payload max_payload_len) in
    do? write_tmp io frame;
    do? sync_tmp io;
    persist io);
  sync_dir io.

(** Outcomes of [load]: opening an existing file and reading it. *)
Record LoadIo : Type := mkLoadIo { li_open : bool; li_read : bool }.

(** [SnapshotFile::load]. *)
Definition load (io : LoadIo) (dir : SnapDir) : result WalError (option Snapshot) :=
  match snap_path dir with
  | None => Ok None
  | Some file =>
      if negb (li_open io) then Err (WalIo "open_snapshot")
      else if negb (li_read io) then Err (WalIo "read_snapshot")
      else
        match decode_frame_with SNAP_MAGIC VERSION (snap_bytes file) max_payload_len with
        | Err _ => Ok None
        | Ok (seq, payload_len) =>
            Ok (Some (mkSnapshot seq (slice HEADER_LEN (N.to_nat payload_len) (snap_bytes file))))
        end
  end.

(** ** What is saved is what is loaded *)

Hypothesis Hmax : max_payload_len < 2 ^ 32.

Lemma encode_frame_eq magic seq payload :
  encode_frame magic VERSION seq payload max_payload_len =
    if max_payload_len <? lenN payload then Err (PayloadTooLarge (lenN payload) max_payload_len)
    else Ok (frame_of magic VERSION x00 seq payload).
Proof.
  unfold encode_frame, encode_frame_into. destruct (N.ltb_spec max_payload_len (lenN payload)) as [Hlt|Hle].
  - unfold encode_frame_append. by rewrite (proj2 (N.ltb_lt _ _) Hlt).
  - rewrite encode_frame_append_eq by lia. by rewrite (proj2 (N.ltb_ge _ _) Hle).
Qed.

Lemma slice_frame magic version flags seq payload :
  slice HEADER_LEN (N.to_nat (lenN payload)) (frame_of magic version flags seq payload) = payload.
Proof.
  unfold frame_of, slice. rewrite <- app_assoc.
  rewrite <- (length_header magic version flags seq (lenN payload)), drop_app_length.
  unfold lenN. rewrite Nat2N.id. apply take_app_length.
Qed.

Lemma load_frame io seq payload dir fl :
  li_open io = true -> li_read io = true -> lenN payload <= max_payload_len -> seq < 2 ^ 64 ->
  snap_path dir = Some (mkSnapFile (frame_of SNAP_MAGIC VERSION x00 seq payload) fl) ->
  load io dir = Ok (Some (mkSnapshot seq payload)).
Proof.
  intros Ho Hr Hp Hs E. unfold load. rewrite E, Ho, Hr. cbn [negb snap_bytes].
  rewrite decode_frame_with_complete by (done || lia). by rewrite slice_frame.
Qed.

(** A loaded snapshot was framed: nothing else passes validation. *)
Lemma load_sound io dir s :
  load io dir = Ok (Some s) ->
  exists flags, snap_bytes <$> snap_path dir =
    Some (frame_of SNAP_MAGIC VERSION flags (last_seq s) (snap_payload s)) /\
    lenN (snap_payload s) <= max_payload_len.
Proof.
  unfold load. destruct (snap_path dir) as [file|]; [|done].
  destruct (li_open io), (li_read io); cbn [negb]; try done.
  destruct (decode_frame_with _ _ (snap_bytes file) _) as [[seq len]|e] eqn:Hd; [|done]. intros [= <-].
  apply decode_frame_with_sound in Hd as (flags & payload & E & -> & Hle & _).
  exists flags. cbn [last_seq snap_payload fmap option_fmap option_map]. by rewrite E, slice_frame.
Qed.

(** [load] looks at the bytes only. *)
Lemma load_ext io d d' : snap_bytes <$> snap_path d = snap_bytes <$> snap_path d' -> load io d = load io d'.
Proof. unfold load. destruct (snap_path d), (snap_path d'); simpl; congruence || (by intros [= ->]). Qed.

(** ** A save, moment by moment *)

Section moments.
Context (seq : N) (payload : bytes) (dir : SnapDir).

Definition new_file : SnapFile := mkSnapFile (frame_of SNAP_MAGIC VERSION x00 seq payload) true.

(** Before the rename nothing at the snapshot path has changed; after it, the path has the new
    file, all of it flushed. *)
Definition untouched (d : SnapDir) : Prop := snap_path d = snap_path dir /\ replaced d = replaced dir.
Definition renamed (d : SnapDir) : Prop :=
  snap_path d = Some new_file /\ (replaced d = snap_path dir :: replaced dir \/ replaced d = []).

Lemma save_moments io r d :
  save io seq payload (mkSnapRun dir []) = (r, d) ->
  (here r ∈ dir :: passed r) /\ (forall m, m ∈ passed r -> untouched m \/ (lenN payload <= max_payload_len /\ renamed m)) /\
  match d with
  | Ok _ => lenN payload <= max_payload_len /\ renamed (here r) /\ (si_sync_dir io = true -> replaced (here r) = [])
  | Err _ => untouched (here r)
  end.
Proof using Hmax.
  unfold save. destruct (N.ltb_spec max_payload_len (lenN payload)) as [|Hle].
  { intros [= <- <-]. split_and!; [left|by intros m ?%elem_of_nil|done]. }
  unfold create_tmp, write_tmp, sync_tmp, persist, sync_dir, attempt, changes, dropping_tmp, st_bind, st_reads, st_fail.
  rewrite encode_frame_eq, (proj2 (N.ltb_ge _ _) Hle).
  destruct io as [[] [j|] [] [] [] []]; cbn -[frame_of]; intros [= <- <-]; cbn -[frame_of];
    (split; [set_solver|]); split;
    try (intros m; rewrite ?elem_of_cons, ?elem_of_nil; intros Hm; repeat destruct Hm as [->|Hm];
         first [done|left; done|right; split; [done|]; split; [done|auto]]);
    try (split_and!; try done; split; [done|auto]); done.
Qed.

End moments.

End snapshot.
