(* ===== verification/WalProps.v ===== *)
(** * Properties of the write-ahead log

    Framing, scanning under arbitrary read schedules, appends with every outcome,
    crash recovery and snapshots, over [WalRecord], [WalScan], [Wal] and
    [WalSnapshot].  The checksum is a parameter; the witnesses use CRC-32C. *)

From S2P Require Import Prelude Bytes WalRecord WalScan Wal WalInv WalDurable WalSnapshot.

Section wal.
Context `{Crc32c}.

(** ** Framing *)

(** Frames round trip.  Encoding fails exactly on an oversized payload, and an
    encoded frame decodes to its sequence number and length with the payload where
    the decoder looks for it. *)
Theorem encode_decode seq payload max :
  max < 2 ^ 32 -> seq < 2 ^ 64 ->
  match encode seq payload max with
  | Ok f => lenN payload <= max /\ decode_frame f max = Ok (seq, lenN payload) /\
      slice HEADER_LEN (length payload) f = payload /\ length f = frame_len (length payload)
  | Err e => max < lenN payload /\ e = PayloadTooLarge (lenN payload) max
  end.
Proof.
  intros Hm Hs. pose proof (encode_frame_eq max Hm MAGIC seq payload) as E.
  change (encode seq payload max) with (encode_frame MAGIC VERSION seq payload max). rewrite E.
  destruct (N.ltb_spec max (lenN payload)); [done|]. split_and!; [done|..].
  - apply decode_frame_with_complete; done || lia.
  - pose proof (slice_frame MAGIC VERSION x00 seq payload) as Hp. unfold lenN in Hp at 1.
    by rewrite Nat2N.id in Hp.
  - apply length_frame_of.
Qed.

(** Only frames decode.  What [decode_frame] accepts is a header, a payload of
    the declared length and the checksum of both; the only freedom left is the
    flags byte, which the checksum covers. *)
Theorem decode_frame_sound f max seq len :
  decode_frame f max = Ok (seq, len) ->
  exists flags payload, f = frame_of MAGIC VERSION flags seq payload /\ len = lenN payload /\
    len <= max /\ len < 2 ^ 32 /\ seq < 2 ^ 64.
Proof. apply decode_frame_with_sound. Qed.

(** ** Scanning *)

(** The read schedule is invisible.  Short reads and interruptions do not
    change what [next_record] returns: it is the function [scan] of the bytes,
    which reads back any frame and consumes exactly that frame. *)
Theorem next_record_schedule rd max fetch seq payload rest :
  Failed ∉ rd_script rd -> max < 2 ^ 32 -> lenN payload <= max -> seq < 2 ^ 64 ->
  exists rd', next_record rd max fetch = (rd', Ok (scan max fetch (rd_data rd))) /\
    (rd_data rd = frame_of MAGIC VERSION x00 seq payload ++ rest ->
     scan max fetch (rd_data rd) =
       ScanRecord seq (lenN payload) (if fetch then Some payload else None) /\
     rd_data rd' = rest).
Proof.
  intros Hb Hm Hp Hs. destruct (next_record_benign rd max fetch Hb) as (rd' & _ & E & Hd).
  exists rd'. split; [done|]. intros Ed. rewrite Ed in *.
  pose proof (scan_frame max fetch x00 seq payload rest Hp ltac:(lia) Hs) as Es.
  split; [done|]. rewrite (Hd _ _ _ Es).
  replace (HEADER_LEN + N.to_nat (lenN payload) + TRAILER_LEN)%nat
    with (length (frame_of MAGIC VERSION x00 seq payload)); [apply drop_app_length|].
  rewrite length_frame_of. unfold frame_len, FRAME_OVERHEAD, lenN. lia.
Qed.

(** ** Recovery *)

(** C11: crash recovery.  Whatever prefix of a committed log a crash leaves on disk,
    opening it without i/o faults keeps exactly the records whose frames are whole,
    cuts the rest of the file off, resumes at the next sequence number, and the
    records can be read back. *)
Theorem open_recovers io rio ps k opts :
  no_open_faults io -> log_bounds (max_record_payload_len opts) 0 ps ->
  ri_seek_start rio = true -> Failed ∉ ri_reads rio -> ri_seek_end rio = true ->
  let kept := take (whole_frames k ps) ps in
  exists w, open io (take k (log_from 0 ps)) opts =
      (log_from 0 kept,
       Ok (w, mkRecovery (lenN kept) (lenN (take k (log_from 0 ps)) - lenN (log_from 0 kept))
                (lenN kept))) /\
    next_seq w = lenN kept /\ content (wal_file w) = log_from 0 kept /\
    exists w', read_records rio w = (w', Ok (records_from 0 kept)).
Proof.
  intros Hio Hb Hss Hr Hse kept. destruct (log_prefix _ 0 ps k Hb) as (tail & E & Ht).
  fold kept in E. rewrite E.
  destruct (open_log io kept tail opts Hio) as (w & -> & Hopt & Hw & _);
    [by apply log_bounds_take|done|].
  exists w. split_and!.
  - do 4 f_equal. unfold lenN. rewrite length_app. lia.
  - apply Hw.
  - apply Hw.
  - destruct (read_records_log rio w kept Hw Hss Hr Hse) as (w' & ? & _). eauto.
Qed.

(** ** Appending *)

(** Every outcome of [append_batch].  Success appends exactly the frames of the
    batch under consecutive sequence numbers; a failure, once its clean-up calls
    succeed, leaves the log as it was, and in any case leaves on disk the old log
    and a prefix of the new frames. *)
Theorem append_batch_outcomes io qs w ps :
  wal_ok w ps -> lenN (ps ++ qs) < 2 ^ 64 ->
  let '(w', r) := append_batch io qs w in
  match r with
  | Ok (a, b) => wal_ok w' (ps ++ qs) /\ a = lenN ps /\ b = lenN (ps ++ qs)
  | Err _ =>
      (ai_set_len io = true -> ai_seek io = true -> wal_ok w' ps) /\
      exists k, content (wal_file w') = take (length (log_from 0 ps) + k) (log_from 0 (ps ++ qs))
  end.
Proof.
  intros Hw H64. destruct (append_batch io qs w) as [w' r] eqn:E.
  pose proof (append_batch_spec io qs w ps w' r Hw H64 E) as Hs.
  destruct r as [[a b]|e]; [done|]. destruct Hs as [? (k & ? & _)]. eauto.
Qed.

(** After a run of appends of which all but the last cleaned up, the disk holds the acknowledged
    records and some bytes of one refused batch. *)
Lemma left_on_disk calls last w ps w' answers disk (max := max_record_payload_len (wal_options w)) :
  sync_per_append (wal_options w) = true -> wal_ok w ps -> flushed_file (wal_file w) ->
  lenN (ps ++ concat (calls ++ [last]).*2) < 2 ^ 64 -> Forall cleans calls ->
  append_all (calls ++ [last]) w = (w', answers) ->
  power_cut (wal_file w') disk \/ disk = content (wal_file w') ->
  let kept := ps ++ acknowledged answers in
  log_bounds max 0 kept /\
  exists qs k, qs ∈ [] :: refused answers /\ (k = 0%nat \/ fits max qs) /\ lenN (kept ++ qs) < 2 ^ 64 /\
    disk = take (length (log_from 0 kept) + k) (log_from 0 (kept ++ qs)).
Proof.
  intros Hsync Hw Hfl H64 Hcl Ha Hdisk. rewrite append_all_app in Ha.
  destruct (append_all calls w) as [w1 a1] eqn:E1. destruct last as [io qs].
  rewrite fmap_app, concat_app in H64. cbn [fmap list_fmap concat snd] in H64. rewrite app_nil_r in H64.
  assert (lenN (ps ++ concat calls.*2) < 2 ^ 64) as H64a by (unfold lenN in *; rewrite !length_app in *; lia).
  destruct (append_all_cached calls w ps [] w1 a1 Hsync Hw H64a (cached_flushed _ _ _ (wo_content _ _ Hw) Hfl) Hcl E1)
    as (Hw1 & Ho & Hlen & Hc1). cbn [append_all] in Ha. destruct (append_batch io qs w1) as [w2 r] eqn:E2.
  injection Ha as <- <-. rewrite acknowledged_app, refused_app, acknowledged_cons, refused_cons.
  cbn [app] in Hc1. fold max in Hc1. set (kept1 := ps ++ acknowledged a1) in *.
  assert (lenN (kept1 ++ qs) < 2 ^ 64) as H64q by (unfold kept1, lenN in *; rewrite !length_app in *; lia).
  pose proof (append_cached io qs w1 kept1 (refused a1) w2 r) as Hone.
  pose proof (append_batch_spec io qs w1 kept1 w2 r Hw1 H64q E2) as Hspec.
  pose proof (append_batch_options io qs w1) as Ho2. rewrite E2 in Ho2. simpl in Ho2. rewrite Ho in *.
  specialize (Hone Hsync Hw1 H64q Hc1 E2). change (acknowledged []) with (@nil bytes). change (refused []) with (@nil (list bytes)).
  destruct r as [[x y]|e]; cbn [is_ok]; rewrite ?app_nil_r; cbn [app]; rewrite ?app_nil_r, ?(app_assoc ps); fold kept1.
  - destruct Hone as [Hw2 Hc2]. pose proof (wo_bounds _ _ Hw2) as Hb. rewrite Ho2 in Hb. split; [done|]. destruct Hdisk as [Hcut| ->].
    + destruct (cached_power_cut _ _ _ _ _ _ Hb Hc2 Hcut) as (b & k & ? & ? & ? & ?). exists b, k. auto.
    + exists [], 0%nat. rewrite app_nil_r. split_and!; [left|by left|by apply Hb|].
      by rewrite (wo_content _ _ Hw2), Nat.add_0_r, firstn_all.
  - destruct Hone as (l & Hc2 & _). pose proof (wo_bounds _ _ Hw1) as Hb. rewrite Ho in Hb. split; [done|]. destruct Hdisk as [Hcut| ->].
    + destruct (cached_power_cut _ _ _ _ _ _ Hb Hc2 Hcut) as (b & k & ? & ? & ? & ?). exists b, k. auto.
    + destruct Hspec as [_ (k & ? & ?)]. exists qs, k. split_and!; [set_solver|done..].
Qed.

(** C17: acknowledged records are durable.  A log is opened after a crash and given any batches,
    the calls of each of which may fail at any point; only the clean-up of a refused
    batch succeeds, but for the last one's.  Then the power fails (so that only a
    part of what was never flushed is left) or the process ends, and the log is opened again.  It has exactly the
    records of the first opening, all the records acknowledged since, and at most a
    prefix of one batch that was refused. *)
Theorem acknowledged_survive oio oio' rio opts ps k calls last disk w rec w' answers disk' :
  no_open_faults oio -> no_open_faults oio' ->
  ri_seek_start rio = true -> Failed ∉ ri_reads rio -> ri_seek_end rio = true ->
  sync_per_append opts = true -> log_bounds (max_record_payload_len opts) 0 ps ->
  lenN (ps ++ concat (calls ++ [last]).*2) < 2 ^ 64 -> Forall cleans calls ->
  open oio (take k (log_from 0 ps)) opts = (disk, Ok (w, rec)) ->
  append_all (calls ++ [last]) w = (w', answers) ->
  power_cut (wal_file w') disk' \/ disk' = content (wal_file w') ->
  exists qs j w2 rec2, qs ∈ [] :: refused answers /\
    let kept := take (whole_frames k ps) ps ++ acknowledged answers ++ take j qs in
    open oio' disk' opts = (log_from 0 kept, Ok (w2, rec2)) /\
    (read_records rio w2).2 = Ok (records_from 0 kept).
Proof.
  intros Hio Hio' Hss Hrd Hse Hsync Hb H64 Hcl Hopen Ha Hdisk.
  destruct (log_prefix _ 0 ps k Hb) as (tail & E & Ht). set (ps1 := take (whole_frames k ps) ps) in *.
  destruct (open_log oio ps1 tail opts Hio) as (w0 & Eo & Hopt & Hw & Hfl); [by apply log_bounds_take|done|].
  rewrite E, Eo in Hopen. injection Hopen as _ -> _. subst opts.
  destruct (left_on_disk calls last w ps1 w' answers disk' Hsync Hw Hfl) as (Hb1 & qs & k' & Hqs & Hk & H64k & Ed);
    [|done..|].
  { unfold lenN, ps1 in *. rewrite !length_app, length_take in *. lia. }
  destruct (open_partial oio' (wal_options w) _ qs k' Hio' Hb1 Hk H64k) as (j & w2 & rec2 & Eo2 & Hw2).
  rewrite <- Ed in Eo2. rewrite <- app_assoc in Eo2, Hw2. exists qs, j, w2, rec2. split; [done|]. split; [exact Eo2|].
  by destruct (read_records_log rio w2 _ Hw2 Hss Hrd Hse) as (w3 & -> & _).
Qed.

(** ** Snapshots *)

(** A saved snapshot is loaded back, and a [save] that fails leaves what [load]
    returns unchanged. *)
Theorem snapshot_save_load max io lio seq payload dir :
  max < 2 ^ 32 -> seq < 2 ^ 64 -> li_open lio = true -> li_read lio = true ->
  let '(run, r) := save max io seq payload (mkSnapRun dir []) in
  load max lio (here run) =
    if is_ok r then Ok (Some (mkSnapshot seq payload)) else load max lio dir.
Proof.
  intros Hm Hs Ho Hr. destruct (save max io seq payload _) as [run r] eqn:E.
  apply (save_moments max Hm) in E as (_ & _ & Hd). destruct r as [[]|e]; cbn [is_ok].
  - destruct Hd as (Hle & [Ep _] & _). by apply (load_frame max Hm lio seq payload (here run) true).
  - destruct Hd as [Ep _]. apply load_ext. by rewrite Ep.
Qed.

(** C37: power may fail before, between any two calls of, or after a [save], whatever these
    calls return, and take everything with it that is not flushed.  Then [load] returns the new snapshot, or what it
    would have returned had the power failed before the [save]; and after a [save] that
    succeeded and could flush the directory, it returns the new snapshot. *)
Theorem snapshot_crash_atomic max io lio seq payload dir run r m d :
  max < 2 ^ 32 -> seq < 2 ^ 64 -> li_open lio = true -> li_read lio = true ->
  save max io seq payload (mkSnapRun dir []) = (run, r) ->
  m ∈ dir :: passed run -> power_failure m d ->
  (load max lio d = Ok (Some (mkSnapshot seq payload)) \/
   exists d0, power_failure dir d0 /\ load max lio d = load max lio d0) /\
  (r = Ok tt -> si_sync_dir io = true -> m = here run -> load max lio d = Ok (Some (mkSnapshot seq payload))).
Proof.
  intros Hm Hs Ho Hr E Hin Hp. apply (save_moments max Hm) in E as (_ & Hpass & Hend).
  assert (forall m d, lenN payload <= max -> snap_path m = Some (new_file seq payload) -> left_of (snap_path m) (snap_path d) ->
    load max lio d = Ok (Some (mkSnapshot seq payload))) as Hnew.
  { clear -Hm Hs Ho Hr. intros m d Hle E Hl. rewrite E in Hl. destruct (snap_path d) as [[bs fl]|] eqn:Ed; [|done].
    specialize (Hl eq_refl). simpl in Hl. subst bs. by eapply (load_frame max Hm). }
  split.
  - assert (untouched dir m \/ (lenN payload <= max /\ renamed seq payload dir m)) as [[E1 E2]|[Hle [E1 E2]]].
    { apply elem_of_cons in Hin as [->|Hin]; [by left|by apply Hpass]. }
    + right. exists d. split; [|done]. destruct Hp as (f & Hf & Hl). exists f. by rewrite <- E1, <- E2.
    + destruct Hp as (f & [->|Hf]%elem_of_cons & Hl); [left; by eapply Hnew|].
      destruct E2 as [E2|E2]; rewrite E2 in Hf; [|by apply elem_of_nil in Hf]. right. exists d. split; [by exists f|done].
  - intros -> Hsync ->. destruct Hend as (Hle & [E1 _] & E2). destruct Hp as (f & Hf & Hl). rewrite (E2 Hsync) in Hf.
    apply list_elem_of_singleton in Hf as ->. by eapply Hnew.
Qed.

End wal.

(** ** A worked log, with CRC-32C *)

#[local] Existing Instance castagnoli.

Definition small_opts : WalOptions := mkWalOptions 1024 true.
Definition payload_a : bytes := [x01; x02; x03].
Definition payload_b : bytes := [xaa; xbb; xcc; xdd; xee].
Definition payload_c : bytes := [x09; x08; x07].

Definition good_open (reads : list read_event) : OpenIo :=
  mkOpenIo true true reads true true true true.
Definition good_read (reads : list read_event) : ReadIo := mkReadIo true reads true None.
Definition good_append : AppendIo := mkAppendIo None true true true.
(** The sync fails, and so does the truncation that should clean up after it. *)
Definition bad_append : AppendIo := mkAppendIo None false false true.
(** One byte, an interruption, then three bytes. *)
Definition choppy : list read_event := [Deliver 0; Interrupted; Deliver 2].

Definition fresh_wal : Wal := mkWal (file_found []) 0 0 small_opts [].

Lemma no_faults reads : Failed ∉ reads -> no_open_faults (good_open reads).
Proof. done. Qed.

Lemma choppy_benign : Failed ∉ choppy.
Proof. unfold choppy. rewrite !not_elem_of_cons. split_and!; [done..|]. apply not_elem_of_nil. Qed.

Lemma ab_bounds : log_bounds 1024 0 [payload_a; payload_b].
Proof. constructor; [done|repeat constructor; by vm_compute|by vm_compute]. Qed.

Lemma fresh_wal_ok : wal_ok fresh_wal [].
Proof. constructor; try done. constructor; [done|constructor|done]. Qed.

Lemma encode_decode_witness :
  exists f, encode 7 payload_b 1024 = Ok f /\ decode_frame f 1024 = Ok (7, 5).
Proof.
  pose proof (encode_decode 7 payload_b 1024 eq_refl eq_refl) as Hf.
  destruct (encode 7 payload_b 1024) as [f|e]; [|by destruct Hf].
  exists f. split; [done|]. apply Hf.
Defined.

Lemma decode_frame_sound_witness :
  exists flags payload, frame_of MAGIC VERSION x00 7 payload_b =
    frame_of MAGIC VERSION flags 7 payload /\ 5 = lenN payload.
Proof.
  destruct (decode_frame_sound (frame_of MAGIC VERSION x00 7 payload_b) 1024 7 5)
    as (flags & payload & E & El & _); [by vm_compute|eauto].
Defined.

Lemma next_record_schedule_witness :
  exists rd', next_record (mkReader (log_from 0 [payload_a; payload_b]) choppy) 1024 true =
    (rd', Ok (ScanRecord 0 3 (Some payload_a))) /\ rd_data rd' = log_from 1 [payload_b].
Proof.
  destruct (next_record_schedule (mkReader (log_from 0 [payload_a; payload_b]) choppy) 1024 true
    0 payload_a (log_from 1 [payload_b]) choppy_benign) as (rd' & E & Hs); [done|by vm_compute|done|].
  destruct (Hs eq_refl) as [Es Ed]. exists rd'. split; [|done]. by rewrite E, Es.
Defined.

(** Three quarters of the second frame were written. *)
Lemma open_recovers_witness :
  exists w, open (good_open choppy) (take 45 (log_from 0 [payload_a; payload_b])) small_opts =
      (log_from 0 [payload_a], Ok (w, mkRecovery 1 20 1)) /\ next_seq w = 1.
Proof.
  destruct (open_recovers (good_open choppy) (good_read choppy) [payload_a; payload_b] 45 small_opts
    (no_faults _ choppy_benign) ab_bounds eq_refl choppy_benign eq_refl) as (w & E & Es & _).
  exists w. split; [exact E|exact Es].
Defined.

Lemma append_batch_outcomes_witness :
  wal_ok (append_batch good_append [payload_a; payload_b] fresh_wal).1 [payload_a; payload_b].
Proof.
  pose proof (append_batch_outcomes good_append [payload_a; payload_b] fresh_wal []
    fresh_wal_ok eq_refl) as Hw.
  assert ((append_batch good_append [payload_a; payload_b] fresh_wal).2 = Ok (0, 2)) as E
    by (by vm_compute).
  destruct (append_batch good_append [payload_a; payload_b] fresh_wal) as [w' r].
  cbn [fst snd] in *. subst r. apply Hw.
Defined.

(** Two batches are acknowledged around one that fails half-way through its write; the sync of the
    last one fails and so does its clean-up. *)
Definition busy_calls : list (AppendIo * list bytes) :=
  [(good_append, [payload_a]); (mkAppendIo (Some 9%nat) true true true, [payload_c]); (good_append, [payload_b])].
Definition busy_run : Wal * list (list bytes * result WalError (N * N)) :=
  append_all (busy_calls ++ [(bad_append, [payload_c; payload_a])]) fresh_wal.

Lemma busy_run_eq :
  append_all (busy_calls ++ [(bad_append, [payload_c; payload_a])]) fresh_wal = (busy_run.1, busy_run.2).
Proof. unfold busy_run. generalize (append_all (busy_calls ++ [(bad_append, [payload_c; payload_a])]) fresh_wal). by intros []. Qed.

(** The power fails with 30 bytes of the last write on the disk. *)
Definition busy_disk : bytes := foldl file_op (on_disk (wal_file busy_run.1)) (reached 0 30 (unflushed (wal_file busy_run.1))).

Lemma acknowledged_survive_witness :
  exists qs j w2 rec2, qs ∈ [] :: refused busy_run.2 /\
    open (good_open []) busy_disk small_opts =
      (log_from 0 ([payload_a; payload_b] ++ take j qs), Ok (w2, rec2)).
Proof.
  destruct (acknowledged_survive (good_open []) (good_open []) (good_read []) small_opts [] 0 busy_calls
    (bad_append, [payload_c; payload_a]) [] fresh_wal (mkRecovery 0 0 0) busy_run.1 busy_run.2 busy_disk)
    as (qs & j & w2 & rec2 & Hqs & E & _).
  - apply no_faults, not_elem_of_nil.
  - apply no_faults, not_elem_of_nil.
  - reflexivity.
  - apply not_elem_of_nil.
  - reflexivity.
  - reflexivity.
  - constructor; [done|constructor|done].
  - by vm_compute.
  - repeat constructor.
  - by vm_compute.
  - exact busy_run_eq.
  - left. by exists 0%nat, 30%nat.
  - cbv zeta in E. assert (acknowledged busy_run.2 = [payload_a; payload_b]) as Ea by (by vm_compute).
    rewrite Ea in E. exists qs, j, w2, rec2. split; [exact Hqs|exact E].
Defined.

(** There is something to recover. *)
Example busy_recovers : rv_next_seq <$> (snd <$> (open (good_open []) busy_disk small_opts).2) = Ok 3.
Proof. vm_compute. reflexivity. Qed.

(** A flush that is skipped would lose acknowledged records: without [sync_per_append] the power
    may take them. *)
Example unsynced_appends_lost :
  let lazy_wal := mkWal (file_found []) 0 0 (mkWalOptions 1024 false) [] in
  let '(w, r) := append_batch good_append [payload_a] lazy_wal in
  r = Ok (0, 1) /\ power_cut (wal_file w) [].
Proof. vm_compute. split; [done|]. by exists 0%nat, 0%nat. Qed.

Definition good_save : SaveIo := mkSaveIo true None true true true true.
(** The directory cannot be flushed. *)
Definition unsynced_save : SaveIo := mkSaveIo true None true true true false.
Definition empty_dir : SnapDir := mkSnapDir None [] None.
Definition good_load : LoadIo := mkLoadIo true true.

Lemma snapshot_save_load_witness :
  load 1024 good_load (here (save 1024 good_save 3 payload_a (mkSnapRun empty_dir [])).1) =
  Ok (Some (mkSnapshot 3 payload_a)).
Proof.
  pose proof (snapshot_save_load 1024 good_save good_load 3 payload_a empty_dir eq_refl eq_refl eq_refl eq_refl) as Hs.
  assert ((save 1024 good_save 3 payload_a (mkSnapRun empty_dir [])).2 = Ok tt) as E by (by vm_compute).
  destruct (save 1024 good_save 3 payload_a (mkSnapRun empty_dir [])) as [run r].
  cbn [fst snd] in *. subst r. exact Hs.
Defined.

(** The second of two saves, of which neither flushed the directory: a power failure after the
    rename leaves the path with what it had before. *)
Definition second_save : SnapRun :=
  (save 1024 unsynced_save 4 payload_b
     (mkSnapRun (here (save 1024 unsynced_save 3 payload_a (mkSnapRun empty_dir [])).1) [])).1.

Lemma snapshot_crash_atomic_witness :
  let dir := here (save 1024 unsynced_save 3 payload_a (mkSnapRun empty_dir [])).1 in
  let d := mkSnapDir (snap_path dir) [] None in
  (load 1024 good_load d = Ok (Some (mkSnapshot 4 payload_b)) \/
   exists d0, power_failure dir d0 /\ load 1024 good_load d = load 1024 good_load d0) /\
  load 1024 good_load d = Ok (Some (mkSnapshot 3 payload_a)).
Proof.
  intros dir d. split; [|by vm_compute].
  apply (snapshot_crash_atomic 1024 unsynced_save good_load 4 payload_b dir second_save (Ok tt) (here second_save) d);
    try reflexivity.
  - vm_compute. do 4 right. left.
  - exists (snap_path dir). split; [vm_compute; right; left|]. by vm_compute.
Defined.

(** Without the flush of its data the rename could publish a file of which nothing is left:
    a directory in that state is no moment of a [save]. *)
Example unflushed_rename_loses :
  let f := frame_of SNAP_MAGIC VERSION x00 3 payload_a in
  power_failure (mkSnapDir (Some (mkSnapFile f false)) [] None) (mkSnapDir (Some (mkSnapFile [] true)) [] None) /\
  load 1024 good_load (mkSnapDir (Some (mkSnapFile [] true)) [] None) = Ok None.
Proof. split; [|by vm_compute]. eexists. split; [left|done]. Qed.

(** Ignoring a failed clean-up can bring back a rejected record.  A batch of
    two records fails at the sync and its truncation fails too; after a further
    record is appended and acknowledged, the open log counts one record, refuses to
    read itself back, and reopening the file finds two, the second of them from the
    rejected batch. *)
Theorem failed_cleanup_resurrects :
  let '(w1, r1) := append_batch bad_append [payload_a; payload_b] fresh_wal in
  let '(w2, r2) := append_batch good_append [payload_c] w1 in
  let '(_, r3) := read_records (good_read []) w2 in
  r1 = Err (WalIo "sync_data") /\ r2 = Ok (0, 1) /\ next_seq w2 = 1 /\ r3 = Err ChangedWhileOpen /\
  let '(disk, r4) := open (good_open []) (content (wal_file w2)) small_opts in
  disk = log_from 0 [payload_c; payload_b] /\
  match r4 with
  | Ok (w4, recovery) => recovery = mkRecovery 2 0 2 /\
      (read_records (good_read []) w4).2 = Ok (records_from 0 [payload_c; payload_b])
  | Err _ => False
  end.
Proof. vm_compute. split_and!; reflexivity. Qed.


(** A failed clean-up can also lose a record that was acknowledged.  The first append fails at its
    sync and the seek after it fails too, so that the cursor stays behind the end of the
    log; the second is acknowledged, with a gap before its frame; the third fails and
    its clean-up, which succeeds, cuts the file at the end of what the log counts.
    Reopening finds no record at all. *)
Theorem failed_cleanup_loses :
  let '(w1, r1) := append_batch (mkAppendIo None false true false) [payload_a] fresh_wal in
  let '(w2, r2) := append_batch good_append [payload_b] w1 in
  let '(w3, r3) := append_batch (mkAppendIo (Some 0%nat) true true true) [payload_c] w2 in
  r1 = Err (WalIo "sync_data") /\ r2 = Ok (0, 1) /\ r3 = Err (WalIo "write_all") /\ next_seq w3 = 1 /\
  match open (good_open []) (content (wal_file w3)) small_opts with
  | (disk, Ok (_, recovery)) => disk = [] /\ verified_records recovery = 0
  | _ => False
  end.
Proof. vm_compute. split_and!; reflexivity. Qed.
