(* ===== verification/WalStream.v ===== *)
(** * Streaming part of a log

    The rest of [crates/wal/src/wal.rs]: [committed_len], the size hint of a
    [RecordStream], [close] and the drop handler.  A reader may stop anywhere: what it
    has seen is the beginning of the log, and the log is ready for appends again. *)

From S2P Require Import Prelude Bytes WalRecord WalScan Wal WalInv WalProps.

(** The length of the file, if its metadata can be read. *)
Definition committed_len (metadata_ok : bool) (w : Wal) : result WalError N :=
  if metadata_ok then Ok (lenN (content (wal_file w))) else Err (WalIo "metadata").

(** [seek_ok] is the outcome of the seek. *)
Definition restore_cursor (seek_ok : bool) (s : RecordStream) : RecordStream * result WalError unit :=
  if negb (seek_restored s)
  then if seek_ok then (stream_restored s, Ok tt) else (s, Err (WalIo "seek_end"))
  else (s, Ok tt).

(** [close] takes the stream, which is dropped at its end: the log has its cursor back at
    the committed end if either of the two seeks succeeded, and elsewhere ([left]) if not. *)
Definition stream_close (seek_ok : bool) (left : option nat) (s : RecordStream) (w : Wal) :
    Wal * result WalError unit :=
  let '(s', r) := restore_cursor seek_ok s in
  let keep := N.to_nat (committed_end w) in
  let pos := if seek_restored s' then keep else default keep left in
  (set_file (file_seek pos (wal_file w)) w, r).

(** [usize] has 64 bits. *)
Definition size_hint (s : RecordStream) : N * option N :=
  if finished s then (0, Some 0)
  else
    let remaining := expected_next_seq s - current_seq s in
    let remaining_usize := if remaining <? 2 ^ 64 then remaining else 2 ^ 64 - 1 in
    (remaining_usize, Some remaining_usize).

Section streaming.
Context `{Crc32c}.

(** Up to [k] items of the iterator. *)
Fixpoint stream_take (k : nat) (seek_ok : bool) (s : RecordStream) :
    RecordStream * list (result WalError WalRecord) :=
  match k with
  | O => (s, [])
  | S k' =>
      match stream_next seek_ok s with
      | (s', None) => (s', [])
      | (s', Some item) => let '(s'', items) := stream_take k' seek_ok s' in (s'', item :: items)
      end
  end.

Lemma stream_take_records k st s ps seek_ok :
  stream_at st s ps -> (k <= length ps)%nat ->
  exists st', stream_take k seek_ok st = (st', Ok <$> take k (records_from s ps)) /\
    stream_at st' (s + N.of_nat k) (drop k ps).
Proof.
  revert st s ps. induction k as [|k IH]; intros st s ps Hst Hk.
  - exists st. split; [done|]. by rewrite N.add_0_r.
  - destruct ps as [|p ps]; [simpl in Hk; lia|]. cbn [stream_take].
    destruct (stream_next_record st s p ps seek_ok Hst) as (st1 & -> & Hst1).
    destruct (IH st1 (s + 1) ps Hst1) as (st2 & -> & Hst2); [simpl in Hk; lia|].
    exists st2. split; [done|]. by replace (s + N.of_nat (S k)) with (s + 1 + N.of_nat k) by lia.
Qed.

Lemma size_hint_records st s ps : stream_at st s ps -> size_hint st = (lenN ps, Some (lenN ps)).
Proof.
  intros [_ _ Hc He [_ _ Hb] Hf _]. unfold size_hint. rewrite Hf, Hc, He.
  replace (s + lenN ps - s) with (lenN ps) by lia. by rewrite (proj2 (N.ltb_lt _ _)) by lia.
Qed.

(** A reader of a committed log that stops after [k] records has seen exactly the first
    [k]; the hint is then exactly the number of records left, and after [close] the log is
    as it was, ready for the next append. *)
Theorem stream_prefix w ps io k :
  wal_ok w ps -> ri_seek_start io = true -> (Failed ∉ ri_reads io) -> (k <= length ps)%nat ->
  exists st st', stream_records io w = Ok st /\
    stream_take k (ri_seek_end io) st = (st', Ok <$> take k (records_from 0 ps)) /\
    size_hint st' = (lenN ps - N.of_nat k, Some (lenN ps - N.of_nat k)) /\
    forall left, exists w', stream_close true left st' w = (w', Ok tt) /\ wal_ok w' ps.
Proof.
  intros Hw Hss Hr Hk. pose proof Hw as [Hc Hcur Hs He Hb]. unfold stream_records. rewrite Hss. cbn [negb].
  set (st := mkStream _ _ _ _ _ _ _). assert (stream_at st 0 ps) as Hst by (by constructor).
  destruct (stream_take_records k st 0 ps (ri_seek_end io) Hst Hk) as (st' & E & Hst').
  exists st, st'. split; [done|]. split; [exact E|]. split.
  - rewrite (size_hint_records _ _ _ Hst'). unfold lenN. rewrite length_drop. do 2 f_equal; try f_equal; lia.
  - intros left. unfold stream_close, restore_cursor. rewrite (sa_seek _ _ _ Hst'). simpl.
    eexists. split; [done|]. rewrite He. unfold lenN. rewrite Nat2N.id. by constructor.
Qed.

(** The length of the file is where the next append goes. *)
Lemma committed_len_end w ps : wal_ok w ps -> committed_len true w = Ok (committed_end w).
Proof. intros [Hc _ _ He _]. unfold committed_len. by rewrite Hc, He. Qed.
End streaming.

(** ** A worked stream *)

#[local] Existing Instance castagnoli.

Definition ab_wal : Wal := (append_batch good_append [payload_a; payload_b] fresh_wal).1.

Lemma stream_prefix_witness :
  exists st st', stream_records (good_read choppy) ab_wal = Ok st /\
    stream_take 1 true st = (st', [Ok (mkWalRecord 0 payload_a)]) /\ size_hint st' = (1, Some 1).
Proof.
  destruct (stream_prefix ab_wal [payload_a; payload_b] (good_read choppy) 1) as (st & st' & E1 & E2 & E3 & _);
    [|reflexivity|apply choppy_benign|simpl; lia|].
  - constructor; try (vm_compute; reflexivity). apply ab_bounds.
  - exists st, st'. split; [exact E1|]. split; [exact E2|exact E3].
Defined.

(** The hint does not count an item that reports an error.  It promises two items whatever
    became of the file: three come when the file gained a byte, the last of them an error,
    and a single error when it was cut inside the first frame. *)
Definition with_content (bs : bytes) (w : Wal) : Wal := set_file (file_seek (cursor (wal_file w)) (file_found bs)) w.
Definition items_of (w : Wal) : list (result WalError WalRecord) :=
  match stream_records (good_read []) w with Ok s => (stream_take 5 true s).2 | Err e => [Err e] end.

Example hint_misses_errors :
  items_of (with_content (content (wal_file ab_wal) ++ [x00]) ab_wal) =
    [Ok (mkWalRecord 0 payload_a); Ok (mkWalRecord 1 payload_b); Err ChangedWhileOpen] /\
  items_of (with_content (take 10 (content (wal_file ab_wal))) ab_wal) = [Err ChangedWhileOpen] /\
  (forall bs s, stream_records (good_read []) (with_content bs ab_wal) = Ok s -> size_hint s = (2, Some 2)).
Proof. split_and!; [vm_compute; reflexivity..|]. intros bs s [= <-]. vm_compute. reflexivity. Qed.
