(* ===== verification/Merkle.v ===== *)
(** * Merkle Mountain Range: hashing, structure and proofs

    [crates/merkle/src/{hash,mmr,proof,event_hasher,error}.rs].  SHA-256 is a
    parameter of the development; nothing is assumed of it. *)

From Stdlib Require Import Ascii.
From stdpp Require Export vector.
From S2P Require Import Prelude Bytes Error Transfer.

(** ** Hashes *)

Abbreviation Hash32 := (vec byte 32).

Definition LEAF_PREFIX : byte := x00.
Definition NODE_PREFIX : byte := x01.
Definition PEAK_PREFIX : byte := x02.
Definition Hash32_ZERO : Hash32 := vreplicate 32 x00.

Inductive HexError : Type :=
| InvalidLength (len : nat)
| InvalidCharacter (c : ascii) (index : nat).

(** [{byte:02x}]. *)
Definition hex_digit (n : N) : ascii :=
  ascii_of_N (if n <? 10 then 48 + n else 87 + n).
Fixpoint hex_of (bs : bytes) : string :=
  match bs with
  | [] => EmptyString
  | b :: bs' =>
      String (hex_digit (Byte.to_N b / 16)) (String (hex_digit (Byte.to_N b mod 16)) (hex_of bs'))
  end.
Definition to_hex (h : Hash32) : string := hex_of (vec_to_list h).

Definition decode_hex_nibble (c : ascii) (index : nat) : result HexError N :=
  let n := N_of_ascii c in
  if (48 <=? n) && (n <=? 57) then Ok (n - 48)
  else if (97 <=? n) && (n <=? 102) then Ok (n - 97 + 10)
  else if (65 <=? n) && (n <=? 70) then Ok (n - 65 + 10)
  else Err (InvalidCharacter c index).

(** The loop of [from_hex], two characters per byte from byte [i] on. *)
Fixpoint hex_bytes (n : nat) (i : nat) (s : string) : result HexError (vec byte n) :=
  match n with
  | O => Ok [#]
  | S n' =>
      match s with
      | String c1 (String c2 s') =>
          hi ← decode_hex_nibble c1 (2 * i);
          lo ← decode_hex_nibble c2 (2 * i + 1);
          rest ← hex_bytes n' (S i) s';
          Ok (byte_of (N.lor (N.shiftl hi 4) lo) ::: rest)
      | _ => Err (InvalidLength (String.length s))
      end
  end.

Definition from_hex (s : string) : result HexError Hash32 :=
  if negb (bool_decide (String.length s = 64%nat)) then Err (InvalidLength (String.length s))
  else hex_bytes 32 0 s.

(** ** Errors *)

Inductive ProofError : Type :=
| RootMismatch (expected computed : string)
| PeakMismatch (expected computed : string) (peak_index : nat)
| ProofIndexOutOfBounds (index count : N)
| SiblingCountMismatch (expected actual : N)
| PeakCountMismatch (expected actual : N)
| EmptyTree
| ProofSerialization (e : string).

Inductive MmrError : Type :=
| LeafIndexOutOfBounds (index count : N)
| EmptyMmr
| NodeIndexOutOfBounds (pos : nat)
| ProofFailed (e : ProofError)
| MmrSerialization (e : string)
| CorruptedTree (what : string).

(** ** State *)

Record MmrNode : Type := mkNode {
  node_hash : Hash32;
  height : N;
  left_child : option nat;
  right_child : option nat;
  parent : option nat;
}.

Definition set_parent (p : nat) (n : MmrNode) : MmrNode :=
  mkNode (node_hash n) (height n) (left_child n) (right_child n) (Some p).

Record Mmr : Type := mkMmr {
  nodes : list MmrNode;
  peak_positions : list nat;
  leaf_positions : list nat;
}.

Definition Mmr_new : Mmr := mkMmr [] [] [].
Definition leaf_count (self : Mmr) : N := N.of_nat (length (leaf_positions self)).
Definition node_count (self : Mmr) : nat := length (nodes self).

Record MmrProof : Type := mkProof {
  pf_leaf_index : N;
  pf_leaf_count : N;
  siblings : list Hash32;
  pf_peaks : list Hash32;
}.

Section mmr.
Context (sha256 : bytes -> Hash32).

Definition hash_leaf (data : bytes) : Hash32 := sha256 ([LEAF_PREFIX] ++ data).
Definition combine_nodes (left right : Hash32) : Hash32 :=
  sha256 ([NODE_PREFIX] ++ vec_to_list left ++ vec_to_list right).
Definition combine_peaks (left right : Hash32) : Hash32 :=
  sha256 ([PEAK_PREFIX] ++ vec_to_list left ++ vec_to_list right).

Definition bag_peaks (peaks : list Hash32) : Hash32 :=
  match reverse peaks with
  | [] => Hash32_ZERO
  | first :: rest => foldl (fun acc peak => combine_peaks peak acc) first rest
  end.

(** ** Appending and reading *)

Definition peaks (self : Mmr) : list Hash32 :=
  omap (fun idx => node_hash <$> nodes self !! idx) (peak_positions self).

Definition root (self : Mmr) : Hash32 := bag_peaks (peaks self).

(** The merge loop, one peak per turn; [peaks] is given from the last to the first
    (the vector is popped and pushed at its end).  The indexing [self.nodes[i]]
    would panic out of range, which is the [None] here. *)
Fixpoint merge_peaks (ns : list MmrNode) (rev_peaks : list nat) (current_pos : nat)
    (current_height : N) : option (list MmrNode * list nat * nat) :=
  match rev_peaks with
  | [] => Some (ns, [], current_pos)
  | last_peak_idx :: rest =>
      l ← ns !! last_peak_idx;
      if height l =? current_height then
        r ← ns !! current_pos;
        let parent_hash := combine_nodes (node_hash l) (node_hash r) in
        let parent_height := current_height + 1 in
        let parent_idx := length ns in
        let ns := ns ++ [mkNode parent_hash parent_height (Some last_peak_idx)
                           (Some current_pos) None] in
        let ns := alter (set_parent parent_idx) last_peak_idx ns in
        let ns := alter (set_parent parent_idx) current_pos ns in
        merge_peaks ns rest parent_idx parent_height
      else Some (ns, rev_peaks, current_pos)
  end.

Definition append_leaf_hash (leaf_hash : Hash32) (self : Mmr) : option (Mmr * N) :=
  let leaf_node_idx := length (nodes self) in
  let lps := leaf_positions self ++ [leaf_node_idx] in
  let ns := nodes self ++ [mkNode leaf_hash 0 None None None] in
  '(ns', rest, pos) ← merge_peaks ns (reverse (peak_positions self)) leaf_node_idx 0;
  Some (mkMmr ns' (reverse rest ++ [pos]) lps, N.of_nat (length lps) - 1).

Definition append_leaf (data : bytes) : Mmr -> option (Mmr * N) :=
  append_leaf_hash (hash_leaf data).

Definition mmr_leaf_hash (self : Mmr) (leaf_index : N) : result MmrError Hash32 :=
  match leaf_positions self !! N.to_nat leaf_index with
  | None => Err (LeafIndexOutOfBounds leaf_index (leaf_count self))
  | Some node_pos =>
      ok_or (node_hash <$> nodes self !! node_pos) (NodeIndexOutOfBounds node_pos)
  end.

(** ** Generating proofs *)

(** The walk from [curr] to its peak.  Parents have larger positions than their
    children, so a walk visits each node at most once; [None] stands for a walk
    that cycles. *)
Fixpoint walk_up (fuel : nat) (ns : list MmrNode) (curr : nat) (sibs : list Hash32) :
    option (result MmrError (list Hash32)) :=
  match fuel with
  | O => None
  | S fuel' =>
      match ns !! curr ≫= parent with
      | None => Some (Ok sibs)
      | Some parent_idx =>
          match ns !! parent_idx with
          | None => Some (Err (CorruptedTree "missing parent node"))
          | Some p =>
              if bool_decide (left_child p = Some curr) then
                match right_child p with
                | None => Some (Err (CorruptedTree "missing right child"))
                | Some sib_idx =>
                    match ns !! sib_idx with
                    | None => Some (Err (CorruptedTree "missing sibling node"))
                    | Some sib => walk_up fuel' ns parent_idx (sibs ++ [node_hash sib])
                    end
                end
              else if bool_decide (right_child p = Some curr) then
                match left_child p with
                | None => Some (Err (CorruptedTree "missing left child"))
                | Some sib_idx =>
                    match ns !! sib_idx with
                    | None => Some (Err (CorruptedTree "missing sibling node"))
                    | Some sib => walk_up fuel' ns parent_idx (sibs ++ [node_hash sib])
                    end
                end
              else Some (Err (CorruptedTree "parent does not reference node"))
          end
      end
  end.

Definition generate_proof (self : Mmr) (leaf_index : N) : option (result MmrError MmrProof) :=
  match leaf_positions self !! N.to_nat leaf_index with
  | None => Some (Err (LeafIndexOutOfBounds leaf_index (leaf_count self)))
  | Some node_pos =>
      match walk_up (S (length (nodes self))) (nodes self) node_pos [] with
      | None => None
      | Some (Err e) => Some (Err e)
      | Some (Ok sibs) => Some (Ok (mkProof leaf_index (leaf_count self) sibs (peaks self)))
      end
  end.

(** ** Verifying proofs *)

(** [usize::count_ones] and [usize::leading_zeros] (64 bits). *)
Fixpoint pos_ones (p : positive) : N :=
  match p with xH => 1 | xO p' => pos_ones p' | xI p' => 1 + pos_ones p' end.
Definition count_ones (n : N) : N := match n with 0 => 0 | Npos p => pos_ones p end.
Definition leading_zeros (n : N) : N := 64 - N.size n.

(** The loop that locates the mountain of [leaf_index]: its peak's index, its size
    and the number of leaves before it.  [rem] loses its top bit each turn, so its
    bit length is enough fuel. *)
Fixpoint locate (fuel : nat) (leaf_index rem offset : N) (peak_idx : nat) : option (nat * N * N) :=
  match fuel with
  | O => None
  | S fuel' =>
      if 0 <? rem then
        let power := 63 - leading_zeros rem in
        let size := N.shiftl 1 power in
        if (offset <=? leaf_index) && (leaf_index <? offset + size)
        then Some (peak_idx, size, offset)
        else locate fuel' leaf_index (rem - size) (offset + size) (S peak_idx)
      else None
  end.

(** The fold over the siblings from the bottom up, at height [h]. *)
Fixpoint climb (local_index : N) (h : N) (sibs : list Hash32) (curr : Hash32) : Hash32 :=
  match sibs with
  | [] => curr
  | sibling :: rest =>
      climb local_index (h + 1) rest
        (if N.land (N.shiftr local_index h) 1 =? 1 then combine_nodes sibling curr
         else combine_nodes curr sibling)
  end.

Definition verify (self : MmrProof) (expected_root leaf_hash : Hash32) : result ProofError unit :=
  if pf_leaf_count self =? 0 then Err EmptyTree
  else if pf_leaf_count self <=? pf_leaf_index self
  then Err (ProofIndexOutOfBounds (pf_leaf_index self) (pf_leaf_count self))
  else
    let expected_peaks := count_ones (pf_leaf_count self) in
    if negb (N.of_nat (length (pf_peaks self)) =? expected_peaks)
    then Err (PeakCountMismatch expected_peaks (N.of_nat (length (pf_peaks self))))
    else
      match locate (S (N.size_nat (pf_leaf_count self))) (pf_leaf_index self)
              (pf_leaf_count self) 0 0 with
      | None => Err (ProofIndexOutOfBounds (pf_leaf_index self) (pf_leaf_count self))
      | Some (peak_idx, size, offset) =>
          let expected_siblings := 63 - leading_zeros size in
          if negb (N.of_nat (length (siblings self)) =? expected_siblings)
          then Err (SiblingCountMismatch expected_siblings (N.of_nat (length (siblings self))))
          else
            let local_index := pf_leaf_index self - offset in
            let curr := climb local_index 0 (siblings self) leaf_hash in
            match pf_peaks self !! peak_idx with
            | None => Err (PeakMismatch EmptyString (to_hex curr) peak_idx)
            | Some expected_peak =>
                if negb (bool_decide (curr = expected_peak))
                then Err (PeakMismatch (to_hex expected_peak) (to_hex curr) peak_idx)
                else
                  let computed_root := bag_peaks (pf_peaks self) in
                  if negb (bool_decide (computed_root = expected_root))
                  then Err (RootMismatch (to_hex expected_root) (to_hex computed_root))
                  else Ok tt
            end
      end.

(** ** Events as leaves *)

Section events.
(** [postcard::to_stdvec] for the two leaf types. *)
Context (transfer_bytes : Transfer -> result string bytes)
        (event_bytes : LedgerEvent -> result string bytes).

Definition hash_transfer (t : Transfer) : result MmrError Hash32 :=
  bs ← map_err MmrSerialization (transfer_bytes t); Ok (hash_leaf bs).
Definition hash_ledger_event (e : LedgerEvent) : result MmrError Hash32 :=
  bs ← map_err MmrSerialization (event_bytes e); Ok (hash_leaf bs).

Definition append_transfer (t : Transfer) (self : Mmr) : option (Mmr * result MmrError N) :=
  match hash_transfer t with
  | Err e => Some (self, Err e)
  | Ok h => '(self', i) ← append_leaf_hash h self; Some (self', Ok i)
  end.
Definition append_ledger_event (e : LedgerEvent) (self : Mmr) : option (Mmr * result MmrError N) :=
  match hash_ledger_event e with
  | Err err => Some (self, Err err)
  | Ok h => '(self', i) ← append_leaf_hash h self; Some (self', Ok i)
  end.
End events.

End mmr.
