(* ===== verification/MerkleInv.v ===== *)
(** * The shape of a Merkle Mountain Range

    The node array of an MMR is a list of perfect binary trees of strictly
    decreasing heights.  Appending keeps that shape, walks from a leaf reach its
    peak, and the verifier's arithmetic on the leaf count finds the same mountain. *)

From S2P Require Import Prelude Bytes Error Transfer Merkle.
#[local] Open Scope N_scope.

Section mmr.
Context (sha256 : bytes -> Hash32).

(** ** Mountains *)

(** The node at a position is the root of a perfect tree of some height over some
    leaf positions. *)
Inductive mountain (ns : list MmrNode) : nat -> nat -> list nat -> Prop :=
| mt_leaf pos n : ns !! pos = Some n -> height n = 0 -> mountain ns pos 0%nat [pos]
| mt_node pos n l r nl nr h ls rs :
    ns !! pos = Some n -> height n = N.of_nat (S h) ->
    left_child n = Some l -> right_child n = Some r ->
    ns !! l = Some nl -> ns !! r = Some nr ->
    node_hash n = combine_nodes sha256 (node_hash nl) (node_hash nr) ->
    parent nl = Some pos -> parent nr = Some pos -> (l < r)%nat -> (r < pos)%nat ->
    mountain ns l h ls -> mountain ns r h rs -> mountain ns pos (S h) (ls ++ rs).

(** A mountain whose root has no parent yet. *)
Definition free_peak (ns : list MmrNode) (pos : nat) : Prop :=
  exists n, ns !! pos = Some n /\ parent n = None.

(** Nodes may gain parents and new nodes may follow. *)
Definition grows (ns ns' : list MmrNode) : Prop :=
  forall k n, ns !! k = Some n -> exists n', ns' !! k = Some n' /\
    node_hash n' = node_hash n /\ height n' = height n /\
    left_child n' = left_child n /\ right_child n' = right_child n /\
    (forall p, parent n = Some p -> parent n' = Some p).

#[global] Instance grows_preorder : PreOrder grows.
Proof.
  split; [intros ns k n Hk; eauto 10|]. intros n1 n2 n3 H12 H23 k n Hk.
  destruct (H12 k n Hk) as (n' & Hk' & E1 & E2 & E3 & E4 & E5).
  destruct (H23 k n' Hk') as (n'' & Hk'' & F1 & F2 & F3 & F4 & F5).
  exists n''. split_and!; eauto; congruence.
Qed.

Lemma grows_mountain ns ns' pos h ls : grows ns ns' -> mountain ns pos h ls -> mountain ns' pos h ls.
Proof.
  intros Hg. induction 1 as [pos n Hn Hh|pos n l r nl nr h ls rs Hn Hh Hl Hr Hnl Hnr E Hpl Hpr Hlt Hlt' _ IHl _ IHr].
  - destruct (Hg pos n Hn) as (n' & Hn' & _ & Hh' & _). eapply mt_leaf; [done|congruence].
  - destruct (Hg pos n Hn) as (n' & Hn' & E' & Hh' & Hl' & Hr' & _).
    destruct (Hg l nl Hnl) as (nl' & Hnl' & El & _ & _ & _ & Pl).
    destruct (Hg r nr Hnr) as (nr' & Hnr' & Er & _ & _ & _ & Pr).
    apply (mt_node ns' pos n' l r nl' nr' h ls rs); auto; congruence.
Qed.

Lemma grows_push ns x : grows ns (ns ++ [x]).
Proof. intros k n Hk. exists n. rewrite (lookup_app_l_Some _ _ _ _ Hk). split_and!; auto. Qed.

Lemma grows_set_parent ns k p : free_peak ns k -> grows ns (alter (set_parent p) k ns).
Proof.
  intros (n0 & Hn0 & Hp0) i n Hi. destruct (decide (i = k)) as [->|Hne].
  - exists (set_parent p n). rewrite list_lookup_alter_eq, Hi. simplify_eq.
    split_and!; try done. simpl. congruence.
  - exists n. rewrite list_lookup_alter_ne by done. split_and!; auto.
Qed.

Lemma mountain_height ns pos h ls :
  mountain ns pos h ls -> exists n, ns !! pos = Some n /\ height n = N.of_nat h.
Proof. destruct 1; eauto. Qed.

Lemma mountain_leaves ns pos h ls : mountain ns pos h ls -> length ls = (2 ^ h)%nat.
Proof. induction 1 as [|? ? ? ? ? ? ? ? ? ? ? ? ? ? ? ? ? ? ? ? ? IHl ? IHr]; [done|]. rewrite length_app, IHl, IHr. simpl. lia. Qed.

(** ** The merge loop *)

(** A mountain of the list: position, height and leaves. *)
Abbreviation peak_t := (nat * nat * list nat)%type.
Definition pk_pos (x : peak_t) : nat := x.1.1.
Definition pk_height (x : peak_t) : nat := x.1.2.
Definition pk_leaves (x : peak_t) : list nat := x.2.

Definition peak_ok (ns : list MmrNode) (x : peak_t) : Prop :=
  mountain ns (pk_pos x) (pk_height x) (pk_leaves x) /\ free_peak ns (pk_pos x).

(** Mountains from the last to the first, rising in height. *)
Definition later_peak (x y : peak_t) : Prop :=
  (pk_height x < pk_height y)%nat /\ (pk_pos y < pk_pos x)%nat.
Definition rising (h : nat) (rev_ms : list peak_t) : Prop :=
  StronglySorted later_peak rev_ms /\
  Forall (fun x => (h <= pk_height x)%nat) rev_ms.

Lemma rising_tail h x rest : rising h (x :: rest) -> rising (S (pk_height x)) rest.
Proof.
  intros [Hs _]. inversion Hs as [|? ? Hs' Hx]; subst. split; [done|].
  eapply Forall_impl; [done|]. unfold later_peak. simpl. lia.
Qed.

Lemma free_peak_push ns x p : free_peak ns p -> free_peak (ns ++ [x]) p.
Proof. intros (n & Hn & Hp). exists n. rewrite (lookup_app_l_Some _ _ _ _ Hn). done. Qed.

Lemma free_peak_alter ns k q p :
  p <> k -> free_peak ns p -> free_peak (alter (set_parent q) k ns) p.
Proof. intros Hne (n & Hn & Hp). exists n. by rewrite list_lookup_alter_ne by done. Qed.

(** One merge: the nodes after pushing the parent and linking both children. *)
Definition merged (ns : list MmrNode) (l r : nat) (hash : Hash32) (h : N) : list MmrNode :=
  alter (set_parent (length ns)) r (alter (set_parent (length ns)) l
    (ns ++ [mkNode hash h (Some l) (Some r) None])).

Lemma merged_grows ns l r hash h :
  l <> r -> free_peak ns l -> free_peak ns r -> grows ns (merged ns l r hash h).
Proof.
  intros Hne Hl Hr. unfold merged. etrans; [apply grows_push|].
  etrans; [apply (grows_set_parent _ l (length ns)), free_peak_push, Hl|].
  apply grows_set_parent, free_peak_alter; [done|]. by apply free_peak_push.
Qed.

Lemma merged_mountain ns l r nl nr h ls rs :
  (l < r)%nat -> (r < length ns)%nat -> ns !! l = Some nl -> ns !! r = Some nr ->
  free_peak ns l -> free_peak ns r -> mountain ns l h ls -> mountain ns r h rs ->
  let hash := combine_nodes sha256 (node_hash nl) (node_hash nr) in
  let ns' := merged ns l r hash (N.of_nat h + 1) in
  mountain ns' (length ns) (S h) (ls ++ rs) /\ free_peak ns' (length ns).
Proof.
  intros Hlt Hr Hnl Hnr Hfl Hfr Hml Hmr hash ns'.
  assert (grows ns ns') as Hg by (apply merged_grows; [lia|done|done]).
  assert (ns' !! length ns = Some (mkNode hash (N.of_nat h + 1) (Some l) (Some r) None)) as Hn.
  { unfold ns', merged. rewrite !list_lookup_alter_ne by lia.
    rewrite lookup_app_r, Nat.sub_diag by lia. done. }
  assert (ns' !! l = Some (set_parent (length ns) nl)) as Hl'.
  { unfold ns', merged. rewrite list_lookup_alter_ne by lia.
    by rewrite list_lookup_alter_eq, (lookup_app_l_Some _ _ _ _ Hnl). }
  assert (ns' !! r = Some (set_parent (length ns) nr)) as Hr'.
  { unfold ns', merged. rewrite list_lookup_alter_eq, list_lookup_alter_ne by lia.
    by rewrite (lookup_app_l_Some _ _ _ _ Hnr). }
  split; [|by eexists].
  eapply (mt_node ns' (length ns) _ l r _ _ h ls rs Hn); eauto using grows_mountain; simpl; lia || done.
Qed.

Lemma merge_peaks_spec rev_ms ns cur :
  Forall (peak_ok ns) rev_ms -> peak_ok ns cur ->
  Forall (fun x => (pk_pos x < pk_pos cur)%nat) rev_ms -> (pk_pos cur < length ns)%nat ->
  rising (pk_height cur) rev_ms ->
  exists ns' rest cur',
    merge_peaks sha256 ns (pk_pos <$> rev_ms) (pk_pos cur) (N.of_nat (pk_height cur)) =
      Some (ns', pk_pos <$> rest, pk_pos cur') /\
    Forall (peak_ok ns') rest /\ peak_ok ns' cur' /\ rising (S (pk_height cur')) rest /\
    grows ns ns' /\ (pk_pos cur' < length ns')%nat /\
    Forall (fun x => (pk_pos x < pk_pos cur')%nat) rest /\
    concat (pk_leaves <$> reverse rest) ++ pk_leaves cur' =
    concat (pk_leaves <$> reverse rev_ms) ++ pk_leaves cur.
Proof.
  revert ns cur. induction rev_ms as [|x rev_ms IH]; intros ns cur Hok Hcur Hpos Hlen Hr.
  { exists ns, [], cur. split_and!; done || constructor; constructor. }
  inversion Hok as [|? ? [Hmx Hfx] Hok']; subst. inversion Hpos as [|? ? Hx Hpos']; subst.
  pose proof Hcur as [Hmc Hfc].
  destruct (mountain_height _ _ _ _ Hmx) as (nx & Hnx & Hhx).
  destruct (mountain_height _ _ _ _ Hmc) as (nc & Hnc & Hhc).
  pose proof Hr as [Hs Hge]. inversion Hge as [|? ? Hgx _]; subst.
  cbn [fmap list_fmap merge_peaks]. rewrite Hnx. simpl. rewrite Hhx.
  destruct (N.eqb_spec (N.of_nat (pk_height x)) (N.of_nat (pk_height cur))) as [He|Hne].
  2: { exists ns, (x :: rev_ms), cur. split_and!; try done.
       - split; [done|]. constructor; [lia|].
         destruct (rising_tail _ _ _ Hr) as [_ Ht]. eapply Forall_impl; [exact Ht|]. simpl. lia. }
  rewrite Hnc. simpl.
  assert (pk_height x = pk_height cur) as Eh by lia. rewrite <- Eh in Hmc |- *.
  destruct (merged_mountain ns (pk_pos x) (pk_pos cur) nx nc _ _ _ Hx Hlen Hnx Hnc Hfx Hfc Hmx Hmc)
    as [Hm' Hf'].
  set (ns1 := merged ns _ _ _ _) in Hm', Hf'.
  assert (grows ns ns1) as Hg by (apply merged_grows; [lia|done|done]).
  assert (length ns1 = S (length ns)) as Hl1
    by (unfold ns1, merged; rewrite !length_alter, length_app; simpl; lia).
  destruct (IH ns1 (length ns, S (pk_height x), pk_leaves x ++ pk_leaves cur))
    as (ns' & rest & cur' & E & Ho & Hc' & Hr' & Hg' & Hl' & Hp' & El).
  - inversion Hs as [|? ? _ Hfs]; subst.
    eapply Forall_impl; [apply Forall_and; split; [exact Hok'|exact Hfs]|].
    intros y [[Hmy Hfy] [_ Hy]]. split; [by eapply grows_mountain|].
    unfold ns1, merged. apply free_peak_alter; [lia|]. apply free_peak_alter; [lia|].
    by apply free_peak_push.
  - split; [exact Hm'|exact Hf'].
  - eapply Forall_impl; [exact Hpos'|]. intros y Hy. cbn beta in Hy. change (pk_pos y < length ns)%nat. lia.
  - change (length ns < length ns1)%nat. lia.
  - by eapply rising_tail.
  - exists ns', rest, cur'. split_and!; try done.
    + etrans; [|exact E]. change (pk_height (length ns, S (pk_height x), _)) with (S (pk_height x)).
      by replace (N.of_nat (S (pk_height x))) with (N.of_nat (pk_height x) + 1) by lia.
    + by etrans.
    + rewrite El. unfold pk_leaves at 2. simpl. rewrite reverse_cons, fmap_app, concat_app. simpl.
      by rewrite app_nil_r, <- !app_assoc.
Qed.

(** ** The invariant *)

(** The peaks are mountains of falling height that cover the leaves in order. *)
Record mmr_shape (m : Mmr) (ms : list peak_t) : Prop := {
  sh_peaks : peak_positions m = pk_pos <$> ms;
  sh_ok : Forall (peak_ok (nodes m)) ms;
  sh_rising : StronglySorted later_peak (reverse ms);
  sh_range : Forall (fun x => (pk_pos x < length (nodes m))%nat) ms;
  sh_leaves : leaf_positions m = concat (pk_leaves <$> ms);
}.

Definition mmr_inv (m : Mmr) : Prop := exists ms, mmr_shape m ms.

Lemma mmr_inv_new : mmr_inv Mmr_new.
Proof. exists []. constructor; done || constructor. Qed.

(** Adding a mountain behind all others. *)
Lemma rising_snoc rest cur :
  rising (S (pk_height cur)) rest -> Forall (fun x => (pk_pos x < pk_pos cur)%nat) rest ->
  StronglySorted later_peak (cur :: rest).
Proof.
  intros [Hs Hh] Hp. constructor; [done|].
  eapply Forall_impl; [apply Forall_and; split; [exact Hh|exact Hp]|].
  intros y [? ?]. unfold later_peak. simpl in *. lia.
Qed.

Lemma append_shape x m ms :
  mmr_shape m ms ->
  exists m', append_leaf_hash sha256 x m = Some (m', leaf_count m) /\ mmr_inv m' /\
    grows (nodes m) (nodes m') /\
    leaf_positions m' = leaf_positions m ++ [length (nodes m)] /\
    exists n, nodes m' !! length (nodes m) = Some n /\ node_hash n = x.
Proof.
  intros [Hp Hok Hs Hr Hl]. unfold append_leaf_hash.
  set (leaf := mkNode x 0 None None None). set (ns := nodes m ++ [leaf]).
  set (cur := (length (nodes m), 0%nat, [length (nodes m)]) : peak_t).
  assert (ns !! length (nodes m) = Some leaf) as Hleaf.
  { unfold ns. rewrite lookup_app_r, Nat.sub_diag by lia. done. }
  assert (peak_ok ns cur) as Hcur by (split; [by eapply mt_leaf|by exists leaf]).
  rewrite Hp, <- fmap_reverse.
  destruct (merge_peaks_spec (reverse ms) ns cur) as
    (ns' & rest & cur' & E & Ho & Hc' & Hr' & Hg' & Hl' & Hp' & El).
  - apply Forall_reverse. eapply Forall_impl; [exact Hok|]. intros y [Hy Hf].
    split; [eapply grows_mountain; [apply grows_push|done]|by apply free_peak_push].
  - done.
  - apply Forall_reverse. exact Hr.
  - unfold ns. rewrite length_app. simpl. unfold pk_pos. simpl. lia.
  - split; [done|]. apply Forall_forall. intros. simpl. unfold pk_height at 1. simpl. lia.
  - change (pk_pos cur) with (length (nodes m)) in E. change (N.of_nat (pk_height cur)) with 0 in E.
    rewrite E. simpl. eexists. split; [by rewrite length_app, Nat2N.inj_add, N.add_sub|].
    rewrite reverse_involutive in El. change (pk_leaves cur) with [length (nodes m)] in El.
    assert (grows (nodes m) ns') as Hg by (etrans; [apply grows_push|exact Hg']).
    destruct (Hg' _ _ Hleaf) as (n & Hn & Hnh & _). split_and!; [|done|done|by exists n].
    exists (reverse rest ++ [cur']). constructor; simpl.
    + by rewrite fmap_app, fmap_reverse.
    + apply Forall_app. split; [by apply Forall_reverse|by constructor].
    + rewrite reverse_app, reverse_involutive. by apply rising_snoc.
    + apply Forall_app. split; [apply Forall_reverse|by constructor].
      eapply Forall_impl; [exact Hp'|]. simpl. lia.
    + rewrite fmap_app, concat_app. simpl. rewrite app_nil_r, El. by rewrite Hl.
Qed.

(** ** From a leaf to its peak *)

Lemma land1_testbit j h : (N.land (N.shiftr j h) 1 =? 1) = N.testbit j h.
Proof.
  rewrite N.testbit_odd, <- N.bit0_odd. change (N.land ?x 1) with (N.land x (N.ones 1)).
  rewrite N.land_ones, N.pow_1_r, <- N.bit0_mod. by destruct (N.testbit _ 0).
Qed.

Lemma climb_app j h xs ys c :
  climb sha256 j h (xs ++ ys) c = climb sha256 j (h + N.of_nat (length xs)) ys (climb sha256 j h xs c).
Proof.
  revert h c. induction xs as [|x xs IH]; intros h c; cbn [climb app length].
  - by rewrite N.add_0_r.
  - rewrite IH. f_equal. lia.
Qed.

(** Only the bits below the height of the path matter. *)
Lemma climb_ext j j' h xs c :
  (forall k, h <= k < h + N.of_nat (length xs) -> N.testbit j k = N.testbit j' k) ->
  climb sha256 j h xs c = climb sha256 j' h xs c.
Proof.
  revert h c. induction xs as [|x xs IH]; intros h c Hb; [done|]. cbn [climb length] in *.
  rewrite !land1_testbit, Hb by lia. apply IH. intros k Hk. apply Hb. lia.
Qed.

Lemma testbit_high j h : j < 2 ^ h -> N.testbit j h = false.
Proof. intros Hj. rewrite N.testbit_eqb, N.div_small by done. done. Qed.

Lemma testbit_add_pow j h : j < 2 ^ h -> N.testbit (2 ^ h + j) h = true.
Proof.
  intros Hj. rewrite N.testbit_eqb. rewrite <- (N.mul_1_l (2 ^ h)) at 1.
  rewrite N.div_add_l, N.div_small by (done || apply N.pow_nonzero; lia). done.
Qed.

Lemma testbit_add_pow_low j h k : k < h -> N.testbit (2 ^ h + j) k = N.testbit j k.
Proof.
  intros Hk. rewrite !N.testbit_eqb. replace h with (k + 1 + (h - k - 1)) by lia.
  rewrite !N.pow_add_r, N.pow_1_r.
  replace (2 ^ k * 2 * 2 ^ (h - k - 1) + j) with (2 ^ (h - k - 1) * 2 * 2 ^ k + j) by lia.
  rewrite N.div_add_l by (apply N.pow_nonzero; lia).
  by rewrite N.add_comm, N.Div0.mod_add.
Qed.

(** Walking up from leaf number [j] of a mountain reaches its root, collecting
    siblings from which the root's hash is recomputed. *)
Lemma mountain_path ns pos h ls j lp :
  mountain ns pos h ls -> ls !! j = Some lp ->
  exists sibs n nr, length sibs = h /\ ns !! lp = Some n /\ ns !! pos = Some nr /\
    (lp + h <= pos)%nat /\
    (forall fuel acc, walk_up (h + fuel) ns lp acc = walk_up fuel ns pos (acc ++ sibs)) /\
    climb sha256 (N.of_nat j) 0 sibs (node_hash n) = node_hash nr.
Proof.
  intros Hm. revert j. induction Hm as [pos n Hn Hh|pos n l r nl nr h ls rs Hn Hh Hl Hr Hnl Hnr E
    Hpl Hpr Hlt Hlt' Hml IHl Hmr IHr]; intros j Hj.
  - destruct j as [|j]; [|done]. simpl in Hj. simplify_eq. exists [], n, n.
    split_and!; try done; [lia|]. intros. simpl. by rewrite app_nil_r.
  - pose proof (mountain_leaves _ _ _ _ Hml) as Hll.
    assert (2 ^ N.of_nat h = N.of_nat (2 ^ h)) as Hpow by (by rewrite Nat2N.inj_pow).
    destruct (decide (j < length ls)%nat) as [Hlo|Hhi].
    + rewrite lookup_app_l in Hj by done.
      destruct (IHl j Hj) as (sibs & n0 & nl' & Hlen & Hn0 & Hnl' & Hle & Hw & Hc). simplify_eq.
      exists (sibs ++ [node_hash nr]), n0, n. rewrite length_app. cbn [length]. split_and!; try done; [lia|lia|..].
      * intros fuel acc. replace (S (length sibs) + fuel)%nat with (length sibs + S fuel)%nat by lia.
        rewrite Hw. cbn [walk_up]. rewrite Hnl. simpl. rewrite Hpl, Hn, Hl, Hr, Hnr.
        rewrite bool_decide_true by done. by rewrite app_assoc.
      * rewrite climb_app, Hc. cbn [climb]. rewrite land1_testbit, N.add_0_l, testbit_high by lia. done.
    + rewrite lookup_app_r in Hj by lia.
      destruct (IHr _ Hj) as (sibs & n0 & nr' & Hlen & Hn0 & Hnr' & Hle & Hw & Hc). simplify_eq.
      exists (sibs ++ [node_hash nl]), n0, n. rewrite length_app. cbn [length]. split_and!; try done; [lia|lia|..].
      * intros fuel acc. replace (S (length sibs) + fuel)%nat with (length sibs + S fuel)%nat by lia.
        rewrite Hw. cbn [walk_up]. rewrite Hnr. simpl. rewrite Hpr, Hn, Hl, Hr, Hnl.
        rewrite bool_decide_false by (intros [=]; lia). rewrite bool_decide_true by done.
        by rewrite app_assoc.
      * apply lookup_lt_Some in Hj. pose proof (mountain_leaves _ _ _ _ Hmr) as Hlr.
        assert (N.of_nat j = 2 ^ N.of_nat (length sibs) + N.of_nat (j - length ls)) as Ej by lia.
        rewrite climb_app, (climb_ext (N.of_nat j) (N.of_nat (j - length ls)) 0 sibs), Hc.
        -- cbn [climb]. rewrite land1_testbit, N.add_0_l, Ej, testbit_add_pow by lia. done.
        -- intros k Hk. rewrite Ej, testbit_add_pow_low by lia. done.
Qed.

End mmr.
