(* ===== verification/MerkleLocate.v ===== *)
(** * Finding the mountain of a leaf

    The verifier knows only the leaf count.  Its binary digits are the heights of
    the mountains, from the tallest to the shortest: [count_ones] is their number
    and the loop [locate] finds the one a leaf index falls in. *)

From S2P Require Import Prelude Bytes Error Transfer Merkle.
#[local] Open Scope N_scope.

(** The number of leaves under mountains of the given heights. *)
Fixpoint sum_pow (hs : list nat) : N :=
  match hs with [] => 0 | h :: hs' => 2 ^ N.of_nat h + sum_pow hs' end.

Definition falling : list nat -> Prop := StronglySorted (fun x y => (y < x)%nat).

Lemma sum_pow_app hs1 hs2 : sum_pow (hs1 ++ hs2) = sum_pow hs1 + sum_pow hs2.
Proof. induction hs1; simpl; lia. Qed.

Lemma sum_pow_bound hs k : falling hs -> Forall (fun h => (h < k)%nat) hs -> sum_pow hs < 2 ^ N.of_nat k.
Proof.
  revert k. induction hs as [|h hs IH]; intros k Hf Hk; simpl.
  - apply N.neq_0_lt_0, N.pow_nonzero. lia.
  - inversion Hf as [|? ? Hf' Hh]; subst. inversion Hk as [|? ? Hlt _]; subst.
    specialize (IH h Hf' Hh).
    assert (2 ^ N.of_nat (S h) <= 2 ^ N.of_nat k) as Hp by (apply N.pow_le_mono_r; lia).
    rewrite Nat2N.inj_succ, N.pow_succ_r' in Hp. lia.
Qed.

Lemma falling_tail h hs : falling (h :: hs) -> falling hs /\ sum_pow hs < 2 ^ N.of_nat h.
Proof. intros Hf. inversion Hf as [|? ? Hf' Hh]; subst. split; [done|by apply sum_pow_bound]. Qed.

Lemma falling_length h hs : falling (h :: hs) -> (length hs <= h)%nat.
Proof.
  revert h. induction hs as [|g hs IH]; intros h Hf; simpl; [lia|].
  inversion Hf as [|? ? Hf' Hh]; subst. inversion Hh as [|? ? Hlt _]; subst.
  specialize (IH g Hf'). lia.
Qed.

Lemma log2_sum h hs : falling (h :: hs) -> N.log2 (sum_pow (h :: hs)) = N.of_nat h.
Proof.
  intros [_ Hb]%falling_tail. apply N.log2_unique; [lia|]. simpl. rewrite N.pow_succ_r'. lia.
Qed.

(** [63 - leading_zeros] is the position of the top bit. *)
Lemma top_bit n : 0 < n -> n < 2 ^ 64 -> 63 - leading_zeros n = N.log2 n.
Proof.
  intros Hn H64. unfold leading_zeros. rewrite N.size_log2 by lia.
  apply N.log2_lt_pow2 in H64; [|done]. lia.
Qed.

Lemma top_bit_pow k : k < 64 -> 63 - leading_zeros (2 ^ k) = k.
Proof.
  intros Hk. rewrite top_bit; [by apply N.log2_pow2; lia| |].
  - apply N.neq_0_lt_0, N.pow_nonzero. lia.
  - apply N.pow_lt_mono_r; lia.
Qed.

Lemma sum_pow_pos h hs : 0 < sum_pow (h :: hs).
Proof. simpl. pose proof (N.pow_nonzero 2 (N.of_nat h)). lia. Qed.

(** The loop finds the mountain that holds the index. *)
Lemma locate_spec fuel i hs off idx k h :
  falling hs -> sum_pow hs < 2 ^ 64 -> hs !! k = Some h -> (k < fuel)%nat ->
  off + sum_pow (take k hs) <= i < off + sum_pow (take k hs) + 2 ^ N.of_nat h ->
  locate fuel i (sum_pow hs) off idx =
    Some ((idx + k)%nat, 2 ^ N.of_nat h, off + sum_pow (take k hs)).
Proof.
  revert i hs off idx k. induction fuel as [|fuel IH]; intros i hs off idx k Hf H64 Hk Hfu Hi; [lia|].
  destruct hs as [|g hs]; [done|]. cbn [locate].
  rewrite (proj2 (N.ltb_lt _ _) (sum_pow_pos g hs)).
  rewrite top_bit, log2_sum, N.shiftl_1_l by (done || apply sum_pow_pos).
  destruct (falling_tail _ _ Hf) as [Hf' Hb]. destruct k as [|k].
  - simpl in Hk, Hi. simplify_eq.
    rewrite (proj2 (N.leb_le off i)), (proj2 (N.ltb_lt i _)) by lia. simpl.
    by rewrite Nat.add_0_r, N.add_0_r.
  - simpl in Hk, Hi |- *. rewrite (proj2 (N.ltb_ge i (off + 2 ^ N.of_nat g))) by lia.
    rewrite andb_false_r.
    replace (2 ^ N.of_nat g + sum_pow hs - 2 ^ N.of_nat g) with (sum_pow hs) by lia.
    rewrite (IH i hs _ (S idx) k) by (done || (simpl in H64; lia)).
    f_equal. f_equal; [f_equal; lia|lia].
Qed.

(** ** Counting bits *)

Lemma count_ones_double n : count_ones (2 * n) = count_ones n.
Proof. by destruct n. Qed.

Lemma count_ones_succ_double n : count_ones (2 * n + 1) = 1 + count_ones n.
Proof. by destruct n. Qed.

Lemma count_ones_pow_add h r :
  r < 2 ^ N.of_nat h -> count_ones (2 ^ N.of_nat h + r) = 1 + count_ones r.
Proof.
  revert r. induction h as [|h IH]; intros r Hr.
  - simpl in *. by replace r with 0 by lia.
  - rewrite Nat2N.inj_succ, N.pow_succ_r' in *.
    destruct (N.Even_or_Odd r) as [[q ->]|[q ->]].
    + rewrite <- N.mul_add_distr_l, !count_ones_double. apply IH. lia.
    + rewrite N.add_assoc, <- N.mul_add_distr_l, !count_ones_succ_double, IH by lia. done.
Qed.

Lemma count_ones_sum hs : falling hs -> count_ones (sum_pow hs) = N.of_nat (length hs).
Proof.
  induction hs as [|h hs IH]; intros Hf; [done|]. destruct (falling_tail _ _ Hf) as [Hf' Hb].
  cbn [sum_pow length]. rewrite count_ones_pow_add, IH by done. lia.
Qed.

(** The fuel of [verify]'s search covers all mountains. *)
Lemma locate_fuel hs k h :
  falling hs -> hs !! k = Some h -> (k < S (N.size_nat (sum_pow hs)))%nat.
Proof.
  intros Hf Hk. destruct hs as [|g hs]; [done|]. apply lookup_lt_Some in Hk. simpl in Hk.
  pose proof (falling_length _ _ Hf). pose proof (size_nat_size (sum_pow (g :: hs))) as Hs.
  rewrite N.size_log2, log2_sum in Hs by (done || (pose proof (sum_pow_pos g hs); lia)). lia.
Qed.
