(* ===== verification/MerkleProof.v ===== *)
(** * Inclusion proofs of a Merkle Mountain Range

    What the verifier sees of a well-formed range, the strings hashed on each side,
    and from these completeness and binding of proofs, used by the properties of
    the range and by the settlement program. *)

From Stdlib Require Import Ascii.
From S2P Require Import Prelude Bytes Error Transfer Merkle MerkleInv MerkleLocate.
#[local] Open Scope N_scope.

Section mmr.
Context (sha256 : bytes -> Hash32).

(** ** From the shape to the verifier's view *)

Lemma sorted_reverse {A} (R : relation A) l :
  StronglySorted R (reverse l) -> StronglySorted (flip R) l.
Proof.
  induction l as [|x l IH]; [constructor|]. rewrite reverse_cons, StronglySorted_app.
  intros (Hx & Hl & _). constructor; [by apply IH|]. apply Forall_forall. intros y Hy.
  apply Hx; [by apply elem_of_reverse|by apply list_elem_of_singleton].
Qed.

Lemma shape_falling m ms : mmr_shape sha256 m ms -> falling (pk_height <$> ms).
Proof.
  intros [_ _ Hs _ _]. apply sorted_reverse in Hs. induction Hs as [|x ms Hs IH Hx]; [constructor|].
  cbn [fmap list_fmap]. constructor; [exact IH|]. apply Forall_fmap.
  eapply Forall_impl; [exact Hx|]. intros y [? _]. done.
Qed.

Lemma leaves_sum ns ms :
  Forall (peak_ok sha256 ns) ms ->
  N.of_nat (length (concat (pk_leaves <$> ms))) = sum_pow (pk_height <$> ms).
Proof.
  induction 1 as [|x ms [Hm _] _ IH]; [done|]. cbn [fmap list_fmap concat sum_pow].
  rewrite length_app, Nat2N.inj_add, (mountain_leaves _ _ _ _ _ Hm), Nat2N.inj_pow. by rewrite <- IH.
Qed.

Lemma concat_lookup {A} (lls : list (list A)) i x :
  concat lls !! i = Some x ->
  exists k ls, lls !! k = Some ls /\ (length (concat (take k lls)) <= i)%nat /\
    ls !! (i - length (concat (take k lls)))%nat = Some x.
Proof.
  revert i. induction lls as [|ls lls IH]; intros i Hi; [done|]. simpl in Hi.
  destruct (decide (i < length ls)%nat) as [Hlt|Hge].
  - rewrite lookup_app_l in Hi by done. exists 0%nat, ls. simpl. rewrite Nat.sub_0_r.
    split_and!; [done|lia|done].
  - rewrite lookup_app_r in Hi by lia. destruct (IH _ Hi) as (k & ls' & Hk & Hle & Hx).
    exists (S k), ls'. simpl. rewrite length_app. split_and!; [done|lia|].
    rewrite <- Hx. f_equal. lia.
Qed.

(** The mountain of a leaf, as the verifier locates it. *)
Lemma leaf_mountain m ms i lp :
  mmr_shape sha256 m ms -> leaf_positions m !! N.to_nat i = Some lp ->
  exists k x, ms !! k = Some x /\
    let off := sum_pow (take k (pk_height <$> ms)) in
    off <= i < off + 2 ^ N.of_nat (pk_height x) /\
    pk_leaves x !! N.to_nat (i - off) = Some lp.
Proof.
  intros [_ Hok _ _ Hl] Hi. rewrite Hl in Hi.
  apply concat_lookup in Hi as (k & ls & Hk & Hle & Hx).
  rewrite list_lookup_fmap in Hk. destruct (ms !! k) as [x|] eqn:Ex; [|done]. simplify_eq/=.
  exists k, x. split; [done|]. rewrite <- fmap_take in *.
  pose proof (leaves_sum (nodes m) (take k ms) (Forall_take _ _ _ Hok)) as Hs.
  cbv zeta. rewrite <- Hs.
  assert (mountain sha256 (nodes m) (pk_pos x) (pk_height x) (pk_leaves x)) as Hm.
  { rewrite Forall_forall in Hok. apply Hok. by eapply list_elem_of_lookup_2. }
  pose proof (mountain_leaves _ _ _ _ _ Hm) as Hlen. pose proof (lookup_lt_Some _ _ _ Hx) as Hlt.
  assert (2 ^ N.of_nat (pk_height x) = N.of_nat (2 ^ pk_height x)) as -> by (by rewrite Nat2N.inj_pow).
  rewrite <- fmap_take in Hle, Hx, Hlt. split; [lia|]. rewrite <- Hx. f_equal. lia.
Qed.

Lemma peaks_hashes m ms :
  mmr_shape sha256 m ms ->
  length (peaks m) = length ms /\
  forall k x n, ms !! k = Some x -> nodes m !! pk_pos x = Some n -> peaks m !! k = Some (node_hash n).
Proof.
  intros [Hp Hok _ _ _]. unfold peaks. rewrite Hp. clear Hp.
  induction Hok as [|x ms [Hm _] _ [IHl IHk]]; [done|].
  destruct (mountain_height _ _ _ _ _ Hm) as (n & Hn & _).
  cbn [fmap list_fmap omap list_omap]. rewrite Hn. cbn [fmap option_fmap option_map]. split.
  - simpl. by rewrite IHl.
  - intros [|k] y n' Hk Hn'; simpl in *; [by simplify_eq|]. eauto.
Qed.

(** What [verify] checks, for a proof against an MMR of the same leaf count. *)
Lemma verify_shape m ms i pf root x k mt :
  mmr_shape sha256 m ms -> leaf_count m < 2 ^ 64 -> i < leaf_count m ->
  pf_leaf_index pf = i -> pf_leaf_count pf = leaf_count m ->
  ms !! k = Some mt ->
  let off := sum_pow (take k (pk_height <$> ms)) in
  off <= i < off + 2 ^ N.of_nat (pk_height mt) ->
  verify sha256 pf root x = Ok tt <->
  length (pf_peaks pf) = length ms /\ length (siblings pf) = pk_height mt /\
  pf_peaks pf !! k = Some (climb sha256 (i - off) 0 (siblings pf) x) /\
  bag_peaks sha256 (pf_peaks pf) = root.
Proof.
  intros Hsh H64 Hlt Ei Ec Hk off Hoff.
  pose proof (shape_falling m ms Hsh) as Hf. pose proof Hsh as [_ Hok _ _ Hl].
  assert (leaf_count m = sum_pow (pk_height <$> ms)) as Hc
    by (unfold leaf_count; rewrite Hl; by eapply leaves_sum).
  assert ((pk_height <$> ms) !! k = Some (pk_height mt)) as Hkh by (by rewrite list_lookup_fmap, Hk).
  assert (N.of_nat (pk_height mt) < 64) as Hh64.
  { apply (N.pow_lt_mono_r_iff 2); [lia|]. eapply N.le_lt_trans; [|exact H64]. rewrite Hc.
    rewrite <- (take_drop_middle _ _ _ Hkh), sum_pow_app. simpl. lia. }
  unfold verify. rewrite Ei, Ec.
  rewrite (proj2 (N.eqb_neq (leaf_count m) 0)) by lia.
  rewrite (proj2 (N.leb_gt (leaf_count m) i)) by done.
  rewrite Hc, count_ones_sum, length_fmap by done.
  rewrite (locate_spec _ i (pk_height <$> ms) 0 0 k (pk_height mt)); [|done|by rewrite <- Hc|done| |].
  2: by eapply locate_fuel. 2: { rewrite N.add_0_l. exact Hoff. }
  rewrite N.add_0_l, top_bit_pow by done. simpl. fold off.
  destruct (N.eqb_spec (N.of_nat (length (pf_peaks pf))) (N.of_nat (length ms))); simpl;
    [|split; [done|intros [? _]; lia]].
  destruct (N.eqb_spec (N.of_nat (length (siblings pf))) (N.of_nat (pk_height mt))); simpl;
    [|split; [done|intros (_ & ? & _); lia]].
  destruct (pf_peaks pf !! k) as [pk|]; [|split; [done|by intros (_ & _ & ? & _)]].
  case_bool_decide as E1; simpl; [|split; [done|intros (_ & _ & [= ->] & _); done]].
  case_bool_decide as E2; simpl; [|split; [done|intros (_ & _ & _ & ?); done]].
  split; [|done]. intros _. split_and!; [lia|lia|by rewrite E1|done].
Qed.

(** ** Collisions *)

Definition node_input (l r : Hash32) : bytes := [NODE_PREFIX] ++ vec_to_list l ++ vec_to_list r.
Definition peak_input (l r : Hash32) : bytes := [PEAK_PREFIX] ++ vec_to_list l ++ vec_to_list r.

(** The strings hashed while bagging peaks, while climbing a path, and by the
    parents of a node array. *)
Fixpoint fold_inputs (acc : Hash32) (rest : list Hash32) : list bytes :=
  match rest with
  | [] => []
  | p :: rest' => peak_input p acc :: fold_inputs (combine_peaks sha256 p acc) rest'
  end.
Definition bag_inputs (ps : list Hash32) : list bytes :=
  match reverse ps with [] => [] | first :: rest => fold_inputs first rest end.

Fixpoint climb_inputs (j h : N) (sibs : list Hash32) (curr : Hash32) : list bytes :=
  match sibs with
  | [] => []
  | s :: rest =>
      let input := if N.testbit j h then node_input s curr else node_input curr s in
      input :: climb_inputs j (h + 1) rest (sha256 input)
  end.

Definition parent_inputs (ns : list MmrNode) : list bytes :=
  omap (fun n => l ← left_child n; r ← right_child n; nl ← ns !! l; nr ← ns !! r;
                 Some (node_input (node_hash nl) (node_hash nr))) ns.

(** Two different strings, one of each list, with the same hash. *)
Definition collision (xs ys : list bytes) : Prop :=
  exists a b, a ∈ xs /\ b ∈ ys /\ a <> b /\ sha256 a = sha256 b.

Lemma collision_mono xs ys xs' ys' : xs ⊆ xs' -> ys ⊆ ys' -> collision xs ys -> collision xs' ys'.
Proof. intros Hx Hy (a & b & Ha & Hb & Hne & He). exists a, b. auto. Qed.

Lemma pair_input_inj (p : byte) (l r l' r' : Hash32) :
  [p] ++ vec_to_list l ++ vec_to_list r = [p] ++ vec_to_list l' ++ vec_to_list r' -> l = l' /\ r = r'.
Proof.
  intros [= E]. apply app_inj_1 in E as [El Er]; [|by rewrite !length_vec_to_list].
  split; by apply vec_to_list_inj2.
Qed.

Lemma fold_binding a b r r' :
  length r = length r' ->
  foldl (fun acc peak => combine_peaks sha256 peak acc) a r =
  foldl (fun acc peak => combine_peaks sha256 peak acc) b r' ->
  (a = b /\ r = r') \/ collision (fold_inputs a r) (fold_inputs b r').
Proof.
  revert a b r'. induction r as [|p r IH]; intros a b [|q r'] Hl E; try done; [by left|].
  simpl in *. destruct (IH _ _ r' ltac:(lia) E) as [[Ec ->]|Hc].
  - destruct (decide (peak_input p a = peak_input q b)) as [Ei|Hne].
    + apply pair_input_inj in Ei as [-> ->]. by left.
    + right. exists (peak_input p a), (peak_input q b). split_and!; [left|left|done|done].
  - right. eapply collision_mono; [..|exact Hc]; by apply list_subseteq_cons_r || (intros ? ?; by right).
Qed.

(** Equal roots of the same number of peaks bind the peaks. *)
Lemma bag_binding ps qs :
  length ps = length qs -> bag_peaks sha256 ps = bag_peaks sha256 qs ->
  ps = qs \/ collision (bag_inputs ps) (bag_inputs qs).
Proof.
  intros Hl. unfold bag_peaks, bag_inputs. rewrite <- (length_reverse ps), <- (length_reverse qs) in Hl.
  rewrite <- (reverse_involutive ps) at 2. rewrite <- (reverse_involutive qs) at 2.
  destruct (reverse ps) as [|a r], (reverse qs) as [|b r']; try done; [by left|].
  intros E. simpl in Hl. destruct (fold_binding a b r r' ltac:(lia) E) as [[-> ->]|Hc]; auto.
Qed.

Lemma climb_inputs_app j h xs ys c :
  climb_inputs j h (xs ++ ys) c =
  climb_inputs j h xs c ++
    climb_inputs j (h + N.of_nat (length xs)) ys (climb sha256 j h xs c).
Proof.
  revert h c. induction xs as [|x xs IH]; intros h c; cbn [climb_inputs climb app length].
  - by rewrite N.add_0_r.
  - rewrite IH, land1_testbit. f_equal. f_equal. 
    replace (h + 1 + N.of_nat (length xs)) with (h + N.of_nat (S (length xs))) by lia.
    by destruct (N.testbit j h).
Qed.

Lemma climb_inputs_ext j j' h xs c :
  (forall k, h <= k < h + N.of_nat (length xs) -> N.testbit j k = N.testbit j' k) ->
  climb_inputs j h xs c = climb_inputs j' h xs c.
Proof.
  revert h c. induction xs as [|x xs IH]; intros h c Hb; [done|]. cbn [climb_inputs length] in *.
  rewrite Hb by lia. f_equal. apply IH. intros k Hk. apply Hb. lia.
Qed.

Lemma mountain_parent_input ns pos n l r nl nr :
  ns !! pos = Some n -> left_child n = Some l -> right_child n = Some r ->
  ns !! l = Some nl -> ns !! r = Some nr ->
  node_input (node_hash nl) (node_hash nr) ∈ parent_inputs ns.
Proof.
  intros Hn Hl Hr Hnl Hnr. apply list_elem_of_omap. exists n.
  split; [by eapply list_elem_of_lookup_2|]. rewrite Hl. simpl. rewrite Hr. simpl. rewrite Hnl. simpl.
  by rewrite Hnr.
Qed.

(** One step of the descent: the hash of a parent binds its children. *)
Lemma parent_binding c s c' s' ys :
  sha256 (node_input c s) = sha256 (node_input c' s') -> node_input c' s' ∈ ys ->
  (c = c' /\ s = s') \/ collision [node_input c s] ys.
Proof.
  intros E Hin. destruct (decide (node_input c s = node_input c' s')) as [Ei|Hne].
  - left. by apply pair_input_inj in Ei.
  - right. exists (node_input c s), (node_input c' s'). split_and!; [by left|done|done|done].
Qed.

Lemma path_binding ns pos h ls j lp n nr sibs x :
  mountain sha256 ns pos h ls -> ls !! j = Some lp -> ns !! lp = Some n -> ns !! pos = Some nr ->
  length sibs = h -> climb sha256 (N.of_nat j) 0 sibs x = node_hash nr ->
  x = node_hash n \/ collision (climb_inputs (N.of_nat j) 0 sibs x) (parent_inputs ns).
Proof.
  intros Hm. revert j lp n nr sibs. induction Hm as [pos m Hm Hh|pos m l r nl nr0 h ls rs Hm Hh Hl Hr Hnl Hnr E
    Hpl Hpr Hlt Hlt' Hml IHl Hmr IHr]; intros j lp n nr sibs Hj Hn Hnr' Hs Hc.
  { destruct j; [|done]. destruct sibs; [|done]. simpl in *. simplify_eq. by left. }
  pose proof (mountain_leaves _ _ _ _ _ Hml) as Hll.
  assert (2 ^ N.of_nat h = N.of_nat (2 ^ h)) as Hpow by (by rewrite Nat2N.inj_pow).
  destruct (exists_last (l := sibs)) as (init & s & ->); [by intros ->|].
  rewrite length_app in Hs. simpl in Hs. assert (length init = h) as Hi by lia.
  rewrite climb_inputs_app. rewrite climb_app in Hc. cbn [climb climb_inputs] in *.
  assert (nr = m) as -> by congruence. subst h.
  rewrite land1_testbit, N.add_0_l in *. rewrite E in Hc.
  pose proof (mountain_parent_input ns pos m l r nl nr0 Hm Hl Hr Hnl Hnr) as Hin.
  destruct (decide (j < length ls)%nat) as [Hlo|Hhi].
  - rewrite lookup_app_l in Hj by done. rewrite testbit_high in * by lia.
    destruct (parent_binding _ _ _ _ _ Hc Hin) as [[Ec _]|Hcol].
    + destruct (IHl j lp n nl init Hj Hn Hnl eq_refl Ec) as [|Hcol]; [by left|right].
      eapply collision_mono; [| |exact Hcol]; [|done]. intros ? ?. apply elem_of_app. by left.
    + right. eapply collision_mono; [| |exact Hcol]; [|done]. intros ? ?. apply elem_of_app. by right.
  - rewrite lookup_app_r in Hj by lia. pose proof (lookup_lt_Some _ _ _ Hj) as Hjl.
    pose proof (mountain_leaves _ _ _ _ _ Hmr) as Hlr.
    assert (N.of_nat j = 2 ^ N.of_nat (length init) + N.of_nat (j - length ls)) as Ej by lia.
    assert (forall k, 0 <= k < 0 + N.of_nat (length init) ->
      N.testbit (N.of_nat j) k = N.testbit (N.of_nat (j - length ls)) k) as Hbits
      by (intros k Hk; rewrite Ej, testbit_add_pow_low by lia; done).
    rewrite (climb_inputs_ext _ _ 0 init x Hbits). rewrite (climb_ext _ _ _ 0 init x Hbits) in Hc |- *.
    assert (N.testbit (N.of_nat j) (N.of_nat (length init)) = true) as Hb
      by (rewrite Ej; apply testbit_add_pow; lia). rewrite Hb in *.
    destruct (parent_binding _ _ _ _ _ Hc Hin) as [[_ Ec]|Hcol].
    + destruct (IHr _ lp n nr0 init Hj Hn Hnr eq_refl Ec) as [|Hcol]; [by left|right].
      eapply collision_mono; [| |exact Hcol]; [|done]. intros ? ?. apply elem_of_app. by left.
    + right. eapply collision_mono; [| |exact Hcol]; [|done]. intros ? ?. apply elem_of_app. by right.
Qed.

(** ** Appending *)

Lemma leaf_lookup m ms i :
  mmr_shape sha256 m ms -> i < leaf_count m ->
  exists lp n, leaf_positions m !! N.to_nat i = Some lp /\ nodes m !! lp = Some n /\
    mmr_leaf_hash m i = Ok (node_hash n).
Proof.
  intros Hsh Hi. destruct (lookup_lt_is_Some_2 (leaf_positions m) (N.to_nat i)) as [lp Hlp];
    [unfold leaf_count in Hi; lia|].
  destruct (leaf_mountain m ms i lp Hsh Hlp) as (k & x & Hk & _ & Hx).
  pose proof Hsh as [_ Hok _ _ _]. rewrite Forall_forall in Hok.
  destruct (Hok x) as [Hm _]; [by eapply list_elem_of_lookup_2|].
  destruct (mountain_path _ _ _ _ _ _ _ Hm Hx) as (_ & n & _ & _ & Hn & _).
  exists lp, n. split_and!; [done|done|]. unfold mmr_leaf_hash. by rewrite Hlp, Hn.
Qed.

(** An MMR built from leaf hashes. *)
Fixpoint append_all (xs : list Hash32) (m : Mmr) : option Mmr :=
  match xs with
  | [] => Some m
  | x :: rest => '(m', _) ← append_leaf_hash sha256 x m; append_all rest m'
  end.
Definition build (xs : list Hash32) : option Mmr := append_all xs Mmr_new.

Definition holds_leaves (m : Mmr) (xs : list Hash32) : Prop :=
  leaf_count m = N.of_nat (length xs) /\
  forall i x, xs !! i = Some x -> exists lp n, leaf_positions m !! i = Some lp /\
    nodes m !! lp = Some n /\ node_hash n = x.

Lemma append_all_ok xs ys m :
  mmr_inv sha256 m -> holds_leaves m ys ->
  exists m', append_all xs m = Some m' /\ mmr_inv sha256 m' /\ holds_leaves m' (ys ++ xs).
Proof.
  revert ys m. induction xs as [|x xs IH]; intros ys m [ms Hsh] [Hc Hy].
  { exists m. rewrite app_nil_r. split_and!; [done|by exists ms|done]. }
  destruct (append_shape sha256 x m ms Hsh) as (m1 & E & Hi & Hg & Hl & n & Hn & Hx).
  destruct (IH (ys ++ [x]) m1 Hi) as (m' & E' & Hi' & Hh').
  - split.
    + unfold leaf_count in *. rewrite Hl, !length_app. simpl. lia.
    + intros i z Hz. apply lookup_app_Some in Hz as [Hz|[Hge Hz]].
      * destruct (Hy i z Hz) as (lp & n0 & Hlp & Hn0 & <-).
        destruct (Hg lp n0 Hn0) as (n1 & Hn1 & E1 & _). exists lp, n1.
        rewrite Hl, (lookup_app_l_Some _ _ _ _ Hlp). done.
      * apply list_lookup_singleton_Some in Hz as [Hz <-]. exists (length (nodes m)), n.
        unfold leaf_count in Hc. rewrite Hl, lookup_app_r by lia.
        replace (i - length (leaf_positions m))%nat with 0%nat by lia. done.
  - exists m'. cbn [append_all]. rewrite E. simpl. rewrite <- app_assoc in Hh'. done.
Qed.

Lemma build_ok xs : exists m, build xs = Some m /\ mmr_inv sha256 m /\ holds_leaves m xs.
Proof. apply (append_all_ok xs [] Mmr_new (mmr_inv_new sha256)). split; [done|]. by intros i x. Qed.

(** ** Completeness and binding *)

Lemma build_proofs xs :
  N.of_nat (length xs) < 2 ^ 64 ->
  exists m, build xs = Some m /\
    forall i x, xs !! i = Some x ->
      exists pf, generate_proof m (N.of_nat i) = Some (Ok pf) /\
        verify sha256 pf (root sha256 m) x = Ok tt.
Proof.
  intros H64. destruct (build_ok xs) as (m & Hb & [ms Hsh] & Hc & Hx). exists m. split; [done|].
  intros i x Hi. destruct (Hx i x Hi) as (lp & n & Hlp & Hn & <-).
  rewrite <- (Nat2N.id i) in Hlp. rewrite <- Hc in H64.
  destruct (leaf_mountain m ms _ lp Hsh Hlp) as (k & mt & Hk & Hoff & Hl).
  set (off := sum_pow (take k (pk_height <$> ms))) in *.
  pose proof Hsh as [_ Hok _ _ _]. rewrite Forall_forall in Hok.
  destruct (Hok mt) as [Hm [np [Hnp Hfree]]]; [by eapply list_elem_of_lookup_2|].
  destruct (mountain_path _ _ _ _ _ _ _ Hm Hl) as (sibs & n' & nr & Hs & Hn' & Hnr & Hle & Hw & Hcl).
  simplify_eq. pose proof (lookup_lt_Some _ _ _ Hnp) as Hlt.
  set (pf := mkProof (N.of_nat i) (leaf_count m) sibs (peaks m)). exists pf. split.
  - unfold generate_proof. rewrite Hlp.
    replace (S (length (nodes m))) with (pk_height mt + S (length (nodes m) - pk_height mt))%nat by lia.
    rewrite Hw. cbn [walk_up]. rewrite Hnp. simpl. by rewrite Hfree.
  - destruct (peaks_hashes m ms Hsh) as [Hpl Hpk].
    apply (verify_shape m ms (N.of_nat i) pf (root sha256 m) _ k mt); try done.
    + apply lookup_lt_Some in Hlp. unfold leaf_count. lia.
    + split_and!; [exact Hpl|done| |done]. fold off. rewrite <- (N2Nat.id (N.of_nat i - off)).
      simpl. rewrite Hcl. by eapply Hpk.
Qed.

Lemma verify_binds xs m pf x :
  build xs = Some m -> N.of_nat (length xs) < 2 ^ 64 ->
  pf_leaf_count pf = N.of_nat (length xs) -> verify sha256 pf (root sha256 m) x = Ok tt ->
  xs !! N.to_nat (pf_leaf_index pf) = Some x \/
  exists local, collision
    (bag_inputs (pf_peaks pf) ++ climb_inputs local 0 (siblings pf) x)
    (bag_inputs (peaks m) ++ parent_inputs (nodes m)).
Proof.
  intros Hb H64 Hpc Hv. destruct (build_ok xs) as (m0 & Hb0 & [ms Hsh] & Hc & Hx). simplify_eq.
  rewrite <- Hc in H64, Hpc. set (i := pf_leaf_index pf) in *.
  assert (i < leaf_count m) as Hi.
  { unfold verify in Hv. fold i in Hv. rewrite Hpc in Hv. destruct (_ =? 0); [done|].
    destruct (N.leb_spec (leaf_count m) i); done. }
  destruct (lookup_lt_is_Some_2 xs (N.to_nat i)) as [y Hy]; [lia|].
  destruct (Hx _ y Hy) as (lp & n & Hlp & Hn & <-).
  destruct (leaf_mountain m ms i lp Hsh Hlp) as (k & mt & Hk & Hoff & Hl).
  pose proof (proj1 (verify_shape m ms i pf (root sha256 m) x k mt Hsh H64 Hi eq_refl Hpc Hk Hoff) Hv)
    as (Hlen & Hs & Hpk & Hroot).
  set (off := sum_pow (take k (pk_height <$> ms))) in *.
  destruct (peaks_hashes m ms Hsh) as [Hpl Hph].
  destruct (bag_binding (pf_peaks pf) (peaks m) ltac:(congruence) Hroot) as [Ep|Hcol].
  2: { right. exists 0. eapply collision_mono; [| |exact Hcol];
       intros ? ?; apply elem_of_app; by left. }
  pose proof Hsh as [_ Hok _ _ _]. rewrite Forall_forall in Hok.
  destruct (Hok mt) as [Hm [np [Hnp _]]]; [by eapply list_elem_of_lookup_2|].
  rewrite Ep, (Hph k mt np Hk Hnp) in Hpk. injection Hpk as Ec.
  rewrite <- (N2Nat.id (i - off)) in Ec.
  destruct (path_binding _ _ _ _ _ _ _ _ (siblings pf) x Hm Hl Hn Hnp Hs (eq_sym Ec)) as [->|Hcol].
  - by left.
  - right. eexists. eapply collision_mono; [| |exact Hcol]; intros ? ?; apply elem_of_app; by right.
Qed.

End mmr.
