(* ===== verification/MerkleProps.v ===== *)
(** * Properties of the Merkle Mountain Range

    Completeness and soundness of inclusion proofs, the effect of appending, and
    the text form of hashes, over the definitions of [Merkle]. *)

From Stdlib Require Import Ascii.
From S2P Require Import Prelude Bytes Error Transfer Merkle MerkleInv MerkleLocate MerkleProof.
#[local] Open Scope N_scope.

Section mmr.
Context (sha256 : bytes -> Hash32).

(** Appending a leaf never goes out of range, returns the index of the new leaf,
    keeps the mountains well formed, and changes no other leaf. *)
Theorem append_leaf_spec x m :
  mmr_inv sha256 m ->
  exists m', append_leaf_hash sha256 x m = Some (m', leaf_count m) /\ mmr_inv sha256 m' /\
    leaf_count m' = leaf_count m + 1 /\ mmr_leaf_hash m' (leaf_count m) = Ok x /\
    forall i, i < leaf_count m -> mmr_leaf_hash m' i = mmr_leaf_hash m i.
Proof.
  intros [ms Hsh]. destruct (append_shape sha256 x m ms Hsh) as (m' & E & Hi & Hg & Hl & n & Hn & Hx).
  exists m'. split_and!; [done|done|..].
  - unfold leaf_count. rewrite Hl, length_app. simpl. lia.
  - unfold mmr_leaf_hash, leaf_count. rewrite Nat2N.id, Hl, lookup_app_r, Nat.sub_diag by lia.
    simpl. rewrite Hn. simpl. by rewrite Hx.
  - intros i Hlt. destruct (leaf_lookup sha256 m ms i Hsh Hlt) as (lp & n0 & Hlp & Hn0 & ->).
    destruct (Hg lp n0 Hn0) as (n1 & Hn1 & E1 & _).
    unfold mmr_leaf_hash. rewrite Hl, (lookup_app_l_Some _ _ _ _ Hlp), Hn1. simpl. by rewrite E1.
Qed.

(** C15: every proof the MMR generates is accepted.  For leaves [xs] the MMR can be
    built, a proof is generated for each leaf, and it verifies that leaf's hash
    against the root. *)
Theorem generated_proofs_verify xs :
  N.of_nat (length xs) < 2 ^ 64 ->
  exists m, build sha256 xs = Some m /\
    forall i x, xs !! i = Some x ->
      exists pf, generate_proof m (N.of_nat i) = Some (Ok pf) /\
        verify sha256 pf (root sha256 m) x = Ok tt.
Proof. apply build_proofs. Qed.

(** C14: an accepted proof is right or exhibits a collision.  A proof for the right
    leaf count that verifies against the root of the MMR of [xs] is for the leaf at
    its index, or two different strings with the same SHA-256 hash are among those
    hashed by the verifier and by the MMR. *)
Theorem accepted_proofs_bind xs m pf x :
  build sha256 xs = Some m -> N.of_nat (length xs) < 2 ^ 64 ->
  pf_leaf_count pf = N.of_nat (length xs) -> verify sha256 pf (root sha256 m) x = Ok tt ->
  xs !! N.to_nat (pf_leaf_index pf) = Some x \/
  exists local, collision sha256
    (bag_inputs sha256 (pf_peaks pf) ++ climb_inputs sha256 local 0 (siblings pf) x)
    (bag_inputs sha256 (peaks m) ++ parent_inputs (nodes m)).
Proof. apply verify_binds. Qed.

(** The leaf count is not bound by the root.  A verifier that takes the leaf
    count from the proof accepts the root itself as the only leaf of the tree, and
    an inner node as a leaf of a smaller tree. *)
Theorem leaf_count_unbound :
  (forall r, verify sha256 (mkProof 0 1 [] [r]) r r = Ok tt) /\
  (forall a b c d, exists m, build sha256 [a; b; c; d] = Some m /\
     verify sha256 (mkProof 0 2 [combine_nodes sha256 c d] (peaks m)) (root sha256 m)
       (combine_nodes sha256 a b) = Ok tt).
Proof.
  split.
  - intros r. unfold verify. simpl. rewrite bool_decide_true by done. simpl.
    unfold bag_peaks. simpl. by rewrite bool_decide_true by done.
  - intros a b c d. eexists. split; [reflexivity|]. unfold verify. simpl.
    rewrite bool_decide_true by done. simpl. by rewrite bool_decide_true by done.
Qed.

End mmr.

(** ** Hexadecimal text *)

Lemma nibble_digit n k : n < 16 -> decode_hex_nibble (hex_digit n) k = Ok n.
Proof.
  intros Hn. unfold decode_hex_nibble, hex_digit.
  rewrite N_ascii_embedding by (destruct (n <? 10); lia).
  destruct (N.ltb_spec n 10).
  - rewrite (proj2 (N.leb_le 48 _)), (proj2 (N.leb_le _ 57)) by lia. simpl. f_equal. lia.
  - rewrite (proj2 (N.leb_gt (87 + n) 57)), andb_false_r by lia.
    rewrite (proj2 (N.leb_le 97 _)), (proj2 (N.leb_le _ 102)) by lia. simpl. f_equal. lia.
Qed.

Lemma nibbles_byte b : byte_of (N.lor (N.shiftl (Byte.to_N b / 16) 4) (Byte.to_N b mod 16)) = b.
Proof. by destruct b. Qed.

Lemma hex_bytes_of n (v : vec byte n) i : hex_bytes n i (hex_of (vec_to_list v)) = Ok v.
Proof.
  revert i. induction v as [|b n v IH]; intros i; [done|]. cbn [vec_to_list hex_of hex_bytes].
  pose proof (Byte.to_N_bounded b).
  rewrite !nibble_digit by (apply N.Div0.div_lt_upper_bound || apply N.mod_lt; lia). simpl.
  rewrite IH. simpl. by rewrite nibbles_byte.
Qed.

Lemma length_hex_of bs : String.length (hex_of bs) = (2 * length bs)%nat.
Proof. induction bs as [|b bs IH]; simpl; [done|]. rewrite IH. lia. Qed.

(** The hexadecimal text of a hash has 64 characters and parses back to it. *)
Theorem hex_roundtrip h : String.length (to_hex h) = 64%nat /\ from_hex (to_hex h) = Ok h.
Proof.
  assert (String.length (to_hex h) = 64%nat) as Hl.
  { unfold to_hex. rewrite length_hex_of, length_vec_to_list. done. }
  split; [done|]. unfold from_hex. rewrite Hl. simpl negb. apply hex_bytes_of.
Qed.

(** ** A worked tree *)

Fixpoint vec_take (n : nat) (bs : bytes) : vec byte n :=
  match n with
  | O => [#]
  | S n' => match bs with [] => x00 ::: vec_take n' [] | b :: bs' => b ::: vec_take n' bs' end
  end.

(** A stand-in for the hash function: the checksum and length of its input. *)
Definition toy_hash (bs : bytes) : Hash32 :=
  vec_take 32 (le_bytes 4 (crc32c (Crc32c := castagnoli) bs) ++ le_bytes 4 (N.of_nat (length bs))).

(** Seven leaves: mountains of four, two and one. *)
Definition toy_leaves : list Hash32 :=
  (fun i => hash_leaf toy_hash [byte_of i]) <$> [1; 2; 3; 4; 5; 6; 7].
Definition toy_mmr : Mmr := default Mmr_new (build toy_hash toy_leaves).
Definition toy_proof : MmrProof :=
  match generate_proof toy_mmr 5 with Some (Ok pf) => pf | _ => mkProof 0 0 [] [] end.

Lemma append_leaf_spec_witness :
  exists m', append_leaf_hash toy_hash (hash_leaf toy_hash [x09]) Mmr_new = Some (m', 0) /\
    mmr_leaf_hash m' 0 = Ok (hash_leaf toy_hash [x09]).
Proof.
  destruct (append_leaf_spec toy_hash (hash_leaf toy_hash [x09]) Mmr_new (mmr_inv_new toy_hash))
    as (m' & E & _ & _ & Hx & _). exists m'. split; [exact E|exact Hx].
Defined.

Lemma generated_proofs_verify_witness :
  exists m, build toy_hash toy_leaves = Some m /\
    forall i x, toy_leaves !! i = Some x -> exists pf, generate_proof m (N.of_nat i) = Some (Ok pf) /\
      verify toy_hash pf (root toy_hash m) x = Ok tt.
Proof. apply (generated_proofs_verify toy_hash toy_leaves). by vm_compute. Defined.

Lemma accepted_proofs_bind_witness :
  toy_leaves !! 5%nat = Some (hash_leaf toy_hash [x06]) \/
  exists local, collision toy_hash
    (bag_inputs toy_hash (pf_peaks toy_proof) ++
       climb_inputs toy_hash local 0 (siblings toy_proof) (hash_leaf toy_hash [x06]))
    (bag_inputs toy_hash (peaks toy_mmr) ++ parent_inputs (nodes toy_mmr)).
Proof.
  apply (accepted_proofs_bind toy_hash toy_leaves toy_mmr toy_proof (hash_leaf toy_hash [x06]));
    by vm_compute.
Defined.
