(* ===== verification/Codec.v ===== *)
(** * Journal batches as bytes

    [crates/ledger-core/src/codec.rs].  The serialisation format is the [postcard]
    crate's and a parameter here: the class states the documented property the
    codec relies on, and a small variable-length format is an instance of it. *)

From S2P Require Import Prelude Error Amount Account Transfer Bytes.

Inductive CodecError : Type := CodecEncode (msg : string) | CodecDecode (msg : string).

(** Serialising a batch, and reading one batch off the front of some bytes; what
    was serialised is read back, with the bytes that follow it. *)
Class Postcard : Type := {
  to_allocvec : list LedgerEvent -> result string bytes;
  take_from_bytes : bytes -> result string (list LedgerEvent * bytes);
  take_to : forall evs bs rest, to_allocvec evs = Ok bs -> take_from_bytes (bs ++ rest) = Ok (evs, rest);
}.

Section codec.
Context `{Postcard}.

Definition encode_events (events : list LedgerEvent) : result CodecError bytes :=
  map_err CodecEncode (to_allocvec events).

Definition decode_events (bs : bytes) : result CodecError (list LedgerEvent) :=
  match take_from_bytes bs with
  | Err err => Err (CodecDecode err)
  | Ok (events, remainder) =>
      if negb (bool_decide (remainder = []))
      then Err (CodecDecode ("unexpected trailing leftover bytes (" +:+
                  dec_string (N.of_nat (length remainder)) +:+ " bytes)"))
      else Ok events
  end.

Lemma decode_encode evs bs : encode_events evs = Ok bs -> decode_events bs = Ok evs.
Proof.
  unfold encode_events, decode_events. destruct (to_allocvec evs) as [b|e] eqn:E; [|done].
  intros [= <-]. pose proof (take_to evs b [] E) as Ht. rewrite app_nil_r in Ht. rewrite Ht.
  by rewrite bool_decide_true.
Qed.

(** Event batches round trip, and bytes left over after a batch are rejected. *)
Theorem codec_roundtrip evs bs rest :
  encode_events evs = Ok bs ->
  match rest with
  | [] => decode_events (bs ++ rest) = Ok evs
  | _ => exists msg, decode_events (bs ++ rest) = Err (CodecDecode msg)
  end.
Proof.
  intros He. destruct rest as [|b rest]; [rewrite app_nil_r; by apply decode_encode|].
  unfold encode_events, decode_events in *. destruct (to_allocvec evs) as [bs'|e] eqn:E; [|done].
  injection He as <-. rewrite (take_to _ _ _ E). rewrite bool_decide_false by done. eauto.
Qed.

End codec.

(** ** An instance: variable-length integers *)

(** Seven bits per byte, low bits first, the top bit marking that more follow. *)
Fixpoint varint (fuel : nat) (n : N) : bytes :=
  match fuel with
  | O => [byte_of n]
  | S fuel' => if n <? 128 then [byte_of n] else byte_of (n mod 128 + 128) :: varint fuel' (n / 128)
  end.
Definition put (n : N) : bytes := varint (N.size_nat n) n.

Fixpoint get (bs : bytes) : option (N * bytes) :=
  match bs with
  | [] => None
  | b :: rest =>
      if Byte.to_N b <? 128 then Some (Byte.to_N b, rest)
      else '(n, rest') ← get rest; Some (Byte.to_N b - 128 + 128 * n, rest')
  end.

Lemma get_varint fuel n rest :
  n < 2 ^ N.of_nat fuel \/ n < 128 -> get (varint fuel n ++ rest) = Some (n, rest).
Proof.
  revert n. induction fuel as [|fuel IH]; intros n Hn.
  - assert (n < 128) as Hlt by (destruct Hn as [Hn|]; [simpl in Hn|]; lia).
    simpl. rewrite to_N_byte_of, N.mod_small by lia. by rewrite (proj2 (N.ltb_lt _ _) Hlt).
  - cbn [varint]. destruct (N.ltb_spec n 128) as [Hlt|Hge].
    + simpl. rewrite to_N_byte_of, N.mod_small by lia. by rewrite (proj2 (N.ltb_lt _ _) Hlt).
    + pose proof (N.mod_lt n 128 ltac:(lia)). pose proof (N.div_mod n 128 ltac:(lia)).
      cbn [get app]. rewrite to_N_byte_of, (N.mod_small (n mod 128 + 128)) by lia.
      rewrite (proj2 (N.ltb_ge (n mod 128 + 128) 128)) by apply N.le_add_l. rewrite IH.
      * simpl. f_equal. f_equal. rewrite N.add_sub, N.add_comm. by symmetry.
      * destruct Hn as [Hn|?]; [|lia]. left. rewrite Nat2N.inj_succ, N.pow_succ_r' in Hn.
        apply N.Div0.div_lt_upper_bound. revert Hn. generalize (2 ^ N.of_nat fuel). lia.
Qed.

Lemma get_put n rest : get (put n ++ rest) = Some (n, rest).
Proof. apply get_varint. left. rewrite size_nat_size. apply N.size_gt. Qed.

(** Numbers one after the other. *)
Definition puts (ns : list N) : bytes := concat (put <$> ns).

Fixpoint gets (k : nat) (bs : bytes) : option (list N * bytes) :=
  match k with
  | O => Some ([], bs)
  | S k' => '(n, bs) ← get bs; '(ns, bs) ← gets k' bs; Some (n :: ns, bs)
  end.

Lemma gets_puts ns rest : gets (length ns) (puts ns ++ rest) = Some (ns, rest).
Proof.
  induction ns as [|n ns IH]; [done|]. unfold puts. cbn [fmap list_fmap concat length gets].
  rewrite <- app_assoc, get_put. simpl. fold (puts ns). by rewrite IH.
Qed.

(** Each type as a fixed number of fields. *)
Definition put_bool (b : bool) : N := if b then 1 else 0.
Definition get_bool (n : N) : bool := n =? 1.
Definition put_type (t : AccountType) : N :=
  match t with Asset => 0 | Liability => 1 | Equity => 2 | Revenue => 3 | Expense => 4 end.
Definition get_type (n : N) : AccountType :=
  match n with 0 => Asset | 1 => Liability | 2 => Equity | 3 => Revenue | _ => Expense end.
Definition put_state (s : TransferState) : N :=
  match s with Pending => 0 | Posted => 1 | Voided => 2 end.
Definition get_state (n : N) : TransferState :=
  match n with 0 => Pending | 1 => Posted | _ => Voided end.

Definition put_transfer (t : Transfer) : list N :=
  [tr_id t; debit_account_id t; credit_account_id t; tr_amount t; put_state (tr_state t);
   put_bool (bool_decide (is_Some (pending_id t))); default 0 (pending_id t); tr_timestamp t].
Definition get_transfer_fields (ns : list N) : Transfer :=
  match ns with
  | [i; d; c; a; s; h; p; ts] =>
      mkTransfer i d c a (get_state s) (if get_bool h then Some p else None) ts
  | _ => mkTransfer 0 0 0 0 Pending None 0
  end.

Definition pad8 (ns : list N) : list N := ns ++ replicate (8 - length ns) 0.

Definition put_event (e : LedgerEvent) : list N :=
  match e with
  | EvAccountCreated id ty fl sc ts =>
      0 :: [id; put_type ty; put_bool (debits_must_not_exceed_credits fl);
            put_bool (credits_must_not_exceed_debits fl); put_bool (is_closed fl); scale_raw sc; ts; 0]
  | EvAccountClosed id ts => 1 :: pad8 [id; ts]
  | EvTransferPosted t => 2 :: put_transfer t
  | EvTransferPendingCreated t => 3 :: put_transfer t
  | EvTransferPendingPosted p q x ts => 4 :: pad8 [p; q; x; ts]
  | EvTransferPendingVoided p x ts => 5 :: pad8 [p; x; ts]
  end.
Definition get_event (ns : list N) : LedgerEvent :=
  match ns with
  | 0 :: [id; ty; d; c; cl; sc; ts; _] =>
      EvAccountCreated id (get_type ty) (mkFlags (get_bool d) (get_bool c) (get_bool cl))
        (mkScale sc) ts
  | 1 :: id :: ts :: _ => EvAccountClosed id ts
  | 2 :: fs => EvTransferPosted (get_transfer_fields fs)
  | 3 :: fs => EvTransferPendingCreated (get_transfer_fields fs)
  | 4 :: p :: q :: x :: ts :: _ => EvTransferPendingPosted p q x ts
  | 5 :: p :: x :: ts :: _ => EvTransferPendingVoided p x ts
  | _ => EvAccountClosed 0 0
  end.

Lemma length_put_event e : length (put_event e) = 9%nat.
Proof. by destruct e. Qed.

Lemma get_put_transfer t : get_transfer_fields (put_transfer t) = t.
Proof. destruct t as [i d c a [] [p|] ts]; done. Qed.

Lemma get_put_event e : get_event (put_event e) = e.
Proof.
  destruct e as [id [] [[] [] []] [sc] ts| |t|t| |]; try done; simpl; f_equal; apply get_put_transfer.
Qed.

Fixpoint get_events (k : nat) (bs : bytes) : option (list LedgerEvent * bytes) :=
  match k with
  | O => Some ([], bs)
  | S k' => '(ns, bs) ← gets 9 bs; '(es, bs) ← get_events k' bs; Some (get_event ns :: es, bs)
  end.

Lemma get_events_put es rest :
  get_events (length es) (concat ((puts ∘ put_event) <$> es) ++ rest) = Some (es, rest).
Proof.
  induction es as [|e es IH]; [done|]. cbn [fmap list_fmap concat length get_events].
  rewrite <- app_assoc. rewrite <- (length_put_event e) at 1. unfold compose at 1.
  rewrite gets_puts. simpl. rewrite IH. simpl. by rewrite get_put_event.
Qed.

Definition varint_codec : Postcard.
Proof.
  refine {| to_allocvec es := Ok (put (N.of_nat (length es)) ++ concat ((puts ∘ put_event) <$> es));
            take_from_bytes bs :=
              match get bs with
              | None => Err "truncated"%string
              | Some (k, bs) => ok_or (get_events (N.to_nat k) bs) "truncated"%string
              end |}.
  intros es bs rest [= <-]. rewrite <- app_assoc, get_put, Nat2N.id, get_events_put. done.
Defined.

Lemma codec_roundtrip_witness :
  exists bs, encode_events (H := varint_codec) [EvAccountClosed 7 300] = Ok bs /\
    decode_events (H := varint_codec) (bs ++ []) = Ok [EvAccountClosed 7 300].
Proof.
  eexists. split; [reflexivity|].
  exact (codec_roundtrip (H := varint_codec) [EvAccountClosed 7 300] _ [] eq_refl).
Defined.
