(* ===== verification/Engine.v ===== *)
(** * The ingest engine

    [crates/ingest/src/{error,queue,engine}.rs]: operations arriving from clients,
    the timestamp watermark, and the single-writer loop that groups commands into
    micro-batches, prepares them, writes the accepted ones to the log and commits
    them to the ledger.

    A [oneshot::Sender] is the number of its channel, and what is sent is gathered
    in the order of the sends; a sender that is dropped sends nothing.  The wall
    clock, the arrivals on the queue and the outcomes of the log's system calls are
    explicit scripts. *)

From S2P Require Import Prelude Error Amount Account Transfer Ledger LedgerBatch.
From S2P Require Import Bytes WalRecord WalScan Wal Codec.

(** ** Errors *)

Inductive IngestError : Type :=
| ILedger (err : LedgerError)
| IWal (msg : string)
| ICodec (msg : string)
| QueueSaturated
| ChannelClosed
| InvalidInput (msg : string)
| Internal (msg : string).

(** [CodecError]'s [Display]. *)
Definition codec_to_string (err : CodecError) : string :=
  match err with
  | CodecEncode m => "journal event batch failed to encode: " +:+ m
  | CodecDecode m => "journal event bytes failed to decode: " +:+ m
  end.

(** The status codes of [impl From<IngestError> for tonic::Status]. *)
Inductive Code : Type :=
| ResourceExhausted | Unavailable | InvalidArgument | CodeInternal
| FailedPrecondition | NotFound | AlreadyExists | OutOfRange.

Definition ledger_status (err : LedgerError) : Code :=
  match err with
  | InsufficientFunds _ _ _ | AccountClosed _ | InvalidTransferState _ _ _
  | PartialAmountExceedsPending _ _ _ => FailedPrecondition
  | AccountNotFound _ | TransferNotFound _ => NotFound
  | AccountAlreadyExists _ | TransferAlreadyExists _ => AlreadyExists
  | DebitCreditAccountSame _ | ZeroAmountTransfer _ | ScaleMismatch _ _ | InvalidScale _
  | InvalidIdentifier _ | TimestampBehindPrior _ _ | InvalidPendingLink _ _ _
  | PendingLinkMissing _ _ => InvalidArgument
  | ArithmeticOverflow | SignedBalanceOverflow => OutOfRange
  | ConservationViolation _ _ | JournalVoidedAmountMismatch _ _ _ | PendingBalanceMismatch _ _ _
  | DivisionByZero => CodeInternal
  end.

Definition status_code (err : IngestError) : Code :=
  match err with
  | QueueSaturated => ResourceExhausted
  | ChannelClosed => Unavailable
  | InvalidInput _ => InvalidArgument
  | IWal _ | ICodec _ | Internal _ => CodeInternal
  | ILedger err => ledger_status err
  end.

(** ** Operations and commands *)

Inductive TargetEntity : Type := TargetAccount (id : AccountId) | TargetTransfer (id : TransferId).

Inductive IngestOp : Type :=
| InCreateAccount (id : AccountId) (account_type : AccountType) (flags : AccountFlags)
    (scale : Scale) (timestamp : N)
| InCreateTransfer (id : TransferId) (debit credit : AccountId) (amount : Amount) (timestamp : N)
| InCreatePending (id : TransferId) (debit credit : AccountId) (amount : Amount) (timestamp : N)
| InPostPending (pending_id post_transfer_id : TransferId) (amount : Amount) (timestamp : N)
| InVoidPending (pending_id : TransferId) (timestamp : N).

Definition target (op : IngestOp) : TargetEntity :=
  match op with
  | InCreateAccount id _ _ _ _ => TargetAccount id
  | InCreateTransfer id _ _ _ _ | InCreatePending id _ _ _ _ => TargetTransfer id
  | InPostPending _ post _ _ => TargetTransfer post
  | InVoidPending pending _ => TargetTransfer pending
  end.

(** The watermark and the readings still to come from the wall clock, in
    nanoseconds; [None] is a clock before the epoch, as is a script that has ended. *)
Record Clock : Type := mkClock { watermark : N; readings : list (option N) }.

Definition allocate_timestamp (requested : N) (c : Clock) : Clock * N :=
  if requested =? 0 then
    let now := match readings c with Some d :: _ => d mod 2 ^ 64 | _ => 1 end in
    let ts := N.max now (saturating_add U64_MAX (watermark c) 1) in
    (mkClock ts (tail (readings c)), ts)
  else (mkClock (N.max (watermark c) requested) (readings c), requested).

Definition into_batch_op (op : IngestOp) : st Clock IngestError BatchOp :=
  fun c =>
    match op with
    | InCreateAccount id account_type flags scale timestamp =>
        let '(c, ts) := allocate_timestamp timestamp c in
        (c, Ok (OpCreateAccount id account_type flags scale ts))
    | InCreateTransfer id debit credit amount timestamp =>
        let '(c, ts) := allocate_timestamp timestamp c in
        (c, OpTransfer <$> map_err ILedger (new_immediate id debit credit amount ts))
    | InCreatePending id debit credit amount timestamp =>
        let '(c, ts) := allocate_timestamp timestamp c in
        (c, OpPending <$> map_err ILedger (new_pending id debit credit amount ts))
    | InPostPending pending post amount timestamp =>
        let '(c, ts) := allocate_timestamp timestamp c in (c, Ok (OpPostPending pending post amount ts))
    | InVoidPending pending timestamp =>
        let '(c, ts) := allocate_timestamp timestamp c in (c, Ok (OpVoidPending pending ts))
    end.

Inductive MutationResult : Type := MAccount (a : Account) | MTransfer (t : Transfer).

Inductive IngestCommand : Type :=
| Mutate (op : IngestOp) (respond_to : N)
| ApplyBatch (ops : list IngestOp) (respond_to : N)
| GetAccount (id : AccountId) (respond_to : N)
| GetTransfer (id : TransferId) (respond_to : N).

(** What travels on a response channel, by the type of its sender. *)
Inductive Reply : Type :=
| ReplyMutation (res : result IngestError MutationResult)
| ReplyCount (res : result IngestError N)
| ReplyAccount (res : result IngestError Account)
| ReplyTransfer (res : result IngestError Transfer).

Abbreviation Sent := (list (N * Reply)).

(** ** The queue *)

Inductive TrySendError : Type := Full | Closed.

(** [IngestQueue::submit], from the outcome of [try_send] on the channel. *)
Definition submit (try_send : result TrySendError unit) : result IngestError unit :=
  map_err (fun err => match err with Full => QueueSaturated | Closed => ChannelClosed end) try_send.

(** ** The engine *)

(** Counters wrap at 64 bits; a histogram is the values it has observed. *)
Record LedgerMetrics : Type := mkMetrics {
  transfers_received : N; transfers_committed : N; transfers_rejected : N;
  wal_records_appended : N; wal_bytes_written : N;
  batch_size : list N; batch_duration : list N;
}.

Definition inc_by (counter val : N) : N := (counter + val) mod 2 ^ 64.

Definition metrics_received (n : N) (m : LedgerMetrics) : LedgerMetrics :=
  mkMetrics (inc_by (transfers_received m) n) (transfers_committed m) (transfers_rejected m)
    (wal_records_appended m) (wal_bytes_written m) (batch_size m ++ [n]) (batch_duration m).
Definition metrics_rejected (n : N) (m : LedgerMetrics) : LedgerMetrics :=
  mkMetrics (transfers_received m) (transfers_committed m) (inc_by (transfers_rejected m) n)
    (wal_records_appended m) (wal_bytes_written m) (batch_size m) (batch_duration m).
Definition metrics_appended (records bytes : N) (m : LedgerMetrics) : LedgerMetrics :=
  mkMetrics (transfers_received m) (transfers_committed m) (transfers_rejected m)
    (inc_by (wal_records_appended m) records) (inc_by (wal_bytes_written m) bytes)
    (batch_size m) (batch_duration m).
Definition metrics_committed (n : N) (m : LedgerMetrics) : LedgerMetrics :=
  mkMetrics (transfers_received m) (inc_by (transfers_committed m) n) (transfers_rejected m)
    (wal_records_appended m) (wal_bytes_written m) (batch_size m) (batch_duration m).
Definition metrics_duration (d : N) (m : LedgerMetrics) : LedgerMetrics :=
  mkMetrics (transfers_received m) (transfers_committed m) (transfers_rejected m)
    (wal_records_appended m) (wal_bytes_written m) (batch_size m) (batch_duration m ++ [d]).

Record Engine : Type := mkEngine {
  en_ledger : Ledger;
  en_wal : Wal;
  max_batch_size : N;
  en_metrics : LedgerMetrics;
}.

Definition set_ledger (l : Ledger) (e : Engine) : Engine :=
  mkEngine l (en_wal e) (max_batch_size e) (en_metrics e).
Definition set_wal (w : Wal) (e : Engine) : Engine :=
  mkEngine (en_ledger e) w (max_batch_size e) (en_metrics e).
Definition with_metrics (f : LedgerMetrics -> LedgerMetrics) (e : Engine) : Engine :=
  mkEngine (en_ledger e) (en_wal e) (max_batch_size e) (f (en_metrics e)).

Inductive Responder : Type :=
| RSingle (target : TargetEntity) (respond_to : N)
| RBatch (count : N) (respond_to : N).

Definition respond_err (r : Responder) (err : IngestError) : N * Reply :=
  match r with
  | RSingle _ ch => (ch, ReplyMutation (Err err))
  | RBatch _ ch => (ch, ReplyCount (Err err))
  end.

Definition respond_ok (r : Responder) (ledger : Ledger) : N * Reply :=
  match r with
  | RSingle (TargetAccount id) ch =>
      (ch, ReplyMutation (MAccount <$> map_err ILedger (get_account ledger id)))
  | RSingle (TargetTransfer id) ch =>
      (ch, ReplyMutation (MTransfer <$> map_err ILedger (get_transfer ledger id)))
  | RBatch count ch => (ch, ReplyCount (Ok count))
  end.

Inductive QueryCommand : Type :=
| QAccount (id : AccountId) (respond_to : N)
| QTransfer (id : TransferId) (respond_to : N).

Definition answer_query (ledger : Ledger) (q : QueryCommand) : N * Reply :=
  match q with
  | QAccount id ch => (ch, ReplyAccount (map_err ILedger (get_account ledger id)))
  | QTransfer id ch => (ch, ReplyTransfer (map_err ILedger (get_transfer ledger id)))
  end.

(** ** Sorting the commands of a batch *)

(** The four vectors the first loop of [process_batch] fills. *)
Record Gathered : Type := mkGathered {
  tx_ops : list (list BatchOp);
  responders : list Responder;
  early_errors : list (Responder * IngestError);
  queries : list QueryCommand;
}.

Definition push_tx (ops : list BatchOp) (r : Responder) (g : Gathered) : Gathered :=
  mkGathered (tx_ops g ++ [ops]) (responders g ++ [r]) (early_errors g) (queries g).
Definition push_early (r : Responder) (err : IngestError) (g : Gathered) : Gathered :=
  mkGathered (tx_ops g) (responders g) (early_errors g ++ [(r, err)]) (queries g).
Definition push_query (q : QueryCommand) (g : Gathered) : Gathered :=
  mkGathered (tx_ops g) (responders g) (early_errors g) (queries g ++ [q]).

(** The inner loop of an [ApplyBatch]: it stops at the first operation that does
    not convert, and the watermark keeps what was allocated before. *)
Fixpoint convert_ops (ops : list IngestOp) (batch_ops : list BatchOp) :
    st Clock IngestError (list BatchOp) :=
  match ops with
  | [] => st_ret batch_ops
  | op :: rest => st_bind (into_batch_op op) (fun b => convert_ops rest (batch_ops ++ [b]))
  end.

Definition gather_one (cmd : IngestCommand) (s : Clock * Gathered) : Clock * Gathered :=
  let '(c, g) := s in
  match cmd with
  | Mutate op respond_to =>
      let responder := RSingle (target op) respond_to in
      match into_batch_op op c with
      | (c, Ok batch_op) => (c, push_tx [batch_op] responder g)
      | (c, Err err) => (c, push_early responder err g)
      end
  | ApplyBatch ops respond_to =>
      let responder := RBatch (N.of_nat (length ops) mod 2 ^ 32) respond_to in
      match convert_ops ops [] c with
      | (c, Ok batch_ops) => (c, push_tx batch_ops responder g)
      | (c, Err err) => (c, push_early responder err g)
      end
  | GetAccount id respond_to => (c, push_query (QAccount id respond_to) g)
  | GetTransfer id respond_to => (c, push_query (QTransfer id respond_to) g)
  end.

Definition gather (batch : list IngestCommand) (c : Clock) : Gathered :=
  (foldl (fun s cmd => gather_one cmd s) (c, mkGathered [] [] [] []) batch).2.

(** ** Splitting the prepared transactions *)

Record Outcome : Type := mkOutcome {
  successful_responders : list Responder;
  successful_event_batches : list (list LedgerEvent);
  rejections : Sent;
}.

Fixpoint split_results (rs : list Responder) (results : list (result LedgerError (list LedgerEvent))) :
    Outcome :=
  match rs, results with
  | resp :: rs, res :: results =>
      let o := split_results rs results in
      match res with
      | Ok events =>
          mkOutcome (resp :: successful_responders o) (events :: successful_event_batches o)
            (rejections o)
      | Err err =>
          mkOutcome (successful_responders o) (successful_event_batches o)
            (respond_err resp (ILedger err) :: rejections o)
      end
  | _, _ => mkOutcome [] [] []
  end.

Section engine.
Context `{Crc32c} `{Postcard}.
(** [WalError]'s [Display], whose text includes paths and system errors. *)
Context (wal_to_string : WalError -> string).

Fixpoint encode_payloads (batches : list (list LedgerEvent)) : result IngestError (list bytes) :=
  match batches with
  | [] => Ok []
  | events :: rest =>
      payload ← map_err (fun err => ICodec (codec_to_string err)) (encode_events events);
      payloads ← encode_payloads rest;
      Ok (payload :: payloads)
  end.

(** The inner part of [process_batch]: log the accepted transactions, then commit
    them and answer.  Every [return] of the source is one of the branches. *)
Definition log_and_commit (io : AppendIo) (o : Outcome) (self : Engine) :
    Engine * Sent * result IngestError unit :=
  match successful_event_batches o with
  | [] => (self, [], Ok tt)
  | batches =>
      match encode_payloads batches with
      | Err err => (self, [], Err err)
      | Ok payloads =>
          let total_bytes := lenN (concat payloads) in
          match append_batch io payloads (en_wal self) with
          | (w, Err wal_err) =>
              let ingest_err := IWal (wal_to_string wal_err) in
              (set_wal w self,
               (fun resp => respond_err resp ingest_err) <$> successful_responders o, Err ingest_err)
          | (w, Ok _) =>
              let self := with_metrics (metrics_appended (lenN payloads) total_bytes) (set_wal w self) in
              let all_events := concat batches in
              match commit_events all_events (en_ledger self) with
              | (l, Err ledger_err) =>
                  let ingest_err := ILedger ledger_err in
                  (set_ledger l self,
                   (fun resp => respond_err resp ingest_err) <$> successful_responders o,
                   Err ingest_err)
              | (l, Ok _) =>
                  let self := with_metrics (metrics_committed (lenN all_events)) (set_ledger l self) in
                  (self, (fun resp => respond_ok resp (en_ledger self)) <$> successful_responders o,
                   Ok tt)
              end
          end
      end
  end.

(** Preparing the transactions, the part under [if !tx_ops.is_empty()]. *)
Definition process_txs (io : AppendIo) (g : Gathered) (self : Engine) :
    Engine * Sent * result IngestError unit :=
  match tx_ops g with
  | [] => (self, [], Ok tt)
  | txs =>
      let '(l, results) := prepare_transactions txs (en_ledger self) in
      let o := split_results (responders g) results in
      let self := with_metrics (metrics_rejected (lenN (rejections o))) (set_ledger l self) in
      let '(self, sent, r) := log_and_commit io o self in
      (self, rejections o ++ sent, r)
  end.

(** What the environment supplies to one turn: clock readings, the outcomes of the
    log's system calls and the time the turn took. *)
Record TurnIo : Type := mkTurnIo { ti_clock : list (option N); ti_append : AppendIo; ti_elapsed : N }.

Definition process_batch (io : TurnIo) (batch : list IngestCommand) (self : Engine) :
    Engine * Sent * result IngestError unit :=
  match batch with
  | [] => (self, [], Ok tt)
  | _ =>
      let self := with_metrics (metrics_received (lenN batch)) self in
      let g := gather batch (mkClock (last_timestamp (en_ledger self)) (ti_clock io)) in
      let self := with_metrics (metrics_rejected (lenN (early_errors g))) self in
      let early := (fun p => respond_err p.1 p.2) <$> early_errors g in
      match process_txs (ti_append io) g self with
      | (self, sent, Err err) => (self, early ++ sent, Err err)
      | (self, sent, Ok _) =>
          let self := with_metrics (metrics_duration (ti_elapsed io)) self in
          (self, early ++ sent ++ (answer_query (en_ledger self) <$> queries g), Ok tt)
      end
  end.

(** ** The loop *)

(** One look at the queue while a batch fills: the deadline has passed, a command
    was waiting, a command arrived before the deadline, or the wait ended without
    one (a timeout, or all senders gone). *)
Inductive Arrival : Type := Deadline | Ready (cmd : IngestCommand) | Late (cmd : IngestCommand) | Nothing.

Fixpoint fill (max : N) (arrivals : list Arrival) (batch : list IngestCommand) : list IngestCommand :=
  match arrivals with
  | [] => batch
  | a :: rest =>
      if lenN batch <? max then
        match a with
        | Deadline | Nothing => batch
        | Ready cmd | Late cmd => fill max rest (batch ++ [cmd])
        end
      else batch
  end.

(** A turn of [run]: the first command received ([None] when every sender is gone),
    the arrivals that follow, and the environment of [process_batch]. *)
Record Turn : Type := mkTurn {
  tn_first : option IngestCommand; tn_arrivals : list Arrival; tn_io : TurnIo;
}.

(** [Engine::run] over the turns that have happened; [None] is a loop still waiting. *)
Fixpoint run_engine (turns : list Turn) (self : Engine) :
    Engine * Sent * option (result IngestError unit) :=
  match turns with
  | [] => (self, [], None)
  | t :: rest =>
      match tn_first t with
      | None => (self, [], Some (Ok tt))
      | Some first =>
          match process_batch (tn_io t) (fill (max_batch_size self) (tn_arrivals t) [first]) self with
          | (self, sent, Err err) => (self, sent, Some (Err err))
          | (self, sent, Ok _) =>
              let '(self, sent', r) := run_engine rest self in (self, sent ++ sent', r)
          end
      end
  end.

End engine.
