(* ===== verification/EngineInv.v ===== *)
(** * The engine's invariant

    Lemmas on the parts of [process_batch] and the invariant that ties the log to
    the ledger: every record of the log decodes to a batch of events, and the
    batches one after the other lead from the empty ledger to the engine's ledger. *)

From S2P Require Import Prelude Error Amount Account Transfer Ledger LedgerStep LedgerInv.
From S2P Require Import LedgerBatch LedgerHistory Bytes WalRecord WalScan Wal WalInv Codec Engine.

(** ** Response channels *)

Definition channel_of (cmd : IngestCommand) : N :=
  match cmd with Mutate _ ch | ApplyBatch _ ch | GetAccount _ ch | GetTransfer _ ch => ch end.
Definition mutating (cmd : IngestCommand) : bool :=
  match cmd with Mutate _ _ | ApplyBatch _ _ => true | _ => false end.
Definition responder_channel (r : Responder) : N :=
  match r with RSingle _ ch | RBatch _ ch => ch end.
Definition query_channel (q : QueryCommand) : N :=
  match q with QAccount _ ch | QTransfer _ ch => ch end.

Lemma respond_err_channel r err : (respond_err r err).1 = responder_channel r.
Proof. by destruct r. Qed.
Lemma respond_ok_channel r l : (respond_ok r l).1 = responder_channel r.
Proof. by destruct r as [[]|]. Qed.
Lemma answer_query_channel l q : (answer_query l q).1 = query_channel q.
Proof. by destruct q. Qed.

Lemma fmap_channel {A} (f : A -> N * Reply) (g : A -> N) l :
  (forall x, (f x).1 = g x) -> (f <$> l).*1 = g <$> l.
Proof. intros Hf. rewrite <- list_fmap_compose. by apply list_fmap_ext; intros; apply Hf. Qed.

(** ** Gathering *)

(** The senders held by the responders of a batch are those of its mutations. *)
Record gathered (batch : list IngestCommand) (g : Gathered) : Prop := {
  ga_len : length (responders g) = length (tx_ops g);
  ga_mut : (responder_channel <$> responders g) ++ (responder_channel <$> (early_errors g).*1) ≡ₚ
             channel_of <$> filter mutating batch;
  ga_query : query_channel <$> queries g =
             channel_of <$> filter (fun cmd => ~ mutating cmd) batch;
}.

Lemma gather_one_gathered batch cmd c g c' g' :
  gathered batch g -> gather_one cmd (c, g) = (c', g') -> gathered (batch ++ [cmd]) g'.
Proof.
  intros [Hl Hm Hq] Hg. unfold gather_one in Hg.
  assert (forall ops r, responder_channel r = channel_of cmd -> mutating cmd = true ->
    gathered (batch ++ [cmd]) (push_tx ops r g)) as Htx.
  { intros ops r Hr Hc. constructor; simpl; rewrite ?filter_app, ?fmap_app, ?length_app; simpl.
    - lia.
    - rewrite filter_cons_True by (rewrite Hc; simpl; tauto). rewrite <- Hm. simpl. rewrite Hr. solve_Permutation.
    - rewrite filter_cons_False by (rewrite Hc; simpl; tauto). by rewrite filter_nil, app_nil_r. }
  assert (forall err r, responder_channel r = channel_of cmd -> mutating cmd = true ->
    gathered (batch ++ [cmd]) (push_early r err g)) as Hearly.
  { intros err r Hr Hc. constructor; simpl; rewrite ?filter_app, ?fmap_app; simpl; [done|..].
    - rewrite filter_cons_True by (rewrite Hc; simpl; tauto). rewrite <- Hm. simpl. rewrite Hr. solve_Permutation.
    - rewrite filter_cons_False by (rewrite Hc; simpl; tauto). by rewrite filter_nil, app_nil_r. }
  assert (forall q, query_channel q = channel_of cmd -> mutating cmd = false ->
    gathered (batch ++ [cmd]) (push_query q g)) as Hquery.
  { intros q Hr Hc. constructor; simpl; rewrite ?filter_app, ?fmap_app; simpl; [done|..].
    - rewrite filter_cons_False by (rewrite Hc; simpl; tauto). by rewrite filter_nil, app_nil_r.
    - rewrite filter_cons_True by (rewrite Hc; simpl; tauto). rewrite Hq. simpl. by rewrite Hr. }
  destruct cmd as [op ch|ops ch|id ch|id ch].
  - destruct (into_batch_op op c) as [c1 [b|err]]; injection Hg as <- <-; auto.
  - destruct (convert_ops ops [] c) as [c1 [b|err]]; injection Hg as <- <-; auto.
  - injection Hg as <- <-; auto.
  - injection Hg as <- <-; auto.
Qed.

Lemma gather_gathered batch c : gathered batch (gather batch c).
Proof.
  unfold gather. enough (forall done c g, gathered done g ->
    gathered (done ++ batch) (foldl (fun s cmd => gather_one cmd s) (c, g) batch).2) as H.
  { apply (H []). by constructor. }
  induction batch as [|cmd batch IH]; intros dn c0 g Hg; cbn [foldl]; [by rewrite app_nil_r|].
  destruct (gather_one cmd (c0, g)) as [c1 g1] eqn:E.
  replace (dn ++ cmd :: batch) with ((dn ++ [cmd]) ++ batch) by (by rewrite <- app_assoc).
  apply IH. by eapply gather_one_gathered.
Qed.

(** ** Splitting *)

Lemma split_results_batches rs results :
  length rs = length results ->
  successful_event_batches (split_results rs results) = omap result_ok results.
Proof.
  revert results. induction rs as [|r rs IH]; intros [|[evs|e] results] Hl; simplify_eq/=; try done;
    by rewrite IH.
Qed.

Lemma split_results_channels rs results :
  length rs = length results ->
  (rejections (split_results rs results)).*1 ++
    (responder_channel <$> successful_responders (split_results rs results)) ≡ₚ
  responder_channel <$> rs.
Proof.
  revert results. induction rs as [|r rs IH]; intros [|[evs|e] results] Hl; simplify_eq/=; try done.
  - rewrite <- (IH results) by lia. solve_Permutation.
  - rewrite respond_err_channel. f_equiv. by apply IH.
Qed.

Lemma exec_txs_length txs l : length (exec_txs txs l).2 = length txs.
Proof.
  revert l. induction txs as [|tx txs IH]; intros l; simpl; [done|].
  destruct (exec_tx tx l) as [[l' evs]|e]; [specialize (IH l'); destruct (exec_txs txs l')|
    specialize (IH l); destruct (exec_txs txs l)]; simpl in *; by rewrite IH.
Qed.

Lemma omap_length_le {A B} (f : A -> option B) l : (length (omap f l) <= length l)%nat.
Proof. induction l as [|x l IH]; csimpl; [done|]. destruct (f x); csimpl; lia. Qed.

Section engine.
Context `{Crc32c} `{Postcard} (wal_to_string : WalError -> string).

(** ** Payloads *)

Definition decodes (p : bytes) (evs : list LedgerEvent) : Prop := decode_events p = Ok evs.

Lemma encode_payloads_spec batches :
  match encode_payloads batches with
  | Ok ps => Forall2 decodes ps batches
  | Err err => exists m, err = ICodec m
  end.
Proof.
  induction batches as [|evs batches IH]; simpl; [constructor|].
  destruct (encode_events evs) as [p|e] eqn:E; simpl; [|eauto].
  destruct (encode_payloads batches) as [ps|e]; simpl; [|done].
  constructor; [|done]. by apply decode_encode.
Qed.

(** ** The invariant *)

Record engine_ok (sc : Scale) (e : Engine) (ps : list bytes) (bs : list (list LedgerEvent)) : Prop := {
  eo_wal : wal_ok (en_wal e) ps;
  eo_decodes : Forall2 decodes ps bs;
  eo_ledger : run (Ledger_new sc) (concat bs) (en_ledger e);
}.

(** A turn can end in four ways: nothing was accepted, a batch did not serialise,
    the log refused the records, or they were logged and committed. *)
Inductive txs_outcome (io : AppendIo) (g : Gathered) (e : Engine) :
    Engine -> Sent -> result IngestError unit -> Prop :=
| out_codec e' m :
    en_ledger e' = en_ledger e -> en_wal e' = en_wal e ->
    txs_outcome io g e e'
      (rejections (split_results (responders g) (exec_txs (tx_ops g) (en_ledger e)).2)) (Err (ICodec m))
| out_wal e' qs err :
    let o := split_results (responders g) (exec_txs (tx_ops g) (en_ledger e)).2 in
    en_ledger e' = en_ledger e -> Forall2 decodes qs (successful_event_batches o) ->
    append_batch io qs (en_wal e) = (en_wal e', Err err) ->
    txs_outcome io g e e'
      (rejections o ++ ((fun resp => respond_err resp (IWal (wal_to_string err))) <$>
         successful_responders o))
      (Err (IWal (wal_to_string err)))
| out_done e' qs :
    let o := split_results (responders g) (exec_txs (tx_ops g) (en_ledger e)).2 in
    en_ledger e' = (exec_txs (tx_ops g) (en_ledger e)).1 ->
    Forall2 decodes qs (successful_event_batches o) ->
    (qs = [] /\ en_wal e' = en_wal e \/
     exists range, append_batch io qs (en_wal e) = (en_wal e', Ok range)) ->
    txs_outcome io g e e'
      (rejections o ++ ((fun resp => respond_ok resp (en_ledger e')) <$> successful_responders o))
      (Ok tt).

Lemma split_results_none rs results :
  successful_event_batches (split_results rs results) = [] ->
  successful_responders (split_results rs results) = [].
Proof.
  revert results. induction rs as [|r rs IH]; intros [|[evs|e] results]; simpl; try done. apply IH.
Qed.

Lemma process_txs_outcome io g e :
  length (responders g) = length (tx_ops g) ->
  let '(e', sent, r) := process_txs wal_to_string io g e in txs_outcome io g e e' sent r.
Proof.
  intros Hl. unfold process_txs.
  pose proof (exec_txs_run (tx_ops g) (en_ledger e)) as Hrun. unfold accepted in Hrun.
  pose proof (exec_txs_length (tx_ops g) (en_ledger e)) as Hlen.
  rewrite <- (split_results_batches (responders g)) in Hrun by congruence.
  destruct (tx_ops g) as [|tx txs] eqn:Htx.
  { pose proof (out_done io g e e []) as Ho. rewrite Htx in Ho. simpl in Ho.
    destruct (responders g); [|done]. simpl in Ho. apply Ho; auto. }
  rewrite <- Htx in *. clear tx txs Htx. rewrite prepare_transactions_eq.
  set (o := split_results (responders g) (exec_txs (tx_ops g) (en_ledger e)).2) in *.
  unfold log_and_commit. destruct (successful_event_batches o) as [|b bs] eqn:Hb.
  { pose proof (out_done io g e
      (with_metrics (metrics_rejected (lenN (rejections o))) (set_ledger (en_ledger e) e)) []) as Ho.
    cbv zeta in Ho. fold o in Ho. rewrite (split_results_none _ _ Hb : successful_responders o = []), Hb in Ho. apply Ho; [|done|auto].
    by inversion Hrun. }
  rewrite <- Hb in *. clear b bs Hb. pose proof (encode_payloads_spec (successful_event_batches o)) as He.
  destruct (encode_payloads (successful_event_batches o)) as [qs|err].
  2: { destruct He as [m ->]. rewrite app_nil_r. by apply out_codec. }
  cbn [en_wal with_metrics set_ledger].
  destruct (append_batch io qs (en_wal e)) as [w [range|err]] eqn:Ha; [|by apply (out_wal io g e _ qs)].
  cbn [en_ledger with_metrics set_ledger set_wal].
  apply commit_events_ok in Hrun. rewrite Hrun.
  match goal with |- txs_outcome _ _ _ ?e' _ _ => apply (out_done io g e e' qs); [done|done|eauto] end.
Qed.

(** The accepted transactions extend the invariant. *)
Lemma engine_ok_done sc io g e ps bs e' sent :
  engine_ok sc e ps bs -> length (responders g) = length (tx_ops g) ->
  lenN ps + lenN (tx_ops g) < 2 ^ 64 -> txs_outcome io g e e' sent (Ok tt) ->
  exists qs, engine_ok sc e' (ps ++ qs) (bs ++ omap result_ok (exec_txs (tx_ops g) (en_ledger e)).2) /\
    (length qs <= length (tx_ops g))%nat.
Proof.
  intros [Hw Hd Hr] Hl H64 Ho. inversion Ho as [| |? qs o Hle Hq Hlog]; subst. clear Ho. subst o.
  pose proof (exec_txs_length (tx_ops g) (en_ledger e)) as Hlen.
  rewrite split_results_batches in Hq by congruence.
  pose proof (omap_length_le result_ok (exec_txs (tx_ops g) (en_ledger e)).2) as Hle'.
  apply Forall2_length in Hq as Hql. exists qs. split; [|congruence || lia].
  constructor.
  - destruct Hlog as [[-> ->]|[[a b] Ha]]; [by rewrite app_nil_r|].
    eapply (append_batch_spec io qs (en_wal e) ps _ (Ok (a, b))); [done| |done].
    unfold lenN in *. rewrite length_app. lia.
  - by apply Forall2_app.
  - rewrite concat_app, Hle. eapply run_app; [done|]. apply exec_txs_run.
Qed.

(** ** One turn *)

Lemma gathered_length batch g : gathered batch g -> (length (tx_ops g) <= length batch)%nat.
Proof.
  intros [Hl Hm _]. apply Permutation_length in Hm. rewrite length_app, !length_fmap in Hm.
  pose proof (length_filter mutating batch). lia.
Qed.

(** [process_batch] around the outcome of its transactions. *)
Lemma process_batch_outcome io batch e :
  batch <> [] ->
  exists g e0 e1 sent r,
    g = gather batch (mkClock (last_timestamp (en_ledger e)) (ti_clock io)) /\
    en_ledger e0 = en_ledger e /\ en_wal e0 = en_wal e /\
    txs_outcome (ti_append io) g e0 e1 sent r /\
    process_batch wal_to_string io batch e =
      match r with
      | Err err => (e1, ((fun p => respond_err p.1 p.2) <$> early_errors g) ++ sent, Err err)
      | Ok _ =>
          (with_metrics (metrics_duration (ti_elapsed io)) e1,
           ((fun p => respond_err p.1 p.2) <$> early_errors g) ++ sent ++
             (answer_query (en_ledger e1) <$> queries g), Ok tt)
      end.
Proof.
  intros Hne. destruct batch as [|cmd batch]; [done|]. unfold process_batch.
  cbn [en_ledger with_metrics].
  set (g := gather _ _). set (e0 := with_metrics _ (with_metrics _ e)).
  pose proof (process_txs_outcome (ti_append io) g e0 (ga_len _ _ (gather_gathered _ _))) as Ho.
  exists g, e0. destruct (process_txs wal_to_string (ti_append io) g e0) as [[e1 sent] r].
  exists e1, sent, r. split_and!; done.
Qed.

(** What a turn leaves behind: the invariant, or a log whose last append failed. *)
Inductive left_behind (sc : Scale) (opts : WalOptions) (e : Engine) : bool -> Prop :=
| left_ok ps bs b : engine_ok sc e ps bs -> wal_options (en_wal e) = opts -> left_behind sc opts e b
| left_failed w io ps bs qs new err l :
    wal_ok w ps -> wal_options w = opts -> Forall2 decodes ps bs -> Forall2 decodes qs new ->
    lenN (ps ++ qs) < 2 ^ 64 -> append_batch io qs w = (en_wal e, Err err) ->
    run (Ledger_new sc) (concat bs) (en_ledger e) -> run (en_ledger e) (concat new) l ->
    left_behind sc opts e true.

Definition is_wal_error {A} (r : result IngestError A) : bool :=
  match r with Err (IWal _) => true | _ => false end.

Lemma txs_outcome_failed sc io g e ps bs e' sent err :
  engine_ok sc e ps bs -> length (responders g) = length (tx_ops g) ->
  lenN ps + lenN (tx_ops g) < 2 ^ 64 -> txs_outcome io g e e' sent (Err err) ->
  en_ledger e' = en_ledger e /\
  left_behind sc (wal_options (en_wal e)) e' (is_wal_error (Err (A := unit) err)).
Proof.
  intros [Hw Hd Hr] Hl H64 Ho.
  inversion Ho as [e1 m Hle Hwe|e1 qs werr o Hle Hq Ha|]; subst; (split; [done|]).
  - eapply (left_ok _ _ _ ps bs); [|by rewrite Hwe]. constructor; [by rewrite Hwe|done|by rewrite Hle].
  - pose proof (exec_txs_length (tx_ops g) (en_ledger e)) as Hlen.
    pose proof (omap_length_le result_ok (exec_txs (tx_ops g) (en_ledger e)).2) as Hle'.
    subst o. rewrite split_results_batches in Hq by congruence. apply Forall2_length in Hq as Hql.
    eapply (left_failed _ _ _ (en_wal e) io ps bs qs); try done; try (by rewrite Hle).
    + unfold lenN in *. rewrite length_app. lia.
    + rewrite Hle. apply exec_txs_run.
Qed.

Lemma txs_outcome_options io g e e' sent r :
  txs_outcome io g e e' sent r -> wal_options (en_wal e') = wal_options (en_wal e).
Proof.
  pose proof (append_batch_options io) as E. intros Ho.
  destruct Ho as [e' m _ Hw|e' qs err o _ _ Ha|e' qs o _ _ [[_ Hw]|[range Ha]]]; try (by rewrite Hw);
    specialize (E qs (en_wal e)); by rewrite Ha in E.
Qed.

Lemma process_batch_spec sc io batch e ps bs :
  engine_ok sc e ps bs -> lenN ps + lenN batch < 2 ^ 64 ->
  let '(e', _, r) := process_batch wal_to_string io batch e in
  match r with
  | Ok _ => wal_options (en_wal e') = wal_options (en_wal e) /\
      en_ledger e' = (exec_txs (tx_ops (gather batch
        (mkClock (last_timestamp (en_ledger e)) (ti_clock io)))) (en_ledger e)).1 /\
      exists qs new, (length qs <= length batch)%nat /\ engine_ok sc e' (ps ++ qs) (bs ++ new)
  | Err err => en_ledger e' = en_ledger e /\
      left_behind sc (wal_options (en_wal e)) e' (is_wal_error r)
  end.
Proof.
  intros Hok H64. destruct (decide (batch = [])) as [-> | Hne].
  { split_and!; [done|done|]. exists [], []. by rewrite !app_nil_r. }
  destruct (process_batch_outcome io batch e Hne) as (g & e0 & e1 & sent & r & Hg & Hl & Hw & Ho & ->).
  pose proof (gather_gathered batch (mkClock (last_timestamp (en_ledger e)) (ti_clock io))) as Hga.
  rewrite <- Hg in Hga. pose proof (gathered_length _ _ Hga) as Hlen.
  assert (engine_ok sc e0 ps bs) as Hok0
    by (destruct Hok; constructor; [by rewrite Hw|done|by rewrite Hl]).
  assert (lenN ps + lenN (tx_ops g) < 2 ^ 64) as H64' by (unfold lenN in *; lia).
  rewrite <- Hg, <- Hw, <- Hl. destruct r as [[]|err].
  - split; [exact (txs_outcome_options _ _ _ _ _ _ Ho)|].
    pose proof (engine_ok_done sc _ g e0 ps bs e1 sent Hok0 (ga_len _ _ Hga) H64' Ho)
      as (qs & [Hw1 Hd1 Hr1] & Hq).
    split; [inversion Ho as [| |? ? o Hle]; exact Hle|]. eexists qs, _. split; [lia|]. constructor; done.
  - exact (txs_outcome_failed sc _ g e0 ps bs e1 sent err Hok0 (ga_len _ _ Hga) H64' Ho).
Qed.

(** ** Many turns *)

Definition turn_commands (t : Turn) : nat := S (length (tn_arrivals t)).

Lemma fill_length max arrivals batch :
  (length (fill max arrivals batch) <= length batch + length arrivals)%nat.
Proof.
  revert batch. induction arrivals as [|a arrivals IH]; intros batch; simpl; [lia|].
  destruct (_ <? _); [|lia]. destruct a; try lia; etrans; try apply IH; rewrite length_app; simpl; lia.
Qed.

Lemma run_engine_left sc turns e ps bs :
  engine_ok sc e ps bs -> lenN ps + list_sum (N.of_nat ∘ turn_commands) turns < 2 ^ 64 ->
  let '(e', _, r) := run_engine wal_to_string turns e in
  left_behind sc (wal_options (en_wal e)) e'
    (match r with Some r => is_wal_error r | None => false end) /\
  exists evs, run (en_ledger e) evs (en_ledger e').
Proof.
  revert e ps bs. induction turns as [|t turns IH]; intros e ps bs Hok H64; cbn [run_engine].
  { split; [by eapply left_ok|]. exists []. constructor. }
  destruct (tn_first t) as [first|].
  2: { split; [by eapply left_ok|]. exists []. constructor. }
  set (batch := fill _ _ _). cbn [list_sum foldr] in H64. fold (list_sum (N.of_nat ∘ turn_commands) turns) in H64.
  assert (length batch <= turn_commands t)%nat as Hb
    by (etrans; [apply fill_length|unfold turn_commands; simpl; lia]).
  unfold compose at 1 in H64.
  pose proof (process_batch_spec sc (tn_io t) batch e ps bs Hok) as Hp.
  specialize (Hp ltac:(unfold lenN in *; lia)).
  destruct (process_batch wal_to_string (tn_io t) batch e) as [[e1 sent] [[]|err]].
  - destruct Hp as (Hopt & Hl & qs & new & Hq & Hok1).
    specialize (IH e1 (ps ++ qs) (bs ++ new) Hok1).
    specialize (IH ltac:(unfold lenN in *; rewrite length_app; lia)).
    destruct (run_engine wal_to_string turns e1) as [[e2 sent2] r]. rewrite Hopt in IH.
    destruct IH as [? [evs Hr]]. split; [done|]. eexists. eapply run_app; [|done]. rewrite Hl. apply exec_txs_run.
  - destruct Hp as [-> ?]. split; [done|]. exists []. constructor.
Qed.

(** ** Recovery, as [tests/wal_e2e.rs] does it: open the log, read its records,
    decode them and replay the events. *)

Definition recover (oio : OpenIo) (rio : ReadIo) (disk : bytes) (opts : WalOptions) (sc : Scale) :
    option Ledger :=
  '(w, _) ← result_ok (open oio disk opts).2;
  records ← result_ok (read_records rio w).2;
  batches ← mapM (fun r => result_ok (decode_events (rec_payload r))) records;
  result_ok (replay sc (concat batches)).

Definition no_read_faults (rio : ReadIo) : Prop :=
  ri_seek_start rio = true /\ (Failed ∉ ri_reads rio) /\ ri_seek_end rio = true.

Lemma mapM_decodes s ps bs :
  Forall2 decodes ps bs ->
  mapM (fun r => result_ok (decode_events (rec_payload r))) (records_from s ps) = Some bs.
Proof.
  intros Hd. revert s. induction Hd as [|p b ps bs Hp _ IH]; intros s; simpl; [done|].
  rewrite Hp. simpl. by rewrite IH.
Qed.

Lemma recover_log oio rio disk opts sc kept w rec bs l :
  open oio disk opts = (kept, Ok (w, rec)) -> no_read_faults rio ->
  forall ps, wal_ok w ps -> Forall2 decodes ps bs -> run (Ledger_new sc) (concat bs) l ->
  recover oio rio disk opts sc = Some l.
Proof.
  intros Ho (Hs & Hf & He) ps Hw Hd Hr. unfold recover. rewrite Ho. simpl.
  destruct (read_records_log rio w ps Hw Hs Hf He) as (w' & -> & _). simpl.
  rewrite (mapM_decodes 0 ps bs Hd). simpl. apply replay_run in Hr. by rewrite Hr.
Qed.

Lemma run_split l evs1 evs2 l2 :
  run l (evs1 ++ evs2) l2 -> exists l1, run l evs1 l1 /\ run l1 evs2 l2.
Proof.
  revert l. induction evs1 as [|ev evs1 IH]; intros l Hr; simpl in *.
  - exists l. split; [constructor|done].
  - inversion Hr as [|? ? l1 ? ? Hs Hr']; subst. destruct (IH l1 Hr') as (l3 & ? & ?).
    exists l3. split; [by econstructor|done].
Qed.

Lemma left_behind_recover sc opts e b oio rio :
  left_behind sc opts e b -> no_open_faults oio -> no_read_faults rio ->
  exists extra l, recover oio rio (content (wal_file (en_wal e))) opts sc = Some l /\
    run (en_ledger e) extra l /\ (b = false -> extra = []).
Proof.
  intros Hl Hoio Hrio. destruct Hl as [ps bs b [Hw Hd Hr] <-|w io ps bs qs new err l Hw <- Hd Hq H64 Ha Hr Hn].
  - destruct (open_log oio ps [] (wal_options (en_wal e)) Hoio (wo_bounds _ _ Hw) (torn_nil _))
      as (w & Eo & _ & Hw2 & _). rewrite app_nil_r in Eo. rewrite (wo_content _ _ Hw).
    exists [], (en_ledger e). split; [by eapply recover_log|]. split; [constructor|done].
  - destruct (append_err_open io qs w ps (en_wal e) err oio Hw H64 Ha Hoio) as (j & w2 & rec & Eo & Hw2).
    rewrite <- (take_drop j new), concat_app in Hn. apply run_split in Hn as (l1 & Hn & _).
    exists (concat (take j new)), l1. split; [|done].
    eapply (recover_log _ _ _ _ _ _ _ _ (bs ++ take j new)); [done|done|done|..].
    + by apply Forall2_app, Forall2_take.
    + rewrite concat_app. by eapply run_app.
Qed.

End engine.
