(* ===== verification/EngineSerial.v ===== *)
(** * Group commit and serial service

    A reference in which the commands of a batch are served one at a time, each against
    the ledger its predecessors left and answered before the next one, and the proof that
    gathering, preparing and splitting a batch computes the same ledger and the same
    verdicts.  The engine answers at the end of the batch: [brought_up] relates its replies
    to those of the reference. *)

From S2P Require Import Prelude Error Amount Account Transfer Ledger LedgerStep LedgerInv.
From S2P Require Import LedgerBatch LedgerHistory Bytes WalRecord WalScan Wal WalInv Codec Engine EngineInv.

(** ** The reference *)

(** A command that was served: a mutation, with the error if it was refused, or a query. *)
Inductive Asked : Type :=
| Mutated (r : Responder) (refused : option IngestError)
| Queried (q : QueryCommand).

(** Its reply, from the ledger [l]. *)
Definition reply_from (l : Ledger) (a : Asked) : N * Reply :=
  match a with
  | Mutated r (Some err) => respond_err r err
  | Mutated r None => respond_ok r l
  | Queried q => answer_query l q
  end.

(** The commands served so far, and the reply that each got before the next was served. *)
Record Serial : Type := mkSerial {
  s_clock : Clock;
  s_ledger : Ledger;
  s_served : list Asked;
  s_replies : Sent;
}.

Definition answer (c : Clock) (l : Ledger) (a : Asked) (s : Serial) : Serial :=
  mkSerial c l (s_served s ++ [a]) (s_replies s ++ [reply_from l a]).

Definition serve_tx (r : Responder) (converted : Clock * result IngestError (list BatchOp))
    (s : Serial) : Serial :=
  match converted with
  | (c, Err err) => answer c (s_ledger s) (Mutated r (Some err)) s
  | (c, Ok ops) =>
      match exec_tx ops (s_ledger s) with
      | Ok (l, _) => answer c l (Mutated r None) s
      | Err err => answer c (s_ledger s) (Mutated r (Some (ILedger err))) s
      end
  end.

Definition serve_one (cmd : IngestCommand) (s : Serial) : Serial :=
  match cmd with
  | Mutate op ch =>
      serve_tx (RSingle (target op) ch) (st_bind (into_batch_op op) (fun b => st_ret [b]) (s_clock s)) s
  | ApplyBatch ops ch =>
      serve_tx (RBatch (N.of_nat (length ops) mod 2 ^ 32) ch) (convert_ops ops [] (s_clock s)) s
  | GetAccount id ch => answer (s_clock s) (s_ledger s) (Queried (QAccount id ch)) s
  | GetTransfer id ch => answer (s_clock s) (s_ledger s) (Queried (QTransfer id ch)) s
  end.

Definition serve (batch : list IngestCommand) (c : Clock) (l : Ledger) : Serial :=
  foldl (fun s cmd => serve_one cmd s) (mkSerial c l [] []) batch.

Definition verdict_of (a : Asked) : option (Responder * option IngestError) :=
  match a with Mutated r refused => Some (r, refused) | Queried _ => None end.
Definition query_asked (a : Asked) : option QueryCommand :=
  match a with Queried q => Some q | Mutated _ _ => None end.
Definition s_verdicts (s : Serial) : list (Responder * option IngestError) := omap verdict_of (s_served s).

(** The reply a verdict calls for, given a ledger. *)
Definition verdict_reply (l : Ledger) (v : Responder * option IngestError) : N * Reply :=
  reply_from l (Mutated v.1 v.2).

Definition query_of (cmd : IngestCommand) : option QueryCommand :=
  match cmd with
  | GetAccount id ch => Some (QAccount id ch)
  | GetTransfer id ch => Some (QTransfer id ch)
  | _ => None
  end.

Lemma answer_verdicts c l a s :
  s_verdicts (answer c l a s) = s_verdicts s ++ match verdict_of a with Some v => [v] | None => [] end.
Proof. unfold s_verdicts. simpl. rewrite omap_app. csimpl. by destruct (verdict_of a). Qed.

(** Mutations and queries apart. *)
Lemma replies_split l served :
  reply_from l <$> served ≡ₚ
  (verdict_reply l <$> omap verdict_of served) ++ (answer_query l <$> omap query_asked served).
Proof.
  induction served as [|[r v|q] served IH]; csimpl; [done| |]; rewrite IH; [done|]. solve_Permutation.
Qed.

(** ** Replies brought up to a later ledger *)

(** A reply [r] that was given earlier against the reply [r'] from the ledger [l]: the
    same, or the same entity as it stands in [l], or what a query that found nothing finds
    there. *)
Inductive brought_up (l : Ledger) : N * Reply -> N * Reply -> Prop :=
| up_same r : brought_up l r r
| up_account ch id a a' : accounts l !! id = Some a' -> later_account a a' ->
    brought_up l (ch, ReplyMutation (Ok (MAccount a))) (ch, ReplyMutation (Ok (MAccount a')))
| up_transfer ch id t t' : transfers l !! id = Some t' -> later_transfer t t' ->
    brought_up l (ch, ReplyMutation (Ok (MTransfer t))) (ch, ReplyMutation (Ok (MTransfer t')))
| up_found_account ch id a a' : accounts l !! id = Some a' -> later_account a a' ->
    brought_up l (ch, ReplyAccount (Ok a)) (ch, ReplyAccount (Ok a'))
| up_found_transfer ch id t t' : transfers l !! id = Some t' -> later_transfer t t' ->
    brought_up l (ch, ReplyTransfer (Ok t)) (ch, ReplyTransfer (Ok t'))
| up_no_account ch id a' : accounts l !! id = Some a' ->
    brought_up l (ch, ReplyAccount (Err (ILedger (AccountNotFound id)))) (ch, ReplyAccount (Ok a'))
| up_no_transfer ch id t' : transfers l !! id = Some t' ->
    brought_up l (ch, ReplyTransfer (Err (ILedger (TransferNotFound id)))) (ch, ReplyTransfer (Ok t')).

(** ** Gathering agrees with serving *)

Lemma exec_txs_snoc txs tx l :
  exec_txs (txs ++ [tx]) l =
  match exec_tx tx (exec_txs txs l).1 with
  | Ok (l', evs) => (l', (exec_txs txs l).2 ++ [Ok evs])
  | Err e => ((exec_txs txs l).1, (exec_txs txs l).2 ++ [Err e])
  end.
Proof.
  revert l. induction txs as [|t txs IH]; intros l; cbn [exec_txs app].
  - simpl. by destruct (exec_tx tx l) as [[l' evs]|e].
  - destruct (exec_tx t l) as [[l' evs]|e]; rewrite IH.
    + destruct (exec_txs txs l') as [lf rs]. simpl. by destruct (exec_tx tx lf) as [[? ?]|?].
    + destruct (exec_txs txs l) as [lf rs]. simpl. by destruct (exec_tx tx lf) as [[? ?]|?].
Qed.

Definition tx_verdict (r : Responder) (res : result LedgerError (list LedgerEvent)) :
    Responder * option IngestError :=
  (r, match res with Ok _ => None | Err e => Some (ILedger e) end).

Definition early_verdict (p : Responder * IngestError) : Responder * option IngestError :=
  (p.1, Some p.2).

Record served (l0 : Ledger) (c : Clock) (g : Gathered) (s : Serial) : Prop := {
  sv_clock : s_clock s = c;
  sv_len : length (responders g) = length (tx_ops g);
  sv_ledger : s_ledger s = (exec_txs (tx_ops g) l0).1;
  sv_verdicts : s_verdicts s ≡ₚ (early_verdict <$> early_errors g) ++
    zip_with tx_verdict (responders g) (exec_txs (tx_ops g) l0).2;
}.

Lemma served_early l0 c g s c' r err :
  served l0 c g s ->
  served l0 c' (push_early r err g) (answer c' (s_ledger s) (Mutated r (Some err)) s).
Proof.
  intros [_ Hl Hle Hv]. constructor; rewrite ?answer_verdicts; simpl; try done. rewrite fmap_app, Hv. simpl.
  unfold early_verdict at 2. simpl. solve_Permutation.
Qed.

Lemma served_tx l0 c g s c' r ops :
  served l0 c g s -> served l0 c' (push_tx ops r g) (serve_tx r (c', Ok ops) s).
Proof.
  intros [_ Hl Hle Hv]. simpl. pose proof (exec_txs_length (tx_ops g) l0) as Hlen.
  pose proof (exec_txs_snoc (tx_ops g) ops l0) as He. rewrite <- Hle in He.
  assert (length (responders g ++ [r]) = length (tx_ops g ++ [ops])) as Hl'
    by (rewrite !length_app; simpl; lia).
  destruct (exec_tx ops (s_ledger s)) as [[l' evs]|e];
    constructor; rewrite ?answer_verdicts; simpl; try done; rewrite He; simpl; try done;
    (rewrite zip_with_app by congruence); rewrite Hv; simpl; solve_Permutation.
Qed.

Lemma gather_one_served l0 cmd c g s :
  served l0 c g s ->
  let '(c', g') := gather_one cmd (c, g) in served l0 c' g' (serve_one cmd s).
Proof.
  intros Hs. pose proof (sv_clock _ _ _ _ Hs) as Hc. destruct cmd as [op ch|ops ch|id ch|id ch]; simpl.
  - rewrite Hc. unfold st_bind. destruct (into_batch_op op c) as [c' [b|err]];
      [by apply (served_tx _ c)|by apply (served_early _ c)].
  - rewrite Hc. destruct (convert_ops ops [] c) as [c' [bs|err]];
      [by apply (served_tx _ c)|by apply (served_early _ c)].
  - destruct Hs as [? ? ? Hv]. constructor; rewrite ?answer_verdicts; simpl; rewrite ?app_nil_r; done.
  - destruct Hs as [? ? ? Hv]. constructor; rewrite ?answer_verdicts; simpl; rewrite ?app_nil_r; done.
Qed.

Lemma foldl_served l0 batch c g s :
  served l0 c g s ->
  let '(c', g') := foldl (fun s cmd => gather_one cmd s) (c, g) batch in
  served l0 c' g' (foldl (fun s cmd => serve_one cmd s) s batch).
Proof.
  revert c g s. induction batch as [|cmd batch IH]; intros c g s Hs; cbn [foldl]; [done|].
  pose proof (gather_one_served l0 cmd c g s Hs) as H1.
  destruct (gather_one cmd (c, g)) as [c' g']. by apply IH.
Qed.

Lemma gather_served batch c l : exists c', served l c' (gather batch c) (serve batch c l).
Proof.
  pose proof (foldl_served l batch c (mkGathered [] [] [] []) (mkSerial c l [] [])) as H.
  unfold gather, serve. destruct (foldl _ (c, _) batch) as [c' g']. exists c'. by apply H.
Qed.

Lemma gather_queries batch c : queries (gather batch c) = omap query_of batch.
Proof.
  unfold gather. enough (forall c g, queries (foldl (fun s cmd => gather_one cmd s) (c, g) batch).2 =
    queries g ++ omap query_of batch) as H by apply (H c (mkGathered [] [] [] [])).
  induction batch as [|cmd batch IH]; intros c0 g; cbn [foldl]; [by rewrite app_nil_r|].
  destruct (gather_one cmd (c0, g)) as [c1 g1] eqn:E. rewrite IH.
  destruct cmd as [op ch|ops ch|id ch|id ch]; simpl in E; csimpl;
    [destruct (into_batch_op op c0) as [? []]|destruct (convert_ops ops [] c0) as [? []]| |];
    injection E as <- <-; simpl; by rewrite <- ?app_assoc.
Qed.

(** The replies of the split results are those of the verdicts. *)
Lemma split_results_replies rs results l :
  length rs = length results ->
  rejections (split_results rs results) ++
    ((fun resp => respond_ok resp l) <$> successful_responders (split_results rs results)) ≡ₚ
  verdict_reply l <$> zip_with tx_verdict rs results.
Proof.
  revert results. induction rs as [|r rs IH]; intros [|[evs|e] results] Hl; simplify_eq/=; try done.
  - rewrite <- IH by lia. solve_Permutation.
  - f_equiv. by apply IH.
Qed.

(** ** What was accepted is there *)

Definition present (r : Responder) (l : Ledger) : Prop :=
  match r with
  | RSingle (TargetAccount id) _ => is_Some (accounts l !! id)
  | RSingle (TargetTransfer id) _ => is_Some (transfers l !! id)
  | RBatch _ _ => True
  end.

Lemma present_run r l evs l' : run l evs l' -> present r l -> present r l'.
Proof.
  intros Hr. destruct r as [[id|id] ch|]; simpl; [| |done]; intros [x Hx].
  - by destruct (run_account_later _ _ _ _ _ Hr Hx) as (? & -> & _).
  - by destruct (run_transfer_later _ _ _ _ _ Hr Hx) as (? & -> & _).
Qed.

Lemma accepted_present op c c' b l l' evs ch :
  into_batch_op op c = (c', Ok b) -> exec_tx [b] l = Ok (l', evs) ->
  present (RSingle (target op) ch) l'.
Proof.
  intros Hb Hx. unfold exec_tx in Hx. destruct (st_for guarded_op [b] l) as [l1 [[]|e]] eqn:E; [|done].
  injection Hx as <- _. simpl in E. apply st_bind_ok in E as (l2 & [] & E & [= ->]).
  apply guarded_op_ok in E as (ev & He & Hs).
  destruct op; simpl in Hb; destruct (allocate_timestamp _ _) as [c1 ts];
    unfold new_immediate, new_pending in Hb; try (destruct (validate_invariants _ _ _ _); simpl in Hb);
    simplify_eq/=; try (destruct (transfers l !! _) eqn:Ht; simplify_eq/=);
    inversion Hs; subst; simpl; rewrite lookup_insert_eq; eauto.
Qed.

(** An accepted mutation made what it is answered with. *)
Definition answerable (a : Asked) (l : Ledger) : Prop :=
  match a with Mutated r None => present r l | _ => True end.

Lemma answerable_run a l evs l' : run l evs l' -> answerable a l -> answerable a l'.
Proof. intros Hr. destruct a as [r [err|]|q]; [done| |done]. by apply (present_run r _ _ _ Hr). Qed.

Lemma reply_brought_up l evs l' a :
  run l evs l' -> answerable a l -> brought_up l' (reply_from l a) (reply_from l' a).
Proof.
  intros Hr Ha. destruct a as [[[id|id] ch|n ch] [err|]|[id ch|id ch]]; simpl in *;
    unfold get_account, get_transfer; try constructor.
  - destruct Ha as [x Hx]. destruct (run_account_later _ _ _ _ _ Hr Hx) as (x' & Hx' & Hl).
    rewrite Hx, Hx'. by eapply up_account.
  - destruct Ha as [x Hx]. destruct (run_transfer_later _ _ _ _ _ Hr Hx) as (x' & Hx' & Hl).
    rewrite Hx, Hx'. by eapply up_transfer.
  - destruct (accounts l !! id) as [x|] eqn:Hx; simpl.
    + destruct (run_account_later _ _ _ _ _ Hr Hx) as (x' & Hx' & Hl). rewrite Hx'. by eapply up_found_account.
    + destruct (accounts l' !! id) eqn:Hx'; simpl; [by eapply up_no_account|constructor].
  - destruct (transfers l !! id) as [x|] eqn:Hx; simpl.
    + destruct (run_transfer_later _ _ _ _ _ Hr Hx) as (x' & Hx' & Hl). rewrite Hx'. by eapply up_found_transfer.
    + destruct (transfers l' !! id) eqn:Hx'; simpl; [by eapply up_no_transfer|constructor].
Qed.

(** Each reply was given from a ledger on the way to the present one. *)
Definition given (l : Ledger) (r : N * Reply) (a : Asked) : Prop :=
  exists l0 evs, r = reply_from l0 a /\ answerable a l0 /\ run l0 evs l.
Definition all_given (s : Serial) : Prop := Forall2 (given (s_ledger s)) (s_replies s) (s_served s).

Lemma all_given_answer c evs l a s :
  all_given s -> run (s_ledger s) evs l -> answerable a l -> all_given (answer c l a s).
Proof.
  intros Hg Hr Ha. apply Forall2_app.
  - eapply Forall2_impl; [exact Hg|]. intros r b (l0 & evs0 & E & Hb & Hr0). exists l0, (evs0 ++ evs).
    split_and!; [done|done|by eapply run_app].
  - repeat constructor. exists l, []. split_and!; [done|done|constructor].
Qed.

(** Who asks, with a command. *)
Definition asked_by (cmd : IngestCommand) (a : Asked) : Prop :=
  match cmd, a with
  | Mutate op ch, Mutated r _ => r = RSingle (target op) ch
  | ApplyBatch ops ch, Mutated r _ => r = RBatch (N.of_nat (length ops) mod 2 ^ 32) ch
  | GetAccount id ch, Queried q => q = QAccount id ch
  | GetTransfer id ch, Queried q => q = QTransfer id ch
  | _, _ => False
  end.

(** What serving a command comes to; one that is refused leaves the ledger alone. *)
Inductive one_served (cmd : IngestCommand) (s : Serial) : Serial -> Prop :=
| one_answered c evs l a :
    run (s_ledger s) evs l -> answerable a l -> asked_by cmd a ->
    (forall r err, a = Mutated r (Some err) -> l = s_ledger s) ->
    one_served cmd s (answer c l a s).

Lemma serve_one_step cmd s : one_served cmd s (serve_one cmd s).
Proof.
  assert (forall r conv, (forall refused, asked_by cmd (Mutated r refused)) ->
    (forall c ops l evs, conv = (c, Ok ops) -> exec_tx ops (s_ledger s) = Ok (l, evs) -> present r l) ->
    one_served cmd s (serve_tx r conv s)) as Htx.
  { intros r [c [ops|err]] Hr Hp; simpl.
    - destruct (exec_tx ops (s_ledger s)) as [[l evs]|err] eqn:Hx.
      + apply exec_tx_run in Hx as Hrun. destruct Hrun as [Hrun _]. econstructor; [exact Hrun|by eapply Hp|apply Hr|done].
      + by econstructor; [constructor| |apply Hr|].
    - by econstructor; [constructor| |apply Hr|]. }
  destruct cmd as [op ch|ops ch|id ch|id ch]; simpl; [apply Htx; [done|]|apply Htx; done|..].
  - intros c1 bops l1 evs E Hx. apply st_bind_ok in E as (c2 & b & E & [= <- <-]). by eapply accepted_present.
  - by econstructor; [constructor| | |].
  - by econstructor; [constructor| | |].
Qed.

Lemma serve_snoc batch cmd c l : serve (batch ++ [cmd]) c l = serve_one cmd (serve batch c l).
Proof. unfold serve. by rewrite foldl_app. Qed.

Lemma serve_given batch c l : all_given (serve batch c l).
Proof.
  induction batch as [|cmd batch IH] using rev_ind; [constructor|]. rewrite serve_snoc.
  destruct (serve_one_step cmd (serve batch c l)). by eapply all_given_answer.
Qed.

Lemma serve_brought_up batch c l :
  let s := serve batch c l in
  Forall2 (brought_up (s_ledger s)) (s_replies s) (reply_from (s_ledger s) <$> s_served s).
Proof.
  apply Forall2_fmap_r. eapply Forall2_impl; [apply serve_given|].
  intros r a (l0 & evs & -> & Ha & Hr). by eapply reply_brought_up.
Qed.

Lemma serve_answerable batch c l : Forall (fun a => answerable a (s_ledger (serve batch c l))) (s_served (serve batch c l)).
Proof.
  pose proof (serve_given batch c l) as Hg. unfold all_given in Hg. induction Hg as [|r a rs as_ Ha _ IH]; constructor; [|done].
  destruct Ha as (l0 & evs & _ & Ha & Hr). by eapply answerable_run.
Qed.

Lemma serve_asked batch c l : Forall2 asked_by batch (s_served (serve batch c l)).
Proof.
  induction batch as [|cmd batch IH] using rev_ind; [constructor|]. rewrite serve_snoc.
  destruct (serve_one_step cmd (serve batch c l)). apply Forall2_app; [done|]. by repeat constructor.
Qed.

Lemma serve_extends b1 b2 c l :
  s_served (serve b1 c l) `prefix_of` s_served (serve (b1 ++ b2) c l) /\
  s_replies (serve b1 c l) `prefix_of` s_replies (serve (b1 ++ b2) c l).
Proof.
  induction b2 as [|cmd b2 [IH1 IH2]] using rev_ind; [by rewrite app_nil_r|]. rewrite app_assoc, serve_snoc.
  destruct (serve_one_step cmd (serve (b1 ++ b2) c l)). split; simpl; by apply prefix_app_r.
Qed.

Lemma serve_length batch c l :
  length (s_served (serve batch c l)) = length batch /\ length (s_replies (serve batch c l)) = length batch.
Proof.
  pose proof (Forall2_length _ _ _ (serve_asked batch c l)) as H1.
  pose proof (Forall2_length _ _ _ (serve_given batch c l)) as H2. lia.
Qed.

(** The command at a position: what it asked, what it was answered, and that the ledger
    stayed as it was if it was refused. *)
Lemma serve_lookup batch c l i cmd (at_ := fun n => s_ledger (serve (take n batch) c l)) :
  batch !! i = Some cmd ->
  exists a, s_served (serve batch c l) !! i = Some a /\ asked_by cmd a /\
    s_replies (serve batch c l) !! i = Some (reply_from (at_ (S i)) a) /\
    forall r err, a = Mutated r (Some err) -> at_ (S i) = at_ i.
Proof.
  intros Hi. subst at_. cbv beta. destruct (serve_extends (take (S i) batch) (drop (S i) batch) c l) as [[k1 E1] [k2 E2]].
  rewrite take_drop in E1, E2. rewrite (take_S_r _ _ _ Hi), serve_snoc in *.
  destruct (serve_length (take i batch) c l) as [L1 L2]. rewrite length_take_le in L1, L2
    by (apply lookup_lt_Some in Hi; lia).
  destruct (serve_one_step cmd (serve (take i batch) c l)) as [c' evs l' a Hr Ha Hask Href]. exists a.
  rewrite E1, E2. simpl. split_and!; [|done| |done].
  - rewrite <- app_assoc, lookup_app_r, L1, Nat.sub_diag by lia. done.
  - rewrite <- app_assoc, lookup_app_r, L2, Nat.sub_diag by lia. done.
Qed.

Lemma serve_queries batch c l : omap query_asked (s_served (serve batch c l)) = omap query_of batch.
Proof.
  induction (serve_asked batch c l) as [|cmd a batch' served Ha _ IH]; [done|].
  destruct cmd, a; simpl in Ha; try done; csimpl; rewrite IH; by subst.
Qed.

(** ** A turn of the engine *)

Section engine.
Context `{Crc32c} `{Postcard} (wal_to_string : WalError -> string).

Lemma process_batch_serial io batch e :
  let s := serve batch (mkClock (last_timestamp (en_ledger e)) (ti_clock io)) (en_ledger e) in
  let '(e', sent, r) := process_batch wal_to_string io batch e in
  match r with
  | Ok _ => en_ledger e' = s_ledger s /\ sent ≡ₚ reply_from (en_ledger e') <$> s_served s
  | Err _ => en_ledger e' = en_ledger e
  end.
Proof.
  destruct (decide (batch = [])) as [-> | Hne]; [done|].
  destruct (process_batch_outcome wal_to_string io batch e Hne)
    as (g & e0 & e1 & sent & r & Hg & Hl & _ & Ho & ->).
  destruct (gather_served batch (mkClock (last_timestamp (en_ledger e)) (ti_clock io)) (en_ledger e))
    as [c' [_ Hlen Hle Hv]]. rewrite <- Hg in *.
  pose proof (gather_queries batch (mkClock (last_timestamp (en_ledger e)) (ti_clock io))) as Hq.
  rewrite <- Hg in Hq. pose proof (exec_txs_length (tx_ops g) (en_ledger e)) as Hlx.
  destruct Ho as [e1 m He _|e1 qs err o He _ _|e1 qs o He _ _]; [by rewrite He|by rewrite He|].
  cbn [en_ledger with_metrics]. subst o. rewrite Hl in *. split; [by rewrite Hle|].
  rewrite replies_split, serve_queries. fold (s_verdicts (serve batch
    (mkClock (last_timestamp (en_ledger e)) (ti_clock io)) (en_ledger e))).
  rewrite Hv, Hq, fmap_app, <- !app_assoc, <- list_fmap_compose. apply Permutation_app; [done|].
  rewrite app_assoc. apply Permutation_app; [|done].
  apply split_results_replies. congruence.
Qed.

End engine.
