(* ===== verification/EngineAnswers.v ===== *)
(** * What the engine's answers say about its ledger

    Every successful answer that a turn gives describes the ledger that the turn
    leaves, and stays true, in the sense of [later_account] and [later_transfer], of
    every ledger that a run reaches from there. *)

From S2P Require Import Prelude Error Amount Account Transfer Ledger LedgerStep LedgerInv.
From S2P Require Import LedgerBatch LedgerHistory Bytes WalRecord WalScan Wal WalInv Codec Engine EngineInv.

Section answers.
Context `{Crc32c} `{Postcard} (wal_to_string : WalError -> string).

(** The account or transfer that an answer shows. *)
Definition entity_of (rep : Reply) : option MutationResult :=
  match rep with
  | ReplyMutation (Ok m) => Some m
  | ReplyAccount (Ok a) => Some (MAccount a)
  | ReplyTransfer (Ok t) => Some (MTransfer t)
  | _ => None
  end.

(** A ledger holds an entity, as it was or as it became. *)
Definition still_holds (l : Ledger) (m : MutationResult) : Prop :=
  match m with
  | MAccount a => exists a', accounts l !! acc_id a = Some a' /\ later_account a a'
  | MTransfer t => exists t', transfers l !! tr_id t = Some t' /\ later_transfer t t'
  end.

Lemma still_holds_run l evs l' m : run l evs l' -> still_holds l m -> still_holds l' m.
Proof.
  intros Hr. destruct m as [a|t]; intros (x & Hx & Hl).
  - destruct (run_account_later _ _ _ _ _ Hr Hx) as (a' & ? & ?). exists a'. split; [done|by etrans].
  - destruct (run_transfer_later _ _ _ _ _ Hr Hx) as (t' & ? & ?). exists t'. split; [done|by etrans].
Qed.

Lemma shown_account l id a : ledger_inv l -> get_account l id = Ok a -> still_holds l (MAccount a).
Proof.
  intros Hi Ha. unfold get_account in Ha. destruct (accounts l !! id) as [a'|] eqn:E; simplify_eq/=.
  exists a. rewrite (aok_key _ _ _ _ (inv_accounts _ Hi _ _ E)). done.
Qed.
Lemma shown_transfer l id t : ledger_inv l -> get_transfer l id = Ok t -> still_holds l (MTransfer t).
Proof.
  intros Hi Ht. unfold get_transfer in Ht. destruct (transfers l !! id) as [t'|] eqn:E; simplify_eq/=.
  exists t. rewrite (tok_key _ _ _ _ (inv_transfers _ Hi _ _ E)). done.
Qed.

(** An answer that shows an entity shows one that the ledger holds. *)
Definition truthful (l : Ledger) (s : N * Reply) : Prop :=
  forall m, entity_of s.2 = Some m -> still_holds l m.

Lemma respond_err_truthful l r err : truthful l (respond_err r err).
Proof. by destruct r. Qed.
Lemma respond_ok_truthful l r : ledger_inv l -> truthful l (respond_ok r l).
Proof.
  intros Hi m. destruct r as [[id|id] ch|n ch]; cbn; [| |done].
  - destruct (get_account l id) eqn:E; cbn; [|done]. intros [= <-]. by eapply shown_account.
  - destruct (get_transfer l id) eqn:E; cbn; [|done]. intros [= <-]. by eapply shown_transfer.
Qed.
Lemma answer_query_truthful l q : ledger_inv l -> truthful l (answer_query l q).
Proof.
  intros Hi m. destruct q as [id ch|id ch]; cbn.
  - destruct (get_account l id) eqn:E; cbn; [|done]. intros [= <-]. by eapply shown_account.
  - destruct (get_transfer l id) eqn:E; cbn; [|done]. intros [= <-]. by eapply shown_transfer.
Qed.

Lemma rejections_truthful l rs results : Forall (truthful l) (rejections (split_results rs results)).
Proof.
  revert results. induction rs as [|r rs IH]; intros [|[evs|e] results]; cbn; try constructor; try apply IH.
  apply respond_err_truthful.
Qed.

Lemma process_batch_truthful io batch e :
  ledger_inv (en_ledger e) ->
  let '(e', sent, _) := process_batch wal_to_string io batch e in Forall (truthful (en_ledger e')) sent.
Proof.
  intros Hi. destruct (decide (batch = [])) as [->|Hne]; [constructor|].
  destruct (process_batch_outcome wal_to_string io batch e Hne) as (g & e0 & e1 & sent & r & _ & Hl & _ & Ho & ->).
  assert (forall l, Forall (truthful l) ((fun p => respond_err p.1 p.2) <$> early_errors g)) as He.
  { intros l. apply Forall_fmap, Forall_true. intros p. apply respond_err_truthful. }
  destruct Ho as [e1 m Hle Hw|e1 qs err o Hle Hq Ha|e1 qs o Hle Hq Hlog].
  - apply Forall_app. split; [apply He|]. apply rejections_truthful.
  - rewrite !Forall_app. split_and!; [apply He|apply rejections_truthful|].
    apply Forall_fmap, Forall_true. intros p. apply respond_err_truthful.
  - cbn [en_ledger with_metrics]. assert (ledger_inv (en_ledger e1)) as Hi1.
    { rewrite Hle, Hl. eapply run_inv_ledger; [apply exec_txs_run|done]. }
    rewrite !Forall_app. split_and!; [apply He|apply rejections_truthful|..].
    + apply Forall_fmap, Forall_true. intros p. by apply respond_ok_truthful.
    + apply Forall_fmap, Forall_true. intros q. by apply answer_query_truthful.
Qed.

(** A turn that fails shows no one anything. *)
Lemma failed_turn_silent io batch e :
  let '(_, sent, r) := process_batch wal_to_string io batch e in
  is_ok r = false -> Forall (fun s => entity_of s.2 = None) sent.
Proof.
  assert (forall r err, entity_of (respond_err r err).2 = None) as Herr by (by intros []).
  destruct (decide (batch = [])) as [->|Hne]; [done|].
  destruct (process_batch_outcome wal_to_string io batch e Hne) as (g & e0 & e1 & sent & r & _ & _ & _ & Ho & ->).
  assert (forall rs results, Forall (fun s => entity_of s.2 = None) (rejections (split_results rs results))) as Hrej.
  { induction rs as [|r0 rs IH]; intros [|[evs|err] results]; simpl; try constructor; auto. }
  destruct Ho as [e1 m _ _|e1 qs err o _ _ _|e1 qs o _ _ _]; intros Hf; [..|done]; try subst o;
    rewrite !Forall_app; split_and?; try apply Hrej; apply Forall_fmap, Forall_true; intros; apply Herr.
Qed.

Lemma run_engine_truthful sc turns e ps bs :
  engine_ok sc e ps bs -> lenN ps + list_sum (N.of_nat ∘ turn_commands) turns < 2 ^ 64 ->
  let '(e', sent, _) := run_engine wal_to_string turns e in Forall (truthful (en_ledger e')) sent.
Proof.
  revert e ps bs. induction turns as [|t turns IH]; intros e ps bs Hok H64; cbn [run_engine]; [constructor|].
  destruct (tn_first t) as [first|]; [|constructor].
  set (batch := fill _ _ _). cbn [list_sum foldr] in H64. fold (list_sum (N.of_nat ∘ turn_commands) turns) in H64.
  assert (length batch <= turn_commands t)%nat as Hb
    by (etrans; [apply fill_length|unfold turn_commands; simpl; lia]).
  unfold compose at 1 in H64.
  pose proof (process_batch_spec wal_to_string sc (tn_io t) batch e ps bs Hok) as Hp.
  specialize (Hp ltac:(unfold lenN in *; lia)).
  pose proof (process_batch_truthful (tn_io t) batch e) as Ht.
  specialize (Ht (run_inv_ledger _ _ _ (eo_ledger _ _ _ _ Hok) (ledger_inv_new sc))).
  destruct (process_batch wal_to_string (tn_io t) batch e) as [[e1 sent] [[]|err]]; [|done].
  destruct Hp as (_ & Hl & qs & new & Hq & Hok1).
  specialize (IH e1 (ps ++ qs) (bs ++ new) Hok1).
  specialize (IH ltac:(unfold lenN in *; rewrite length_app; lia)).
  pose proof (run_engine_left wal_to_string sc turns e1 (ps ++ qs) (bs ++ new) Hok1) as Hleft.
  specialize (Hleft ltac:(unfold lenN in *; rewrite length_app; lia)).
  destruct (run_engine wal_to_string turns e1) as [[e2 sent2] r]. destruct Hleft as [_ [evs Hr]].
  apply Forall_app. split; [|done]. eapply Forall_impl; [exact Ht|].
  intros s Hs m Hm. eapply still_holds_run; [exact Hr|by apply Hs].
Qed.

End answers.
