(* ===== verification/EngineProps.v ===== *)
(** * Properties of the ingest engine

    Durability and recovery over whole runs, group commit against its serial
    reference, and the replies clients get, with a worked engine that instantiates
    their hypotheses. *)

From S2P Require Import Prelude Error Amount Account Transfer Ledger LedgerStep LedgerInv.
From S2P Require Import LedgerBatch Bytes WalRecord WalScan Wal WalInv Codec Engine EngineInv EngineSerial.
From S2P Require Import LedgerHistory EngineAnswers.

Section engine.
Context `{Crc32c} `{Postcard} (wal_to_string : WalError -> string).




(** Everyone is answered once.  A turn that succeeds answers every command of its
    batch exactly once; a log failure still answers every mutation exactly once (the
    queries are dropped); a batch that does not serialise leaves the accepted
    mutations unanswered and answers no one twice.  A turn fails in no other way: in
    particular committing what was logged never fails. *)
Theorem process_batch_replies io batch e :
  let '(_, sent, r) := process_batch wal_to_string io batch e in
  match r with
  | Ok _ => sent.*1 ≡ₚ channel_of <$> batch
  | Err (IWal _) => sent.*1 ≡ₚ channel_of <$> filter mutating batch
  | Err (ICodec _) => sent.*1 ⊆+ channel_of <$> filter mutating batch
  | Err _ => False
  end.
Proof.
  destruct (decide (batch = [])) as [-> | Hne]; [simpl; constructor|].
  destruct (process_batch_outcome wal_to_string io batch e Hne)
    as (g & e0 & e1 & sent & r & Hg & _ & _ & Ho & ->).
  pose proof (gather_gathered batch (mkClock (last_timestamp (en_ledger e)) (ti_clock io))) as [Hl Hm Hq].
  rewrite <- Hg in *. pose proof (exec_txs_length (tx_ops g) (en_ledger e0)) as Hlx.
  pose proof (split_results_channels (responders g) (exec_txs (tx_ops g) (en_ledger e0)).2
    ltac:(congruence)) as Hs.
  assert (((fun p : Responder * IngestError => respond_err p.1 p.2) <$> early_errors g).*1 =
    responder_channel <$> (early_errors g).*1) as He.
  { rewrite <- !list_fmap_compose. apply list_fmap_ext. intros ? [] _. apply respond_err_channel. }
  destruct Ho as [e1 m _ _|e1 qs err o _ _ _|e1 qs o _ _ _].
  - rewrite fmap_app, He, <- Hm, <- Hs, (Permutation_app_comm (_ ++ _)).
    apply submseteq_app; [done|]. by apply submseteq_inserts_r.
  - subst o. rewrite !fmap_app, He, (fmap_channel _ responder_channel) by (intros; apply respond_err_channel).
    rewrite <- Hm, <- Hs. by rewrite Permutation_app_comm.
  - subst o. rewrite !fmap_app, He, (fmap_channel _ responder_channel) by (intros; apply respond_ok_channel).
    rewrite (fmap_channel _ query_channel) by (intros; apply answer_query_channel).
    rewrite Hs, Hq, app_assoc, (Permutation_app_comm (_ <$> (early_errors g).*1)), Hm.
    rewrite <- fmap_app. by rewrite filter_app_complement.
Qed.

(** Accepted means present.  In the serial execution a turn amounts to, every
    single mutation that was accepted is answered with its account or transfer as it
    stands in the final ledger, never with an error. *)
Theorem accepted_is_answered batch c l tgt ch :
  let s := serve batch c l in
  (RSingle tgt ch, None) ∈ s_verdicts s ->
  exists m, verdict_reply (s_ledger s) (RSingle tgt ch, None) = (ch, ReplyMutation (Ok m)) /\
    match tgt, m with
    | TargetAccount id, MAccount a => accounts (s_ledger s) !! id = Some a
    | TargetTransfer id, MTransfer t => transfers (s_ledger s) !! id = Some t
    | _, _ => False
    end.
Proof.
  intros s Hin. pose proof (serve_answerable batch c l) as Hp. rewrite Forall_forall in Hp.
  apply list_elem_of_omap in Hin as ([r v|q] & Hin & E); [|done]. injection E as -> ->. specialize (Hp _ Hin).
  unfold verdict_reply, reply_from, respond_ok, get_account, get_transfer.
  destruct tgt as [id|id]; destruct Hp as [x Hx]; simpl in Hx; fold s in Hx; simpl; rewrite Hx;
    [by exists (MAccount x)|by exists (MTransfer x)].
Qed.

End engine.

(** ** A worked engine *)

#[local] Existing Instance castagnoli.
#[local] Existing Instance varint_codec.

Definition usd : Scale := Scale_usd.
Definition no_text (err : WalError) : string := "log failure".

Definition fresh_engine : Engine :=
  mkEngine (Ledger_new usd) (mkWal (file_found []) 0 0 (mkWalOptions 4096 true) []) 8
    (mkMetrics 0 0 0 0 0 [] []).


(** A reserve and a customer opened, a deposit, a withdrawal that is too large, a
    transfer to oneself and a query. *)
Definition opening : list IngestCommand :=
  [ Mutate (InCreateAccount 1 Asset flags_unrestricted usd 0) 100;
    Mutate (InCreateAccount 2 Liability flags_customer usd 0) 101;
    Mutate (InCreateTransfer 10 1 2 500 0) 102;
    Mutate (InCreateTransfer 11 2 1 900 0) 103;
    Mutate (InCreateTransfer 12 2 2 1 0) 104;
    GetAccount 2 105 ].

Definition good_io : TurnIo := mkTurnIo [Some 1000] (mkAppendIo None true true true) 1.

Definition turn_of (io : TurnIo) (batch : list IngestCommand) : Turn :=
  mkTurn (head batch) (Ready <$> tail batch) io.




Lemma accepted_is_answered_witness :
  let s := serve opening (mkClock 0 [Some 1000]) (Ledger_new usd) in
  exists m, verdict_reply (s_ledger s) (RSingle (TargetTransfer 10) 102, None) =
    (102, ReplyMutation (Ok m)).
Proof.
  destruct (accepted_is_answered opening (mkClock 0 [Some 1000]) (Ledger_new usd) (TargetTransfer 10) 102)
    as (m & E & _); [|by exists m].
  apply (list_elem_of_lookup_2 _ 2). by vm_compute.
Defined.

(** The whole turn, evaluated: the three good commands are answered with what they
    made, the others with their errors, and the ledger holds three events. *)
Example opening_turn :
  let '(e', sent, r) := process_batch no_text good_io opening fresh_engine in
  r = Ok tt /\ length (journal (en_ledger e')) = 3%nat /\ next_seq (en_wal e') = 3 /\
  sent.*1 = [104; 103; 100; 101; 102; 105] /\
  transfers_rejected (en_metrics e') = 2.
Proof. vm_compute. split_and!; reflexivity. Qed.

(** A query in a batch sees what comes after it in the batch: served one at a time it would
    not find the account, which the engine shows. *)
Example query_sees_batch :
  let batch := [GetAccount 1 110; Mutate (InCreateAccount 1 Asset flags_unrestricted usd 0) 111] in
  let '(_, sent, r) := process_batch no_text good_io batch fresh_engine in
  r = Ok tt /\
  (s_replies (serve batch (mkClock 0 [Some 1000]) (Ledger_new usd))).*2 !! 0%nat =
    Some (ReplyAccount (Err (ILedger (AccountNotFound 1)))) /\
  exists a, (110, ReplyAccount (Ok a)) ∈ sent /\ acc_id a = 1.
Proof.
  vm_compute. split_and!; [reflexivity|reflexivity|]. eexists. split; [right; left|reflexivity].
Qed.

(** A timestamp chosen by the caller is taken as it is: one behind the watermark is
    not moved up to it, and the ledger refuses the operation. *)
Example backdated_is_refused :
  let '(e, _, _) := process_batch no_text good_io opening fresh_engine in
  let '(_, sent, r) := process_batch no_text good_io [Mutate (InCreateTransfer 13 1 2 5 7) 109] e in
  r = Ok tt /\ last_timestamp (en_ledger e) = 1002 /\
  sent = [(109, ReplyMutation (Err (ILedger (TimestampBehindPrior 7 1002))))].
Proof. vm_compute. split_and!; reflexivity. Qed.

(** The counters of transfers count other things too: of the six commands of the opening
    turn three concern transfers and one is committed, but all six count as received,
    the query included, and the opened accounts count as committed. *)
Example counters_of_transfers :
  let '(e, _, _) := run_engine no_text [turn_of good_io opening] fresh_engine in
  transfers_received (en_metrics e) = 6 /\ transfers_committed (en_metrics e) = 3.
Proof. by vm_compute. Qed.
