(* ===== verification/Server.v ===== *)
(** * The gRPC service

    [crates/ingest/src/server.rs] over the messages of [proto/ledger.proto]: decoding a
    request into an ingest operation, submitting it to the queue, and encoding what
    comes back.  The queue and the engine behind it are the argument [ask]; the engine
    itself is [Engine]. *)

From S2P Require Import Prelude Error Amount Account Transfer Bytes Wal Codec Engine.

(** ** 128-bit numbers as two words *)

Definition split_u128 (val : N) : N * N := (N.land val 0xFFFFFFFFFFFFFFFF, N.shiftr val 64).
Definition join_u128 (low high : N) : N := N.lor (N.shiftl high 64) low.

(** ** Messages *)

Record PAmount : Type := mkPAmount { units : N; pa_scale : N; units_high : N }.

Record PFlags : Type := mkPFlags {
  pf_debits_must_not_exceed_credits : bool;
  pf_credits_must_not_exceed_debits : bool;
  pf_is_closed : bool;
}.

Record PBalance : Type := mkPBalance {
  pb_debits_posted : option PAmount;
  pb_credits_posted : option PAmount;
  pb_debits_pending : option PAmount;
  pb_credits_pending : option PAmount;
}.

Record PAccount : Type := mkPAccount {
  pac_id : N;
  pac_account_type : Z;
  pac_flags : option PFlags;
  pac_scale : N;
  pac_balance : option PBalance;
  pac_id_high : N;
}.

Record PTransfer : Type := mkPTransfer {
  pt_id : N;
  pt_debit_account_id : N;
  pt_credit_account_id : N;
  pt_amount : option PAmount;
  pt_state : Z;
  pt_pending_id : option N;
  pt_timestamp : N;
  pt_id_high : N;
  pt_debit_account_id_high : N;
  pt_credit_account_id_high : N;
  pt_pending_id_high : option N;
}.

Record CreateAccountRequest : Type := mkCreateAccountRequest {
  car_id : N; car_account_type : Z; car_flags : option PFlags; car_scale : N;
  car_timestamp : N; car_id_high : N;
}.

(** [CreateTransferRequest] and [CreatePendingRequest] have the same fields. *)
Record MoveRequest : Type := mkMoveRequest {
  mr_id : N; mr_debit_account_id : N; mr_credit_account_id : N; mr_amount : option PAmount;
  mr_timestamp : N; mr_id_high : N; mr_debit_account_id_high : N; mr_credit_account_id_high : N;
}.

Record PostPendingRequest : Type := mkPostPendingRequest {
  ppr_pending_id : N; ppr_post_transfer_id : N; ppr_amount : option PAmount; ppr_timestamp : N;
  ppr_pending_id_high : N; ppr_post_transfer_id_high : N;
}.

Record VoidPendingRequest : Type := mkVoidPendingRequest {
  vpr_pending_id : N; vpr_timestamp : N; vpr_pending_id_high : N;
}.

(** [GetAccountRequest] and [GetTransferRequest]. *)
Record GetRequest : Type := mkGetRequest { gr_id : N; gr_id_high : N }.

(** The [oneof] of [BatchOperation]. *)
Inductive Operation : Type :=
| OperationCreateAccount (c : CreateAccountRequest)
| OperationCreateTransfer (t : MoveRequest)
| OperationCreatePending (p : MoveRequest)
| OperationPostPending (pp : PostPendingRequest)
| OperationVoidPending (vp : VoidPendingRequest).

(** ** Conversions *)

Definition amount_to_proto (amount : Amount) (scale : N) : PAmount :=
  let '(units, units_high) := split_u128 amount in mkPAmount units scale units_high.

(** The numbers of the enumeration; zero is unspecified, and an unknown number does not
    convert. *)
Definition proto_to_account_type (val : Z) : result IngestError AccountType :=
  match val with
  | 1 => Ok Asset
  | 2 => Ok Liability
  | 3 => Ok Equity
  | 4 => Ok Revenue
  | 5 => Ok Expense
  | _ => Err (InvalidInput "unknown or unspecified account type")
  end%Z.

Definition account_type_to_proto (account_type : AccountType) : Z :=
  match account_type with Asset => 1 | Liability => 2 | Equity => 3 | Revenue => 4 | Expense => 5 end.

Definition proto_to_flags (proto : option PFlags) : AccountFlags :=
  match proto with
  | Some f => mkFlags (pf_debits_must_not_exceed_credits f) (pf_credits_must_not_exceed_debits f)
                (pf_is_closed f)
  | None => mkFlags false false false
  end.

Definition flags_to_proto (flags : AccountFlags) : PFlags :=
  mkPFlags (debits_must_not_exceed_credits flags) (credits_must_not_exceed_debits flags)
    (is_closed flags).

Definition balance_to_proto (balance : Balance) (scale : N) : PBalance :=
  mkPBalance (Some (amount_to_proto (debits_posted balance) scale))
    (Some (amount_to_proto (credits_posted balance) scale))
    (Some (amount_to_proto (debits_pending balance) scale))
    (Some (amount_to_proto (credits_pending balance) scale)).

Definition account_to_proto (account : Account) : PAccount :=
  let scale_u32 := scale_raw (acc_scale account) in
  let '(id, id_high) := split_u128 (acc_id account) in
  mkPAccount id (account_type_to_proto (Account.account_type account)) (Some (flags_to_proto (acc_flags account)))
    scale_u32 (Some (balance_to_proto (acc_balance account) scale_u32)) id_high.

Definition transfer_state_to_proto (state : TransferState) : Z :=
  match state with Pending => 1 | Posted => 2 | Voided => 3 end.

Definition transfer_to_proto (transfer : Transfer) (scale : N) : PTransfer :=
  let '(id, id_high) := split_u128 (tr_id transfer) in
  let '(debit, debit_high) := split_u128 (debit_account_id transfer) in
  let '(credit, credit_high) := split_u128 (credit_account_id transfer) in
  let pending_split := split_u128 <$> pending_id transfer in
  mkPTransfer id debit credit (Some (amount_to_proto (tr_amount transfer) scale))
    (transfer_state_to_proto (tr_state transfer)) (fst <$> pending_split) (tr_timestamp transfer)
    id_high debit_high credit_high (snd <$> pending_split).

(** [u8::try_from] on a [u32]. *)
Definition u8_try_from (n : N) (msg : string) : result IngestError N :=
  if n <=? U8_MAX then Ok n else Err (InvalidInput msg).

(** ** The service *)

Section server.
(** [LedgerServer]'s scale. *)
Context (self_scale : Scale).

Definition parse_amount (proto : option PAmount) : result IngestError Amount :=
  p ← ok_or proto (InvalidInput "amount is required");
  _ ← (if negb (pa_scale p =? 0) then
         scale_u8 ← u8_try_from (pa_scale p) "amount scale exceeds u8 limit";
         scale ← map_err ILedger (Scale_new scale_u8);
         if negb (bool_decide (scale = self_scale))
         then Err (ILedger (ScaleMismatch self_scale scale))
         else Ok tt
       else Ok tt);
  Ok (join_u128 (units p) (units_high p)).

Definition create_account_op (req : CreateAccountRequest) : result IngestError IngestOp :=
  let id := join_u128 (car_id req) (car_id_high req) in
  account_type ← proto_to_account_type (car_account_type req);
  let flags := proto_to_flags (car_flags req) in
  scale_u8 ← u8_try_from (car_scale req) "scale exceeds u8 limit";
  scale ← map_err ILedger (Scale_new scale_u8);
  Ok (InCreateAccount id account_type flags scale (car_timestamp req)).

Definition create_transfer_op (req : MoveRequest) : result IngestError IngestOp :=
  let id := join_u128 (mr_id req) (mr_id_high req) in
  let debit := join_u128 (mr_debit_account_id req) (mr_debit_account_id_high req) in
  let credit := join_u128 (mr_credit_account_id req) (mr_credit_account_id_high req) in
  amount ← parse_amount (mr_amount req);
  Ok (InCreateTransfer id debit credit amount (mr_timestamp req)).

Definition create_pending_op (req : MoveRequest) : result IngestError IngestOp :=
  let id := join_u128 (mr_id req) (mr_id_high req) in
  let debit := join_u128 (mr_debit_account_id req) (mr_debit_account_id_high req) in
  let credit := join_u128 (mr_credit_account_id req) (mr_credit_account_id_high req) in
  amount ← parse_amount (mr_amount req);
  Ok (InCreatePending id debit credit amount (mr_timestamp req)).

Definition post_pending_op (req : PostPendingRequest) : result IngestError IngestOp :=
  let pending_id := join_u128 (ppr_pending_id req) (ppr_pending_id_high req) in
  let post_transfer_id := join_u128 (ppr_post_transfer_id req) (ppr_post_transfer_id_high req) in
  amount ← parse_amount (ppr_amount req);
  Ok (InPostPending pending_id post_transfer_id amount (ppr_timestamp req)).

Definition void_pending_op (req : VoidPendingRequest) : result IngestError IngestOp :=
  Ok (InVoidPending (join_u128 (vpr_pending_id req) (vpr_pending_id_high req)) (vpr_timestamp req)).

Definition operation_op (operation : Operation) : result IngestError IngestOp :=
  match operation with
  | OperationCreateAccount c => create_account_op c
  | OperationCreateTransfer t => create_transfer_op t
  | OperationCreatePending p => create_pending_op p
  | OperationPostPending pp => post_pending_op pp
  | OperationVoidPending vp => void_pending_op vp
  end.

(** The loop over the operations of a batch, each possibly absent. *)
Fixpoint batch_ops (operations : list (option Operation)) : result IngestError (list IngestOp) :=
  match operations with
  | [] => Ok []
  | op :: rest =>
      operation ← ok_or op (InvalidInput "empty batch operation");
      o ← operation_op operation;
      os ← batch_ops rest;
      Ok (o :: os)
  end.

(** What becomes of a command: the outcome of [try_send], and what is sent on its
    response channel ([None]: the sender is dropped).  [tx] is the channel made for
    the request; it carries replies of its own type only. *)
Context (ask : IngestCommand -> result TrySendError unit * option Reply) (tx : N).

Definition call (cmd : IngestCommand) : result IngestError Reply :=
  _ ← submit (ask cmd).1;
  ok_or (ask cmd).2 ChannelClosed.

Definition recv_mutation (cmd : IngestCommand) : result IngestError MutationResult :=
  reply ← call cmd; match reply with ReplyMutation r => r | _ => Err ChannelClosed end.
Definition recv_count (cmd : IngestCommand) : result IngestError N :=
  reply ← call cmd; match reply with ReplyCount r => r | _ => Err ChannelClosed end.
Definition recv_account (cmd : IngestCommand) : result IngestError Account :=
  reply ← call cmd; match reply with ReplyAccount r => r | _ => Err ChannelClosed end.
Definition recv_transfer (cmd : IngestCommand) : result IngestError Transfer :=
  reply ← call cmd; match reply with ReplyTransfer r => r | _ => Err ChannelClosed end.

Definition unexpected : IngestError := Internal "unexpected mutation result".

Definition rpc_create_account (req : CreateAccountRequest) : result IngestError PAccount :=
  op ← create_account_op req;
  res ← recv_mutation (Mutate op tx);
  match res with
  | MAccount account => Ok (account_to_proto account)
  | MTransfer _ => Err unexpected
  end.

(** The tail the four transfer handlers share. *)
Definition finish_transfer (op : IngestOp) : result IngestError PTransfer :=
  res ← recv_mutation (Mutate op tx);
  match res with
  | MTransfer transfer => Ok (transfer_to_proto transfer (scale_raw self_scale))
  | MAccount _ => Err unexpected
  end.

Definition rpc_create_transfer (req : MoveRequest) : result IngestError PTransfer :=
  op ← create_transfer_op req; finish_transfer op.
Definition rpc_create_pending (req : MoveRequest) : result IngestError PTransfer :=
  op ← create_pending_op req; finish_transfer op.
Definition rpc_post_pending (req : PostPendingRequest) : result IngestError PTransfer :=
  op ← post_pending_op req; finish_transfer op.
Definition rpc_void_pending (req : VoidPendingRequest) : result IngestError PTransfer :=
  op ← void_pending_op req; finish_transfer op.

Definition rpc_get_account (req : GetRequest) : result IngestError PAccount :=
  account ← recv_account (GetAccount (join_u128 (gr_id req) (gr_id_high req)) tx);
  Ok (account_to_proto account).
Definition rpc_get_transfer (req : GetRequest) : result IngestError PTransfer :=
  transfer ← recv_transfer (GetTransfer (join_u128 (gr_id req) (gr_id_high req)) tx);
  Ok (transfer_to_proto transfer (scale_raw self_scale)).

Definition rpc_apply_batch (operations : list (option Operation)) : result IngestError N :=
  ops ← batch_ops operations;
  recv_count (ApplyBatch ops tx).

End server.
