(* ===== verification/ServerProps.v ===== *)
(** * Properties of the gRPC service

    Nothing is lost on the wire, requests decode to the operations clients meant, and
    the engine's replies are of the kind each request expects. *)

From S2P Require Import Prelude Error Amount Account Transfer Ledger LedgerStep LedgerInv.
From S2P Require Import LedgerBatch Bytes WalRecord WalScan Wal WalInv Codec Engine EngineInv EngineSerial EngineAnswers.
From S2P Require Import EngineProps Server.

(** ** Words *)

Lemma split_u128_eq v : split_u128 v = (v mod 2 ^ 64, v / 2 ^ 64).
Proof.
  unfold split_u128. change 0xFFFFFFFFFFFFFFFF with (N.ones 64).
  by rewrite N.land_ones, N.shiftr_div_pow2.
Qed.

Lemma join_u128_eq low high : low < 2 ^ 64 -> join_u128 low high = high * 2 ^ 64 + low.
Proof.
  intros Hl. unfold join_u128. rewrite N.shiftl_mul_pow2.
  rewrite <- N.lxor_lor, <- N.add_nocarry_lxor; [done|..].
  all: apply N.bits_inj_0; intros k; rewrite N.land_spec, <- N.shiftl_mul_pow2.
  all: destruct (N.lt_ge_cases k 64);
    [by rewrite N.shiftl_spec_low|].
  all: rewrite (N.bits_above_log2 low); [by rewrite andb_false_r|].
  all: destruct (N.eq_0_gt_0_cases low) as [-> | Hpos]; [simpl; lia|].
  all: apply N.log2_lt_pow2; [done|]; eapply N.lt_le_trans; [exact Hl|apply N.pow_le_mono_r; lia].
Qed.

Lemma join_split v : join_u128 (split_u128 v).1 (split_u128 v).2 = v.
Proof.
  rewrite split_u128_eq. simpl. rewrite join_u128_eq by (by apply N.mod_lt).
  rewrite (N.div_mod v (2 ^ 64)) at 3 by done. lia.
Qed.

Lemma split_join low high : low < 2 ^ 64 -> split_u128 (join_u128 low high) = (low, high).
Proof.
  intros Hl. rewrite split_u128_eq, join_u128_eq by done. f_equal.
  - by rewrite N.add_comm, N.Div0.mod_add, N.mod_small.
  - rewrite N.add_comm, N.div_add by done. by rewrite N.div_small.
Qed.

Lemma split_inj v w : split_u128 v = split_u128 w -> v = w.
Proof. intros E. by rewrite <- (join_split v), <- (join_split w), E. Qed.

#[local] Opaque split_u128 join_u128.

(** ** Requests *)

(** How a client writes an operation: words, and amounts with the service's scale or
    without one. *)
Definition amount_request (with_scale : bool) (sc : Scale) (x : Amount) : option PAmount :=
  Some (amount_to_proto x (if with_scale then scale_raw sc else 0)).

Definition encode_op (with_scale : bool) (sc : Scale) (op : IngestOp) : Operation :=
  match op with
  | InCreateAccount id ty fl asc ts =>
      let '(lo, hi) := split_u128 id in
      OperationCreateAccount (mkCreateAccountRequest lo (account_type_to_proto ty)
        (Some (flags_to_proto fl)) (scale_raw asc) ts hi)
  | InCreateTransfer id d c x ts =>
      let '(lo, hi) := split_u128 id in let '(dl, dh) := split_u128 d in
      let '(cl, ch) := split_u128 c in
      OperationCreateTransfer (mkMoveRequest lo dl cl (amount_request with_scale sc x) ts hi dh ch)
  | InCreatePending id d c x ts =>
      let '(lo, hi) := split_u128 id in let '(dl, dh) := split_u128 d in
      let '(cl, ch) := split_u128 c in
      OperationCreatePending (mkMoveRequest lo dl cl (amount_request with_scale sc x) ts hi dh ch)
  | InPostPending p q x ts =>
      let '(pl, ph) := split_u128 p in let '(ql, qh) := split_u128 q in
      OperationPostPending (mkPostPendingRequest pl ql (amount_request with_scale sc x) ts ph qh)
  | InVoidPending p ts =>
      let '(pl, ph) := split_u128 p in OperationVoidPending (mkVoidPendingRequest pl ts ph)
  end.

Definition op_scale_ok (op : IngestOp) : Prop :=
  match op with InCreateAccount _ _ _ sc _ => scale_raw sc <= MAX_SCALE | _ => True end.

Lemma scale_decode sc msg :
  scale_raw sc <= MAX_SCALE -> (n ← u8_try_from (scale_raw sc) msg; map_err ILedger (Scale_new n)) = Ok sc.
Proof.
  intros Hs. unfold u8_try_from, Scale_new, U8_MAX. unfold MAX_SCALE in *.
  rewrite (proj2 (N.leb_le _ _)) by lia. simpl. rewrite (proj2 (N.ltb_ge _ _)) by lia. by destruct sc.
Qed.

Lemma parse_amount_request with_scale sc x :
  scale_raw sc <= MAX_SCALE -> parse_amount sc (amount_request with_scale sc x) = Ok x.
Proof.
  intros Hs. unfold parse_amount, amount_request, amount_to_proto.
  pose proof (join_split x) as Hj. destruct (split_u128 x) as [lo hi]. simpl in *.
  destruct with_scale; simpl; [|by rewrite Hj].
  destruct (N.eqb_spec (scale_raw sc) 0); simpl; [by rewrite Hj|].
  pose proof (scale_decode sc "amount scale exceeds u8 limit" Hs) as Hd.
  destruct (u8_try_from (scale_raw sc) _) as [n1|]; simpl in *; [|done]. rewrite Hd. simpl.
  rewrite bool_decide_true by done. simpl. by rewrite Hj.
Qed.

Lemma encode_op_decodes with_scale sc op :
  scale_raw sc <= MAX_SCALE -> op_scale_ok op -> operation_op sc (encode_op with_scale sc op) = Ok op.
Proof.
  intros Hs Hop. destruct op as [id ty fl asc ts|id d c x ts|id d c x ts|p q x ts|p ts]; simpl.
  - pose proof (join_split id) as Hj. destruct (split_u128 id) as [lo hi]. simpl in *.
    unfold create_account_op. simpl. rewrite Hj.
    assert (proto_to_account_type (account_type_to_proto ty) = Ok ty) as -> by (by destruct ty). simpl.
    pose proof (scale_decode asc "scale exceeds u8 limit" Hop) as Hd.
    destruct (u8_try_from (scale_raw asc) _) as [n1|]; simpl in *; [|done]. rewrite Hd. simpl. by destruct fl.
  - pose proof (join_split id) as Hj. pose proof (join_split d) as Hjd. pose proof (join_split c) as Hjc.
    destruct (split_u128 id), (split_u128 d), (split_u128 c). simpl in *.
    unfold create_transfer_op. cbn [mr_amount]. rewrite parse_amount_request by done. simpl. by rewrite Hj, Hjd, Hjc.
  - pose proof (join_split id) as Hj. pose proof (join_split d) as Hjd. pose proof (join_split c) as Hjc.
    destruct (split_u128 id), (split_u128 d), (split_u128 c). simpl in *.
    unfold create_pending_op. cbn [mr_amount]. rewrite parse_amount_request by done. simpl. by rewrite Hj, Hjd, Hjc.
  - pose proof (join_split p) as Hjp. pose proof (join_split q) as Hjq.
    destruct (split_u128 p), (split_u128 q). simpl in *.
    unfold post_pending_op. cbn [ppr_amount]. rewrite parse_amount_request by done. simpl. by rewrite Hjp, Hjq.
  - pose proof (join_split p) as Hjp. destruct (split_u128 p). simpl in *. unfold void_pending_op. simpl. by rewrite Hjp.
Qed.

(** C32: what a client means is what is submitted.  Any list of operations, written as
    protobuf messages with 128-bit numbers in two words and amounts with the service's
    scale or none, decodes to exactly those operations; and one absent operation
    rejects the whole batch. *)
Theorem requests_roundtrip with_scale sc ops :
  scale_raw sc <= MAX_SCALE -> Forall op_scale_ok ops ->
  batch_ops sc (Some ∘ encode_op with_scale sc <$> ops) = Ok ops /\
  forall more, batch_ops sc ((Some ∘ encode_op with_scale sc <$> ops) ++ None :: more) =
    Err (InvalidInput "empty batch operation").
Proof.
  intros Hs. induction 1 as [|op ops Hop _ [IH1 IH2]]; [done|]. split; [|intros more];
    rewrite fmap_cons; cbn [batch_ops app]; simpl ok_or; cbn [mbind result_bind];
    rewrite encode_op_decodes by done; cbn [mbind result_bind].
  - by rewrite IH1.
  - by rewrite IH2.
Qed.

(** ** Responses *)

Lemma amount_to_proto_inj x y sc sc' : amount_to_proto x sc = amount_to_proto y sc' -> x = y.
Proof.
  unfold amount_to_proto. intros E. apply split_inj.
  destruct (split_u128 x), (split_u128 y). by injection E as -> _ ->.
Qed.

Lemma balance_to_proto_inj b b' sc sc' : balance_to_proto b sc = balance_to_proto b' sc' -> b = b'.
Proof.
  intros E. pose proof (f_equal pb_debits_posted E) as E1. pose proof (f_equal pb_credits_posted E) as E2.
  pose proof (f_equal pb_debits_pending E) as E3. pose proof (f_equal pb_credits_pending E) as E4.
  clear E. cbn [balance_to_proto pb_debits_posted pb_credits_posted pb_debits_pending pb_credits_pending] in *.
  apply (inj Some), amount_to_proto_inj in E1, E2, E3, E4. destruct b, b'. simpl in *. congruence.
Qed.

Lemma account_to_proto_inj a a' : account_to_proto a = account_to_proto a' -> a = a'.
Proof.
  intros E. assert (acc_id a = acc_id a') as Eid.
  { apply split_inj. unfold account_to_proto in E.
    destruct (split_u128 (acc_id a)), (split_u128 (acc_id a')). congruence. }
  unfold account_to_proto in E. rewrite Eid in E. destruct (split_u128 (acc_id a')) as [lo hi].
  pose proof (f_equal pac_account_type E) as Ety. pose proof (f_equal pac_flags E) as Ef.
  pose proof (f_equal pac_scale E) as Es. pose proof (f_equal pac_balance E) as Eb. clear E.
  cbn [pac_account_type pac_flags pac_scale pac_balance] in *.
  apply (inj Some), balance_to_proto_inj in Eb.
  destruct a as [id ty [f1 f2 f3] [sc] b], a' as [id' ty' [f1' f2' f3'] [sc'] b'].
  cbn [acc_id account_type acc_flags acc_scale acc_balance scale_raw] in *.
  injection Ef as -> -> ->. subst. f_equal. by destruct ty, ty'.
Qed.

Lemma transfer_to_proto_inj t t' sc : transfer_to_proto t sc = transfer_to_proto t' sc -> t = t'.
Proof.
  intros E. unfold transfer_to_proto in E.
  assert (split_u128 (tr_id t) = split_u128 (tr_id t') /\
    split_u128 (debit_account_id t) = split_u128 (debit_account_id t') /\
    split_u128 (credit_account_id t) = split_u128 (credit_account_id t')) as (E1 & E2 & E3).
  { destruct (split_u128 (tr_id t)), (split_u128 (tr_id t')), (split_u128 (debit_account_id t)),
      (split_u128 (debit_account_id t')), (split_u128 (credit_account_id t)),
      (split_u128 (credit_account_id t')). split_and!; congruence. }
  rewrite E1, E2, E3 in E. apply split_inj in E1, E2, E3.
  destruct (split_u128 (tr_id t')), (split_u128 (debit_account_id t')), (split_u128 (credit_account_id t')).
  pose proof (f_equal pt_amount E) as Ex. pose proof (f_equal pt_state E) as Es.
  pose proof (f_equal pt_pending_id E) as Ep. pose proof (f_equal pt_pending_id_high E) as Eph.
  pose proof (f_equal pt_timestamp E) as Et. clear E.
  cbn [pt_amount pt_state pt_pending_id pt_pending_id_high pt_timestamp] in *.
  apply (inj Some), amount_to_proto_inj in Ex.
  assert (pending_id t = pending_id t') as Epid.
  { destruct (pending_id t) as [p|], (pending_id t') as [p'|]; simpl in *; try done. f_equal.
    apply split_inj. rewrite (surjective_pairing (split_u128 p)), (surjective_pairing (split_u128 p')). congruence. }
  assert (tr_state t = tr_state t') as Est by (by destruct (tr_state t), (tr_state t')).
  destruct t, t'. simpl in *. congruence.
Qed.

(** Nothing is lost on the way out.  Accounts, and transfers, with the same protobuf
    form are the same. *)
Theorem responses_lossless :
  (forall a a', account_to_proto a = account_to_proto a' -> a = a') /\
  (forall t t' sc, transfer_to_proto t sc = transfer_to_proto t' sc -> t = t').
Proof.
  split; [apply account_to_proto_inj|apply transfer_to_proto_inj].
Qed.

(** ** The replies of the engine *)

Definition responder_of (cmd : IngestCommand) : option Responder :=
  match cmd with
  | Mutate op ch => Some (RSingle (target op) ch)
  | ApplyBatch ops ch => Some (RBatch (N.of_nat (length ops) mod 2 ^ 32) ch)
  | _ => None
  end.

(** The kind of reply a request expects. *)
Definition well_typed (cmd : IngestCommand) (r : Reply) : Prop :=
  match cmd, r with
  | Mutate _ _, ReplyMutation (Err _) => True
  | Mutate (InCreateAccount _ _ _ _ _) _, ReplyMutation (Ok (MAccount _)) => True
  | Mutate (InCreateAccount _ _ _ _ _) _, ReplyMutation (Ok (MTransfer _)) => False
  | Mutate _ _, ReplyMutation (Ok (MTransfer _)) => True
  | ApplyBatch _ _, ReplyCount _ => True
  | GetAccount _ _, ReplyAccount _ => True
  | GetTransfer _ _, ReplyTransfer _ => True
  | _, _ => False
  end.

Definition typed_reply (batch : list IngestCommand) (p : N * Reply) : Prop :=
  exists cmd, cmd ∈ batch /\ channel_of cmd = p.1 /\ well_typed cmd p.2.

Definition from_batch (batch : list IngestCommand) (r : Responder) : Prop :=
  exists cmd, cmd ∈ batch /\ responder_of cmd = Some r.

Lemma respond_err_typed batch r err : from_batch batch r -> typed_reply batch (respond_err r err).
Proof.
  intros (cmd & Hin & Hr). exists cmd. split; [done|].
  destruct cmd as [op ch|ops ch| |]; simplify_eq/=; try done. split; [done|]. by destruct op.
Qed.

Lemma respond_ok_typed batch r l : from_batch batch r -> typed_reply batch (respond_ok r l).
Proof.
  intros (cmd & Hin & Hr). exists cmd. split; [done|].
  destruct cmd as [op ch|ops ch| |]; simplify_eq/=; try done.
  destruct op; simpl; first [destruct (get_account _ _)|destruct (get_transfer _ _)]; done.
Qed.

Lemma gather_one_from batch cmd c g :
  Forall (from_batch batch) (responders g ++ (early_errors g).*1) ->
  cmd ∈ batch ->
  let g' := (gather_one cmd (c, g)).2 in
  Forall (from_batch batch) (responders g' ++ (early_errors g').*1).
Proof.
  rewrite !Forall_app. intros [Hr He] Hin. unfold gather_one.
  destruct cmd as [op ch|ops ch|id ch|id ch]; [| |done|done].
  - assert (from_batch batch (RSingle (target op) ch)) as Hf by (by exists (Mutate op ch)).
    destruct (into_batch_op op c) as [c1 [b|err]]; simpl; rewrite ?fmap_app, ?Forall_app; simpl;
      split_and?; auto using Forall_singleton.
  - assert (from_batch batch (RBatch (N.of_nat (length ops) mod 2 ^ 32) ch)) as Hf
      by (by exists (ApplyBatch ops ch)).
    destruct (convert_ops ops [] c) as [c1 [b|err]]; simpl; rewrite ?fmap_app, ?Forall_app; simpl;
      split_and?; auto.
Qed.

Lemma gather_from batch c :
  Forall (from_batch batch) (responders (gather batch c) ++ (early_errors (gather batch c)).*1).
Proof.
  unfold gather. enough (forall rest c g, rest ⊆ batch ->
    Forall (from_batch batch) (responders g ++ (early_errors g).*1) ->
    let g' := (foldl (fun s cmd => gather_one cmd s) (c, g) rest).2 in
    Forall (from_batch batch) (responders g' ++ (early_errors g').*1)) as Hx by (by apply Hx).
  induction rest as [|cmd rest IH]; intros c0 g Hsub Hg; [done|]. cbn [foldl].
  pose proof (gather_one_from batch cmd c0 g Hg ltac:(apply Hsub; left)) as Hg1.
  destruct (gather_one cmd (c0, g)) as [c1 g1]. apply IH; [|done]. intros x Hx. apply Hsub. by right.
Qed.

Lemma split_results_from batch rs results :
  Forall (from_batch batch) rs ->
  Forall (from_batch batch) (successful_responders (split_results rs results)) /\
  Forall (typed_reply batch) (rejections (split_results rs results)).
Proof.
  intros Hrs. revert results. induction Hrs as [|r rs Hr _ IH]; intros [|[evs|e] results]; simpl; try done.
  - destruct (IH results). split; [by constructor|done].
  - destruct (IH results). split; [done|]. constructor; [by apply respond_err_typed|done].
Qed.

Section engine.
Context `{Crc32c} `{Postcard} (wal_to_string : WalError -> string).

Lemma process_batch_typed io batch e :
  Forall (typed_reply batch) (process_batch wal_to_string io batch e).1.2.
Proof.
  destruct (decide (batch = [])) as [-> | Hne]; [done|].
  destruct (process_batch_outcome wal_to_string io batch e Hne)
    as (g & e0 & e1 & sent & r & Hg & _ & _ & Ho & ->).
  pose proof (gather_from batch (mkClock (last_timestamp (en_ledger e)) (ti_clock io))) as Hf.
  pose proof (gather_queries batch (mkClock (last_timestamp (en_ledger e)) (ti_clock io))) as Hq.
  rewrite <- Hg in Hf, Hq. apply Forall_app in Hf as [Hr He].
  destruct (split_results_from batch (responders g) (exec_txs (tx_ops g) (en_ledger e0)).2 Hr) as [Hs Hj].
  assert (Forall (typed_reply batch) ((fun p => respond_err p.1 p.2) <$> early_errors g)) as Hearly.
  { apply Forall_fmap, Forall_forall. intros p Hp. apply respond_err_typed.
    rewrite Forall_forall in He. apply He, list_elem_of_fmap. by exists p. }
  assert (forall l, Forall (typed_reply batch) (answer_query l <$> queries g)) as Hquery.
  { intros l. rewrite Hq, Forall_fmap, Forall_forall. intros q (cmd & Hin & Hc)%list_elem_of_omap.
    exists cmd. split; [done|]. by destruct cmd; simplify_eq/=. }
  assert (forall f, (forall x, from_batch batch x -> typed_reply batch (f x)) ->
    Forall (typed_reply batch) (f <$> successful_responders
      (split_results (responders g) (exec_txs (tx_ops g) (en_ledger e0)).2))) as Hall.
  { intros f Hf. rewrite Forall_fmap. eapply Forall_impl; [exact Hs|]. exact Hf. }
  destruct Ho as [e1 m _ _|e1 qs err o _ _ _|e1 qs o _ _ _]; simpl; rewrite !Forall_app; split_and!; try done;
    apply Hall; intros x Hx; [by apply respond_err_typed|by apply respond_ok_typed].
Qed.

(** C33: replies are well typed.  Whatever a turn does, every reply it sends answers a
    command of the batch, on that command's channel, with the kind of reply the
    command expects; an account creation is answered with an account and a transfer
    operation with a transfer. *)
Theorem replies_well_typed io batch e ch r :
  (ch, r) ∈ (process_batch wal_to_string io batch e).1.2 ->
  exists cmd, cmd ∈ batch /\ channel_of cmd = ch /\ well_typed cmd r.
Proof.
  intros Hin. pose proof (process_batch_typed io batch e) as Ht. rewrite Forall_forall in Ht.
  exact (Ht _ Hin).
Qed.

(** ** From request to response *)

(** The reply delivered on a channel. *)
Definition delivered (sent : Sent) (ch : N) : option Reply :=
  snd <$> List.find (fun p => p.1 =? ch) sent.

(** The five mutating handlers, by the message they take. *)
Definition rpc (sc : Scale) (ask : IngestCommand -> result TrySendError unit * option Reply) (tx : N)
    (operation : Operation) : result IngestError (PAccount + PTransfer) :=
  match operation with
  | OperationCreateAccount c => inl <$> rpc_create_account ask tx c
  | OperationCreateTransfer t => inr <$> rpc_create_transfer sc ask tx t
  | OperationCreatePending p => inr <$> rpc_create_pending sc ask tx p
  | OperationPostPending pp => inr <$> rpc_post_pending sc ask tx pp
  | OperationVoidPending vp => inr <$> rpc_void_pending sc ask tx vp
  end.

(** What the handlers make of the result of their mutation. *)
Definition encode_result (sc : Scale) (op : IngestOp) (res : MutationResult) :
    result IngestError (PAccount + PTransfer) :=
  match op, res with
  | InCreateAccount _ _ _ _ _, MAccount a => Ok (inl (account_to_proto a))
  | InCreateAccount _ _ _ _ _, MTransfer _ => Err unexpected
  | _, MTransfer t => Ok (inr (transfer_to_proto t (scale_raw sc)))
  | _, MAccount _ => Err unexpected
  end.

Lemma rpc_eq sc ask tx operation op :
  operation_op sc operation = Ok op ->
  rpc sc ask tx operation = recv_mutation ask (Mutate op tx) ≫= encode_result sc op.
Proof.
  intros E. destruct operation; simpl in E |- *;
    unfold rpc_create_account, rpc_create_transfer, rpc_create_pending, rpc_post_pending, rpc_void_pending,
      finish_transfer; rewrite E; cbn [mbind result_bind];
    (destruct (recv_mutation ask (Mutate op tx)) as [[|]|]; [..|done]);
    unfold create_account_op, create_transfer_op, create_pending_op, post_pending_op, void_pending_op in E;
    repeat (apply bind_ok in E as (? & _ & E)); injection E as <-; done.
Qed.

Lemma delivered_elem sent ch rep :
  NoDup sent.*1 -> (ch, rep) ∈ sent -> delivered sent ch = Some rep.
Proof.
  unfold delivered. induction sent as [|[c r] sent IH]; csimpl; [by intros _ ?%not_elem_of_nil|].
  intros [Hc Hn]%NoDup_cons [[= <- <-]|Hin]%elem_of_cons; [by rewrite N.eqb_refl|].
  destruct (N.eqb_spec c ch) as [->|]; [|by apply IH]. destruct Hc. apply list_elem_of_fmap. by exists (ch, rep).
Qed.

Lemma delivered_in sent ch rep : delivered sent ch = Some rep -> (ch, rep) ∈ sent.
Proof.
  unfold delivered. intros ([c r] & E & ->)%fmap_Some. apply List.find_some in E as [Hin E%N.eqb_eq].
  simpl in *. subst. by apply list_elem_of_In.
Qed.

(** C34: a mutation request among any others in a batch of the engine, whatever the turn
    meets.  A response carries the account or transfer that the request names as it stands
    in the engine's new ledger.  An error after a turn that succeeded is the error of
    serial service, where the request in its place changed nothing; after a turn that
    failed, the ledger is the one before the turn. *)
Theorem grpc_mutation_effective sc with_scale io batch i op ch e e' sent r
    (at_ := fun n => s_ledger (serve (take n batch) (mkClock (last_timestamp (en_ledger e)) (ti_clock io)) (en_ledger e))) :
  scale_raw sc <= MAX_SCALE -> op_scale_ok op ->
  batch !! i = Some (Mutate op ch) -> NoDup (channel_of <$> batch) ->
  process_batch wal_to_string io batch e = (e', sent, r) ->
  match rpc sc (fun _ => (Ok tt, delivered sent ch)) ch (encode_op with_scale sc op) with
  | Ok (inl pa) => r = Ok tt /\ exists id a, target op = TargetAccount id /\
      accounts (en_ledger e') !! id = Some a /\ pa = account_to_proto a
  | Ok (inr pt) => r = Ok tt /\ exists id t, target op = TargetTransfer id /\
      transfers (en_ledger e') !! id = Some t /\ pt = transfer_to_proto t (scale_raw sc)
  | Err err =>
      match r with
      | Ok _ => en_ledger e' = at_ (length batch) /\ at_ (S i) = at_ i /\
          s_replies (serve batch (mkClock (last_timestamp (en_ledger e)) (ti_clock io)) (en_ledger e)) !! i =
            Some (ch, ReplyMutation (Err err))
      | Err _ => en_ledger e' = en_ledger e
      end
  end.
Proof.
  intros Hs Hop Hi Hnd Hp. rewrite (rpc_eq sc _ _ _ op) by (by apply encode_op_decodes).
  pose proof (process_batch_serial wal_to_string io batch e) as Hser. cbv zeta in Hser.
  pose proof (process_batch_replies wal_to_string io batch e) as Hrep.
  pose proof (failed_turn_silent wal_to_string io batch e) as Hsil. rewrite Hp in *.
  unfold recv_mutation, call. simpl. destruct r as [[]|fault].
  - destruct Hser as [Hl Hsent].
    destruct (serve_lookup batch (mkClock (last_timestamp (en_ledger e)) (ti_clock io)) (en_ledger e) i _ Hi)
      as (a & Ha & Hask & Hri & Href).
    pose proof (serve_answerable batch (mkClock (last_timestamp (en_ledger e)) (ti_clock io)) (en_ledger e)) as Hall.
    rewrite Forall_lookup in Hall. specialize (Hall i a Ha). rewrite <- Hl in Hall.
    destruct a as [resp refused|q]; simpl in Hask; [subst resp|done].
    assert (reply_from (en_ledger e') (Mutated (RSingle (target op) ch) refused) ∈ sent) as Hin.
    { rewrite Hsent. apply list_elem_of_fmap. eexists. split; [done|by eapply list_elem_of_lookup_2]. }
    assert (NoDup sent.*1) as Hn by (by rewrite Hrep).
    destruct refused as [err|]; simpl in *.
    + rewrite (delivered_elem _ _ _ Hn Hin). simpl. split_and!; [|by eapply Href|done].
      unfold at_. by rewrite firstn_all.
    + destruct op; simpl in *; destruct Hall as [x Hx]; unfold get_account, get_transfer in Hin; rewrite Hx in Hin;
        rewrite (delivered_elem _ _ _ Hn Hin); simpl; eauto 6.
  - specialize (Hsil eq_refl). rewrite Forall_forall in Hsil.
    destruct (delivered sent ch) as [[res| | |]|] eqn:Ed; simpl; try done.
    apply delivered_in in Ed. specialize (Hsil _ Ed). by destruct res as [[]|].
Qed.

End engine.

(** ** A worked request *)

#[local] Existing Instance castagnoli.
#[local] Existing Instance varint_codec.

Definition big_op : IngestOp := InCreateTransfer (2 ^ 100 + 7) (2 ^ 70) 3 (2 ^ 90) 55.

Lemma requests_roundtrip_witness :
  batch_ops Scale_usd (Some ∘ encode_op true Scale_usd <$> [big_op; InVoidPending 9 60]) =
    Ok [big_op; InVoidPending 9 60] /\
  forall more, batch_ops Scale_usd ((Some ∘ encode_op true Scale_usd <$> [big_op; InVoidPending 9 60]) ++ None :: more) =
    Err (InvalidInput "empty batch operation").
Proof.
  apply (requests_roundtrip true Scale_usd [big_op; InVoidPending 9 60]); [by vm_compute|repeat constructor].
Defined.

Lemma replies_well_typed_witness :
  exists cmd, cmd ∈ opening /\ channel_of cmd = 105 /\
    well_typed cmd (ReplyAccount (map_err ILedger
      (get_account (en_ledger (process_batch no_text good_io opening fresh_engine).1.1) 2))).
Proof.
  apply (replies_well_typed no_text good_io opening fresh_engine).
  apply (list_elem_of_lookup_2 _ 5). vm_compute. reflexivity.
Defined.

(** The deposit of the opening turn, among the five other commands, and the withdrawal that
    was refused. *)
Definition opening_turn_run : Engine * Sent * result IngestError unit :=
  process_batch no_text good_io opening fresh_engine.

Lemma opening_turn_run_ok : opening_turn_run = (opening_turn_run.1.1, opening_turn_run.1.2, Ok tt).
Proof. vm_compute. reflexivity. Qed.

Lemma grpc_mutation_effective_witness :
  match rpc usd (fun _ => (Ok tt, delivered opening_turn_run.1.2 102)) 102
      (encode_op true usd (InCreateTransfer 10 1 2 500 0)) with
  | Ok (inr pt) => exists t, transfers (en_ledger opening_turn_run.1.1) !! 10 = Some t /\
      pt = transfer_to_proto t (scale_raw usd)
  | _ => False
  end.
Proof.
  pose proof (grpc_mutation_effective no_text usd true good_io opening 2 (InCreateTransfer 10 1 2 500 0) 102
    fresh_engine opening_turn_run.1.1 opening_turn_run.1.2 (Ok tt)
    ltac:(by vm_compute) ltac:(by vm_compute) ltac:(by vm_compute)
    ltac:(apply (bool_decide_unpack _); by vm_compute) opening_turn_run_ok) as Hg.
  assert (match rpc usd (fun _ => (Ok tt, delivered opening_turn_run.1.2 102)) 102
    (encode_op true usd (InCreateTransfer 10 1 2 500 0)) with Ok (inr _) => true | _ => false end = true) as E
    by (vm_compute; reflexivity).
  revert Hg E. generalize opening_turn_run. intros run.
  generalize (rpc usd (fun _ => (Ok tt, delivered run.1.2 102)) 102 (encode_op true usd (InCreateTransfer 10 1 2 500 0))).
  intros [[pa|pt]|err]; [discriminate 2| |discriminate 2]. intros (_ & id & t & E & Ht & ->) _. injection E as <-.
  exists t. split; [exact Ht|reflexivity].
Defined.
