(* ===== verification/Settle.v ===== *)
(** * The on-chain settlement program

    [crates/solana-settle/src/{state,error,instruction,processor,entrypoint,client}.rs].
    The accounts an instruction names live in the runtime's store ([World]), one
    cell per address, so that an address passed twice is one shared cell.  Borsh,
    postcard, SHA-256 and the runtime's address derivation are parameters. *)

From stdpp Require Export functions list.
From S2P Require Import Prelude Bytes Amount Merkle.
#[local] Open Scope N_scope.
#[local] Open Scope st_scope.

Abbreviation Pubkey := (vec byte 32).

(** ** Errors *)

Inductive SettlementProgramError : Type :=
| UnauthorizedSigner
| InvalidPda
| InvalidBatchSequence (expected actual : N)
| PreviousRootMismatch (expected actual : string)
| EmptyBatch
| TotalSettledAmountOverflow
| InclusionProofFailed (msg : string)
| DeserializationError (msg : string)
| SerializationError (msg : string)
| SettlementDataTooSmall.

(** The runtime's [ProgramError], the constructors this program can return, and the
    abort of a panicking program. *)
Inductive ProgramError : Type :=
| Custom (code : N)
| InvalidInstructionData
| AccountDataTooSmall
| MissingRequiredSignature
| NotEnoughAccountKeys
| AccountBorrowFailed
| InvalidSeeds
| ProgramFailedToComplete.

(** [From<SettlementProgramError> for ProgramError]. *)
Definition program_error (err : SettlementProgramError) : ProgramError :=
  match err with
  | UnauthorizedSigner => MissingRequiredSignature
  | InvalidPda => InvalidSeeds
  | InvalidBatchSequence _ _ => Custom 1001
  | PreviousRootMismatch _ _ => Custom 1002
  | EmptyBatch => Custom 1003
  | TotalSettledAmountOverflow => Custom 1005
  | InclusionProofFailed _ => Custom 1004
  | DeserializationError _ => InvalidInstructionData
  | SerializationError _ => AccountDataTooSmall
  | SettlementDataTooSmall => AccountDataTooSmall
  end.

(** ** State and instructions *)

Record SettlementRoot : Type := mkRoot {
  sr_authority : Pubkey;
  sr_epoch : N;
  sr_batch_seq : N;
  sr_merkle_root : Hash32;
  sr_previous_root : Hash32;
  sr_transfer_count : N;
  sr_total_settled_amount : N;
  sr_chain_tip : Hash32;
  sr_settled_at : Z;
  sr_bump : N;
}.

Definition PDA_SEED : bytes := String.list_byte_of_string "settlement_root".
Definition LEN : nat := 177.

Record CommitParams : Type := mkParams {
  cp_epoch : N;
  cp_batch_seq : N;
  cp_merkle_root : Hash32;
  cp_previous_root : Hash32;
  cp_transfer_count : N;
  cp_total_settled_amount : N;
  cp_chain_tip : Hash32;
}.

Inductive SettlementInstruction : Type :=
| Initialize (bump : N)
| CommitSettlement (params : CommitParams)
| VerifyInclusion (leaf_hash : Hash32) (proof_bytes : bytes).

(** The values of the Rust types: each field within its width. *)
Definition root_fits (r : SettlementRoot) : Prop :=
  sr_epoch r <= U64_MAX /\ sr_batch_seq r <= U64_MAX /\ sr_transfer_count r <= U64_MAX /\
  sr_total_settled_amount r <= U128_MAX /\ (- 2 ^ 63 <= sr_settled_at r < 2 ^ 63)%Z /\
  sr_bump r <= U8_MAX.
Definition params_fit (p : CommitParams) : Prop :=
  cp_epoch p <= U64_MAX /\ cp_batch_seq p <= U64_MAX /\ cp_transfer_count p <= U64_MAX /\
  cp_total_settled_amount p <= U128_MAX.
Definition instruction_fits (i : SettlementInstruction) : Prop :=
  match i with
  | Initialize bump => bump <= U8_MAX
  | CommitSettlement p => params_fit p
  | VerifyInclusion _ proof_bytes => N.of_nat (length proof_bytes) <= U32_MAX
  end.

(** ** Accounts *)

(** A [RefCell] of account data. *)
Inductive BorrowFlag : Type := Unborrowed | BorrowedShared | BorrowedMut.
Record Cell : Type := mkCell { cell_data : bytes; cell_borrow : BorrowFlag }.
Abbreviation World := (Pubkey -> Cell).

(** [AccountInfo]: the cell is the store's at [key]. *)
Record AccountInfo : Type := mkInfo { key : Pubkey; is_signer : bool }.

Abbreviation program A := (st World ProgramError A).

(** ** What the program uses of Borsh, of postcard and of the runtime *)

(** Borsh: the derived encodings of the account and of the instructions.  Reading
    ([try_from_slice]) takes the whole slice, gives values of the Rust types, and
    undoes writing; an account takes [LEN] bytes. *)
Class Borsh : Type := {
  root_to_vec : SettlementRoot -> bytes;
  root_try_from_slice : bytes -> result string SettlementRoot;
  instruction_to_vec : SettlementInstruction -> result string bytes;
  instruction_try_from_slice : bytes -> result string SettlementInstruction;
  root_length r : length (root_to_vec r) = LEN;
  root_roundtrip r : root_fits r -> root_try_from_slice (root_to_vec r) = Ok r;
  root_exact bs r : root_try_from_slice bs = Ok r -> root_fits r /\ length bs = LEN;
  instruction_roundtrip i :
    instruction_fits i ->
    exists bs, instruction_to_vec i = Ok bs /\ instruction_try_from_slice bs = Ok i;
  instruction_exact bs i : instruction_try_from_slice bs = Ok i -> instruction_fits i;
}.

(** Address derivation: a bump that [find_program_address] returns derives the
    address it returned; it panics ([None]) when no bump does.  The clock sysvar
    gives an [i64]. *)
Class Runtime : Type := {
  create_program_address : list bytes -> Pubkey -> option Pubkey;
  find_program_address : list bytes -> Pubkey -> option (Pubkey * N);
  find_creates seeds pid pda bump :
    find_program_address seeds pid = Some (pda, bump) ->
    bump <= U8_MAX /\ create_program_address (seeds ++ [[byte_of bump]]) pid = Some pda;
  clock_timestamp : Pubkey -> bytes -> option Z;
  clock_i64 key data t : clock_timestamp key data = Some t -> (- 2 ^ 63 <= t < 2 ^ 63)%Z;
}.

(** Postcard bytes of an inclusion proof. *)
Class ProofBytes : Type := {
  proof_to_stdvec : MmrProof -> result string bytes;
  proof_from_slice : bytes -> result string MmrProof;
  proof_bytes_roundtrip pf bs : proof_to_stdvec pf = Ok bs -> proof_from_slice bs = Ok pf;
}.

Section program.
Context (sha256 : bytes -> Hash32) (display : ProofError -> string).
Context `{Borsh, Runtime, ProofBytes}.

(** ** Serialisation *)

Definition find_pda (authority program_id : Pubkey) : option (Pubkey * N) :=
  find_program_address [PDA_SEED; vec_to_list authority] program_id.

(** The buffer afterwards, and the outcome; a writer over a short slice fills it and fails. *)
Definition serialize_into (self : SettlementRoot) (output : bytes) :
    bytes * result SettlementProgramError unit :=
  if (length output <? LEN)%nat then (output, Err SettlementDataTooSmall)
  else
    let bs := root_to_vec self in
    if (length output <? length bs)%nat
    then (take (length output) bs, Err (SerializationError "failed to write whole buffer"))
    else (bs ++ drop (length bs) output, Ok tt).

Definition deserialize_from (input : bytes) : result SettlementProgramError SettlementRoot :=
  map_err DeserializationError (root_try_from_slice input).

Definition pack (self : SettlementInstruction) : result SettlementProgramError bytes :=
  map_err SerializationError (instruction_to_vec self).
Definition unpack (input : bytes) : result SettlementProgramError SettlementInstruction :=
  map_err DeserializationError (instruction_try_from_slice input).

Definition to_bytes (self : MmrProof) : result ProofError bytes :=
  map_err ProofSerialization (proof_to_stdvec self).
Definition from_bytes (bs : bytes) : result ProofError MmrProof :=
  map_err ProofSerialization (proof_from_slice bs).

(** ** Reading and writing accounts *)

Definition next_account_info (accounts : list AccountInfo) :
    result ProgramError (AccountInfo * list AccountInfo) :=
  match accounts with
  | [] => Err NotEnoughAccountKeys
  | info :: rest => Ok (info, rest)
  end.

(** The borrows end with the handler, which is the only code that runs meanwhile, so
    the flag it finds is the one it leaves. *)
Definition try_borrow_mut_data (info : AccountInfo) : program bytes :=
  st_reads (fun w => match cell_borrow (w (key info)) with
                     | Unborrowed => Ok (cell_data (w (key info)))
                     | _ => Err AccountBorrowFailed
                     end).
Definition try_borrow_data (info : AccountInfo) : program bytes :=
  st_reads (fun w => match cell_borrow (w (key info)) with
                     | BorrowedMut => Err AccountBorrowFailed
                     | _ => Ok (cell_data (w (key info)))
                     end).

Definition write_data (info : AccountInfo) (data : bytes) (w : World) : World :=
  <[key info := mkCell data (cell_borrow (w (key info)))]> w.

(** [self.serialize_into(&mut data)?] on the borrowed data of [info]. *)
Definition store_root (info : AccountInfo) (self : SettlementRoot) : program unit :=
  fun w =>
    let '(data, r) := serialize_into self (cell_data (w (key info))) in
    (write_data info data w, map_err program_error r).

Definition lift {A} (r : result SettlementProgramError A) : program A :=
  fun w => (w, map_err program_error r).

(** ** The processor *)

Definition initial_root (authority : Pubkey) (bump : N) : SettlementRoot :=
  mkRoot authority 0 0 Hash32_ZERO Hash32_ZERO 0 0 Hash32_ZERO 0 bump.

Definition process_initialize (program_id : Pubkey) (accounts : list AccountInfo) (bump : N) :
    program unit :=
  let? '(authority_info, rest) := st_reads (fun _ => next_account_info accounts) in
  let? '(pda_info, _) := st_reads (fun _ => next_account_info rest) in
  reject? negb (is_signer authority_info) with program_error UnauthorizedSigner;
  let? expected_pda := lift (ok_or (create_program_address
    [PDA_SEED; vec_to_list (key authority_info); [byte_of bump]] program_id) InvalidPda) in
  reject? negb (bool_decide (expected_pda = key pda_info)) with program_error InvalidPda;
  do? try_borrow_mut_data pda_info;
  store_root pda_info (initial_root (key authority_info) bump).

(** [batch_seq + 1] on a [u64], with the workspace's overflow checks: a panic. *)
Definition next_seq (seq : N) : result ProgramError N :=
  ok_or (checked_add U64_MAX seq 1) ProgramFailedToComplete.

Definition process_commit_settlement (accounts : list AccountInfo) (params : CommitParams) :
    program unit :=
  let? '(authority_info, rest) := st_reads (fun _ => next_account_info accounts) in
  let? '(pda_info, rest) := st_reads (fun _ => next_account_info rest) in
  let clock_info := result_ok (next_account_info rest) in
  reject? negb (is_signer authority_info) with program_error UnauthorizedSigner;
  reject? cp_transfer_count params =? 0 with program_error EmptyBatch;
  let? data := try_borrow_mut_data pda_info in
  let? current_root := lift (deserialize_from data) in
  reject? negb (bool_decide (sr_authority current_root = key authority_info))
    with program_error UnauthorizedSigner;
  let? expected_seq := st_reads (fun _ => next_seq (sr_batch_seq current_root)) in
  reject? negb (cp_batch_seq params =? expected_seq)
    with program_error (InvalidBatchSequence expected_seq (cp_batch_seq params));
  reject? (0 <? sr_batch_seq current_root) &&
          negb (bool_decide (cp_previous_root params = sr_merkle_root current_root))
    with program_error (PreviousRootMismatch (to_hex (sr_merkle_root current_root))
                          (to_hex (cp_previous_root params)));
  let? timestamp := st_reads (fun w => Ok (default 0%Z
    (clock_info ≫= fun '(info, _) => clock_timestamp (key info) (cell_data (w (key info)))))) in
  let? total := lift (ok_or (checked_add U128_MAX (sr_total_settled_amount current_root)
                               (cp_total_settled_amount params)) TotalSettledAmountOverflow) in
  store_root pda_info
    (mkRoot (sr_authority current_root) (cp_epoch params) (cp_batch_seq params)
       (cp_merkle_root params) (cp_previous_root params) (cp_transfer_count params) total
       (cp_chain_tip params) timestamp (sr_bump current_root)).

Definition process_verify_inclusion (accounts : list AccountInfo) (leaf_hash : Hash32)
    (proof_bytes : bytes) : program unit :=
  let? '(pda_info, _) := st_reads (fun _ => next_account_info accounts) in
  let? data := try_borrow_data pda_info in
  let? current_root := lift (deserialize_from data) in
  let? proof := lift (map_err (DeserializationError ∘ display) (from_bytes proof_bytes)) in
  lift (map_err (fun e => InclusionProofFailed ("proof rejected against batch seq " +:+
                   dec_string (sr_batch_seq current_root) +:+ ": " +:+ display e))
          (verify sha256 proof (sr_merkle_root current_root) leaf_hash)).

Definition process (program_id : Pubkey) (accounts : list AccountInfo) (instruction_data : bytes) :
    program unit :=
  let? instruction := lift (unpack instruction_data) in
  match instruction with
  | Initialize bump => process_initialize program_id accounts bump
  | CommitSettlement params => process_commit_settlement accounts params
  | VerifyInclusion leaf_hash proof_bytes => process_verify_inclusion accounts leaf_hash proof_bytes
  end.

Definition process_instruction (program_id : Pubkey) (accounts : list AccountInfo)
    (instruction_data : bytes) : program unit :=
  process program_id accounts instruction_data.

(** ** The client: instruction builders and receipts *)

Record AccountMeta : Type := mkMeta { meta_key : Pubkey; meta_signer : bool; meta_writable : bool }.
Record Instruction : Type := mkInstruction {
  ix_program_id : Pubkey;
  ix_accounts : list AccountMeta;
  ix_data : bytes;
}.

(** The builders panic ([None]) where [find_pda] does. *)
Definition initialize (program_id authority system_program : Pubkey) :
    option (result SettlementProgramError Instruction) :=
  '(pda, bump) ← find_pda authority program_id;
  Some (data ← pack (Initialize bump);
        Ok (mkInstruction program_id
              [mkMeta authority true false; mkMeta pda false true; mkMeta system_program false false]
              data)).

Definition commit_settlement (program_id authority : Pubkey) (params : CommitParams)
    (clock_sysvar : Pubkey) : option (result SettlementProgramError Instruction) :=
  '(pda, _) ← find_pda authority program_id;
  Some (data ← pack (CommitSettlement params);
        Ok (mkInstruction program_id
              [mkMeta authority true false; mkMeta pda false true; mkMeta clock_sysvar false false]
              data)).

Definition verify_inclusion (program_id authority : Pubkey) (leaf_hash : Hash32)
    (proof_bytes : bytes) : option (result SettlementProgramError Instruction) :=
  '(pda, _) ← find_pda authority program_id;
  Some (data ← pack (VerifyInclusion leaf_hash proof_bytes);
        Ok (mkInstruction program_id [mkMeta pda false false] data)).

Record TransferReceipt : Type := mkReceipt {
  rc_transfer_id : N;
  rc_amount : N;
  rc_debit_account : N;
  rc_credit_account : N;
  rc_leaf_hash : string;
  rc_batch_seq : N;
  rc_merkle_root : string;
  rc_proof : MmrProof;
}.

Context (display_hex : HexError -> string).

Definition receipt_verify (self : TransferReceipt) : result ProofError unit :=
  expected_root ← map_err (fun e => RootMismatch (rc_merkle_root self)
                             ("invalid hex: " +:+ display_hex e)) (from_hex (rc_merkle_root self));
  leaf_hash ← map_err (fun e => RootMismatch (rc_leaf_hash self)
                         ("invalid leaf hex: " +:+ display_hex e)) (from_hex (rc_leaf_hash self));
  verify sha256 (rc_proof self) expected_root leaf_hash.

(** [verify_direct_args] of the stand-alone verifier, from the content of its proof
    file ([None]: unreadable) to its exit status; [json] is [serde_json::from_slice]. *)
Definition verify_direct_args (json : bytes -> result string MmrProof) (root_hex leaf_hex : string)
    (proof_file : option bytes) : bool :=
  match from_hex root_hex, from_hex leaf_hex, proof_file with
  | Ok expected_root, Ok leaf_hash, Some proof_bytes =>
      match from_bytes proof_bytes with
      | Ok proof => is_ok (verify sha256 proof expected_root leaf_hash)
      | Err _ =>
          match json proof_bytes with
          | Ok proof => is_ok (verify sha256 proof expected_root leaf_hash)
          | Err _ => false
          end
      end
  | _, _, _ => false
  end.

(** ** Running a signed instruction *)

(** What the runtime passes for an instruction signed by [signers]. *)
Definition infos (signers : list Pubkey) (metas : list AccountMeta) : list AccountInfo :=
  (fun m => mkInfo (meta_key m) (meta_signer m && bool_decide (meta_key m ∈ signers))) <$> metas.

End program.
