(* ===== verification/SettleInv.v ===== *)
(** * Runs of the settlement program

    What a run of each handler of [Settle] comes to: a failed run leaves every cell
    as it was, a successful one writes at most the registry it was given, and the
    sequence of accepted batches that a registry records. *)

From S2P Require Import Bytes Amount Merkle Settle.
From stdpp Require Import list.
From S2P Require Import Prelude.
#[local] Open Scope N_scope.

Section program.
Context (sha256 : bytes -> Hash32) (display : ProofError -> string).
Context `{Borsh, Runtime, ProofBytes}.
Implicit Types (w : World) (r : SettlementRoot) (p : CommitParams).

Definition registry (w : World) (pda : Pubkey) : option SettlementRoot :=
  result_ok (root_try_from_slice (cell_data (w pda))).

(** ** Storing a root *)

Lemma registry_length w pda r : registry w pda = Some r -> root_fits r /\ length (cell_data (w pda)) = LEN.
Proof.
  unfold registry. destruct (root_try_from_slice _) as [r'|] eqn:E; [|done]. intros [= <-].
  by apply root_exact.
Qed.

Lemma store_root_cases info r w :
  let data := cell_data (w (key info)) in
  ((length data < LEN)%nat /\
     store_root info r w = (write_data info data w, Err AccountDataTooSmall)) \/
  ((LEN <= length data)%nat /\
     store_root info r w = (write_data info (root_to_vec r ++ drop LEN data) w, Ok tt)).
Proof.
  cbv zeta. unfold store_root, serialize_into.
  destruct (Nat.ltb_spec (length (cell_data (w (key info)))) LEN) as [Hlt|Hge].
  - left. split; [done|]. done.
  - right. split; [done|]. rewrite root_length.
    by rewrite (proj2 (Nat.ltb_ge _ _) Hge).
Qed.

Lemma write_same info w k : write_data info (cell_data (w (key info))) w k = w k.
Proof.
  unfold write_data. destruct (decide (key info = k)) as [<-|Hne].
  - rewrite fn_lookup_insert. by destruct (w (key info)).
  - by rewrite fn_lookup_insert_ne.
Qed.

Lemma write_other info d w k : key info <> k -> write_data info d w k = w k.
Proof. apply fn_lookup_insert_ne. Qed.

Lemma registry_write info r w :
  root_fits r ->
  registry (write_data info (root_to_vec r ++ drop LEN (cell_data (w (key info)))) w) (key info) =
  if bool_decide (length (cell_data (w (key info))) <= LEN)%nat then Some r else None.
Proof.
  intros Hr. unfold registry, write_data. rewrite fn_lookup_insert. simpl.
  set (d := cell_data (w (key info))). destruct (decide (length d <= LEN)%nat) as [Hle|Hgt].
  - rewrite bool_decide_true by done. rewrite drop_ge by done. rewrite app_nil_r.
    by rewrite root_roundtrip.
  - rewrite bool_decide_false by done. destruct (root_try_from_slice _) eqn:E; [|done].
    apply root_exact in E as [_ E]. rewrite length_app, root_length, length_drop in E. lia.
Qed.

(** ** Runs of the handlers *)

Definition unchanged (w w' : World) : Prop := forall k, w' k = w k.
Definition writes (pda : Pubkey) (w w' : World) : Prop := forall k, k <> pda -> w' k = w k.

Lemma unchanged_refl w : unchanged w w.
Proof. done. Qed.

Lemma unchanged_registry w w' pda : unchanged w w' -> registry w' pda = registry w pda.
Proof. intros Hu. unfold registry. by rewrite Hu. Qed.

(** Every handler is a chain of reads and guards that ends in [store_root] or in a
    last read: a run that fails before it leaves the very same world. *)
Definition late_write {A} (m : st World ProgramError A) : Prop :=
  forall w w' e, m w = (w', Err e) -> unchanged w w'.

Lemma late_reads {A} (f : World -> result ProgramError A) : late_write (st_reads f).
Proof. by intros w w' e [= <- _]. Qed.

Lemma late_lift {A} (x : result SettlementProgramError A) : late_write (lift x).
Proof. by intros w w' e [= <- _]. Qed.

Lemma late_fail {A} e : late_write (st_fail (A := A) e).
Proof. by intros w w' e' [= <- _]. Qed.

Lemma late_store info r : late_write (store_root info r).
Proof.
  intros w w' e Hs. destruct (store_root_cases info r w) as [[_ E]|[_ E]]; rewrite E in Hs; [|done].
  injection Hs as <- _. intros k. apply write_same.
Qed.

(** Reads pass the world on as it is. *)
Definition reading {A} (m : st World ProgramError A) : Prop := forall w, (m w).1 = w.

Lemma late_bind {A B} (m : st World ProgramError A) (k : A -> st World ProgramError B) :
  reading m -> (forall a, late_write (k a)) -> late_write (st_bind m k).
Proof.
  intros Hm Hk w w' e He. specialize (Hm w). unfold st_bind in He.
  destruct (m w) as [w1 [a|e1]]; simpl in Hm; subst w1; [by eapply Hk|]. injection He as <- _. done.
Qed.

Lemma late_reject {A} (b : bool) e (k : st World ProgramError A) :
  late_write k -> late_write (if b then st_fail e else k).
Proof. destruct b; [intros _; apply late_fail|done]. Qed.

Lemma reading_reads {A} (f : World -> result ProgramError A) : reading (st_reads f).
Proof. done. Qed.
Lemma reading_lift {A} (x : result SettlementProgramError A) : reading (lift x).
Proof. done. Qed.
Lemma reading_borrow_mut info : reading (try_borrow_mut_data info).
Proof. done. Qed.
Lemma reading_borrow info : reading (try_borrow_data info).
Proof. done. Qed.

Create HintDb settle.
#[local] Hint Resolve late_reads late_lift late_fail late_store reading_reads reading_lift
  reading_borrow_mut reading_borrow : settle.

Ltac late_tac :=
  repeat first [ progress (auto with settle)
               | apply late_bind; [auto with settle|intros ?]
               | apply late_reject
               | match goal with |- late_write (let '(_, _) := ?x in _) => destruct x end
               | match goal with |- late_write (match ?x with _ => _ end) => destruct x end ].

Lemma late_commit accounts p : late_write (process_commit_settlement accounts p).
Proof. unfold process_commit_settlement. late_tac. Qed.
#[local] Hint Resolve late_commit : settle.

Lemma late_process pid accounts data : late_write (process sha256 display pid accounts data).
Proof.
  unfold process, process_initialize, process_verify_inclusion. late_tac.
Qed.

(** What a successful initialisation and a successful commit come to. *)
Lemma initialize_run pid accounts bump w w' :
  process_initialize pid accounts bump w = (w', Ok tt) <->
  exists authority pda rest, accounts = authority :: pda :: rest /\
    is_signer authority = true /\
    create_program_address [PDA_SEED; vec_to_list (key authority); [byte_of bump]] pid = Some (key pda) /\
    cell_borrow (w (key pda)) = Unborrowed /\ (LEN <= length (cell_data (w (key pda))))%nat /\
    w' = write_data pda (root_to_vec (initial_root (key authority) bump) ++
                         drop LEN (cell_data (w (key pda)))) w.
Proof.
  unfold process_initialize, next_account_info. split.
  - destruct accounts as [|a [|pda rest]]; [done|done|]. intros Hr.
    unfold st_bind, st_reads, lift in Hr. simpl in Hr.
    destruct (is_signer a) eqn:Es; [|done]. simpl in Hr.
    destruct (create_program_address _ _) as [q|] eqn:Ec; [|done]. simpl in Hr.
    destruct (decide (q = key pda)) as [->|Hne]; [|by rewrite bool_decide_false in Hr].
    rewrite bool_decide_true in Hr by done. simpl in Hr.
    unfold try_borrow_mut_data, st_reads in Hr.
    destruct (cell_borrow (w (key pda))) eqn:Eb; try done.
    destruct (store_root_cases pda (initial_root (key a) bump) w) as [[_ E]|[Hl E]];
      rewrite E in Hr; [done|]. injection Hr as <-. exists a, pda, rest. done.
  - intros (a & pda & rest & -> & Es & Ec & Eb & Hl & ->).
    unfold st_bind, st_reads, lift. simpl. rewrite Es, Ec. simpl.
    rewrite bool_decide_true by done. simpl. unfold try_borrow_mut_data, st_reads. rewrite Eb.
    destruct (store_root_cases pda (initial_root (key a) bump) w) as [[Hl' E]|[_ E]]; [lia|]. by rewrite E.
Qed.

(** The conditions under which a batch extends a registry. *)
Definition extends (r : SettlementRoot) (p : CommitParams) : Prop :=
  0 < cp_transfer_count p /\ sr_batch_seq r < U64_MAX /\ cp_batch_seq p = sr_batch_seq r + 1 /\
  (0 < sr_batch_seq r -> cp_previous_root p = sr_merkle_root r) /\
  sr_total_settled_amount r + cp_total_settled_amount p <= U128_MAX.

Definition committed (r : SettlementRoot) (p : CommitParams) (t : Z) : SettlementRoot :=
  mkRoot (sr_authority r) (cp_epoch p) (cp_batch_seq p) (cp_merkle_root p) (cp_previous_root p)
    (cp_transfer_count p) (sr_total_settled_amount r + cp_total_settled_amount p)
    (cp_chain_tip p) t (sr_bump r).

Definition commit_time (w : World) (rest : list AccountInfo) : Z :=
  default 0%Z (head rest ≫= fun info => clock_timestamp (key info) (cell_data (w (key info)))).

Lemma commit_time_i64 w rest : (- 2 ^ 63 <= commit_time w rest < 2 ^ 63)%Z.
Proof.
  unfold commit_time. destruct rest as [|info rest]; simpl; [lia|].
  destruct (clock_timestamp _ _) eqn:E; simpl; [|lia]. by eapply clock_i64.
Qed.

(** Refutes that a run stopped by a guard meets the conditions of success. *)
Ltac refute_run :=
  intros (?&?&?&?&[= <- <- <-]&?&?&?&?&(?&?&?&?&?)&?);
    try match goal with
        | E : root_try_from_slice _ = _, X : result_ok (root_try_from_slice _) = _ |- _ =>
            rewrite E in X
        end; simplify_eq/=; first [done|congruence|lia].
Ltac no_run := split; [done|refute_run].

Lemma commit_run accounts p w w' :
  process_commit_settlement accounts p w = (w', Ok tt) <->
  exists authority pda rest r, accounts = authority :: pda :: rest /\
    is_signer authority = true /\ cell_borrow (w (key pda)) = Unborrowed /\
    registry w (key pda) = Some r /\ sr_authority r = key authority /\ extends r p /\
    w' = write_data pda (root_to_vec (committed r p (commit_time w rest)) ++
                         drop LEN (cell_data (w (key pda)))) w.
Proof.
  unfold process_commit_settlement, next_account_info.
  destruct accounts as [|a [|pda rest]]; [split; [done|by intros (?&?&?&?&[=]&?)]..|].
  unfold st_bind, st_reads, lift, st_fail. simpl.
  assert (Ht : default 0%Z (result_ok match rest with
             | [] => Err NotEnoughAccountKeys | info :: rest => Ok (info, rest) end ≫=
             fun '(info, _) => clock_timestamp (key info) (cell_data (w (key info)))) =
           commit_time w rest) by (by destruct rest).
  destruct (is_signer a) eqn:Es; simpl; [|no_run].
  destruct (N.eqb_spec (cp_transfer_count p) 0) as [Hc|Hc]; simpl;
    [no_run|].
  unfold try_borrow_mut_data, st_reads.
  destruct (cell_borrow (w (key pda))) eqn:Eb; [|no_run..].
  unfold registry, deserialize_from.
  destruct (root_try_from_slice (cell_data (w (key pda)))) as [r|] eqn:Er; simpl;
    [|no_run].
  destruct (decide (sr_authority r = key a)) as [Ha|Ha];
    [rewrite bool_decide_true by done|rewrite bool_decide_false by done; no_run].
  simpl. unfold next_seq.
  destruct (checked_add U64_MAX (sr_batch_seq r) 1) as [seq|] eqn:Eseq; simpl;
    [apply checked_add_Some in Eseq as [-> Hmax]
    |apply checked_add_None in Eseq; no_run].
  destruct (N.eqb_spec (cp_batch_seq p) (sr_batch_seq r + 1)) as [Hseq|Hseq]; simpl;
    [|no_run].
  destruct (decide (0 < sr_batch_seq r -> cp_previous_root p = sr_merkle_root r)) as [Hp|Hp].
  2: { split; [|refute_run].
       destruct (N.ltb_spec 0 (sr_batch_seq r)); [|exfalso; apply Hp; lia].
       rewrite bool_decide_false by naive_solver. done. }
  replace ((0 <? sr_batch_seq r) && negb (bool_decide (cp_previous_root p = sr_merkle_root r)))
    with false.
  2: { destruct (N.ltb_spec 0 (sr_batch_seq r)); [|done]. by rewrite bool_decide_true by auto. }
  simpl. destruct (checked_add U128_MAX _ _) as [t|] eqn:Et; simpl;
    [apply checked_add_Some in Et as [-> Htot]
    |apply checked_add_None in Et; no_run].
  rewrite Ht. fold (committed r p (commit_time w rest)).
  assert (length (cell_data (w (key pda))) = LEN) as Hlen by (by eapply root_exact).
  destruct (store_root_cases pda (committed r p (commit_time w rest)) w) as [[? _]|[_ E]]; [lia|].
  rewrite E. split.
  - intros [= <-]. exists a, pda, rest, r. unfold extends. split_and!; try done; [by rewrite Er|lia..].
  - intros (? & ? & ? & r' & [= <- <- <-] & _ & _ & Hr' & _ & _ & ->). rewrite Er in Hr'.
    by injection Hr' as <-.
Qed.

Lemma verify_inclusion_reads accounts leaf pb w w' res :
  process_verify_inclusion sha256 display accounts leaf pb w = (w', res) -> w' = w.
Proof.
  unfold process_verify_inclusion, st_bind, st_reads, lift, try_borrow_data, deserialize_from.
  destruct (next_account_info accounts) as [[info rest]|]; simpl; [|congruence].
  destruct (cell_borrow (w (key info))); simpl; [| |congruence];
    (destruct (root_try_from_slice _); simpl; [|congruence];
     destruct (from_bytes pb); simpl; congruence).
Qed.

Lemma committed_fits r p t :
  root_fits r -> params_fit p -> extends r p -> (- 2 ^ 63 <= t < 2 ^ 63)%Z -> root_fits (committed r p t).
Proof. unfold root_fits, params_fit, extends, committed. simpl. intuition lia. Qed.

Lemma initial_fits a bump : bump <= U8_MAX -> root_fits (initial_root a bump).
Proof. unfold root_fits, initial_root, U64_MAX, U128_MAX. simpl. lia. Qed.

(** An inclusion check reads the registry, the proof, and verifies. *)
Lemma verify_inclusion_run accounts leaf pb w w' :
  process_verify_inclusion sha256 display accounts leaf pb w = (w', Ok tt) <->
  w' = w /\ exists pda rest r pf, accounts = pda :: rest /\
    cell_borrow (w (key pda)) <> BorrowedMut /\ registry w (key pda) = Some r /\
    proof_from_slice pb = Ok pf /\ verify sha256 pf (sr_merkle_root r) leaf = Ok tt.
Proof.
  unfold process_verify_inclusion, st_bind, st_reads, lift, try_borrow_data, deserialize_from,
    from_bytes, next_account_info, registry.
  destruct accounts as [|pda rest]; [split; [done|by intros (_ & ? & ? & ? & ? & [=] & _)]|]. simpl.
  assert (forall r pf, root_try_from_slice (cell_data (w (key pda))) = Ok r ->
    proof_from_slice pb = Ok pf ->
    (exists pda0 rest0 r0 pf0, pda :: rest = pda0 :: rest0 /\
      cell_borrow (w (key pda0)) <> BorrowedMut /\
      result_ok (root_try_from_slice (cell_data (w (key pda0)))) = Some r0 /\
      proof_from_slice pb = Ok pf0 /\ verify sha256 pf0 (sr_merkle_root r0) leaf = Ok tt) <->
    cell_borrow (w (key pda)) <> BorrowedMut /\ verify sha256 pf (sr_merkle_root r) leaf = Ok tt) as Hiff.
  { intros r pf Er Ep. split.
    - intros (? & ? & ? & ? & [= <- <-] & Hb & Hr & Hp & Hv). rewrite Er in Hr. rewrite Ep in Hp. by simplify_eq/=.
    - intros [Hb Hv]. exists pda, rest, r, pf. by rewrite Er. }
  destruct (cell_borrow (w (key pda))) eqn:Eb; simpl;
    [| |split; [congruence|intros (_ & ? & ? & ? & ? & [= <- <-] & Hb & _); congruence]].
  all: destruct (root_try_from_slice (cell_data (w (key pda)))) as [r|] eqn:Er; simpl;
    [|split; [congruence|intros (_ & ? & ? & ? & ? & [= <- <-] & _ & Hr & _); by rewrite Er in Hr]].
  all: destruct (proof_from_slice pb) as [pf|] eqn:Ep; simpl;
    [|split; [congruence|by intros (_ & ? & ? & ? & ? & _ & _ & _ & ? & _)]].
  all: rewrite (Hiff r pf) by done.
  all: destruct (verify sha256 pf (sr_merkle_root r) leaf) as [[]|] eqn:Ev; simpl;
    split; [intros [= <-]; by split_and!|by intros [-> _]|congruence|by intros (_ & _ & [=])].
Qed.

(** ** Sequences of calls *)

Definition program_call : Type := list AccountInfo * bytes.

(** What a successful call does to the batches the registry at [pda] stands for. *)
Definition batches_after (pda : Pubkey) (c : program_call) (ok : bool) (bs : list CommitParams) :
    list CommitParams :=
  match ok, instruction_try_from_slice c.2, c.1 !! 1%nat with
  | true, Ok (Initialize _), Some info => if decide (key info = pda) then [] else bs
  | true, Ok (CommitSettlement p), Some info => if decide (key info = pda) then bs ++ [p] else bs
  | _, _, _ => bs
  end.

Fixpoint run_calls (pid pda : Pubkey) (cs : list program_call) (w : World) (bs : list CommitParams) :
    World * list CommitParams :=
  match cs with
  | [] => (w, bs)
  | c :: cs' =>
      let '(w', r) := process sha256 display pid c.1 c.2 w in
      run_calls pid pda cs' w' (batches_after pda c (is_ok r) bs)
  end.

(** Batches numbered from one without a gap, none empty, each naming the root of the
    batch before it. *)
Definition chained (bs : list CommitParams) : Prop :=
  forall i p, bs !! i = Some p ->
    cp_batch_seq p = N.of_nat i + 1 /\ 0 < cp_transfer_count p /\
    forall j q, i = S j -> bs !! j = Some q -> cp_previous_root p = cp_merkle_root q.

(** The account shows the number of batches, their total, and the last of them. *)
Definition shows (r : SettlementRoot) (bs : list CommitParams) : Prop :=
  sr_batch_seq r = N.of_nat (length bs) /\
  sr_total_settled_amount r = list_sum cp_total_settled_amount bs /\
  match last bs with
  | None => sr_merkle_root r = Hash32_ZERO
  | Some p => sr_merkle_root r = cp_merkle_root p /\ sr_previous_root r = cp_previous_root p /\
      sr_transfer_count r = cp_transfer_count p /\ sr_chain_tip r = cp_chain_tip p /\
      sr_epoch r = cp_epoch p
  end.

Definition records (w : World) (pda : Pubkey) (bs : list CommitParams) : Prop :=
  chained bs /\ forall r, registry w pda = Some r -> shows r bs.

Lemma chained_nil : chained [].
Proof. by intros i p. Qed.

Lemma shows_initial a bump : shows (initial_root a bump) [].
Proof. done. Qed.

Lemma chained_snoc r p bs : chained bs -> shows r bs -> extends r p -> chained (bs ++ [p]).
Proof.
  intros Hc (Hn & _ & Hl) (Hpos & _ & Hseq & Hprev & _) i q Hq.
  apply lookup_app_Some in Hq as [Hq|[Hge Hq]].
  - destruct (Hc i q Hq) as (Hs & Hp & Hch). split_and!; [done|done|].
    intros j q' -> Hq'. apply (Hch j); [done|].
    rewrite lookup_app_l in Hq'; [done|]. apply lookup_lt_Some in Hq. lia.
  - apply list_lookup_singleton_Some in Hq as [Hi <-]. split_and!; [lia|done|].
    intros j q' -> Hq'. rewrite lookup_app_l in Hq' by lia.
    rewrite Hprev by lia. rewrite last_lookup in Hl.
    replace (Nat.pred (length bs)) with j in Hl by lia. rewrite Hq' in Hl. by destruct Hl as [-> _].
Qed.

Lemma shows_commit r p t bs : shows r bs -> extends r p -> shows (committed r p t) (bs ++ [p]).
Proof.
  intros (Hn & Ht & _) (_ & _ & Hseq & _ & _). unfold shows. rewrite length_app, list_sum_app.
  rewrite last_snoc. simpl. split_and!; try done; lia.
Qed.

Lemma records_other w w' pda bs :
  w' pda = w pda -> records w pda bs -> records w' pda bs.
Proof. intros E [Hc Hr]. split; [done|]. intros r. unfold registry. rewrite E. apply Hr. Qed.

Lemma records_step pid pda c w w' res bs :
  records w pda bs -> process sha256 display pid c.1 c.2 w = (w', res) ->
  records w' pda (batches_after pda c (is_ok res) bs).
Proof.
  intros Hrec Hp. destruct c as [accounts data]. simpl in *.
  destruct res as [[]|e].
  2: { apply (records_other w); [|done]. by eapply late_process. }
  unfold process, st_bind, lift, unpack in Hp.
  destruct (instruction_try_from_slice data) as [i|] eqn:Ei; [|done]. simpl in Hp.
  pose proof (instruction_exact _ _ Ei) as Hfit.
  unfold batches_after. simpl. rewrite Ei. destruct i as [bump|p|leaf pb]; simpl in Hfit.
  - apply initialize_run in Hp as (a & info & rest & -> & _ & _ & _ & _ & ->). simpl.
    destruct (decide (key info = pda)) as [<-|Hne].
    + split; [apply chained_nil|]. intros r. rewrite registry_write by (by apply initial_fits).
      case_bool_decide; [|done]. intros [= <-]. apply shows_initial.
    + apply (records_other w); [|done]. by apply write_other.
  - apply commit_run in Hp as (a & info & rest & r & -> & _ & _ & Hr & _ & He & ->). simpl.
    destruct (decide (key info = pda)) as [<-|Hne].
    + destruct Hrec as [Hc Hs]. specialize (Hs r Hr). split; [by eapply chained_snoc|].
      destruct (registry_length _ _ _ Hr) as [Hf Hl]. intros r'.
      rewrite registry_write by (apply committed_fits; try done; apply commit_time_i64).
      case_bool_decide; [|done]. intros [= <-]. by apply shows_commit.
    + apply (records_other w); [|done]. by apply write_other.
  - by rewrite (verify_inclusion_reads _ _ _ _ _ _ Hp).
Qed.

Lemma run_calls_records pid pda cs w bs w' bs' :
  records w pda bs -> run_calls pid pda cs w bs = (w', bs') -> records w' pda bs'.
Proof.
  revert w bs. induction cs as [|c cs IH]; intros w bs Hrec; simpl; [by intros [= <- <-]|].
  destruct (process _ _ pid c.1 c.2 w) as [w1 res] eqn:Ep. apply IH. by eapply records_step.
Qed.

End program.
