(* ===== verification/SettleFormat.v ===== *)
(** * Instances of the settlement program's interfaces

    The Borsh encoding of the account and of the instructions (fields in order,
    little endian, a leading variant byte), a varint encoding of proofs, and an
    address derivation over a checksum: what the witnesses run on. *)

From S2P Require Import Bytes Amount Merkle MerkleProps Codec Settle.
From stdpp Require Import list.
From S2P Require Import Prelude.
#[local] Open Scope N_scope.

(** ** Fields of fixed width *)

Fixpoint cut (ws : list nat) (bs : bytes) : list bytes :=
  match ws with [] => [] | w :: ws' => take w bs :: cut ws' (drop w bs) end.

Lemma cut_concat fs rest : cut (length <$> fs) (concat fs ++ rest) = fs.
Proof.
  induction fs as [|f fs IH]; [done|]. cbn [fmap list_fmap concat cut]. rewrite <- app_assoc, take_app_length, drop_app_length.
  by rewrite IH.
Qed.

Lemma vec_take_full n (v : vec byte n) : vec_take n (vec_to_list v) = v.
Proof. induction v as [|b n v IH]; simpl; [done|]. by rewrite IH. Qed.

(** Two's complement on eight bytes. *)
Definition i64_bytes (z : Z) : bytes := le_bytes 8 (Z.to_N (z mod 2 ^ 64)).
Definition i64_val (bs : bytes) : Z :=
  let n := Z.of_N (le_val bs mod 2 ^ 64) in if (n <? 2 ^ 63)%Z then n else (n - 2 ^ 64)%Z.

Lemma i64_bound bs : (- 2 ^ 63 <= i64_val bs < 2 ^ 63)%Z.
Proof.
  unfold i64_val. pose proof (N.mod_lt (le_val bs) (2 ^ 64) ltac:(done)) as Hn.
  revert Hn. generalize (le_val bs mod 2 ^ 64). intros n Hn. cbv zeta.
  change (2 ^ 64)%N with 18446744073709551616 in Hn.
  destruct (Z.ltb_spec (Z.of_N n) (2 ^ 63)); lia.
Qed.

Lemma i64_roundtrip z : (- 2 ^ 63 <= z < 2 ^ 63)%Z -> i64_val (i64_bytes z) = z.
Proof.
  intros Hz. unfold i64_val, i64_bytes.
  pose proof (Z.mod_pos_bound z (2 ^ 64) ltac:(lia)) as Hm.
  rewrite le_val_le_bytes by (change (256 ^ N.of_nat 8) with (2 ^ 64); lia).
  rewrite N.mod_small by lia. rewrite Z2N.id by lia.
  destruct (Z.ltb_spec (z mod 2 ^ 64) (2 ^ 63)) as [Hlt|Hge].
  - destruct (decide (0 <= z)%Z); [by rewrite Z.mod_small by lia|].
    rewrite <- (Z.mod_add z 1) in Hlt by lia. rewrite Z.mod_small in Hlt by lia. lia.
  - destruct (decide (0 <= z)%Z); [rewrite Z.mod_small in Hge by lia; lia|].
    rewrite <- (Z.mod_add z 1) by lia. rewrite Z.mod_small by lia. lia.
Qed.

Lemma le_fits k n max : max < 256 ^ N.of_nat k -> n <= max -> le_val (le_bytes k n) = n.
Proof. intros Hm Hn. apply le_val_le_bytes. lia. Qed.

(** Reading [k] bytes gives a value of [k] bytes. *)
Lemma le_take k bs : le_val (take k bs) < 256 ^ N.of_nat k.
Proof.
  eapply N.lt_le_trans; [apply le_val_bound|]. apply N.pow_le_mono_r; [lia|].
  rewrite length_take. lia.
Qed.

(** ** The account *)

Definition root_widths : list nat := [32; 8; 8; 32; 32; 8; 16; 32; 8; 1]%nat.
Definition root_fields (r : SettlementRoot) : list bytes :=
  [vec_to_list (sr_authority r); le_bytes 8 (sr_epoch r); le_bytes 8 (sr_batch_seq r);
   vec_to_list (sr_merkle_root r); vec_to_list (sr_previous_root r);
   le_bytes 8 (sr_transfer_count r); le_bytes 16 (sr_total_settled_amount r);
   vec_to_list (sr_chain_tip r); i64_bytes (sr_settled_at r); le_bytes 1 (sr_bump r)].
Definition root_of_fields (fs : list bytes) : result string SettlementRoot :=
  match fs with
  | [a; e; q; mr; pr; c; t; tip; at_; b] =>
      Ok (mkRoot (vec_take 32 a) (le_val e) (le_val q) (vec_take 32 mr) (vec_take 32 pr) (le_val c)
            (le_val t) (vec_take 32 tip) (i64_val at_) (le_val b))
  | _ => Err "unexpected length of input"
  end.

Definition params_widths : list nat := [8; 8; 32; 32; 8; 16; 32]%nat.
Definition params_fields (p : CommitParams) : list bytes :=
  [le_bytes 8 (cp_epoch p); le_bytes 8 (cp_batch_seq p); vec_to_list (cp_merkle_root p);
   vec_to_list (cp_previous_root p); le_bytes 8 (cp_transfer_count p);
   le_bytes 16 (cp_total_settled_amount p); vec_to_list (cp_chain_tip p)].
Definition params_of_fields (fs : list bytes) : result string SettlementInstruction :=
  match fs with
  | [e; q; mr; pr; c; t; tip] =>
      Ok (CommitSettlement (mkParams (le_val e) (le_val q) (vec_take 32 mr) (vec_take 32 pr)
            (le_val c) (le_val t) (vec_take 32 tip)))
  | _ => Err "unexpected length of input"
  end.

Lemma root_fields_widths r : @length byte <$> root_fields r = root_widths.
Proof. cbn [root_fields fmap list_fmap]. unfold i64_bytes. by rewrite !length_le_bytes, !length_vec_to_list. Qed.

Lemma params_fields_widths p : @length byte <$> params_fields p = params_widths.
Proof. cbn [params_fields fmap list_fmap]. by rewrite !length_le_bytes, !length_vec_to_list. Qed.

Lemma length_concat_fields (fs : list bytes) ws : @length byte <$> fs = ws -> length (concat fs) = foldr Nat.add 0%nat ws.
Proof. intros <-. induction fs as [|f fs IH]; simpl; [done|]. by rewrite length_app, IH. Qed.

Lemma root_of_root_fields r : root_fits r -> root_of_fields (root_fields r) = Ok r.
Proof.
  intros (He & Hq & Hc & Ht & Hz & Hb). unfold root_fields, root_of_fields. rewrite !vec_take_full.
  rewrite i64_roundtrip by done. rewrite !(le_fits 8 _ U64_MAX) by done.
  rewrite (le_fits 16 _ U128_MAX), (le_fits 1 _ U8_MAX) by done. by destruct r.
Qed.

Lemma params_of_params_fields p : params_fit p -> params_of_fields (params_fields p) = Ok (CommitSettlement p).
Proof.
  intros (He & Hq & Hc & Ht). unfold params_fields, params_of_fields. rewrite !vec_take_full.
  rewrite !(le_fits 8 _ U64_MAX) by done. rewrite (le_fits 16 _ U128_MAX) by done. by destruct p.
Qed.

Lemma fits_u64 bs : le_val (take 8 bs) <= U64_MAX.
Proof. pose proof (le_take 8 bs) as Hl. change (256 ^ N.of_nat 8) with (U64_MAX + 1) in Hl. lia. Qed.
Lemma fits_u128 bs : le_val (take 16 bs) <= U128_MAX.
Proof. pose proof (le_take 16 bs) as Hl. change (256 ^ N.of_nat 16) with (U128_MAX + 1) in Hl. lia. Qed.
Lemma fits_u8 bs : le_val (take 1 bs) <= U8_MAX.
Proof. pose proof (le_take 1 bs) as Hl. change (256 ^ N.of_nat 1) with (U8_MAX + 1) in Hl. lia. Qed.

(** ** Instructions *)

Definition borsh_instruction (i : SettlementInstruction) : result string bytes :=
  match i with
  | Initialize bump => Ok (x00 :: le_bytes 1 bump)
  | CommitSettlement p => Ok (x01 :: concat (params_fields p))
  | VerifyInclusion leaf pb =>
      if N.of_nat (length pb) <=? U32_MAX
      then Ok (x02 :: vec_to_list leaf ++ le_bytes 4 (N.of_nat (length pb)) ++ pb)
      else Err "sequence too long"
  end.

Definition borsh_read_instruction (bs : bytes) : result string SettlementInstruction :=
  match bs with
  | x00 :: rest =>
      if (length rest =? 1)%nat then Ok (Initialize (le_val (take 1 rest))) else Err "length"
  | x01 :: rest =>
      if (length rest =? 136)%nat then params_of_fields (cut params_widths rest) else Err "length"
  | x02 :: rest =>
      let n := le_val (take 4 (drop 32 rest)) in
      let pb := drop 36 rest in
      if (36 <=? length rest)%nat && (N.of_nat (length pb) =? n)
      then Ok (VerifyInclusion (vec_take 32 (take 32 rest)) pb) else Err "length"
  | _ => Err "variant"
  end.

Lemma borsh_instruction_roundtrip i :
  instruction_fits i ->
  exists bs, borsh_instruction i = Ok bs /\ borsh_read_instruction bs = Ok i.
Proof.
  destruct i as [bump|p|leaf pb]; intros Hf; simpl in Hf.
  - eexists. split; [done|]. cbn [borsh_read_instruction]. rewrite length_le_bytes. cbn [Nat.eqb].
    rewrite take_ge by (by rewrite length_le_bytes). by rewrite (le_fits 1 _ U8_MAX).
  - eexists. split; [done|]. cbn [borsh_read_instruction].
    rewrite (length_concat_fields _ _ (params_fields_widths p)). cbn [Nat.eqb params_widths foldr].
    rewrite <- (params_fields_widths p), <- (app_nil_r (concat _)), cut_concat.
    by apply params_of_params_fields.
  - cbn [borsh_instruction]. rewrite (proj2 (N.leb_le _ _) Hf). eexists. split; [done|].
    cbn [borsh_read_instruction].
    assert (length (vec_to_list leaf) = 32%nat) as Hl by apply length_vec_to_list.
    pose proof (length_le_bytes 4 (N.of_nat (length pb))) as H4.
    rewrite (take_app_length' (vec_to_list leaf) _ 32) by done.
    rewrite (drop_app_length' (vec_to_list leaf) _ 32) by lia.
    rewrite take_app_length' by lia. rewrite (le_fits 4 _ U32_MAX); [|by vm_compute|done].
    replace (drop 36 _) with pb.
    + rewrite !length_app, Hl, H4, N.eqb_refl, vec_take_full. done.
    + rewrite app_assoc, drop_app_length'; [done|]. rewrite length_app. lia.
Qed.

Lemma borsh_instruction_exact bs i : borsh_read_instruction bs = Ok i -> instruction_fits i.
Proof.
  destruct bs as [|[] rest]; try done; cbn [borsh_read_instruction].
  - destruct (Nat.eqb (length rest) _); [|done]. intros [= <-]. apply fits_u8.
  - destruct (Nat.eqb (length rest) _); [|done]. intros [= <-]. unfold instruction_fits, params_fit. simpl.
    rewrite !drop_drop. split_and!; first [apply fits_u64|apply fits_u128].
  - destruct (Nat.leb 36 (length rest)); [|done]. cbn [andb]. destruct (N.eqb_spec (N.of_nat (length (drop 36 rest)))
      (le_val (take 4 (drop 32 rest)))) as [E|]; [|done]. intros [= <-].
    unfold instruction_fits. rewrite E. pose proof (le_take 4 (drop 32 rest)) as Hl.
    change (256 ^ N.of_nat 4) with (U32_MAX + 1) in Hl. lia.
Qed.

Lemma borsh_root_exact bs r :
  (if (length bs =? LEN)%nat then root_of_fields (cut root_widths bs) else Err "length") = Ok r ->
  root_fits r /\ length bs = LEN.
Proof.
  destruct (Nat.eqb_spec (length bs) LEN) as [Hl|]; [|done]. intros Hr. split; [|done].
  cbn [root_widths cut root_of_fields] in Hr. injection Hr as <-. unfold root_fits. simpl.
  rewrite !drop_drop. split_and!; first [apply fits_u64|apply fits_u128|apply fits_u8|apply i64_bound].
Qed.

Definition borsh_le : Borsh.
Proof.
  refine {| root_to_vec r := concat (root_fields r);
            root_try_from_slice bs :=
              if (length bs =? LEN)%nat then root_of_fields (cut root_widths bs) else Err "length"%string;
            instruction_to_vec := borsh_instruction;
            instruction_try_from_slice := borsh_read_instruction;
            root_exact := borsh_root_exact;
            instruction_roundtrip := borsh_instruction_roundtrip;
            instruction_exact := borsh_instruction_exact |}.
  - intros r. by rewrite (length_concat_fields _ _ (root_fields_widths r)).
  - intros r Hr. rewrite (length_concat_fields _ _ (root_fields_widths r)).
    rewrite <- (root_fields_widths r) at 2. rewrite <- (app_nil_r (concat _)), cut_concat.
    by apply root_of_root_fields.
Defined.

(** ** Proofs and addresses *)

Definition proof_header (pf : MmrProof) : list N :=
  [pf_leaf_index pf; pf_leaf_count pf; N.of_nat (length (siblings pf)); N.of_nat (length (pf_peaks pf))].
Definition proof_hashes (pf : MmrProof) : list Hash32 := siblings pf ++ pf_peaks pf.

Lemma cut_hashes (hs : list Hash32) :
  vec_take 32 <$> cut (replicate (length hs) 32%nat) (concat (vec_to_list <$> hs)) = hs.
Proof.
  assert (replicate (length hs) 32%nat = length <$> (vec_to_list <$> hs)) as ->.
  { induction hs as [|h hs IH]; [done|]. cbn [length replicate fmap list_fmap] in *.
    by rewrite IH, length_vec_to_list. }
  rewrite <- (app_nil_r (concat _)), cut_concat, <- list_fmap_compose.
  induction hs as [|h hs IH]; [done|]. cbn [fmap list_fmap] in *. rewrite IH. f_equal. apply vec_take_full.
Qed.

Definition varint_proof : ProofBytes.
Proof.
  refine {| proof_to_stdvec pf :=
              Ok (puts (proof_header pf) ++ concat (vec_to_list <$> proof_hashes pf));
            proof_from_slice bs :=
              match gets 4 bs with
              | Some ([i; c; s; k], rest) =>
                  let hs := vec_take 32 <$> cut (replicate (N.to_nat (s + k)) 32%nat) rest in
                  Ok (mkProof i c (take (N.to_nat s) hs) (drop (N.to_nat s) hs))
              | _ => Err "truncated"%string
              end |}.
  intros pf bs [= <-].
  rewrite (gets_puts (proof_header pf) _ : gets 4 _ = _). unfold proof_header. cbv iota beta zeta.
  replace (N.to_nat (N.of_nat (length (siblings pf)) + N.of_nat (length (pf_peaks pf))))
    with (length (proof_hashes pf)) by (unfold proof_hashes; rewrite length_app; lia).
  rewrite cut_hashes. unfold proof_hashes. rewrite Nat2N.id, take_app_length, drop_app_length.
  by destruct pf.
Defined.

Definition toy_clock : Pubkey := vec_take 32 [x07].
Definition toy_runtime : Runtime.
Proof.
  refine {| create_program_address seeds pid := Some (toy_hash (concat seeds ++ vec_to_list pid));
            find_program_address seeds pid :=
              Some (toy_hash (concat seeds ++ [byte_of U8_MAX] ++ vec_to_list pid), U8_MAX);
            clock_timestamp k data :=
              if decide (k = toy_clock) then Some (i64_val (take 8 (drop 32 data))) else None |}.
  - intros seeds pid pda bump [= <- <-]. split; [done|]. rewrite concat_app. simpl.
    by rewrite <- app_assoc.
  - intros k data t. destruct (decide _); [|done]. intros [= <-]. apply i64_bound.
Defined.
