(* ===== verification/SettleProps.v ===== *)
(** * Properties of the settlement program

    The recorded history, who may change it, failures, and inclusion checks against
    a committed root, from the client's instruction to the verdict. *)

From S2P Require Import Bytes Amount Merkle MerkleProof MerkleProps Settle SettleInv SettleFormat.
From stdpp Require Import list.
From S2P Require Import Prelude.
#[local] Open Scope N_scope.

Section program.
Context (sha256 : bytes -> Hash32) (display : ProofError -> string).
Context `{Borsh, Runtime, ProofBytes}.

(** C7: whatever instructions anyone sends to the program, with whatever accounts and
    signatures, a registry that starts without batches always shows the batches accepted
    since its last initialisation: their number, their exact total, and the last one's
    root; and those batches are numbered from one without gaps, none is empty, and each
    names the root of the one before it. *)
Theorem settlement_history pid pda cs w w' bs :
  (forall r, registry w pda = Some r -> shows r []) ->
  run_calls sha256 display pid pda cs w [] = (w', bs) ->
  chained bs /\ forall r, registry w' pda = Some r -> shows r bs.
Proof.
  intros Hs Hr. apply (run_calls_records sha256 display pid pda cs w [] w' bs); [|done].
  split; [apply chained_nil|exact Hs].
Qed.

(** C30: a call that changes the data of an account was signed by its first account, and
    that signer is the authority the registry stores, or the registry was initialised
    for the signer at the address derived from the signer's key. *)
Theorem settlement_authority pid accounts data w w' res pda :
  process sha256 display pid accounts data w = (w', res) -> w' pda <> w pda ->
  exists authority rest, accounts = authority :: rest /\ is_signer authority = true /\
    ((exists r, registry w pda = Some r /\ sr_authority r = key authority) \/
     (exists bump, create_program_address
        [PDA_SEED; vec_to_list (key authority); [byte_of bump]] pid = Some pda)).
Proof.
  intros Hp Hne. destruct res as [[]|e]; [|by destruct Hne; eapply late_process].
  unfold process, st_bind, lift, unpack in Hp.
  destruct (instruction_try_from_slice data) as [[bump|p|leaf pb]|] eqn:Ei; [..|done]; simpl in Hp.
  - apply initialize_run in Hp as (a & info & rest & -> & Hs & Hc & _ & _ & ->).
    destruct (decide (key info = pda)) as [<-|Hk]; [|by destruct Hne; apply write_other].
    exists a, (info :: rest). eauto.
  - apply commit_run in Hp as (a & info & rest & r & -> & Hs & _ & Hr & Ha & _ & ->).
    destruct (decide (key info = pda)) as [<-|Hk]; [|by destruct Hne; apply write_other].
    exists a, (info :: rest). eauto 6.
  - destruct Hne. by rewrite (verify_inclusion_reads sha256 display accounts leaf pb w w' (Ok tt) Hp).
Qed.

(** A call that fails leaves every account as it was. *)
Theorem settlement_failure_atomic pid accounts data w w' e pda :
  process sha256 display pid accounts data w = (w', Err e) -> w' pda = w pda.
Proof. intros Hp. by eapply late_process. Qed.

(** A commit is accepted exactly when the stored authority signs, the batch is not
    empty, carries the next sequence number and (after the first) the stored root, and
    the total stays within a u128; then the registry shows the batch and nothing else
    has changed. *)
Theorem commit_settlement_decides accounts p w authority pda rest r :
  accounts = authority :: pda :: rest -> params_fit p ->
  cell_borrow (w (key pda)) = Unborrowed -> registry w (key pda) = Some r ->
  (is_signer authority = true /\ sr_authority r = key authority /\ extends r p /\
   exists w', process_commit_settlement accounts p w = (w', Ok tt) /\
     registry w' (key pda) = Some (committed r p (commit_time w rest)) /\ writes (key pda) w w') \/
  (~ (is_signer authority = true /\ sr_authority r = key authority /\ extends r p) /\
   exists w' e, process_commit_settlement accounts p w = (w', Err e) /\ unchanged w w').
Proof.
  intros -> Hp Hb Hr. destruct (process_commit_settlement (authority :: pda :: rest) p w) as [w' [[]|e]] eqn:E.
  - left. apply commit_run in E as (? & ? & ? & r' & [= <- <- <-] & Hs & _ & Hr' & Ha & He & ->).
    simplify_eq. split_and!; [done|done|done|]. eexists. split; [done|].
    destruct (registry_length _ _ _ Hr) as [Hf Hl]. split.
    + rewrite registry_write by (apply committed_fits; try done; apply commit_time_i64).
      rewrite Hl. by rewrite bool_decide_true.
    + intros k Hk. by apply write_other.
  - right. split.
    + intros (Hs & Ha & He).
      assert (process_commit_settlement (authority :: pda :: rest) p w = (_, Ok tt)) as E'
        by (apply commit_run; exists authority, pda, rest, r; split_and!; done). congruence.
    + exists w', e. split; [done|]. by eapply late_commit.
Qed.

(** ** From the client's instruction to the verdict *)

(** The runtime running an instruction signed by [signers]. *)
Definition send_ix (signers : list Pubkey) (ix : Instruction) : st World ProgramError unit :=
  process_instruction sha256 display (ix_program_id ix) (infos signers (ix_accounts ix)) (ix_data ix).

#[local] Arguments infos : simpl never.

Lemma pack_unpack i : instruction_fits i -> exists bs, pack i = Ok bs /\ unpack bs = Ok i.
Proof.
  intros Hi. destruct (instruction_roundtrip i Hi) as (bs & E & E'). exists bs.
  unfold pack, unpack. by rewrite E, E'.
Qed.

Lemma infos_signed a metas : infos [a] (mkMeta a true false :: metas) = mkInfo a true :: infos [a] metas.
Proof. unfold infos. cbn [fmap list_fmap]. by rewrite bool_decide_true by (by left). Qed.

Lemma send_initialize pid a sys pda bump w :
  find_pda a pid = Some (pda, bump) -> cell_borrow (w pda) = Unborrowed ->
  length (cell_data (w pda)) = LEN ->
  exists ix w', initialize pid a sys = Some (Ok ix) /\ send_ix [a] ix w = (w', Ok tt) /\
    registry w' pda = Some (initial_root a bump) /\ cell_borrow (w' pda) = Unborrowed.
Proof.
  intros Hf Hb Hl. destruct (find_creates _ _ _ _ Hf) as [Hbump Hc].
  destruct (pack_unpack (Initialize bump) Hbump) as (bs & Ep & Eu).
  unfold initialize. rewrite Hf. simpl. rewrite Ep. simpl. do 2 eexists. split; [done|].
  unfold send_ix, process_instruction, process, st_bind, lift. simpl. rewrite Eu. simpl.
  rewrite infos_signed. split.
  { apply initialize_run. exists (mkInfo a true), (mkInfo pda false), (infos [a] [mkMeta sys false false]).
    simpl. split_and!; [done|done|exact Hc|done|lia|done]. }
  set (info := mkInfo pda false). split.
  - change pda with (key info). rewrite registry_write by (by apply initial_fits).
    simpl. by rewrite Hl.
  - unfold write_data. by rewrite fn_lookup_insert.
Qed.

Lemma send_commit pid a clock pda bump p r w :
  find_pda a pid = Some (pda, bump) -> cell_borrow (w pda) = Unborrowed ->
  registry w pda = Some r -> sr_authority r = a -> params_fit p -> extends r p ->
  exists ix w' t, commit_settlement pid a p clock = Some (Ok ix) /\ send_ix [a] ix w = (w', Ok tt) /\
    registry w' pda = Some (committed r p t) /\ cell_borrow (w' pda) = Unborrowed.
Proof.
  intros Hf Hb Hr Ha Hp He. destruct (pack_unpack (CommitSettlement p) Hp) as (bs & Ep & Eu).
  unfold commit_settlement. rewrite Hf. simpl. rewrite Ep. simpl.
  set (info := mkInfo pda false). set (rest := infos [a] [mkMeta clock false false]).
  do 2 eexists. exists (commit_time w rest). split; [done|].
  unfold send_ix, process_instruction, process, st_bind, lift. simpl. rewrite Eu. simpl.
  rewrite infos_signed. split.
  { apply commit_run. exists (mkInfo a true), info, rest, r. split_and!; done. }
  destruct (registry_length _ _ _ Hr) as [Hrf Hl]. split.
    change pda with (key info).
    rewrite registry_write by (apply committed_fits; try done; apply commit_time_i64).
    simpl. by rewrite Hl.
  - unfold write_data. by rewrite fn_lookup_insert.
Qed.

Lemma send_verify pid a pda bump leaf pf pb r w :
  find_pda a pid = Some (pda, bump) -> cell_borrow (w pda) = Unborrowed ->
  registry w pda = Some r -> N.of_nat (length pb) <= U32_MAX -> proof_from_slice pb = Ok pf ->
  verify sha256 pf (sr_merkle_root r) leaf = Ok tt ->
  exists ix, verify_inclusion pid a leaf pb = Some (Ok ix) /\ send_ix [] ix w = (w, Ok tt).
Proof.
  intros Hf Hb Hr Hl Hpf Hv. destruct (pack_unpack (VerifyInclusion leaf pb) Hl) as (bs & Ep & Eu).
  unfold verify_inclusion. rewrite Hf. simpl. rewrite Ep. simpl. eexists. split; [done|].
  unfold send_ix, process_instruction, process, st_bind, lift. simpl. rewrite Eu. simpl.
  apply verify_inclusion_run. split; [done|]. exists (mkInfo pda false), [], r, pf.
  simpl. split_and!; try done. by rewrite Hb.
Qed.

(** Initialising a fresh account with the client's instruction and committing the root
    of any non-empty batch of leaves succeeds, and afterwards the client's inclusion
    instruction succeeds for every leaf with the proof generated for it. *)
Theorem settled_batch_verifies pid a sys clock pda bump xs m p w :
  find_pda a pid = Some (pda, bump) -> cell_borrow (w pda) = Unborrowed ->
  length (cell_data (w pda)) = LEN -> 0 < N.of_nat (length xs) < 2 ^ 64 ->
  build sha256 xs = Some m -> params_fit p -> cp_batch_seq p = 1 ->
  cp_transfer_count p = N.of_nat (length xs) -> cp_merkle_root p = root sha256 m ->
  exists init commit w1 w2,
    initialize pid a sys = Some (Ok init) /\ send_ix [a] init w = (w1, Ok tt) /\
    commit_settlement pid a p clock = Some (Ok commit) /\ send_ix [a] commit w1 = (w2, Ok tt) /\
    forall i x, xs !! i = Some x -> exists pf, generate_proof m (N.of_nat i) = Some (Ok pf) /\
      forall pb, to_bytes pf = Ok pb -> N.of_nat (length pb) <= U32_MAX ->
        exists ix, verify_inclusion pid a x pb = Some (Ok ix) /\ send_ix [] ix w2 = (w2, Ok tt).
Proof.
  intros Hf Hb Hl Hxs Hm Hp Hseq Hcnt Hroot.
  destruct (send_initialize pid a sys pda bump w Hf Hb Hl) as (ix1 & w1 & E1 & S1 & R1 & B1).
  destruct (send_commit pid a clock pda bump p _ w1 Hf B1 R1 eq_refl Hp) as (ix2 & w2 & t & E2 & S2 & R2 & B2).
  { destruct Hp as (_ & _ & _ & Ht). unfold extends, initial_root. simpl. split_and!; [lia|done|lia|lia|lia]. }
  exists ix1, ix2, w1, w2. split_and!; try done. intros i x Hx.
  destruct (build_proofs sha256 xs) as (m' & Hm' & Hpf); [lia|]. simplify_eq.
  destruct (Hpf i x Hx) as (pf & Hg & Hv). exists pf. split; [done|]. intros pb Hpb Hlen.
  unfold to_bytes in Hpb. destruct (proof_to_stdvec pf) as [pb'|] eqn:Eb; [|done]. injection Hpb as <-.
  eapply send_verify; try done; [by eapply proof_bytes_roundtrip|]. simpl. by rewrite Hroot.
Qed.

(** An inclusion check that succeeds against the committed root of a batch, with a
    proof for the batch's number of leaves, shows the leaf at its index in the batch,
    or two different inputs with the same SHA-256 hash. *)
Theorem onchain_inclusion_binds pda rest leaf pb w w' r xs m pf :
  process_verify_inclusion sha256 display (pda :: rest) leaf pb w = (w', Ok tt) ->
  registry w (key pda) = Some r -> build sha256 xs = Some m -> N.of_nat (length xs) < 2 ^ 64 ->
  sr_merkle_root r = root sha256 m -> from_bytes pb = Ok pf -> pf_leaf_count pf = N.of_nat (length xs) ->
  xs !! N.to_nat (pf_leaf_index pf) = Some leaf \/
  exists a b, a <> b /\ sha256 a = sha256 b.
Proof.
  intros Hp Hr Hm H64 Hroot Hpf Hc.
  apply verify_inclusion_run in Hp as (_ & ? & ? & r' & pf' & [= <- <-] & _ & Hr' & Hpf' & Hv).
  rewrite Hr in Hr'. injection Hr' as <-. unfold from_bytes in Hpf. rewrite Hpf' in Hpf.
  injection Hpf as <-. rewrite Hroot in Hv.
  destruct (verify_binds sha256 xs m pf' leaf Hm H64 Hc Hv) as [Hx|(l & x & y & _ & _ & Hne & E)]; eauto 6.
Qed.

(** A tree of one leaf has that leaf as its root. *)
Lemma one_leaf_verify h : verify sha256 (mkProof 0 1 [] [h]) h h = Ok tt.
Proof. cbv -[bool_decide vec_dec to_hex]. by rewrite !bool_decide_true by done. Qed.

(** Whatever root a registry holds, the check accepts that root itself as a leaf, with
    the proof of a tree of one leaf: the number of leaves the proof claims is not compared
    with the number of transfers the registry holds. *)
Theorem root_accepted_as_leaf pda rest w r pb :
  cell_borrow (w (key pda)) = Unborrowed -> registry w (key pda) = Some r ->
  to_bytes (mkProof 0 1 [] [sr_merkle_root r]) = Ok pb ->
  process_verify_inclusion sha256 display (pda :: rest) (sr_merkle_root r) pb w = (w, Ok tt).
Proof.
  intros Hb Hr Hpb. unfold to_bytes in Hpb. destruct (proof_to_stdvec _) as [pb'|] eqn:Eb; [|done].
  injection Hpb as <-. apply verify_inclusion_run. split; [done|]. exists pda, rest, r.
  eexists. split_and!; [done|by rewrite Hb|done|by eapply proof_bytes_roundtrip|].
  apply one_leaf_verify.
Qed.

(** C40: initialising a registry again is accepted from the key it is derived from whatever
    batches it holds, and erases them: the first batch can then be committed again. *)
Theorem reinitialise_erases pid a sys clock pda bump r p w :
  find_pda a pid = Some (pda, bump) -> cell_borrow (w pda) = Unborrowed ->
  registry w pda = Some r -> params_fit p -> cp_batch_seq p = 1 -> 0 < cp_transfer_count p ->
  exists init commit w1 w2 t,
    initialize pid a sys = Some (Ok init) /\ send_ix [a] init w = (w1, Ok tt) /\
    registry w1 pda = Some (initial_root a bump) /\
    commit_settlement pid a p clock = Some (Ok commit) /\ send_ix [a] commit w1 = (w2, Ok tt) /\
    registry w2 pda = Some (committed (initial_root a bump) p t).
Proof.
  intros Hf Hb Hr Hp Hseq Hcnt. destruct (registry_length _ _ _ Hr) as [_ Hl].
  destruct (send_initialize pid a sys pda bump w Hf Hb Hl) as (ix1 & w1 & E1 & S1 & R1 & B1).
  destruct (send_commit pid a clock pda bump p _ w1 Hf B1 R1 eq_refl Hp) as (ix2 & w2 & t & E2 & S2 & R2 & B2).
  { destruct Hp as (_ & _ & _ & Ht). unfold extends, initial_root. simpl. split_and!; [lia|done|lia|lia|lia]. }
  exists ix1, ix2, w1, w2, t. split_and!; done.
Qed.

End program.

(** ** A worked settlement *)

Section worked.
#[local] Existing Instance borsh_le.
#[local] Existing Instance toy_runtime.
#[local] Existing Instance varint_proof.

Definition toy_display (e : ProofError) : string := "rejected".
Definition toy_pid : Pubkey := vec_take 32 [x09].
Definition toy_authority : Pubkey := vec_take 32 [x0a].
Definition toy_pda : Pubkey :=
  default toy_pid (fst <$> find_pda toy_authority toy_pid).
Definition toy_params : CommitParams :=
  mkParams 3 1 (root toy_hash toy_mmr) Hash32_ZERO 7 700 Hash32_ZERO.
Definition toy_root : SettlementRoot := committed (initial_root toy_authority 255) toy_params 0.

(** An allocated, zeroed account at every address; and the registry after one batch. *)
Definition toy_world : World := fun _ => mkCell (replicate 177 x00) Unborrowed.
Definition toy_settled : World := fun _ => mkCell (root_to_vec toy_root) Unborrowed.

Definition ix_bytes (i : SettlementInstruction) : bytes :=
  match pack i with Ok bs => bs | Err _ => [] end.
Definition toy_accounts : list AccountInfo :=
  [mkInfo toy_authority true; mkInfo toy_pda false; mkInfo toy_clock false].
Definition toy_calls : list program_call :=
  [(toy_accounts, ix_bytes (Initialize 255)); (toy_accounts, ix_bytes (CommitSettlement toy_params))].

Lemma toy_registry : registry toy_settled toy_pda = Some toy_root.
Proof. vm_compute. reflexivity. Qed.

Definition toy_run : World * list CommitParams :=
  run_calls toy_hash toy_display toy_pid toy_pda toy_calls toy_world [].

Lemma toy_run_batches : toy_run.2 = [toy_params].
Proof. vm_compute. reflexivity. Qed.

Lemma settlement_history_witness :
  chained [toy_params] /\ forall r, registry toy_run.1 toy_pda = Some r -> shows r [toy_params].
Proof.
  apply (settlement_history toy_hash toy_display toy_pid toy_pda toy_calls toy_world).
  - intros r Hr. assert (registry toy_world toy_pda = Some (initial_root (vec_take 32 []) 0)) as E
      by (vm_compute; reflexivity). rewrite E in Hr. injection Hr as <-. apply shows_initial.
  - rewrite <- toy_run_batches. apply surjective_pairing.
Defined.

Lemma settlement_authority_witness :
  exists authority rest, toy_accounts = authority :: rest /\ is_signer authority = true /\
    ((exists r, registry toy_world toy_pda = Some r /\ sr_authority r = key authority) \/
     (exists bump, create_program_address
        [PDA_SEED; vec_to_list (key authority); [byte_of bump]] toy_pid = Some toy_pda)).
Proof.
  eapply (settlement_authority toy_hash toy_display toy_pid toy_accounts (ix_bytes (Initialize 255)) toy_world);
    [apply surjective_pairing|].
  intros E. apply (f_equal (fun c => take 1 (cell_data c))) in E. vm_compute in E. discriminate E.
Defined.

Lemma settlement_failure_atomic_witness :
  exists w', process toy_hash toy_display toy_pid [mkInfo toy_authority false] [] toy_world =
    (w', Err InvalidInstructionData) /\ w' toy_pda = toy_world toy_pda.
Proof.
  eexists. split; [vm_compute; reflexivity|].
  apply (settlement_failure_atomic toy_hash toy_display toy_pid [mkInfo toy_authority false] []
           toy_world _ InvalidInstructionData). vm_compute. reflexivity.
Defined.

Definition toy_second : CommitParams :=
  mkParams 4 2 (hash_leaf toy_hash []) (root toy_hash toy_mmr) 1 50 Hash32_ZERO.

Lemma toy_second_fits : params_fit toy_second.
Proof. unfold params_fit. vm_compute. by split_and!. Qed.
Lemma toy_params_fit : params_fit toy_params.
Proof. unfold params_fit. vm_compute. by split_and!. Qed.

Lemma commit_settlement_decides_witness :
  (is_signer (mkInfo toy_authority true) = true /\ sr_authority toy_root = toy_authority /\
   extends toy_root toy_second /\
   exists w', process_commit_settlement toy_accounts toy_second toy_settled = (w', Ok tt) /\
     registry w' toy_pda = Some (committed toy_root toy_second (commit_time toy_settled [mkInfo toy_clock false])) /\
     writes toy_pda toy_settled w') \/
  (~ (is_signer (mkInfo toy_authority true) = true /\ sr_authority toy_root = toy_authority /\
      extends toy_root toy_second) /\
   exists w' e, process_commit_settlement toy_accounts toy_second toy_settled = (w', Err e) /\
     unchanged toy_settled w').
Proof.
  apply (commit_settlement_decides toy_accounts toy_second toy_settled (mkInfo toy_authority true)
           (mkInfo toy_pda false) [mkInfo toy_clock false] toy_root);
    [reflexivity|apply toy_second_fits|reflexivity|apply toy_registry].
Defined.

Lemma settled_batch_verifies_witness :
  exists init commit w1 w2,
    initialize toy_pid toy_authority toy_clock = Some (Ok init) /\
    send_ix toy_hash toy_display [toy_authority] init toy_world = (w1, Ok tt) /\
    commit_settlement toy_pid toy_authority toy_params toy_clock = Some (Ok commit) /\
    send_ix toy_hash toy_display [toy_authority] commit w1 = (w2, Ok tt) /\
    forall i x, toy_leaves !! i = Some x ->
      exists pf, generate_proof toy_mmr (N.of_nat i) = Some (Ok pf) /\
      forall pb, to_bytes pf = Ok pb -> N.of_nat (length pb) <= U32_MAX ->
        exists ix, verify_inclusion toy_pid toy_authority x pb = Some (Ok ix) /\
          send_ix toy_hash toy_display [] ix w2 = (w2, Ok tt).
Proof.
  apply (settled_batch_verifies toy_hash toy_display toy_pid toy_authority toy_clock toy_clock toy_pda 255
           toy_leaves toy_mmr toy_params toy_world); try reflexivity.
  - by vm_compute.
  - apply toy_params_fit.
Defined.

Definition toy_bytes (pf : MmrProof) : bytes := match to_bytes pf with Ok bs => bs | Err _ => [] end.

Lemma onchain_inclusion_binds_witness :
  toy_leaves !! 5%nat = Some (hash_leaf toy_hash [x06]) \/
  exists a b, a <> b /\ toy_hash a = toy_hash b.
Proof.
  apply (onchain_inclusion_binds toy_hash toy_display (mkInfo toy_pda false) []
           (hash_leaf toy_hash [x06]) (toy_bytes toy_proof) toy_settled toy_settled toy_root
           toy_leaves toy_mmr toy_proof);
    [| apply toy_registry | ..]; vm_compute; reflexivity.
Defined.

Lemma root_accepted_as_leaf_witness :
  process_verify_inclusion toy_hash toy_display [mkInfo toy_pda false] (sr_merkle_root toy_root)
    (toy_bytes (mkProof 0 1 [] [sr_merkle_root toy_root])) toy_settled = (toy_settled, Ok tt).
Proof.
  apply (root_accepted_as_leaf toy_hash toy_display (mkInfo toy_pda false) [] toy_settled toy_root);
    [reflexivity|apply toy_registry|reflexivity].
Defined.

Lemma reinitialise_erases_witness :
  exists init commit w1 w2 t,
    initialize toy_pid toy_authority toy_clock = Some (Ok init) /\
    send_ix toy_hash toy_display [toy_authority] init toy_settled = (w1, Ok tt) /\
    registry w1 toy_pda = Some (initial_root toy_authority 255) /\
    commit_settlement toy_pid toy_authority toy_params toy_clock = Some (Ok commit) /\
    send_ix toy_hash toy_display [toy_authority] commit w1 = (w2, Ok tt) /\
    registry w2 toy_pda = Some (committed (initial_root toy_authority 255) toy_params t).
Proof.
  apply (reinitialise_erases toy_hash toy_display toy_pid toy_authority toy_clock toy_clock toy_pda 255
           toy_root toy_params toy_settled);
    [reflexivity|reflexivity|apply toy_registry|apply toy_params_fit|reflexivity|reflexivity].
Defined.

End worked.
