(* ===== verification/Raft.v ===== *)
(** * The replicated ledger: state machine, log store, router and proposals

    [crates/raft/src/{types,state_machine,storage,network,node,cluster}.rs].  The
    consensus engine is the [openraft] crate's: its log identifiers, memberships and
    votes are abstract types here, and what it answers to a proposal is a script.  The
    [RwLock]s serialise the operations, so each operation is one step on the state. *)

From S2P Require Import Prelude Error Amount Account Transfer Ledger LedgerBatch Bytes.

(** ** Requests and responses *)

Inductive RaftRequest : Type :=
| RqCreateAccount (id : AccountId) (account_type : AccountType) (flags : AccountFlags)
    (scale : Scale) (timestamp : N)
| RqCreateTransfer (t : Transfer)
| RqCreatePending (t : Transfer)
| RqPostPending (pending_id post_transfer_id : TransferId) (amount : Amount) (timestamp : N)
| RqVoidPending (pending_id : TransferId) (timestamp : N)
| RqCloseAccount (id : AccountId) (timestamp : N)
| RqApplyBatch (ops : list BatchOp).

(** [From<RaftRequest> for Vec<BatchOp>]. *)
Definition request_ops (req : RaftRequest) : list BatchOp :=
  match req with
  | RqCreateAccount id ty fl sc ts => [OpCreateAccount id ty fl sc ts]
  | RqCreateTransfer t => [OpTransfer t]
  | RqCreatePending t => [OpPending t]
  | RqPostPending p q x ts => [OpPostPending p q x ts]
  | RqVoidPending p ts => [OpVoidPending p ts]
  | RqCloseAccount id ts => [OpCloseAccount id ts]
  | RqApplyBatch ops => ops
  end.

Inductive RaftResponse : Type :=
| RsBlank
| RsAccountCreated (id : AccountId)
| RsTransferCreated (id : TransferId)
| RsPendingCreated (id : TransferId)
| RsPendingPosted (id : TransferId)
| RsPendingVoided (id : TransferId)
| RsAccountClosed (id : AccountId)
| RsBatchApplied (events : list LedgerEvent).

Inductive RaftClientError : Type :=
| RcLedger (msg : string)
| RcNotLeader (leader_id : option N)
| RcFatal (msg : string).

Definition RaftReply : Type := result RaftClientError RaftResponse.

(** Serialisation of [SnapshotPayload] by the [postcard] crate: what was written is
    read back. *)
Class SnapshotCodec : Type := {
  payload_to_allocvec : Scale * list LedgerEvent -> result string bytes;
  payload_from_bytes : bytes -> result string (Scale * list LedgerEvent);
  payload_roundtrip p bs : payload_to_allocvec p = Ok bs -> payload_from_bytes bs = Ok p;
}.

Inductive StorageError : Type := ReadStateMachine (msg : string) | ReadSnapshot (msg : string).

Section raft.
Context (ledger_error_string : LedgerError -> string).
Context {LogId Membership Vote : Type} (index : LogId -> N) (default_membership : Membership).

(** ** The state machine *)

Record StoredMembership : Type := mkMembership {
  membership_log_id : option LogId;
  membership : Membership;
}.

Record SnapshotMeta : Type := mkSnapMeta {
  meta_last_log_id : option LogId;
  meta_last_membership : StoredMembership;
  snapshot_id : string;
}.

Record RaftSnapshot : Type := mkSnapshot { snap_meta : SnapshotMeta; snap_data : bytes }.

Record StateMachine : Type := mkSM {
  sm_ledger : Ledger;
  last_applied_log_id : option LogId;
  last_membership : StoredMembership;
  current_snapshot : option RaftSnapshot;
}.

Inductive EntryPayload : Type :=
| EpBlank
| EpNormal (request : RaftRequest)
| EpMembership (m : Membership).

Record Entry : Type := mkEntry { entry_log_id : LogId; payload : EntryPayload }.

Definition StateMachine_new (scale : Scale) : StateMachine :=
  mkSM (Ledger_new scale) None (mkMembership None default_membership) None.

Definition applied_state (self : StateMachine) : option LogId * StoredMembership :=
  (last_applied_log_id self, last_membership self).

Definition run_ops (ops : list BatchOp) : st Ledger RaftClientError (list LedgerEvent) :=
  fun ledger =>
    match prepare_batch ops ledger with
    | (ledger, Err e) => (ledger, Err (RcLedger (ledger_error_string e)))
    | (ledger, Ok events) =>
        match commit_events events ledger with
        | (ledger, Err e) => (ledger, Err (RcLedger (ledger_error_string e)))
        | (ledger, Ok _) => (ledger, Ok events)
        end
    end.

#[local] Open Scope st_scope.

Definition apply_single_request (request : RaftRequest) : st Ledger RaftClientError RaftResponse :=
  match request with
  | RqCreateAccount id ty fl sc ts =>
      do? run_ops [OpCreateAccount id ty fl sc ts]; st_ret (RsAccountCreated id)
  | RqCreateTransfer t =>
      let id := tr_id t in
      do? run_ops [OpTransfer t]; st_ret (RsTransferCreated id)
  | RqCreatePending t =>
      let id := tr_id t in
      do? run_ops [OpPending t]; st_ret (RsPendingCreated id)
  | RqPostPending p q x ts => do? run_ops [OpPostPending p q x ts]; st_ret (RsPendingPosted q)
  | RqVoidPending p ts => do? run_ops [OpVoidPending p ts]; st_ret (RsPendingVoided p)
  | RqCloseAccount id ts => do? run_ops [OpCloseAccount id ts]; st_ret (RsAccountClosed id)
  | RqApplyBatch ops => let? events := run_ops ops in st_ret (RsBatchApplied events)
  end.

Definition set_applied (id : LogId) (self : StateMachine) : StateMachine :=
  mkSM (sm_ledger self) (Some id) (last_membership self) (current_snapshot self).
Definition set_membership (m : StoredMembership) (self : StateMachine) : StateMachine :=
  mkSM (sm_ledger self) (last_applied_log_id self) m (current_snapshot self).
Definition set_sm_ledger (l : Ledger) (self : StateMachine) : StateMachine :=
  mkSM l (last_applied_log_id self) (last_membership self) (current_snapshot self).

(** One turn of the loop of [apply]. *)
Definition apply_entry (entry : Entry) (inner : StateMachine) : StateMachine * RaftReply :=
  let inner := set_applied (entry_log_id entry) inner in
  match payload entry with
  | EpBlank => (inner, Ok RsBlank)
  | EpMembership m =>
      (set_membership (mkMembership (Some (entry_log_id entry)) m) inner, Ok RsBlank)
  | EpNormal request =>
      let '(ledger, result) := apply_single_request request (sm_ledger inner) in
      (set_sm_ledger ledger inner, result)
  end.

Fixpoint apply_entries (entries : list Entry) (inner : StateMachine) :
    StateMachine * list RaftReply :=
  match entries with
  | [] => (inner, [])
  | entry :: rest =>
      let '(inner, response) := apply_entry entry inner in
      let '(inner, responses) := apply_entries rest inner in
      (inner, response :: responses)
  end.

(** ** Snapshots *)

Context `{SnapshotCodec}.

Record SnapshotBuilder : Type := mkBuilder {
  builder_meta : SnapshotMeta;
  snapshot_payload : Scale * list LedgerEvent;
}.

(** [ts] is the wall clock in milliseconds. *)
Definition get_snapshot_builder (ts : N) (inner : StateMachine) : SnapshotBuilder :=
  let id := default 0 (index <$> last_applied_log_id inner) in
  mkBuilder
    (mkSnapMeta (last_applied_log_id inner) (last_membership inner) (dec_string id +:+ "-" +:+ dec_string ts))
    (ledger_scale (sm_ledger inner), journal (sm_ledger inner)).

Definition build_snapshot (self : SnapshotBuilder) : result StorageError RaftSnapshot :=
  data ← map_err (fun e => ReadStateMachine ("failed to serialize snapshot payload: " +:+ e))
           (payload_to_allocvec (snapshot_payload self));
  Ok (mkSnapshot (builder_meta self) data).

Definition install_snapshot (meta : SnapshotMeta) (data : bytes) : st StateMachine StorageError unit :=
  let? pl := st_reads (fun _ => map_err (fun e => ReadSnapshot
      ("failed to deserialize snapshot payload: " +:+ e)) (payload_from_bytes data)) in
  let? ledger := st_reads (fun _ => map_err (fun e => ReadSnapshot
      ("failed to replay snapshot journal: " +:+ ledger_error_string e)) (replay pl.1 pl.2)) in
  st_modify (fun _ => mkSM ledger (meta_last_log_id meta) (meta_last_membership meta)
                        (Some (mkSnapshot meta data))).

Definition get_current_snapshot (self : StateMachine) : option RaftSnapshot := current_snapshot self.

(** ** The log store *)

Record LogStore : Type := mkLog {
  vote : option Vote;
  log_committed : option LogId;
  last_purged_log_id : option LogId;
  entries : gmap N Entry;
}.

Definition LogStore_new : LogStore := mkLog None None None ∅.

(** [RangeBounds<u64>]. *)
Inductive Bound : Type := Included (k : N) | Excluded (k : N) | Unbounded.

Definition above (lo : Bound) (k : N) : bool :=
  match lo with Included a => a <=? k | Excluded a => a <? k | Unbounded => true end.
Definition below (hi : Bound) (k : N) : bool :=
  match hi with Included b => k <=? b | Excluded b => k <? b | Unbounded => true end.

(** [BTreeMap::range] panics when the start lies after the end, or when both are
    excluded and equal. *)
Definition range_panics (lo hi : Bound) : bool :=
  match lo, hi with
  | Excluded a, Excluded b => b <=? a
  | Included a, (Included b | Excluded b) => b <? a
  | Excluded a, Included b => b <? a
  | _, _ => false
  end.

Definition try_get_log_entries (lo hi : Bound) (self : LogStore) : option (list Entry) :=
  if range_panics lo hi then None
  else Some (filter (fun kv => above lo kv.1 && below hi kv.1) (btree_iter (entries self))).*2.

(** [last_purged_log_id] and [last_log_id]. *)
Definition get_log_state (self : LogStore) : option LogId * option LogId :=
  let purged := last_purged_log_id self in
  (purged, match last (btree_values (entries self)) with
           | Some e => Some (entry_log_id e)
           | None => purged
           end).

Definition save_vote (v : Vote) (self : LogStore) : LogStore :=
  mkLog (Some v) (log_committed self) (last_purged_log_id self) (entries self).
Definition read_vote (self : LogStore) : option Vote := vote self.
Definition save_committed (c : option LogId) (self : LogStore) : LogStore :=
  mkLog (vote self) c (last_purged_log_id self) (entries self).
Definition read_committed (self : LogStore) : option LogId := log_committed self.

Definition set_entries (m : gmap N Entry) (self : LogStore) : LogStore :=
  mkLog (vote self) (log_committed self) (last_purged_log_id self) m.

Definition log_append (es : list Entry) (self : LogStore) : LogStore :=
  foldl (fun s e => set_entries (<[index (entry_log_id e) := e]> (entries s)) s) self es.

(** [split_off] keeps the keys below the given one. *)
Definition log_truncate (log_id : LogId) (self : LogStore) : LogStore :=
  set_entries (filter (fun kv => kv.1 < index log_id) (entries self)) self.

Definition log_purge (log_id : LogId) (self : LogStore) : LogStore :=
  mkLog (vote self) (log_committed self) (Some log_id)
    (filter (fun kv => index log_id < kv.1) (entries self)).

(** ** The router *)

Section router.
Context {Handle : Type}.

Record RouterState : Type := mkRouter {
  router_nodes : gmap N Handle;
  isolated : gset N;
  partitions : list (gset N * gset N);
}.

Definition Router_new : RouterState := mkRouter ∅ ∅ [].

Definition can_communicate (self : RouterState) (from to : N) : bool :=
  if bool_decide (from ∈ isolated self) || bool_decide (to ∈ isolated self) then false
  else negb (existsb (fun '(set_a, set_b) =>
         (bool_decide (from ∈ set_a) && bool_decide (to ∈ set_b)) ||
         (bool_decide (from ∈ set_b) && bool_decide (to ∈ set_a))) (partitions self)).

Definition register (node_id : N) (raft : Handle) (s : RouterState) : RouterState :=
  mkRouter (<[node_id := raft]> (router_nodes s)) (isolated s) (partitions s).
Definition unregister (node_id : N) (s : RouterState) : RouterState :=
  mkRouter (delete node_id (router_nodes s)) (isolated s) (partitions s).
Definition isolate (node_id : N) (s : RouterState) : RouterState :=
  mkRouter (router_nodes s) ({[node_id]} ∪ isolated s) (partitions s).
Definition unisolate (node_id : N) (s : RouterState) : RouterState :=
  mkRouter (router_nodes s) (isolated s ∖ {[node_id]}) (partitions s).
Definition partition (set_a set_b : gset N) (s : RouterState) : RouterState :=
  mkRouter (router_nodes s) (isolated s) (partitions s ++ [(set_a, set_b)]).
Definition heal (s : RouterState) : RouterState := mkRouter (router_nodes s) ∅ [].

(** [None] is the [Unreachable] error, whichever its text. *)
Definition get_target_raft (source target : N) (s : RouterState) : option Handle :=
  if negb (can_communicate s source target) then None else router_nodes s !! target.

End router.

(** ** Proposals *)

(** What [Raft::client_write] answers. *)
Inductive ClientWrite : Type :=
| WriteApplied (data : RaftReply)
| ForwardToLeader (leader_id : option N)
| ChangeMembershipError (msg : string)
| WriteFatal (msg : string).

Definition client_write (res : ClientWrite) : RaftReply :=
  match res with
  | WriteApplied data => data
  | ForwardToLeader leader_id => Err (RcNotLeader leader_id)
  | ChangeMembershipError msg => Err (RcFatal msg)
  | WriteFatal msg => Err (RcFatal msg)
  end.

(** What one attempt observes: each node with whether it says it leads, in the order of
    the map, and what a write to a node would come to. *)
Record Attempt : Type := mkAttempt {
  leading : list (N * bool);
  write_to : N -> ClientWrite;
}.

Definition leader_of (a : Attempt) : option N :=
  head (omap (fun '(id, lead) => if lead : bool then Some id else None) (leading a)).

(** The answer, with the number of writes issued; [retries] counts up to ten. *)
Fixpoint propose_loop (fuel : nat) (env : nat -> Attempt) (retries : nat) (writes : nat) :
    RaftReply * nat :=
  match fuel with
  | O => (Err (RcNotLeader None), writes)
  | S fuel' =>
      match leader_of (env retries) with
      | Some id =>
          match client_write (write_to (env retries) id) with
          | Ok resp => (Ok resp, S writes)
          | Err (RcNotLeader _) => propose_loop fuel' env (S retries) (S writes)
          | Err err => (Err err, S writes)
          end
      | None => propose_loop fuel' env (S retries) writes
      end
  end.

Definition propose (env : nat -> Attempt) : RaftReply * nat := propose_loop 10 env 0 0.

End raft.
