(* ===== verification/RaftProps.v ===== *)
(** * Properties of the replicated ledger

    Replicas against the single-writer path, catching up from a snapshot, the log
    store against a list, proposals and the router, over the definitions of [Raft]. *)

From S2P Require Import Prelude Error Amount Account Transfer Ledger LedgerStep LedgerInv LedgerBatch.
From S2P Require Import Bytes Codec Raft.

Section raft.
Context (show : LedgerError -> string).
Context {LogId Membership Vote : Type}.

Abbreviation entry := (Entry (LogId := LogId) (Membership := Membership)).
Abbreviation machine := (StateMachine (LogId := LogId) (Membership := Membership)).
Abbreviation store := (LogStore (LogId := LogId) (Membership := Membership) (Vote := Vote)).
Implicit Types (e : entry) (es : list entry) (sm : machine).

(** ** Requests as transactions *)

Lemma run_ops_eq ops l :
  run_ops show ops l =
  match exec_tx ops l with
  | Ok (l', evs) => (l', Ok evs)
  | Err err => (l, Err (RcLedger (show err)))
  end.
Proof.
  unfold run_ops. rewrite prepare_batch_eq. destruct (exec_tx ops l) as [[l' evs]|err] eqn:E; simpl; [|done].
  apply exec_tx_run in E as [Hr _]. by rewrite (proj2 (commit_events_ok evs l l') Hr).
Qed.

(** The reply to a request whose transaction journaled [evs]. *)
Definition response_of (req : RaftRequest) (evs : list LedgerEvent) : RaftResponse :=
  match req with
  | RqCreateAccount id _ _ _ _ => RsAccountCreated id
  | RqCreateTransfer t => RsTransferCreated (tr_id t)
  | RqCreatePending t => RsPendingCreated (tr_id t)
  | RqPostPending _ q _ _ => RsPendingPosted q
  | RqVoidPending p _ => RsPendingVoided p
  | RqCloseAccount id _ => RsAccountClosed id
  | RqApplyBatch _ => RsBatchApplied evs
  end.

Definition reply_of (req : RaftRequest) (r : result LedgerError (list LedgerEvent)) : RaftReply :=
  match r with Ok evs => Ok (response_of req evs) | Err err => Err (RcLedger (show err)) end.

Lemma apply_single_request_eq req l :
  apply_single_request show req l =
  match exec_tx (request_ops req) l with
  | Ok (l', evs) => (l', Ok (response_of req evs))
  | Err err => (l, Err (RcLedger (show err)))
  end.
Proof.
  destruct req; cbn [apply_single_request request_ops response_of]; unfold st_bind, st_ret;
    rewrite run_ops_eq; by destruct (exec_tx _ l) as [[??]|].
Qed.

Definition request_of e : option RaftRequest :=
  match payload e with EpNormal req => Some req | _ => None end.

(** The replies to the entries that carry a request, in order. *)
Fixpoint request_replies es (rs : list RaftReply) : list RaftReply :=
  match es, rs with
  | e :: es', r :: rs' =>
      match request_of e with
      | Some _ => r :: request_replies es' rs'
      | None => request_replies es' rs'
      end
  | _, _ => []
  end.

Lemma apply_entries_serial es sm :
  let reqs := omap request_of es in
  let '(sm', rs) := apply_entries show es sm in
  let '(l', results) := exec_txs (request_ops <$> reqs) (sm_ledger sm) in
  sm_ledger sm' = l' /\ length rs = length es /\
  request_replies es rs = zip_with reply_of reqs results.
Proof.
  revert sm. induction es as [|e es IH]; intros sm; [done|]. cbn [apply_entries omap list_omap].
  unfold apply_entry. destruct e as [id [|req|m]]; cbn [payload entry_log_id].
  - specialize (IH (set_applied id sm)). destruct (apply_entries show es _) as [sm' rs].
    simpl in *. destruct (exec_txs _ _). naive_solver.
  - rewrite apply_single_request_eq. simpl.
    destruct (exec_tx (request_ops req) (sm_ledger sm)) as [[l1 evs]|err].
    + specialize (IH (set_sm_ledger l1 (set_applied id sm))).
      destruct (apply_entries show es _) as [sm' rs]. simpl in *. destruct (exec_txs _ l1).
      destruct IH as (-> & -> & ->). done.
    + specialize (IH (set_sm_ledger (sm_ledger sm) (set_applied id sm))).
      destruct (apply_entries show es _) as [sm' rs]. simpl in *. destruct (exec_txs _ (sm_ledger sm)).
      destruct IH as (-> & -> & ->). done.
  - match goal with |- context [set_membership ?x _] => specialize (IH (set_membership x (set_applied id sm))) end.
    destruct (apply_entries show es _) as [sm' rs].
    simpl in *. destruct (exec_txs _ _). naive_solver.
Qed.

(** C12: a replica that applies committed entries ends with the ledger, and answers the
    requests with the results, of the single-writer path: the requests' transactions
    prepared together and their accepted events committed. *)
Theorem replica_matches_single_writer es sm sm' rs :
  apply_entries show es sm = (sm', rs) ->
  let reqs := omap request_of es in
  let '(l, results) := prepare_transactions (request_ops <$> reqs) (sm_ledger sm) in
  l = sm_ledger sm /\ commit_events (accepted results) l = (sm_ledger sm', Ok tt) /\
  length rs = length es /\ request_replies es rs = zip_with reply_of reqs results.
Proof.
  intros Ha. pose proof (apply_entries_serial es sm) as Hs. cbv zeta in *. rewrite Ha in Hs.
  rewrite prepare_transactions_eq.
  pose proof (exec_txs_run (request_ops <$> omap request_of es) (sm_ledger sm)) as Hr.
  destruct (exec_txs _ (sm_ledger sm)) as [l' results]. destruct Hs as (<- & Hl & Hrep).
  split_and!; [done| |done|done]. by apply commit_events_ok.
Qed.

(** ** Reachable machines *)

Lemma apply_entries_reachable sc es sm :
  reachable sc (sm_ledger sm) -> reachable sc (sm_ledger (apply_entries show es sm).1).
Proof.
  intros [evs Hr]. pose proof (apply_entries_serial es sm) as Hs. cbv zeta in Hs.
  destruct (apply_entries show es sm) as [sm' rs].
  pose proof (exec_txs_run (request_ops <$> omap request_of es) (sm_ledger sm)) as Hr'.
  destruct (exec_txs _ (sm_ledger sm)) as [l' results]. simpl. destruct Hs as (-> & _).
  eexists. by eapply run_app.
Qed.

Lemma apply_entries_app es1 es2 sm :
  apply_entries show (es1 ++ es2) sm =
  let '(sm1, rs1) := apply_entries show es1 sm in
  let '(sm2, rs2) := apply_entries show es2 sm1 in (sm2, rs1 ++ rs2).
Proof.
  revert sm. induction es1 as [|e es1 IH]; intros sm; simpl; [by destruct (apply_entries show es2 sm)|].
  destruct (apply_entry show e sm) as [sm1 r]. rewrite IH.
  destruct (apply_entries show es1 sm1) as [sm2 rs1]. by destruct (apply_entries show es2 sm2).
Qed.

(** States that differ only in the retained snapshot. *)
Definition same_replica (sm1 sm2 : machine) : Prop :=
  sm_ledger sm1 = sm_ledger sm2 /\ last_applied_log_id sm1 = last_applied_log_id sm2 /\
  last_membership sm1 = last_membership sm2.

Lemma apply_entry_same e sm1 sm2 :
  same_replica sm1 sm2 ->
  same_replica (apply_entry show e sm1).1 (apply_entry show e sm2).1 /\
  (apply_entry show e sm1).2 = (apply_entry show e sm2).2.
Proof.
  intros (Hl & Ha & Hm). unfold apply_entry, same_replica. destruct e as [id [|req|m]]; simpl; try done.
  rewrite Hl. destruct (apply_single_request show req (sm_ledger sm2)). simpl. done.
Qed.

Lemma apply_entries_same es sm1 sm2 :
  same_replica sm1 sm2 ->
  same_replica (apply_entries show es sm1).1 (apply_entries show es sm2).1 /\
  (apply_entries show es sm1).2 = (apply_entries show es sm2).2.
Proof.
  revert sm1 sm2. induction es as [|e es IH]; intros sm1 sm2 Hs; [done|]. simpl.
  pose proof (apply_entry_same e sm1 sm2 Hs) as [Hs1 Hr].
  destruct (apply_entry show e sm1) as [sm1' r1], (apply_entry show e sm2) as [sm2' r2]. simpl in *.
  pose proof (IH sm1' sm2' Hs1) as [Hs2 Hrs].
  destruct (apply_entries show es sm1') as [??], (apply_entries show es sm2') as [??]. simpl in *.
  split; [done|congruence].
Qed.

Context (index : LogId -> N) (default_membership : Membership) `{SnapshotCodec}.

Lemma replay_reachable sc l : reachable sc l -> replay sc (journal l) = Ok l /\ ledger_scale l = sc.
Proof.
  intros [evs Hr]. pose proof (run_frame _ _ _ Hr) as (Hs & Hj & _). simpl in *. split; [|done].
  rewrite Hj. by apply replay_run.
Qed.

(** C27: a replica that installs a snapshot taken after a prefix of the log, whatever state
    it was in, agrees from then on with the replica that applied that prefix: same
    ledger, same last applied entry and membership, and same replies to every
    continuation of the log. *)
Theorem snapshot_catch_up sc es1 ts snap other :
  let sm := (apply_entries show es1 (StateMachine_new default_membership sc)).1 in
  build_snapshot (get_snapshot_builder index ts sm) = Ok snap ->
  exists caught, install_snapshot show (snap_meta snap) (snap_data snap) other = (caught, Ok tt) /\
    forall es2, same_replica (apply_entries show es2 caught).1 (apply_entries show es2 sm).1 /\
      (apply_entries show es2 caught).2 = (apply_entries show es2 sm).2.
Proof.
  intros sm Hb. unfold build_snapshot in Hb. apply bind_ok in Hb as (data & Hd & [= <-]).
  destruct (payload_to_allocvec _) as [bs|] eqn:Ep; [|done]. injection Hd as ->.
  pose proof (payload_roundtrip _ _ Ep) as Hrt.
  assert (reachable sc (sm_ledger sm)) as Hreach.
  { unfold sm. apply apply_entries_reachable. apply reachable_new. }
  apply replay_reachable in Hreach as [Hrep Hsc].
  unfold install_snapshot. rewrite !st_bind_reads. simpl. rewrite Hrt. simpl. rewrite st_bind_reads.
  simpl. rewrite Hsc, Hrep. simpl. eexists. split; [done|]. intros es2. by apply apply_entries_same.
Qed.

(** Whatever bytes arrive as a snapshot, installing them either changes nothing or
    leaves a ledger built by replaying valid events, with all the ledger's invariants. *)
Theorem install_snapshot_safe meta data sm sm' r :
  install_snapshot show meta data sm = (sm', r) ->
  match r with
  | Err _ => sm' = sm
  | Ok _ => ledger_inv (sm_ledger sm') /\ last_applied_log_id sm' = meta_last_log_id meta /\
      exists sc evs, payload_from_bytes data = Ok (sc, evs) /\ run (Ledger_new sc) evs (sm_ledger sm')
  end.
Proof.
  unfold install_snapshot. rewrite st_bind_reads.
  destruct (payload_from_bytes data) as [[sc evs]|] eqn:E; simpl; [|by intros [= <- <-]].
  rewrite st_bind_reads. simpl. destruct (replay sc evs) as [l|] eqn:Er; simpl; [|by intros [= <- <-]].
  intros [= <- <-]. simpl. apply replay_run in Er. split_and!; [|done|by exists sc, evs].
  apply (reachable_inv sc). by exists evs.
Qed.

(** ** The log store as a list *)

Lemma StronglySorted_irrefl_NoDup {A} (R : relation A) (l : list A) :
  (forall x, ~ R x x) -> StronglySorted R l -> NoDup l.
Proof.
  intros HR. induction 1 as [|x l Hs IH Hx]; constructor; [|done].
  rewrite Forall_forall in Hx. intros Hin. by apply (HR x), Hx.
Qed.

Lemma StronglySorted_impl {A} (R R' : relation A) (l : list A) :
  (forall x y, R x y -> R' x y) -> StronglySorted R l -> StronglySorted R' l.
Proof.
  intros HR. induction 1 as [|x l Hs IH Hx]; constructor; [done|]. eapply Forall_impl; [exact Hx|auto].
Qed.

(** Entries at consecutive indices from [first] on. *)
Definition holds_log (s : store) (first : N) es : Prop :=
  (forall i e, es !! i = Some e -> index (entry_log_id e) = first + N.of_nat i) /\
  forall k, entries s !! k = if first <=? k then es !! N.to_nat (k - first) else None.

Definition numbered (first : N) es : list (N * entry) :=
  imap (fun i e => (first + N.of_nat i, e)) es.

Lemma numbered_snd first es : (numbered first es).*2 = es.
Proof. unfold numbered. rewrite fmap_imap. apply list_eq. intros i. rewrite list_lookup_imap. by destruct (es !! i). Qed.

Lemma numbered_sorted first es : StronglySorted (fun x y : N * entry => x.1 < y.1) (numbered first es).
Proof.
  revert first. induction es as [|e es IH]; intros first; unfold numbered; cbn [imap]; constructor.
  - replace (imap _ es) with (numbered (first + 1) es); [apply IH|].
    apply imap_ext. intros i x _. simpl. f_equal. lia.
  - apply Forall_forall. intros [k x] (i & y & [= -> ->] & _)%elem_of_lookup_imap. simpl. lia.
Qed.

Lemma elem_of_numbered s first es k e :
  holds_log s first es -> (k, e) ∈ numbered first es <-> entries s !! k = Some e.
Proof.
  intros [_ Hk]. rewrite Hk. unfold numbered. rewrite elem_of_lookup_imap. split.
  - intros (i & x & [= -> ->] & Hi). destruct (N.leb_spec first (first + N.of_nat i)); [|lia].
    by replace (N.to_nat (first + N.of_nat i - first)) with i by lia.
  - destruct (N.leb_spec first k); [|done]. intros He. exists (N.to_nat (k - first)), e. split; [|done].
    f_equal. lia.
Qed.

Lemma holds_log_iter s first es :
  holds_log s first es -> btree_iter (entries s) = numbered first es.
Proof.
  intros Hs. apply (StronglySorted_unique_strong key_le).
  - intros [k1 e1] [k2 e2] H1 H2 H12 H21. apply elem_of_btree_iter in H1.
    apply (elem_of_numbered s first es _ _ Hs) in H2. unfold key_le in *. simpl in *.
    assert (k1 = k2) as -> by lia. congruence.
  - apply Sorted_StronglySorted; [|apply btree_iter_sorted]. intros x y z. unfold key_le. lia.
  - eapply StronglySorted_impl; [|apply numbered_sorted]. unfold key_le. intros; lia.
  - rewrite btree_iter_perm. apply NoDup_Permutation.
    + apply NoDup_map_to_list.
    + apply (StronglySorted_irrefl_NoDup (fun x y : N * entry => x.1 < y.1)); [|apply numbered_sorted].
      intros x. lia.
    + intros [k e]. by rewrite elem_of_map_to_list, (elem_of_numbered s first es).
Qed.

Lemma holds_log_values s first es : holds_log s first es -> btree_values (entries s) = es.
Proof. intros Hs. unfold btree_values. by rewrite (holds_log_iter s first es Hs), numbered_snd. Qed.

Lemma holds_log_push s first es e :
  holds_log s first es -> index (entry_log_id e) = first + N.of_nat (length es) ->
  holds_log (set_entries (<[index (entry_log_id e) := e]> (entries s)) s) first (es ++ [e]).
Proof.
  intros [Hi Hk] He. split.
  - intros i e' Hl. apply lookup_app_Some in Hl as [Hl|[Hge Hl]]; [by apply Hi|].
    apply list_lookup_singleton_Some in Hl as [Hl <-]. lia.
  - intros k. simpl. destruct (decide (index (entry_log_id e) = k)) as [<-|Hne].
    + rewrite lookup_insert_eq, He. destruct (N.leb_spec first (first + N.of_nat (length es))); [|lia].
      rewrite lookup_app_r by lia. by replace (_ - length es)%nat with 0%nat by lia.
    + rewrite lookup_insert_ne by done. rewrite Hk. destruct (N.leb_spec first k); [|done].
      destruct (decide (N.to_nat (k - first) < length es)%nat); [by rewrite lookup_app_l|].
      rewrite lookup_app_r, !lookup_ge_None_2; [done|simpl; lia..].
Qed.

(** The contract the consensus engine keeps when it appends: consecutive entries. *)
Fixpoint consecutive (next : N) es : Prop :=
  match es with [] => True | e :: es' => index (entry_log_id e) = next /\ consecutive (next + 1) es' end.

Lemma log_append_holds s first es es' :
  holds_log s first es -> consecutive (first + N.of_nat (length es)) es' ->
  holds_log (log_append index es' s) first (es ++ es').
Proof.
  revert s es. induction es' as [|e es' IH]; intros s es Hs Hc; simpl; [by rewrite app_nil_r|].
  destruct Hc as [He Hc]. rewrite (cons_middle e es es'), app_assoc. apply IH; [by apply holds_log_push|].
  rewrite length_app. simpl. by replace (N.of_nat (length es + 1)) with (N.of_nat (length es) + 1) by lia; rewrite N.add_assoc.
Qed.

Lemma log_truncate_holds s first es id :
  holds_log s first es -> first <= index id ->
  holds_log (log_truncate index id s) first (take (N.to_nat (index id - first)) es).
Proof.
  intros [Hi Hk] Hle. split.
  - intros i e Hl. apply lookup_take_Some in Hl as [Hl _]. by apply Hi.
  - intros k. unfold log_truncate. simpl. rewrite map_lookup_filter, Hk.
    destruct (N.leb_spec first k); [|done]. destruct (decide (k < index id)) as [Hlt|Hge].
    + rewrite lookup_take_lt by lia. destruct (es !! _); simpl; [|done]. by rewrite option_guard_True.
    + rewrite lookup_take_ge by lia. destruct (es !! _); simpl; [|done]. by rewrite option_guard_False.
Qed.

Lemma log_purge_holds s first es id :
  holds_log s first es -> first <= index id + 1 ->
  holds_log (log_purge index id s) (index id + 1) (drop (N.to_nat (index id + 1 - first)) es).
Proof.
  intros [Hi Hk] Hle. split.
  - intros i e Hl. rewrite lookup_drop in Hl. rewrite (Hi _ _ Hl). lia.
  - intros k. unfold log_purge. simpl. rewrite map_lookup_filter, Hk.
    destruct (N.leb_spec (index id + 1) k) as [Hge|Hlt].
    + rewrite (proj2 (N.leb_le first k)) by lia. rewrite lookup_drop.
      replace (N.to_nat (index id + 1 - first) + N.to_nat (k - (index id + 1)))%nat with (N.to_nat (k - first)) by lia.
      destruct (es !! _); simpl; [|done]. rewrite option_guard_True; [done|simpl; lia].
    + destruct (if first <=? k then _ else _); simpl; [|done]. rewrite option_guard_False; [done|simpl; lia].
Qed.

(** What a reader sees. *)
Definition reads_as (s : store) es (purged : option LogId) : Prop :=
  (forall lo hi, range_panics lo hi = false ->
     try_get_log_entries lo hi s =
     Some (filter (fun e => above lo (index (entry_log_id e)) && below hi (index (entry_log_id e))) es)) /\
  get_log_state s = (purged, match last es with Some e => Some (entry_log_id e) | None => purged end).

Lemma filter_numbered (P : N -> bool) first es :
  (forall i e, es !! i = Some e -> index (entry_log_id e) = first + N.of_nat i) ->
  (filter (fun kv => P kv.1) (numbered first es)).*2 = filter (fun e => P (index (entry_log_id e))) es.
Proof.
  intros Hi.
  assert (numbered first es = (fun e => (index (entry_log_id e), e)) <$> es) as ->.
  { apply list_eq. intros i. unfold numbered. rewrite list_lookup_imap, list_lookup_fmap.
    destruct (es !! i) as [e|] eqn:E; [|done]. simpl. by rewrite (Hi i e E). }
  clear Hi. induction es as [|e es IH]; [done|]. rewrite fmap_cons, !filter_cons. cbn [fst].
  destruct (decide (P (index (entry_log_id e)))); [|done]. rewrite fmap_cons. by f_equal.
Qed.

Lemma holds_reads s first es : holds_log s first es -> reads_as s es (last_purged_log_id s).
Proof.
  intros Hs. split.
  - intros lo hi Hr. unfold try_get_log_entries. rewrite Hr, (holds_log_iter s first es Hs).
    f_equal. apply (filter_numbered (fun k => above lo k && below hi k)). apply Hs.
  - unfold get_log_state. by rewrite (holds_log_values s first es Hs).
Qed.

(** C31: the log store is a list of consecutively numbered entries: appending extends it,
    truncating at an entry drops that entry and all after it, purging drops up to and
    including an entry and remembers it, range reads return exactly the entries of the
    range in order, and the log state names the last entry or else the purged one. *)
Theorem log_store_refines s first es es' id :
  holds_log s first es -> reads_as s es (last_purged_log_id s) /\
  (consecutive (first + N.of_nat (length es)) es' ->
     let s' := log_append index es' s in
     holds_log s' first (es ++ es') /\ reads_as s' (es ++ es') (last_purged_log_id s)) /\
  (first <= index id ->
     let s' := log_truncate index id s in let kept := take (N.to_nat (index id - first)) es in
     holds_log s' first kept /\ reads_as s' kept (last_purged_log_id s)) /\
  (first <= index id + 1 ->
     let s' := log_purge index id s in let kept := drop (N.to_nat (index id + 1 - first)) es in
     holds_log s' (index id + 1) kept /\ reads_as s' kept (Some id)).
Proof.
  intros Hs. split_and!; [by eapply holds_reads|..]; intros Hpre; cbv zeta.
  - pose proof (log_append_holds s first es es' Hs Hpre) as Ha. split; [done|].
    replace (last_purged_log_id s) with (last_purged_log_id (log_append index es' s)); [by eapply holds_reads|].
    clear. unfold log_append. revert s. induction es' as [|e es' IH]; intros s; simpl; [done|]. by rewrite IH.
  - pose proof (log_truncate_holds s first es id Hs Hpre) as Ha. split; [done|].
    by apply (holds_reads _ _ _ Ha).
  - pose proof (log_purge_holds s first es id Hs Hpre) as Ha. split; [done|].
    by apply (holds_reads _ _ _ Ha).
Qed.

(** ** Proposals *)

(** The definitive answer of an attempt: none when no node leads or the write is refused
    for leadership. *)
Definition answer_of (a : Attempt) : option RaftReply :=
  match leader_of a with
  | None => None
  | Some id =>
      match client_write (write_to a id) with
      | Err (RcNotLeader _) => None
      | r => Some r
      end
  end.

Lemma propose_loop_spec fuel env i n :
  let '(r, n') := propose_loop fuel env i n in
  (n' <= n + fuel)%nat /\
  ((exists j, (i <= j < i + fuel)%nat /\ answer_of (env j) = Some r /\
      forall k, (i <= k < j)%nat -> answer_of (env k) = None) \/
   (r = Err (RcNotLeader None) /\ forall k, (i <= k < i + fuel)%nat -> answer_of (env k) = None)).
Proof.
  revert i n. induction fuel as [|fuel IH]; intros i n; cbn [propose_loop].
  { split; [lia|]. right. split; [done|]. lia. }
  destruct (answer_of (env i)) as [r|] eqn:Ea.
  - assert (forall w, leader_of (env i) = Some w -> client_write (write_to (env i) w) = r) as Hw.
    { intros w Ew. unfold answer_of in Ea. rewrite Ew in Ea. by destruct (client_write _) as [?|[| |]]; simplify_eq. }
    unfold answer_of in Ea. destruct (leader_of (env i)) as [w|] eqn:El; [|done].
    specialize (Hw w eq_refl). rewrite Hw in *.
    assert (exists j, (i <= j < i + S fuel)%nat /\ answer_of (env j) = Some r /\
      forall k, (i <= k < j)%nat -> answer_of (env k) = None) as Hj.
    { exists i. split_and!; [lia|lia| |lia]. unfold answer_of. by rewrite El, Hw. }
    destruct r as [resp|[| |]]; try done; (split; [lia|by left]).
  - match goal with |- let '(_, _) := ?t in _ =>
      assert (exists m, (n <= m <= S n)%nat /\ t = propose_loop fuel env (S i) m) as (m & Hm & ->) end.
    { unfold answer_of in Ea. destruct (leader_of (env i)); [|by exists n; split; [lia|]].
      destruct (client_write _) as [?|[| |]]; try done. exists (S n). split; [lia|done]. }
    specialize (IH (S i) m). destruct (propose_loop fuel env (S i) m) as [r n'].
    destruct IH as [Hn IH]. split; [lia|].
    destruct IH as [(j & Hj & Hr & Hall)|[Hr Hall]];
      [left; exists j; split_and!; [lia|lia|done|]|right; split; [done|]];
      intros k Hk; (destruct (decide (k = i)) as [->|]; [done|]); apply Hall; lia.
Qed.

(** A proposal always ends within ten attempts: with the answer of the first attempt
    that reached a leader, after which nothing more is proposed, or with NotLeader when
    none of the ten did. *)
Theorem propose_terminates env :
  let '(r, writes) := propose env in
  (writes <= 10)%nat /\
  ((exists i, (i < 10)%nat /\ answer_of (env i) = Some r /\
      forall j, (j < i)%nat -> answer_of (env j) = None) \/
   (r = Err (RcNotLeader None) /\ forall i, (i < 10)%nat -> answer_of (env i) = None)).
Proof.
  pose proof (propose_loop_spec 10 env 0 0) as Hs. unfold propose.
  destruct (propose_loop 10 env 0 0) as [r n]. destruct Hs as [Hn Hs]. split; [lia|].
  destruct Hs as [(i & Hi & Hr & Hall)|[Hr Hall]]; [left; exists i|right];
    split_and?; try done; try lia; intros j Hj; apply Hall; lia.
Qed.

(** ** The router *)

Section router.
Context {Handle : Type}.
Implicit Types (s : RouterState (Handle := Handle)).

Definition separated (s : RouterState (Handle := Handle)) (i j : N) : Prop :=
  exists a b, (a, b) ∈ partitions s /\ ((i ∈ a /\ j ∈ b) \/ (i ∈ b /\ j ∈ a)).

Lemma can_communicate_iff s i j :
  can_communicate s i j = true <-> (i ∉ isolated s) /\ (j ∉ isolated s) /\ ~ separated s i j.
Proof.
  unfold can_communicate, separated.
  destruct (bool_decide_reflect (i ∈ isolated s)); [split; [done|tauto]|].
  destruct (bool_decide_reflect (j ∈ isolated s)); [split; [done|tauto]|]. simpl.
  rewrite negb_true_iff, <- not_true_iff_false, existsb_exists. split.
  - intros Hn. split_and!; [done|done|]. intros (a & b & Hin & Hab). apply Hn. exists (a, b).
    split; [by apply list_elem_of_In|]. rewrite orb_true_iff, !andb_true_iff, !bool_decide_eq_true. done.
  - intros (_ & _ & Hn) ((a, b) & Hin & Hab). apply Hn. exists a, b. split; [by apply list_elem_of_In|].
    by rewrite orb_true_iff, !andb_true_iff, !bool_decide_eq_true in Hab.
Qed.

(** The router connects two nodes exactly when neither is isolated and no partition
    separates them; that is symmetric, a new partition separates exactly its two sides
    in addition, and healing connects every registered node again. *)
Theorem router_connectivity s i j a b :
  (can_communicate s i j = true <-> (i ∉ isolated s) /\ (j ∉ isolated s) /\ ~ separated s i j) /\
  can_communicate s i j = can_communicate s j i /\
  (separated (partition a b s) i j <-> separated s i j \/ (i ∈ a /\ j ∈ b) \/ (i ∈ b /\ j ∈ a)) /\
  get_target_raft i j (heal s) = router_nodes s !! j.
Proof.
  split_and!.
  - apply can_communicate_iff.
  - assert (forall x y, can_communicate s x y = true -> can_communicate s y x = true) as Hsym.
    { intros x y. rewrite !can_communicate_iff. unfold separated. naive_solver. }
    destruct (can_communicate s i j) eqn:E, (can_communicate s j i) eqn:E'; try done.
    + by rewrite (Hsym i j E) in E'.
    + by rewrite (Hsym j i E') in E.
  - unfold separated. simpl. setoid_rewrite elem_of_app. setoid_rewrite list_elem_of_singleton.
    split; [intros (x & y & [Hin|[= -> ->]] & Hxy); eauto 8|].
    intros [(x & y & Hin & Hxy)|Hab]; [by eauto 6|]. exists a, b. eauto.
  - unfold get_target_raft. by replace (can_communicate (heal s) i j) with true by done.
Qed.
End router.

End raft.

(** ** A worked replica *)

Definition payload_codec : SnapshotCodec.
Proof.
  refine {| payload_to_allocvec p :=
              bs ← to_allocvec (Postcard := varint_codec) p.2; Ok (put (scale_raw p.1) ++ bs);
            payload_from_bytes bs :=
              match get bs with
              | None => Err "truncated"%string
              | Some (sc, rest) =>
                  '(evs, _) ← take_from_bytes (Postcard := varint_codec) rest; Ok (mkScale sc, evs)
              end |}.
  intros [[sc] evs] bs Hp. apply bind_ok in Hp as (b & Hb & [= <-]). cbv beta. rewrite get_put.
  pose proof (take_to (Postcard := varint_codec) evs b [] Hb) as Ht. rewrite app_nil_r in Ht. by rewrite Ht.
Defined.

Definition demo_show (e : LedgerError) : string := "refused".
Definition demo_log : list (Entry (LogId := N) (Membership := list N)) :=
  [mkEntry 0 (EpMembership [1; 2; 3]);
   mkEntry 1 (EpNormal (RqCreateAccount 1 Asset flags_unrestricted Scale_usd 10));
   mkEntry 2 (EpNormal (RqCreateAccount 2 Liability flags_unrestricted Scale_usd 11));
   mkEntry 3 EpBlank;
   mkEntry 4 (EpNormal (RqCreateTransfer (mkTransfer 7 1 2 100 Posted None 12)));
   mkEntry 5 (EpNormal (RqCreateTransfer (mkTransfer 8 1 9 100 Posted None 13)))].
Definition demo_machine : StateMachine (LogId := N) (Membership := list N) :=
  StateMachine_new [] Scale_usd.
Definition demo_applied : StateMachine (LogId := N) (Membership := list N) :=
  (apply_entries demo_show demo_log demo_machine).1.

(** The last request names an unknown account and is refused; the others are answered. *)
Example demo_replies :
  (apply_entries demo_show demo_log demo_machine).2 =
  [Ok RsBlank; Ok (RsAccountCreated 1); Ok (RsAccountCreated 2); Ok RsBlank;
   Ok (RsTransferCreated 7); Err (RcLedger "refused")].
Proof. vm_compute. reflexivity. Qed.

Lemma replica_matches_single_writer_witness :
  let reqs := omap request_of demo_log in
  let '(l, results) := prepare_transactions (request_ops <$> reqs) (sm_ledger demo_machine) in
  l = sm_ledger demo_machine /\ commit_events (accepted results) l = (sm_ledger demo_applied, Ok tt) /\
  length (apply_entries demo_show demo_log demo_machine).2 = length demo_log /\
  request_replies demo_log (apply_entries demo_show demo_log demo_machine).2 =
    zip_with (reply_of demo_show) reqs results.
Proof.
  apply (replica_matches_single_writer demo_show demo_log demo_machine demo_applied).
  apply surjective_pairing.
Defined.

Definition demo_snapshot : RaftSnapshot (LogId := N) (Membership := list N) :=
  match build_snapshot (H := payload_codec) (get_snapshot_builder id 1000 demo_applied) with
  | Ok snap => snap
  | Err _ => mkSnapshot (mkSnapMeta None (mkMembership None []) "") []
  end.

Lemma snapshot_catch_up_witness :
  exists caught, install_snapshot (H := payload_codec) demo_show (snap_meta demo_snapshot)
      (snap_data demo_snapshot) demo_machine = (caught, Ok tt) /\
    forall es2, same_replica (apply_entries demo_show es2 caught).1 (apply_entries demo_show es2 demo_applied).1 /\
      (apply_entries demo_show es2 caught).2 = (apply_entries demo_show es2 demo_applied).2.
Proof.
  apply (snapshot_catch_up (H := payload_codec) demo_show id [] Scale_usd demo_log 1000 demo_snapshot demo_machine).
  vm_compute. reflexivity.
Defined.

Definition demo_caught : StateMachine (LogId := N) (Membership := list N) :=
  (install_snapshot (H := payload_codec) demo_show (snap_meta demo_snapshot)
     (snap_data demo_snapshot) demo_machine).1.

Lemma demo_install :
  install_snapshot (H := payload_codec) demo_show (snap_meta demo_snapshot)
    (snap_data demo_snapshot) demo_machine = (demo_caught, Ok tt).
Proof. vm_compute. reflexivity. Qed.

Lemma install_snapshot_safe_witness :
  ledger_inv (sm_ledger demo_caught) /\
  last_applied_log_id demo_caught = meta_last_log_id (snap_meta demo_snapshot) /\
  exists sc evs, payload_from_bytes (SnapshotCodec := payload_codec) (snap_data demo_snapshot) = Ok (sc, evs) /\
    run (Ledger_new sc) evs (sm_ledger demo_caught).
Proof.
  exact (install_snapshot_safe (H := payload_codec) demo_show _ _ _ demo_caught (Ok tt) demo_install).
Defined.

Definition demo_store : LogStore (LogId := N) (Membership := list N) (Vote := unit) :=
  log_append id demo_log LogStore_new.

Lemma log_store_refines_witness :
  let s' := log_purge id 2 demo_store in
  holds_log id s' 3 (drop 3 demo_log) /\ reads_as id s' (drop 3 demo_log) (Some 2).
Proof.
  assert (holds_log id (LogStore_new (LogId := N) (Membership := list N) (Vote := unit)) 0 []) as H0.
  { split; [done|]. intros k. simpl. rewrite lookup_empty. by destruct (0 <=? k). }
  pose proof (log_append_holds id _ 0 [] demo_log H0) as Ha.
  apply (log_store_refines id demo_store 0 demo_log [] 2); [apply Ha; vm_compute; by split_and!|done].
Defined.
