(* ===== verification/RaftCluster.v ===== *)
(** * Nodes and clusters

    [crates/raft/src/node.rs], [crates/raft/src/cluster.rs] and the network clients of
    [crates/raft/src/network.rs].  The consensus engine and the timer are the libraries':
    a class of operations on a world that the model does not look into.  Every operation
    gets the router, which the engine's tasks consult through their network clients. *)

From S2P Require Import Prelude Error Amount Account Transfer Ledger LedgerBatch Bytes Raft.
#[local] Open Scope N_scope.

Record Config : Type := mkConfig {
  heartbeat_interval : N;
  election_timeout_min : N;
  election_timeout_max : N;
}.

(** [openraft] and [tokio::time], in milliseconds.  A sleep lasts at least as long as it
    was asked to. *)
Class Openraft : Type := {
  World : Type;
  RaftHandle : Type;
  Rpc : Type;
  RpcReply : Type;
  validate : Config -> result string Config;
  raft_new : N -> Config -> Scale -> RouterState (Handle := RaftHandle) -> World -> World * result string RaftHandle;
  raft_initialize : RaftHandle -> gmap N string -> RouterState (Handle := RaftHandle) -> World ->
    World * result string unit;
  raft_is_leader : RaftHandle -> World -> bool;
  raft_client_write : RaftHandle -> RaftRequest -> RouterState (Handle := RaftHandle) -> World ->
    World * ClientWrite;
  raft_rpc : RaftHandle -> Rpc -> RouterState (Handle := RaftHandle) -> World -> World * result string RpcReply;
  raft_shutdown : RaftHandle -> World -> World * result string unit;
  now : World -> N;
  sleep : N -> RouterState (Handle := RaftHandle) -> World -> World;
  sleep_lasts d r w : now w + d <= now (sleep d r w);
}.

Section cluster.
Context `{Openraft}.

Abbreviation Router := (RouterState (Handle := RaftHandle)).

(** ** Network clients *)

Inductive RPCError : Type :=
| Unreachable
| RemoteError (target : N) (e : string).

Record RouterNetwork : Type := mkNetwork { net_source : N; net_target : N }.
Definition new_client (source target : N) : RouterNetwork := mkNetwork source target.

(** [append_entries] and [vote]. *)
Definition send_rpc (self : RouterNetwork) (rpc : Rpc) (router : Router) (w : World) :
    World * result RPCError RpcReply :=
  match get_target_raft (net_source self) (net_target self) router with
  | None => (w, Err Unreachable)
  | Some raft =>
      let '(w, r) := raft_rpc raft rpc router w in (w, map_err (RemoteError (net_target self)) r)
  end.
(** [install_snapshot] looks the target up by itself. *)
Definition send_snapshot (self : RouterNetwork) (rpc : Rpc) (router : Router) (w : World) :
    World * result RPCError RpcReply :=
  if negb (can_communicate router (net_source self) (net_target self)) then (w, Err Unreachable)
  else
    match router_nodes router !! net_target self with
    | None => (w, Err Unreachable)
    | Some raft =>
        let '(w, r) := raft_rpc raft rpc router w in (w, map_err (RemoteError (net_target self)) r)
    end.

(** ** Nodes *)

Record ConsensusNode : Type := mkNode { node_id : N; node_raft : RaftHandle }.

Definition ConsensusNode_new (id : N) (config : Config) (scale : Scale) (router : Router) (w : World) :
    Router * World * result string ConsensusNode :=
  match raft_new id config scale router w with
  | (w, Err fatal) => (router, w, Err fatal)
  | (w, Ok raft) => (register id raft router, w, Ok (mkNode id raft))
  end.

Definition node_is_leader (n : ConsensusNode) (w : World) : bool := raft_is_leader (node_raft n) w.

(** ** Clusters *)

Inductive RaftClusterError : Type :=
| LeaderTimeout (timeout : N)
| Initialize (msg : string)
| ClusterFatal (msg : string)
| NodeNotFound (id : N)
| ShutdownError (msg : string).

Record RaftCluster : Type := mkRaftCluster { cluster_nodes : gmap N ConsensusNode; cluster_router : Router }.

Definition cluster_config : Config := mkConfig 50 150 300.
Definition members : gmap N string :=
  <[1 := "127.0.0.1:21001"%string]> (<[2 := "127.0.0.1:21002"%string]> (<[3 := "127.0.0.1:21003"%string]> ∅)).

Definition new_3node (scale : Scale) (w : World) : World * result RaftClusterError RaftCluster :=
  match validate cluster_config with
  | Err e => (w, Err (Initialize e))
  | Ok config =>
      match ConsensusNode_new 1 config scale Router_new w with
      | (_, w, Err e) => (w, Err (ClusterFatal e))
      | (router, w, Ok node1) =>
          match ConsensusNode_new 2 config scale router w with
          | (_, w, Err e) => (w, Err (ClusterFatal e))
          | (router, w, Ok node2) =>
              match ConsensusNode_new 3 config scale router w with
              | (_, w, Err e) => (w, Err (ClusterFatal e))
              | (router, w, Ok node3) =>
                  match raft_initialize (node_raft node1) members router w with
                  | (w, Err e) => (w, Err (Initialize e))
                  | (w, Ok _) => (w, Ok (mkRaftCluster (<[1 := node1]> (<[2 := node2]> (<[3 := node3]> ∅))) router))
                  end
              end
          end
      end
  end.

(** The first leader in the order of the map. *)
Definition leader_in (self : RaftCluster) (w : World) : option (N * ConsensusNode) :=
  head (filter (fun p => node_is_leader p.2 w = true) (btree_iter (cluster_nodes self))).

(** The polling loop; [None] when the fuel is used up. *)
Fixpoint wait_loop (fuel : nat) (self : RaftCluster) (start timeout : N) (w : World) :
    World * option (result RaftClusterError N) :=
  match fuel with
  | O => (w, None)
  | S fuel =>
      if now w - start <? timeout then
        match leader_in self w with
        | Some (id, _) => (w, Some (Ok id))
        | None => wait_loop fuel self start timeout (sleep 15 (cluster_router self) w)
        end
      else (w, Some (Err (LeaderTimeout timeout)))
  end.
Definition wait_for_leader (self : RaftCluster) (timeout : N) (w : World) :
    World * option (result RaftClusterError N) :=
  wait_loop (S (S (N.to_nat (timeout / 15)))) self (now w) timeout w.

(** The loop of [propose] over the world. *)
Fixpoint cluster_propose_loop (fuel : nat) (self : RaftCluster) (request : RaftRequest) (w : World) :
    World * RaftReply :=
  match fuel with
  | O => (w, Err (RcNotLeader None))
  | S fuel =>
      match leader_in self w with
      | Some (_, n) =>
          match cluster_nodes self !! node_id n with
          | Some node =>
              let '(w, res) := raft_client_write (node_raft node) request (cluster_router self) w in
              match client_write res with
              | Ok resp => (w, Ok resp)
              | Err (RcNotLeader _) =>
                  cluster_propose_loop fuel self request (sleep 30 (cluster_router self) w)
              | Err err => (w, Err err)
              end
          | None => cluster_propose_loop fuel self request (sleep 30 (cluster_router self) w)
          end
      | None => cluster_propose_loop fuel self request (sleep 30 (cluster_router self) w)
      end
  end.
Definition cluster_propose (self : RaftCluster) (request : RaftRequest) (w : World) : World * RaftReply :=
  cluster_propose_loop 10 self request w.

Definition with_router (f : Router -> Router) (self : RaftCluster) : RaftCluster :=
  mkRaftCluster (cluster_nodes self) (f (cluster_router self)).
Definition cluster_isolate (node_id : N) : RaftCluster -> RaftCluster := with_router (isolate node_id).
Definition cluster_unisolate (node_id : N) : RaftCluster -> RaftCluster := with_router (unisolate node_id).
Definition cluster_partition (set_a set_b : list N) : RaftCluster -> RaftCluster :=
  with_router (partition (list_to_set set_a) (list_to_set set_b)).
Definition cluster_heal : RaftCluster -> RaftCluster := with_router heal.

Definition kill_node (id : N) (self : RaftCluster) (w : World) :
    RaftCluster * World * result RaftClusterError unit :=
  match cluster_nodes self !! id with
  | Some node =>
      let self := mkRaftCluster (delete id (cluster_nodes self)) (unregister id (cluster_router self)) in
      let '(w, r) := raft_shutdown (node_raft node) w in
      (self, w, map_err ShutdownError r)
  | None => (self, w, Err (NodeNotFound id))
  end.

(** Errors of single nodes are ignored. *)
Definition shutdown_one (s : Router * World) (p : N * ConsensusNode) : Router * World :=
  (unregister p.1 s.1, (raft_shutdown (node_raft p.2) s.2).1).
Definition cluster_shutdown (self : RaftCluster) (w : World) : RaftCluster * World :=
  let '(router, w) := foldl shutdown_one (cluster_router self, w) (btree_iter (cluster_nodes self)) in
  (mkRaftCluster ∅ router, w).

End cluster.
