(* ===== verification/RaftClusterProps.v ===== *)
(** * Properties of nodes and clusters

    Which calls get through whatever faults are injected, that waiting for a leader and
    proposing end, and how a proposal over the world refines the proposal loop of [Raft]. *)

From S2P Require Import Prelude Error Amount Account Transfer Ledger LedgerBatch Bytes Raft RaftProps RaftCluster.
#[local] Open Scope N_scope.

Section cluster.
Context `{Openraft}.

(** ** Wiring *)

(** The router knows exactly the nodes of the cluster, each under its own number. *)
Record wired (c : RaftCluster) : Prop := {
  wr_nodes : router_nodes (cluster_router c) = node_raft <$> cluster_nodes c;
  wr_ids : forall id n, cluster_nodes c !! id = Some n -> node_id n = id;
}.

Inductive Fault : Type :=
| Isolate (id : N)
| Unisolate (id : N)
| Partition (set_a set_b : list N)
| Heal
| Kill (id : N)
| Shutdown.

Definition inject (s : RaftCluster * World) (f : Fault) : RaftCluster * World :=
  let '(c, w) := s in
  match f with
  | Isolate id => (cluster_isolate id c, w)
  | Unisolate id => (cluster_unisolate id c, w)
  | Partition a b => (cluster_partition a b c, w)
  | Heal => (cluster_heal c, w)
  | Kill id => (kill_node id c w).1
  | Shutdown => cluster_shutdown c w
  end.

Lemma ConsensusNode_new_ok id config scale router w router' w' n :
  ConsensusNode_new id config scale router w = (router', w', Ok n) ->
  router' = register id (node_raft n) router /\ node_id n = id.
Proof.
  unfold ConsensusNode_new. destruct (raft_new _ _ _ _ _) as [w1 [raft|e]]; intros E; simplify_eq. done.
Qed.

Lemma new_3node_wired scale w w' c : new_3node scale w = (w', Ok c) -> wired c /\ dom (cluster_nodes c) = {[1; 2; 3]}.
Proof.
  unfold new_3node. destruct (validate cluster_config) as [config|]; [|done].
  destruct (ConsensusNode_new 1 config scale Router_new w) as [[r1 w1] [n1|]] eqn:E1; [|done].
  destruct (ConsensusNode_new 2 config scale r1 w1) as [[r2 w2] [n2|]] eqn:E2; [|done].
  destruct (ConsensusNode_new 3 config scale r2 w2) as [[r3 w3] [n3|]] eqn:E3; [|done].
  destruct (raft_initialize _ _ _ _) as [w4 [[]|]]; [|done]. intros [= <- <-].
  apply ConsensusNode_new_ok in E1 as [-> I1]. apply ConsensusNode_new_ok in E2 as [-> I2].
  apply ConsensusNode_new_ok in E3 as [-> I3]. split; [split|].
  - cbn. rewrite !fmap_insert, fmap_empty. apply map_eq. intros i.
    rewrite !lookup_insert. repeat case_decide; congruence.
  - intros id n. cbn. rewrite !lookup_insert. repeat case_decide; naive_solver.
  - cbn. set_solver.
Qed.

Lemma shutdown_unregisters ps s : router_nodes (foldl shutdown_one s ps).1 = foldl (fun m p => delete p.1 m) (router_nodes s.1) ps.
Proof. revert s. induction ps as [|p ps IH]; intros s; cbn; [done|]. by rewrite IH. Qed.

Lemma delete_all {A B} (ps : list (N * A)) (m : gmap N B) i :
  (is_Some (m !! i) -> i ∈ ps.*1) -> foldl (fun m p => delete p.1 m) m ps !! i = None.
Proof.
  revert m. induction ps as [|p ps IH]; intros m Hi; cbn.
  - destruct (m !! i) eqn:E; [|done]. specialize (Hi (mk_is_Some _ _ eq_refl)). by apply elem_of_nil in Hi.
  - apply IH. intros [x Hx]. apply lookup_delete_Some in Hx as [Hne Hx].
    specialize (Hi (mk_is_Some _ _ Hx)). cbn in Hi. apply elem_of_cons in Hi as [->|?]; done.
Qed.

Lemma inject_wired s f : wired s.1 -> wired (inject s f).1.
Proof.
  destruct s as [c w]. intros [Hr Hi]. cbn in Hr, Hi. destruct f as [id|id|a b| |id|]; cbn; try (by split).
  - unfold kill_node. destruct (cluster_nodes c !! id) as [n|] eqn:E; [|by split].
    destruct (raft_shutdown (node_raft n) w) as [w' r]. split; cbn.
    + by rewrite Hr, fmap_delete.
    + intros i m Hm. apply lookup_delete_Some in Hm as [_ Hm]. by apply Hi.
  - unfold cluster_shutdown. destruct (foldl shutdown_one _ _) as [router w'] eqn:E. split; cbn; [|done].
    rewrite fmap_empty. apply (f_equal (fun s => router_nodes s.1)) in E. cbn in E. rewrite <- E, shutdown_unregisters.
    cbn. apply map_empty. intros i. apply delete_all. rewrite Hr, lookup_fmap. intros [x Hx].
    apply fmap_Some in Hx as (n & Hn & _). apply list_elem_of_fmap. exists (i, n). split; [done|].
    by apply elem_of_btree_iter.
Qed.

Lemma injected_wired fs s : wired s.1 -> wired (foldl inject s fs).1.
Proof. revert s. induction fs as [|f fs IH]; intros s Hs; cbn; [done|]. by apply IH, inject_wired. Qed.

(** Whatever faults are injected into a new cluster, a call from one node to another
    reaches the handle of the node it names if that node has not been killed and no
    isolation or partition separates the two, and otherwise fails as unreachable without
    any effect; snapshots travel the same way as the other calls. *)
Theorem calls_reach_the_living scale w0 w1 c0 fs i j rpc :
  new_3node scale w0 = (w1, Ok c0) ->
  let '(c, w) := foldl inject (c0, w1) fs in
  send_rpc (new_client i j) rpc (cluster_router c) w =
    (match cluster_nodes c !! j with
     | Some n =>
         if can_communicate (cluster_router c) i j
         then let '(w', r) := raft_rpc (node_raft n) rpc (cluster_router c) w in (w', map_err (RemoteError j) r)
         else (w, Err Unreachable)
     | None => (w, Err Unreachable)
     end) /\
  send_snapshot (new_client i j) rpc (cluster_router c) w = send_rpc (new_client i j) rpc (cluster_router c) w.
Proof.
  intros Hn. apply new_3node_wired in Hn as [Hw _]. pose proof (injected_wired fs (c0, w1) Hw) as Hc.
  destruct (foldl inject (c0, w1) fs) as [c w]. destruct Hc as [Hr _]. cbn in Hr.
  unfold send_rpc, send_snapshot, get_target_raft. cbn [net_source net_target new_client].
  destruct (can_communicate (cluster_router c) i j); cbn; rewrite ?Hr, ?lookup_fmap; by destruct (cluster_nodes c !! j).
Qed.

(** ** Waiting for a leader *)

(** The world after [k] polls. *)
Definition polled (c : RaftCluster) (k : nat) (w : World) : World := Nat.iter k (sleep 15 (cluster_router c)) w.

Lemma polled_later c k w : now w + 15 * N.of_nat k <= now (polled c k w).
Proof.
  induction k as [|k IH]; [cbn; lia|]. rewrite Nat2N.inj_succ. change (polled c (S k) w) with (sleep 15 (cluster_router c) (polled c k w)).
  pose proof (sleep_lasts 15 (cluster_router c) (polled c k w)). lia.
Qed.
Lemma polled_S c k w : polled c k (sleep 15 (cluster_router c) w) = polled c (S k) w.
Proof. unfold polled. by rewrite Nat.iter_succ_r. Qed.

(** The outcome after [k] polls without a leader. *)
Definition waited (c : RaftCluster) (start timeout : N) (w : World) (k : nat) (r : result RaftClusterError N) : Prop :=
  (forall j, (j < k)%nat -> leader_in c (polled c j w) = None) /\
  match r with
  | Ok id => now (polled c k w) - start < timeout /\ fst <$> leader_in c (polled c k w) = Some id
  | Err e => e = LeaderTimeout timeout /\ timeout <= now (polled c k w) - start
  end.

Lemma wait_loop_ends fuel c start timeout w :
  start <= now w -> (0 < fuel)%nat -> timeout <= now w - start + 15 * (N.of_nat fuel - 1) ->
  exists k r, wait_loop fuel c start timeout w = (polled c k w, Some r) /\ (k < fuel)%nat /\
    waited c start timeout w k r.
Proof.
  revert w. induction fuel as [|fuel IH]; intros w Hst Hpos Hf; [lia|]. cbn [wait_loop].
  destruct (N.ltb_spec (now w - start) timeout) as [Hlt|Hge].
  2: { exists 0%nat, (Err (LeaderTimeout timeout)). split; [done|]. split; [lia|]. split; [lia|done]. }
  destruct (leader_in c w) as [[id n]|] eqn:El.
  { exists 0%nat, (Ok id). split; [done|]. split; [lia|]. split; [lia|]. split; [done|]. cbn. by rewrite El. }
  pose proof (sleep_lasts 15 (cluster_router c) w) as Hs.
  destruct (IH (sleep 15 (cluster_router c) w)) as (k & r & Ek & Hk & Hb & Hr); [lia|lia|lia|].
  rewrite polled_S in Ek, Hr. exists (S k), r. split; [done|]. split; [lia|]. split; [|done].
  intros [|j] Hj; [done|]. rewrite <- polled_S. apply Hb. lia.
Qed.

Lemma StronglySorted_filter {A} (R : relation A) (P : A -> Prop) `{!forall x, Decision (P x)} l :
  StronglySorted R l -> StronglySorted R (filter P l).
Proof.
  induction 1 as [|x l Hs IH Hx]; [constructor|]. rewrite filter_cons. case_decide; [|done].
  constructor; [done|]. rewrite Forall_forall in *. intros y Hy. apply list_elem_of_filter in Hy as [_ Hy]. by apply Hx.
Qed.

Lemma leader_in_first c w id n :
  leader_in c w = Some (id, n) ->
  cluster_nodes c !! id = Some n /\ node_is_leader n w = true /\
  forall id' n', cluster_nodes c !! id' = Some n' -> node_is_leader n' w = true -> id <= id'.
Proof.
  unfold leader_in. pose proof (btree_iter_sorted (cluster_nodes c)) as Hs.
  pose proof (fun k v => elem_of_btree_iter (cluster_nodes c) k v) as Hin.
  intros Hh. destruct (filter _ _) as [|p rest] eqn:Ef; [done|]. cbn in Hh. simplify_eq.
  assert (Hall : forall k v, cluster_nodes c !! k = Some v -> node_is_leader v w = true -> (k, v) ∈ (id, n) :: rest).
  { intros k v Hk Hl. rewrite <- Ef. apply list_elem_of_filter. split; [done|]. by apply Hin. }
  assert ((id, n) ∈ filter (fun p => node_is_leader p.2 w = true) (btree_iter (cluster_nodes c))) as Hm
    by (rewrite Ef; by left).
  apply list_elem_of_filter in Hm as [Hl Hm]. split; [by apply Hin|]. split; [done|].
  intros id' n' Hn' Hl'. specialize (Hall id' n' Hn' Hl'). apply elem_of_cons in Hall as [?|Hr]; [by simplify_eq|].
  apply Sorted_StronglySorted in Hs; [|intros x y z; unfold key_le; lia].
  assert (StronglySorted key_le ((id, n) :: rest)) as Hss.
  { rewrite <- Ef. apply StronglySorted_filter. exact Hs. }
  inversion Hss as [|? ? _ Hfa]; subst. rewrite Forall_forall in Hfa. exact (Hfa _ Hr).
Qed.

(** Waiting for a leader ends, after at most one poll for every fifteen milliseconds of
    the timeout and one more: with the first node in order that leads at the first poll at
    which any does, or with a timeout that has really elapsed, no poll having seen a leader. *)
Theorem wait_for_leader_ends c timeout w :
  exists k r, wait_for_leader c timeout w = (polled c k w, Some r) /\ N.of_nat k <= timeout / 15 + 1 /\
    (forall j, (j < k)%nat -> leader_in c (polled c j w) = None) /\
    match r with
    | Ok id => exists n, cluster_nodes c !! id = Some n /\ node_is_leader n (polled c k w) = true /\
        (forall id' n', cluster_nodes c !! id' = Some n' -> node_is_leader n' (polled c k w) = true -> id <= id')
    | Err e => e = LeaderTimeout timeout /\ now w + timeout <= now (polled c k w)
    end.
Proof.
  unfold wait_for_leader. pose proof (N.div_mod timeout 15 ltac:(lia)) as Hd.
  pose proof (N.mod_lt timeout 15 ltac:(lia)) as Hm.
  destruct (wait_loop_ends (S (S (N.to_nat (timeout / 15)))) c (now w) timeout w) as (k & r & Ek & Hk & Hb & Hr);
    [lia|lia|lia|].
  exists k, r. split; [done|]. split; [lia|]. split; [done|]. destruct r as [id|e].
  - destruct Hr as [_ Hl]. destruct (leader_in c (polled c k w)) as [[id' n]|] eqn:El; [|done]. cbn in Hl. simplify_eq.
    exists n. by apply leader_in_first.
  - destruct Hr as [-> Ht]. split; [done|]. pose proof (polled_later c k w). lia.
Qed.

(** ** Proposals over the world *)

(** What the attempt in world [w] observes, and the world that a failed attempt leaves. *)
Definition attempt_in (c : RaftCluster) (request : RaftRequest) (w : World) : Attempt :=
  mkAttempt ((fun p => (node_id p.2, node_is_leader p.2 w)) <$> btree_iter (cluster_nodes c))
    (fun id => match cluster_nodes c !! id with
               | Some n => (raft_client_write (node_raft n) request (cluster_router c) w).2
               | None => ForwardToLeader None
               end).
Definition after_attempt (c : RaftCluster) (request : RaftRequest) (w : World) : World :=
  sleep 30 (cluster_router c)
    match leader_in c w with
    | Some (_, n) =>
        match cluster_nodes c !! node_id n with
        | Some node => (raft_client_write (node_raft node) request (cluster_router c) w).1
        | None => w
        end
    | None => w
    end.
Definition attempts (c : RaftCluster) (request : RaftRequest) (w : World) (i : nat) : Attempt :=
  attempt_in c request (Nat.iter i (after_attempt c request) w).

Lemma leader_of_attempt c request w :
  leader_of (attempt_in c request w) = (fun p => node_id p.2) <$> leader_in c w.
Proof.
  unfold leader_of, leader_in. cbn. induction (btree_iter (cluster_nodes c)) as [|[id n] ps IH]; [done|].
  rewrite filter_cons. cbn [fst snd]. destruct (decide (node_is_leader n w = true)) as [E|E]; cbn.
  - by rewrite E.
  - apply not_true_is_false in E. rewrite E. exact IH.
Qed.

Lemma propose_loop_refines fuel c request w i n :
  wired c ->
  (cluster_propose_loop fuel c request (Nat.iter i (after_attempt c request) w)).2 =
  (propose_loop fuel (attempts c request w) i n).1.
Proof.
  intros Hw. revert i n. induction fuel as [|fuel IH]; intros i n; [done|].
  cbn [cluster_propose_loop propose_loop]. unfold attempts at 1 2 3.
  set (wi := Nat.iter i (after_attempt c request) w). rewrite leader_of_attempt.
  assert (Nat.iter (S i) (after_attempt c request) w = after_attempt c request wi) as Hn by done.
  destruct (leader_in c wi) as [[id node]|] eqn:El; cbn.
  - destruct (leader_in_first _ _ _ _ El) as (Hnode & _ & _). rewrite (wr_ids _ Hw _ _ Hnode), Hnode.
    destruct (raft_client_write (node_raft node) request (cluster_router c) wi) as [w' res] eqn:Ew. cbn.
    destruct (client_write res) as [resp|[msg|lead|msg]]; try done.
    assert (after_attempt c request wi = sleep 30 (cluster_router c) w') as Ha.
    { unfold after_attempt. by rewrite El, (wr_ids _ Hw _ _ Hnode), Hnode, Ew. }
    by rewrite <- IH, Hn, Ha.
  - assert (after_attempt c request wi = sleep 30 (cluster_router c) wi) as Ha by (unfold after_attempt; by rewrite El).
    by rewrite <- IH, Hn, Ha.
Qed.

(** C38: a proposal to the cluster answers what the proposal loop answers on the attempts
    that it really makes, each in the world that the failed ones before it left, and it
    ends within ten of them: with the answer of the first attempt that reached a leader,
    or with NotLeader when none of the ten did. *)
Theorem cluster_propose_ends scale w0 w1 c0 fs request :
  new_3node scale w0 = (w1, Ok c0) ->
  let '(c, w) := foldl inject (c0, w1) fs in
  let r := (cluster_propose c request w).2 in
  r = (propose (attempts c request w)).1 /\
  ((exists i, (i < 10)%nat /\ answer_of (attempts c request w i) = Some r /\
      forall j, (j < i)%nat -> answer_of (attempts c request w j) = None) \/
   (r = Err (RcNotLeader None) /\ forall i, (i < 10)%nat -> answer_of (attempts c request w i) = None)).
Proof.
  intros Hn. apply new_3node_wired in Hn as [Hw _]. pose proof (injected_wired fs (c0, w1) Hw) as Hc.
  destruct (foldl inject (c0, w1) fs) as [c w].
  pose proof (propose_loop_refines 10 c request w 0 0 Hc) as Hr. fold (propose (attempts c request w)) in Hr.
  split; [exact Hr|]. unfold cluster_propose. cbn [Nat.iter nat_rect] in Hr. rewrite Hr.
  pose proof (propose_loop_spec 10 (attempts c request w) 0 0) as Hs. unfold propose.
  destruct (propose_loop 10 (attempts c request w) 0 0) as [r n]. destruct Hs as [_ Hs]. cbn [fst].
  destruct Hs as [(i & Hi & Ha & Hall)|[-> Hall]]; [left; exists i; split; [lia|]; split; [done|]|right; split; [done|]];
    intros j Hj; apply Hall; lia.
Qed.

End cluster.

(** ** A worked cluster *)

(** An engine in which node 2 leads from a hundred milliseconds on; the world is the time,
    and a node answers a call with its number. *)
Definition toy_openraft : Openraft.
Proof.
  refine {| World := N; RaftHandle := N; Rpc := unit; RpcReply := N;
            validate config := Ok config;
            raft_new id _ _ _ w := (w + 1, Ok id);
            raft_initialize _ _ _ w := (w, Ok tt);
            raft_is_leader h w := (h =? 2) && (100 <=? w);
            raft_client_write h _ _ w :=
              (w + 1, if h =? 2 then WriteApplied (Ok RsBlank) else ForwardToLeader (Some 2));
            raft_rpc h _ _ w := (w + 1, Ok h);
            raft_shutdown _ w := (w, Err "already stopped"%string);
            now w := w; sleep d _ w := w + d |}.
  lia.
Defined.
#[local] Existing Instance toy_openraft.

Definition toy_cluster : RaftCluster :=
  match new_3node Scale_usd 0 with (_, Ok c) => c | (_, Err _) => mkRaftCluster ∅ Router_new end.

Lemma toy_cluster_new : new_3node Scale_usd 0 = (3, Ok toy_cluster).
Proof. reflexivity. Qed.

Lemma calls_reach_the_living_witness :
  let '(c, w) := foldl inject (toy_cluster, 3) [Partition [1] [2; 3]; Isolate 3; Heal; Kill 2; Partition [1] [3]] in
  send_rpc (new_client 1 3) tt (cluster_router c) w = (w, Err Unreachable) /\
  send_rpc (new_client 3 2) tt (cluster_router c) w = (w, Err Unreachable) /\
  send_rpc (new_client 2 3) tt (cluster_router c) w = (w + 1, Ok 3) /\
  send_snapshot (new_client 2 3) tt (cluster_router c) w = send_rpc (new_client 2 3) tt (cluster_router c) w.
Proof.
  pose proof (calls_reach_the_living Scale_usd 0 3 toy_cluster
    [Partition [1] [2; 3]; Isolate 3; Heal; Kill 2; Partition [1] [3]] 2 3 tt toy_cluster_new) as Hc.
  split; [by vm_compute|]. split; [by vm_compute|]. split; [by vm_compute|]. exact (proj2 Hc).
Defined.

Lemma wait_for_leader_ends_witness :
  (exists k r, wait_for_leader toy_cluster 60 3 = (polled toy_cluster k 3, Some r) /\ N.of_nat k <= 5) /\
  wait_for_leader toy_cluster 60 3 = (63, Some (Err (LeaderTimeout 60))) /\
  wait_for_leader toy_cluster 500 3 = (108, Some (Ok 2)).
Proof.
  split; [|by vm_compute].
  destruct (wait_for_leader_ends toy_cluster 60 3) as (k & r & E & Hk & _). exists k, r. by split.
Defined.

Lemma cluster_propose_ends_witness :
  (cluster_propose toy_cluster (RqCloseAccount 1 5) 3).2 =
    (propose (attempts toy_cluster (RqCloseAccount 1 5) 3)).1 /\
  cluster_propose toy_cluster (RqCloseAccount 1 5) 3 = (124, Ok RsBlank).
Proof.
  split; [|by vm_compute].
  exact (proj1 (cluster_propose_ends Scale_usd 0 3 toy_cluster [] (RqCloseAccount 1 5) toy_cluster_new)).
Defined.
