(* ===== verification/Payment.v ===== *)
(** * The payment domain of the demo application

    [apps/demo/src/{error,payment,idempotency,webhook,reconciliation}.rs]: the payment
    life cycle, the accounts of merchants and customers, the idempotency store, webhook
    checks and the three-way audit.  HMAC-SHA256 is a parameter. *)

From Stdlib Require Import Ascii.
From S2P Require Import Bytes Error Amount Account Transfer Ledger Merkle Settle.
From stdpp Require Import list strings gmap.
From S2P Require Import Prelude.
#[local] Open Scope N_scope.
#[local] Open Scope st_scope.

(** ** Errors *)

Inductive PaymentState : Type := Authorized | Captured | PVoided | Refunded.

#[global] Instance PaymentState_eq_dec : EqDecision PaymentState.
Proof. solve_decision. Defined.

Inductive PaymentError : Type :=
| InvalidStateTransition (payment_id : N) (from to : PaymentState)
| PaymentNotFound (payment_id : N)
| PyLedger (e : LedgerError)
| PyAmountOverflow.

Inductive WebhookError : Type :=
| MissingSignature
| InvalidSignature
| ExpiredTimestamp (age_seconds max_allowed : N)
| DuplicateEventId (event_id : string)
| PayloadError (msg : string).

Inductive IdempotencyError : Type := ConcurrentRequest (key : string).

Inductive ReconciliationError : Type :=
| RcAmountOverflow
| AmountExceedsSignedRange
| RcAccountNotFound (id : N).

(** ** Payments *)

Record Payment : Type := mkPayment {
  pay_id : N;
  merchant_id : N;
  customer_id : N;
  pay_amount : N;
  fee_amount : N;
  pay_state : PaymentState;
  pending_transfer_id : option N;
  posted_transfer_id : option N;
  settlement_batch_seq : option N;
  created_at : N;
  updated_at : N;
}.

Definition new_authorized (id merchant_id customer_id amount fee_amount pending_transfer_id
    timestamp : N) : Payment :=
  mkPayment id merchant_id customer_id amount fee_amount Authorized (Some pending_transfer_id) None
    None timestamp timestamp.

Definition set_state (s : PaymentState) (posted : option N) (ts : N) (p : Payment) : Payment :=
  mkPayment (pay_id p) (merchant_id p) (customer_id p) (pay_amount p) (fee_amount p) s
    (pending_transfer_id p) posted (settlement_batch_seq p) (created_at p) ts.

(** [payment.settlement_batch_seq = Some(seq)]. *)
Definition with_batch (seq : N) (p : Payment) : Payment :=
  mkPayment (pay_id p) (merchant_id p) (customer_id p) (pay_amount p) (fee_amount p) (pay_state p)
    (pending_transfer_id p) (posted_transfer_id p) (Some seq) (created_at p) (updated_at p).

Definition transition_to_captured (posted timestamp : N) (self : Payment) :
    result PaymentError Payment :=
  if negb (bool_decide (pay_state self = Authorized))
  then Err (InvalidStateTransition (pay_id self) (pay_state self) Captured)
  else Ok (set_state Captured (Some posted) timestamp self).

Definition transition_to_voided (timestamp : N) (self : Payment) : result PaymentError Payment :=
  if negb (bool_decide (pay_state self = Authorized))
  then Err (InvalidStateTransition (pay_id self) (pay_state self) PVoided)
  else Ok (set_state PVoided (posted_transfer_id self) timestamp self).

Definition transition_to_refunded (timestamp : N) (self : Payment) : result PaymentError Payment :=
  if negb (bool_decide (pay_state self = Captured))
  then Err (InvalidStateTransition (pay_id self) (pay_state self) Refunded)
  else Ok (set_state Refunded (posted_transfer_id self) timestamp self).

(** ** The account directory *)

Definition FEE_REVENUE : AccountId := 999999.
Definition VAULT_ASSET : AccountId := 100.

(** The additions are on [u128] with overflow checks: [None] is the panic. *)
Definition customer (customer_id : N) : option AccountId := checked_add U128_MAX 1000000 customer_id.
Definition merchant (merchant_id : N) : option AccountId := checked_add U128_MAX 2000000 merchant_id.

(** Outcomes of code that may also panic, which ends the process. *)
Inductive failure (E : Type) : Type := Panic | Fails (e : E).
Arguments Panic {E}.
Arguments Fails {E} e.

Definition or_panic {S E A} (o : option A) : st S (failure E) A :=
  fun s => (s, ok_or o Panic).
Definition in_ledger {A} (m : st Ledger LedgerError A) : st Ledger (failure PaymentError) A :=
  fun l => match m l with (l', r) => (l', map_err (Fails ∘ PyLedger) r) end.

Fixpoint setup_merchants (scale : Scale) (timestamp : N) (merchants : list N) :
    st Ledger (failure PaymentError) unit :=
  match merchants with
  | [] => st_ret tt
  | m_id :: rest =>
      let? acc := or_panic (merchant m_id) in
      do? in_ledger (create_account acc Liability flags_customer scale timestamp);
      setup_merchants scale timestamp rest
  end.

Fixpoint setup_customers (scale : Scale) (timestamp deposit : N) (i : N) (customers : list N) :
    st Ledger (failure PaymentError) unit :=
  match customers with
  | [] => st_ret tt
  | c_id :: rest =>
      let? acc := or_panic (customer c_id) in
      do? in_ledger (create_account acc Liability flags_customer scale timestamp);
      do? (if 0 <? deposit then
             let? t := in_ledger (fun l => (l, new_immediate (10000 + i) VAULT_ASSET acc deposit timestamp)) in
             in_ledger (create_transfer t)
           else st_ret tt);
      setup_customers scale timestamp deposit (i + 1) rest
  end.

Definition setup_accounts (scale : Scale) (merchants customers : list N)
    (initial_customer_deposit timestamp : N) : st Ledger (failure PaymentError) unit :=
  do? in_ledger (create_account VAULT_ASSET Asset flags_bank_asset scale timestamp);
  do? in_ledger (create_account FEE_REVENUE Revenue flags_fee_revenue scale timestamp);
  do? setup_merchants scale timestamp merchants;
  setup_customers scale timestamp initial_customer_deposit 0 customers.

(** ** The idempotency store *)

Inductive IdempotencyStatus : Type := InProgress | Completed (json : string).

Abbreviation IdempotencyStore := (gmap string IdempotencyStatus).

Definition try_acquire (key : string) (map : IdempotencyStore) :
    IdempotencyStore * result IdempotencyError (option string) :=
  match map !! key with
  | Some InProgress => (map, Err (ConcurrentRequest key))
  | Some (Completed json) => (map, Ok (Some json))
  | None => (<[key := InProgress]> map, Ok None)
  end.

Definition complete (key response_json : string) (map : IdempotencyStore) : IdempotencyStore :=
  <[key := Completed response_json]> map.

Definition release_on_failure (key : string) (map : IdempotencyStore) : IdempotencyStore :=
  match map !! key with Some InProgress => delete key map | _ => map end.

(** ** Webhooks *)

Record WebhookPayload : Type := mkPayload {
  event_id : string;
  event_type : string;
  wh_payment_id : N;
  wh_merchant_id : N;
  wh_customer_id : N;
  wh_amount : N;
  wh_fee_amount : N;
  wh_timestamp : N;
}.

Definition decode_nibble (b : ascii) : option N :=
  let n := N_of_ascii b in
  if (48 <=? n) && (n <=? 57) then Some (n - 48)
  else if (97 <=? n) && (n <=? 102) then Some (n - 97 + 10)
  else if (65 <=? n) && (n <=? 70) then Some (n - 65 + 10)
  else None.

(** Two characters a byte; an odd length is refused first. *)
Fixpoint decode_pairs (s : string) : option bytes :=
  match s with
  | String c1 (String c2 rest) =>
      hi ← decode_nibble c1; lo ← decode_nibble c2; bs ← decode_pairs rest;
      Some (byte_of (N.lor (N.shiftl hi 4) lo) :: bs)
  | _ => Some []
  end.
Definition decode_hex (s : string) : option bytes :=
  if negb (Nat.even (String.length s)) then None else decode_pairs s.

Section hmac.
(** HMAC-SHA256 takes keys of any length, so making it from the secret never fails. *)
Context (hmac_sha256 : bytes -> bytes -> Hash32).

Definition compute_signature (secret payload : bytes) : result WebhookError string :=
  Ok (hex_of (vec_to_list (hmac_sha256 secret payload))).

Definition verify_signature (secret payload : bytes) (signature_hex : string) :
    result WebhookError unit :=
  signature_bytes ← ok_or (decode_hex signature_hex) InvalidSignature;
  if bool_decide (signature_bytes = vec_to_list (hmac_sha256 secret payload))
  then Ok tt else Err InvalidSignature.

End hmac.

Definition abs_diff (a b : N) : N := if a <? b then b - a else a - b.

Definition verify_freshness (event_time current_time max_allowed_seconds : N) :
    result WebhookError unit :=
  let age := abs_diff current_time event_time in
  if max_allowed_seconds <? age then Err (ExpiredTimestamp age max_allowed_seconds) else Ok tt.

Definition check_and_record (event_id : string) (seen : gset string) :
    gset string * result WebhookError unit :=
  if bool_decide (event_id ∈ seen) then (seen, Err (DuplicateEventId event_id))
  else ({[event_id]} ∪ seen, Ok tt).

(** ** Reconciliation *)

Inductive ReconciliationStatus : Type := Clean | DriftDetected.

Record ReconciliationReport : Type := mkReport {
  rr_timestamp : N;
  rr_status : ReconciliationStatus;
  app_settled_total : N;
  ledger_settled_total : N;
  chain_settled_total : N;
  drift : Z;
  reconciled_transfers : N;
  (** The incident's drift amount; its texts are left out. *)
  incident : option Z;
}.

(** The loop over the payments: total and number of the captured ones. *)
Fixpoint captured_total (payments : list Payment) (app_total count : N) :
    result ReconciliationError (N * N) :=
  match payments with
  | [] => Ok (app_total, count)
  | p :: rest =>
      if bool_decide (pay_state p = Captured) then
        total ← ok_or (checked_add U128_MAX app_total (pay_amount p)) RcAmountOverflow;
        captured_total rest total (count + 1)
      else captured_total rest app_total count
  end.

Fixpoint merchants_total (ledger : Ledger) (merchants : list N) (ledger_total : N) :
    result (failure ReconciliationError) N :=
  match merchants with
  | [] => Ok ledger_total
  | m_id :: rest =>
      acc_id ← ok_or (merchant m_id) Panic;
      acc ← map_err (fun _ => Fails (RcAccountNotFound acc_id)) (get_account ledger acc_id);
      total ← ok_or (checked_add U128_MAX ledger_total (credits_posted (acc_balance acc)))
                (Fails RcAmountOverflow);
      merchants_total ledger rest total
  end.

(** [i128::try_from] on a [u128]. *)
Definition to_signed (n : N) : result ReconciliationError Z :=
  if n <=? I128_MAX then Ok (Z.of_N n) else Err AmountExceedsSignedRange.

Definition audit (payments : list Payment) (ledger : Ledger) (merchants : list N)
    (chain_root : option SettlementRoot) (timestamp : N) :
    result (failure ReconciliationError) ReconciliationReport :=
  '(app_total, captured_count) ← map_err Fails (captured_total payments 0 0);
  ledger_total ← merchants_total ledger merchants 0;
  let chain_total := default 0 (sr_total_settled_amount <$> chain_root) in
  ledger_total_signed ← map_err Fails (to_signed ledger_total);
  app_total_signed ← map_err Fails (to_signed app_total);
  let drift := (ledger_total_signed - app_total_signed)%Z in
  let is_clean := (drift =? 0)%Z &&
    match chain_root with None => true | Some _ => chain_total =? ledger_total end in
  Ok (if is_clean
      then mkReport timestamp Clean app_total ledger_total chain_total 0 captured_count None
      else mkReport timestamp DriftDetected app_total ledger_total chain_total drift captured_count
             (Some drift)).
