(* ===== verification/Rail.v ===== *)
(** * Settlement rails

    [apps/demo/src/rail.rs]: the mock ACH rail, and the rail that commits the Merkle root
    of a batch to the settlement program of [Settle] and keeps the tree to answer
    receipts.  A rail owns the account data of its registry; the program runs on the
    accounts the rail passes it. *)

From S2P Require Import Bytes Error Amount Account Transfer Merkle Settle Payment.
From stdpp Require Import list strings.
From S2P Require Import Prelude.
#[local] Open Scope N_scope.

Inductive RailError : Type :=
| RailAmountOverflow
| SubmissionFailed (msg : string)
| RailSolana (e : SettlementProgramError)
| RailMerkle (e : MmrError).

Record RailSubmission : Type := mkSubmission {
  rail_name : string;
  rs_batch_seq : N;
  rs_transfer_count : N;
  rs_total_amount : N;
  rs_reference : string;
  rs_merkle_root : option string;
}.

Fixpoint total_of (transfers : list Transfer) (total_amount : N) : result RailError N :=
  match transfers with
  | [] => Ok total_amount
  | t :: rest =>
      total ← ok_or (checked_add U128_MAX total_amount (tr_amount t)) RailAmountOverflow;
      total_of rest total
  end.

(** [MockAchRail::submit_batch]; the reference is padded to six digits. *)
Definition ach_submit_batch (batch_seq : N) (transfers : list Transfer) :
    result RailError RailSubmission :=
  total_amount ← total_of transfers 0;
  Ok (mkSubmission "Mock-ACH" batch_seq (N.of_nat (length transfers)) total_amount
        ("ACH-NACHA-BATCH-" +:+ pad_zeros 6 (dec_string batch_seq)) None).

Record SolanaRail : Type := mkRail {
  program_id : Pubkey;
  authority : Pubkey;
  pda_data : bytes;
  latest_mmr : Mmr;
  settled_transfers : list Transfer;
  rail_batch_seq : N;
}.

Section rail.
Context (sha256 : bytes -> Hash32) (display : ProofError -> string).
Context (transfer_bytes : Transfer -> result string bytes).
Context (program_error_string : ProgramError -> string).
Context (settlement_error_string : SettlementProgramError -> string).
Context `{Borsh, Runtime, ProofBytes}.

Definition Pubkey_default : Pubkey := vreplicate 32 x00.

(** The accounts a rail passes: only the registry has data. *)
Definition rail_world (pda : Pubkey) (data : bytes) : World :=
  fun k => mkCell (if decide (k = pda) then data else []) Unborrowed.

(** [SolanaUsdcRail::new]. *)
Definition SolanaRail_new (program_id authority : Pubkey) : result (failure RailError) SolanaRail :=
  '(pda, _) ← ok_or (find_pda authority program_id) Panic;
  init ← ok_or (initialize program_id authority Pubkey_default) Panic;
  init_ix ← map_err (Fails ∘ RailSolana) init;
  let account_infos := [mkInfo authority true; mkInfo pda false; mkInfo Pubkey_default false] in
  match process sha256 display program_id account_infos (ix_data init_ix)
          (rail_world pda (replicate LEN x00)) with
  | (_, Err e) => Err (Fails (SubmissionFailed ("PDA init failed: " +:+ program_error_string e)))
  | (w, Ok _) => Ok (mkRail program_id authority (cell_data (w pda)) Mmr_new [] 0)
  end.

Definition pda_address (self : SolanaRail) : option Pubkey :=
  fst <$> find_pda (authority self) (program_id self).

Definition current_settlement_root (self : SolanaRail) : option SettlementRoot :=
  state ← result_ok (deserialize_from (pda_data self));
  if sr_batch_seq state =? 0 then None else Some state.

Definition latest_root_hex (self : SolanaRail) : option string :=
  to_hex ∘ sr_merkle_root <$> current_settlement_root self.

(** The loop of [submit_batch]: append each transfer, then add its amount. *)
Fixpoint build_batch (transfers : list Transfer) (mmr : Mmr) (total_amount : N) :
    result (failure RailError) (Mmr * N) :=
  match transfers with
  | [] => Ok (mmr, total_amount)
  | t :: rest =>
      '(mmr, r) ← ok_or (append_transfer sha256 transfer_bytes t mmr) Panic;
      _ ← map_err (Fails ∘ RailMerkle) r;
      total ← ok_or (checked_add U128_MAX total_amount (tr_amount t)) (Fails RailAmountOverflow);
      build_batch rest mmr total
  end.

Definition chain_tip_aa : Hash32 := vreplicate 32 xaa.

Definition solana_submit_batch (batch_seq : N) (transfers : list Transfer) (self : SolanaRail) :
    SolanaRail * result (failure RailError) RailSubmission :=
  let prepared :=
    _ ← (if bool_decide (transfers = [])
         then Err (Fails (SubmissionFailed "cannot settle empty batch")) else Ok tt);
    '(mmr, total_amount) ← build_batch transfers Mmr_new 0;
    let root := root sha256 mmr in
    '(pda, _) ← ok_or (find_pda (authority self) (program_id self)) Panic;
    current_state ← map_err (fun e => Fails (SubmissionFailed (settlement_error_string e)))
                      (deserialize_from (pda_data self));
    let params := mkParams 1 batch_seq root (sr_merkle_root current_state)
                    (N.of_nat (length transfers)) total_amount chain_tip_aa in
    ix ← ok_or (commit_settlement (program_id self) (authority self) params Pubkey_default) Panic;
    commit_ix ← map_err (Fails ∘ RailSolana) ix;
    Ok (mmr, total_amount, root, pda, commit_ix) in
  match prepared with
  | Err e => (self, Err e)
  | Ok (mmr, total_amount, root, pda, commit_ix) =>
      let account_infos := [mkInfo (authority self) true; mkInfo pda false] in
      match process sha256 display (program_id self) account_infos (ix_data commit_ix)
              (rail_world pda (pda_data self)) with
      | (w, Err e) =>
          (mkRail (program_id self) (authority self) (cell_data (w pda)) (latest_mmr self)
             (settled_transfers self) (rail_batch_seq self),
           Err (Fails (SubmissionFailed ("on-chain commit error: " +:+ program_error_string e))))
      | (w, Ok _) =>
          (mkRail (program_id self) (authority self) (cell_data (w pda)) mmr transfers batch_seq,
           Ok (mkSubmission "Solana-USDC" batch_seq (N.of_nat (length transfers)) total_amount
                 ("solana:tx:batch-" +:+ dec_string batch_seq +:+ ":root:" +:+ to_hex root)
                 (Some (to_hex root))))
      end
  end.

Definition generate_receipt (self : SolanaRail) (batch_seq : N) (transfer_index : nat)
    (transfer : Transfer) : result (failure RailError) TransferReceipt :=
  leaf_hash ← map_err (Fails ∘ RailMerkle) (hash_transfer sha256 transfer_bytes transfer);
  walked ← ok_or (generate_proof (latest_mmr self) (N.of_nat transfer_index)) Panic;
  proof ← map_err (Fails ∘ RailMerkle) walked;
  Ok (mkReceipt (tr_id transfer) (tr_amount transfer) (debit_account_id transfer)
        (credit_account_id transfer) (to_hex leaf_hash) batch_seq
        (to_hex (root sha256 (latest_mmr self))) proof).

(** [Iterator::position]. *)
Definition position (transfer_id : N) (transfers : list Transfer) : option (nat * Transfer) :=
  list_find (fun t => tr_id t = transfer_id) transfers.

Definition receipt_for_transfer (self : SolanaRail) (transfer_id : N) :
    result (failure RailError) TransferReceipt :=
  if bool_decide (settled_transfers self = []) || (rail_batch_seq self =? 0)
  then Err (Fails (SubmissionFailed "No settlement batch has been committed to Solana yet"))
  else
    '(index, t) ← ok_or (position transfer_id (settled_transfers self))
      (Fails (SubmissionFailed ("Transfer " +:+ dec_string transfer_id +:+
                                " not found in latest Solana settlement batch")));
    generate_receipt self (rail_batch_seq self) index t.

End rail.
