(* ===== verification/RailInv.v ===== *)
(** * The settlement rail and its registry

    What a rail knows about its registry, what a submitted batch leaves in both, and
    that the receipts the rail then hands out are good. *)

From S2P Require Import Bytes Error Amount Account Transfer Merkle MerkleProof MerkleProps Settle SettleInv SettleProps Payment Rail.
From stdpp Require Import list strings.
From S2P Require Import Prelude.
#[local] Open Scope N_scope.

Section rail.
Context (sha256 : bytes -> Hash32) (display : ProofError -> string) (display_hex : HexError -> string).
Context (transfer_bytes : Transfer -> result string bytes).
Context (program_error_string : ProgramError -> string).
Context (settlement_error_string : SettlementProgramError -> string).
Context `{Borsh, Runtime, ProofBytes}.

(** The rail's account data is a registry of its authority's. *)
Record rail_ready (self : SolanaRail) (r : SettlementRoot) : Prop := {
  rd_data : root_try_from_slice (pda_data self) = Ok r;
  rd_authority : sr_authority r = authority self;
  rd_pda : exists pda bump, find_pda (authority self) (program_id self) = Some (pda, bump);
}.

(** The hashes of a batch's transfers. *)
Definition batch_hashes (ts : list Transfer) (hs : list Hash32) : Prop :=
  Forall2 (fun t h => hash_transfer sha256 transfer_bytes t = Ok h) ts hs.

Abbreviation amounts := (list_sum tr_amount).

Abbreviation build_all := (build_batch sha256 transfer_bytes).

(** The loop succeeds exactly when every transfer has its bytes and the total fits. *)
Lemma build_batch_run ts m n m' total :
  n <= U128_MAX ->
  build_all ts m n = Ok (m', total) <->
  exists hs, batch_hashes ts hs /\ append_all sha256 hs m = Some m' /\
    total = n + amounts ts /\ total <= U128_MAX.
Proof.
  revert m n. induction ts as [|t ts IH]; intros m n Hn; cbn [build_batch].
  { split.
    - intros [= <- <-]. exists []. split_and!; [constructor|done|simpl; lia|done].
    - intros (hs & Hh & Ha & -> & _). inversion Hh; subst. simpl in *. simplify_eq. by rewrite N.add_0_r. }
  unfold append_transfer. split.
  - intros E. destruct (hash_transfer _ _ t) as [h|] eqn:Eh; simpl in E; [|done].
    destruct (append_leaf_hash sha256 h m) as [[m1 i]|] eqn:Ea; simpl in E; [|done].
    destruct (checked_add _ _ _) as [n'|] eqn:En; simpl in E; [|done]. apply checked_add_Some in En as [-> Hn'].
    apply IH in E as (hs & Hh & Hm & -> & Hle); [|done]. exists (h :: hs).
    split_and!; [by constructor|cbn [append_all]; by rewrite Ea|simpl; lia|done].
  - intros (hs & Hh & Ha & -> & Hle). inversion Hh as [|? h ? hs' Eh Hh']; subst. cbn [append_all] in Ha.
    destruct (append_leaf_hash sha256 h m) as [[m1 i]|] eqn:Ea; [|done]. simpl in Ha, Hle.
    rewrite Eh. simpl. rewrite Ea. simpl.
    assert (checked_add U128_MAX n (tr_amount t) = Some (n + tr_amount t)) as -> by (apply checked_add_Some; lia).
    simpl. apply IH; [lia|]. exists hs'. split_and!; [done|done|simpl; lia|simpl; lia].
Qed.

(** A batch whose transfers have bytes and whose amounts fit builds. *)
Lemma build_batch_total ts :
  (forall t, t ∈ ts -> exists h, hash_transfer sha256 transfer_bytes t = Ok h) -> amounts ts <= U128_MAX ->
  exists hs m, batch_hashes ts hs /\ build sha256 hs = Some m /\ build_all ts Mmr_new 0 = Ok (m, amounts ts).
Proof.
  intros Hh Ha. assert (exists hs, batch_hashes ts hs) as [hs Hhs].
  { induction ts as [|t ts IH]; [by exists []; constructor|].
    destruct (Hh t) as [h Eh]; [by left|]. destruct IH as [hs Hs]; [intros u Hu; apply Hh; by right|simpl in Ha; lia|].
    exists (h :: hs). by constructor. }
  destruct (build_ok sha256 hs) as (m & Hm & _). exists hs, m. split_and!; [done|done|].
  apply build_batch_run; [done|]. exists hs. done.
Qed.

Definition params_of (r : SettlementRoot) (seq : N) (m : Mmr) (ts : list Transfer) : CommitParams :=
  mkParams 1 seq (root sha256 m) (sr_merkle_root r) (N.of_nat (length ts)) (amounts ts) chain_tip_aa.

(** What a rail and its submission are after the batch [ts]. *)
Record submitted (self : SolanaRail) (r : SettlementRoot) (seq : N) (ts : list Transfer)
    (self' : SolanaRail) (sub : RailSubmission) : Prop := {
  sb_hashes : exists hs, batch_hashes ts hs /\ build sha256 hs = Some (latest_mmr self');
  sb_ready : exists t, rail_ready self' (committed r (params_of r seq (latest_mmr self') ts) t);
  sb_transfers : settled_transfers self' = ts;
  sb_seq : rail_batch_seq self' = seq;
  sb_total : rs_total_amount sub = amounts ts;
  sb_count : rs_transfer_count sub = N.of_nat (length ts);
  sb_batch : rs_batch_seq sub = seq;
}.

Abbreviation rail_submit := (solana_submit_batch sha256 display transfer_bytes program_error_string
  settlement_error_string).

#[local] Arguments process : simpl never.

(** The program's answer to the rail's commit. *)
Lemma rail_commit pid a pda data r p bs :
  unpack bs = Ok (CommitSettlement p) -> root_try_from_slice data = Ok r -> sr_authority r = a ->
  params_fit p -> extends r p ->
  exists w t, process sha256 display pid [mkInfo a true; mkInfo pda false] bs (rail_world pda data) = (w, Ok tt) /\
    root_try_from_slice (cell_data (w pda)) = Ok (committed r p t).
Proof.
  intros Eu Hd Ha Hp He. set (w := rail_world pda data). set (info := mkInfo pda false).
  assert (cell_data (w pda) = data) as Hw by (unfold w, rail_world; simpl; by rewrite decide_True).
  assert (registry w pda = Some r) as Hr by (unfold registry; by rewrite Hw, Hd).
  destruct (registry_length _ _ _ Hr) as [Hfit Hl].
  assert (root_fits (committed r p (commit_time w []))) as Hcf
    by (apply committed_fits; try done; apply commit_time_i64).
  eexists _, (commit_time w []). split.
  - unfold process, st_bind, lift. rewrite Eu. cbn [map_err st_reads].
    apply commit_run. exists (mkInfo a true), info, [], r. split_and!; done.
  - pose proof (registry_write info _ w Hcf) as Hreg. unfold registry in Hreg. simpl in Hreg.
    rewrite bool_decide_true in Hreg by (unfold w in Hl; simpl in Hl; by rewrite Hl).
    destruct (root_try_from_slice _) as [r'|] eqn:Er in Hreg; [|done]. simpl in Hreg. simplify_eq. exact Er.
Qed.

(** A batch that fits is accepted. *)
Lemma submit_accepts self r seq ts :
  rail_ready self r -> ts <> [] -> N.of_nat (length ts) <= U64_MAX ->
  (forall t, t ∈ ts -> exists h, hash_transfer sha256 transfer_bytes t = Ok h) ->
  seq = sr_batch_seq r + 1 -> seq <= U64_MAX -> sr_total_settled_amount r + amounts ts <= U128_MAX ->
  exists self' sub, rail_submit seq ts self = (self', Ok sub) /\ submitted self r seq ts self' sub.
Proof.
  intros [Hd Ha (pda & bump & Hf)] Hne Hlen Hh Hseq H64 Htot.
  destruct (build_batch_total ts Hh) as (hs & m & Hhs & Hm & Eb); [lia|].
  set (p := params_of r seq m ts).
  assert (params_fit p) as Hp by (unfold params_fit, p, params_of; simpl; unfold U64_MAX in *; lia).
  assert (extends r p) as He.
  { unfold extends, p, params_of. simpl. destruct ts; [done|]. simpl. split_and!; [lia..|done|done]. }
  destruct (pack_unpack (CommitSettlement p) Hp) as (bs & Ep & Eu).
  destruct (rail_commit (program_id self) (authority self) pda _ r p bs Eu Hd Ha Hp He) as (w & t & Ec & Er).
  unfold solana_submit_batch. rewrite bool_decide_false by done. simpl. rewrite Eb. simpl. rewrite Hf. simpl.
  unfold deserialize_from. rewrite Hd. simpl. fold (params_of r seq m ts). fold p.
  unfold commit_settlement. rewrite Hf. simpl. rewrite Ep. simpl. rewrite Ec.
  do 2 eexists. split; [reflexivity|]. constructor; try done; [by exists hs|].
  exists t. constructor; simpl; [done|done|eauto].
Qed.

(** Conversely, a submission that succeeds is one of those; one that fails leaves the
    registry alone. *)
Lemma rail_commit_ok pid a pda data r p bs w :
  unpack bs = Ok (CommitSettlement p) -> root_try_from_slice data = Ok r ->
  process sha256 display pid [mkInfo a true; mkInfo pda false] bs (rail_world pda data) = (w, Ok tt) ->
  extends r p.
Proof.
  intros Eu Hd Hp. unfold process, st_bind, lift in Hp. rewrite Eu in Hp. cbn [map_err st_reads] in Hp.
  apply commit_run in Hp as (a' & info & rest & r' & [= <- <- <-] & _ & _ & Hr & _ & He & _).
  unfold registry, rail_world in Hr. simpl in Hr. rewrite decide_True, Hd in Hr by done. by simplify_eq/=.
Qed.

Lemma submit_preserves self r seq ts self' res :
  rail_ready self r -> seq <= U64_MAX -> N.of_nat (length ts) <= U64_MAX -> rail_submit seq ts self = (self', res) ->
  match res with
  | Ok sub => submitted self r seq ts self' sub
  | Err _ => rail_ready self' r
  end.
Proof.
  intros Hrd H64 Hlen. pose proof Hrd as [Hd Ha (pda & bump & Hf)]. unfold solana_submit_batch.
  case_bool_decide as Hne; [by intros [= <- <-]|]. simpl.
  destruct (build_all ts Mmr_new 0) as [[m total]|] eqn:Eb; simpl; [|by intros [= <- <-]].
  apply build_batch_run in Eb as (hs & Hhs & Hm & -> & Hle); [|done]. rewrite N.add_0_l in *. rewrite Hf. simpl.
  unfold deserialize_from. rewrite Hd. simpl. fold (params_of r seq m ts). set (p := params_of r seq m ts).
  assert (params_fit p) as Hp by (unfold params_fit, p, params_of; simpl; unfold U64_MAX in *; lia).
  destruct (pack_unpack (CommitSettlement p) Hp) as (bs & Ep & Eu).
  unfold commit_settlement. rewrite Hf. simpl. rewrite Ep. simpl.
  destruct (process _ _ _ _ _ _) as [w [[]|e]] eqn:Ec; intros [= <- <-].
  - pose proof (rail_commit_ok _ _ _ _ _ _ _ _ Eu Hd Ec) as He.
    destruct (rail_commit (program_id self) (authority self) pda _ r p bs Eu Hd Ha Hp He) as (w' & t & Ec' & Er).
    rewrite Ec in Ec'. injection Ec' as <-. constructor; try done; [by exists hs|].
    exists t. constructor; simpl; [done|done|eauto].
  - constructor; simpl; [|done|eauto]. rewrite (late_process _ _ _ _ _ _ _ _ Ec pda).
    unfold rail_world. simpl. by rewrite decide_True.
Qed.

Lemma submit_amounts self seq ts self' sub :
  rail_submit seq ts self = (self', Ok sub) ->
  ts <> [] /\ rs_total_amount sub = amounts ts /\ rs_batch_seq sub = seq /\
  rs_transfer_count sub = N.of_nat (length ts).
Proof.
  unfold solana_submit_batch. case_bool_decide as Hne; [done|]. simpl.
  destruct (build_all ts Mmr_new 0) as [[m total]|] eqn:Eb; simpl; [|done].
  apply build_batch_run in Eb as (hs & _ & _ & -> & _); [|done]. rewrite N.add_0_l.
  destruct (find_pda _ _) as [[pda bump]|]; simpl; [|done].
  destruct (deserialize_from _) as [r|]; simpl; [|done].
  destruct (commit_settlement _ _ _ _) as [[ix|]|]; simpl; [|done..].
  destruct (process _ _ _ _ _ _) as [w [[]|e]]; [|done]. by intros [= <- <-].
Qed.

Lemma ach_amounts seq ts sub :
  ach_submit_batch seq ts = Ok sub ->
  rs_total_amount sub = amounts ts /\ rs_batch_seq sub = seq /\ rs_transfer_count sub = N.of_nat (length ts).
Proof.
  unfold ach_submit_batch. intros E. destruct (total_of ts 0) as [x|] eqn:Et; simpl in E; [|done].
  injection E as <-. split; [|done]. simpl. rewrite <- (N.add_0_l (amounts ts)). revert Et. generalize 0.
  clear. induction ts as [|t ts IH]; intros n E; simpl in E; [injection E as <-; simpl; lia|].
  destruct (checked_add _ _ _) as [n'|] eqn:En; simpl in E; [|done]. apply checked_add_Some in En as [-> _].
  apply IH in E. simpl. lia.
Qed.

(** A new rail is ready, with no batch in its registry. *)
Lemma SolanaRail_new_ready pid a self :
  SolanaRail_new sha256 display program_error_string pid a = Ok self ->
  exists bump, rail_ready self (initial_root a bump).
Proof.
  unfold SolanaRail_new. remember (replicate LEN x00) as zeros eqn:Hz.
  assert (length zeros = LEN) as Hl by (subst; by rewrite length_replicate). clear Hz.
  destruct (find_pda a pid) as [[pda bump]|] eqn:Hf; simpl; [|done].
  destruct (find_creates _ _ _ _ Hf) as [Hbump Hc].
  destruct (pack_unpack (Initialize bump) Hbump) as (bs & Ep & Eu).
  unfold initialize. rewrite Hf. simpl. rewrite Ep. simpl.
  destruct (process _ _ _ _ _ _) as [w [[]|e]] eqn:E; [|done]. intros [= <-]. exists bump.
  unfold process, st_bind, lift in E. rewrite Eu in E. cbn [map_err st_reads] in E.
  apply initialize_run in E as (a' & info & rest & [= <- <- <-] & _ & _ & _ & _ & ->). simpl.
  pose proof (registry_write (mkInfo pda false) _ (rail_world pda zeros) (initial_fits a bump Hbump)) as Hr.
  unfold rail_world in *. simpl in *. rewrite decide_True in * by done. rewrite bool_decide_true in Hr by lia.
  unfold registry in Hr. constructor; simpl; [|done|eauto].
  destruct (root_try_from_slice _) as [r'|] eqn:Er in Hr; [|done]. simpl in Hr. simplify_eq. exact Er.
Qed.

(** ** Receipts *)

Lemma find_by_id ts t :
  NoDup (tr_id <$> ts) -> t ∈ ts -> exists i, position (tr_id t) ts = Some (i, t) /\ ts !! i = Some t.
Proof.
  intros Hn Ht. unfold position.
  destruct (list_find _ ts) as [[i u]|] eqn:E.
  - pose proof (list_find_Some (fun u => tr_id u = tr_id t) ts i u) as [Hf _]. destruct (Hf E) as (Hu & Hid & _).
    apply list_elem_of_lookup in Ht as [j Hj].
    assert (i = j) as ->; [|simplify_eq; eauto].
    eapply NoDup_lookup; [exact Hn|..]; rewrite list_lookup_fmap; [by rewrite Hu|by rewrite Hj, Hid].
  - exfalso. apply list_find_None in E. rewrite Forall_forall in E. by eapply E.
Qed.

(** Every transfer of the last batch has a receipt that verifies, for the root in the registry. *)
Lemma receipt_good self r seq ts self' sub t :
  submitted self r seq ts self' sub -> seq <> 0 -> N.of_nat (length ts) <= U64_MAX -> NoDup (tr_id <$> ts) ->
  t ∈ ts ->
  exists rc, receipt_for_transfer sha256 transfer_bytes self' (tr_id t) = Ok rc /\
    receipt_verify sha256 display_hex rc = Ok tt /\
    rc_transfer_id rc = tr_id t /\ rc_amount rc = tr_amount t /\
    latest_root_hex self' = Some (rc_merkle_root rc).
Proof.
  intros [(hs & Hhs & Hm) [tm [Hd _ _]] Hts Hsq _ _ _] Hseq Hlen Hn Ht.
  destruct (find_by_id ts t Hn Ht) as (i & Hp & Hi).
  destruct (Forall2_lookup_l _ _ _ _ _ Hhs Hi) as (h & Hh & Eh).
  assert (length hs = length ts) as El by (symmetry; by eapply Forall2_length).
  destruct (build_proofs sha256 hs) as (m & Hm' & Hpf); [rewrite El; unfold U64_MAX in Hlen; lia|].
  rewrite Hm in Hm'. injection Hm' as <-. destruct (Hpf i h Hh) as (pf & Eg & Ev).
  unfold receipt_for_transfer. rewrite Hts, Hsq.
  rewrite bool_decide_false by (intros ->; by apply elem_of_nil in Ht).
  destruct (N.eqb_spec seq 0); [done|]. simpl. rewrite Hp. simpl. unfold generate_receipt. rewrite Eh. simpl.
  rewrite Eg. simpl. eexists. split; [done|]. split_and!; try done.
  - unfold receipt_verify. simpl. destruct (hex_roundtrip (root sha256 (latest_mmr self'))) as [_ ->].
    destruct (hex_roundtrip h) as [_ ->]. done.
  - unfold latest_root_hex, current_settlement_root, deserialize_from. rewrite Hd. simpl.
    destruct (N.eqb_spec seq 0); [done|]. done.
Qed.
End rail.
