(* ===== verification/Api.v ===== *)
(** * The HTTP API of the demo application

    [apps/demo/src/api.rs]: the application state and the handlers that read or change
    it.  A handler is one step here: it runs alone, as it does when requests come one
    after the other ([ApiThreads] has those that run at the same time).  The locks can only be poisoned by a panic, which ends the process
    (the workspace aborts on panic), so the poisoned branches have no counterpart.  The
    body of an error is its cause; rendering texts and JSON is the libraries'. *)

From S2P Require Import Bytes Error Amount Account Transfer Ledger Merkle Settle Payment Rail.
From stdpp Require Import list strings gmap functions.
From S2P Require Import Prelude.
#[local] Open Scope N_scope.
#[local] Open Scope st_scope.

Inductive StatusCode : Type :=
| BAD_REQUEST | UNAUTHORIZED | PAYMENT_REQUIRED | NOT_FOUND | CONFLICT | INTERNAL_SERVER_ERROR.

Inductive Cause : Type :=
| Text (s : string)
| OfLedger (e : LedgerError)
| OfPayment (e : PaymentError)
| OfWebhook (e : WebhookError)
| OfIdempotency (e : IdempotencyError)
| OfRail (e : RailError)
| OfReconciliation (e : ReconciliationError)
| OfProof (e : ProofError)
| OfJson (msg : string).

Record HttpError : Type := mkHttp { code : StatusCode; cause : Cause }.

(** ** State *)

Inductive Metric : Type :=
| m_transfers_received | m_transfers_committed | m_transfers_rejected
| m_settlement_batches_committed | m_settlement_amount_total | m_merkle_proofs_verified
| m_reconciliation_audits_total | m_reconciliation_incidents_total.

#[global] Instance Metric_eq_dec : EqDecision Metric.
Proof. solve_decision. Defined.

Record App : Type := mkApp {
  app_ledger : Ledger;
  payments : gmap N Payment;
  idempotency : IdempotencyStore;
  webhook_dedupe : gset string;
  solana_rail : SolanaRail;
  webhook_secret : bytes;
  app_scale : Scale;
  next_payment_id : N;
  next_transfer_id : N;
  next_timestamp : N;
  app_batch_seq : N;
  app_metrics : Metric -> N;
  drift_gauge : Z;
  simulated_drift : Z;
}.

Definition set_app_ledger (l : Ledger) (s : App) : App :=
  mkApp l (payments s) (idempotency s) (webhook_dedupe s) (solana_rail s) (webhook_secret s)
    (app_scale s) (next_payment_id s) (next_transfer_id s) (next_timestamp s) (app_batch_seq s)
    (app_metrics s) (drift_gauge s) (simulated_drift s).
Definition set_payments (m : gmap N Payment) (s : App) : App :=
  mkApp (app_ledger s) m (idempotency s) (webhook_dedupe s) (solana_rail s) (webhook_secret s)
    (app_scale s) (next_payment_id s) (next_transfer_id s) (next_timestamp s) (app_batch_seq s)
    (app_metrics s) (drift_gauge s) (simulated_drift s).
Definition set_idempotency (m : IdempotencyStore) (s : App) : App :=
  mkApp (app_ledger s) (payments s) m (webhook_dedupe s) (solana_rail s) (webhook_secret s)
    (app_scale s) (next_payment_id s) (next_transfer_id s) (next_timestamp s) (app_batch_seq s)
    (app_metrics s) (drift_gauge s) (simulated_drift s).
Definition set_dedupe (m : gset string) (s : App) : App :=
  mkApp (app_ledger s) (payments s) (idempotency s) m (solana_rail s) (webhook_secret s)
    (app_scale s) (next_payment_id s) (next_transfer_id s) (next_timestamp s) (app_batch_seq s)
    (app_metrics s) (drift_gauge s) (simulated_drift s).
Definition set_rail (r : SolanaRail) (s : App) : App :=
  mkApp (app_ledger s) (payments s) (idempotency s) (webhook_dedupe s) r (webhook_secret s)
    (app_scale s) (next_payment_id s) (next_transfer_id s) (next_timestamp s) (app_batch_seq s)
    (app_metrics s) (drift_gauge s) (simulated_drift s).
Definition set_counters (pid tid ts seq : N) (s : App) : App :=
  mkApp (app_ledger s) (payments s) (idempotency s) (webhook_dedupe s) (solana_rail s)
    (webhook_secret s) (app_scale s) pid tid ts seq (app_metrics s) (drift_gauge s)
    (simulated_drift s).
Definition set_observed (m : Metric -> N) (g : Z) (s : App) : App :=
  mkApp (app_ledger s) (payments s) (idempotency s) (webhook_dedupe s) (solana_rail s)
    (webhook_secret s) (app_scale s) (next_payment_id s) (next_transfer_id s) (next_timestamp s)
    (app_batch_seq s) m g (simulated_drift s).
Definition set_simulated (d : Z) (s : App) : App :=
  mkApp (app_ledger s) (payments s) (idempotency s) (webhook_dedupe s) (solana_rail s)
    (webhook_secret s) (app_scale s) (next_payment_id s) (next_transfer_id s) (next_timestamp s)
    (app_batch_seq s) (app_metrics s) (drift_gauge s) d.

(** Counters wrap at 64 bits. *)
Definition inc_metric (k : Metric) (n : N) (s : App) : App :=
  set_observed (alter (fun v => (v + n) mod 2 ^ 64) k (app_metrics s)) (drift_gauge s) s.

Abbreviation app A := (st App (failure HttpError) A).

Definition http {A} (c : StatusCode) (why : Cause) : app A := st_fail (Fails (mkHttp c why)).
Definition from_result {A E} (c : StatusCode) (why : E -> Cause) (r : result E A) : app A :=
  fun s => (s, map_err (fun e => Fails (mkHttp c (why e))) r).
(** A result of code that may panic. *)
Definition from_failing {A E} (c : StatusCode) (why : E -> Cause) (r : result (failure E) A) : app A :=
  fun s => (s, map_err (fun f => match f with Panic => Panic | Fails e => Fails (mkHttp c (why e)) end) r).

(** A ledger operation under the write lock; [undo] is what the error closure does. *)
Definition ledger_op (m : st Ledger LedgerError unit) (c : StatusCode) (undo : App -> App) : app unit :=
  fun s => match m (app_ledger s) with
           | (l, Ok _) => (set_app_ledger l s, Ok tt)
           | (l, Err e) => (undo (set_app_ledger l s), Err (Fails (mkHttp c (OfLedger e))))
           end.

(** [fetch_add(1)] on the three counters. *)
Definition alloc_payment_id : app N :=
  fun s => (set_counters ((next_payment_id s + 1) mod 2 ^ 64) (next_transfer_id s) (next_timestamp s)
              (app_batch_seq s) s, Ok (next_payment_id s)).
Definition alloc_transfer_id : app N :=
  fun s => (set_counters (next_payment_id s) ((next_transfer_id s + 1) mod 2 ^ 64) (next_timestamp s)
              (app_batch_seq s) s, Ok (next_transfer_id s)).
Definition alloc_timestamp : app N :=
  fun s => (set_counters (next_payment_id s) (next_transfer_id s) ((next_timestamp s + 1) mod 2 ^ 64)
              (app_batch_seq s) s, Ok (next_timestamp s)).

Definition insert_payment (id : N) (p : Payment) : app unit :=
  st_modify (fun s => set_payments (<[id := p]> (payments s)) s).

(** ** Requests and responses *)

Record AuthorizeRequest : Type := mkAuthorize {
  rq_merchant_id : N; rq_customer_id : N; rq_amount : N; rq_fee_amount : N;
  idempotency_key : string;
}.

Record PaymentResponse : Type := mkResponse {
  rp_payment_id : N; rp_state : PaymentState; rp_amount : N;
  rp_pending_transfer_id : option N; rp_posted_transfer_id : option N;
}.

Definition response (payment_id : N) (p : Payment) : PaymentResponse :=
  mkResponse payment_id (pay_state p) (pay_amount p) (pending_transfer_id p) (posted_transfer_id p).

(** JSON of responses and payloads: what was written is read back. *)
Class Json : Type := {
  response_to_json : PaymentResponse -> result string string;
  response_from_json : string -> result string PaymentResponse;
  payload_from_json : string -> result string WebhookPayload;
  response_json_roundtrip r s : response_to_json r = Ok s -> response_from_json s = Ok r;
}.

Record BalanceResponse : Type := mkBalanceResponse {
  br_merchant_id : N; posted_balance : N; pending_balance : N;
}.
Record DepositResponse : Type := mkDepositResponse {
  dr_customer_id : N; deposited_amount : N; new_balance : N;
}.
Record BatchResponse : Type := mkBatchResponse { br_submission : RailSubmission }.

Section api.
Context (sha256 : bytes -> Hash32) (display : ProofError -> string) (display_hex : HexError -> string).
Context (transfer_bytes : Transfer -> result string bytes).
Context (program_error_string : ProgramError -> string).
Context (settlement_error_string : SettlementProgramError -> string).
Context (hmac_sha256 : bytes -> bytes -> Hash32).
Context `{Borsh, Runtime, ProofBytes, Json}.

(** [AppState::new], for the two keys [Pubkey::new_unique] gives. *)
Definition App_new (secret : bytes) (program_id authority : Pubkey) :
    result (failure (PaymentError + RailError)) App :=
  let scale := Scale_usdc in
  ledger ← match setup_accounts scale [1; 2; 3] [101; 102; 103] 1000000000 1700000000 (Ledger_new scale) with
           | (l, Ok _) => Ok l
           | (_, Err Panic) => Err Panic
           | (_, Err (Fails e)) => Err (Fails (inl e))
           end;
  rail ← map_err (fun f => match f with Panic => Panic | Fails e => Fails (inr e) end)
           (SolanaRail_new sha256 display program_error_string program_id authority);
  Ok (mkApp ledger ∅ ∅ ∅ rail secret scale 5000 20000 1700000001 0 (fun _ => 0) 0 0).

(** ** Payments *)

Definition handle_authorize (req : AuthorizeRequest) : app PaymentResponse :=
  let? cached := (fun s => let '(m, r) := try_acquire (idempotency_key req) (idempotency s) in
                           (set_idempotency m s,
                            map_err (fun e => Fails (mkHttp CONFLICT (OfIdempotency e))) r)) in
  match cached with
  | Some cached_json => from_result INTERNAL_SERVER_ERROR OfJson (response_from_json cached_json)
  | None =>
      let? payment_id := alloc_payment_id in
      let? transfer_id := alloc_transfer_id in
      let? now := alloc_timestamp in
      let? customer_acc := or_panic (customer (rq_customer_id req)) in
      let? merchant_acc := or_panic (merchant (rq_merchant_id req)) in
      do? st_modify (inc_metric m_transfers_received 1);
      let reject s := set_idempotency (release_on_failure (idempotency_key req) (idempotency s))
                        (inc_metric m_transfers_rejected 1 s) in
      let? hold := (fun s => match new_pending transfer_id customer_acc merchant_acc (rq_amount req) now with
                             | Ok hold => (s, Ok hold)
                             | Err e => (reject s, Err (Fails (mkHttp BAD_REQUEST (OfLedger e))))
                             end) in
      do? ledger_op (create_pending hold) PAYMENT_REQUIRED reject;
      do? st_modify (inc_metric m_transfers_committed 1);
      let payment := new_authorized payment_id (rq_merchant_id req) (rq_customer_id req)
                       (rq_amount req) (rq_fee_amount req) transfer_id now in
      let resp := response payment_id payment in
      do? insert_payment payment_id payment;
      let? resp_json := from_result INTERNAL_SERVER_ERROR OfJson (response_to_json resp) in
      do? st_modify (fun s => set_idempotency (complete (idempotency_key req) resp_json (idempotency s)) s);
      st_ret resp
  end.

Definition get_payment (payment_id : N) : app Payment :=
  fun s => (s, ok_or (payments s !! payment_id)
              (Fails (mkHttp NOT_FOUND (Text ("payment " +:+ dec_string payment_id +:+ " not found"))))).

Definition pending_of (p : Payment) : app N :=
  fun s => (s, ok_or (pending_transfer_id p)
              (Fails (mkHttp BAD_REQUEST (Text "payment does not have pending transfer")))).

Definition handle_capture (payment_id : N) : app PaymentResponse :=
  let? payment := get_payment payment_id in
  let? pending_id := pending_of payment in
  let? post_transfer_id := alloc_transfer_id in
  let? now := alloc_timestamp in
  do? ledger_op (post_pending pending_id post_transfer_id (pay_amount payment) now)
        INTERNAL_SERVER_ERROR id;
  let? payment := from_result BAD_REQUEST OfPayment (transition_to_captured post_transfer_id now payment) in
  do? insert_payment payment_id payment;
  st_ret (response payment_id payment).

Definition handle_void (payment_id : N) : app PaymentResponse :=
  let? payment := get_payment payment_id in
  let? pending_id := pending_of payment in
  let? now := alloc_timestamp in
  do? ledger_op (void_pending pending_id now) INTERNAL_SERVER_ERROR id;
  let? payment := from_result BAD_REQUEST OfPayment (transition_to_voided now payment) in
  do? insert_payment payment_id payment;
  st_ret (response payment_id payment).

Definition handle_get_balance (merchant_id : N) : app BalanceResponse :=
  let? acc_id := or_panic (merchant merchant_id) in
  let? acc := (fun s => (s, map_err (fun _ => Fails (mkHttp NOT_FOUND (Text "merchant account not found")))
                              (get_account (app_ledger s) acc_id))) in
  st_ret (mkBalanceResponse merchant_id (credits_posted (acc_balance acc)) (credits_pending (acc_balance acc))).

Definition handle_customer_deposit (customer_id : N) (amount : option N) : app DepositResponse :=
  let deposit_amount := default 100000000 amount in
  let? transfer_id := alloc_transfer_id in
  let? now := alloc_timestamp in
  let? cust_acc := or_panic (customer customer_id) in
  let? deposit := from_result BAD_REQUEST OfLedger
                    (new_immediate transfer_id VAULT_ASSET cust_acc deposit_amount now) in
  do? ledger_op (create_transfer deposit) INTERNAL_SERVER_ERROR id;
  let? acc := (fun s => (s, map_err (fun _ => Fails (mkHttp NOT_FOUND
                  (Text ("Customer #" +:+ dec_string customer_id +:+ " account not found"))))
                (get_account (app_ledger s) cust_acc))) in
  st_ret (mkDepositResponse customer_id deposit_amount (credits_posted (acc_balance acc))).

(** ** Webhooks *)

(** The match on the type of the event. *)
Definition handle_event (payload : WebhookPayload) : app unit :=
  if decide (event_type payload = "charge.authorized"%string) then
    let? transfer_id := alloc_transfer_id in
    let? customer_acc := or_panic (customer (wh_customer_id payload)) in
    let? merchant_acc := or_panic (merchant (wh_merchant_id payload)) in
    let? hold := from_result BAD_REQUEST OfLedger
      (new_pending transfer_id customer_acc merchant_acc (wh_amount payload) (wh_timestamp payload)) in
    do? ledger_op (create_pending hold) PAYMENT_REQUIRED id;
    insert_payment (wh_payment_id payload)
      (new_authorized (wh_payment_id payload) (wh_merchant_id payload) (wh_customer_id payload)
         (wh_amount payload) (wh_fee_amount payload) transfer_id (wh_timestamp payload))
  else if decide (event_type payload = "charge.captured"%string) then
    fun s =>
      match payments s !! wh_payment_id payload with
      | None => (s, Ok tt)
      | Some payment =>
          match pending_transfer_id payment with
          | None => (s, Ok tt)
          | Some pending_id =>
              (let? post_id := alloc_transfer_id in
               do? ledger_op (post_pending pending_id post_id (pay_amount payment) (wh_timestamp payload))
                     INTERNAL_SERVER_ERROR id;
               let? payment := from_result BAD_REQUEST OfPayment
                 (transition_to_captured post_id (wh_timestamp payload) payment) in
               insert_payment (wh_payment_id payload) payment) s
          end
      end
  else http BAD_REQUEST (Text "unknown event type").

(** [signature] is the header, when present and printable. *)
Definition handle_webhook (signature : option string) (body : string) : app unit :=
  let? signature := from_result UNAUTHORIZED Text (ok_or signature "missing signature header"%string) in
  let? _ := (fun s => (s, map_err (fun _ => Fails (mkHttp UNAUTHORIZED (Text "invalid HMAC signature")))
     (verify_signature hmac_sha256 (webhook_secret s) (String.list_byte_of_string body) signature))) in
  let? payload := from_result BAD_REQUEST OfJson (payload_from_json body) in
  let? now := alloc_timestamp in
  do? from_result BAD_REQUEST OfWebhook (verify_freshness (wh_timestamp payload) now 300);
  do? (fun s => let '(m, r) := check_and_record (event_id payload) (webhook_dedupe s) in
                (set_dedupe m s, map_err (fun e => Fails (mkHttp CONFLICT (OfWebhook e))) r));
  handle_event payload.

(** ** Settlement *)

Definition unsettled (p : Payment) : bool :=
  bool_decide (pay_state p = Captured) && negb (bool_decide (is_Some (settlement_batch_seq p))).

Definition posted_ids (s : App) : list N :=
  omap (fun '(_, p) => if unsettled p then posted_transfer_id p else None) (map_to_list (payments s)).

Definition batch_transfers (s : App) : list Transfer :=
  filter (fun t => tr_id t ∈ posted_ids s) (btree_values (transfers (app_ledger s))).

Definition mark_settled (ids : list N) (seq : N) (p : Payment) : Payment :=
  if unsettled p && match posted_transfer_id p with
                    | Some id => bool_decide (id ∈ ids)
                    | None => false
                    end
  then with_batch seq p
  else p.

Definition handle_settlement_batch (rail : option string) : app BatchResponse :=
  let? transfers := st_reads (fun s => Ok (batch_transfers s)) in
  reject? bool_decide (transfers = [])
    with Fails (mkHttp BAD_REQUEST (Text "no transfers to settle"));
  let rail_choice := default "Solana-USDC"%string rail in
  let ach := bool_decide (rail_choice = "Mock-ACH"%string) in
  let? rail_batch_seq :=
    (if ach then
       st_reads (fun s => ok_or (checked_add U64_MAX (app_batch_seq s) 1)
         (Fails (mkHttp INTERNAL_SERVER_ERROR (Text "settlement batch sequence exhausted"))))
     else
       st_reads (fun s =>
         match current_settlement_root (solana_rail s) with
         | None => Ok 1
         | Some root => ok_or (checked_add U64_MAX (sr_batch_seq root) 1)
             (Fails (mkHttp INTERNAL_SERVER_ERROR (Text "Solana settlement batch sequence exhausted")))
         end)) in
  let? submission :=
    (if ach then from_result INTERNAL_SERVER_ERROR OfRail (ach_submit_batch rail_batch_seq transfers)
     else fun s =>
       let '(rail, r) := solana_submit_batch sha256 display transfer_bytes program_error_string
                           settlement_error_string rail_batch_seq transfers (solana_rail s) in
       from_failing INTERNAL_SERVER_ERROR OfRail r (set_rail rail s)) in
  do? st_modify (inc_metric m_settlement_batches_committed 1);
  do? st_modify (inc_metric m_settlement_amount_total (rs_total_amount submission mod 2 ^ 64));
  do? st_modify (fun s => set_payments
        (mark_settled (tr_id <$> transfers) (rs_batch_seq submission) <$> payments s) s);
  do? st_modify (fun s => set_counters (next_payment_id s) (next_transfer_id s) (next_timestamp s)
                            ((app_batch_seq s + 1) mod 2 ^ 64) s);
  st_ret (mkBatchResponse submission).

(** ** Reconciliation *)

Definition I128_MIN_Z : Z := (- 2 ^ 127)%Z.
Definition I128_MAX_Z : Z := (2 ^ 127 - 1)%Z.

(** [report.drift += drift_offset], overflow checked, with a new incident. *)
Definition add_drift (offset : Z) (r : ReconciliationReport) : option ReconciliationReport :=
  if (offset =? 0)%Z then Some r
  else
    let d := (drift r + offset)%Z in
    if (I128_MIN_Z <=? d)%Z && (d <=? I128_MAX_Z)%Z
    then Some (mkReport (rr_timestamp r) DriftDetected (app_settled_total r) (ledger_settled_total r)
                 (chain_settled_total r) d (reconciled_transfers r) (Some d))
    else None.

Definition clamp_i64 (d : Z) : Z := Z.max (- 2 ^ 63) (Z.min d (2 ^ 63 - 1)).

Definition run_audit (ps : list Payment) : app ReconciliationReport :=
  let? now := alloc_timestamp in
  let? report := (fun s => from_failing INTERNAL_SERVER_ERROR OfReconciliation
     (audit ps (app_ledger s) [1; 2; 3] (current_settlement_root (solana_rail s)) now) s) in
  fun s => or_panic (add_drift (simulated_drift s) report) s.

(** [payments.values()], in the order the map gives. *)
Definition payment_values (s : App) : list Payment := (map_to_list (payments s)).*2.

Definition handle_reconciliation : app ReconciliationReport :=
  let? ps := st_reads (fun s => Ok (payment_values s)) in
  let? report := run_audit ps in
  do? st_modify (inc_metric m_reconciliation_audits_total 1);
  do? st_modify (fun s => set_observed (app_metrics s) (clamp_i64 (drift report)) s);
  do? st_modify (match rr_status report with
                 | DriftDetected => inc_metric m_reconciliation_incidents_total 1
                 | Clean => id
                 end);
  st_ret report.

Definition handle_simulate_drift : app ReconciliationReport :=
  do? st_modify (set_simulated 50000000); handle_reconciliation.
Definition handle_heal_drift : app ReconciliationReport :=
  do? st_modify (set_simulated 0); handle_reconciliation.

(** ** The dashboard's data *)

Record AccountSummary : Type := mkSummary {
  as_id : N; as_label : string; as_type : string; as_balance : Balance; net_balance : Z;
}.

Record DashboardData : Type := mkDashboard {
  dd_payments : list Payment;
  dd_accounts : list AccountSummary;
  dd_batch_seq : N;
  dd_authority : Pubkey;
  dd_pda : Pubkey;
  dd_root : option string;
  dd_reconciliation : ReconciliationReport;
  total_captured_volume : N;
  total_transfers_count : N;
}.

(** [sort_by_key] with [Reverse]: the newest payment first. *)
Definition newer (p q : Payment) : Prop := pay_id q <= pay_id p.
#[global] Instance newer_dec : RelDecision newer.
Proof. intros p q. unfold newer. apply _. Defined.
Definition by_newest (ps : list Payment) : list Payment := merge_sort newer ps.

Definition tracked_ids : option (list (AccountId * string * string)) :=
  c1 ← customer 101; c2 ← customer 102; c3 ← customer 103;
  m1 ← merchant 1; m2 ← merchant 2; m3 ← merchant 3;
  Some [(VAULT_ASSET, "Bank Clearing Vault", "Asset"); (FEE_REVENUE, "Platform Fee Revenue", "Revenue");
        (c1, "Customer #101 (Alice)", "Liability"); (c2, "Customer #102 (Bob)", "Liability");
        (c3, "Customer #103 (Charlie)", "Liability"); (m1, "Merchant #1 (Acme Corp)", "Liability");
        (m2, "Merchant #2 (Globex)", "Liability"); (m3, "Merchant #3 (Soylent)", "Liability")]%string.

Fixpoint summaries (ledger : Ledger) (ids : list (AccountId * string * string)) :
    result LedgerError (list AccountSummary) :=
  match ids with
  | [] => Ok []
  | (id, label, acc_type) :: rest =>
      match get_account ledger id with
      | Err _ => summaries ledger rest
      | Ok acc =>
          net ← net_settled (acc_balance acc) (account_type acc);
          list ← summaries ledger rest;
          Ok (mkSummary id label acc_type (acc_balance acc) net :: list)
      end
  end.

(** Reading the data takes a timestamp. *)
Definition handle_dashboard_data : app DashboardData :=
  let? ps := st_reads (fun s => Ok (by_newest (payment_values s))) in
  let? batch_seq := st_reads (fun s => Ok (app_batch_seq s)) in
  let? ids := or_panic tracked_ids in
  let? accounts := (fun s => from_result INTERNAL_SERVER_ERROR OfLedger (summaries (app_ledger s) ids) s) in
  let? transfer_count := st_reads (fun s => Ok (N.of_nat (length (btree_values (transfers (app_ledger s)))))) in
  let? captured := from_result INTERNAL_SERVER_ERROR (fun _ => Text "captured-volume overflow")
                     (captured_total ps 0 0) in
  let? recon := run_audit ps in
  let? pda := (fun s => or_panic (pda_address (solana_rail s)) s) in
  fun s => (s, Ok (mkDashboard ps accounts batch_seq (authority (solana_rail s)) pda
                     (latest_root_hex (solana_rail s)) recon captured.1 transfer_count)).

(** ** Sample payments *)

Inductive SeedState : Type := SeedCaptured | SeedAuthorized | SeedVoided.

Definition seeds : list (N * N * N * N * SeedState) :=
  [(101, 1, 150000000, 1500000, SeedCaptured); (102, 2, 85500000, 855000, SeedCaptured);
   (103, 1, 42000000, 500000, SeedAuthorized); (101, 3, 20000000, 200000, SeedVoided)].

Fixpoint seed_deposits (customers : list N) : app unit :=
  match customers with
  | [] => st_ret tt
  | c_id :: rest =>
      let? deposit_now := alloc_timestamp in
      let? deposit_id := alloc_transfer_id in
      let? acc := or_panic (customer c_id) in
      let? deposit := from_result BAD_REQUEST OfLedger
                        (new_immediate deposit_id VAULT_ASSET acc 500000000 deposit_now) in
      do? ledger_op (create_transfer deposit) INTERNAL_SERVER_ERROR id;
      seed_deposits rest
  end.

Definition seed_one (seed : N * N * N * N * SeedState) : app unit :=
  let '(cust, merch, amt, fee, target) := seed in
  let? hold_ts := alloc_timestamp in
  let? p_id := alloc_payment_id in
  let? hold_id := alloc_transfer_id in
  let? cust_acc := or_panic (customer cust) in
  let? merch_acc := or_panic (merchant merch) in
  let? hold := from_result BAD_REQUEST OfLedger (new_pending hold_id cust_acc merch_acc amt hold_ts) in
  do? ledger_op (create_pending hold) PAYMENT_REQUIRED id;
  let payment := new_authorized p_id merch cust amt fee hold_id hold_ts in
  let? payment :=
    (match target with
     | SeedCaptured =>
         let? post_ts := alloc_timestamp in
         let? post_id := alloc_transfer_id in
         do? ledger_op (post_pending hold_id post_id amt post_ts) INTERNAL_SERVER_ERROR id;
         from_result BAD_REQUEST OfPayment (transition_to_captured post_id post_ts payment)
     | SeedVoided =>
         let? void_ts := alloc_timestamp in
         do? ledger_op (void_pending hold_id void_ts) INTERNAL_SERVER_ERROR id;
         from_result BAD_REQUEST OfPayment (transition_to_voided void_ts payment)
     | SeedAuthorized => st_ret payment
     end) in
  insert_payment p_id payment.

Definition handle_quick_seed : app N :=
  do? seed_deposits [101; 102; 103];
  do? st_for seed_one seeds;
  st_ret (N.of_nat (length seeds)).

(** ** Verification *)

(** [verified], with the receipt checked if there was one. *)
Definition handle_payment_verify (payment_id : N) : app (bool * option TransferReceipt) :=
  let? payment := (fun s => (s, ok_or (payments s !! payment_id)
     (Fails (mkHttp NOT_FOUND (Text ("Payment #" +:+ dec_string payment_id +:+ " not found")))))) in
  let? _ := (fun s => or_panic (pda_address (solana_rail s)) s) in
  match posted_transfer_id payment with
  | None => st_ret (false, None)
  | Some posted_id =>
      fun s =>
        match receipt_for_transfer sha256 transfer_bytes (solana_rail s) posted_id with
        | Err Panic => (s, Err Panic)
        | Err (Fails _) => (s, Ok (false, None))
        | Ok receipt =>
            match receipt_verify sha256 display_hex receipt with
            | Ok _ => (inc_metric m_merkle_proofs_verified 1 s, Ok (true, Some receipt))
            | Err _ => (s, Ok (false, Some receipt))
            end
        end
  end.

Definition handle_verify_receipt (receipt : TransferReceipt) : app bool :=
  fun s =>
    match receipt_verify sha256 display_hex receipt with
    | Ok _ => (inc_metric m_merkle_proofs_verified 1 s, Ok true)
    | Err e => (s, Err (Fails (mkHttp BAD_REQUEST (OfProof e))))
    end.

(** ** The routes that change state *)

Inductive Request : Type :=
| Authorize (req : AuthorizeRequest)
| Capture (payment_id : N)
| Void (payment_id : N)
| Deposit (customer_id : N) (amount : option N)
| Webhook (signature : option string) (body : string)
| SettlementBatch (rail : option string)
| Reconciliation
| SimulateDrift
| HealDrift
| QuickSeed
| ViewDashboard
| PaymentVerify (payment_id : N)
| VerifyReceipt (receipt : TransferReceipt).

Definition discard {A} (m : app A) : app unit := st_bind m (fun _ => st_ret tt).

Definition route (r : Request) : app unit :=
  match r with
  | Authorize req => discard (handle_authorize req)
  | Capture id => discard (handle_capture id)
  | Void id => discard (handle_void id)
  | Deposit id amount => discard (handle_customer_deposit id amount)
  | Webhook signature body => handle_webhook signature body
  | SettlementBatch rail => discard (handle_settlement_batch rail)
  | Reconciliation => discard handle_reconciliation
  | SimulateDrift => discard handle_simulate_drift
  | HealDrift => discard handle_heal_drift
  | QuickSeed => discard handle_quick_seed
  | ViewDashboard => discard handle_dashboard_data
  | PaymentVerify id => discard (handle_payment_verify id)
  | VerifyReceipt receipt => discard (handle_verify_receipt receipt)
  end.

(** Requests one after the other, until one of them panics. *)
Fixpoint serve_requests (rs : list Request) (s : App) : option App :=
  match rs with
  | [] => Some s
  | r :: rest =>
      match route r s with
      | (_, Err Panic) => None
      | (s', _) => serve_requests rest s'
      end
  end.

End api.
