(* ===== verification/PaymentBook.v ===== *)
(** * The payment book: an abstract state machine

    Payments and the ledger behind them as one state, with the steps the application may
    take on it, and the invariant those steps keep: every payment is backed by its own
    hold, and by a posted settlement once captured.  [ApiInv] shows that the handlers
    take no other steps. *)

From S2P Require Import Bytes Error Amount Account Transfer Ledger LedgerStep LedgerInv LedgerHistory Payment.
From stdpp Require Import list strings gmap relations.
From S2P Require Import Prelude.
#[local] Open Scope N_scope.

Abbreviation Book := (Ledger * gmap N Payment)%type.

(** The payment a hold was made for. *)
Definition made_for (t : Transfer) (p : Payment) : Prop :=
  customer (customer_id p) = Some (debit_account_id t) /\
  merchant (merchant_id p) = Some (credit_account_id t) /\ pay_amount p = tr_amount t.

Definition settle_marks (ids : list N) (seq : N) (p p' : Payment) : Prop :=
  p' = p \/
  (pay_state p = Captured /\ settlement_batch_seq p = None /\
   (exists q, posted_transfer_id p = Some q /\ q ∈ ids) /\
   p' = with_batch seq p).

(** Which accounts may receive deposits, and which payment numbers may be entered into
    which payments. *)
Record Policy : Type := mkPolicy {
  banked : AccountId -> Prop;
  enters : N -> gmap N Payment -> Prop;
}.
Definition anything : Policy := mkPolicy (fun _ => True) (fun _ _ => True).

Section steps.
Context (pol : Policy).

Inductive pstep : Book -> Book -> Prop :=
| ps_deposit l l' m t :
    lstep l (EvTransferPosted t) l' -> pending_id t = None -> banked pol (credit_account_id t) ->
    pstep (l, m) (l', m)
| ps_hold l l' m t :
    lstep l (EvTransferPendingCreated t) l' -> pstep (l, m) (l', m)
| ps_authorize l l' m t p :
    lstep l (EvTransferPendingCreated t) l' -> made_for t p -> pay_state p = Authorized ->
    pending_transfer_id p = Some (tr_id t) -> posted_transfer_id p = None ->
    settlement_batch_seq p = None -> enters pol (pay_id p) m ->
    pstep (l, m) (l', <[pay_id p := p]> m)
| ps_capture l l' m id p h q ts :
    m !! id = Some p -> pay_state p = Authorized -> pending_transfer_id p = Some h ->
    lstep l (EvTransferPendingPosted h q (pay_amount p) ts) l' ->
    pstep (l, m) (l', <[id := set_state Captured (Some q) ts p]> m)
| ps_void l l' m id p h x ts :
    m !! id = Some p -> pay_state p = Authorized -> pending_transfer_id p = Some h ->
    lstep l (EvTransferPendingVoided h x ts) l' ->
    pstep (l, m) (l', <[id := set_state PVoided (posted_transfer_id p) ts p]> m)
| ps_settle l m m' ids seq :
    (forall id p, m !! id = Some p -> exists p', m' !! id = Some p' /\ settle_marks ids seq p p') ->
    (forall id, m !! id = None -> m' !! id = None) ->
    pstep (l, m) (l, m').

End steps.

(** ** The invariant *)

(** The record of a payment against the ledger. *)
Definition backed (l : Ledger) (p : Payment) : Prop :=
  exists h t, pending_transfer_id p = Some h /\ transfers l !! h = Some t /\ made_for t p /\
    match pay_state p with
    | Authorized => tr_state t = Pending /\ posted_transfer_id p = None /\ settlement_batch_seq p = None
    | Captured => tr_state t = Posted /\ exists q s, posted_transfer_id p = Some q /\
        transfers l !! q = Some s /\ tr_state s = Posted /\ pending_id s = Some h /\ made_for s p
    | PVoided => tr_state t = Voided /\ posted_transfer_id p = None /\ settlement_batch_seq p = None
    | Refunded => False
    end.

Record book_inv (sc : Scale) (b : Book) : Prop := {
  bi_reach : reachable sc b.1;
  bi_key : forall id p, b.2 !! id = Some p -> pay_id p = id;
  bi_backed : forall id p, b.2 !! id = Some p -> backed b.1 p;
  bi_holds : forall i j p q, b.2 !! i = Some p -> b.2 !! j = Some q ->
    pending_transfer_id p = pending_transfer_id q -> i = j;
}.

(** Backing only looks at the hold and at the settlement. *)
Lemma backed_keep l l' p :
  backed l p ->
  (forall i t, (pending_transfer_id p = Some i \/ posted_transfer_id p = Some i) ->
     transfers l !! i = Some t -> transfers l' !! i = Some t) ->
  backed l' p.
Proof.
  intros (h & t & Hh & Ht & Hm & Hs) Hk. exists h, t.
  split_and!; [done|by apply Hk; [left|]|done|]. destruct (pay_state p); try done.
  destruct Hs as [Hst (q & s & Hq & Hsq & Hrest)]. split; [done|]. exists q, s.
  split_and!; [done| |apply Hrest..]. by apply Hk; [right|].
Qed.

(** A new transfer does not touch what exists. *)
Lemma fresh_keep l t l' ev i u :
  lstep l ev l' -> ev = EvTransferPosted t \/ ev = EvTransferPendingCreated t ->
  transfers l !! i = Some u -> transfers l' !! i = Some u.
Proof.
  intros Hs Hev Hi. destruct Hs as [| |v da ca [_ _ Hf _ _] _ _ _ _|v da ca [_ _ Hf _ _] _ _ _ _| |];
    destruct Hev; simplify_eq/=; by rewrite lookup_insert_ne by congruence.
Qed.

(** Ending a hold leaves every other transfer. *)
Lemma other_keep l h l' ev i u :
  lstep l ev l' ->
  (exists q x ts, ev = EvTransferPendingPosted h q x ts) \/ (exists x ts, ev = EvTransferPendingVoided h x ts) ->
  transfers l !! i = Some u -> i <> h -> transfers l' !! i = Some u.
Proof.
  intros Hs Hev Hi Hne.
  destruct Hs as [| | | |p q x ts g da ca _ Hq _ _ _ _ _ _|p ts g da ca _ _];
    destruct Hev as [(? & ? & ? & Hev)|(? & ? & Hev)]; simplify_eq/=.
  - by rewrite !lookup_insert_ne by congruence.
  - by rewrite lookup_insert_ne by congruence.
Qed.

Lemma made_for_restore s t p : made_for (restore_state s t) p <-> made_for t p.
Proof. done. Qed.

Lemma lstep_reachable sc l ev l' : reachable sc l -> lstep l ev l' -> reachable sc l'.
Proof. eauto with ledger. Qed.

(** Steps that only add a transfer. *)
Lemma book_inv_fresh sc l l' m t ev :
  book_inv sc (l, m) -> lstep l ev l' -> ev = EvTransferPosted t \/ ev = EvTransferPendingCreated t ->
  book_inv sc (l', m).
Proof.
  intros [Hr Hk Hb Hh] Hs Hev. simpl in *. constructor; simpl; [by eapply lstep_reachable|done| |done].
  intros id p Hp. eapply backed_keep; [by eapply Hb|]. intros i u _. by eapply fresh_keep.
Qed.

Lemma pending_created_lookup l t l' :
  lstep l (EvTransferPendingCreated t) l' ->
  transfers l' !! tr_id t = Some t /\ tr_state t = Pending /\ transfers l !! tr_id t = None.
Proof. intros Hs. inversion Hs as [| | |? ? ? [_ Hst Hf _ _] | |]; subst. simpl. by rewrite lookup_insert_eq. Qed.

Lemma book_inv_authorize sc l l' m t p :
  book_inv sc (l, m) -> lstep l (EvTransferPendingCreated t) l' -> made_for t p ->
  pay_state p = Authorized -> pending_transfer_id p = Some (tr_id t) -> posted_transfer_id p = None ->
  settlement_batch_seq p = None -> book_inv sc (l', <[pay_id p := p]> m).
Proof.
  intros Hinv Hs Hm Hst Hpend Hpost Hset.
  destruct (pending_created_lookup _ _ _ Hs) as (Hl & Hpd & Hf).
  pose proof (book_inv_fresh sc l l' m t _ Hinv Hs (or_intror eq_refl)) as [Hr Hk Hb Hh].
  destruct Hinv as [_ _ Hb0 _]. simpl in *.
  assert (forall id q, m !! id = Some q -> pending_transfer_id q <> Some (tr_id t)) as Hnew.
  { intros id q Hq E. destruct (Hb0 id q Hq) as (h & u & Hh' & Hu & _). congruence. }
  constructor; simpl; [done| | |].
  - intros id q. rewrite lookup_insert_Some. intros [[<- <-]|[_ Hq]]; eauto.
  - intros id q. rewrite lookup_insert_Some. intros [[<- <-]|[_ Hq]]; [|eauto].
    exists (tr_id t), t. rewrite Hst. done.
  - intros i j q q' Hq Hq' E. apply lookup_insert_Some in Hq as [[<- <-]|[? Hq]];
      apply lookup_insert_Some in Hq' as [[<- <-]|[? Hq']]; [done|..].
    + exfalso. eapply Hnew; [exact Hq'|]. congruence.
    + exfalso. eapply Hnew; [exact Hq|]. congruence.
    + by eapply Hh.
Qed.

(** What ending a hold leaves behind. *)
Lemma posted_lookup l h q x ts l' :
  lstep l (EvTransferPendingPosted h q x ts) l' ->
  exists t, transfers l !! h = Some t /\ tr_state t = Pending /\ transfers l !! q = None /\
    transfers l' !! h = Some (restore_state Posted t) /\
    transfers l' !! q = Some (mkTransfer q (debit_account_id t) (credit_account_id t) x Posted (Some h) ts).
Proof.
  intros Hs. inversion Hs as [| | | |? ? ? ? t da ca _ Hq [Hh Hst _ _ _ _] | ]; subst.
  exists t. simpl. rewrite lookup_insert_eq. rewrite lookup_insert_ne by congruence.
  by rewrite lookup_insert_eq.
Qed.

Lemma voided_lookup l h x ts l' :
  lstep l (EvTransferPendingVoided h x ts) l' ->
  exists t, transfers l !! h = Some t /\ tr_state t = Pending /\
    transfers l' !! h = Some (restore_state Voided t).
Proof.
  intros Hs. inversion Hs as [| | | | |? ? t da ca _ [Hh Hst _ _ _ _]]; subst.
  exists t. simpl. by rewrite lookup_insert_eq.
Qed.

(** The payments that keep their backing when the hold [h] ends. *)
Lemma backed_others sc l l' m ev h t id j p :
  book_inv sc (l, m) -> lstep l ev l' ->
  (exists q x ts, ev = EvTransferPendingPosted h q x ts) \/ (exists x ts, ev = EvTransferPendingVoided h x ts) ->
  transfers l !! h = Some t -> tr_state t = Pending ->
  (exists p0, m !! id = Some p0 /\ pending_transfer_id p0 = Some h) ->
  m !! j = Some p -> j <> id -> backed l' p.
Proof.
  intros [_ _ Hb Hh] Hs Hev Ht Hst (p0 & Hp0 & Hpend) Hp Hne. simpl in *.
  apply (backed_keep l); [by eapply Hb|]. intros i u Hi Hu.
  eapply other_keep; [done|done|done|]. intros ->. destruct Hi as [Hi|Hi].
  - apply Hne. eapply Hh; [done|done|congruence].
  - destruct (Hb j p Hp) as (h' & t' & _ & _ & _ & Hst'). destruct (pay_state p); try naive_solver.
    destruct Hst' as [_ (q & s & Hq & Hs' & Hs'' & _)]. simplify_eq. congruence.
Qed.

Lemma book_inv_end sc l l' m ev h t id p p' :
  book_inv sc (l, m) -> lstep l ev l' ->
  (exists q x ts, ev = EvTransferPendingPosted h q x ts) \/ (exists x ts, ev = EvTransferPendingVoided h x ts) ->
  transfers l !! h = Some t -> tr_state t = Pending -> m !! id = Some p ->
  pending_transfer_id p = Some h -> pending_transfer_id p' = Some h -> pay_id p' = pay_id p ->
  backed l' p' -> book_inv sc (l', <[id := p']> m).
Proof.
  intros Hinv Hs Hev Ht Hst Hp Hpend Hpend' Hid Hb'. pose proof Hinv as [Hr Hk Hb Hh]. simpl in *.
  constructor; simpl; [by eapply lstep_reachable|..].
  - intros j q. rewrite lookup_insert_Some. intros [[<- <-]|[_ Hq]]; [rewrite Hid|]; eauto.
  - intros j q. rewrite lookup_insert_Some. intros [[<- <-]|[Hne Hq]]; [done|].
    eapply (backed_others sc l l' m ev h t id j q); eauto.
  - intros i j q q' Hq Hq' E. apply lookup_insert_Some in Hq as [[<- <-]|[? Hq]];
      apply lookup_insert_Some in Hq' as [[<- <-]|[? Hq']]; [done|..].
    + eapply Hh; [exact Hp|exact Hq'|congruence].
    + eapply Hh; [exact Hq|exact Hp|congruence].
    + by eapply Hh.
Qed.

Lemma settle_marks_backed l ids seq p p' : settle_marks ids seq p p' -> backed l p -> backed l p'.
Proof.
  intros [->|(Hst & _ & _ & ->)] Hb; [done|]. destruct Hb as (h & t & Hh & Ht & Hm & Hs).
  exists h, t. simpl. rewrite Hst in *. done.
Qed.

Lemma settle_marks_same ids seq p p' :
  settle_marks ids seq p p' -> pending_transfer_id p' = pending_transfer_id p /\ pay_id p' = pay_id p.
Proof. intros [->|(_ & _ & _ & ->)]; done. Qed.

Lemma pstep_inv pol sc b b' : pstep pol b b' -> book_inv sc b -> book_inv sc b'.
Proof.
  destruct 1 as [l l' m t Hs _ _|l l' m t Hs|l l' m t p Hs Hm Hst Hpe Hpo Hse _
    |l l' m id p h q ts Hp Hst Hpe Hs|l l' m id p h x ts Hp Hst Hpe Hs|l m m' ids seq Hm Hn]; intros Hinv.
  - eapply book_inv_fresh; eauto.
  - eapply book_inv_fresh; eauto.
  - eapply book_inv_authorize; eauto.
  - destruct (posted_lookup _ _ _ _ _ _ Hs) as (t & Ht & Htp & _ & Ht' & Hq').
    pose proof (bi_backed _ _ Hinv id p Hp) as (h' & t' & Hh' & Hl' & Hmf & _). simpl in *. simplify_eq.
    eapply (book_inv_end sc l l' m _ h t id p); try done; [left; eauto|].
    exists h, (restore_state Posted t). simpl. split_and!; try done. exists q. eexists. split_and!; try done.
    unfold made_for in *. simpl. destruct Hmf as (? & ? & ?). done.
  - destruct (voided_lookup _ _ _ _ _ Hs) as (t & Ht & Htp & Ht').
    pose proof (bi_backed _ _ Hinv id p Hp) as (h' & t' & Hh' & Hl' & Hmf & Hbk). simpl in *. simplify_eq.
    rewrite Hst in Hbk. destruct Hbk as (_ & Hpo & Hse).
    eapply (book_inv_end sc l l' m _ h t id p); try done; [right; eauto|].
    exists h, (restore_state Voided t). simpl. split_and!; done.
  - destruct Hinv as [Hr Hk Hb Hh]. simpl in *.
    assert (forall id p', m' !! id = Some p' -> exists p, m !! id = Some p /\ settle_marks ids seq p p') as Hback.
    { intros id p' Hp'. destruct (m !! id) as [p|] eqn:E; [|by rewrite Hn in Hp'].
      destruct (Hm id p E) as (p'' & Hp'' & Hsm). simplify_eq. eauto. }
    constructor; simpl; [done|..].
    + intros id p' Hp'. destruct (Hback id p' Hp') as (p & Hp & Hsm).
      destruct (settle_marks_same _ _ _ _ Hsm) as [_ ->]. eauto.
    + intros id p' Hp'. destruct (Hback id p' Hp') as (p & Hp & Hsm). by eapply settle_marks_backed; eauto.
    + intros i j p' q' Hi Hj E. destruct (Hback i p' Hi) as (p & Hp & Hsm), (Hback j q' Hj) as (q & Hq & Hsm').
      destruct (settle_marks_same _ _ _ _ Hsm) as [E1 _], (settle_marks_same _ _ _ _ Hsm') as [E2 _].
      eapply Hh; [exact Hp|exact Hq|congruence].
Qed.

Lemma psteps_inv pol sc b b' : rtc (pstep pol) b b' -> book_inv sc b -> book_inv sc b'.
Proof. induction 1; eauto using pstep_inv. Qed.
