(* ===== verification/ApiInv.v ===== *)
(** * The handlers follow the payment book

    Every request moves the payments and the ledger by steps of [PaymentBook] only,
    whatever the outcome.  Operations that touch neither are [Quiet], and the class
    mechanism finds that out. *)

From S2P Require Import Bytes Error Amount Account Transfer Ledger LedgerStep LedgerInv Merkle Settle Payment Rail Api PaymentBook.
From stdpp Require Import list strings gmap relations.
From S2P Require Import Prelude Api.
#[local] Open Scope N_scope.

(** Payments and ledger, the state of [PaymentBook]. *)
Definition book (s : App) : Book := (app_ledger s, payments s).

(** An operation that leaves the part [view] of the state alone, whatever its outcome. *)
Class Frame {X A} (view : App -> X) (m : app A) : Prop := frame s : view (m s).1 = view s.
Abbreviation Quiet := (Frame book).

#[export] Hint Extern 5 (Frame _ _) => (intros ?; reflexivity) : typeclass_instances.
#[export] Hint Extern 6 (Frame _ _) => (intros ?; repeat case_match; reflexivity) : typeclass_instances.

#[export] Instance frame_bind {X A B} (view : App -> X) (m : app A) (f : A -> app B) :
  Frame view m -> (forall a, Frame view (f a)) -> Frame view (st_bind m f).
Proof.
  intros Hm Hf s. unfold st_bind. specialize (Hm s). destruct (m s) as [s' [a|e]]; [|done].
  by rewrite (Hf a s').
Qed.

#[export] Instance frame_if {X A} (view : App -> X) (b : bool) (m n : app A) :
  Frame view m -> Frame view n -> Frame view (if b then m else n).
Proof. by destruct b. Qed.

#[export] Instance frame_for {X A} (view : App -> X) (f : A -> app unit) l :
  (forall a, Frame view (f a)) -> Frame view (st_for f l).
Proof.
  intros Hf. induction l as [|a l IH]; [by intros s|]. simpl. by apply frame_bind.
Qed.

Lemma frame_ledger_op {X} (view : App -> X) m c undo :
  (forall l s, view (set_app_ledger l s) = view s) -> (forall s, view (undo s) = view s) ->
  Frame view (ledger_op m c undo).
Proof.
  intros Hl Hu s. unfold ledger_op. destruct (m (app_ledger s)) as [l [u|e]]; simpl; [done|]. by rewrite Hu.
Qed.
#[export] Hint Extern 4 (Frame _ (ledger_op _ _ _)) =>
  (apply frame_ledger_op; intros; reflexivity) : typeclass_instances.

(** The frame of a whole handler, bind by bind. *)
Ltac framed :=
  cbv zeta;
  repeat first
    [ apply frame_bind; [|intros ?]
    | match goal with |- Frame _ (match ?x with _ => _ end) => destruct x end
    | apply frame_ledger_op; intros; reflexivity
    | intros ?; reflexivity
    | intros ?; repeat case_match; reflexivity
    | typeclasses eauto ].

(** ** Runs over a part of the state *)

Section runs.
Context {X : Type} (view : App -> X).

(** A run from [P], with [Q] after an answer and [R] after an error. *)
Definition runs {A} (P : X -> Prop) (m : app A) (Q : A -> X -> Prop) (R : X -> Prop) : Prop :=
  forall s, P (view s) -> match m s with (s', Ok a) => Q a (view s') | (s', Err _) => R (view s') end.

Lemma runs_bind {A B} P Q R S (m : app A) (f : A -> app B) :
  runs P m Q R -> (forall a, runs (Q a) (f a) S R) -> runs P (st_bind m f) S R.
Proof.
  intros Hm Hf s Hs. specialize (Hm s Hs). unfold st_bind. destruct (m s) as [s' [a|e]]; [|done]. by apply Hf.
Qed.

Lemma runs_frame {A} (P R : X -> Prop) (m : app A) :
  Frame view m -> (forall v, P v -> R v) -> runs P m (fun _ => P) R.
Proof.
  intros Hf Hr s Hs. specialize (Hf s). destruct (m s) as [s' [a|e]]; simpl in Hf; rewrite Hf; auto.
Qed.

Lemma runs_weaken {A} (P P' R : X -> Prop) (Q Q' : A -> X -> Prop) m :
  runs P m Q R -> (forall v, P' v -> P v) -> (forall a v, Q a v -> Q' a v) -> runs P' m Q' R.
Proof.
  intros Hm Hp Hq s Hs. specialize (Hm s (Hp _ Hs)). destruct (m s) as [s' [a|e]]; auto.
Qed.

Lemma runs_state {A} P R (m : app A) s : runs P m (fun _ => R) R -> P (view s) -> R (view (m s).1).
Proof. intros Hm Hp. specialize (Hm s Hp). by destruct (m s) as [s' [a|e]]. Qed.

(** Operations that leave the part alone. *)
Lemma runs_pass {A B} (P R : X -> Prop) S (m : app A) (f : A -> app B) :
  Frame view m -> (forall v, P v -> R v) -> (forall a, runs P (f a) S R) -> runs P (st_bind m f) S R.
Proof. intros Hf Hr Hk. exact (runs_bind _ _ _ _ _ _ (runs_frame P R m Hf Hr) Hk). Qed.

Lemma runs_close {A} (P R : X -> Prop) (m : app A) :
  Frame view m -> (forall v, P v -> R v) -> runs P m (fun _ => R) R.
Proof. intros Hf Hr. exact (runs_weaken _ _ _ _ _ _ (runs_frame P R m Hf Hr) (fun _ H => H) (fun _ => Hr)). Qed.

Lemma discard_runs {A} P R (m : app A) : runs P m (fun _ => R) R -> runs P (discard m) (fun _ => R) R.
Proof. intros Hm. eapply runs_bind; [exact Hm|intros ?]. by apply runs_close. Qed.
End runs.

(** ** Runs as steps of the book *)

Section steps.
Context (pol : Policy).

(** What a run has done to a book that was [b]. *)
Definition follows {A} (b : Book) (run : App * result (failure HttpError) A) : Prop :=
  rtc (pstep pol) b (book run.1).

Lemma follows_bind {A B} b (m : app A) (f : A -> app B) s :
  follows b (m s) -> (forall s' a, m s = (s', Ok a) -> follows b (f a s')) -> follows b (st_bind m f s).
Proof. unfold st_bind. intros Hm Hf. destruct (m s) as [s' [a|e]] eqn:E; eauto. Qed.

Lemma follows_quiet {A} b (m : app A) s : Quiet m -> rtc (pstep pol) b (book s) -> follows b (m s).
Proof. intros Hq Hb. unfold follows. by rewrite Hq. Qed.

Lemma quiet_run {A} (m : app A) s s' r : Quiet m -> m s = (s', r) -> book s' = book s.
Proof. intros Hq E. rewrite <- (Hq s). by rewrite E. Qed.

(** A quiet operation in front. *)
Lemma follows_skip {A B} b (m : app A) (f : A -> app B) s :
  Quiet m -> rtc (pstep pol) b (book s) ->
  (forall s' a, book s' = book s -> m s = (s', Ok a) -> follows b (f a s')) ->
  follows b (st_bind m f s).
Proof.
  intros Hq Hb Hf. apply follows_bind; [by apply follows_quiet|]. intros s' a E. apply Hf; [|done].
  by apply (quiet_run m s s' (Ok a)).
Qed.

Lemma follows_discard {A} b (m : app A) s : follows b (m s) -> follows b (discard m s).
Proof. intros Hm. apply follows_bind; [done|]. intros s' a E. by rewrite E in Hm. Qed.

(** ** Ledger operations *)

(** The outcome of a ledger operation: its event happened, or nothing did. *)
Definition outcome (s : App) (ev : LedgerEvent) (run : App * result (failure HttpError) unit) : Prop :=
  match run.2 with
  | Ok _ => payments run.1 = payments s /\ lstep (app_ledger s) ev (app_ledger run.1)
  | Err _ => book run.1 = book s
  end.

Lemma ledger_op_outcome ev m c undo s :
  respects (app_ledger s) ev (m (app_ledger s)) -> (forall s, book (undo s) = book s) ->
  outcome s ev (ledger_op m c undo s).
Proof.
  intros Hr Hu. unfold ledger_op, outcome. destruct (m (app_ledger s)) as [l [[]|e]]; simpl in *; [done|].
  rewrite Hu. by subst.
Qed.

Lemma void_outcome h ts c s :
  exists x, outcome s (EvTransferPendingVoided h x ts) (ledger_op (void_pending h ts) c id s).
Proof.
  unfold ledger_op, outcome. destruct (void_pending h ts (app_ledger s)) as [l r] eqn:E.
  apply void_pending_respects in E. destruct r as [[]|e]; simpl.
  - destruct E as (g & _ & Hs). eauto.
  - exists 0. by subst.
Qed.

(** A ledger operation in front: give the event, then continue after it. *)
Lemma follows_op {B} b ev (m : app unit) (f : unit -> app B) s :
  outcome s ev (m s) -> rtc (pstep pol) b (book s) ->
  (forall s', m s = (s', Ok tt) -> payments s' = payments s -> lstep (app_ledger s) ev (app_ledger s') ->
     follows b (f tt s')) ->
  follows b (st_bind m f s).
Proof.
  unfold st_bind, outcome. intros Ho Hb Hf. destruct (m s) as [s' [[]|e]] eqn:E; simpl in Ho.
  - destruct Ho. by apply Hf.
  - unfold follows. simpl. by rewrite Ho.
Qed.

Lemma new_pending_ok id d c x ts t :
  new_pending id d c x ts = Ok t -> t = mkTransfer id d c x Pending None ts.
Proof. unfold new_pending. intros. by run_inv. Qed.

Lemma new_immediate_ok id d c x ts t :
  new_immediate id d c x ts = Ok t -> t = mkTransfer id d c x Posted None ts.
Proof. unfold new_immediate. intros. by run_inv. Qed.

(** The book is where it was: [here] closes it through the quiet operations. *)
Ltac here :=
  repeat match goal with H : book _ = _ |- _ => rewrite H; clear H end;
  solve [assumption | apply rtc_refl].
Ltac skip_quiet :=
  match goal with
  | |- follows _ (st_bind _ _ _) =>
      let E := fresh "Hbook" in
      apply follows_skip; [typeclasses eauto|here|intros ? ? E ?];
      try match type of E with _ = book ?y => match goal with H : book y = _ |- _ => rewrite H in E end end
  end.
Ltac end_quiet := apply follows_quiet; [typeclasses eauto|here].

(** The payments are those the policy was asked for. *)
Ltac entering :=
  repeat match goal with H : book ?y = _ |- context [payments ?y] => change (payments y) with (book y).2; rewrite H end.

(** ** Payments entering and leaving the hold *)

Lemma rtc_step {b0} {b1 b2 : Book} : rtc (pstep pol) b0 b1 -> pstep pol b1 b2 -> rtc (pstep pol) b0 b2.
Proof. intros. by eapply rtc_r. Qed.

Lemma book_split s l m : book s = (l, m) -> app_ledger s = l /\ payments s = m.
Proof. by intros [= <- <-]. Qed.

Ltac op_outcome H := apply ledger_op_outcome; [apply H|done].

(** From the book [bk] a payment made for the hold [t] may be entered. *)
Definition may_authorize (b bk : Book) (t : Transfer) : Prop :=
  forall p, made_for t p -> pay_state p = Authorized -> pending_transfer_id p = Some (tr_id t) ->
    posted_transfer_id p = None -> settlement_batch_seq p = None -> enters pol (pay_id p) bk.2 ->
    rtc (pstep pol) b (bk.1, <[pay_id p := p]> bk.2).

(** Entering a payment. *)
Definition may_insert (b bk : Book) (id : N) (p : Payment) : Prop := rtc (pstep pol) b (bk.1, <[id := p]> bk.2).

Lemma follows_insert b id p s : may_insert b (book s) id p -> follows b (insert_payment id p s).
Proof. done. Qed.

Lemma follows_insert_bind {B} b id p (f : unit -> app B) s :
  may_insert b (book s) id p -> (forall s', rtc (pstep pol) b (book s') -> follows b (f tt s')) ->
  follows b (st_bind (insert_payment id p) f s).
Proof. intros Hm Hf. by apply Hf. Qed.

(** An immediate transfer is a deposit. *)
Lemma follows_deposit {B} b c undo t (f : unit -> app B) s :
  rtc (pstep pol) b (book s) -> pending_id t = None -> banked pol (credit_account_id t) ->
  (forall s, book (undo s) = book s) -> (forall s', rtc (pstep pol) b (book s') -> follows b (f tt s')) ->
  follows b (st_bind (ledger_op (create_transfer t) c undo) f s).
Proof.
  intros Hb Ht Hk Hu Hf. eapply follows_op; [by op_outcome create_transfer_respects|done|].
  intros s' _ Hp Hs. apply Hf. eapply rtc_step; [exact Hb|]. unfold book. rewrite Hp. by eapply ps_deposit.
Qed.

(** A hold, and what follows once it is placed. *)
Lemma follows_hold {B} b c undo t (f : unit -> app B) s :
  rtc (pstep pol) b (book s) -> (forall s, book (undo s) = book s) ->
  (forall s', rtc (pstep pol) b (book s') -> payments s' = payments s -> may_authorize b (book s') t ->
     follows b (f tt s')) ->
  follows b (st_bind (ledger_op (create_pending t) c undo) f s).
Proof.
  intros Hb Hu Hf. eapply follows_op; [by op_outcome create_pending_respects|done|].
  intros s' _ Hp Hs. apply Hf.
  - eapply rtc_step; [exact Hb|]. unfold book. rewrite Hp. by eapply ps_hold.
  - done.
  - intros p Hm Hst Hpe Hpo Hse He. simpl in He. rewrite Hp in He.
    eapply rtc_step; [exact Hb|]. simpl. rewrite Hp. by eapply ps_authorize.
Qed.

(** A payment whose hold can be posted or voided has not been decided yet. *)
Lemma posting_authorized sc b id p h q x ts l' :
  book_inv sc b -> b.2 !! id = Some p -> pending_transfer_id p = Some h ->
  lstep b.1 (EvTransferPendingPosted h q x ts) l' -> pay_state p = Authorized.
Proof.
  intros Hi Hp Hh Hs. destruct (posted_lookup _ _ _ _ _ _ Hs) as (t & Ht & Hst & _).
  destruct (bi_backed _ _ Hi id p Hp) as (h' & t' & Hh' & Ht' & _ & Hm). simplify_eq.
  rewrite Hst in Hm. destruct (pay_state p); [done|by destruct Hm..|done].
Qed.

Lemma voiding_authorized sc b id p h x ts l' :
  book_inv sc b -> b.2 !! id = Some p -> pending_transfer_id p = Some h ->
  lstep b.1 (EvTransferPendingVoided h x ts) l' -> pay_state p = Authorized.
Proof.
  intros Hi Hp Hh Hs. destruct (voided_lookup _ _ _ _ _ Hs) as (t & Ht & Hst & _).
  destruct (bi_backed _ _ Hi id p Hp) as (h' & t' & Hh' & Ht' & _ & Hm). simplify_eq.
  rewrite Hst in Hm. destruct (pay_state p); [done|by destruct Hm..|done].
Qed.

(** Posting the hold of a payment and recording it, as the capture handlers do. *)
Lemma follows_capture {B} sc b c id p h q ts (k : Payment -> app B) s :
  book s = b -> book_inv sc b -> b.2 !! id = Some p -> pending_transfer_id p = Some h ->
  (forall p' s', may_insert b (book s') id p' -> follows b (k p' s')) ->
  follows b
    (st_bind (ledger_op (post_pending h q (pay_amount p) ts) INTERNAL_SERVER_ERROR (fun s => s)) (fun _ =>
     st_bind (from_result c OfPayment (transition_to_captured q ts p)) k) s).
Proof.
  intros <- Hi Hp Hh Hk. eapply follows_op; [by op_outcome post_pending_respects|done|].
  intros s' _ Hm Hs. pose proof (posting_authorized _ _ _ _ _ _ _ _ _ Hi Hp Hh Hs) as Ha.
  unfold transition_to_captured. rewrite bool_decide_eq_true_2 by done. simpl. apply Hk.
  apply rtc_once. simpl. rewrite Hm. by eapply ps_capture.
Qed.

Lemma follows_void {B} sc b c id p h ts (k : Payment -> app B) s :
  book s = b -> book_inv sc b -> b.2 !! id = Some p -> pending_transfer_id p = Some h ->
  (forall p' s', may_insert b (book s') id p' -> follows b (k p' s')) ->
  follows b
    (st_bind (ledger_op (void_pending h ts) INTERNAL_SERVER_ERROR (fun s => s)) (fun _ =>
     st_bind (from_result c OfPayment (transition_to_voided ts p)) k) s).
Proof.
  intros <- Hi Hp Hh Hk. destruct (void_outcome h ts INTERNAL_SERVER_ERROR s) as [x Ho].
  eapply follows_op; [exact Ho|done|].
  intros s' _ Hm Hs. pose proof (voiding_authorized _ _ _ _ _ _ _ _ Hi Hp Hh Hs) as Ha.
  unfold transition_to_voided. rewrite bool_decide_eq_true_2 by done. simpl. apply Hk.
  apply rtc_once. simpl. rewrite Hm. by eapply ps_void.
Qed.

Section handlers.
Context (sha256 : bytes -> Hash32) (display : ProofError -> string) (display_hex : HexError -> string).
Context (transfer_bytes : Transfer -> result string bytes).
Context (program_error_string : ProgramError -> string).
Context (settlement_error_string : SettlementProgramError -> string).
Context (hmac_sha256 : bytes -> bytes -> Hash32).
Context `{Borsh, Runtime, ProofBytes, Json}.
Context (sc : Scale).

Lemma or_panic_ok {A} (o : option A) (s s' : App) (a : A) :
  or_panic (E := HttpError) o s = (s', Ok a) -> o = Some a.
Proof. unfold or_panic. by destruct o; intros [= <- <-]. Qed.

Lemma from_result_ok {A E} c (why : E -> Cause) (r : result E A) s s' a :
  from_result c why r s = (s', Ok a) -> r = Ok a.
Proof. unfold from_result. by destruct r; intros [= <- <-]. Qed.

Lemma authorize_follows req s :
  enters pol (next_payment_id s) (payments s) -> follows (book s) (handle_authorize req s).
Proof.
  intros Hen. unfold handle_authorize. apply follows_skip; [typeclasses eauto|here|].
  intros s0 a Hb0 E0. assert (next_payment_id s0 = next_payment_id s) as Hn0 by
    (destruct (try_acquire _ _) as [? ?]; by injection E0 as <- _). destruct a as [json|]; [end_quiet|].
  skip_quiet. match goal with H : alloc_payment_id _ = _ |- _ => injection H as _ <- end.
  do 6 skip_quiet. case_match eqn:Eh; [|done].
  match goal with H : (_, Ok _) = (_, Ok _) |- _ => injection H as <- <- end.
  apply new_pending_ok in Eh as ->. repeat match goal with H : or_panic _ _ = _ |- _ => apply or_panic_ok in H end.
  apply follows_hold; [here|done|]. intros s1 Hr Hp Hm. skip_quiet.
  apply follows_insert_bind.
  { match goal with H : book _ = book s1 |- _ => rewrite H end. apply Hm; try done. simpl. rewrite Hn0, Hp. by entering. }
  intros s2 Hr2. end_quiet.
Qed.

Lemma get_payment_ok id s s' p : get_payment id s = (s', Ok p) -> payments s !! id = Some p.
Proof. unfold get_payment. destruct (_ !! _); by intros [= <- <-]. Qed.

Lemma pending_of_ok p s s' h : pending_of p s = (s', Ok h) -> pending_transfer_id p = Some h.
Proof. unfold pending_of. destruct (pending_transfer_id p); by intros [= <- <-]. Qed.

Lemma capture_follows id s : book_inv sc (book s) -> follows (book s) (handle_capture id s).
Proof.
  intros Hi. unfold handle_capture. do 4 skip_quiet.
  eapply (follows_capture sc); [done|done|by eapply get_payment_ok|by eapply pending_of_ok|].
  intros p1 s1 Hm. apply follows_insert_bind; [done|]. intros s2 Hr. end_quiet.
Qed.

Lemma void_follows id s : book_inv sc (book s) -> follows (book s) (handle_void id s).
Proof.
  intros Hi. unfold handle_void. do 3 skip_quiet.
  eapply (follows_void sc); [done|done|by eapply get_payment_ok|by eapply pending_of_ok|].
  intros p1 s1 Hm. apply follows_insert_bind; [done|]. intros s2 Hr. end_quiet.
Qed.

Lemma deposit_follows id x s :
  (forall a, customer id = Some a -> banked pol a) -> follows (book s) (handle_customer_deposit id x s).
Proof.
  intros Hk. unfold handle_customer_deposit. do 4 skip_quiet.
  match goal with H : from_result _ _ _ _ = _ |- _ => apply from_result_ok, new_immediate_ok in H as -> end.
  apply follows_deposit; [here|done|by eapply Hk, or_panic_ok|done|]. intros s1 Hr. end_quiet.
Qed.

Lemma event_follows pl b s :
  book s = b -> book_inv sc b ->
  (event_type pl = "charge.authorized"%string -> enters pol (wh_payment_id pl) b.2) ->
  follows b (handle_event pl s).
Proof.
  intros Hb Hi Hen. unfold handle_event. case_decide; [|case_decide].
  - do 4 skip_quiet.
    match goal with H : from_result _ _ _ _ = _ |- _ => apply from_result_ok, new_pending_ok in H as -> end.
    repeat match goal with H : or_panic _ _ = _ |- _ => apply or_panic_ok in H end.
    apply follows_hold; [here|done|]. intros s1 Hr Hp Hm. apply follows_insert. apply Hm; try done.
    simpl. rewrite Hp. entering. auto.
  - destruct (payments _ !! _) as [p|] eqn:Ep; [|unfold follows; simpl; here].
    destruct (pending_transfer_id p) as [h|] eqn:Eh; [|unfold follows; simpl; here]. skip_quiet.
    eapply (follows_capture sc); [done|done| |done|].
    + by rewrite <- Hb.
    + intros p1 s1 Hm. by apply follows_insert.
  - end_quiet.
Qed.

(** A delivery that authorises may enter its payment. *)
Definition may_deliver (body : string) (m : gmap N Payment) : Prop :=
  forall pl, payload_from_json body = Ok pl -> event_type pl = "charge.authorized"%string ->
    enters pol (wh_payment_id pl) m.

Lemma webhook_follows sig body s :
  book_inv sc (book s) -> may_deliver body (payments s) -> follows (book s) (handle_webhook hmac_sha256 sig body s).
Proof.
  intros Hi Hd. unfold handle_webhook. do 6 skip_quiet. apply event_follows; [done|done|].
  apply Hd. by eapply from_result_ok.
Qed.

(** Settlement marks payments and changes nothing else in the book. *)
Lemma mark_settled_marks ids seq p : settle_marks ids seq p (mark_settled ids seq p).
Proof.
  unfold mark_settled, unsettled. destruct (bool_decide (pay_state p = Captured)) eqn:Es; [|by left].
  apply bool_decide_eq_true in Es. destruct (settlement_batch_seq p) as [q|] eqn:Eb; [by left|].
  destruct (posted_transfer_id p) as [t|] eqn:Et; [|by left]. simpl. case_bool_decide; [|by left].
  right. rewrite Et. eauto 6.
Qed.

Lemma mark_all_step l m ids seq : pstep pol (l, m) (l, mark_settled ids seq <$> m).
Proof.
  apply (ps_settle _ l m _ ids seq).
  - intros id p Hp. rewrite lookup_fmap, Hp. simpl. eauto using mark_settled_marks.
  - intros id Hn. by rewrite lookup_fmap, Hn.
Qed.

Abbreviation settlement_batch := (handle_settlement_batch sha256 display transfer_bytes
  program_error_string settlement_error_string).

Lemma settlement_follows rail s : follows (book s) (settlement_batch rail s).
Proof.
  unfold handle_settlement_batch. skip_quiet. case_bool_decide; [end_quiet|].
  do 4 skip_quiet. rewrite st_bind_modify.
  match goal with |- follows _ (_ (set_payments _ ?s3)) =>
    assert (rtc (pstep pol) (book s) (app_ledger s3, payments s3)) as Hr by (change (rtc (pstep pol) (book s) (book s3)); here) end.
  apply follows_quiet; [typeclasses eauto|]. eapply rtc_step; [exact Hr|]. apply mark_all_step.
Qed.

Lemma reconciliation_quiet : Quiet handle_reconciliation.
Proof. unfold handle_reconciliation, run_audit. typeclasses eauto. Qed.

(** The sample payments. *)
Lemma seed_deposits_follows cs s :
  (forall c a, c ∈ cs -> customer c = Some a -> banked pol a) -> follows (book s) (seed_deposits cs s).
Proof.
  intros Hk. enough (forall b, rtc (pstep pol) b (book s) -> follows b (seed_deposits cs s)) as E by (apply E; here).
  revert s Hk. induction cs as [|c cs IH]; intros s Hk b Hb; [exact Hb|]. simpl. do 4 skip_quiet.
  match goal with H : from_result _ _ _ _ = _ |- _ => apply from_result_ok, new_immediate_ok in H as -> end.
  apply follows_deposit; [here|done|by eapply Hk, or_panic_ok; [left|]|done|]. intros s1 Hr. apply IH; [|done].
  intros c' a' Hin. apply Hk. by right.
Qed.

(** A payment that is entered when its hold has already ended. *)
Lemma seed_captured b s s2 h q x ts p id :
  payments s2 = payments s -> lstep (app_ledger s) (EvTransferPendingPosted h q x ts) (app_ledger s2) ->
  may_insert b (book s) id p -> pay_state p = Authorized -> pending_transfer_id p = Some h -> pay_amount p = x ->
  follows b (st_bind (from_result BAD_REQUEST OfPayment (transition_to_captured q ts p)) (insert_payment id) s2).
Proof.
  intros Hp Hs Hm Hst Hh <-. unfold transition_to_captured. rewrite bool_decide_eq_true_2 by done.
  eapply rtc_step; [exact Hm|]. unfold book. simpl. rewrite Hp.
  pose proof (ps_capture pol _ _ _ id p h q ts (lookup_insert_eq (payments s) id p) Hst Hh Hs) as Hc.
  by rewrite insert_insert_eq in Hc.
Qed.

Lemma seed_voided b s s2 h x ts p id :
  payments s2 = payments s -> lstep (app_ledger s) (EvTransferPendingVoided h x ts) (app_ledger s2) ->
  may_insert b (book s) id p -> pay_state p = Authorized -> pending_transfer_id p = Some h ->
  follows b (st_bind (from_result BAD_REQUEST OfPayment (transition_to_voided ts p)) (insert_payment id) s2).
Proof.
  intros Hp Hs Hm Hst Hh. unfold transition_to_voided. rewrite bool_decide_eq_true_2 by done.
  eapply rtc_step; [exact Hm|]. unfold book. simpl. rewrite Hp.
  pose proof (ps_void pol _ _ _ id p h x ts (lookup_insert_eq (payments s) id p) Hst Hh Hs) as Hc.
  by rewrite insert_insert_eq in Hc.
Qed.

Lemma seed_one_follows seed b s :
  rtc (pstep pol) b (book s) -> enters pol (next_payment_id s) (payments s) -> follows b (seed_one seed s).
Proof.
  intros Hb Hen. destruct seed as [[[[c m] x] fee] target]. unfold seed_one. do 6 skip_quiet.
  match goal with H : alloc_payment_id _ = _, H' : alloc_timestamp s = _ |- _ =>
    injection H as _ <-; injection H' as <- _ end.
  match goal with H : from_result _ _ _ _ = _ |- _ => apply from_result_ok, new_pending_ok in H as -> end.
  repeat match goal with H : or_panic _ _ = _ |- _ => apply or_panic_ok in H end.
  apply follows_hold; [here|done|]. intros s1 Hr Hp1 Hm.
  assert (enters pol (next_payment_id s) (payments s1)) as Hen1 by (rewrite Hp1; by entering).
  destruct target; rewrite ?st_bind_assoc.
  - skip_quiet. rewrite st_bind_assoc. skip_quiet. rewrite st_bind_assoc.
    eapply follows_op; [by op_outcome post_pending_respects|here|]. intros s2 _ Hp Hs.
    match goal with H : book ?y = book s1 |- _ => apply (seed_captured b y s2 _ _ _ _ _ _ Hp Hs); [rewrite H; by apply Hm|done..] end.
  - by apply follows_insert, Hm.
  - skip_quiet. rewrite st_bind_assoc.
    match goal with H : book ?y = book s1 |- context [void_pending ?h ?ts] =>
      destruct (void_outcome h ts INTERNAL_SERVER_ERROR y) as [v Ho]; eapply follows_op; [exact Ho|here|];
      intros s2 _ Hp Hs; apply (seed_voided b y s2 _ _ _ _ _ Hp Hs); [rewrite H; by apply Hm|done..] end.
Qed.

(** The sample payments take their numbers from the counter: [room n] says that the next
    [n] of them may be entered, and survives the deposits. *)
Context (room : nat -> App -> Prop).
Context (room_enters : forall n s, room (S n) s -> enters pol (next_payment_id s) (payments s)).
Context (room_seed : forall n d s, room (S n) s -> room n (seed_one d s).1).
Context (room_deposits : forall n cs s, room n s -> room n (seed_deposits cs s).1).

Lemma seeds_follow ss b s :
  rtc (pstep pol) b (book s) -> room (length ss) s -> follows b (st_for seed_one ss s).
Proof.
  revert s. induction ss as [|d ss IH]; intros s Hb Hroom; [exact Hb|]. simpl in *.
  pose proof (seed_one_follows d b s Hb (room_enters _ _ Hroom)) as Hd. apply (room_seed _ d) in Hroom.
  apply follows_bind; [done|]. intros s1 u E. rewrite E in *. by apply IH.
Qed.

Lemma quick_seed_follows s :
  (forall c a, c ∈ [101; 102; 103] -> customer c = Some a -> banked pol a) -> room (length seeds) s ->
  follows (book s) (handle_quick_seed s).
Proof.
  intros Hk Hroom. pose proof (seed_deposits_follows _ s Hk) as Hd. apply (room_deposits _ [101; 102; 103]) in Hroom.
  unfold handle_quick_seed. apply follows_bind; [done|]. intros s1 u E. rewrite E in *.
  pose proof (seeds_follow seeds (book s) s1 Hd Hroom) as Hs. apply follows_bind; [done|].
  intros s2 u2 E2. by rewrite E2 in Hs.
Qed.

Lemma dashboard_quiet : Quiet handle_dashboard_data.
Proof. unfold handle_dashboard_data, run_audit. typeclasses eauto. Qed.

Lemma verify_quiet id : Quiet (handle_payment_verify sha256 display_hex transfer_bytes id).
Proof. unfold handle_payment_verify. typeclasses eauto. Qed.

Abbreviation routed := (route sha256 display display_hex transfer_bytes program_error_string
  settlement_error_string hmac_sha256).

(** The requests the policy lets through. *)
Definition allowed (r : Request) (m : gmap N Payment) : Prop :=
  match r with
  | Deposit id _ => forall a, customer id = Some a -> banked pol a
  | Webhook _ body => may_deliver body m
  | QuickSeed => forall c a, c ∈ [101; 102; 103] -> customer c = Some a -> banked pol a
  | _ => True
  end.

Lemma route_follows r s :
  book_inv sc (book s) -> allowed r (payments s) -> room (length seeds) s -> follows (book s) (routed r s).
Proof.
  intros Hi Ha Hroom. pose proof (room_enters 3 s Hroom) as Hen. destruct r; simpl; try apply follows_discard;
    eauto using authorize_follows, capture_follows, void_follows, deposit_follows, webhook_follows,
      settlement_follows, quick_seed_follows;
    (apply follows_quiet; [|here]);
    unfold handle_simulate_drift, handle_heal_drift;
    auto using reconciliation_quiet, dashboard_quiet, verify_quiet with typeclass_instances.
  unfold handle_verify_receipt. typeclasses eauto.
Qed.

(** ** What the handlers leave alone *)

(** The state outside the book: the rail, the idempotency keys, the webhook events seen. *)
Definition ties (s : App) := (solana_rail s, idempotency s, webhook_dedupe s).

Lemma capture_frame id : Frame ties (handle_capture id).
Proof. unfold handle_capture. framed. Qed.
Lemma void_frame id : Frame ties (handle_void id).
Proof. unfold handle_void. framed. Qed.
Lemma deposit_frame id x : Frame ties (handle_customer_deposit id x).
Proof. unfold handle_customer_deposit. framed. Qed.
Lemma reconciliation_frame : Frame ties handle_reconciliation.
Proof. unfold handle_reconciliation, run_audit. framed. Qed.
Lemma dashboard_frame : Frame ties handle_dashboard_data.
Proof. unfold handle_dashboard_data, run_audit. framed. Qed.
Lemma verify_frame id : Frame ties (handle_payment_verify sha256 display_hex transfer_bytes id).
Proof. unfold handle_payment_verify. framed. Qed.
Lemma verify_receipt_frame rc : Frame ties (handle_verify_receipt sha256 display_hex rc).
Proof. unfold handle_verify_receipt. framed. Qed.
Lemma seed_one_frame d : Frame ties (seed_one d).
Proof. unfold seed_one. framed. Qed.
Lemma quick_seed_frame : Frame ties handle_quick_seed.
Proof.
  unfold handle_quick_seed. apply frame_bind.
  - generalize [101; 102; 103]. intros cs. induction cs; simpl; framed.
  - intros _. apply frame_bind; [apply frame_for, seed_one_frame|intros _ s; reflexivity].
Qed.

Lemma authorize_frame req : Frame (fun s => (solana_rail s, webhook_dedupe s)) (handle_authorize req).
Proof. unfold handle_authorize. framed. Qed.
Lemma event_frame pl : Frame ties (handle_event pl).
Proof.
  unfold handle_event. framed. intros s'. destruct (payments s' !! _) as [p|]; [|done].
  destruct (pending_transfer_id p) as [h|]; [|done]. apply (frame (view := ties)).
Qed.
Lemma webhook_frame sig body :
  Frame (fun s => (solana_rail s, idempotency s)) (handle_webhook hmac_sha256 sig body).
Proof.
  unfold handle_webhook. framed. intros s'.
  match goal with pl : WebhookPayload |- _ => pose proof (event_frame pl s') as E end. by injection E as -> -> _.
Qed.
Lemma settlement_frame rail : Frame (fun s => (idempotency s, webhook_dedupe s)) (settlement_batch rail).
Proof. unfold handle_settlement_batch. framed. Qed.

(** Which parts a request can reach. *)
Definition is_settlement (r : Request) : bool := match r with SettlementBatch _ => true | _ => false end.
Definition is_authorize (r : Request) : bool := match r with Authorize _ => true | _ => false end.
Definition is_webhook (r : Request) : bool := match r with Webhook _ _ => true | _ => false end.

Lemma discard_state {A} (m : app A) s : (discard m s).1 = (m s).1.
Proof. unfold discard, st_bind. by destruct (m s) as [s' [a|e]]. Qed.

Lemma route_frame r s :
  (is_settlement r = false -> solana_rail (routed r s).1 = solana_rail s) /\
  (is_authorize r = false -> idempotency (routed r s).1 = idempotency s) /\
  (is_webhook r = false -> webhook_dedupe (routed r s).1 = webhook_dedupe s).
Proof.
  destruct r as [req|id|id|id x|sig body|rail| | | | | |id|rc]; simpl; rewrite ?discard_state.
  - pose proof (authorize_frame req s) as E. injection E as -> ->. done.
  - pose proof (capture_frame id s) as E. injection E as -> -> ->. done.
  - pose proof (void_frame id s) as E. injection E as -> -> ->. done.
  - pose proof (deposit_frame id x s) as E. injection E as -> -> ->. done.
  - pose proof (webhook_frame sig body s) as E. injection E as -> ->. done.
  - pose proof (settlement_frame rail s) as E. injection E as -> ->. done.
  - pose proof (reconciliation_frame s) as E. injection E as -> -> ->. done.
  - pose proof (reconciliation_frame (set_simulated 50000000 s)) as E. injection E as E1 E2 E3.
    by rewrite <- E1, <- E2, <- E3.
  - pose proof (reconciliation_frame (set_simulated 0 s)) as E. injection E as E1 E2 E3.
    by rewrite <- E1, <- E2, <- E3.
  - pose proof (quick_seed_frame s) as E. injection E as -> -> ->. done.
  - pose proof (dashboard_frame s) as E. injection E as -> -> ->. done.
  - pose proof (verify_frame id s) as E. injection E as -> -> ->. done.
  - pose proof (verify_receipt_frame rc s) as E. injection E as -> -> ->. done.
Qed.

(** ** Any requests *)

Abbreviation serve := (serve_requests sha256 display display_hex transfer_bytes program_error_string
  settlement_error_string hmac_sha256).

Lemma serve_cons r rs s s' :
  serve (r :: rs) s = Some s' -> serve rs (routed r s).1 = Some s'.
Proof. simpl. destruct (routed r s) as [s1 [u|[|e]]]; done. Qed.

(** ** The application as it starts *)

Definition keeps_reachable {E A} (m : st Ledger E A) : Prop := forall l, reachable sc l -> reachable sc (m l).1.

Lemma keeps_bind {E A B} (m : st Ledger E A) (f : A -> st Ledger E B) :
  keeps_reachable m -> (forall a, keeps_reachable (f a)) -> keeps_reachable (st_bind m f).
Proof.
  intros Hm Hf l Hl. unfold st_bind. specialize (Hm l Hl). destruct (m l) as [l' [a|e]]; [|done].
  by apply Hf.
Qed.

Lemma keeps_ledger (m : st Ledger LedgerError unit) ev :
  (forall l, respects l ev (m l)) -> keeps_reachable (in_ledger m).
Proof.
  intros Hm l Hl. unfold in_ledger. specialize (Hm l). destruct (m l) as [l' [[]|e]]; simpl in *; subst; [|done].
  by eapply lstep_reachable.
Qed.

Lemma keeps_account id ty fl sc' ts : keeps_reachable (in_ledger (create_account id ty fl sc' ts)).
Proof. eapply keeps_ledger. intros l. apply create_account_respects. Qed.

Lemma setup_accounts_reachable sc' ms cs deposit ts : keeps_reachable (setup_accounts sc' ms cs deposit ts).
Proof.
  unfold setup_accounts. apply keeps_bind; [apply keeps_account|intros _].
  apply keeps_bind; [apply keeps_account|intros _]. apply keeps_bind; [|intros _].
  - induction ms as [|m ms IH]; [by intros l Hl|]. simpl. apply keeps_bind; [by intros l Hl|intros a].
    apply keeps_bind; [apply keeps_account|done].
  - generalize 0. induction cs as [|c cs IH]; intros i; [by intros l Hl|]. simpl.
    apply keeps_bind; [by intros l Hl|intros a]. apply keeps_bind; [apply keeps_account|intros _].
    apply keeps_bind; [|done]. destruct (0 <? deposit); [|by intros l Hl].
    apply keeps_bind; [|intros t]; [intros l Hl; unfold in_ledger; done|].
    eapply keeps_ledger. intros l. apply create_transfer_respects.
Qed.
End handlers.
End steps.

Section anything.
Context (sha256 : bytes -> Hash32) (display : ProofError -> string) (display_hex : HexError -> string).
Context (transfer_bytes : Transfer -> result string bytes).
Context (program_error_string : ProgramError -> string).
Context (settlement_error_string : SettlementProgramError -> string).
Context (hmac_sha256 : bytes -> bytes -> Hash32).
Context `{Borsh, Runtime, ProofBytes, Json}.
Context (sc : Scale).

Abbreviation routed := (route sha256 display display_hex transfer_bytes program_error_string
  settlement_error_string hmac_sha256).
Abbreviation serve := (serve_requests sha256 display display_hex transfer_bytes program_error_string
  settlement_error_string hmac_sha256).

(** Without a policy every request is let through. *)
Lemma route_steps r s : book_inv sc (book s) -> rtc (pstep anything) (book s) (book (routed r s).1).
Proof.
  intros Hi. apply (route_follows anything _ _ _ _ _ _ _ sc (fun _ _ => True)); try done.
  by destruct r.
Qed.

Lemma serve_follows rs s s' :
  book_inv sc (book s) -> serve rs s = Some s' -> rtc (pstep anything) (book s) (book s') /\ book_inv sc (book s').
Proof.
  revert s. induction rs as [|r rs IH]; intros s Hi Hs; [simpl in Hs; simplify_eq; split; [apply rtc_refl|done]|].
  pose proof (route_steps r s Hi) as Hf. apply serve_cons in Hs.
  destruct (IH (routed r s).1) as [Hr Hi']; [by eapply psteps_inv|done|].
  split; [by etrans|done].
Qed.
End anything.

Lemma App_new_inv sha256 display pes `{Borsh, Runtime, ProofBytes} secret pid authority s :
  App_new sha256 display pes secret pid authority = Ok s -> book_inv Scale_usdc (book s) /\ payments s = ∅.
Proof.
  unfold App_new. intros E. run_inv.
  pose proof (setup_accounts_reachable Scale_usdc Scale_usdc [1; 2; 3] [101; 102; 103] 1000000000 1700000000
    _ (reachable_new Scale_usdc)) as Hr.
  destruct (setup_accounts _ _ _ _ _ _) as [l [[]|[|e]]]; simplify_eq/=. split; [|done].
  constructor; simpl; [done|..]; intros *; by rewrite lookup_empty.
Qed.
