(* ===== verification/ApiSettle.v ===== *)
(** * Settling payments

    The batch a settlement request sends to its rail holds exactly the captured payments
    that were not settled before, and the rail stays in step with its registry over any
    requests. *)

From S2P Require Import Bytes Error Amount Account Transfer Ledger LedgerStep LedgerInv LedgerVerify Merkle Settle SettleInv Payment Rail RailInv Api PaymentBook ApiInv.
From stdpp Require Import list strings gmap relations.
From S2P Require Import Prelude Api.
#[local] Open Scope N_scope.

(** What is still owed: the captured payments without a batch, and their number. *)
Definition owed (m : gmap N Payment) : N := map_sum (fun p => if unsettled p then pay_amount p else 0) m.
Definition owing (m : gmap N Payment) : N := map_sum (fun p => if unsettled p then 1 else 0) m.

Section batch.
Context (sc : Scale).

(** The transfer that settled a payment. *)
Lemma unsettled_transfer l m id p :
  book_inv sc (l, m) -> m !! id = Some p -> unsettled p = true ->
  exists q t, posted_transfer_id p = Some q /\ transfers l !! q = Some t /\ tr_id t = q /\
    tr_amount t = pay_amount p /\ pending_id t = pending_transfer_id p.
Proof.
  intros Hi Hp Hu. apply andb_prop in Hu as [Hc _]. apply bool_decide_eq_true in Hc.
  destruct (bi_backed _ _ Hi id p Hp) as (h & t & Hh & _ & _ & Hs). rewrite Hc in Hs.
  destruct Hs as (_ & q & s & Hq & Hs & _ & Hl & (_ & _ & Ha)).
  pose proof (reachable_inv _ _ (bi_reach _ _ Hi)) as Hinv.
  exists q, s. split_and!; try done; [by eapply tok_key, inv_transfers|by rewrite Hl, Hh].
Qed.

Lemma posted_unique l m i j p p' q :
  book_inv sc (l, m) -> m !! i = Some p -> m !! j = Some p' -> unsettled p = true -> unsettled p' = true ->
  posted_transfer_id p = Some q -> posted_transfer_id p' = Some q -> i = j.
Proof.
  intros Hi Hp Hp' Hu Hu' Hq Hq'.
  destruct (unsettled_transfer l m i p Hi Hp Hu) as (q1 & t1 & E1 & Ht1 & _ & _ & Hl1).
  destruct (unsettled_transfer l m j p' Hi Hp' Hu') as (q2 & t2 & E2 & Ht2 & _ & _ & Hl2).
  simplify_eq. eapply (bi_holds _ _ Hi i j p p'); [done|done|congruence].
Qed.

(** The payments still owed, and the transfers they were captured by. *)
Definition owed_list (m : gmap N Payment) : list (N * Payment) :=
  filter (fun e => unsettled e.2) (map_to_list m).
Definition captured_by (l : Ledger) (e : N * Payment) : Transfer :=
  default (mkTransfer 0 0 0 0 Posted None 0) (posted_transfer_id e.2 ≫= fun q => transfers l !! q).

Lemma owed_list_elem m i p : (i, p) ∈ owed_list m <-> m !! i = Some p /\ unsettled p = true.
Proof.
  unfold owed_list. rewrite list_elem_of_filter, elem_of_map_to_list. simpl.
  rewrite Is_true_true. tauto.
Qed.

Lemma posted_ids_elem s q :
  q ∈ posted_ids s <-> exists i p, payments s !! i = Some p /\ unsettled p = true /\ posted_transfer_id p = Some q.
Proof.
  unfold posted_ids. rewrite list_elem_of_omap. split.
  - intros ([i p] & Hin & E). apply elem_of_map_to_list in Hin. destruct (unsettled p) eqn:Eu; [|done]. eauto.
  - intros (i & p & Hp & Hu & Hq). exists (i, p). rewrite elem_of_map_to_list, Hu. done.
Qed.

Lemma NoDup_values l : ledger_inv l -> NoDup (btree_values (transfers l)).
Proof.
  intros Hinv. unfold btree_values. rewrite btree_iter_perm. apply NoDup_fmap_2_strong; [|apply NoDup_map_to_list].
  intros [i t] [j u] Hi Hj E. apply elem_of_map_to_list in Hi, Hj. simpl in E. subst u.
  pose proof (tok_key _ _ _ _ (inv_transfers _ Hinv i t Hi)). pose proof (tok_key _ _ _ _ (inv_transfers _ Hinv j t Hj)).
  congruence.
Qed.

Lemma batch_perm s :
  book_inv sc (book s) -> batch_transfers s ≡ₚ captured_by (app_ledger s) <$> owed_list (payments s).
Proof.
  intros Hi. pose proof (reachable_inv _ _ (bi_reach _ _ Hi)) as Hinv. simpl in Hinv.
  apply NoDup_Permutation.
  - by apply NoDup_filter, NoDup_values.
  - apply NoDup_fmap_2_strong; [|apply NoDup_filter, NoDup_map_to_list].
    intros [i p] [j p'] [Hp Hu]%owed_list_elem [Hp' Hu']%owed_list_elem E.
    destruct (unsettled_transfer _ _ i p Hi Hp Hu) as (q & t & Hq & Ht & Hid & _).
    destruct (unsettled_transfer _ _ j p' Hi Hp' Hu') as (q' & t' & Hq' & Ht' & Hid' & _).
    unfold captured_by in E. simpl in *. rewrite Hq, Hq' in E. simpl in E. rewrite Ht, Ht' in E. simpl in E.
    assert (i = j) as -> by (eapply posted_unique; [exact Hi|exact Hp|exact Hp'|done|done|exact Hq|congruence]).
    congruence.
  - intros t. unfold batch_transfers. rewrite list_elem_of_filter, elem_of_btree_values, posted_ids_elem,
      list_elem_of_fmap. split.
    + intros [(i & p & Hp & Hu & Hq) [k Hk]]. exists (i, p). rewrite owed_list_elem. split; [|done].
      unfold captured_by. simpl. rewrite Hq. simpl.
      by rewrite (tok_key _ _ _ _ (inv_transfers _ Hinv k t Hk)), Hk.
    + intros ([i p] & -> & [Hp Hu]%owed_list_elem).
      destruct (unsettled_transfer _ _ i p Hi Hp Hu) as (q & t & Hq & Ht & Hid & _). simpl in *.
      unfold captured_by. simpl. rewrite Hq. simpl. rewrite Ht. simpl. rewrite Hid. eauto 8.
Qed.

Lemma list_sum_owed (f : N * Payment -> N) (g : Payment -> N) m :
  (forall i p, m !! i = Some p -> unsettled p = true -> f (i, p) = g p) ->
  list_sum f (owed_list m) = map_sum (fun p => if unsettled p then g p else 0) m.
Proof.
  intros Hf. unfold map_sum. rewrite map_fold_foldr. unfold owed_list.
  assert (forall i p, (i, p) ∈ map_to_list m -> unsettled p = true -> f (i, p) = g p) as Hl.
  { intros i p Hin. apply Hf. by apply elem_of_map_to_list. }
  clear Hf. induction (map_to_list m) as [|[i p] es IH]; [done|]. rewrite filter_cons. simpl.
  destruct (unsettled p) eqn:E; (destruct (decide _) as [Hd|Hd]; simpl in Hd; [|try by destruct Hd]); try done; simpl.
  - rewrite IH by (intros; apply Hl; [by right|done]). f_equal. apply Hl; [by left|done].
  - rewrite IH by (intros; apply Hl; [by right|done]). done.
Qed.

Lemma list_sum_fmap {A B} (f : B -> N) (g : A -> B) l : list_sum f (g <$> l) = list_sum (fun a => f (g a)) l.
Proof. exact (foldr_fmap (fun v acc => f v + acc) 0 l g). Qed.

Lemma list_sum_length {A} (l : list A) : list_sum (fun _ => 1) l = N.of_nat (length l).
Proof. induction l as [|a l IH]; [done|]. simpl. lia. Qed.

Lemma batch_amounts s : book_inv sc (book s) -> list_sum tr_amount (batch_transfers s) = owed (payments s).
Proof.
  intros Hi. rewrite (batch_perm s Hi), list_sum_fmap. apply (list_sum_owed _ pay_amount). intros i p Hp Hu.
  destruct (unsettled_transfer _ _ i p Hi Hp Hu) as (q & t & Hq & Ht & _ & Ha & _). simpl in *.
  unfold captured_by. simpl. by rewrite Hq; simpl; rewrite Ht.
Qed.

Lemma batch_length s : book_inv sc (book s) -> N.of_nat (length (batch_transfers s)) = owing (payments s).
Proof.
  intros Hi. rewrite <- list_sum_length, (batch_perm s Hi), list_sum_fmap.
  by apply (list_sum_owed _ (fun _ => 1)).
Qed.

(** Everything that is owed is in the batch, and is marked by it. *)
Lemma owed_in_batch s i p :
  book_inv sc (book s) -> payments s !! i = Some p -> unsettled p = true ->
  exists t, t ∈ batch_transfers s /\ posted_transfer_id p = Some (tr_id t) /\ tr_amount t = pay_amount p.
Proof.
  intros Hi Hp Hu. destruct (unsettled_transfer _ _ i p Hi Hp Hu) as (q & t & Hq & Ht & Hid & Ha & _). simpl in *.
  exists t. rewrite Hid. split_and!; try done. unfold batch_transfers.
  rewrite list_elem_of_filter, elem_of_btree_values, posted_ids_elem, Hid. eauto 8.
Qed.

Lemma marks_owed s i p seq :
  book_inv sc (book s) -> payments s !! i = Some p ->
  mark_settled (tr_id <$> batch_transfers s) seq p = if unsettled p then with_batch seq p else p.
Proof.
  intros Hi Hp. unfold mark_settled. destruct (unsettled p) eqn:Hu; [|done]. simpl.
  destruct (owed_in_batch s i p Hi Hp Hu) as (t & Ht & -> & _).
  rewrite bool_decide_true; [done|]. by apply list_elem_of_fmap_2.
Qed.

Lemma batch_nodup s : book_inv sc (book s) -> NoDup (tr_id <$> batch_transfers s).
Proof.
  intros Hi. pose proof (reachable_inv _ _ (bi_reach _ _ Hi)) as Hinv. simpl in Hinv.
  apply NoDup_fmap_2_strong; [|by apply NoDup_filter, NoDup_values].
  intros t u [_ [i Ht]%elem_of_btree_values]%list_elem_of_filter [_ [j Hu]%elem_of_btree_values]%list_elem_of_filter E.
  pose proof (tok_key _ _ _ _ (inv_transfers _ Hinv i t Ht)). pose proof (tok_key _ _ _ _ (inv_transfers _ Hinv j u Hu)).
  congruence.
Qed.

End batch.

Section settling.
Context (sha256 : bytes -> Hash32) (display : ProofError -> string) (display_hex : HexError -> string).
Context (transfer_bytes : Transfer -> result string bytes).
Context (program_error_string : ProgramError -> string).
Context (settlement_error_string : SettlementProgramError -> string).
Context (hmac_sha256 : bytes -> bytes -> Hash32).
Context `{Borsh, Runtime, ProofBytes, Json}.

Abbreviation settlement_batch := (handle_settlement_batch sha256 display transfer_bytes
  program_error_string settlement_error_string).
Abbreviation routed := (route sha256 display display_hex transfer_bytes program_error_string
  settlement_error_string hmac_sha256).
Abbreviation serve := (serve_requests sha256 display display_hex transfer_bytes program_error_string
  settlement_error_string hmac_sha256).

(** ** The handler *)

(** The sequence number the handler asks for. *)
Definition next_batch (ach : bool) (s : App) : option N :=
  if ach then checked_add U64_MAX (app_batch_seq s) 1
  else match current_settlement_root (solana_rail s) with
       | None => Some 1
       | Some root => checked_add U64_MAX (sr_batch_seq root) 1
       end.
Definition is_ach (rail : option string) : bool :=
  bool_decide (default "Solana-USDC"%string rail = "Mock-ACH"%string).

(** The request up to the rail's answer, and what it does with it. *)
Definition submission_of (rail : option string) (seq : N) (s : App) :
    App * result (failure RailError) RailSubmission :=
  if is_ach rail then (s, map_err Fails (ach_submit_batch seq (batch_transfers s)))
  else let '(r, res) := solana_submit_batch sha256 display transfer_bytes program_error_string
                          settlement_error_string seq (batch_transfers s) (solana_rail s) in
       (set_rail r s, res).

Lemma settlement_cases rail s :
  match settlement_batch rail s with
  | (s', Ok r) => exists seq s1, batch_transfers s <> [] /\ next_batch (is_ach rail) s = Some seq /\
      submission_of rail seq s = (s1, Ok (br_submission r)) /\ solana_rail s' = solana_rail s1 /\
      app_ledger s' = app_ledger s /\
      payments s' = mark_settled (tr_id <$> batch_transfers s) (rs_batch_seq (br_submission r)) <$> payments s
  | (s', Err _) => (s' = s /\ (batch_transfers s = [] \/ next_batch (is_ach rail) s = None)) \/
      exists seq e, next_batch (is_ach rail) s = Some seq /\ submission_of rail seq s = (s', Err e)
  end.
Proof.
  unfold handle_settlement_batch. rewrite st_bind_reads. fold (is_ach rail). case_bool_decide as Hne; [by left; eauto|].
  unfold submission_of, next_batch, from_result, from_failing. destruct (is_ach rail); rewrite st_bind_reads.
  - destruct (checked_add U64_MAX (app_batch_seq s) 1) as [seq|]; simpl; [|by left; eauto].
    unfold st_bind at 1. destruct (ach_submit_batch seq _) as [sub|e] eqn:Ea; simpl; [|right; exists seq, (Fails e); by rewrite Ea].
    exists seq, s. by rewrite Ea.
  - set (next := match current_settlement_root (solana_rail s) with Some r => checked_add U64_MAX (sr_batch_seq r) 1 | None => Some 1 end).
    assert (forall e : failure HttpError, match current_settlement_root (solana_rail s) with
      | Some r => ok_or (checked_add U64_MAX (sr_batch_seq r) 1) e | None => Ok 1 end = ok_or next e) as ->
      by (intros e; unfold next; by destruct (current_settlement_root _)).
    destruct next as [seq|]; simpl; [|by left; eauto]. unfold st_bind at 1.
    destruct (solana_submit_batch _ _ _ _ _ _ _ _) as [rl [sub|e]] eqn:Es; simpl.
    + exists seq, (set_rail rl s). by rewrite Es.
    + right. exists seq, e. by rewrite Es.
Qed.

Lemma submission_amounts rail seq s s1 sub :
  submission_of rail seq s = (s1, Ok sub) ->
  rs_total_amount sub = list_sum tr_amount (batch_transfers s) /\ rs_batch_seq sub = seq /\
  rs_transfer_count sub = N.of_nat (length (batch_transfers s)).
Proof.
  unfold submission_of. destruct (is_ach rail).
  - destruct (ach_submit_batch _ _) eqn:Ea; [|done]. intros [= _ <-]. by apply ach_amounts.
  - destruct (solana_submit_batch _ _ _ _ _ _ _ _) as [rl res] eqn:Es. intros [= _ ->]. by eapply submit_amounts.
Qed.

(** ** The rail over any requests *)

Definition rail_ok (s : App) : Prop := exists r, rail_ready (solana_rail s) r.

(** Transfers are never removed. *)
Lemma size_insert_le {A} (m : gmap N A) i x : (size m <= size (<[i := x]> m))%nat.
Proof. rewrite map_size_insert. destruct (m !! i); simpl; lia. Qed.

Lemma lstep_size l ev l' : lstep l ev l' -> (size (transfers l) <= size (transfers l'))%nat.
Proof.
  destruct 1; simpl; try lia; repeat (etrans; [|apply size_insert_le]); done.
Qed.

Lemma next_batch_fits ach s seq : next_batch ach s = Some seq -> 0 < seq <= U64_MAX.
Proof.
  unfold next_batch. destruct ach; [|destruct (current_settlement_root _)]; rewrite ?checked_add_Some;
    intros; simplify_eq; unfold U64_MAX in *; lia.
Qed.

Lemma batch_size s : (length (batch_transfers s) <= size (transfers (app_ledger s)))%nat.
Proof.
  unfold batch_transfers. etrans; [apply length_filter|]. unfold btree_values.
  by rewrite btree_iter_perm, length_fmap, length_map_to_list.
Qed.

Lemma psteps_size pol b b' : rtc (pstep pol) b b' -> (size (transfers b.1) <= size (transfers b'.1))%nat.
Proof.
  induction 1 as [|b b1 b2 Hs _ IH]; [done|]. etrans; [|exact IH].
  destruct Hs; simpl; eauto using lstep_size.
Qed.

Lemma submission_rail rail seq s s1 res r :
  rail_ready (solana_rail s) r -> N.of_nat (size (transfers (app_ledger s))) <= U64_MAX -> seq <= U64_MAX ->
  submission_of rail seq s = (s1, res) -> rail_ok s1.
Proof.
  intros Hr Hsz H64. unfold submission_of. destruct (is_ach rail); [intros [= <- _]; by exists r|].
  destruct (solana_submit_batch _ _ _ _ _ _ _ _) as [rl res'] eqn:Es. intros [= <- ->].
  assert (N.of_nat (length (batch_transfers s)) <= U64_MAX) as Hl by (pose proof (batch_size s); lia).
  pose proof (submit_preserves _ _ _ _ _ _ _ _ _ _ _ Hr H64 Hl Es) as Hp. destruct res; [|by exists r].
  destruct (sb_ready _ _ _ _ _ _ _ _ Hp) as [t Ht]. by eexists.
Qed.

Lemma route_rail r s :
  rail_ok s -> N.of_nat (size (transfers (app_ledger s))) <= U64_MAX -> rail_ok (routed r s).1.
Proof.
  intros [rt Hr] Hsz. destruct (is_settlement r) eqn:E.
  - destruct r as [| | | | |rail| | | | | | |]; try done. simpl. rewrite discard_state.
    pose proof (settlement_cases rail s) as Hc. destruct (settlement_batch rail s) as [s' [resp|e]]; simpl.
    + destruct Hc as (seq & s1 & _ & Hn & Hsub & Hrl & _). apply next_batch_fits in Hn.
      unfold rail_ok. rewrite Hrl. apply (submission_rail rail seq s s1 (Ok (br_submission resp)) rt); [done|done|lia|done].
    + destruct Hc as [[-> _]|(seq & e' & Hn & Hsub)]; [by exists rt|]. apply next_batch_fits in Hn.
      apply (submission_rail rail seq s s' (Err e') rt); [done|done|lia|done].
  - destruct (route_frame sha256 display display_hex transfer_bytes program_error_string settlement_error_string
      hmac_sha256 r s) as [Hf _]. exists rt. by rewrite Hf.
Qed.

Lemma serve_rail sc rs s s' :
  book_inv sc (book s) -> rail_ok s -> serve rs s = Some s' ->
  N.of_nat (size (transfers (app_ledger s'))) <= U64_MAX -> rail_ok s'.
Proof.
  revert s. induction rs as [|r rs IH]; intros s Hi Hr Hs Hsz; [simpl in Hs; by simplify_eq|].
  apply serve_cons in Hs.
  pose proof (route_steps sha256 display display_hex transfer_bytes program_error_string
    settlement_error_string hmac_sha256 sc r s Hi) as Hf.
  assert (book_inv sc (book (routed r s).1)) as Hi' by (by eapply psteps_inv).
  destruct (serve_follows sha256 display display_hex transfer_bytes program_error_string
    settlement_error_string hmac_sha256 sc rs _ s' Hi' Hs) as [Hf' _].
  apply (IH (routed r s).1); [done| |done|done]. apply route_rail; [done|].
  apply psteps_size in Hf, Hf'. simpl in *. lia.
Qed.

Lemma App_new_rail secret pid a s :
  App_new sha256 display program_error_string secret pid a = Ok s -> rail_ok s.
Proof.
  unfold App_new. intros E. run_inv. destruct (SolanaRail_new _ _ _ _ _) as [rl|] eqn:Er; [|done].
  simplify_eq/=. destruct (SolanaRail_new_ready _ _ _ _ _ _ Er) as [bump Hr]. by eexists.
Qed.

End settling.
