(* ===== verification/ApiProps.v ===== *)
(** * Properties of the payment application

    Payments against the ledger over any sequence of requests, settlement and its
    receipts, idempotency keys and webhooks. *)

From S2P Require Import Bytes Error Amount Account Transfer Ledger LedgerStep LedgerInv Merkle MerkleProps Codec Settle SettleInv SettleFormat SettleProps Payment Rail RailInv Api PaymentBook ApiInv ApiSettle.
From stdpp Require Import list strings gmap relations.
From S2P Require Import Prelude Api.
#[local] Open Scope N_scope.

Section application.
Context (sha256 : bytes -> Hash32) (display : ProofError -> string) (display_hex : HexError -> string).
Context (transfer_bytes : Transfer -> result string bytes).
Context (program_error_string : ProgramError -> string).
Context (settlement_error_string : SettlementProgramError -> string).
Context (hmac_sha256 : bytes -> bytes -> Hash32).
Context `{Borsh, Runtime, ProofBytes, Json}.

Abbreviation new_app := (App_new sha256 display program_error_string).
Abbreviation routed := (route sha256 display display_hex transfer_bytes program_error_string
  settlement_error_string hmac_sha256).
Abbreviation serve := (serve_requests sha256 display display_hex transfer_bytes program_error_string
  settlement_error_string hmac_sha256).
Abbreviation settlement_batch := (handle_settlement_batch sha256 display transfer_bytes
  program_error_string settlement_error_string).
Abbreviation payment_verify := (handle_payment_verify sha256 display_hex transfer_bytes).
Abbreviation webhook := (handle_webhook hmac_sha256).

(** A state of the application: after any requests since it was started. *)
Definition served (s : App) : Prop :=
  exists secret pid a s0 rs, new_app secret pid a = Ok s0 /\ serve rs s0 = Some s.

Lemma served_inv s : served s -> book_inv Scale_usdc (book s).
Proof.
  intros (secret & pid & a & s0 & rs & E & Hs). destruct (App_new_inv _ _ _ _ _ _ _ E) as [Hi _].
  by apply (serve_follows _ _ _ _ _ _ _ _ _ _ _ Hi Hs).
Qed.

Lemma served_rail s :
  served s -> N.of_nat (size (transfers (app_ledger s))) <= U64_MAX -> rail_ok s.
Proof.
  intros (secret & pid & a & s0 & rs & E & Hs) Hsz. destruct (App_new_inv _ _ _ _ _ _ _ E) as [Hi _].
  eapply serve_rail; [exact Hi|by eapply App_new_rail|exact Hs|exact Hsz].
Qed.

(** C8: after any requests, every payment is backed by its own hold in the ledger, between
    the accounts of its customer and its merchant and for its amount: the hold is still
    pending while the payment is authorised, voided when the payment is voided, and when
    it is captured the hold is posted and a second transfer, linked to it, has moved exactly
    the amount of the payment.  No two payments share a hold. *)
Theorem payments_backed s :
  served s ->
  (forall id p, payments s !! id = Some p -> pay_id p = id /\ backed (app_ledger s) p) /\
  (forall i j p q, payments s !! i = Some p -> payments s !! j = Some q ->
     pending_transfer_id p = pending_transfer_id q -> i = j).
Proof.
  intros Hs. apply served_inv in Hs as [_ Hk Hb Hh]. simpl in *. split; [eauto|done].
Qed.

(** C25: a request, whether it succeeds, fails or panics, moves payments and ledger only by
    steps of the payment book. *)
Theorem requests_refine_book r s :
  served s -> rtc (pstep anything) (book s) (book (routed r s).1).
Proof. intros Hs. by apply (route_steps _ _ _ _ _ _ _ Scale_usdc), served_inv. Qed.

(** A payment that was captured or voided is decided: capturing or voiding it again is
    an error that leaves payments and ledger as they are. *)
Theorem decided_payment_final s id p :
  served s -> payments s !! id = Some p -> pay_state p <> Authorized ->
  (exists s' e, handle_capture id s = (s', Err e) /\ book s' = book s) /\
  (exists s' e, handle_void id s = (s', Err e) /\ book s' = book s).
Proof.
  intros Hs Hp Hd. apply served_inv in Hs.
  destruct (bi_backed _ _ Hs id p Hp) as (h & t & Hh & Ht & _ & _).
  unfold handle_capture, handle_void, get_payment, pending_of, alloc_transfer_id, alloc_timestamp, st_bind.
  rewrite Hp. simpl. rewrite Hh. simpl. split.
  - set (s1 := set_counters _ _ _ _ _).
    pose proof (ledger_op_outcome _ _ INTERNAL_SERVER_ERROR (fun s => s) s1
      (post_pending_respects h (next_transfer_id s) (pay_amount p) (next_timestamp s) _) (fun _ => eq_refl)) as Ho.
    unfold outcome in Ho. fold (@Datatypes.id App) in Ho.
    change (fun s0 : App => s0) with (@Datatypes.id App) in Ho.
    destruct (ledger_op _ _ _ s1) as [s2 [[]|e]]; simpl in Ho; [|eauto].
    destruct Ho as [_ Ho]. destruct Hd. by eapply (posting_authorized _ (book s)).
  - set (s1 := set_counters _ _ _ _ _).
    destruct (void_outcome h (next_timestamp s) INTERNAL_SERVER_ERROR s1) as [x Ho]. unfold outcome in Ho.
    destruct (ledger_op _ _ _ s1) as [s2 [[]|e]]; simpl in Ho; [|eauto].
    destruct Ho as [_ Ho]. destruct Hd. by eapply (voiding_authorized _ (book s)).
Qed.

(** C19: a settlement that succeeds, over either rail, submits exactly the captured payments
    that were not in a batch before, once each: their number and their exact total.  Each
    of them is then marked with the batch's number, the other payments and the ledger
    are as they were, and nothing is left to settle. *)
Theorem settlement_exact rail s s' r :
  served s -> settlement_batch rail s = (s', Ok r) ->
  rs_total_amount (br_submission r) = owed (payments s) /\
  rs_transfer_count (br_submission r) = owing (payments s) /\ 0 < owing (payments s) /\
  app_ledger s' = app_ledger s /\
  (forall id, payments s' !! id =
     (fun p => if unsettled p then with_batch (rs_batch_seq (br_submission r)) p else p) <$> payments s !! id) /\
  batch_transfers s' = [].
Proof.
  intros Hs E. apply served_inv in Hs. pose proof (settlement_cases sha256 display transfer_bytes
    program_error_string settlement_error_string rail s) as Hc. rewrite E in Hc.
  destruct Hc as (seq & s1 & Hne & Hn & Hsub & _ & Hl & Hp).
  destruct (submission_amounts _ _ _ _ _ _ _ _ _ _ Hsub) as (Ht & Hq & Hcnt).
  rewrite (batch_amounts _ _ Hs) in Ht. rewrite (batch_length _ _ Hs) in Hcnt.
  assert (forall id, payments s' !! id = (fun p => if unsettled p then with_batch (rs_batch_seq (br_submission r)) p else p)
    <$> payments s !! id) as Hm.
  { intros id. rewrite Hp, lookup_fmap. destruct (payments s !! id) as [p|] eqn:Ep; [|done]. simpl.
    by rewrite (marks_owed _ _ id p _ Hs Ep). }
  split_and!; try done.
  - rewrite <- (batch_length _ _ Hs). destruct (batch_transfers s); simpl; [done|lia].
  - destruct (batch_transfers s') as [|t ts] eqn:Eb; [done|exfalso].
    assert (t ∈ batch_transfers s') as Hin by (rewrite Eb; by left).
    apply list_elem_of_filter in Hin as [(i & p & Hi & Hu & _)%posted_ids_elem _]. rewrite Hm in Hi.
    destruct (payments s !! i) as [p0|]; [|done]. simpl in Hi. injection Hi as <-.
    destruct (unsettled p0) eqn:Eu; [|congruence]. unfold unsettled in Hu. simpl in Hu.
    by rewrite andb_false_r in Hu.
Qed.

(** C16: when a captured payment is waiting and the registry has room, a settlement over
    Solana succeeds, whatever requests came before; and then the verification endpoint
    confirms each payment of the batch, with a receipt for its amount under the Merkle
    root the registry now holds. *)
Theorem settle_then_verify s r :
  served s -> N.of_nat (size (transfers (app_ledger s))) <= U64_MAX ->
  (forall t, exists bs, transfer_bytes t = Ok bs) ->
  deserialize_from (pda_data (solana_rail s)) = Ok r -> sr_batch_seq r < U64_MAX ->
  sr_total_settled_amount r + owed (payments s) <= U128_MAX -> 0 < owing (payments s) ->
  exists s' resp, settlement_batch None s = (s', Ok resp) /\
    forall id p, payments s !! id = Some p -> unsettled p = true ->
      exists s'' rc, payment_verify id s' = (s'', Ok (true, Some rc)) /\
        rc_amount rc = pay_amount p /\ Some (rc_merkle_root rc) = latest_root_hex (solana_rail s').
Proof.
  intros Hs Hsz Hbytes Hr Hseq Htot Hown. destruct (served_rail s Hs Hsz) as [r' Hrd]. apply served_inv in Hs.
  assert (r' = r) as -> by (pose proof (rd_data _ _ Hrd) as Hd; unfold deserialize_from in Hr; rewrite Hd in Hr; by injection Hr).
  pose proof (batch_length _ _ Hs) as Hlen. pose proof (batch_amounts _ _ Hs) as Hamt.
  assert (N.of_nat (length (batch_transfers s)) <= U64_MAX) as Hl by (pose proof (batch_size s); lia).
  assert (next_batch false s = Some (sr_batch_seq r + 1)) as Hn.
  { unfold next_batch, current_settlement_root. rewrite Hr. simpl.
    destruct (N.eqb_spec (sr_batch_seq r) 0) as [->|]; [done|]. apply checked_add_Some. lia. }
  destruct (submit_accepts sha256 display transfer_bytes program_error_string settlement_error_string
    (solana_rail s) r (sr_batch_seq r + 1) (batch_transfers s)) as (rl & sub & Esub & Hsub); try done.
  { intros Hnil. rewrite Hnil in Hlen. simpl in Hlen. lia. }
  { intros t _. destruct (Hbytes t) as [bs Ebs]. unfold hash_transfer. rewrite Ebs. by eexists. }
  { lia. } { by rewrite Hamt. }
  pose proof (settlement_cases sha256 display transfer_bytes program_error_string settlement_error_string None s) as Hc.
  destruct (settlement_batch None s) as [s' [resp|e]].
  2: { exfalso. change (is_ach None) with false in Hc. rewrite Hn in Hc.
       destruct Hc as [[_ [Hnil|?]]|(seq & e' & [= <-] & Hsb)]; [|done|].
       - rewrite Hnil in Hlen. simpl in Hlen. lia.
       - unfold submission_of in Hsb. change (is_ach None) with false in Hsb. by rewrite Esub in Hsb. }
  exists s', resp. split; [done|]. destruct Hc as (seq & s1 & _ & Hn' & Hsb & Hrl & Hl' & Hp').
  unfold submission_of in Hsb. change (is_ach None) with false in *.
  rewrite Hn in Hn'. injection Hn' as <-. rewrite Esub in Hsb. injection Hsb as <- Esb. simpl in Hrl. intros id p Hp Hu.
  destruct (owed_in_batch _ s id p Hs Hp Hu) as (t & Ht & Hpost & Ha).
  destruct (receipt_good sha256 display_hex transfer_bytes _ _ _ _ _ _ t Hsub) as (rc & Erc & Ev & _ & Eamt & Eroot);
    [lia|done|by apply (batch_nodup Scale_usdc)|done|].
  destruct (sb_ready _ _ _ _ _ _ _ _ Hsub) as [tm [_ _ (pda & bump & Hf)]].
  unfold handle_payment_verify, st_bind, or_panic. rewrite Hp', lookup_fmap, Hp. simpl.
  rewrite (marks_owed _ s id p _ Hs Hp), Hu. simpl. unfold pda_address. rewrite Hrl, Hf. simpl. rewrite Hpost.
  rewrite Hrl, Erc, Ev. do 2 eexists. split; [done|]. by rewrite Eroot, Eamt.
Qed.

(** ** Idempotency keys *)

Definition answered (key : string) (resp : PaymentResponse) (s : App) : Prop :=
  exists json, idempotency s !! key = Some (Completed json) /\ response_from_json json = Ok resp.

Lemma set_idempotency_same s : set_idempotency (idempotency s) s = s.
Proof. by destruct s. Qed.

Lemma answered_repeat req resp s :
  answered (idempotency_key req) resp s -> handle_authorize req s = (s, Ok resp).
Proof.
  intros (json & Hk & Hj). unfold handle_authorize, st_bind, try_acquire. rewrite Hk. simpl.
  unfold from_result. rewrite Hj, set_idempotency_same. done.
Qed.

Lemma release_other (m : IdempotencyStore) k key : key <> k -> release_on_failure k m !! key = m !! key.
Proof.
  intros Hne. unfold release_on_failure. destruct (m !! k) as [[|j]|]; try done. by rewrite lookup_delete_ne.
Qed.

(** A request with another key leaves a key alone. *)
Lemma authorize_other_key key req :
  key <> idempotency_key req -> Frame (fun s => idempotency s !! key) (handle_authorize req).
Proof.
  intros Hne. unfold handle_authorize. framed.
  - intros s. unfold try_acquire. destruct (idempotency s !! idempotency_key req) as [[|json]|] eqn:E; simpl; try done.
    by rewrite lookup_insert_ne.
  - intros s. case_match; simpl; [done|]. by apply release_other.
  - apply frame_ledger_op; [done|]. intros s. by apply release_other.
  - intros s. simpl. unfold complete. by rewrite lookup_insert_ne.
Qed.

Lemma answered_stable key resp r s : answered key resp s -> answered key resp (routed r s).1.
Proof.
  intros Ha. destruct (is_authorize r) eqn:E.
  - destruct r as [req| | | | | | | | | | | |]; try done. simpl. rewrite discard_state.
    destruct (decide (key = idempotency_key req)) as [->|Hne]; [by rewrite (answered_repeat req resp s Ha)|].
    destruct Ha as (json & Hk & Hj). exists json. split; [|done].
    by rewrite (authorize_other_key key req Hne s).
  - destruct (route_frame sha256 display display_hex transfer_bytes program_error_string settlement_error_string
      hmac_sha256 r s) as (_ & Hf & _). destruct Ha as (json & Hk & Hj). exists json. by rewrite Hf.
Qed.

Lemma answered_served key resp rs s s' : answered key resp s -> serve rs s = Some s' -> answered key resp s'.
Proof.
  revert s. induction rs as [|r rs IH]; intros s Ha Hs; [simpl in Hs; by simplify_eq|].
  apply serve_cons in Hs. by eapply IH; [apply answered_stable|].
Qed.

Lemma authorize_answers req s s' resp :
  handle_authorize req s = (s', Ok resp) -> answered (idempotency_key req) resp s'.
Proof.
  unfold handle_authorize. unfold st_bind at 1, try_acquire.
  destruct (idempotency s !! idempotency_key req) as [[|json]|] eqn:Ek; simpl; [done| |].
  - unfold from_result. destruct (response_from_json json) eqn:Ej; intros [= <- <-]. exists json. done.
  - intros E. cbv zeta in E.
    repeat match goal with H : st_bind _ _ _ = (_, Ok _) |- _ => apply st_bind_ok in H as (? & ? & ? & H) end.
    unfold st_ret in E. injection E as -> <-.
    match goal with H : from_result _ _ (response_to_json _) _ = _ |- _ => apply from_result_ok in H as Hj end.
    match goal with H : st_modify _ _ = (s', _) |- _ => apply st_modify_ok in H as -> end.
    eexists. split; [apply lookup_insert_eq|]. by apply response_json_roundtrip.
Qed.

(** C26: an authorisation is made at most once for an idempotency key: after one succeeded,
    and whatever requests came since, any authorisation request with the same key gets
    the first answer and changes nothing at all. *)
Theorem authorize_exactly_once req s s1 resp rs s2 req' :
  handle_authorize req s = (s1, Ok resp) -> serve rs s1 = Some s2 ->
  idempotency_key req' = idempotency_key req -> handle_authorize req' s2 = (s2, Ok resp).
Proof.
  intros E Hs Hk. apply answered_repeat. rewrite Hk. eapply answered_served; [|exact Hs].
  by eapply authorize_answers.
Qed.

(** ** Webhooks *)

(** What a webhook has to show before its event is handled. *)
Definition authentic (signature : option string) (body : string) (pl : WebhookPayload) (s : App) : Prop :=
  (exists sg, signature = Some sg /\
     decode_hex sg = Some (vec_to_list (hmac_sha256 (webhook_secret s) (String.list_byte_of_string body)))) /\
  payload_from_json body = Ok pl /\
  wh_timestamp pl <= next_timestamp s + 300 /\ next_timestamp s <= wh_timestamp pl + 300.

(** A webhook is refused with nothing recorded, or its event is recorded and handled. *)
Lemma webhook_cases signature body s :
  (exists s' e, webhook signature body s = (s', Err e) /\ book s' = book s /\ webhook_dedupe s' = webhook_dedupe s) \/
  (exists pl s1, authentic signature body pl s /\ (event_id pl ∉ webhook_dedupe s) /\
     webhook signature body s = handle_event pl s1 /\ book s1 = book s /\
     webhook_dedupe s1 = {[event_id pl]} ∪ webhook_dedupe s).
Proof.
  remember (webhook signature body s) as run eqn:E.
  unfold handle_webhook in E. unfold st_bind at 1, from_result at 1 in E.
  destruct signature as [sg|]; simpl in E; [|by left; eauto]. unfold st_bind at 1, verify_signature in E.
  destruct (decode_hex sg) as [bs|] eqn:Ed; simpl in E; [|by left; eauto].
  case_bool_decide as Hm; simpl in E; [|by left; eauto]. unfold st_bind at 1, from_result at 1 in E.
  destruct (payload_from_json body) as [pl|] eqn:Ep; simpl in E; [|by left; eauto].
  unfold st_bind at 1, alloc_timestamp in E. unfold st_bind at 1, from_result at 1, verify_freshness in E.
  destruct (N.ltb_spec 300 (abs_diff (next_timestamp s) (wh_timestamp pl))) as [Hf|Hf]; simpl in E; [by left; eauto|].
  unfold st_bind at 1, check_and_record in E. case_bool_decide as Hin; simpl in E; [by left; eauto|]. right.
  exists pl. eexists. split_and!; [|exact Hin|exact E|reflexivity..]. unfold authentic. subst bs. unfold abs_diff in Hf.
  split_and!; [by eauto|done|destruct (N.ltb_spec (next_timestamp s) (wh_timestamp pl)); lia..].
Qed.

(** Recorded events stay recorded. *)
Lemma webhook_records signature body s : webhook_dedupe s ⊆ webhook_dedupe (webhook signature body s).1.
Proof.
  destruct (webhook_cases signature body s) as [(s' & e & -> & _ & Hd)|(pl & s1 & _ & _ & -> & _ & Hd)];
    [simpl; by rewrite Hd|].
  pose proof (event_frame pl s1) as Hf. injection Hf as _ _ ->. set_solver.
Qed.

Lemma dedupe_served rs s s' : serve rs s = Some s' -> webhook_dedupe s ⊆ webhook_dedupe s'.
Proof.
  revert s. induction rs as [|r rs IH]; intros s Hs; [simpl in Hs; by simplify_eq|].
  apply serve_cons in Hs. etrans; [|by apply IH]. destruct (is_webhook r) eqn:E.
  - destruct r; try done. apply webhook_records.
  - destruct (route_frame sha256 display display_hex transfer_bytes program_error_string settlement_error_string
      hmac_sha256 r s) as (_ & _ & Hf). by rewrite Hf.
Qed.

(** C36: a webhook that moves the ledger or the payments carries the HMAC of its exact body
    under the shared secret, a time within 300 of the application's clock, and an event id
    not seen before, which is recorded. *)
Theorem webhook_authentic signature body s s' res :
  webhook signature body s = (s', res) -> book s' <> book s ->
  exists pl, authentic signature body pl s /\ (event_id pl ∉ webhook_dedupe s) /\
    webhook_dedupe s' = {[event_id pl]} ∪ webhook_dedupe s.
Proof.
  intros E Hne. destruct (webhook_cases signature body s) as [(s1 & e & E' & Hb & _)|(pl & s1 & Ha & Hn & E' & _ & Hd)].
  - rewrite E in E'. by injection E' as -> _.
  - exists pl. split_and!; [done|done|]. rewrite <- Hd. pose proof (event_frame pl s1) as Hf.
    rewrite <- E', E in Hf. by injection Hf.
Qed.

(** An event that was recorded has no effect again: after any requests, a webhook with
    the same event id is refused and leaves payments and ledger as they are. *)
Theorem webhook_at_most_once rs s s' signature body pl :
  event_id pl ∈ webhook_dedupe s -> serve rs s = Some s' -> payload_from_json body = Ok pl ->
  exists s'' e, webhook signature body s' = (s'', Err e) /\ book s'' = book s'.
Proof.
  intros He Hs Hp. apply dedupe_served in Hs.
  destruct (webhook_cases signature body s') as [(s1 & e & E & Hb & _)|(pl' & s1 & (_ & Hp' & _) & Hn & _)]; [eauto|].
  rewrite Hp in Hp'. injection Hp' as <-. by destruct Hn; apply Hs.
Qed.

(** ** Receipts and reconciliation *)

(** The receipt endpoint confirms any receipt that is consistent with itself, such as a
    one-leaf receipt anyone can make up, whatever has been settled: the root in the receipt
    is not compared with the registry's. *)
Theorem made_up_receipt_verified h id amount d c seq s :
  exists s', handle_verify_receipt sha256 display_hex
    (mkReceipt id amount d c (to_hex h) seq (to_hex h) (mkProof 0 1 [] [h])) s = (s', Ok true) /\
    book s' = book s /\ solana_rail s' = solana_rail s.
Proof.
  unfold handle_verify_receipt, receipt_verify. simpl. destruct (hex_roundtrip h) as [_ ->]. simpl.
  rewrite one_leaf_verify. by eexists.
Qed.

Lemma captured_total_run ps n k total count :
  captured_total ps n k = Ok (total, count) ->
  total = n + list_sum (fun p => if bool_decide (pay_state p = Captured) then pay_amount p else 0) ps.
Proof.
  revert n k. induction ps as [|p ps IH]; intros n k E; simpl in *; [injection E as <- _; lia|].
  case_bool_decide as Hc; [|by apply IH in E].
  destruct (checked_add _ _ _) as [x|] eqn:Ex; simpl in E; [|done]. apply checked_add_Some in Ex as [-> _].
  apply IH in E. lia.
Qed.

(** What the ledger owes a merchant: the credits posted to the account. *)
Definition merchant_credits (l : Ledger) (m : N) : N :=
  default 0 (acc ← merchant m; a ← accounts l !! acc; Some (credits_posted (acc_balance a))).

Lemma merchants_total_run l ms n total :
  merchants_total l ms n = Ok total -> total = n + list_sum (merchant_credits l) ms.
Proof.
  revert n. induction ms as [|m ms IH]; intros n E; simpl in *; [injection E as <-; lia|].
  unfold merchant_credits at 1. unfold get_account in E. destruct (merchant m) as [acc|]; simpl in *; [|done].
  destruct (accounts l !! acc) as [a|]; simpl in *; [|done].
  destruct (checked_add _ _ _) as [x|] eqn:Ex; simpl in E; [|done]. apply checked_add_Some in Ex as [-> _].
  apply IH in E. lia.
Qed.

(** The figures of an audit are the exact totals of the captured payments and of the
    merchants' posted credits, its drift is their difference, and it is clean exactly when
    these agree with each other and with the chain, if the chain has a batch. *)
Theorem audit_exact ps l ms chain ts rep :
  audit ps l ms chain ts = Ok rep ->
  app_settled_total rep = list_sum (fun p => if bool_decide (pay_state p = Captured) then pay_amount p else 0) ps /\
  ledger_settled_total rep = list_sum (merchant_credits l) ms /\
  drift rep = (Z.of_N (ledger_settled_total rep) - Z.of_N (app_settled_total rep))%Z /\
  (rr_status rep = Clean <-> app_settled_total rep = ledger_settled_total rep /\
     forall r, chain = Some r -> sr_total_settled_amount r = ledger_settled_total rep).
Proof.
  unfold audit. intros E. destruct (captured_total ps 0 0) as [[total count]|] eqn:Ec; simpl in E; [|done].
  destruct (merchants_total l ms 0) as [lt|] eqn:Em; simpl in E; [|done].
  apply captured_total_run in Ec. apply merchants_total_run in Em. rewrite N.add_0_l in Ec, Em.
  unfold to_signed in E. destruct (lt <=? I128_MAX); simpl in E; [|done]. destruct (total <=? I128_MAX); simpl in E; [|done].
  destruct (Z.eqb_spec (Z.of_N lt - Z.of_N total) 0) as [Hd|Hd]; simpl in E.
  - destruct chain as [r|]; simpl in E; [destruct (N.eqb_spec (sr_total_settled_amount r) lt) as [Hr|Hr]|];
      injection E as <-; simpl; split_and!; try done; try lia; split; try done; intros; simplify_eq; try lia.
    + split; [lia|]. by intros ? [= <-].
    + destruct Hr. naive_solver.
    + split; [lia|done].
  - injection E as <-. simpl. split_and!; try done. split; [done|]. intros [? _]. lia.
Qed.

(** A posted transfer credits its account. *)
Lemma posted_credit l t l' :
  lstep l (EvTransferPosted t) l' ->
  exists ca, accounts l !! credit_account_id t = Some ca /\ exists ca',
    accounts l' !! credit_account_id t = Some ca' /\
    credits_posted (acc_balance ca') = credits_posted (acc_balance ca) + tr_amount t.
Proof.
  intros Hs. inversion Hs as [| |? da ca [_ _ _ Hne _] _ [_ Hca _ _] _ _| | |]; subst. exists ca. split; [done|].
  exists (upd (credit_post (tr_amount t)) ca). simpl. unfold upd2.
  rewrite lookup_alter_eq, lookup_alter_ne by done. by rewrite Hca.
Qed.

(** Customer and merchant numbers share account numbers: a deposit for customer
    1000000 + m is credited to merchant m, though no payment was captured, so that the
    drift of the next audit grows by the deposit. *)
Theorem deposit_credits_merchant m x s s' r :
  2000000 + m <= U128_MAX -> handle_customer_deposit (1000000 + m) (Some x) s = (s', Ok r) ->
  payments s' = payments s /\ merchant_credits (app_ledger s') m = merchant_credits (app_ledger s) m + x.
Proof.
  intros Hm E. unfold handle_customer_deposit in E.
  assert (customer (1000000 + m) = Some (2000000 + m)) as Hc by (apply checked_add_Some; lia).
  assert (merchant m = Some (2000000 + m)) as Hmm by (apply checked_add_Some; lia).
  repeat match goal with H : st_bind _ _ _ = (_, Ok _) |- _ => apply st_bind_ok in H as (? & ? & ? & H) end.
  unfold st_ret in E. injection E as -> _.
  match goal with H : or_panic _ _ = _ |- _ => unfold or_panic in H; rewrite Hc in H; injection H as <- <- end.
  match goal with H : from_result _ _ (new_immediate _ _ _ _ _) _ = _ |- _ =>
    unfold from_result in H; destruct (new_immediate _ _ _ _ _) as [t|] eqn:Et; [|done]; injection H as <- <- end.
  apply new_immediate_ok in Et as ->. unfold alloc_transfer_id, alloc_timestamp in *. simplify_eq.
  match goal with H : ledger_op (create_transfer ?t) ?c ?u ?s0 = (?s1, Ok _) |- _ =>
    pose proof (ledger_op_outcome _ _ c u s0 (create_transfer_respects t _) (fun _ => eq_refl)) as Ho; rewrite H in Ho end.
  destruct Ho as [Hp Hs]. split; [exact Hp|]. simpl in Hs.
  unfold merchant_credits. rewrite Hmm. simpl. destruct (posted_credit _ _ _ Hs) as (ca & Hca & ca' & Hca' & E').
  simpl in *. rewrite Hca, Hca'. exact E'.
Qed.

End application.

(** ** A worked application *)

Definition put_option (o : option N) : list N := match o with Some n => [1; n] | None => [0; 0] end.
Definition get_option (tag n : N) : option N := if tag =? 1 then Some n else None.
Definition state_tag (p : PaymentState) : N :=
  match p with Authorized => 0 | Captured => 1 | PVoided => 2 | Refunded => 3 end.
Definition tag_state (n : N) : PaymentState :=
  match n with 0 => Authorized | 1 => Captured | 2 => PVoided | _ => Refunded end.

Definition response_fields (r : PaymentResponse) : list N :=
  [rp_payment_id r; state_tag (rp_state r); rp_amount r] ++ put_option (rp_pending_transfer_id r) ++
  put_option (rp_posted_transfer_id r).

(** A text format for responses; an event's text is its id, and it captures payment 5000. *)
Definition toy_json : Json.
Proof.
  refine {| response_to_json r := Ok (String.string_of_list_byte (puts (response_fields r)));
            response_from_json s :=
              match gets 7 (String.list_byte_of_string s) with
              | Some ([i; t; a; x; p; y; q], _) =>
                  Ok (mkResponse i (tag_state t) a (get_option x p) (get_option y q))
              | _ => Err "truncated"%string
              end;
            payload_from_json body := Ok (mkPayload body "charge.captured" 5000 1 101 25 0 1700000010) |}.
  intros r s [= <-]. rewrite String.list_byte_of_string_of_list_byte.
  rewrite <- (app_nil_r (puts _)).
  assert (length (response_fields r) = 7%nat) as Hl by (by destruct r as [i st a [p|] [q|]]).
  pose proof (gets_puts (response_fields r) []) as E. rewrite Hl in E. rewrite E.
  by destruct r as [i st a [p|] [q|]]; destruct st.
Defined.

Section worked.
#[local] Existing Instance borsh_le.
#[local] Existing Instance toy_runtime.
#[local] Existing Instance varint_proof.
#[local] Existing Instance toy_json.

Definition toy_hex (e : HexError) : string := "hex".
Definition toy_text (e : ProgramError) : string := "program".
Definition toy_settle_text (e : SettlementProgramError) : string := "settlement".
Definition toy_hmac (secret body : bytes) : Hash32 := toy_hash (secret ++ body).
Definition toy_transfer_bytes (t : Transfer) : result string bytes :=
  Ok (puts [tr_id t; debit_account_id t; credit_account_id t; tr_amount t]).
Definition toy_secret : bytes := [x53].

Definition toy_start : result (failure (PaymentError + RailError)) App :=
  App_new toy_hash toy_display toy_text toy_secret toy_pid toy_authority.
Definition toy_serve (rs : list Request) : App -> option App :=
  serve_requests toy_hash toy_display toy_hex toy_transfer_bytes toy_text toy_settle_text toy_hmac rs.

Definition toy_order : AuthorizeRequest := mkAuthorize 1 101 25 0 "order-1".
(** One payment is captured, one is held and one is voided. *)
Definition toy_traffic : list Request :=
  [Authorize toy_order; Capture 5000; Authorize (mkAuthorize 2 102 40 0 "order-2");
   Authorize (mkAuthorize 3 103 60 0 "order-3"); Void 5002; Capture 5002].

Definition toy_first : App :=
  match toy_start with Ok s => s | Err _ => mkApp (Ledger_new Scale_usdc) ∅ ∅ ∅ (mkRail toy_pid toy_pid [] Mmr_new [] 0)
    [] Scale_usdc 0 0 0 0 (fun _ => 0) 0 0 end.
Definition toy_app : App := default toy_first (toy_serve toy_traffic toy_first).

Lemma toy_start_ok : toy_start = Ok toy_first.
Proof.
  unfold toy_first. destruct toy_start as [s|e] eqn:E; [done|].
  apply (f_equal is_ok) in E. vm_compute in E. discriminate E.
Qed.

Lemma toy_serve_ok : toy_serve toy_traffic toy_first = Some toy_app.
Proof.
  unfold toy_app. destruct (toy_serve toy_traffic toy_first) as [s|] eqn:E; [done|].
  apply (f_equal (fun o : option App => bool_decide (is_Some o))) in E. vm_compute in E. discriminate E.
Qed.

Lemma toy_served : served toy_hash toy_display toy_hex toy_transfer_bytes toy_text toy_settle_text toy_hmac toy_app.
Proof. exists toy_secret, toy_pid, toy_authority, toy_first, toy_traffic. split; [apply toy_start_ok|apply toy_serve_ok]. Qed.

Abbreviation toy_settlement := (handle_settlement_batch toy_hash toy_display toy_transfer_bytes toy_text
  toy_settle_text).

Lemma payments_backed_witness :
  map_to_list (pay_state <$> payments toy_app) = [(5002, PVoided); (5000, Captured); (5001, Authorized)] /\
  (forall id p, payments toy_app !! id = Some p -> pay_id p = id /\ backed (app_ledger toy_app) p).
Proof.
  split; [vm_compute; reflexivity|].
  apply (payments_backed toy_hash toy_display toy_hex toy_transfer_bytes toy_text toy_settle_text toy_hmac toy_app).
  apply toy_served.
Defined.

Lemma deposit_credits_merchant_witness :
  exists s' r, handle_customer_deposit 1000001 (Some 7) toy_app = (s', Ok r) /\
    merchant_credits (app_ledger s') 1 = 32.
Proof.
  set (run := handle_customer_deposit 1000001 (Some 7) toy_app). exists run.1, (mkDepositResponse 1000001 7 32).
  assert (run = (run.1, Ok (mkDepositResponse 1000001 7 32))) as E
    by (rewrite (surjective_pairing run) at 1; f_equal; vm_compute; reflexivity).
  split; [exact E|]. destruct (deposit_credits_merchant 1 7 toy_app run.1 (mkDepositResponse 1000001 7 32)) as [_ Hm];
    [vm_compute; discriminate|exact E|]. rewrite Hm. vm_compute. reflexivity.
Defined.

Lemma requests_refine_book_witness :
  rtc (pstep anything) (book toy_app) (book (route toy_hash toy_display toy_hex toy_transfer_bytes toy_text
    toy_settle_text toy_hmac QuickSeed toy_app).1).
Proof. apply requests_refine_book. apply toy_served. Defined.

Definition toy_payment (id : N) : Payment := default (new_authorized 0 0 0 0 0 0 0) (payments toy_app !! id).

Lemma decided_payment_final_witness :
  pay_state (toy_payment 5000) = Captured /\
  (exists s' e, handle_capture 5000 toy_app = (s', Err e) /\ book s' = book toy_app) /\
  (exists s' e, handle_void 5000 toy_app = (s', Err e) /\ book s' = book toy_app).
Proof.
  split; [vm_compute; reflexivity|].
  apply (decided_payment_final toy_hash toy_display toy_hex toy_transfer_bytes toy_text toy_settle_text toy_hmac
    toy_app 5000 (toy_payment 5000)); [apply toy_served|vm_compute; reflexivity|vm_compute; discriminate].
Defined.

Definition toy_batch : App * result (failure HttpError) BatchResponse := toy_settlement None toy_app.
Definition toy_response : BatchResponse :=
  match toy_batch.2 with Ok r => r | Err _ => mkBatchResponse (mkSubmission "" 0 0 0 "" None) end.

Lemma toy_batch_ok : toy_batch = (toy_batch.1, Ok toy_response).
Proof.
  unfold toy_response. destruct toy_batch as [s [r|e]] eqn:E; [done|].
  apply (f_equal (fun x => is_ok x.2)) in E. vm_compute in E. discriminate E.
Qed.

Lemma settlement_exact_witness :
  rs_total_amount (br_submission toy_response) = 25 /\ batch_transfers toy_batch.1 = [].
Proof.
  destruct (settlement_exact toy_hash toy_display toy_hex toy_transfer_bytes toy_text toy_settle_text toy_hmac
    None toy_app toy_batch.1 toy_response) as (Ht & _ & _ & _ & _ & Hb);
    [apply toy_served|apply toy_batch_ok|].
  split; [rewrite Ht; vm_compute; reflexivity|exact Hb].
Defined.

Definition toy_chain : SettlementRoot := initial_root toy_authority 255.

Lemma settle_then_verify_witness :
  exists s' resp, toy_settlement None toy_app = (s', Ok resp) /\
    exists s'' rc, handle_payment_verify toy_hash toy_hex toy_transfer_bytes 5000 s' = (s'', Ok (true, Some rc)) /\
      rc_amount rc = 25.
Proof.
  destruct (settle_then_verify toy_hash toy_display toy_hex toy_transfer_bytes toy_text toy_settle_text toy_hmac
    toy_app toy_chain) as (s' & resp & E & Hv);
    [apply toy_served|vm_compute; discriminate|intros t; eexists; reflexivity|vm_compute; reflexivity
    |vm_compute; reflexivity|vm_compute; discriminate|vm_compute; reflexivity|].
  exists s', resp. split; [exact E|].
  destruct (Hv 5000 (toy_payment 5000)) as (s'' & rc & E' & Ea & _); [vm_compute; reflexivity..|].
  exists s'', rc. split; [exact E'|]. rewrite Ea. vm_compute. reflexivity.
Defined.

Definition toy_paid : App * result (failure HttpError) PaymentResponse := handle_authorize toy_order toy_first.

Lemma toy_paid_ok : toy_paid.2 = Ok (mkResponse 5000 Authorized 25 (Some 20000) None).
Proof. vm_compute. reflexivity. Qed.

Lemma toy_paid_serve : toy_serve (tail toy_traffic) toy_paid.1 = Some toy_app.
Proof.
  pose proof toy_serve_ok as E. unfold toy_serve, toy_traffic in E. apply serve_cons in E.
  cbn [route] in E. rewrite discard_state in E. exact E.
Qed.

Lemma authorize_exactly_once_witness :
  handle_authorize (mkAuthorize 3 103 999 9 "order-1") toy_app =
  (toy_app, Ok (mkResponse 5000 Authorized 25 (Some 20000) None)).
Proof.
  apply (authorize_exactly_once toy_hash toy_display toy_hex toy_transfer_bytes toy_text toy_settle_text toy_hmac
    toy_order toy_first toy_paid.1 (mkResponse 5000 Authorized 25 (Some 20000) None) (tail toy_traffic) toy_app);
    [| |reflexivity].
  - rewrite <- toy_paid_ok. apply surjective_pairing.
  - apply toy_paid_serve.
Defined.

(** The captured event, signed, and delivered to an application where payment 5000 is held. *)
Definition toy_body : string := "evt-1".
Definition toy_signature : string := hex_of (vec_to_list (toy_hmac toy_secret (String.list_byte_of_string toy_body))).
Definition toy_delivered : App * result (failure HttpError) unit :=
  handle_webhook toy_hmac (Some toy_signature) toy_body toy_paid.1.

Lemma webhook_authentic_witness :
  exists pl, authentic toy_hmac (Some toy_signature) toy_body pl toy_paid.1 /\ event_id pl = toy_body.
Proof.
  destruct (webhook_authentic toy_hmac (Some toy_signature) toy_body toy_paid.1 toy_delivered.1 toy_delivered.2)
    as (pl & Ha & _ & Hd).
  - apply surjective_pairing.
  - intros E. apply (f_equal (fun b => pay_state <$> b.2 !! 5000)) in E. vm_compute in E. discriminate E.
  - exists pl. split; [exact Ha|]. destruct Ha as (_ & E & _). injection E as <-. reflexivity.
Defined.

Lemma webhook_at_most_once_witness :
  exists s'' e, handle_webhook toy_hmac (Some toy_signature) toy_body toy_delivered.1 = (s'', Err e) /\
    book s'' = book toy_delivered.1.
Proof.
  apply (webhook_at_most_once toy_hash toy_display toy_hex toy_transfer_bytes toy_text toy_settle_text toy_hmac
    [] toy_delivered.1 toy_delivered.1 (Some toy_signature) toy_body
    (mkPayload toy_body "charge.captured" 5000 1 101 25 0 1700000010)); [|reflexivity|reflexivity].
  apply (bool_decide_unpack _). vm_compute. exact I.
Defined.

Definition toy_report : ReconciliationReport := mkReport 7 Clean 25 25 0 0 1 None.

Lemma audit_exact_witness :
  drift toy_report = 0%Z /\ (rr_status toy_report = Clean <-> 25 = 25 /\
     forall r, None = Some r -> sr_total_settled_amount r = 25).
Proof.
  destruct (audit_exact (map_to_list (payments toy_app)).*2 (app_ledger toy_app) [1; 2; 3] None 7 toy_report)
    as (_ & _ & Hd & Hs); [vm_compute; reflexivity|]. split; [exact Hd|exact Hs].
Defined.
End worked.
