(* ===== verification/ApiAudit.v ===== *)
(** * Audits over orderly traffic

    Reconciliation compares two sums that different code maintains: the captured payments
    of the application, and the credits posted to the merchants by the ledger.  Here they
    are shown to agree after any orderly traffic: payment numbers come from the counter,
    and deposits go to customers. *)

From S2P Require Import Bytes Error Amount Account Transfer Ledger LedgerStep LedgerInv LedgerHistory Merkle MerkleProps Codec Settle SettleInv SettleFormat SettleProps Payment Rail Api PaymentBook ApiInv ApiProps.
From stdpp Require Import list strings gmap relations.
From S2P Require Import Prelude Api.
#[local] Open Scope N_scope.

(** ** Payment numbers *)

(** The payments and the counter their numbers come from. *)
Definition register (s : App) : gmap N Payment * N := (payments s, next_payment_id s).

(** Every payment has a number the counter has passed, and [n] more can be issued. *)
Definition issued (n : nat) (v : gmap N Payment * N) : Prop :=
  v.2 + N.of_nat n < 2 ^ 64 /\ forall id, is_Some (v.1 !! id) -> id < v.2.

Lemma issued_less n k v : (k <= n)%nat -> issued n v -> issued k v.
Proof. intros Hk [Hn Hi]. split; [lia|done]. Qed.

Lemma issued_next n v : issued n v -> v.1 !! v.2 = None.
Proof. intros [_ Hi]. apply eq_None_not_Some. intros Hs. apply Hi in Hs. lia. Qed.

Lemma issued_insert n v id p : issued n v -> id < v.2 -> issued n (<[id := p]> v.1, v.2).
Proof.
  intros [Hn Hi] Hid. split; [done|]. intros j. simpl. rewrite lookup_insert_is_Some'.
  intros [<-|Hj]; auto.
Qed.

(** Taking a number, and entering a payment under a number that was taken. *)
Definition holds (n : nat) (id : N) (v : gmap N Payment * N) : Prop := issued n v /\ id < v.2.

Lemma runs_alloc n : runs register (issued (S n)) alloc_payment_id (holds n) (issued n).
Proof.
  intros s [Hn Hi]. unfold alloc_payment_id, holds, issued. simpl in *.
  rewrite N.mod_small by lia. split; [split; [lia|]|lia]. intros id Hid. apply Hi in Hid. lia.
Qed.

Lemma runs_insert n id p : runs register (holds n id) (insert_payment id p) (fun _ => issued n) (issued n).
Proof. intros s [Hi Hid]. unfold insert_payment, register. simpl. by apply (issued_insert n (register s)). Qed.

Lemma holds_issued n id v : holds n id v -> issued n v.
Proof. by intros [? _]. Qed.
Lemma issued_S n v : issued (S n) v -> issued n v.
Proof. apply issued_less. lia. Qed.

Ltac weaker := first [done | apply holds_issued | apply issued_S].
Ltac pass := apply runs_pass; [framed|weaker|intros ?].
Ltac close := apply runs_close; [framed|weaker].
Ltac enter := eapply runs_bind; [apply runs_insert|intros ?].
Ltac number := eapply runs_bind; [apply runs_alloc|intros ?].

Lemma authorize_runs `{Json} n req :
  runs register (issued (S n)) (handle_authorize req) (fun _ => issued n) (issued n).
Proof.
  unfold handle_authorize. pass. case_match; [close|]. number. cbv zeta. do 8 pass. enter. do 2 pass. close.
Qed.

Lemma seed_one_runs n d : runs register (issued (S n)) (seed_one d) (fun _ => issued n) (issued n).
Proof.
  destruct d as [[[[c m] x] fee] target]. unfold seed_one. pass. number. do 5 pass. cbv zeta. pass. apply runs_insert.
Qed.

Lemma seed_deposits_frame cs : Frame register (seed_deposits cs).
Proof. induction cs; simpl; framed. Qed.

Lemma seeds_run n ss : runs register (issued (length ss + n)) (st_for seed_one ss) (fun _ => issued n) (issued n).
Proof.
  induction ss as [|d ss IH]; simpl; [close|]. apply runs_bind with (Q := fun _ => issued (length ss + n)); [|done].
  intros s Hs. pose proof (seed_one_runs _ d s Hs) as Hd. destruct (seed_one d s) as [s' [u|e]]; [done|].
  eapply issued_less; [|exact Hd]. lia.
Qed.

Lemma quick_seed_runs n : runs register (issued (4 + n)) handle_quick_seed (fun _ => issued n) (issued n).
Proof.
  unfold handle_quick_seed. apply runs_pass; [apply seed_deposits_frame|intros v; apply issued_less; lia|intros ?].
  eapply runs_bind; [apply (seeds_run n seeds)|intros ?]. close.
Qed.

(** The payments that were there already. *)
Lemma get_payment_runs n id :
  runs register (issued n) (get_payment id) (fun _ => holds n id) (issued n).
Proof.
  intros s Hi. unfold get_payment. destruct (payments s !! id) as [p|] eqn:E; simpl; [|done].
  split; [done|]. apply Hi. simpl. eauto.
Qed.

Lemma capture_runs n id : runs register (issued n) (handle_capture id) (fun _ => issued n) (issued n).
Proof.
  unfold handle_capture. eapply runs_bind; [apply get_payment_runs|intros p]. do 5 pass. enter. close.
Qed.

Lemma void_runs n id : runs register (issued n) (handle_void id) (fun _ => issued n) (issued n).
Proof.
  unfold handle_void. eapply runs_bind; [apply get_payment_runs|intros p]. do 4 pass. enter. close.
Qed.

Lemma event_runs n pl :
  event_type pl <> "charge.authorized"%string -> runs register (issued n) (handle_event pl) (fun _ => issued n) (issued n).
Proof.
  intros Hne. unfold handle_event. rewrite decide_False by done. case_decide; [|close].
  intros s Hi. destruct (payments s !! _) as [p|] eqn:E; [|done]. destruct (pending_transfer_id p) as [h|]; [|done].
  assert (holds n (wh_payment_id pl) (register s)) as Hh by (split; [done|]; apply Hi; simpl; eauto).
  clear Hi E. revert s Hh. change (runs register (holds n (wh_payment_id pl)) (st_bind alloc_transfer_id (fun q =>
    st_bind (ledger_op (post_pending h q (pay_amount p) (wh_timestamp pl)) INTERNAL_SERVER_ERROR id) (fun _ =>
    st_bind (from_result BAD_REQUEST OfPayment (transition_to_captured q (wh_timestamp pl) p))
      (insert_payment (wh_payment_id pl))))) (fun _ => issued n) (issued n)).
  do 3 pass. apply runs_insert.
Qed.

(** ** The two sums *)

(** Deposits stay below the merchants' accounts, and a payment takes a new number. *)
Definition customers_only : Policy := mkPolicy (fun a => a < 2000000) (fun id m => m !! id = None).

Definition captured_to (a : AccountId) (p : Payment) : N :=
  if bool_decide (pay_state p = Captured /\ merchant (merchant_id p) = Some a) then pay_amount p else 0.

(** A merchant was credited what its captured payments add up to. *)
Definition audited (b : Book) : Prop :=
  forall a, 2000000 <= a -> balance_of credits_posted (accounts b.1) a = map_sum (captured_to a) b.2.

Lemma captured_to_other a p : pay_state p <> Captured -> captured_to a p = 0.
Proof. intros Hp. unfold captured_to. by rewrite bool_decide_eq_false_2 by tauto. Qed.

Lemma map_sum_same {A} (f : A -> N) (m m' : gmap N A) :
  (forall i, f <$> m' !! i = f <$> m !! i) -> map_sum f m' = map_sum f m.
Proof.
  intros Hm. assert (forall n : gmap N A, map_sum f n = map_fold (fun _ => N.add) 0 (f <$> n)) as E
    by (intros n; by rewrite map_fold_fmap).
  rewrite !E. f_equal. apply map_eq. intros i. by rewrite !lookup_fmap.
Qed.

Lemma settle_marks_captured ids seq p p' a : settle_marks ids seq p p' -> captured_to a p' = captured_to a p.
Proof. by intros [->|(_ & _ & _ & ->)]. Qed.

Lemma audited_step sc b b' : book_inv sc b -> pstep customers_only b b' -> audited b -> audited b'.
Proof.
  intros Hi Hs Ha a Ga. specialize (Ha a Ga). pose proof (reachable_inv _ _ (bi_reach _ _ Hi)) as Hinv.
  destruct Hs as [l l' m t Hs _ Hk|l l' m t Hs|l l' m t p Hs Hm Hst Hpe Hpo Hse Hnew
    |l l' m id p h q ts Hp Hst Hpe Hs|l l' m id p h x ts Hp Hst Hpe Hs|l m m' ids seq Hm Hn]; simpl in *;
    try (destruct (lstep_booked _ _ _ a Hs Hinv) as [_ ->]; rewrite Ha; simpl).
  - rewrite bool_decide_eq_false_2 by lia. lia.
  - lia.
  - rewrite map_sum_insert_new by done. rewrite captured_to_other by (rewrite Hst; discriminate). lia.
  - destruct (posted_lookup _ _ _ _ _ _ Hs) as (t & Ht & _ & _ & _ & Hq). rewrite Hq. simpl.
    destruct (bi_backed _ _ Hi id p Hp) as (h' & t' & Hh' & Ht' & (_ & Hmer & _) & _). simpl in *. simplify_eq.
    pose proof (map_sum_update (captured_to a) m id p (set_state Captured (Some q) ts p) Hp) as E.
    rewrite (captured_to_other a p) in E by (rewrite Hst; discriminate).
    unfold captured_to at 3 in E. simpl in E. rewrite Hmer in E.
    repeat case_bool_decide; try lia; naive_solver.
  - pose proof (map_sum_update (captured_to a) m id p (set_state PVoided (posted_transfer_id p) ts p) Hp) as E.
    rewrite !(captured_to_other a) in E by (simpl; rewrite ?Hst; discriminate). lia.
  - rewrite Ha. symmetry. apply map_sum_same. intros i. destruct (m !! i) as [p|] eqn:E; [|by rewrite Hn].
    destruct (Hm i p E) as (p' & -> & Hp'). simpl. f_equal. by eapply settle_marks_captured.
Qed.

(** The merchants' accounts are the three the application starts with. *)
Definition three_merchants (b : Book) : Prop :=
  forall a, 2000000 <= a -> is_Some (accounts b.1 !! a) <-> a ∈ [2000001; 2000002; 2000003].

Lemma three_merchants_step pol b b' : pstep pol b b' -> three_merchants b -> three_merchants b'.
Proof.
  intros Hs Hb a Ha. rewrite <- (Hb a Ha).
  destruct Hs; simpl in *; try done;
    match goal with H : lstep _ _ _ |- _ => inversion H; subst end; simpl in *; apply upd2_dom.
Qed.

Record audit_inv (sc : Scale) (b : Book) : Prop := {
  ai_book : book_inv sc b;
  ai_sums : audited b;
  ai_merchants : three_merchants b;
}.

Lemma audit_steps sc b b' : rtc (pstep customers_only) b b' -> audit_inv sc b -> audit_inv sc b'.
Proof.
  induction 1 as [|b b1 b2 Hs _ IH]; [done|]. intros [Hb Ha Hm]. apply IH.
  split; [by eapply pstep_inv|by eapply audited_step|by eapply three_merchants_step].
Qed.

(** A captured payment went to one of them, so that the sums are equal. *)
Lemma captured_merchant sc b id p :
  audit_inv sc b -> b.2 !! id = Some p -> merchant_id p ∈ [1; 2; 3].
Proof.
  intros [Hb _ Hm] Hp. destruct (bi_backed _ _ Hb id p Hp) as (h & t & _ & Ht & (_ & Hmer & _) & _).
  pose proof (reachable_inv _ _ (bi_reach _ _ Hb)) as Hinv.
  pose proof (tok_credit _ _ _ _ (inv_transfers _ Hinv h t Ht)) as Hacc.
  apply checked_add_Some in Hmer as [E _]. apply Hm in Hacc; [|lia].
  rewrite !elem_of_cons, elem_of_nil in *. lia.
Qed.

Definition captured_amount (p : Payment) : N := if bool_decide (pay_state p = Captured) then pay_amount p else 0.

Lemma map_sum_add {A} (f g : A -> N) (m : gmap N A) : map_sum (fun x => f x + g x) m = map_sum f m + map_sum g m.
Proof.
  induction m as [|k v m Hk IH] using map_ind; [by rewrite !map_sum_empty|].
  rewrite !map_sum_insert_new by done. lia.
Qed.

Lemma map_sum_values {A} (f : A -> N) (m : gmap N A) : map_sum f m = list_sum f (map_to_list m).*2.
Proof.
  unfold map_sum. rewrite map_fold_foldr. induction (map_to_list m) as [|[i p] es IH]; [done|]. simpl. by rewrite IH.
Qed.

Lemma merchant_credits_balance l k :
  2000000 + k <= U128_MAX -> merchant_credits l k = balance_of credits_posted (accounts l) (2000000 + k).
Proof.
  intros Hk. unfold merchant_credits, balance_of. replace (merchant k) with (Some (2000000 + k)); [|symmetry; by apply checked_add_Some].
  simpl. by destruct (accounts l !! _).
Qed.

Lemma sums_agree sc b :
  audit_inv sc b -> list_sum captured_amount (map_to_list b.2).*2 = list_sum (merchant_credits b.1) [1; 2; 3].
Proof.
  intros Hi. rewrite <- map_sum_values. simpl. rewrite !merchant_credits_balance by (vm_compute; discriminate).
  rewrite !(ai_sums _ _ Hi) by (vm_compute; discriminate). rewrite N.add_0_r, <- !map_sum_add.
  apply map_sum_ext. intros id p Hp. pose proof (captured_merchant _ _ _ _ Hi Hp) as Hm.
  unfold captured_amount, captured_to. destruct (decide (pay_state p = Captured)) as [E|E].
  - rewrite !elem_of_cons, elem_of_nil in Hm. rewrite E.
    destruct Hm as [->|[->|[->|[]]]]; vm_compute merchant; repeat (case_bool_decide; try naive_solver lia).
  - rewrite !bool_decide_eq_false_2 by tauto. done.
Qed.

(** An audit of equal sums in range answers, with no drift. *)
Lemma captured_total_ok ps n k :
  n + list_sum captured_amount ps <= U128_MAX -> exists c, captured_total ps n k = Ok (n + list_sum captured_amount ps, c).
Proof.
  revert n k. induction ps as [|p ps IH]; intros n k Hn; simpl in *; [exists k; by rewrite N.add_0_r|].
  unfold captured_amount at 1 in Hn. unfold captured_amount at 1. case_bool_decide.
  - replace (checked_add U128_MAX n (pay_amount p)) with (Some (n + pay_amount p)) by (symmetry; apply checked_add_Some; lia).
    simpl. destruct (IH (n + pay_amount p) (k + 1)) as [c ->]; [lia|]. exists c. do 2 f_equal. lia.
  - destruct (IH n k) as [c ->]; [lia|]. exists c. do 2 f_equal.
Qed.

Lemma merchants_total_ok l ms n :
  (forall k, k ∈ ms -> exists acc, merchant k = Some acc /\ is_Some (accounts l !! acc)) ->
  n + list_sum (merchant_credits l) ms <= U128_MAX ->
  merchants_total l ms n = Ok (n + list_sum (merchant_credits l) ms).
Proof.
  revert n. induction ms as [|k ms IH]; intros n Hex Hn; simpl in *; [by rewrite N.add_0_r|].
  destruct (Hex k) as (acc & Ek & [a Ea]); [left|]. unfold merchant_credits at 1 in Hn. unfold merchant_credits at 1.
  rewrite Ek in *. simpl in *. unfold get_account. rewrite Ea in *. simpl in *.
  replace (checked_add U128_MAX n (credits_posted (acc_balance a))) with (Some (n + credits_posted (acc_balance a)))
    by (symmetry; apply checked_add_Some; lia).
  simpl. rewrite IH; [f_equal; lia|intros; apply Hex; by right|lia].
Qed.

Lemma audit_agrees sc b chain ts :
  audit_inv sc b -> list_sum captured_amount (map_to_list b.2).*2 <= I128_MAX ->
  exists rep, audit (map_to_list b.2).*2 b.1 [1; 2; 3] chain ts = Ok rep /\ drift rep = 0%Z /\
    app_settled_total rep = list_sum captured_amount (map_to_list b.2).*2 /\
    ledger_settled_total rep = list_sum captured_amount (map_to_list b.2).*2.
Proof.
  intros Hi Hmax. pose proof (sums_agree sc b Hi) as Hsum. unfold audit.
  set (total := list_sum captured_amount _) in *.
  destruct (captured_total_ok (map_to_list b.2).*2 0 0) as [c ->]; [fold total; unfold I128_MAX, U128_MAX in *; lia|].
  rewrite merchants_total_ok; [|intros k Hk|rewrite <- Hsum; unfold I128_MAX, U128_MAX in *; lia].
  - rewrite <- Hsum. fold total. rewrite N.add_0_l. unfold to_signed. simpl.
    replace (total <=? I128_MAX) with true by (symmetry; by apply N.leb_le). simpl. rewrite Z.sub_diag. simpl.
    eexists. split; [done|]. by case_match.
  - exists (2000000 + k). assert (2000000 + k ∈ [2000001; 2000002; 2000003]) as Hin
      by (rewrite !elem_of_cons, elem_of_nil in *; lia).
    split; [apply checked_add_Some; rewrite !elem_of_cons, elem_of_nil in Hk; unfold U128_MAX; lia|].
    by apply (ai_merchants _ _ Hi); [lia|].
Qed.

(** ** Orderly requests *)

Section orderly.
Context (sha256 : bytes -> Hash32) (display : ProofError -> string) (display_hex : HexError -> string).
Context (transfer_bytes : Transfer -> result string bytes).
Context (program_error_string : ProgramError -> string).
Context (settlement_error_string : SettlementProgramError -> string).
Context (hmac_sha256 : bytes -> bytes -> Hash32).
Context `{Borsh, Runtime, ProofBytes, Json}.

Abbreviation routed := (route sha256 display display_hex transfer_bytes program_error_string
  settlement_error_string hmac_sha256).
Abbreviation serve := (serve_requests sha256 display display_hex transfer_bytes program_error_string
  settlement_error_string hmac_sha256).

(** Deposits go to customers whose accounts lie below the merchants', and no delivery
    chooses the number of a payment. *)
Definition orderly (r : Request) : bool :=
  match r with
  | Deposit id _ => id <? 1000000
  | Webhook _ body =>
      match payload_from_json body with
      | Ok pl => negb (bool_decide (event_type pl = "charge.authorized"%string))
      | Err _ => true
      end
  | _ => true
  end.

Lemma webhook_runs n sig body :
  orderly (Webhook sig body) = true ->
  runs register (issued n) (handle_webhook hmac_sha256 sig body) (fun _ => issued n) (issued n).
Proof.
  intros Ho. unfold handle_webhook. do 2 pass. intros s Hs. unfold st_bind at 1, from_result at 1. simpl in Ho.
  destruct (payload_from_json body) as [pl|e]; simpl; [|done]. apply negb_true_iff, bool_decide_eq_false in Ho.
  revert s Hs. match goal with |- forall s, issued n _ -> match ?m s with _ => _ end =>
    change (runs register (issued n) m (fun _ => issued n) (issued n)) end.
  do 3 pass. by apply event_runs.
Qed.

Lemma settlement_runs n rail :
  runs register (issued n) (handle_settlement_batch sha256 display transfer_bytes program_error_string
    settlement_error_string rail) (fun _ => issued n) (issued n).
Proof.
  unfold handle_settlement_batch. pass. case_bool_decide; [close|]. cbv zeta. do 4 pass.
  apply runs_bind with (Q := fun _ => issued n); [|intros ?; pass; close].
  intros s [Hn Hi]. split; [done|]. intros id. simpl. rewrite lookup_fmap, fmap_is_Some. apply Hi.
Qed.

Lemma weaken_runs {A} n (m : app A) :
  runs register (issued n) m (fun _ => issued n) (issued n) -> runs register (issued (4 + n)) m (fun _ => issued n) (issued n).
Proof. intros Hm. eapply runs_weaken; [exact Hm|intros v; apply issued_less; lia|done]. Qed.

(** A request issues at most four numbers. *)
Lemma route_runs n r :
  orderly r = true -> runs register (issued (4 + n)) (routed r) (fun _ => issued n) (issued n).
Proof.
  intros Ho. destruct r as [req|id|id|id x|sig body|rail| | | | | |id|rc]; cbn [route];
    try apply discard_runs.
  - eapply runs_weaken; [apply authorize_runs|intros v; apply issued_less; lia|done].
  - apply weaken_runs, capture_runs.
  - apply weaken_runs, void_runs.
  - apply weaken_runs. unfold handle_customer_deposit. close.
  - by apply weaken_runs, webhook_runs.
  - apply weaken_runs, settlement_runs.
  - apply weaken_runs. unfold handle_reconciliation, run_audit. close.
  - apply weaken_runs. unfold handle_simulate_drift, handle_reconciliation, run_audit. close.
  - apply weaken_runs. unfold handle_heal_drift, handle_reconciliation, run_audit. close.
  - apply quick_seed_runs.
  - apply weaken_runs. unfold handle_dashboard_data, run_audit. close.
  - apply weaken_runs. unfold handle_payment_verify. close.
  - apply weaken_runs. unfold handle_verify_receipt. close.
Qed.

(** ** Any orderly requests *)

Lemma orderly_allowed r s : orderly r = true -> allowed customers_only r (payments s).
Proof.
  destruct r as [| | |id x|sig body| | | | | | | |]; simpl; try done.
  - intros Hid a Ha. apply N.ltb_lt in Hid. apply checked_add_Some in Ha as [? _]. lia.
  - intros Ho pl E Ht. rewrite E, bool_decide_eq_true_2 in Ho by done. done.
  - intros _ c a Hc Ha. rewrite !elem_of_cons, elem_of_nil in Hc. apply checked_add_Some in Ha as [? _]. lia.
Qed.

Lemma route_orderly sc n r s :
  orderly r = true -> audit_inv sc (book s) -> issued (4 + n) (register s) ->
  audit_inv sc (book (routed r s).1) /\ issued n (register (routed r s).1).
Proof.
  intros Ho Hi Hr. split; [|by eapply runs_state; [by apply route_runs|]].
  eapply audit_steps; [|exact Hi].
  apply (route_follows customers_only _ _ _ _ _ _ _ sc (fun n s => issued n (register s))).
  - intros k s'. exact (issued_next (S k) (register s')).
  - intros k d s'. apply runs_state, seed_one_runs.
  - intros k cs s'. by rewrite seed_deposits_frame.
  - apply Hi.
  - by apply orderly_allowed.
  - eapply issued_less; [|exact Hr]. simpl. lia.
Qed.

Lemma serve_orderly sc rs s s' :
  Forall (fun r => orderly r = true) rs -> audit_inv sc (book s) -> issued (4 * length rs) (register s) ->
  serve rs s = Some s' -> audit_inv sc (book s').
Proof.
  intros Ho. revert s. induction Ho as [|r rs Hr _ IH]; intros s Hi Hn E; [simpl in E; by simplify_eq|].
  apply serve_cons in E. destruct (route_orderly sc (4 * length rs) r s Hr Hi) as [Hi' Hn'].
  - eapply issued_less; [|exact Hn]. simpl. lia.
  - by apply (IH _ Hi' Hn').
Qed.

Lemma App_new_audited secret pid a s :
  App_new sha256 display program_error_string secret pid a = Ok s ->
  audit_inv Scale_usdc (book s) /\ register s = (∅, 5000) .
Proof.
  intros E. destruct (App_new_inv _ _ _ _ _ _ _ E) as [Hb _]. revert E. unfold App_new.
  set (run := setup_accounts _ _ _ _ _ _).
  assert (map_Forall (fun a acc => 2000000 <= a -> credits_posted (acc_balance acc) = 0 /\ a ∈ [2000001; 2000002; 2000003])
    (accounts run.1)) as Hacc by (apply (bool_decide_unpack _); by vm_compute).
  assert (Forall (fun a => is_Some (accounts run.1 !! a)) [2000001; 2000002; 2000003]) as Hex
    by (apply (bool_decide_unpack _); by vm_compute).
  destruct run as [l [[]|[|e]]]; simpl in *; try done. intros E. run_inv. simpl in *.
  split; [|done]. split; [done|intros i Hi|intros i Hi]; simpl.
  - rewrite map_sum_empty. unfold balance_of. destruct (accounts l !! i) as [acc|] eqn:Ei; [|done].
    simpl. by apply (Hacc i acc Ei).
  - split; [intros [acc Ei]; by apply (Hacc i acc Ei)|]. intros Hin. rewrite Forall_forall in Hex. by apply Hex.
Qed.

(** ** The simulated drift *)

Lemma App_new_drift secret pid a s :
  App_new sha256 display program_error_string secret pid a = Ok s -> simulated_drift s = 0%Z.
Proof.
  unfold App_new. destruct (setup_accounts _ _ _ _ _ _) as [l [[]|[|e]]]; simpl; try done. intros E. by run_inv.
Qed.

(** An audit without drift reports the simulated one. *)
Lemma add_drift_zero d rep :
  drift rep = 0%Z -> d = 0%Z \/ d = 50000000%Z ->
  exists rep', add_drift d rep = Some rep' /\ drift rep' = d /\
    app_settled_total rep' = app_settled_total rep /\ ledger_settled_total rep' = ledger_settled_total rep.
Proof.
  intros Hd [->| ->]; unfold add_drift; simpl; [by exists rep|]. rewrite Hd. simpl. by eexists.
Qed.

(** What the last request that sets the simulated drift has set it to. *)
Definition simulate (d : Z) (r : Request) : Z :=
  match r with SimulateDrift => 50000000 | HealDrift => 0 | _ => d end%Z.
Definition simulated (rs : list Request) : Z := foldl simulate 0%Z rs.

Lemma seed_deposits_drift cs : Frame simulated_drift (seed_deposits cs).
Proof. induction cs; simpl; framed. Qed.
Lemma seeds_drift ss : Frame simulated_drift (st_for seed_one ss).
Proof.
  induction ss as [|[[[[c m] x] fee] target] ss IH]; simpl; [framed|]. apply frame_bind; [|by intros ?].
  unfold seed_one. framed.
Qed.
Lemma event_drift pl : Frame simulated_drift (handle_event pl).
Proof.
  unfold handle_event. framed. intros s'. destruct (payments s' !! _) as [p|]; [|done].
  destruct (pending_transfer_id p) as [h|]; [|done]. apply (frame (view := simulated_drift)).
Qed.
Lemma reconciliation_drift : Frame simulated_drift handle_reconciliation.
Proof. unfold handle_reconciliation, run_audit. framed. Qed.

Lemma route_simulates r s : simulated_drift (routed r s).1 = simulate (simulated_drift s) r.
Proof.
  assert (forall A (m : st App (failure HttpError) A), Frame simulated_drift m ->
    simulated_drift (discard m s).1 = simulated_drift s) as Hd.
  { intros A m Hm. rewrite discard_state. apply Hm. }
  destruct r; cbn [route simulate]; try apply Hd.
  - unfold handle_authorize. framed.
  - unfold handle_capture. framed.
  - unfold handle_void. framed.
  - unfold handle_customer_deposit. framed.
  - match goal with |- simulated_drift (?m s).1 = _ => enough (Frame simulated_drift m) as Hf by apply Hf end.
    unfold handle_webhook. framed. apply event_drift.
  - unfold handle_settlement_batch. framed.
  - apply reconciliation_drift.
  - pose proof (reconciliation_drift (set_simulated 50000000 s)) as E. unfold discard, handle_simulate_drift, st_bind. simpl.
    by destruct (handle_reconciliation _) as [s' [a|e]].
  - pose proof (reconciliation_drift (set_simulated 0 s)) as E. unfold discard, handle_heal_drift, st_bind. simpl.
    by destruct (handle_reconciliation _) as [s' [a|e]].
  - unfold handle_quick_seed. apply frame_bind; [apply seed_deposits_drift|intros _]. apply frame_bind; [apply seeds_drift|framed].
  - unfold handle_dashboard_data, run_audit. framed.
  - unfold handle_payment_verify. framed.
  - unfold handle_verify_receipt. framed.
Qed.

Lemma serve_simulates rs s s' : serve rs s = Some s' -> simulated_drift s' = foldl simulate (simulated_drift s) rs.
Proof.
  revert s. induction rs as [|r rs IH]; intros s E; [by injection E as <-|]. apply serve_cons in E.
  rewrite (IH _ E). simpl. by rewrite route_simulates.
Qed.

Lemma simulated_range rs d : d = 0%Z \/ d = 50000000%Z -> foldl simulate d rs = 0%Z \/ foldl simulate d rs = 50000000%Z.
Proof. revert d. induction rs as [|r rs IH]; intros d Hd; [done|]. apply IH. destruct r; simpl; auto. Qed.

(** C20: after any orderly requests the captured payments add up to exactly what the ledger has
    credited to the merchants; as long as that total is at most [i128::MAX], reconciliation
    answers with it and with a drift that is exactly the simulated one: zero, unless the last
    request about drift was to simulate it. *)
Theorem orderly_no_drift secret pid a s0 rs s :
  App_new sha256 display program_error_string secret pid a = Ok s0 ->
  Forall (fun r => orderly r = true) rs -> N.of_nat (length rs) < 2 ^ 60 -> serve rs s0 = Some s ->
  list_sum captured_amount (payment_values s) = list_sum (merchant_credits (app_ledger s)) [1; 2; 3] /\
  (list_sum captured_amount (payment_values s) <= I128_MAX ->
   exists s' rep, handle_reconciliation s = (s', Ok rep) /\ drift rep = simulated rs /\
     app_settled_total rep = list_sum captured_amount (payment_values s) /\
     ledger_settled_total rep = app_settled_total rep).
Proof.
  intros E Ho Hlen Hs. destruct (App_new_audited _ _ _ _ E) as [Hi Hr].
  assert (audit_inv Scale_usdc (book s)) as Hi'.
  { eapply serve_orderly; [exact Ho|exact Hi| |exact Hs]. rewrite Hr. split; simpl; [lia|].
    intros id. rewrite lookup_empty. by intros [? ?]. }
  split; [by apply (sums_agree Scale_usdc (book s))|]. intros Hmax.
  assert (simulated_drift s = simulated rs) as Hd.
  { rewrite (serve_simulates _ _ _ Hs). by rewrite (App_new_drift _ _ _ _ E). }
  unfold handle_reconciliation, run_audit. rewrite st_bind_reads.
  unfold st_bind at 1 2. simpl.
  destruct (audit_agrees Scale_usdc (book s) (current_settlement_root (solana_rail s)) (next_timestamp s) Hi' Hmax)
    as (rep & Ea & Hdrift & Ht & Hl).
  unfold st_bind. simpl in *. unfold payment_values. rewrite Ea. simpl. rewrite Hd.
  destruct (add_drift_zero (simulated rs) rep Hdrift) as (rep' & -> & Hd' & Ha' & Hl'); [by apply simulated_range; left|].
  unfold or_panic. simpl. eexists _, rep'. split; [done|]. by rewrite Hl', Ha', Hl, Ht.
Qed.

(** A delivery that authorises is not orderly: under the number of a captured payment it
    replaces the record, and the merchant keeps credits that no payment accounts for. *)
Theorem webhook_replaces_captured pl s s' p :
  served sha256 display display_hex transfer_bytes program_error_string settlement_error_string hmac_sha256 s ->
  event_type pl = "charge.authorized"%string -> payments s !! wh_payment_id pl = Some p -> pay_state p = Captured ->
  handle_event pl s = (s', Ok tt) ->
  list_sum captured_amount (payment_values s') + pay_amount p = list_sum captured_amount (payment_values s) /\
  list_sum (merchant_credits (app_ledger s')) [1; 2; 3] = list_sum (merchant_credits (app_ledger s)) [1; 2; 3].
Proof.
  intros Hs Ht Hp Hst E. apply served_inv, bi_reach, reachable_inv in Hs. unfold handle_event in E.
  rewrite decide_True in E by done.
  repeat match goal with H : st_bind _ _ _ = (_, Ok _) |- _ => apply st_bind_ok in H as (? & ? & ? & H) end.
  match goal with H : from_result _ _ (new_pending _ _ _ _ _) _ = _ |- _ =>
    pose proof H as Hn; apply from_result_ok, new_pending_ok in Hn as ->; injection H as -> end.
  repeat match goal with H : or_panic ?o _ = _ |- _ => unfold or_panic in H; destruct o; [|done]; injection H as <- <- end.
  match goal with H : alloc_transfer_id s = _ |- _ => injection H as <- <- end.
  match goal with H : ledger_op (create_pending ?t) ?c ?u ?s0 = (?s1, Ok _) |- _ =>
    pose proof (ledger_op_outcome _ _ c u s0 (create_pending_respects t _) (fun _ => eq_refl)) as Ho; rewrite H in Ho end.
  destruct Ho as [Hpay Hstep]. simpl in *. injection E as <-. unfold payment_values. simpl. rewrite Hpay.
  rewrite <- !map_sum_values. split.
  - pose proof (map_sum_update captured_amount _ _ _ (new_authorized (wh_payment_id pl) (wh_merchant_id pl)
      (wh_customer_id pl) (wh_amount pl) (wh_fee_amount pl) (next_transfer_id s) (wh_timestamp pl)) Hp) as Hu.
    unfold captured_amount at 2 4 in Hu. simpl in Hu. rewrite Hst in Hu. simpl in Hu. lia.
  - rewrite !merchant_credits_balance by (vm_compute; discriminate).
    rewrite !(proj2 (lstep_booked _ _ _ _ Hstep Hs)). simpl. lia.
Qed.
End orderly.

(** ** A worked day *)

Section worked.
#[local] Existing Instance borsh_le.
#[local] Existing Instance toy_runtime.
#[local] Existing Instance varint_proof.
#[local] Existing Instance toy_json.

(** One payment is captured by a request and one by a delivery, then come the sample
    payments, a settlement, and a payment that is voided.  The audits let the clock catch
    up with the delivery's timestamp. *)
Definition toy_day : list Request :=
  [Authorize toy_order; Deposit 101 (Some 7); Authorize (mkAuthorize 2 102 40 0 "order-2"); Capture 5001;
   Webhook (Some toy_signature) toy_body; Reconciliation; Reconciliation; Reconciliation; Reconciliation;
   Reconciliation; QuickSeed; SettlementBatch None; Authorize (mkAuthorize 3 103 60 0 "order-3"); Void 5006].
Definition toy_evening : App := default toy_first (toy_serve toy_day toy_first).

Lemma toy_evening_ok : toy_serve toy_day toy_first = Some toy_evening.
Proof.
  unfold toy_evening. destruct (toy_serve toy_day toy_first) as [s|] eqn:E; [done|].
  apply (f_equal (fun o : option App => bool_decide (is_Some o))) in E. vm_compute in E. discriminate E.
Qed.

Lemma orderly_no_drift_witness :
  exists s' rep, handle_reconciliation toy_evening = (s', Ok rep) /\ drift rep = 0%Z /\ app_settled_total rep = 235500065.
Proof.
  destruct (orderly_no_drift toy_hash toy_display toy_hex toy_transfer_bytes toy_text toy_settle_text toy_hmac
    toy_secret toy_pid toy_authority toy_first toy_day toy_evening) as [_ Hr];
    [apply toy_start_ok|apply (bool_decide_unpack _); by vm_compute|reflexivity|apply toy_evening_ok|].
  destruct Hr as (s' & rep & E & Hd & Ht & _); [vm_compute; discriminate|].
  exists s', rep. split_and!; [exact E|exact Hd|]. rewrite Ht. vm_compute. reflexivity.
Defined.

Definition toy_event : WebhookPayload := mkPayload "evt-2" "charge.authorized" 5000 1 101 3 0 1700000010.
Definition toy_replaced : App * result (failure HttpError) unit := handle_event toy_event toy_app.

Lemma webhook_replaces_captured_witness :
  list_sum captured_amount (payment_values toy_replaced.1) + 25 = list_sum captured_amount (payment_values toy_app).
Proof.
  assert (toy_replaced.2 = Ok tt) as E by (vm_compute; reflexivity).
  apply (webhook_replaces_captured toy_hash toy_display toy_hex toy_transfer_bytes toy_text toy_settle_text toy_hmac
    toy_event toy_app toy_replaced.1 (toy_payment 5000)); [apply toy_served|reflexivity|vm_compute; reflexivity..|].
  rewrite <- E. apply surjective_pairing.
Defined.
End worked.
