(* ===== verification/ApiClock.v ===== *)
(** * The clock of the application

    Requests take their ledger timestamps from a counter, deliveries bring their own, and
    the ledger refuses to go back in time: while the counter is behind, nothing that takes
    its timestamp reaches the ledger. *)

From S2P Require Import Bytes Error Amount Account Transfer Ledger LedgerStep LedgerInv Merkle MerkleProps Codec Settle SettleInv SettleFormat SettleProps Payment Rail Api PaymentBook ApiInv ApiProps.
From stdpp Require Import list strings gmap.
From S2P Require Import Prelude Api.
#[local] Open Scope N_scope.

(** The ledger and the counter. *)
Definition clock (s : App) : Ledger * N := (app_ledger s, next_timestamp s).

Section behind.
Context (l : Ledger).

Definition is_behind (v : Ledger * N) : Prop := v.1 = l /\ v.2 < last_timestamp l.
Definition stays (v : Ledger * N) : Prop := v.1 = l.
(** The timestamp that was taken is too early. *)
Definition too_early (ts : N) (v : Ledger * N) : Prop := v.1 = l /\ ts < last_timestamp l.

Lemma runs_tick : runs clock is_behind alloc_timestamp too_early stays.
Proof. intros s [Hl Hn]. by split. Qed.

(** Whatever the ledger is asked to do with it, it refuses. *)
Lemma runs_late {B} ts m c undo (f : unit -> app B) Q :
  (forall k, exists ev, event_timestamp ev = ts /\ respects k ev (m k)) ->
  (forall s, app_ledger (undo s) = app_ledger s) ->
  runs clock (too_early ts) (st_bind (ledger_op m c undo) f) Q stays.
Proof.
  intros Hm Hu s [Hl Hts]. unfold clock, stays, st_bind, ledger_op in *. simpl in *.
  destruct (Hm (app_ledger s)) as (ev & Hev & Hr).
  destruct (m (app_ledger s)) as [l' [u|e]]; simpl in Hr.
  - apply lstep_frame in Hr as (_ & _ & _ & Hle). rewrite Hl in Hle. lia.
  - simpl. rewrite Hu. by subst.
Qed.

(** Other work keeps the ledger. *)
Lemma runs_kept {A} (m : app A) : Frame app_ledger m -> runs clock is_behind m (fun _ => stays) stays.
Proof.
  intros Hf s [Hl _]. unfold clock, stays in *. simpl in *. specialize (Hf s). destruct (m s) as [s' [a|e]]; simpl in Hf; by rewrite Hf.
Qed.

Lemma early_stays ts v : too_early ts v -> stays v.
Proof. by intros [? _]. Qed.
Lemma behind_stays v : is_behind v -> stays v.
Proof. by intros [? _]. Qed.

Lemma late_create t k : exists ev, event_timestamp ev = tr_timestamp t /\ respects k ev (create_transfer t k).
Proof. exists (EvTransferPosted t). split; [done|apply create_transfer_respects]. Qed.
Lemma late_hold t k : exists ev, event_timestamp ev = tr_timestamp t /\ respects k ev (create_pending t k).
Proof. exists (EvTransferPendingCreated t). split; [done|apply create_pending_respects]. Qed.
Lemma late_post p q x ts k : exists ev, event_timestamp ev = ts /\ respects k ev (post_pending p q x ts k).
Proof. exists (EvTransferPendingPosted p q x ts). split; [done|apply post_pending_respects]. Qed.
Lemma late_void p ts k : exists ev, event_timestamp ev = ts /\ respects k ev (void_pending p ts k).
Proof.
  pose proof (void_pending_respects p ts k) as Hv. destruct (void_pending p ts k) as [k' [u|e]].
  - destruct (Hv _ _ eq_refl) as (h & _ & Hs). by exists (EvTransferPendingVoided p (tr_amount h) ts).
  - exists (EvTransferPendingVoided p 0 ts). split; [done|]. apply (Hv _ _ eq_refl).
Qed.

Ltac stays := first [done | apply early_stays | apply behind_stays].
Ltac pass := apply runs_pass; [framed|stays|intros ?].
Ltac tick := eapply runs_bind; [apply runs_tick|intros ?].

Lemma authorize_late `{Json} req : runs clock is_behind (handle_authorize req) (fun _ => stays) stays.
Proof.
  unfold handle_authorize. pass. case_match; [apply runs_close; [framed|stays]|]. do 2 pass. tick. cbv zeta. do 3 pass.
  intros s Hs. unfold st_bind at 1. destruct (new_pending _ _ _ _ _) as [t|e] eqn:E; [|apply (early_stays _ _ Hs)].
  revert s Hs. match goal with |- forall s, too_early ?ts _ -> match ?m s with _ => _ end =>
    change (runs clock (too_early ts) m (fun _ => stays) stays) end.
  apply new_pending_ok in E as ->. apply runs_late; [intros k; exact (late_hold (mkTransfer _ _ _ _ _ _ _) k)|done].
Qed.

Lemma capture_late id : runs clock is_behind (handle_capture id) (fun _ => stays) stays.
Proof. unfold handle_capture. do 3 pass. tick. apply runs_late; [intros k; apply late_post|done]. Qed.

Lemma void_late id : runs clock is_behind (handle_void id) (fun _ => stays) stays.
Proof. unfold handle_void. do 2 pass. tick. apply runs_late; [intros k; apply late_void|done]. Qed.

(** A deposit, from the moment its timestamp is taken. *)
Lemma late_deposit {B} ts c id d a x (f : unit -> app B) Q c' :
  runs clock (too_early ts) (st_bind (from_result c OfLedger (new_immediate id d a x ts)) (fun t =>
    st_bind (ledger_op (create_transfer t) c' Datatypes.id) f)) Q stays.
Proof.
  intros s Hs. unfold st_bind at 1, from_result. destruct (new_immediate _ _ _ _ _) as [t|e] eqn:E; simpl;
    [|apply (early_stays _ _ Hs)]. apply new_immediate_ok in E as ->.
  refine (runs_late ts _ c' _ f Q (fun k => late_create (mkTransfer id d a x Posted None ts) k) _ s Hs). done.
Qed.

Lemma deposit_late id x : runs clock is_behind (handle_customer_deposit id x) (fun _ => stays) stays.
Proof. unfold handle_customer_deposit. pass. tick. pass. apply late_deposit. Qed.

Lemma quick_seed_late : runs clock is_behind handle_quick_seed (fun _ => stays) stays.
Proof.
  unfold handle_quick_seed. eapply runs_bind with (Q := fun _ _ => False); [|by intros ? ? []].
  simpl. tick. do 2 pass. apply late_deposit.
Qed.
End behind.

Section clocked.
Context (sha256 : bytes -> Hash32) (display : ProofError -> string) (display_hex : HexError -> string).
Context (transfer_bytes : Transfer -> result string bytes).
Context (program_error_string : ProgramError -> string).
Context (settlement_error_string : SettlementProgramError -> string).
Context (hmac_sha256 : bytes -> bytes -> Hash32).
Context `{Borsh, Runtime, ProofBytes, Json}.

Abbreviation routed := (route sha256 display display_hex transfer_bytes program_error_string
  settlement_error_string hmac_sha256).

Lemma route_late l r : is_webhook r = false -> runs clock (is_behind l) (routed r) (fun _ => stays l) (stays l).
Proof.
  intros Hr. destruct r as [req|id|id|id x|sig body|rail| | | | | |id|rc]; cbn [route]; try done; apply discard_runs.
  - apply authorize_late.
  - apply capture_late.
  - apply void_late.
  - apply deposit_late.
  - apply runs_kept. unfold handle_settlement_batch. framed.
  - apply runs_kept. unfold handle_reconciliation, run_audit. framed.
  - apply runs_kept. unfold handle_simulate_drift, handle_reconciliation, run_audit. framed.
  - apply runs_kept. unfold handle_heal_drift, handle_reconciliation, run_audit. framed.
  - apply quick_seed_late.
  - apply runs_kept. unfold handle_dashboard_data, run_audit. framed.
  - apply runs_kept. unfold handle_payment_verify. framed.
  - apply runs_kept. unfold handle_verify_receipt. framed.
Qed.

(** While the counter is behind the ledger's clock, no request but a delivery changes the
    ledger: no payment can be authorised, captured or voided, and nothing deposited. *)
Theorem behind_refused r s :
  is_webhook r = false -> next_timestamp s < last_timestamp (app_ledger s) ->
  app_ledger (routed r s).1 = app_ledger s.
Proof. intros Hr Hn. by apply (runs_state clock _ _ _ s (route_late (app_ledger s) r Hr)). Qed.

(** A captured event puts the ledger's clock to its own timestamp, which may be up to 300
    ahead of the counter. *)
Theorem delivery_sets_clock pl s s' p h :
  event_type pl = "charge.captured"%string -> payments s !! wh_payment_id pl = Some p ->
  pending_transfer_id p = Some h -> handle_event pl s = (s', Ok tt) ->
  last_timestamp (app_ledger s') = wh_timestamp pl /\ next_timestamp s' = next_timestamp s.
Proof.
  intros Ht Hp Hh E. unfold handle_event in E. rewrite Ht in E. simpl in E. rewrite Hp, Hh in E.
  repeat match goal with H : st_bind _ _ _ = (_, Ok _) |- _ => apply st_bind_ok in H as (? & ? & ? & H) end.
  match goal with H : ledger_op (post_pending ?h ?q ?x ?ts) ?c ?u ?s0 = (?s1, Ok _) |- _ =>
    pose proof (post_pending_respects h q x ts (app_ledger s0)) as Hr; unfold ledger_op in H;
    destruct (post_pending _ _ _ _ (app_ledger s0)) as [l' [?|?]]; [|done]; injection H as <- end.
  apply lstep_frame in Hr as (_ & _ & Hl & _). unfold from_result, insert_payment in *. simplify_eq.
  match goal with H : alloc_transfer_id s = _ |- _ => injection H as <- <- end.
  by injection E as <-.
Qed.
End clocked.

(** ** A worked delay *)

Section worked.
#[local] Existing Instance borsh_le.
#[local] Existing Instance toy_runtime.
#[local] Existing Instance varint_proof.
#[local] Existing Instance toy_json.

Lemma behind_refused_witness :
  app_ledger (route toy_hash toy_display toy_hex toy_transfer_bytes toy_text toy_settle_text toy_hmac
    (Deposit 101 (Some 7)) toy_delivered.1).1 = app_ledger toy_delivered.1.
Proof. apply behind_refused; vm_compute; reflexivity. Defined.

Definition toy_capture : WebhookPayload := mkPayload toy_body "charge.captured" 5000 1 101 25 0 1700000010.

Lemma delivery_sets_clock_witness :
  exists s', handle_event toy_capture toy_paid.1 = (s', Ok tt) /\ last_timestamp (app_ledger s') = 1700000010.
Proof.
  set (run := handle_event toy_capture toy_paid.1). assert (run.2 = Ok tt) as E by (vm_compute; reflexivity).
  exists run.1. assert (run = (run.1, Ok tt)) as Er by (rewrite <- E; apply surjective_pairing).
  split; [exact Er|].
  apply (delivery_sets_clock toy_capture toy_paid.1 run.1
    (default (new_authorized 0 0 0 0 0 0 0) (payments toy_paid.1 !! 5000)) 20000);
    [reflexivity|vm_compute; reflexivity..|exact Er].
Defined.
End worked.
