(* ===== verification/ApiThreads.v ===== *)
(** * Handlers as threads

    The handlers of [apps/demo/src/api.rs] run on several threads.  Here a handler is a
    sequence of steps: it takes a lock or gives it back, or it runs a section, which is an
    operation on an atomic variable or what it does next under the locks it has.  Every
    lock of the application is one of [Lock]: the settlement mutex, and the read-write locks
    on the payments, on the ledger, on the idempotency keys, on the events seen, and the
    three of the rail.  A handler that returns gives back what it still has.  [alone] is a
    handler that is not disturbed, and the handlers of [Api] are what it gives.  A panic
    does not poison the locks its handler has. *)

From S2P Require Import Bytes Error Amount Account Transfer Ledger Merkle Settle Payment Rail Api.
From stdpp Require Import list strings gmap relations.
From S2P Require Import Prelude Api.
#[local] Open Scope N_scope.

Inductive Lock : Type :=
| SettlementLock | PaymentsLock | LedgerLock | IdempotencyLock | DedupeLock | PdaLock | SettledLock | MmrLock.
Inductive Mode : Type := Read | Write.
#[global] Instance Lock_eq_dec : EqDecision Lock.
Proof. solve_decision. Defined.
#[global] Instance Mode_eq_dec : EqDecision Mode.
Proof. solve_decision. Defined.

(** A section changes the state and continues with what it has seen.  [Sent] only keeps the
    history: a rail has accepted the transfers [ids] as batch [seq]. *)
Inductive prog (A : Type) : Type :=
| Done (r : result (failure HttpError) A)
| Take (l : Lock) (m : Mode) (k : prog A)
| Drop (l : Lock) (k : prog A)
| Sent (seq : N) (ids : list N) (k : prog A)
| Atomic (update : App -> App) (k : App -> prog A).
Arguments Done {A} r.
Arguments Take {A} l m k.
Arguments Drop {A} l k.
Arguments Sent {A} seq ids k.
Arguments Atomic {A} update k.

(** A section that may fail, and one after which an error is returned. *)
Definition attempt {A B} (m : app A) (k : result (failure HttpError) A -> prog B) : prog B :=
  Atomic (fun s => (m s).1) (fun s => k (m s).2).
Definition section {A B} (m : app A) (k : A -> prog B) : prog B :=
  attempt m (fun r => match r with Ok a => k a | Err e => Done (Err e) end).
(** A section under a lock taken for it alone. *)
Definition locking {A B} (l : Lock) (mode : Mode) (m : app A) (k : A -> prog B) : prog B :=
  Take l mode (section m (fun a => Drop l (k a))).

Declare Scope prog_scope.
Delimit Scope prog_scope with prog.
#[local] Open Scope prog_scope.
Notation "'let!' x ':=' m 'in' k" := (section m (fun x => k))
  (at level 10, x binder, m at level 100, k at level 200) : prog_scope.
Notation "'do!' m ; k" := (section m (fun _ => k))
  (at level 10, m at level 100, k at level 200) : prog_scope.
Notation "'let!' x ':=' m 'under' l , mode 'in' k" := (locking l mode m (fun x => k))
  (at level 10, x binder, m at level 100, l at level 9, mode at level 9, k at level 200) : prog_scope.
Notation "'do!' m 'under' l , mode ; k" := (locking l mode m (fun _ => k))
  (at level 10, m at level 100, l at level 9, mode at level 9, k at level 200) : prog_scope.

Fixpoint each {A B} (f : A -> prog B -> prog B) (l : list A) (k : prog B) : prog B :=
  match l with [] => k | x :: rest => f x (each f rest k) end.

Fixpoint alone {A} (p : prog A) : app A :=
  match p with
  | Done r => fun s => (s, r)
  | Take _ _ k | Drop _ k | Sent _ _ k => alone k
  | Atomic update k => fun s => alone (k s) (update s)
  end.

Lemma alone_section {A B} (m : app A) (k : A -> prog B) s :
  alone (section m k) s = st_bind m (fun a => alone (k a)) s.
Proof. unfold section, attempt, st_bind. simpl. by destruct (m s) as [s' [a|e]]. Qed.

Lemma alone_locking {A B} l mode (m : app A) (k : A -> prog B) s :
  alone (locking l mode m k) s = st_bind m (fun a => alone (k a)) s.
Proof. unfold locking. cbn [alone]. by rewrite alone_section. Qed.

Lemma st_bind_cong {S E A B} (m : st S E A) (f g : A -> st S E B) s :
  (forall a s', f a s' = g a s') -> st_bind m f s = st_bind m g s.
Proof. intros Hf. unfold st_bind. destruct (m s) as [s' [a|e]]; [apply Hf|done]. Qed.

Section handlers.
Context (sha256 : bytes -> Hash32) (display : ProofError -> string) (display_hex : HexError -> string).
Context (transfer_bytes : Transfer -> result string bytes).
Context (program_error_string : ProgramError -> string).
Context (settlement_error_string : SettlementProgramError -> string).
Context (hmac_sha256 : bytes -> bytes -> Hash32).
Context `{Borsh, Runtime, ProofBytes, Json}.

(** ** Payments *)

(** A failed authorisation counts itself and gives its key back. *)
Definition rejected {A} (key : string) (e : HttpError) : prog A :=
  do! st_modify (inc_metric m_transfers_rejected 1);
  do! st_modify (fun s => set_idempotency (release_on_failure key (idempotency s)) s) under IdempotencyLock, Write;
  Done (Err (Fails e)).

Definition authorize_thread (req : AuthorizeRequest) : prog PaymentResponse :=
  let! cached := (fun s => let '(m, r) := try_acquire (idempotency_key req) (idempotency s) in
      (set_idempotency m s, map_err (fun e => Fails (mkHttp CONFLICT (OfIdempotency e))) r))
    under IdempotencyLock, Write in
  match cached with
  | Some cached_json =>
      Done (map_err (fun e => Fails (mkHttp INTERNAL_SERVER_ERROR (OfJson e))) (response_from_json cached_json))
  | None =>
      let! payment_id := alloc_payment_id in
      let! transfer_id := alloc_transfer_id in
      let! now := alloc_timestamp in
      let! customer_acc := or_panic (customer (rq_customer_id req)) in
      let! merchant_acc := or_panic (merchant (rq_merchant_id req)) in
      do! st_modify (inc_metric m_transfers_received 1);
      match new_pending transfer_id customer_acc merchant_acc (rq_amount req) now with
      | Err e => rejected (idempotency_key req) (mkHttp BAD_REQUEST (OfLedger e))
      | Ok hold =>
          Take LedgerLock Write (
          attempt (ledger_op (create_pending hold) PAYMENT_REQUIRED id) (fun placed =>
          match placed with
          | Err Panic => Done (Err Panic)
          | Err (Fails e) => rejected (idempotency_key req) e
          | Ok _ =>
              Drop LedgerLock (
              let payment := new_authorized payment_id (rq_merchant_id req) (rq_customer_id req)
                               (rq_amount req) (rq_fee_amount req) transfer_id now in
              let resp := response payment_id payment in
              do! st_modify (inc_metric m_transfers_committed 1);
              do! insert_payment payment_id payment under PaymentsLock, Write;
              match response_to_json resp with
              | Err e => Done (Err (Fails (mkHttp INTERNAL_SERVER_ERROR (OfJson e))))
              | Ok resp_json =>
                  do! st_modify (fun s => set_idempotency
                    (complete (idempotency_key req) resp_json (idempotency s)) s) under IdempotencyLock, Write;
                  Done (Ok resp)
              end)
          end))
      end
  end.

(** Under the lock on the payments, from the payment that was found to its new record. *)
Definition capture_found {B} (payment_id : N) (payment : Payment) (pending_id post_id now : N)
    (k : Payment -> prog B) : prog B :=
  do! ledger_op (post_pending pending_id post_id (pay_amount payment) now) INTERNAL_SERVER_ERROR id under LedgerLock, Write;
  match transition_to_captured post_id now payment with
  | Err e => Done (Err (Fails (mkHttp BAD_REQUEST (OfPayment e))))
  | Ok payment => do! insert_payment payment_id payment; k payment
  end.

Definition capture_thread (payment_id : N) : prog PaymentResponse :=
  Take PaymentsLock Write (
  let! payment := get_payment payment_id in
  let! pending_id := pending_of payment in
  let! post_transfer_id := alloc_transfer_id in
  let! now := alloc_timestamp in
  capture_found payment_id payment pending_id post_transfer_id now (fun payment =>
  Done (Ok (response payment_id payment)))).

Definition void_thread (payment_id : N) : prog PaymentResponse :=
  Take PaymentsLock Write (
  let! payment := get_payment payment_id in
  let! pending_id := pending_of payment in
  let! now := alloc_timestamp in
  do! ledger_op (void_pending pending_id now) INTERNAL_SERVER_ERROR id under LedgerLock, Write;
  match transition_to_voided now payment with
  | Err e => Done (Err (Fails (mkHttp BAD_REQUEST (OfPayment e))))
  | Ok payment => do! insert_payment payment_id payment; Done (Ok (response payment_id payment))
  end).

Definition deposit_thread (customer_id : N) (amount : option N) : prog DepositResponse :=
  let deposit_amount := default 100000000 amount in
  let! transfer_id := alloc_transfer_id in
  let! now := alloc_timestamp in
  let! cust_acc := or_panic (customer customer_id) in
  match new_immediate transfer_id VAULT_ASSET cust_acc deposit_amount now with
  | Err e => Done (Err (Fails (mkHttp BAD_REQUEST (OfLedger e))))
  | Ok deposit =>
      Take LedgerLock Write (
      do! ledger_op (create_transfer deposit) INTERNAL_SERVER_ERROR id;
      let! acc := (fun s => (s, map_err (fun _ => Fails (mkHttp NOT_FOUND
                (Text ("Customer #" +:+ dec_string customer_id +:+ " account not found"))))
              (get_account (app_ledger s) cust_acc))) in
      Drop LedgerLock (Done (Ok (mkDepositResponse customer_id deposit_amount (credits_posted (acc_balance acc))))))
  end.

(** ** Webhooks *)

(** The match on the type of the event. *)
Definition event_thread (payload : WebhookPayload) : prog unit :=
  if decide (event_type payload = "charge.authorized"%string) then
    let! transfer_id := alloc_transfer_id in
    let! customer_acc := or_panic (customer (wh_customer_id payload)) in
    let! merchant_acc := or_panic (merchant (wh_merchant_id payload)) in
    match new_pending transfer_id customer_acc merchant_acc (wh_amount payload) (wh_timestamp payload) with
    | Err e => Done (Err (Fails (mkHttp BAD_REQUEST (OfLedger e))))
    | Ok hold =>
        do! ledger_op (create_pending hold) PAYMENT_REQUIRED id under LedgerLock, Write;
        do! insert_payment (wh_payment_id payload)
          (new_authorized (wh_payment_id payload) (wh_merchant_id payload) (wh_customer_id payload)
             (wh_amount payload) (wh_fee_amount payload) transfer_id (wh_timestamp payload)) under PaymentsLock, Write;
        Done (Ok tt)
    end
  else if decide (event_type payload = "charge.captured"%string) then
    Take PaymentsLock Write (
    let! found := (fun s => (s, Ok (payments s !! wh_payment_id payload))) in
    match found with
    | None => Done (Ok tt)
    | Some payment =>
        match pending_transfer_id payment with
        | None => Done (Ok tt)
        | Some pending_id =>
            let! post_id := alloc_transfer_id in
            capture_found (wh_payment_id payload) payment pending_id post_id (wh_timestamp payload) (fun _ =>
            Done (Ok tt))
        end
    end)
  else Done (Err (Fails (mkHttp BAD_REQUEST (Text "unknown event type")))).

Definition webhook_thread (signature : option string) (body : string) : prog unit :=
  let! signature := from_result UNAUTHORIZED Text (ok_or signature "missing signature header"%string) in
  do! (fun s => (s, map_err (fun _ => Fails (mkHttp UNAUTHORIZED (Text "invalid HMAC signature")))
     (verify_signature hmac_sha256 (webhook_secret s) (String.list_byte_of_string body) signature)));
  let! payload := from_result BAD_REQUEST OfJson (payload_from_json body) in
  let! now := alloc_timestamp in
  do! from_result BAD_REQUEST OfWebhook (verify_freshness (wh_timestamp payload) now 300);
  do! (fun s => let '(m, r) := check_and_record (event_id payload) (webhook_dedupe s) in
                (set_dedupe m s, map_err (fun e => Fails (mkHttp CONFLICT (OfWebhook e))) r)) under DedupeLock, Write;
  event_thread payload.

(** ** Settlement *)

Definition set_pda_data (data : bytes) (r : SolanaRail) : SolanaRail :=
  mkRail (program_id r) (authority r) data (latest_mmr r) (settled_transfers r) (rail_batch_seq r).
Definition set_latest_mmr (mmr : Mmr) (r : SolanaRail) : SolanaRail :=
  mkRail (program_id r) (authority r) (pda_data r) mmr (settled_transfers r) (rail_batch_seq r).
Definition set_settled_transfers (ts : list Transfer) (r : SolanaRail) : SolanaRail :=
  mkRail (program_id r) (authority r) (pda_data r) (latest_mmr r) ts (rail_batch_seq r).
Definition set_rail_batch_seq (n : N) (r : SolanaRail) : SolanaRail :=
  mkRail (program_id r) (authority r) (pda_data r) (latest_mmr r) (settled_transfers r) n.
Definition in_rail (f : SolanaRail -> SolanaRail) : app unit := st_modify (fun s => set_rail (f (solana_rail s)) s).

(** [current_settlement_root] under its lock. *)
Definition chain_root : app (option SettlementRoot) := st_reads (fun s => Ok (current_settlement_root (solana_rail s))).

(** The first half of [SolanaUsdcRail::submit_batch]: the tree of the batch, and the account. *)
Definition submit_tree (transfers : list Transfer) : app (Mmr * N * Pubkey) := fun s =>
  from_failing INTERNAL_SERVER_ERROR OfRail
    (_ ← (if bool_decide (transfers = [])
          then Err (Fails (SubmissionFailed "cannot settle empty batch")) else Ok tt);
     '(mmr, total_amount) ← build_batch sha256 transfer_bytes transfers Mmr_new 0;
     '(pda, _) ← ok_or (find_pda (authority (solana_rail s)) (program_id (solana_rail s))) Panic;
     Ok (mmr, total_amount, pda)) s.

(** The commit on the chain, with the account's data locked. *)
Definition submit_commit (batch_seq : N) (transfers : list Transfer) (mmr : Mmr) (total_amount : N) (pda : Pubkey) :
    app RailSubmission := fun s =>
  let self := solana_rail s in
  let root := root sha256 mmr in
  let prepared :=
    current_state ← map_err (fun e => Fails (SubmissionFailed (settlement_error_string e)))
                      (deserialize_from (pda_data self));
    let params := mkParams 1 batch_seq root (sr_merkle_root current_state)
                    (N.of_nat (length transfers)) total_amount chain_tip_aa in
    ix ← ok_or (commit_settlement (program_id self) (authority self) params Pubkey_default) Panic;
    map_err (Fails ∘ RailSolana) ix in
  match prepared with
  | Err e => from_failing INTERNAL_SERVER_ERROR OfRail (Err e) s
  | Ok commit_ix =>
      let account_infos := [mkInfo (authority self) true; mkInfo pda false] in
      let '(w, r) := process sha256 display (program_id self) account_infos (ix_data commit_ix)
                       (rail_world pda (pda_data self)) in
      from_failing INTERNAL_SERVER_ERROR OfRail
        match r with
        | Err e => Err (Fails (SubmissionFailed ("on-chain commit error: " +:+ program_error_string e)))
        | Ok _ => Ok (mkSubmission "Solana-USDC" batch_seq (N.of_nat (length transfers)) total_amount
                   ("solana:tx:batch-" +:+ dec_string batch_seq +:+ ":root:" +:+ to_hex root)
                   (Some (to_hex root)))
        end (set_rail (set_pda_data (cell_data (w pda)) self) s)
  end.

Definition submit_thread {B} (batch_seq : N) (transfers : list Transfer) (k : RailSubmission -> prog B) : prog B :=
  let! tree := submit_tree transfers in
  let '(mmr, total_amount, pda) := tree in
  Take PdaLock Write (
  let! submission := submit_commit batch_seq transfers mmr total_amount pda in
  do! in_rail (set_latest_mmr mmr) under MmrLock, Write;
  do! in_rail (set_settled_transfers transfers) under SettledLock, Write;
  do! in_rail (set_rail_batch_seq batch_seq);
  Drop PdaLock (k submission)).

(** What follows a submission. *)
Definition settled_thread (transfers : list Transfer) (submission : RailSubmission) : prog BatchResponse :=
  Sent (rs_batch_seq submission) (tr_id <$> transfers) (
  do! st_modify (inc_metric m_settlement_batches_committed 1);
  do! st_modify (inc_metric m_settlement_amount_total (rs_total_amount submission mod 2 ^ 64));
  do! st_modify (fun s => set_payments
        (mark_settled (tr_id <$> transfers) (rs_batch_seq submission) <$> payments s) s) under PaymentsLock, Write;
  do! st_modify (fun s => set_counters (next_payment_id s) (next_transfer_id s) (next_timestamp s)
                            ((app_batch_seq s + 1) mod 2 ^ 64) s);
  Done (Ok (mkBatchResponse submission))).

Definition settlement_thread (rail : option string) : prog BatchResponse :=
  Take SettlementLock Write (
  Take PaymentsLock Read (
  let! ids := st_reads (fun s => Ok (posted_ids s)) in
  Take LedgerLock Read (
  let! transfers := st_reads (fun s =>
    Ok (filter (fun t => tr_id t ∈ ids) (btree_values (transfers (app_ledger s))))) in
  Drop LedgerLock (Drop PaymentsLock (
  if bool_decide (transfers = []) then Done (Err (Fails (mkHttp BAD_REQUEST (Text "no transfers to settle"))))
  else if bool_decide (default "Solana-USDC"%string rail = "Mock-ACH"%string) then
    let! rail_batch_seq := st_reads (fun s => ok_or (checked_add U64_MAX (app_batch_seq s) 1)
         (Fails (mkHttp INTERNAL_SERVER_ERROR (Text "settlement batch sequence exhausted")))) in
    let! submission := from_result INTERNAL_SERVER_ERROR OfRail (ach_submit_batch rail_batch_seq transfers) in
    settled_thread transfers submission
  else
    let! root := chain_root under PdaLock, Read in
    let! rail_batch_seq := st_reads (fun _ =>
         match root with
         | None => Ok 1
         | Some root => ok_or (checked_add U64_MAX (sr_batch_seq root) 1)
             (Fails (mkHttp INTERNAL_SERVER_ERROR (Text "Solana settlement batch sequence exhausted")))
         end) in
    submit_thread rail_batch_seq transfers (settled_thread transfers)))))).

(** ** Reconciliation and the data of the dashboard *)

Definition audit_section (ps : list Payment) (root : option SettlementRoot) (now : N) : app ReconciliationReport :=
  fun s => from_failing INTERNAL_SERVER_ERROR OfReconciliation (audit ps (app_ledger s) [1; 2; 3] root now) s.
Definition drift_section (report : ReconciliationReport) : app ReconciliationReport :=
  fun s => or_panic (add_drift (simulated_drift s) report) s.

(** The two locks are kept until the report is returned. *)
Definition reconciliation_thread : prog ReconciliationReport :=
  Take PaymentsLock Read (
  let! ps := st_reads (fun s => Ok (payment_values s)) in
  Take LedgerLock Read (
  let! root := chain_root under PdaLock, Read in
  let! now := alloc_timestamp in
  let! report := audit_section ps root now in
  let! report := drift_section report in
  do! st_modify (inc_metric m_reconciliation_audits_total 1);
  do! st_modify (fun s => set_observed (app_metrics s) (clamp_i64 (drift report)) s);
  do! st_modify (match rr_status report with
                 | DriftDetected => inc_metric m_reconciliation_incidents_total 1
                 | Clean => id
                 end);
  Done (Ok report))).

(** [handle_simulate_drift] and [handle_heal_drift]. *)
Definition drift_thread (offset : Z) : prog ReconciliationReport :=
  do! st_modify (set_simulated offset); reconciliation_thread.

(** The payments are read under their lock and the ledger, twice, under its own; the second
    time it is kept to the end. *)
Definition dashboard_thread : prog DashboardData :=
  let! ps := st_reads (fun s => Ok (by_newest (payment_values s))) under PaymentsLock, Read in
  let! batch_seq := st_reads (fun s => Ok (app_batch_seq s)) in
  Take LedgerLock Read (
  let! ids := or_panic tracked_ids in
  let! accounts := (fun s => from_result INTERNAL_SERVER_ERROR OfLedger (summaries (app_ledger s) ids) s) in
  let! transfer_count := st_reads (fun s => Ok (N.of_nat (length (btree_values (transfers (app_ledger s)))))) in
  Drop LedgerLock (
  let! captured := from_result INTERNAL_SERVER_ERROR (fun _ => Text "captured-volume overflow")
                     (captured_total ps 0 0) in
  let! root := chain_root under PdaLock, Read in
  Take LedgerLock Read (
  let! now := alloc_timestamp in
  let! report := audit_section ps root now in
  let! recon := drift_section report in
  let! pda := (fun s => or_panic (pda_address (solana_rail s)) s) in
  let! rail := st_reads (fun s => Ok (authority (solana_rail s), latest_root_hex (solana_rail s))) under PdaLock, Read in
  Done (Ok (mkDashboard ps accounts batch_seq rail.1 pda rail.2 recon captured.1 transfer_count))))).

(** ** Sample payments *)

Definition seed_deposit_thread {B} (c_id : N) (k : prog B) : prog B :=
  let! deposit_now := alloc_timestamp in
  let! deposit_id := alloc_transfer_id in
  let! acc := or_panic (customer c_id) in
  match new_immediate deposit_id VAULT_ASSET acc 500000000 deposit_now with
  | Err e => Done (Err (Fails (mkHttp BAD_REQUEST (OfLedger e))))
  | Ok deposit => do! ledger_op (create_transfer deposit) INTERNAL_SERVER_ERROR id; k
  end.

(** The sample is brought to its state before it is entered. *)
Definition seed_target_thread {B} (target : SeedState) (hold_id amt : N) (payment : Payment) (k : Payment -> prog B) :
    prog B :=
  match target with
  | SeedCaptured =>
      let! post_ts := alloc_timestamp in
      let! post_id := alloc_transfer_id in
      do! ledger_op (post_pending hold_id post_id amt post_ts) INTERNAL_SERVER_ERROR id under LedgerLock, Write;
      match transition_to_captured post_id post_ts payment with
      | Err e => Done (Err (Fails (mkHttp BAD_REQUEST (OfPayment e))))
      | Ok payment => k payment
      end
  | SeedVoided =>
      let! void_ts := alloc_timestamp in
      do! ledger_op (void_pending hold_id void_ts) INTERNAL_SERVER_ERROR id under LedgerLock, Write;
      match transition_to_voided void_ts payment with
      | Err e => Done (Err (Fails (mkHttp BAD_REQUEST (OfPayment e))))
      | Ok payment => k payment
      end
  | SeedAuthorized => k payment
  end.

Definition seed_thread {B} (seed : N * N * N * N * SeedState) (k : prog B) : prog B :=
  let '(cust, merch, amt, fee, target) := seed in
  let! hold_ts := alloc_timestamp in
  let! p_id := alloc_payment_id in
  let! hold_id := alloc_transfer_id in
  let! cust_acc := or_panic (customer cust) in
  let! merch_acc := or_panic (merchant merch) in
  match new_pending hold_id cust_acc merch_acc amt hold_ts with
  | Err e => Done (Err (Fails (mkHttp BAD_REQUEST (OfLedger e))))
  | Ok hold =>
      do! ledger_op (create_pending hold) PAYMENT_REQUIRED id under LedgerLock, Write;
      seed_target_thread target hold_id amt (new_authorized p_id merch cust amt fee hold_id hold_ts) (fun payment =>
      do! insert_payment p_id payment under PaymentsLock, Write; k)
  end.

Definition quick_seed_thread : prog N :=
  Take LedgerLock Write (
  each seed_deposit_thread [101; 102; 103] (
  Drop LedgerLock (
  each seed_thread seeds (Done (Ok (N.of_nat (length seeds))))))).

(** ** Verification *)

(** [receipt_for_transfer]: the transfers of the last batch are locked while the tree is read. *)
Definition receipt_thread {B} (transfer_id : N) (k : result (failure RailError) TransferReceipt -> prog B) : prog B :=
  Take SettledLock Read (
  let! latest := st_reads (fun s => Ok (settled_transfers (solana_rail s), rail_batch_seq (solana_rail s))) in
  let '(transfers, batch_seq) := latest in
  if bool_decide (transfers = []) || (batch_seq =? 0)
  then Drop SettledLock (k (Err (Fails (SubmissionFailed "No settlement batch has been committed to Solana yet"))))
  else match position transfer_id transfers with
       | None => Drop SettledLock (k (Err (Fails (SubmissionFailed
           ("Transfer " +:+ dec_string transfer_id +:+ " not found in latest Solana settlement batch")))))
       | Some (index, t) =>
           let! receipt := st_reads (fun s =>
             Ok (generate_receipt sha256 transfer_bytes (solana_rail s) batch_seq index t)) under MmrLock, Read in
           Drop SettledLock (k receipt)
       end).

Definition verify_thread (payment_id : N) : prog (bool * option TransferReceipt) :=
  let! payment := (fun s => (s, ok_or (payments s !! payment_id)
     (Fails (mkHttp NOT_FOUND (Text ("Payment #" +:+ dec_string payment_id +:+ " not found")))))) under PaymentsLock, Read in
  do! (fun s => or_panic (pda_address (solana_rail s)) s);
  match posted_transfer_id payment with
  | None => Done (Ok (false, None))
  | Some posted_id =>
      receipt_thread posted_id (fun r =>
      match r with
      | Err Panic => Done (Err Panic)
      | Err (Fails _) =>
          do! st_reads (fun s => Ok (latest_root_hex (solana_rail s))) under PdaLock, Read;
          Done (Ok (false, None))
      | Ok receipt =>
          match receipt_verify sha256 display_hex receipt with
          | Ok _ => do! st_modify (inc_metric m_merkle_proofs_verified 1); Done (Ok (true, Some receipt))
          | Err _ => Done (Ok (false, Some receipt))
          end
      end)
  end.

Definition verify_receipt_thread (receipt : TransferReceipt) : prog bool :=
  match receipt_verify sha256 display_hex receipt with
  | Ok _ => do! st_modify (inc_metric m_merkle_proofs_verified 1); Done (Ok true)
  | Err e => Done (Err (Fails (mkHttp BAD_REQUEST (OfProof e))))
  end.

(** ** Undisturbed, these are the handlers *)

(** The next section of both sides. *)
Ltac same := first [rewrite alone_locking|rewrite alone_section]; apply st_bind_cong; intros ? ?.

Lemma authorize_alone req s : alone (authorize_thread req) s = handle_authorize req s.
Proof.
  unfold authorize_thread, handle_authorize. rewrite alone_locking. apply st_bind_cong. intros [json|] s1; [done|].
  do 6 same. unfold st_bind at 1, ledger_op. destruct (new_pending _ _ _ _ _) as [hold|e]; [|done].
  unfold attempt, st_bind at 1. cbn [alone]. destruct (create_pending hold _) as [l [u|e]]; [|done]. simpl.
  unfold from_result. by destruct (response_to_json _).
Qed.

Lemma capture_alone id s : alone (capture_thread id) s = handle_capture id s.
Proof.
  unfold capture_thread, handle_capture, capture_found. cbn [alone]. do 5 same.
  unfold st_bind at 1, from_result. by destruct (transition_to_captured _ _ _).
Qed.

Lemma void_alone id s : alone (void_thread id) s = handle_void id s.
Proof.
  unfold void_thread, handle_void. cbn [alone]. do 4 same.
  unfold st_bind at 1, from_result. by destruct (transition_to_voided _ _).
Qed.

Lemma deposit_alone id x s : alone (deposit_thread id x) s = handle_customer_deposit id x s.
Proof.
  unfold deposit_thread, handle_customer_deposit. cbv zeta. do 3 same.
  unfold st_bind at 1, from_result. destruct (new_immediate _ _ _ _ _) as [t|e]; [|done]. cbn [map_err alone].
  by do 2 same.
Qed.

Lemma event_alone pl s : alone (event_thread pl) s = handle_event pl s.
Proof.
  unfold event_thread, handle_event. case_decide; [|case_decide; [|done]].
  - do 3 same. unfold st_bind at 1, from_result. destruct (new_pending _ _ _ _ _) as [t|e]; [|done]. cbn [map_err].
    by same.
  - cbn [alone]. rewrite alone_section. unfold st_bind at 1. destruct (payments s !! _) as [p|]; [|done].
    destruct (pending_transfer_id p) as [h|]; [|done]. unfold capture_found. do 2 same.
    unfold st_bind at 1, from_result. by destruct (transition_to_captured _ _ _).
Qed.

Lemma webhook_alone sig body s : alone (webhook_thread sig body) s = handle_webhook hmac_sha256 sig body s.
Proof. unfold webhook_thread, handle_webhook. do 6 same. apply event_alone. Qed.

(** The submission in its parts. *)
Lemma submit_alone {B} seq ts (k : RailSubmission -> prog B) s :
  alone (submit_thread seq ts k) s =
  st_bind (fun s =>
    let '(rail, r) := solana_submit_batch sha256 display transfer_bytes program_error_string
                        settlement_error_string seq ts (solana_rail s) in
    from_failing INTERNAL_SERVER_ERROR OfRail r (set_rail rail s)) (fun sub => alone (k sub)) s.
Proof.
  destruct s as [? ? ? ? r0 ? ? ? ? ? ? ? ? ?]. unfold submit_thread, solana_submit_batch. rewrite alone_section.
  unfold submit_tree, st_bind, from_failing. cbn [solana_rail].
  case_bool_decide; [done|]. cbn [mbind result_bind]. destruct (build_batch _ _ _ _ _) as [[mmr total]|[|e]]; [|done..].
  destruct (find_pda _ _) as [[pda bump]|]; [|done]. cbn [ok_or map_err].
  cbn [alone mbind result_bind map_err ok_or]. rewrite alone_section. unfold submit_commit, st_bind, from_failing. cbn [solana_rail].
  destruct (deserialize_from _) as [st|e]; [|done]. cbn [map_err mbind result_bind].
  destruct (commit_settlement _ _ _ _) as [[ix|e]|]; [|done..]. cbn [ok_or map_err mbind result_bind].
  by destruct (process _ _ _ _ _ _) as [w [u|e]].
Qed.

Lemma settlement_alone rail s :
  alone (settlement_thread rail) s =
  handle_settlement_batch sha256 display transfer_bytes program_error_string settlement_error_string rail s.
Proof.
  unfold settlement_thread, handle_settlement_batch. cbn [alone]. rewrite alone_section, !st_bind_reads. cbn [alone].
  rewrite alone_section, st_bind_reads. cbn [alone]. fold (batch_transfers s). case_bool_decide; [done|]. cbv zeta.
  case_bool_decide; unfold settled_thread.
  - do 2 same. cbn [alone]. by do 4 same.
  - rewrite alone_locking. unfold chain_root. rewrite st_bind_reads, alone_section, !st_bind_reads.
    destruct (current_settlement_root (solana_rail s)) as [root|]; [destruct (checked_add _ _ _) as [n|]; [|done]|]; cbn [ok_or];
      (rewrite submit_alone; apply st_bind_cong; intros sub s1; cbn [alone]; by do 4 same).
Qed.

Lemma audit_alone {B} ps (k : ReconciliationReport -> prog B) s :
  alone (let! now := alloc_timestamp in
         let! report := audit_section ps (current_settlement_root (solana_rail s)) now in
         let! report := drift_section report in k report) s = st_bind (run_audit ps) (fun r => alone (k r)) s.
Proof.
  rewrite alone_section. unfold run_audit. rewrite st_bind_assoc. unfold alloc_timestamp, st_bind at 1 2.
  rewrite alone_section. unfold audit_section, from_failing, st_bind. cbn [app_ledger solana_rail set_counters].
  destruct (audit _ _ _ _ _) as [rep|[|e]]; [|done..]. cbn [map_err]. by rewrite alone_section.
Qed.

Lemma reconciliation_alone s : alone reconciliation_thread s = handle_reconciliation s.
Proof.
  unfold reconciliation_thread, handle_reconciliation. cbn [alone]. rewrite alone_section, !st_bind_reads.
  cbn [alone]. rewrite alone_locking. unfold chain_root. rewrite st_bind_reads, audit_alone. apply st_bind_cong.
  intros report s1. by do 3 same.
Qed.

Lemma drift_alone d s :
  alone (drift_thread d) s = st_bind (st_modify (set_simulated d)) (fun _ => handle_reconciliation) s.
Proof. unfold drift_thread. same. apply reconciliation_alone. Qed.

Lemma dashboard_alone s : alone dashboard_thread s = handle_dashboard_data s.
Proof.
  unfold dashboard_thread, handle_dashboard_data. do 2 same. cbn [alone]. do 3 same. cbn [alone]. same.
  rewrite alone_locking. unfold chain_root. rewrite st_bind_reads. cbn [alone]. rewrite audit_alone. apply st_bind_cong.
  intros recon s1. same. by rewrite alone_locking, st_bind_reads.
Qed.

Lemma seed_deposits_alone {B} cs (k : prog B) s :
  alone (each seed_deposit_thread cs k) s = st_bind (seed_deposits cs) (fun _ => alone k) s.
Proof.
  revert s. induction cs as [|c cs IH]; intros s; [done|]. cbn [each seed_deposits]. unfold seed_deposit_thread.
  rewrite !st_bind_assoc. same. rewrite !st_bind_assoc. same. rewrite !st_bind_assoc. same. rewrite !st_bind_assoc.
  unfold st_bind at 1, from_result. destruct (new_immediate _ _ _ _ _) as [t|e]; [|done]. cbn [map_err].
  rewrite st_bind_assoc. same. apply IH.
Qed.

Lemma seed_alone {B} seed (k : prog B) s : alone (seed_thread seed k) s = st_bind (seed_one seed) (fun _ => alone k) s.
Proof.
  destruct seed as [[[[cust merch] amt] fee] target]. unfold seed_thread, seed_one.
  do 5 (rewrite st_bind_assoc; same). rewrite st_bind_assoc. unfold st_bind at 1, from_result at 1.
  destruct (new_pending _ _ _ _ _) as [hold|e]; [|done]. cbn [map_err]. rewrite st_bind_assoc. same. cbv zeta.
  rewrite st_bind_assoc. destruct target; cbn [seed_target_thread]; rewrite ?st_bind_assoc.
  - same. rewrite st_bind_assoc. same. rewrite st_bind_assoc. same. unfold st_bind at 1, from_result.
    destruct (transition_to_captured _ _ _); [|done]. by rewrite alone_locking.
  - unfold st_bind at 1, st_ret. by rewrite alone_locking.
  - same. rewrite st_bind_assoc. same. unfold st_bind at 1, from_result.
    destruct (transition_to_voided _ _); [|done]. by rewrite alone_locking.
Qed.

Lemma seeds_alone {B} l (k : prog B) s :
  alone (each seed_thread l k) s = st_bind (st_for seed_one l) (fun _ => alone k) s.
Proof.
  revert s. induction l as [|x l IH]; intros s; [done|]. cbn [each st_for]. rewrite seed_alone, st_bind_assoc.
  apply st_bind_cong. intros ? ?. apply IH.
Qed.

Lemma quick_seed_alone s : alone quick_seed_thread s = handle_quick_seed s.
Proof.
  unfold quick_seed_thread, handle_quick_seed. cbn [alone]. rewrite seed_deposits_alone. apply st_bind_cong.
  intros ? ?. cbn [alone]. by rewrite seeds_alone.
Qed.

Lemma receipt_alone {B} tid (k : result (failure RailError) TransferReceipt -> prog B) s :
  alone (receipt_thread tid k) s = alone (k (receipt_for_transfer sha256 transfer_bytes (solana_rail s) tid)) s.
Proof.
  unfold receipt_thread, receipt_for_transfer. cbn [alone]. rewrite alone_section, st_bind_reads. cbn [alone].
  destruct (_ || _); [done|]. destruct (position _ _) as [[i t]|]; [|done]. by rewrite alone_locking, st_bind_reads.
Qed.

Lemma verify_alone id s :
  alone (verify_thread id) s = handle_payment_verify sha256 display_hex transfer_bytes id s.
Proof.
  unfold verify_thread, handle_payment_verify. do 2 same. destruct (posted_transfer_id _) as [q|]; [|done].
  rewrite receipt_alone. destruct (receipt_for_transfer _ _ _ _) as [r|[|e]]; [|done|].
  - by destruct (receipt_verify _ _ _).
  - by rewrite alone_locking, st_bind_reads.
Qed.

Lemma verify_receipt_alone r s : alone (verify_receipt_thread r) s = handle_verify_receipt sha256 display_hex r s.
Proof. unfold verify_receipt_thread, handle_verify_receipt. by destruct (receipt_verify _ _ _). Qed.

(** ** The requests and what they answer *)

Inductive Answer : Type :=
| APayment (r : PaymentResponse) | ADeposit (r : DepositResponse) | ABatch (r : BatchResponse) | AEvent
| AReport (r : ReconciliationReport) | AData (r : DashboardData) | ASeeded (n : N)
| AVerified (r : bool * option TransferReceipt) | AChecked (r : bool).

Fixpoint answering {A} (f : A -> Answer) (p : prog A) : prog Answer :=
  match p with
  | Done r => Done (match r with Ok a => Ok (f a) | Err e => Err e end)
  | Take l m k => Take l m (answering f k)
  | Drop l k => Drop l (answering f k)
  | Sent seq ids k => Sent seq ids (answering f k)
  | Atomic u k => Atomic u (fun s => answering f (k s))
  end.

Lemma alone_answering {A} (f : A -> Answer) p s :
  alone (answering f p) s = ((alone p s).1, f <$> (alone p s).2).
Proof. revert s. induction p as [r|l m k IH|l k IH|seq ids k IH|u k IH]; intros s; simpl; auto. Qed.

Definition thread_of (r : Request) : prog Answer :=
  match r with
  | Authorize req => answering APayment (authorize_thread req)
  | Capture id => answering APayment (capture_thread id)
  | Void id => answering APayment (void_thread id)
  | Deposit id amount => answering ADeposit (deposit_thread id amount)
  | Webhook signature body => answering (fun _ => AEvent) (webhook_thread signature body)
  | SettlementBatch rail => answering ABatch (settlement_thread rail)
  | Reconciliation => answering AReport reconciliation_thread
  | SimulateDrift => answering AReport (drift_thread 50000000)
  | HealDrift => answering AReport (drift_thread 0)
  | QuickSeed => answering ASeeded quick_seed_thread
  | ViewDashboard => answering AData dashboard_thread
  | PaymentVerify id => answering AVerified (verify_thread id)
  | VerifyReceipt receipt => answering AChecked (verify_receipt_thread receipt)
  end.
End handlers.

(** ** Threads that share the state *)

(** Who has which lock, and how; what rails have accepted, as batch numbers and transfers. *)
Record Pool : Type := mkPool {
  pool_app : App;
  guards : list (nat * (Lock * Mode));
  threads : list (prog Answer);
  sent : list (N * list N);
}.

Definition is_done {A} (p : prog A) : bool := match p with Done _ => true | _ => false end.

(** A lock is taken for reading when no one writes, for writing when no one has it. *)
Definition lockable (l : Lock) (m : Mode) (g : list (nat * (Lock * Mode))) : bool :=
  forallb (fun e => negb (bool_decide (e.2.1 = l)) ||
                    match m with Read => bool_decide (e.2.2 = Read) | Write => false end) g.

(** A handler that returns gives back the locks it has. *)
Definition returned (i : nat) (p : prog Answer) (g : list (nat * (Lock * Mode))) : list (nat * (Lock * Mode)) :=
  if is_done p then filter (fun e => e.1 <> i) g else g.

(** The next step of thread [i], if it need not wait. *)
Definition pool_step (i : nat) (p : Pool) : option Pool :=
  let goes s g k log := Some (mkPool s (returned i k g) (<[i := k]> (threads p)) log) in
  match threads p !! i with
  | Some (Take l m k) =>
      if lockable l m (guards p) then goes (pool_app p) ((i, (l, m)) :: guards p) k (sent p) else None
  | Some (Drop l k) =>
      goes (pool_app p) (filter (fun e => ~ (e.1 = i /\ e.2.1 = l)) (guards p)) k (sent p)
  | Some (Sent seq ids k) => goes (pool_app p) (guards p) k (sent p ++ [(seq, ids)])
  | Some (Atomic update k) => goes (update (pool_app p)) (guards p) (k (pool_app p)) (sent p)
  | _ => None
  end.

(** A schedule names the thread that runs next; a thread that has to wait is passed over. *)
Fixpoint run_schedule (sched : list nat) (p : Pool) : Pool :=
  match sched with
  | [] => p
  | i :: rest => run_schedule rest (default p (pool_step i p))
  end.

Definition pool_of (s : App) (ps : list (prog Answer)) : Pool := mkPool s [] ps [].

Abbreviation pool_goes := (fun p p' => exists i, pool_step i p = Some p').

(** The four kinds of steps. *)
Inductive stepped (i : nat) (p : Pool) :
    prog Answer -> App -> list (nat * (Lock * Mode)) -> list (N * list N) -> Prop :=
| sd_take l m k : threads p !! i = Some (Take l m k) -> lockable l m (guards p) = true ->
    stepped i p k (pool_app p) ((i, (l, m)) :: guards p) (sent p)
| sd_drop l k : threads p !! i = Some (Drop l k) ->
    stepped i p k (pool_app p) (filter (fun e => ~ (e.1 = i /\ e.2.1 = l)) (guards p)) (sent p)
| sd_sent seq ids k : threads p !! i = Some (Sent seq ids k) ->
    stepped i p k (pool_app p) (guards p) (sent p ++ [(seq, ids)])
| sd_atomic u k : threads p !! i = Some (Atomic u k) ->
    stepped i p (k (pool_app p)) (u (pool_app p)) (guards p) (sent p).

Lemma pool_step_inv i p p' :
  pool_step i p = Some p' ->
  exists k s g log, stepped i p k s g log /\ p' = mkPool s (returned i k g) (<[i := k]> (threads p)) log.
Proof.
  unfold pool_step. destruct (threads p !! i) as [t|] eqn:Et; [|done].
  destruct t as [r|l m k|l k|seq ids k|u k]; [done|..]; [destruct (lockable l m _) eqn:El; [|done]|..];
    intros [= <-]; eexists _, _, _, _; (split; [|reflexivity]); by constructor.
Qed.

Lemma lockable_spec l m g :
  lockable l m g = true <-> forall i m', (i, (l, m')) ∈ g -> m = Read /\ m' = Read.
Proof.
  unfold lockable. rewrite forallb_forall. split.
  - intros Hg i m' Hin. specialize (Hg (i, (l, m')) (proj1 (list_elem_of_In _ _) Hin)). simpl in Hg.
    rewrite bool_decide_eq_true_2 in Hg by done. destruct m; [|done]. simpl in Hg. by apply bool_decide_eq_true in Hg.
  - intros Hg [i [l' m']] Hin%list_elem_of_In. simpl. case_bool_decide as El; [subst|done].
    destruct (Hg i m' Hin) as [-> ->]. done.
Qed.

Lemma schedule_goes sched p : exists n, nsteps pool_goes n p (run_schedule sched p).
Proof.
  revert p. induction sched as [|i sched IH]; intros p; [exists 0%nat; constructor|]. simpl.
  destruct (pool_step i p) as [p1|] eqn:E; simpl; [|apply IH].
  destruct (IH p1) as [n Hn]. exists (S n). econstructor; [by exists i|exact Hn].
Qed.

(** What every step keeps holds after any number of them. *)
Lemma goes_keep (I : Pool -> Prop) n p p' :
  (forall p i p1, I p -> pool_step i p = Some p1 -> I p1) -> I p -> nsteps pool_goes n p p' -> I p'.
Proof. intros Hstep Hp Hn. induction Hn as [|n p p1 p2 [i Hs] _ IH]; eauto. Qed.
