(* ===== verification/ApiLocks.v ===== *)
(** * The locks of the application

    Every handler takes locks in one order, never takes a lock it has, and changes what a lock
    protects only while it has that lock for writing.  So some handler can always go on:
    no two wait for each other, whatever the locks do about waiting readers and writers. *)

From S2P Require Import Bytes Error Amount Account Transfer Ledger Merkle Settle Payment Rail Api PaymentBook ApiInv ApiThreads.
From stdpp Require Import list strings gmap relations.
From S2P Require Import Prelude Api ApiThreads.
#[local] Open Scope nat_scope.

(** ** The discipline *)

Definition rank (l : Lock) : nat :=
  match l with
  | SettlementLock => 0 | PaymentsLock => 1 | LedgerLock => 2 | IdempotencyLock => 3 | DedupeLock => 3
  | PdaLock => 4 | SettledLock => 5 | MmrLock => 6
  end.

(** What a lock protects is the same in both states; the settlement lock protects a procedure. *)
Definition untouched (l : Lock) (s s' : App) : Prop :=
  match l with
  | SettlementLock => True
  | PaymentsLock => payments s' = payments s
  | LedgerLock => app_ledger s' = app_ledger s
  | IdempotencyLock => idempotency s' = idempotency s
  | DedupeLock => webhook_dedupe s' = webhook_dedupe s
  | PdaLock => pda_data (solana_rail s') = pda_data (solana_rail s)
  | SettledLock => settled_transfers (solana_rail s') = settled_transfers (solana_rail s)
  | MmrLock => latest_mmr (solana_rail s') = latest_mmr (solana_rail s)
  end.

Fixpoint disciplined {A} (held : list (Lock * Mode)) (p : prog A) : Prop :=
  match p with
  | Done _ => True
  | Take l m k => forallb (fun e => rank e.1 <? rank l) held = true /\ disciplined ((l, m) :: held) k
  | Drop l k => disciplined (filter (fun e => e.1 <> l) held) k
  | Sent _ _ k => disciplined held k
  | Atomic u k =>
      (forall l, (l, Write) ∉ held -> forall s, untouched l s (u s)) /\ forall s, disciplined held (k s)
  end.

(** At most [n] steps until the thread returns. *)
Fixpoint within {A} (n : nat) (p : prog A) {struct p} : Prop :=
  match p with
  | Done _ => True
  | Take _ _ k | Drop _ k | Sent _ _ k => match n with O => False | S n' => within n' k end
  | Atomic _ k => match n with O => False | S n' => forall s, within n' (k s) end
  end.

(** ** Pools *)

Definition held (i : nat) (g : list (nat * (Lock * Mode))) : list (Lock * Mode) := (filter (fun e => e.1 = i) g).*2.

Lemma elem_of_held i e g : e ∈ held i g <-> (i, e) ∈ g.
Proof.
  unfold held. rewrite list_elem_of_fmap. split.
  - intros ([j e'] & -> & [Hj Hin]%list_elem_of_filter). simpl in *. by subst.
  - intros Hin. exists (i, e). split; [done|]. by apply list_elem_of_filter.
Qed.

Lemma held_other i j e g : i <> j -> held j ((i, e) :: g) = held j g.
Proof. intros Hne. unfold held. by rewrite filter_cons_False. Qed.
Lemma held_own i e g : held i ((i, e) :: g) = e :: held i g.
Proof. unfold held. by rewrite filter_cons_True. Qed.

Lemma held_cons j i e g : held j ((i, e) :: g) = (if decide (i = j) then [e] else []) ++ held j g.
Proof. case_decide as E; [subst; apply held_own|by apply held_other]. Qed.

Lemma held_drop i l g :
  held i (filter (fun e => ~ (e.1 = i /\ e.2.1 = l)) g) = filter (fun e => e.1 <> l) (held i g).
Proof.
  induction g as [|[j e] g IH]; [done|]. rewrite filter_cons, held_cons. simpl. destruct (decide (j = i)) as [->|Hj].
  - destruct (decide (e.1 = l)) as [El|El].
    + rewrite decide_False by naive_solver. simpl. rewrite filter_cons_False by naive_solver. exact IH.
    + rewrite decide_True by naive_solver. rewrite held_own, IH. simpl. by rewrite filter_cons_True.
  - rewrite decide_True by naive_solver. by rewrite held_other, IH.
Qed.
Lemma held_drop_other i j l g : i <> j -> held j (filter (fun e => ~ (e.1 = i /\ e.2.1 = l)) g) = held j g.
Proof.
  intros Hne. induction g as [|[n e] g IH]; [done|]. rewrite filter_cons, held_cons. simpl. case_decide as Ed.
  - by rewrite held_cons, IH.
  - rewrite decide_False by naive_solver. exact IH.
Qed.

(** Locks exclude each other, threads keep to the discipline, and who has a lock has not returned. *)
Record table_ok (p : Pool) : Prop := {
  to_excl : forall i j l m, (i, (l, Write)) ∈ guards p -> (j, (l, m)) ∈ guards p -> i = j /\ m = Write;
  to_disc : forall i t, threads p !! i = Some t -> disciplined (held i (guards p)) t;
  to_live : forall i e, (i, e) ∈ guards p -> exists t, threads p !! i = Some t /\ is_done t = false;
}.

Lemma elem_of_returned e i k g : e ∈ returned i k g -> e ∈ g.
Proof. unfold returned. destruct (is_done k); [|done]. by intros [_ ?]%list_elem_of_filter. Qed.

Lemma elem_of_returned_other j e i k g : j <> i -> (j, e) ∈ returned i k g <-> (j, e) ∈ g.
Proof.
  intros Hj. unfold returned. destruct (is_done k); [|done]. rewrite list_elem_of_filter. naive_solver.
Qed.

Lemma held_returned j i k g : j <> i -> held j (returned i k g) = held j g.
Proof.
  intros Hj. unfold returned. destruct (is_done k); [|done].
  induction g as [|[n e] g IH]; [done|]. rewrite filter_cons, held_cons. simpl. case_decide as Ed.
  - by rewrite held_cons, IH.
  - rewrite decide_False by naive_solver. exact IH.
Qed.

(** A step does not touch the locks of other threads, and its own are those it goes on with. *)
Lemma stepped_held i p k s g log :
  stepped i p k s g log ->
  (forall j e, j <> i -> (j, e) ∈ g <-> (j, e) ∈ guards p) /\
  (forall e, (i, e) ∈ g -> (i, e) ∈ guards p \/ exists l m, e = (l, m) /\ lockable l m (guards p) = true) /\
  (forall j, j <> i -> held j g = held j (guards p)) /\
  (forall t, threads p !! i = Some t -> disciplined (held i (guards p)) t -> disciplined (held i g) k).
Proof.
  intros Hs. destruct Hs as [l m k Et El|l k Et|seq ids k Et|u k Et]; (split; [|split; [|split]]); rewrite ?Et.
  - intros j e Hj. rewrite elem_of_cons. naive_solver.
  - intros e [E|Hin]%elem_of_cons; [injection E as ->; right; eauto|by left].
  - intros j Hj. by apply held_other.
  - intros t [= <-] [_ Hk]. by rewrite held_own.
  - intros j e Hj. rewrite list_elem_of_filter. naive_solver.
  - intros e [_ Hin]%list_elem_of_filter. by left.
  - intros j Hj. by apply held_drop_other.
  - intros t [= <-] Hk. by rewrite held_drop.
  - done.
  - by left.
  - done.
  - by intros t [= <-].
  - done.
  - by left.
  - done.
  - intros t [= <-] [_ Hk]. apply Hk.
Qed.

Lemma stepped_thread i p k s g log : stepped i p k s g log -> exists t, threads p !! i = Some t.
Proof. destruct 1; eauto. Qed.

Lemma table_step i p p' : table_ok p -> pool_step i p = Some p' -> table_ok p'.
Proof.
  intros [Hx Hd Hl] (k & s & g & log & Hs & ->)%pool_step_inv.
  destruct (stepped_held _ _ _ _ _ _ Hs) as (Ho & Hi & Hho & Hhi). destruct (stepped_thread _ _ _ _ _ _ Hs) as [t Et].
  assert (<[i := k]> (threads p) !! i = Some k) as Ek by (apply list_lookup_insert_eq; by eapply lookup_lt_Some).
  assert (forall j1 j2 l m, (j1, (l, Write)) ∈ g -> (j2, (l, m)) ∈ g -> j1 = j2 /\ m = Write) as Hxg.
  { destruct Hs as [l0 m0 k Et' El|l0 k Et'|seq ids k Et'|u k Et']; [|..|exact Hx|exact Hx].
    - rewrite lockable_spec in El. intros j1 j2 l m. rewrite !elem_of_cons. intros [E1|H1] [E2|H2].
      + by simplify_eq.
      + simplify_eq. by destruct (El _ _ H2).
      + simplify_eq. by destruct (El _ _ H1).
      + by eapply Hx.
    - intros j1 j2 l m [_ H1]%list_elem_of_filter [_ H2]%list_elem_of_filter. by eapply Hx. }
  constructor; simpl.
  - intros j1 j2 l m H1%elem_of_returned H2%elem_of_returned. by eapply Hxg.
  - intros j t'. destruct (decide (j = i)) as [->|Hj].
    + rewrite Ek. intros [= <-]. unfold returned. destruct (is_done k) eqn:Edone; [by destruct k|]. eauto.
    + rewrite list_lookup_insert_ne, held_returned, Hho by done. eauto.
  - intros j e Hin. destruct (decide (j = i)) as [->|Hj].
    + rewrite Ek. exists k. split; [done|]. unfold returned in Hin. destruct (is_done k); [|done].
      by apply list_elem_of_filter in Hin as [[] _].
    + rewrite list_lookup_insert_ne by done. rewrite elem_of_returned_other, Ho in Hin by done. eauto.
Qed.

Lemma table_of s ps : Forall (disciplined []) ps -> table_ok (pool_of s ps).
Proof.
  intros Hp. constructor; simpl; [by intros ? ? ? ? ?%elem_of_nil| |by intros ? ? ?%elem_of_nil].
  intros i t Et. rewrite Forall_forall in Hp. apply Hp. by eapply list_elem_of_lookup_2.
Qed.

(** ** Someone can go on *)

(** The next step of the thread takes no lock, or a lock that no thread has. *)
Definition unhindered (i : nat) (p : Pool) : Prop :=
  match threads p !! i with
  | Some (Done _) | None => False
  | Some (Take l _ _) => forall j m, (j, (l, m)) ∉ guards p
  | Some _ => True
  end.

Lemma unhindered_goes i p : unhindered i p -> exists p', pool_step i p = Some p'.
Proof.
  unfold unhindered, pool_step. destruct (threads p !! i) as [[r|l m k|l k|seq ids k|u k]|]; try done; [|eauto..].
  intros Hl. assert (lockable l m (guards p) = true) as ->; [|eauto].
  apply lockable_spec. intros j m' Hin. by destruct (Hl j m').
Qed.

(** The guard of the highest lock. *)
Lemma highest_guard (g : list (nat * (Lock * Mode))) :
  g <> [] -> exists i l m, (i, (l, m)) ∈ g /\ forall j l' m', (j, (l', m')) ∈ g -> rank l' <= rank l.
Proof.
  induction g as [|[i [l m]] g IH]; [done|]. intros _. destruct (decide (g = [])) as [->|Hg].
  { exists i, l, m. split; [left|]. intros j l' m' [E|[]%elem_of_nil]%elem_of_cons. by simplify_eq. }
  destruct (IH Hg) as (i0 & l0 & m0 & Hin & Hmax). destruct (le_lt_dec (rank l) (rank l0)) as [Hle|Hlt].
  - exists i0, l0, m0. split; [by right|]. intros j l' m' [E|H']%elem_of_cons; [by simplify_eq|eauto].
  - exists i, l, m. split; [left|]. intros j l' m' [E|H']%elem_of_cons; [by simplify_eq|].
    specialize (Hmax _ _ _ H'). lia.
Qed.

Lemma table_progress p :
  table_ok p -> (Forall (fun t => is_done t = true) (threads p) /\ guards p = []) \/ exists i, unhindered i p.
Proof.
  intros [_ Hd Hl]. destruct (decide (guards p = [])) as [Hg|Hg].
  - destruct (decide (Forall (fun t => is_done t = true) (threads p))) as [Hf|Hf]; [by left|right].
    apply not_Forall_Exists in Hf; [|apply _]. apply Exists_exists in Hf as (t & Hin & Ht).
    apply list_elem_of_lookup in Hin as [i Et]. exists i. unfold unhindered. rewrite Et, Hg.
    destruct t; [by destruct Ht| |done..]. intros j m'. apply not_elem_of_nil.
  - right. destruct (highest_guard _ Hg) as (i & l & m & Hin & Hmax). exists i.
    destruct (Hl _ _ Hin) as (t & Et & Ht). unfold unhindered. rewrite Et. pose proof (Hd i t Et) as Hdi.
    destruct t as [r|l' m' k|l' k|seq ids k|u k]; try done. destruct Hdi as [Hr _].
    intros j m2 Hj. specialize (Hmax _ _ _ Hj). rewrite forallb_forall in Hr.
    specialize (Hr (l, m)). rewrite <- list_elem_of_In, elem_of_held in Hr. specialize (Hr Hin).
    simpl in Hr. apply Nat.ltb_lt in Hr. lia.
Qed.

(** ** Bounds *)

Lemma goes_within ns p p' :
  Forall2 within ns (threads p) -> pool_goes p p' ->
  exists ns', Forall2 within ns' (threads p') /\ sum_list ns = S (sum_list ns').
Proof.
  intros Hw [i (k & s & g & log & Hs & ->)%pool_step_inv].
  assert (exists t n', threads p !! i = Some t /\ forall n, within n t -> n = S (n' n) /\ within (n' n) k) as (t & n' & Et & Hk).
  { destruct Hs as [l m k Et _|l k Et|seq ids k Et|u k Et]; eexists _, pred; (split; [exact Et|]);
      intros [|n]; simpl; auto; done. }
  destruct (Forall2_lookup_r _ _ _ _ _ Hw Et) as (n & En & Hn). destruct (Hk n Hn) as [En' Hk'].
  exists (<[i := n' n]> ns). split; [by apply Forall2_insert|].
  rewrite <- (take_drop_middle _ _ _ En) at 1. rewrite insert_take_drop by (by eapply lookup_lt_Some).
  rewrite !sum_list_with_app. simpl. rewrite En' at 1. simpl. lia.
Qed.

Lemma goes_bounded n ns p p' :
  Forall2 within ns (threads p) -> nsteps pool_goes n p p' -> n <= sum_list ns.
Proof.
  revert ns p. induction n as [|n IH]; intros ns p Hw Hn; [lia|]. inversion Hn as [|? ? p1 ? Hs Hrest]; subst.
  destruct (goes_within ns p p1 Hw Hs) as (ns' & Hw' & ->). specialize (IH ns' p1 Hw' Hrest). lia.
Qed.

(** ** The handlers keep to it *)

Lemma disciplined_section {A B} hs (m : app A) (k : A -> prog B) :
  (forall l, (l, Write) ∉ hs -> forall s, untouched l s (m s).1) -> (forall a, disciplined hs (k a)) ->
  disciplined hs (section m k).
Proof. intros Hu Hk. split; [exact Hu|]. intros s. simpl. destruct (m s).2; [apply Hk|done]. Qed.

Lemma disciplined_attempt {A B} hs (m : app A) (k : result (failure HttpError) A -> prog B) :
  (forall l, (l, Write) ∉ hs -> forall s, untouched l s (m s).1) -> (forall r, disciplined hs (k r)) ->
  disciplined hs (attempt m k).
Proof. intros Hu Hk. split; [exact Hu|]. intros s. apply Hk. Qed.

Lemma disciplined_answering {A} (f : A -> Answer) hs p : disciplined hs p -> disciplined hs (answering f p).
Proof.
  revert hs. induction p as [r|l m k IH|l k IH|seq ids k IH|u k IH]; intros hs Hp; simpl in *; auto; naive_solver.
Qed.

Lemma within_section {A B} n (m : app A) (k : A -> prog B) :
  (forall a, within n (k a)) -> within (S n) (section m k).
Proof. intros Hk s. simpl. destruct (m s).2; [apply Hk|done]. Qed.

Lemma within_attempt {A B} n (m : app A) (k : result (failure HttpError) A -> prog B) :
  (forall r, within n (k r)) -> within (S n) (attempt m k).
Proof. intros Hk s. apply Hk. Qed.

Lemma within_answering {A} (f : A -> Answer) n p : within n p -> within n (answering f p).
Proof.
  revert n. induction p as [r|l m k IH|l k IH|seq ids k IH|u k IH]; intros n Hp; [done|..]; destruct n; try done;
    simpl in *; eauto.
Qed.

(** A section leaves what other locks protect. *)
Ltac leaves :=
  let l := fresh "l" in let Hl := fresh "Hl" in let s := fresh "s" in
  intros l Hl; destruct l; cbn [untouched];
  first [ done
        | destruct Hl; apply (bool_decide_unpack _); by vm_compute
        | intros s; reflexivity
        | intros s; unfold ledger_op, from_result, from_failing, or_panic; repeat case_match; reflexivity ].

(** One step of a thread with the locks it has. *)
Ltac lock_step :=
  match goal with
  | |- disciplined _ (Done _) => exact I
  | |- disciplined _ (section _ _) => apply disciplined_section; [leaves|intros ?]
  | |- disciplined _ (attempt _ _) => apply disciplined_attempt; [leaves|intros ?]
  | |- disciplined _ (locking _ _ _ _) => unfold locking
  | |- disciplined _ (Take _ _ _) => split; [reflexivity|]
  | |- disciplined ?hs (Drop ?l ?k) =>
      let h := eval vm_compute in (filter (fun e : Lock * Mode => e.1 <> l) hs) in change (disciplined h k)
  | |- disciplined ?hs (Sent _ _ ?k) => change (disciplined hs k)
  | |- disciplined _ (match ?x with _ => _ end) => destruct x
  end.

Ltac bound_step :=
  match goal with
  | |- within _ (Done _) => exact I
  | |- within _ (section _ _) => apply within_section; intros ?
  | |- within _ (attempt _ _) => apply within_attempt; intros ?
  | |- within _ (locking _ _ _ _) => unfold locking
  | |- within (S ?n) (Take _ _ ?k) => change (within n k)
  | |- within (S ?n) (Drop _ ?k) => change (within n k)
  | |- within (S ?n) (Sent _ _ ?k) => change (within n k)
  | |- within _ (match ?x with _ => _ end) => destruct x
  end.

Section handlers.
Context (sha256 : bytes -> Hash32) (display : ProofError -> string) (display_hex : HexError -> string).
Context (transfer_bytes : Transfer -> result string bytes).
Context (program_error_string : ProgramError -> string).
Context (settlement_error_string : SettlementProgramError -> string).
Context (hmac_sha256 : bytes -> bytes -> Hash32).
Context `{Borsh, Runtime, ProofBytes, Json}.

Lemma submit_commit_leaves seq ts mmr total pda l s :
  l <> PdaLock ->
  untouched l s (submit_commit sha256 display program_error_string settlement_error_string seq ts mmr total pda s).1.
Proof.
  intros Hl. unfold submit_commit. cbv zeta. destruct (mbind _ _) as [ix|e]; [|by destruct l].
  destruct (process _ _ _ _ _ _) as [w r]. by destruct l.
Qed.

Lemma submit_disciplined {B} seq ts (k : RailSubmission -> prog B) :
  (forall sub, disciplined [(SettlementLock, Write)] (k sub)) ->
  disciplined [(SettlementLock, Write)]
    (submit_thread sha256 display transfer_bytes program_error_string settlement_error_string seq ts k).
Proof.
  intros Hk. unfold submit_thread. repeat lock_step.
  apply disciplined_section.
  { intros l Hl s. apply submit_commit_leaves. intros ->. apply Hl. left. }
  intros sub. repeat lock_step. apply Hk.
Qed.

Abbreviation thread := (thread_of sha256 display display_hex transfer_bytes program_error_string settlement_error_string hmac_sha256).

Lemma thread_disciplined r : disciplined [] (thread r).
Proof.
  destruct r; apply disciplined_answering.
  - unfold authorize_thread, rejected. cbv zeta. repeat lock_step.
  - unfold capture_thread, capture_found. repeat lock_step.
  - unfold void_thread. repeat lock_step.
  - unfold deposit_thread. cbv zeta. repeat lock_step.
  - unfold webhook_thread, event_thread, capture_found. repeat lock_step.
  - unfold settlement_thread, settled_thread, chain_root. repeat lock_step. apply submit_disciplined. intros sub. repeat lock_step.
  - unfold reconciliation_thread, chain_root. repeat lock_step.
  - unfold drift_thread, reconciliation_thread, chain_root. repeat lock_step.
  - unfold drift_thread, reconciliation_thread, chain_root. repeat lock_step.
  - unfold quick_seed_thread, seeds. cbn [each]. unfold seed_deposit_thread, seed_thread, seed_target_thread. repeat lock_step.
  - unfold dashboard_thread, chain_root. repeat lock_step.
  - unfold verify_thread, receipt_thread. repeat lock_step.
  - unfold verify_receipt_thread. repeat lock_step.
Qed.

(** The most steps a request takes. *)
Definition steps_of (r : Request) : nat :=
  match r with QuickSeed => 72 | SettlementBatch _ => 29 | _ => 21 end.

Lemma thread_within r : within (steps_of r) (thread r).
Proof.
  destruct r; apply within_answering; cbn [steps_of].
  - unfold authorize_thread, rejected. cbv zeta. repeat bound_step.
  - unfold capture_thread, capture_found. repeat bound_step.
  - unfold void_thread. repeat bound_step.
  - unfold deposit_thread. cbv zeta. repeat bound_step.
  - unfold webhook_thread, event_thread, capture_found. repeat bound_step.
  - unfold settlement_thread, submit_thread, settled_thread. repeat bound_step.
  - unfold reconciliation_thread. repeat bound_step.
  - unfold drift_thread, reconciliation_thread. repeat bound_step.
  - unfold drift_thread, reconciliation_thread. repeat bound_step.
  - unfold quick_seed_thread, seeds. cbn [each]. unfold seed_deposit_thread, seed_thread, seed_target_thread. repeat bound_step.
  - unfold dashboard_thread. repeat bound_step.
  - unfold verify_thread, receipt_thread. repeat bound_step.
  - unfold verify_receipt_thread. repeat bound_step.
Qed.
End handlers.
