(* ===== verification/ApiPool.v ===== *)
(** * What threads rely on and keep

    A thread's part in the payments, as ghost state: how it has the lock on them, a payment it
    has made and not yet entered, the payment it works on, a change it has made to the ledger and
    not yet to the payment, the batch it settles.  [safe] is what a thread keeps to in
    every step, whatever the others do; from it follows the invariant of a pool. *)

From S2P Require Import Bytes Error Amount Account Transfer Ledger LedgerStep LedgerInv LedgerVerify LedgerHistory Merkle Settle Payment Rail Api PaymentBook ApiInv ApiSettle ApiThreads ApiLocks.
From stdpp Require Import list strings gmap functions relations.
From S2P Require Import Prelude Api ApiThreads.
#[local] Open Scope N_scope.

(** ** Payments in flight *)

(** A payment that is backed, in no batch, and whose hold no payment that was entered has. *)
Record aloft (b : Book) (p : Payment) : Prop := {
  al_backed : backed b.1 p;
  al_fresh : settlement_batch_seq p = None;
  al_free : forall id q, b.2 !! id = Some q -> pending_transfer_id q <> pending_transfer_id p;
}.

(** The payment a hold was just placed for. *)
Definition entered (t : Transfer) (p : Payment) : Prop :=
  made_for t p /\ pay_state p = Authorized /\ pending_transfer_id p = Some (tr_id t) /\
  posted_transfer_id p = None /\ settlement_batch_seq p = None.

(** The end of the hold of [p], which is [p'] from then on. *)
Definition ends_for (l l' : Ledger) (p p' : Payment) : Prop :=
  pay_state p = Authorized /\ exists h, pending_transfer_id p = Some h /\
    ((exists q ts, lstep l (EvTransferPendingPosted h q (pay_amount p) ts) l' /\ p' = set_state Captured (Some q) ts p) \/
     (exists x ts, lstep l (EvTransferPendingVoided h x ts) l' /\
        p' = set_state PVoided (posted_transfer_id p) ts p)).

Definition ends (ev : LedgerEvent) (h : N) : Prop :=
  (exists q x ts, ev = EvTransferPendingPosted h q x ts) \/ (exists x ts, ev = EvTransferPendingVoided h x ts).

Lemma ends_for_step l l' p p' :
  ends_for l l' p p' -> exists h ev, pending_transfer_id p = Some h /\ lstep l ev l' /\ ends ev h /\
    pending_transfer_id p' = Some h /\ pay_id p' = pay_id p /\ settlement_batch_seq p' = settlement_batch_seq p.
Proof.
  intros (_ & h & Hh & [(q & ts & Hs & ->)|(x & ts & Hs & ->)]); exists h; eexists; (split; [done|]);
    (split; [exact Hs|]); (split; [|done]); [left|right]; eauto.
Qed.

Lemma ends_for_pstep l l' m id p p' :
  m !! id = Some p -> ends_for l l' p p' -> pstep anything (l, m) (l', <[id := p']> m).
Proof.
  intros Hm (Ha & h & Hh & [(q & ts & Hs & ->)|(x & ts & Hs & ->)]); [by eapply ps_capture|by eapply ps_void].
Qed.

(** Other payments keep their backing when a hold ends. *)
Lemma backed_end l l' ev h t p :
  lstep l ev l' -> ends ev h -> transfers l !! h = Some t -> tr_state t = Pending -> backed l p ->
  pending_transfer_id p <> Some h -> backed l' p.
Proof.
  intros Hs He Ht Hst Hb Hne. apply (backed_keep l); [done|]. intros i u Hi Hu.
  eapply other_keep; [exact Hs|exact He|done|]. intros ->. destruct Hi as [Hi|Hi]; [done|].
  destruct Hb as (h' & t' & _ & _ & _ & Hst'). destruct (pay_state p); try naive_solver.
  destruct Hst' as [_ (q & s & Hq & Hs' & Hs'' & _)]. simplify_eq. congruence.
Qed.

(** The hold of a payment that is authorised is open. *)
Lemma open_hold l p h :
  backed l p -> pay_state p = Authorized -> pending_transfer_id p = Some h ->
  exists t, transfers l !! h = Some t /\ tr_state t = Pending.
Proof. intros (h' & t & Hh & Ht & _ & Hst) Ha Hp. rewrite Ha in Hst. simplify_eq. exists t. naive_solver. Qed.

Lemma ended_backed l l' p p' : ends_for l l' p p' -> backed l p -> backed l' p'.
Proof.
  intros (Ha & h & Hh & [(q & ts & Hs & ->)|(x & ts & Hs & ->)]) (h' & t' & Hh' & Hl' & Hmf & Hst);
    rewrite Ha in Hst; simplify_eq.
  - destruct (posted_lookup _ _ _ _ _ _ Hs) as (t & Ht & Htp & _ & Ht' & Hq'). simplify_eq.
    exists h. eexists. simpl. split; [done|]. split; [exact Ht'|]. split_and!; try done. exists q. eexists. split_and!; try done.
    unfold made_for in *. simpl. by destruct Hmf as (? & ? & ?).
  - destruct (voided_lookup _ _ _ _ _ Hs) as (t & Ht & Htp & Ht'). simplify_eq.
    exists h. eexists. simpl. split; [done|]. split; [exact Ht'|]. naive_solver.
Qed.

(** Two payments with one settlement have one hold. *)
Lemma posted_clash l p p' q :
  backed l p -> backed l p' -> posted_transfer_id p = Some q -> posted_transfer_id p' = Some q ->
  pending_transfer_id p = pending_transfer_id p'.
Proof.
  intros (h & t & Hh & _ & _ & Hst) (h' & t' & Hh' & _ & _ & Hst') Hq Hq'.
  destruct (pay_state p); try naive_solver. destruct (pay_state p'); try naive_solver.
  destruct Hst as [_ (q1 & s1 & E1 & L1 & _ & P1 & _)], Hst' as [_ (q2 & s2 & E2 & L2 & _ & P2 & _)]. congruence.
Qed.

Lemma posted_captured l p q : backed l p -> posted_transfer_id p = Some q -> pay_state p = Captured.
Proof. intros (h & t & _ & _ & _ & Hst) Hq. destruct (pay_state p); naive_solver. Qed.

Lemma aloft_step sc b b' p : book_inv sc b -> pstep anything b b' -> aloft b p -> aloft b' p.
Proof.
  intros Hi Hs [Hb Hn Hf].
  destruct Hs as [l l' m u Hs _ _|l l' m u Hs|l l' m u p0 Hs Hm Hst Hpe Hpo Hse _
    |l l' m id p0 h q ts Hm Hst Hpe Hs|l l' m id p0 h x ts Hm Hst Hpe Hs|l m m' ids seq Hm Hnone]; simpl in *.
  - constructor; simpl; [|done|done]. apply (backed_keep l); [done|]. intros i t _. eapply fresh_keep; eauto.
  - constructor; simpl; [|done|done]. apply (backed_keep l); [done|]. intros i t _. eapply fresh_keep; eauto.
  - destruct (pending_created_lookup _ _ _ Hs) as (_ & _ & Hnew). constructor; simpl; [|done|].
    + apply (backed_keep l); [done|]. intros i t _. eapply fresh_keep; eauto.
    + intros i q. rewrite lookup_insert_Some. intros [[<- <-]|[_ Hq]]; [|by eapply Hf].
      destruct Hb as (h & t & Hh & Ht & _). congruence.
  - destruct (open_hold _ _ _ (bi_backed _ _ Hi _ _ Hm) Hst Hpe) as (t & Ht & Htp).
    constructor; simpl; [|done|].
    + eapply backed_end; [exact Hs|left; eauto|done|done|done|]. rewrite <- Hpe. by apply not_eq_sym, (Hf id).
    + intros i p'. rewrite lookup_insert_Some. intros [[<- <-]|[_ Hq]]; [|by eapply Hf]. simpl. by eapply Hf.
  - destruct (open_hold _ _ _ (bi_backed _ _ Hi _ _ Hm) Hst Hpe) as (t & Ht & Htp).
    constructor; simpl; [|done|].
    + eapply backed_end; [exact Hs|right; eauto|done|done|done|]. rewrite <- Hpe. by apply not_eq_sym, (Hf id).
    + intros i p'. rewrite lookup_insert_Some. intros [[<- <-]|[_ Hq]]; [|by eapply Hf]. simpl. by eapply Hf.
  - constructor; simpl; [done|done|]. intros i p' Hp'. destruct (m !! i) as [p1|] eqn:E; [|by rewrite Hnone in Hp'].
    destruct (Hm i p1 E) as (p2 & Hp2 & Hsm). simplify_eq.
    destruct (settle_marks_same _ _ _ _ Hsm) as [-> _]. by eapply Hf.
Qed.

Lemma aloft_placed sc l l' m t p :
  book_inv sc (l, m) -> lstep l (EvTransferPendingCreated t) l' -> entered t p -> aloft (l', m) p.
Proof.
  intros Hi Hs (Hm & Hst & Hpe & Hpo & Hse). destruct (pending_created_lookup _ _ _ Hs) as (Hl & Hp & Hnew).
  constructor; simpl; [|done|].
  - exists (tr_id t), t. by rewrite Hst.
  - intros id q Hq E. destruct (bi_backed _ _ Hi id q Hq) as (h & u & Hh & Hu & _). simpl in *. congruence.
Qed.

(** The hold of a payment in flight ends: for the book, for the payment and for the others in
    flight. *)
Lemma flight_end_inv sc l l' m p p' :
  book_inv sc (l, m) -> aloft (l, m) p -> ends_for l l' p p' -> book_inv sc (l', m).
Proof.
  intros [Hr Hk Hb Hh] [Hbp _ Hf] He. destruct (ends_for_step _ _ _ _ He) as (h & ev & Hp & Hs & Hev & _).
  destruct (open_hold _ _ _ Hbp (proj1 He) Hp) as (t & Ht & Htp). simpl in *.
  constructor; simpl; [by eapply lstep_reachable|done| |done]. intros id q Hq.
  eapply backed_end; [exact Hs|exact Hev|exact Ht|done|by eapply Hb|]. rewrite <- Hp. by eapply Hf.
Qed.

Lemma flight_end_own l l' m p p' : aloft (l, m) p -> ends_for l l' p p' -> aloft (l', m) p'.
Proof.
  intros [Hbp Hn Hf] He. destruct (ends_for_step _ _ _ _ He) as (h & ev & Hp & Hs & _ & Hp' & _ & Hset).
  constructor; simpl; [by eapply ended_backed|congruence|]. intros id q Hq. rewrite Hp', <- Hp. by eapply Hf.
Qed.

Lemma flight_end_other l l' m p p' u :
  aloft (l, m) p -> ends_for l l' p p' -> aloft (l, m) u -> pending_transfer_id u <> pending_transfer_id p -> aloft (l', m) u.
Proof.
  intros [Hbp _ _] He [Hbu Hn Hf] Hne. destruct (ends_for_step _ _ _ _ He) as (h & ev & Hp & Hs & Hev & _).
  destruct (open_hold _ _ _ Hbp (proj1 He) Hp) as (t & Ht & Htp).
  constructor; simpl; [|done|done]. eapply backed_end; [exact Hs|exact Hev|exact Ht|done|done|congruence].
Qed.

(** Entering a payment. *)
Lemma enter_inv sc l m p : book_inv sc (l, m) -> aloft (l, m) p -> book_inv sc (l, <[pay_id p := p]> m).
Proof.
  intros [Hr Hk Hb Hh] [Hbp _ Hf]. simpl in *. constructor; simpl; [done|..].
  - intros id q. rewrite lookup_insert_Some. intros [[<- <-]|[_ Hq]]; eauto.
  - intros id q. rewrite lookup_insert_Some. intros [[<- <-]|[_ Hq]]; eauto.
  - intros i j q q' Hq Hq' E. apply lookup_insert_Some in Hq as [[<- <-]|[? Hq]];
      apply lookup_insert_Some in Hq' as [[<- <-]|[? Hq']]; [done|..].
    + exfalso. by eapply Hf.
    + exfalso. by eapply Hf.
    + by eapply Hh.
Qed.

Lemma enter_aloft l m p u :
  aloft (l, m) u -> pending_transfer_id p <> pending_transfer_id u -> aloft (l, <[pay_id p := p]> m) u.
Proof.
  intros [Hl Hp Hf] Hne. constructor; simpl; [done|done|].
  intros id q. rewrite lookup_insert_Some. intros [[<- <-]|[_ Hq]]; [done|by eapply Hf].
Qed.

(** ** Batches of payments *)

(** Every payment captured by [q] is in the batch [x], or in none. *)
Definition batched (b : Book) (x : option N) (q : N) : Prop :=
  forall id p, b.2 !! id = Some p -> posted_transfer_id p = Some q -> settlement_batch_seq p = x.

Lemma known_lstep l ev l' q : lstep l ev l' -> is_Some (transfers l !! q) -> is_Some (transfers l' !! q).
Proof. intros Hs. destruct Hs; simpl; rewrite ?lookup_insert_is_Some'; auto. Qed.

(** The end of a hold does not capture a payment by a transfer that exists. *)
Lemma ended_posted l l' p p' q :
  ends_for l l' p p' -> is_Some (transfers l !! q) -> posted_transfer_id p' = Some q -> posted_transfer_id p = Some q.
Proof.
  intros (_ & h & _ & [(q' & ts & Hs & ->)|(x & ts & Hs & ->)]) Hk; simpl; [|done]. intros [= ->].
  destruct (posted_lookup _ _ _ _ _ _ Hs) as (t & _ & _ & Hnew & _). rewrite Hnew in Hk. by destruct Hk.
Qed.

Lemma batched_end l l' m id p p' x q :
  m !! id = Some p -> ends_for l l' p p' -> is_Some (transfers l !! q) ->
  batched (l, m) x q -> batched (l', <[id := p']> m) x q.
Proof.
  intros Hm He Hk Hb i r. simpl. rewrite lookup_insert_Some. intros [[<- <-]|[_ Hr]] Hq; [|by eapply Hb].
  destruct (ends_for_step _ _ _ _ He) as (h & ev & _ & _ & _ & _ & _ & ->).
  eapply Hb; [exact Hm|]. by eapply ended_posted.
Qed.

Lemma batched_enter l m p x q :
  posted_transfer_id p <> Some q -> batched (l, m) x q -> batched (l, <[pay_id p := p]> m) x q.
Proof. intros Hne Hb i r. simpl. rewrite lookup_insert_Some. intros [[<- <-]|[_ Hr]] Hq; [done|by eapply Hb]. Qed.

Lemma mark_posted ids seq p : posted_transfer_id (mark_settled ids seq p) = posted_transfer_id p.
Proof. unfold mark_settled. by destruct (_ && _). Qed.

(** Marking a batch leaves the payments of other batches, and marks its own. *)
Lemma batched_keep l m ids seq x q : batched (l, m) (Some x) q -> batched (l, mark_settled ids seq <$> m) (Some x) q.
Proof.
  intros Hb i r. simpl. rewrite lookup_fmap. destruct (m !! i) as [p|] eqn:Ep; [|done]. simpl. intros [= <-].
  rewrite mark_posted. intros Hq. pose proof (Hb i p Ep Hq) as Hx. unfold mark_settled, unsettled. rewrite Hx.
  rewrite (bool_decide_eq_true_2 (is_Some (Some x))) by eauto. simpl. by rewrite andb_false_r.
Qed.

Lemma batched_mark sc l m ids seq q :
  book_inv sc (l, m) -> q ∈ ids -> batched (l, m) None q -> batched (l, mark_settled ids seq <$> m) (Some seq) q.
Proof.
  intros Hi Hin Hb i r. simpl. rewrite lookup_fmap. destruct (m !! i) as [p|] eqn:Ep; [|done]. simpl. intros [= <-].
  rewrite mark_posted. intros Hq. pose proof (Hb i p Ep Hq) as Hx.
  pose proof (posted_captured _ _ _ (bi_backed _ _ Hi i p Ep) Hq) as Hc.
  assert (unsettled p = true) as Hu by (unfold unsettled; by rewrite Hc, Hx).
  unfold mark_settled. by rewrite Hu, Hq, bool_decide_eq_true_2.
Qed.

(** ** Ghost state and the steps of a thread *)

(** How a thread has the lock on the payments. *)
Inductive Own : Type :=
| Out
| Looking (m : gmap N Payment)
| Reading
| Working (id : N) (p : Payment)
| Changed (id : N) (p : Payment).

(** The part of a thread in settlement: it has the settlement lock, it has collected a
    batch, a rail has accepted the batch and its payments are still to be marked. *)
Inductive Batch : Type :=
| NoBatch
| Serving
| Collected (ids : list N)
| Accepted (seq : N) (ids : list N).

Record Ghost : Type := mkGhost { own : Own; flight : option Payment; batch : Batch }.
Definition idle : Ghost := mkGhost Out None NoBatch.
Definition set_own (o : Own) (g : Ghost) : Ghost := mkGhost o (flight g) (batch g).
Definition set_batch (b : Batch) (g : Ghost) : Ghost := mkGhost (own g) (flight g) b.

(** The thread has the lock for writing. *)
Definition writing (o : Own) : bool := match o with Reading | Working _ _ | Changed _ _ => true | _ => false end.
Definition settles (b : Batch) : bool := match b with NoBatch => false | _ => true end.

(** What a thread knows of the payments. *)
Definition knows (o : Own) (s : App) : Prop :=
  match o with Working id p => payments s !! id = Some p | Looking m => payments s = m | _ => True end.

(** What a section may do. *)
Inductive may (s s' : App) : Ghost -> Ghost -> Prop :=
| may_quiet g : book s' = book s -> may s s' g g
| may_deposit g t :
    payments s' = payments s -> lstep (app_ledger s) (EvTransferPosted t) (app_ledger s') ->
    pending_id t = None -> may s s' g g
| may_hold o b t p :
    payments s' = payments s -> lstep (app_ledger s) (EvTransferPendingCreated t) (app_ledger s') -> entered t p ->
    may s s' (mkGhost o None b) (mkGhost o (Some p) b)
| may_bring o b p p' :
    payments s' = payments s -> ends_for (app_ledger s) (app_ledger s') p p' ->
    may s s' (mkGhost o (Some p) b) (mkGhost o (Some p') b)
| may_enter p b :
    app_ledger s' = app_ledger s -> payments s' = <[pay_id p := p]> (payments s) ->
    may s s' (mkGhost Reading (Some p) b) (mkGhost Reading None b)
| may_read id p f b :
    book s' = book s -> payments s !! id = Some p -> may s s' (mkGhost Reading f b) (mkGhost (Working id p) f b)
| may_end id p p' f b :
    payments s' = payments s -> ends_for (app_ledger s) (app_ledger s') p p' ->
    may s s' (mkGhost (Working id p) f b) (mkGhost (Changed id p') f b)
| may_write id p f b :
    app_ledger s' = app_ledger s -> payments s' = <[id := p]> (payments s) ->
    may s s' (mkGhost (Changed id p) f b) (mkGhost Reading f b)
| may_collect m f :
    book s' = book s ->
    may s s' (mkGhost (Looking m) f Serving) (mkGhost (Looking m) f (Collected (tr_id <$> batch_transfers s)))
| may_mark f seq ids :
    app_ledger s' = app_ledger s -> payments s' = mark_settled ids seq <$> payments s ->
    may s s' (mkGhost Reading f (Accepted seq ids)) (mkGhost Reading f Serving).

(** A thread can return, or give the lock on the payments back. *)
Definition settled_own (o : Own) : bool := match o with Changed _ _ => false | _ => true end.
Definition settled_batch (b : Batch) : bool := match b with Accepted _ _ => false | _ => true end.

(** What a thread in [g] keeps to. *)
Fixpoint safe {A} (sc : Scale) (g : Ghost) (p : prog A) : Prop :=
  match p with
  | Done _ => settled_own (own g) = true /\ settled_batch (batch g) = true
  | Take PaymentsLock Write k => own g = Out /\ safe sc (set_own Reading g) k
  | Take PaymentsLock Read k => own g = Out /\ forall m, safe sc (set_own (Looking m) g) k
  | Take SettlementLock m k => m = Write /\ batch g = NoBatch /\ safe sc (set_batch Serving g) k
  | Drop PaymentsLock k => settled_own (own g) = true /\ safe sc (set_own Out g) k
  | Drop SettlementLock _ => False
  | Take _ _ k | Drop _ k => safe sc g k
  | Sent seq ids k => batch g = Collected ids /\ safe sc (set_batch (Accepted seq ids) g) k
  | Atomic u k => forall s, knows (own g) s -> (forall id p, own g = Working id p -> book_inv sc (book s)) ->
      exists g', may s (u s) g g' /\ safe sc g' (k s)
  end.

(** ** The invariant *)

Definition changed (o : Own) (m : gmap N Payment) : gmap N Payment :=
  match o with Changed id p => <[id := p]> m | _ => m end.

(** The book with the change of the thread that writes. *)
Definition shown (holder : option nat) (gs : nat -> Ghost) (s : App) : Book :=
  (app_ledger s, from_option (fun i => changed (own (gs i)) (payments s)) (payments s) holder).

Record ghost_ok (sc : Scale) (holder : option nat) (gs : nat -> Ghost) (s : App) : Prop := {
  go_lock : forall i, holder = Some i <-> writing (own (gs i)) = true;
  go_readers : forall i m, own (gs i) = Looking m -> holder = None;
  go_book : book_inv sc (shown holder gs s);
  go_aloft : forall i p, flight (gs i) = Some p -> aloft (shown holder gs s) p;
  go_distinct : forall i j p q, flight (gs i) = Some p -> flight (gs j) = Some q ->
    pending_transfer_id p = pending_transfer_id q -> i = j;
  go_knows : forall i, knows (own (gs i)) s;
}.

(** No transfer was sent twice; what was sent is marked with its batch, but for the batch whose
    payments are still to be marked; what was collected was not sent and is in no batch; what is in
    flight was neither sent nor collected. *)
Record sent_ok (b : Book) (log : list (N * list N)) (gs : nat -> Ghost) : Prop := {
  so_nodup : NoDup (concat log.*2);
  so_known : forall q, q ∈ concat log.*2 -> is_Some (transfers b.1 !! q);
  so_marked : forall seq ids q, (seq, ids) ∈ log -> q ∈ ids ->
    batched b (Some seq) q \/ exists i, batch (gs i) = Accepted seq ids;
  so_collected : forall i ids, batch (gs i) = Collected ids ->
    NoDup ids /\ forall q, q ∈ ids -> is_Some (transfers b.1 !! q) /\ (q ∉ concat log.*2) /\ batched b None q;
  so_accepted : forall i seq ids, batch (gs i) = Accepted seq ids ->
    (seq, ids) ∈ log /\ forall q, q ∈ ids -> batched b None q;
  so_flight : forall i p q, flight (gs i) = Some p -> posted_transfer_id p = Some q ->
    (q ∉ concat log.*2) /\ forall j ids, batch (gs j) = Collected ids -> (q ∉ ids);
  so_one : forall i j, settles (batch (gs i)) = true -> settles (batch (gs j)) = true -> i = j;
}.

(** The step of one thread among the others. *)
Ltac at_thread j i :=
  destruct (decide (j = i)) as [->|?]; rewrite ?fn_lookup_insert, ?fn_lookup_insert_ne in * by done.

Lemma sent_in seq ids q (log : list (N * list N)) : (seq, ids) ∈ log -> q ∈ ids -> q ∈ concat log.*2.
Proof.
  intros Hin Hq. apply list_elem_of_In, in_concat. exists ids. split; apply list_elem_of_In; [|done].
  apply list_elem_of_fmap. by exists (seq, ids).
Qed.

Lemma in_sent q (log : list (N * list N)) : q ∈ concat log.*2 -> exists seq ids, (seq, ids) ∈ log /\ q ∈ ids.
Proof.
  intros (ids & Hids & Hq)%list_elem_of_In%in_concat. apply list_elem_of_In, list_elem_of_fmap in Hids as ([seq ids'] & -> & Hin).
  exists seq, ids'. split; [done|]. by apply list_elem_of_In.
Qed.

(** ** Sections *)

(** What a section does to the book that is shown, to its payment in flight and to its batch. *)
Inductive moves (b b' : Book) : Ghost -> Ghost -> Prop :=
| mv_same g g' : b' = b -> flight g' = flight g -> batch g' = batch g -> moves b b' g g'
| mv_deposit g g' : pstep anything b b' -> b'.2 = b.2 -> flight g' = flight g -> batch g' = batch g -> moves b b' g g'
| mv_end id p p' g g' : b.2 !! id = Some p -> ends_for b.1 b'.1 p p' -> b'.2 = <[id := p']> b.2 ->
    flight g' = flight g -> batch g' = batch g -> moves b b' g g'
| mv_hold t p g g' : flight g = None -> flight g' = Some p -> entered t p ->
    lstep b.1 (EvTransferPendingCreated t) b'.1 -> b'.2 = b.2 -> batch g' = batch g -> moves b b' g g'
| mv_bring p p' g g' : flight g = Some p -> flight g' = Some p' -> ends_for b.1 b'.1 p p' -> b'.2 = b.2 ->
    batch g' = batch g -> moves b b' g g'
| mv_enter p g g' : flight g = Some p -> flight g' = None -> b' = (b.1, <[pay_id p := p]> b.2) ->
    batch g' = batch g -> moves b b' g g'
| mv_collect s g g' : b = book s -> b' = b -> flight g' = flight g -> batch g = Serving ->
    batch g' = Collected (tr_id <$> batch_transfers s) -> moves b b' g g'
| mv_mark seq ids g g' : b' = (b.1, mark_settled ids seq <$> b.2) -> flight g' = flight g ->
    batch g = Accepted seq ids -> batch g' = Serving -> moves b b' g g'.

Section section_moves.
Context (sc : Scale) (holder : option nat) (gs : nat -> Ghost) (s s' : App) (i : nat) (g' : Ghost).
Context (Hok : ghost_ok sc holder gs s) (Hmay : may s s' (gs i) g').
Abbreviation gs' := (<[i := g']> gs).

Lemma may_writing : writing (own g') = writing (own (gs i)).
Proof. by destruct Hmay. Qed.

Lemma may_looking m : own g' = Looking m <-> own (gs i) = Looking m.
Proof. by destruct Hmay. Qed.

(** The thread's own change is seen by the others, and theirs by it. *)
Lemma shown_ledger : own g' = own (gs i) -> payments s' = payments s ->
  shown holder gs' s' = (app_ledger s', (shown holder gs s).2).
Proof.
  intros Ho Hp. unfold shown. simpl. rewrite Hp. destruct holder as [j|]; [|done]. simpl.
  destruct (decide (j = i)) as [->|Hj]; [by rewrite fn_lookup_insert, Ho|by rewrite fn_lookup_insert_ne].
Qed.

Lemma shown_inside : writing (own (gs i)) = true ->
  shown holder gs' s' = (app_ledger s', changed (own g') (payments s')) /\
  shown holder gs s = (app_ledger s, changed (own (gs i)) (payments s)).
Proof. intros Hl. apply (go_lock _ _ _ _ Hok) in Hl. unfold shown. rewrite Hl. simpl. by rewrite fn_lookup_insert. Qed.

Lemma shown_looking m : own (gs i) = Looking m -> shown holder gs s = book s.
Proof. intros Hm. unfold shown. by rewrite (go_readers _ _ _ _ Hok i m Hm). Qed.

Lemma section_moves : moves (shown holder gs s) (shown holder gs' s') (gs i) g'.
Proof.
  pose proof shown_ledger as Hl. pose proof shown_inside as Hin. pose proof shown_looking as Hlook.
  pose proof (go_knows _ _ _ _ Hok i) as Hk. pose proof Hmay as Hm. revert Hm Hl Hin Hlook Hk.
  generalize (gs i), g'. intros g0 g1 Hm Hl Hin Hlook Hk. destruct Hm as [g Hb|g t Hp Hs Ht|o b t p Hp Hs He|o b p p' Hp He|p b El Hp|id p f b Hb Hid|id p p' f b Hp He
    |id p f b El Hp|m f Hb|f seq ids El Hp]; cbn [own flight batch] in *.
  - apply mv_same; [|done|done]. injection Hb as El Hp. by rewrite Hl, El by done.
  - apply mv_deposit; [|by rewrite Hl|done|done]. rewrite Hl by done.
    rewrite (surjective_pairing (shown holder gs s)) at 1. by eapply (ps_deposit anything _ _ _ t).
  - apply (mv_hold _ _ t p); [done|done|done| |by rewrite Hl|done]. by rewrite Hl.
  - apply (mv_bring _ _ p p'); [done|done| |by rewrite Hl|done]. by rewrite Hl.
  - destruct (Hin eq_refl) as [-> ->]; cbn [own changed]. apply (mv_enter _ _ p); [done|done| |done]. by rewrite El, Hp.
  - destruct (Hin eq_refl) as [-> ->]; cbn [own changed]. injection Hb as -> ->. by apply mv_same.
  - destruct (Hin eq_refl) as [-> ->]; cbn [own changed]. apply (mv_end _ _ id p p'); [done|done| |done|done]. by rewrite Hp.
  - destruct (Hin eq_refl) as [-> ->]; cbn [own changed]. apply mv_same; [|done|done]. by rewrite El, Hp.
  - apply (mv_collect _ _ s); [by eapply Hlook| |done|done|done].
    injection Hb as El Hp. by rewrite Hl, El by done.
  - destruct (Hin eq_refl) as [-> ->]; cbn [own changed]. apply (mv_mark _ _ seq ids); [|done|done|done]. by rewrite El, Hp.
Qed.

(** Nothing happens to the payments while another thread has them locked. *)
Lemma payments_still : writing (own (gs i)) = false -> payments s' = payments s.
Proof.
  destruct Hmay; simpl; try done; intros _; match goal with Hb : book _ = book _ |- _ => by injection Hb as _ -> end.
Qed.

Lemma own_knows : knows (own g') s'.
Proof.
  pose proof (go_knows _ _ _ _ Hok i) as Hk. revert Hk. destruct Hmay; simpl in *; intros Hk; try done;
    repeat match goal with Hb : book _ = book _ |- _ => injection Hb as ? ? end;
    try (destruct (own g); simpl in *; congruence); try (destruct o; simpl in *; congruence); congruence.
Qed.
End section_moves.

(** The cases of a move. *)
Ltac by_move H :=
  destruct H as [g g' Eb Ef Ebt|g g' Hs Em Ef Ebt|id p0 p0' g g' Hid He Em Ef Ebt|t p0 g g' Ef Ef' He Hs Em Ebt
    |p0 p0' g g' Ef Ef' He Em Ebt|p0 g g' Ef Ef' Eb Ebt|s g g' Es Eb Ef Ebt Ebt'|seq ids g g' Eb Ef Ebt Ebt'].

(** A book is its two halves. *)
Lemma halves (b : Book) l m : b.1 = l -> b.2 = m -> b = (l, m).
Proof. destruct b. simpl. by intros -> ->. Qed.
Lemma whole (b : Book) : b = (b.1, b.2).
Proof. by destruct b. Qed.

Section moves.
Context (sc : Scale) (b b' : Book) (g g' : Ghost).
Context (Hinv : book_inv sc b) (Hfl : forall p, flight g = Some p -> aloft b p) (Hmv : moves b b' g g').

Lemma moves_inv : book_inv sc b'.
Proof.
  pose proof (whole b) as Ew. pose proof (halves b') as Hh. revert Hfl. by_move Hmv; intros Hfl'.
  - by rewrite Eb.
  - by eapply pstep_inv.
  - rewrite (Hh _ _ eq_refl Em). eapply pstep_inv; [by eapply (ends_for_pstep _ _ _ _ _ _ Hid)|by rewrite <- Ew].
  - rewrite (Hh _ _ eq_refl Em). eapply pstep_inv; [by eapply (ps_hold anything)|by rewrite <- Ew].
  - rewrite (Hh _ _ eq_refl Em). rewrite Ew in Hinv, Hfl'. eapply flight_end_inv; [exact Hinv|by apply Hfl'|exact He].
  - rewrite Eb. apply enter_inv; rewrite <- Ew; auto.
  - by rewrite Eb.
  - rewrite Eb. eapply pstep_inv; [apply (mark_all_step anything)|by rewrite <- Ew].
Qed.

Lemma moves_own p : flight g' = Some p -> aloft b' p.
Proof.
  pose proof (whole b) as Ew. pose proof (halves b') as Hh. revert Hfl. by_move Hmv; intros Hfl' Hp.
  - rewrite Eb. apply Hfl'. congruence.
  - eapply aloft_step; [exact Hinv|exact Hs|]. apply Hfl'. congruence.
  - rewrite (Hh _ _ eq_refl Em). eapply aloft_step; [exact Hinv| |apply Hfl'; congruence].
    rewrite Ew at 1. by eapply ends_for_pstep.
  - rewrite (Hh _ _ eq_refl Em). assert (p = p0) as -> by congruence. rewrite Ew in Hinv. by eapply aloft_placed.
  - rewrite (Hh _ _ eq_refl Em). assert (p = p0') as -> by congruence. rewrite Ew in Hfl'.
    eapply flight_end_own; [by apply Hfl'|exact He].
  - congruence.
  - rewrite Eb. apply Hfl'. congruence.
  - rewrite Eb. eapply aloft_step; [exact Hinv| |apply Hfl'; congruence]. rewrite Ew at 1. apply mark_all_step.
Qed.

Lemma moves_other u :
  aloft b u -> (forall p, flight g = Some p -> pending_transfer_id u <> pending_transfer_id p) -> aloft b' u.
Proof.
  pose proof (whole b) as Ew. pose proof (halves b') as Hh. revert Hfl. by_move Hmv; intros Hfl' Hu Hne.
  - by rewrite Eb.
  - by eapply aloft_step.
  - rewrite (Hh _ _ eq_refl Em). eapply aloft_step; [exact Hinv| |done]. rewrite Ew at 1. by eapply ends_for_pstep.
  - rewrite (Hh _ _ eq_refl Em). eapply aloft_step; [exact Hinv| |done]. rewrite Ew at 1. by eapply ps_hold.
  - rewrite (Hh _ _ eq_refl Em). rewrite Ew in Hfl', Hu. eapply flight_end_other; [by apply Hfl'|exact He|done|auto].
  - rewrite Eb. apply enter_aloft; [by rewrite <- Ew|]. by apply not_eq_sym, Hne.
  - by rewrite Eb.
  - rewrite Eb. eapply aloft_step; [exact Hinv| |done]. rewrite Ew at 1. apply mark_all_step.
Qed.

(** A payment in flight keeps its hold, or has a new one. *)
Lemma moves_pending p :
  flight g' = Some p ->
  (exists p0, flight g = Some p0 /\ pending_transfer_id p = pending_transfer_id p0) \/
  (exists h, pending_transfer_id p = Some h /\ transfers b.1 !! h = None).
Proof using Hmv.
  clear Hfl Hinv.
  by_move Hmv; intros Hp; rewrite ?Ef in *; eauto.
  - right. assert (p = p0) as -> by congruence. destruct He as (_ & _ & Hpe & _). exists (tr_id t). split; [done|].
    by apply pending_created_lookup in Hs as (_ & _ & ?).
  - left. assert (p = p0') as -> by congruence. exists p0. split; [done|].
    destruct (ends_for_step _ _ _ _ He) as (h & ev & -> & _ & _ & -> & _). done.
  - congruence.
Qed.

(** A payment in flight is captured by the transfer it was captured by, or by a new one. *)
Lemma moves_posted p q :
  flight g' = Some p -> posted_transfer_id p = Some q ->
  (exists p0, flight g = Some p0 /\ posted_transfer_id p0 = Some q) \/ transfers b.1 !! q = None.
Proof using Hmv.
  clear Hfl Hinv.
  by_move Hmv; intros Hp Hq; rewrite ?Ef in *; eauto.
  - assert (p = p0) as -> by congruence. destruct He as (_ & _ & _ & Hpo & _). congruence.
  - assert (p = p0') as -> by congruence. destruct (transfers b.1 !! q) as [t|] eqn:Et; [left|by right].
    exists p0. split; [done|]. eapply ended_posted; [exact He|by rewrite Et|done].
  - congruence.
Qed.

Lemma moves_known q : is_Some (transfers b.1 !! q) -> is_Some (transfers b'.1 !! q).
Proof using Hmv.
  clear Hfl Hinv.
  intros Hq. by_move Hmv; rewrite ?Eb; try done.
  - destruct Hs; simpl in *; eauto using known_lstep.
  - destruct (ends_for_step _ _ _ _ He) as (h & ev & _ & Hs & _). by eapply known_lstep.
  - by eapply known_lstep.
  - destruct (ends_for_step _ _ _ _ He) as (h & ev & _ & Hs & _). by eapply known_lstep.
Qed.

Lemma moves_batched x q :
  is_Some (transfers b.1 !! q) -> (forall p, flight g = Some p -> posted_transfer_id p <> Some q) ->
  is_Some x \/ batch g' <> Serving \/ batch g = Serving -> batched b x q -> batched b' x q.
Proof using Hmv.
  clear Hfl Hinv.
  pose proof (whole b) as Ew. pose proof (halves b') as Hh. intros Hq Hf Hx Hb. by_move Hmv.
  - by rewrite Eb.
  - intros i p. rewrite Em. apply Hb.
  - rewrite (Hh _ _ eq_refl Em). rewrite Ew in Hb. by eapply batched_end.
  - intros i p. rewrite Em. apply Hb.
  - intros i p. rewrite Em. apply Hb.
  - rewrite Eb. rewrite Ew in Hb. apply batched_enter; auto.
  - by rewrite Eb.
  - rewrite Eb. rewrite Ew in Hb. destruct Hx as [[y ->]|[Hx|Hx]]; [by apply batched_keep|done|congruence].
Qed.
End moves.

Section step.
Context (sc : Scale) (holder : option nat) (gs : nat -> Ghost) (s s' : App) (i : nat) (g' : Ghost).
Context (Hok : ghost_ok sc holder gs s) (Hmay : may s s' (gs i) g').
Abbreviation gs' := (<[i := g']> gs).

Let Hmv := section_moves sc holder gs s s' i g' Hok Hmay.

(** A section keeps the invariant. *)
Lemma section_ok : ghost_ok sc holder gs' s'.
Proof.
  pose proof Hok as [Hl Hr Hb Ha Hd Hk]. constructor.
  - intros j. at_thread j i; [|apply Hl]. by rewrite (may_writing gs s s' i g' Hmay).
  - intros j m. at_thread j i; [|apply Hr]. rewrite (may_looking gs s s' i g' Hmay). apply Hr.
  - eapply moves_inv; [exact Hb|intros p; apply Ha|exact Hmv].
  - intros j p. at_thread j i; [eapply moves_own; [exact Hb|intros q; apply Ha|exact Hmv]|]. intros Hp.
    eapply moves_other; [exact Hb|intros q; apply Ha|exact Hmv|by eapply Ha|].
    intros q Hq E. by destruct (Hd j i p q Hp Hq E).
  - assert (forall j p q, j <> i -> flight g' = Some p -> flight (gs j) = Some q ->
      pending_transfer_id p = pending_transfer_id q -> False) as Hnew.
    { intros j p q Hj Hp Hq E. destruct (moves_pending _ _ _ _ Hmv p Hp) as [(p0 & Hp0 & E0)|(h & Eh & Hn)].
      - apply Hj, (Hd j i q p0 Hq Hp0). congruence.
      - destruct (al_backed _ _ (Ha j q Hq)) as (h' & t & Hh & Ht & _). congruence. }
    intros j k p q. at_thread j i; at_thread k i; [done|..|eauto].
    + intros Hp Hq E. exfalso. by eapply Hnew.
    + intros Hp Hq E. exfalso. eapply (Hnew j); [done|exact Hq|exact Hp|done].
  - intros j. at_thread j i; [by apply (own_knows sc holder gs s s' i g')|]. pose proof (Hk j) as Hkj.
    assert (payments s' = payments s \/ writing (own (gs i)) = true) as [E|Hw].
    { destruct (writing (own (gs i))) eqn:E; [by right|left]. by apply (payments_still gs s s' i g'). }
    + destruct (own (gs j)); simpl in *; congruence.
    + apply Hl in Hw. destruct (own (gs j)) eqn:Ej; simpl; try done.
      * by rewrite (Hr j m Ej) in Hw.
      * assert (holder = Some j) as E by (apply Hl; by rewrite Ej). congruence.
Qed.

Context (log : list (N * list N)) (Hsent : sent_ok (shown holder gs s) log gs).

(** What a thread collects was not sent, is in no batch, and is not in flight. *)
Lemma collected_ok :
  shown holder gs s = book s -> batch (gs i) = Serving ->
  NoDup (tr_id <$> batch_transfers s) /\
  forall q, q ∈ tr_id <$> batch_transfers s ->
    is_Some (transfers (app_ledger s) !! q) /\ (q ∉ concat log.*2) /\ batched (book s) None q /\
    forall j p, flight (gs j) = Some p -> posted_transfer_id p <> Some q.
Proof.
  intros Hsh Hi. pose proof (go_book _ _ _ _ Hok) as Hb. rewrite Hsh in Hb. split; [by eapply batch_nodup|].
  intros q. rewrite list_elem_of_fmap. intros (t & -> & Ht). unfold batch_transfers in Ht.
  apply list_elem_of_filter in Ht as [(j & p & Hp & Hu & Hq)%posted_ids_elem [k Hk]%elem_of_btree_values].
  pose proof (reachable_inv _ _ (bi_reach _ _ Hb)) as Hinv.
  pose proof (tok_key _ _ _ _ (inv_transfers _ Hinv k t Hk)) as Hkey.
  assert (settlement_batch_seq p = None) as Hnone.
  { unfold unsettled in Hu. apply andb_prop in Hu as [_ Hu%negb_true_iff%bool_decide_eq_false].
    destruct (settlement_batch_seq p); [destruct Hu; eauto|done]. }
  split_and!.
  - exists t. by rewrite Hkey.
  - intros (seq & ids & Hin & Hids)%in_sent. destruct (so_marked _ _ _ Hsent seq ids _ Hin Hids) as [Hret|(n & Hn)].
    + rewrite Hsh in Hret. by rewrite (Hret j p Hp Hq) in Hnone.
    + assert (n = i) as -> by (apply (so_one _ _ _ Hsent); by rewrite ?Hn, ?Hi). congruence.
  - intros j' p' Hp' Hq'. assert (j' = j) as ->; [|simpl in *; congruence].
    eapply (bi_holds _ _ Hb); [exact Hp'|exact Hp|].
    eapply posted_clash; [by eapply (bi_backed _ _ Hb)|by eapply (bi_backed _ _ Hb)|exact Hq'|exact Hq].
  - intros j' p' Hp' Hq'. pose proof (go_aloft _ _ _ _ Hok j' p' Hp') as Ha. rewrite Hsh in Ha.
    apply (al_free _ _ Ha j p Hp).
    eapply posted_clash; [by eapply (bi_backed _ _ Hb)|apply (al_backed _ _ Ha)|exact Hq|exact Hq'].
Qed.

(** What a section does to the batch of its thread. *)
Lemma batch_cases :
  batch g' = batch (gs i) \/
  (shown holder gs s = book s /\ shown holder gs' s' = shown holder gs s /\ batch (gs i) = Serving /\
     batch g' = Collected (tr_id <$> batch_transfers s)) \/
  (exists seq ids, shown holder gs' s' = ((shown holder gs s).1, mark_settled ids seq <$> (shown holder gs s).2) /\
     batch (gs i) = Accepted seq ids /\ batch g' = Serving).
Proof.
  pose proof (shown_ledger sc holder gs s s' i g' Hok) as Hl. pose proof (shown_inside sc holder gs s s' i g' Hok) as Hin.
  pose proof (shown_looking sc holder gs s i Hok) as Hlook. pose proof Hmay as Hm. revert Hm Hl Hin Hlook.
  generalize (gs i), g'. intros g0 g1 Hm Hl Hin Hlook.
  destruct Hm as [| | | | | | | |m f Hb|f seq ids El Hp]; try (by left); cbn [own flight batch] in *.
  - right; left. injection Hb as El Hp. split_and!; [by eapply Hlook| |done|done]. by rewrite Hl, El.
  - right; right. exists seq, ids. destruct (Hin eq_refl) as [-> ->]; cbn [own changed]. by rewrite El, Hp.
Qed.

Lemma settles_same : settles (batch g') = settles (batch (gs i)).
Proof. destruct batch_cases as [-> |[(_ & _ & -> & ->)|(seq & ids & _ & -> & ->)]]; done. Qed.

(** Who else settles while [i] does something. *)
Lemma other_batch j : j <> i -> settles (batch (gs j)) = true -> batch g' <> Serving \/ batch (gs i) = Serving.
Proof.
  intros Hj Hs. left. intros E. apply Hj, (so_one _ _ _ Hsent); [done|]. by rewrite <- settles_same, E.
Qed.

(** A transfer in the history, and one in the batch of a thread, are captured by no payment that [i] has
    in flight. *)
Lemma sent_apart q : q ∈ concat log.*2 -> forall p, flight (gs i) = Some p -> posted_transfer_id p <> Some q.
Proof. intros Hq p Hp E. by destruct (so_flight _ _ _ Hsent i p q Hp E). Qed.

Lemma collected_apart j ids q :
  batch (gs j) = Collected ids -> q ∈ ids -> forall p, flight (gs i) = Some p -> posted_transfer_id p <> Some q.
Proof. intros Hj Hq p Hp E. destruct (so_flight _ _ _ Hsent i p q Hp E) as [_ Hn]. by eapply Hn. Qed.

Lemma sent_section : sent_ok (shown holder gs' s') log gs'.
Proof.
  pose proof Hsent as [Hn Hkn Hm Hc Ha Hf Ho]. pose proof settles_same as Hset.
  pose proof (moves_known _ _ _ _ Hmv) as Hk. pose proof (moves_batched _ _ _ _ Hmv) as Hb.
  constructor; [done|auto|..].
  - intros seq ids q Hin Hq. pose proof (sent_in _ _ _ _ Hin Hq) as Hs.
    destruct (Hm seq ids q Hin Hq) as [Hx|[j Hj]]; [left; by apply Hb; eauto using sent_apart|].
    destruct (decide (j = i)) as [->|Hne]; [|right; exists j; by rewrite fn_lookup_insert_ne].
    destruct batch_cases as [E|[(_ & _ & E & _)|(seq' & ids' & E & E' & _)]]; [|congruence|].
    + right. exists i. by rewrite fn_lookup_insert, E.
    + left. rewrite E. assert (seq' = seq /\ ids' = ids) as [-> ->] by (split; congruence).
      eapply batched_mark; [rewrite <- whole; apply (go_book _ _ _ _ Hok)|done|]. rewrite <- whole. by eapply Ha.
  - intros j ids. at_thread j i.
    + intros Ej. destruct batch_cases as [E|[(Es & Es' & Eb & E)|(? & ? & _ & _ & E)]]; [|..|congruence].
      * rewrite E in Ej. destruct (Hc i ids Ej) as [Hnd Hq]. split; [done|]. intros q Hin.
        destruct (Hq q Hin) as (? & ? & ?). split_and!; [auto|done|]. apply Hb; [done| |right; left; congruence|done].
        by eapply collected_apart.
      * assert (ids = tr_id <$> batch_transfers s) as -> by congruence. rewrite Es', Es.
        destruct (collected_ok Es Eb) as [Hnd Hq]. split; [done|]. intros q Hin. by destruct (Hq q Hin) as (? & ? & ? & _).
    + intros Ej. destruct (Hc j ids Ej) as [Hnd Hq]. split; [done|]. intros q Hin. destruct (Hq q Hin) as (? & ? & ?).
      split_and!; [auto|done|]. apply Hb; [done|by eapply collected_apart| |done].
      right. apply (other_batch j); [done|]. by rewrite Ej.
  - intros j seq ids. at_thread j i.
    + intros Ej. destruct batch_cases as [E|[(_ & _ & _ & E)|(? & ? & _ & _ & E)]]; [|congruence..].
      rewrite E in Ej. destruct (Ha i seq ids Ej) as [Hin Hq]. split; [done|]. intros q Hqi.
      pose proof (sent_in _ _ _ _ Hin Hqi). apply Hb; [auto|by apply sent_apart|right; left; congruence|auto].
    + intros Ej. destruct (Ha j seq ids Ej) as [Hin Hq]. split; [done|]. intros q Hqi.
      pose proof (sent_in _ _ _ _ Hin Hqi). apply Hb; [auto|by apply sent_apart| |auto].
      right. apply (other_batch j); [done|]. by rewrite Ej.
  - assert (forall j ids q, batch (gs' j) = Collected ids -> q ∈ ids ->
      (exists k, batch (gs k) = Collected ids) \/
      (is_Some (transfers (shown holder gs s).1 !! q) /\
       forall k p, flight (gs k) = Some p -> posted_transfer_id p <> Some q)) as Hcol.
    { intros j ids q Ej Hq. at_thread j i; [|by eauto].
      destruct batch_cases as [E|[(Es & Es' & Eb & E)|(? & ? & _ & _ & E)]]; [|..|congruence].
      - left. exists i. congruence.
      - right. assert (ids = tr_id <$> batch_transfers s) as -> by congruence.
        by destruct (proj2 (collected_ok Es Eb) q Hq) as (? & _ & _ & ?). }
    assert (forall j p q, flight (gs j) = Some p -> posted_transfer_id p = Some q ->
      (q ∉ concat log.*2) /\ forall k ids, batch (gs' k) = Collected ids -> (q ∉ ids)) as Hold.
    { intros j p q Hp Hq. destruct (Hf j p q Hp Hq) as [Hs Hcq]. split; [done|]. intros k ids Ek Hin.
      destruct (Hcol k ids q Ek Hin) as [[k' Ek']|[_ Hno]]; [by eapply Hcq|by eapply Hno]. }
    intros j p q. at_thread j i; [|apply Hold]. intros Hp Hq.
    destruct (moves_posted _ _ _ _ Hmv p q Hp Hq) as [(p0 & Hp0 & Hq0)|Hnew]; [by eapply Hold|]. split.
    + intros Hs. specialize (Hkn q Hs). rewrite Hnew in Hkn. by destruct Hkn.
    + intros k ids Ek Hin. destruct (Hcol k ids q Ek Hin) as [[k' Ek']|[Hs _]].
      * destruct (Hc k' ids Ek') as [_ Hall]. destruct (Hall q Hin) as [Hs _]. rewrite Hnew in Hs. by destruct Hs.
      * rewrite Hnew in Hs. by destruct Hs.
  - intros j k. at_thread j i; at_thread k i; rewrite ?Hset; auto.
Qed.
End step.

(** ** Locks *)

(** The thread [i] goes on as [g'], without a change to the book that is shown. *)
Lemma regrade_ghost sc holder holder' gs s i g' :
  ghost_ok sc holder gs s -> shown holder' (<[i := g']> gs) s = shown holder gs s ->
  (forall j, holder' = Some j <-> writing (own (<[i := g']> gs j)) = true) ->
  (forall j m, own (<[i := g']> gs j) = Looking m -> holder' = None) ->
  flight g' = flight (gs i) \/ flight g' = None -> knows (own g') s ->
  ghost_ok sc holder' (<[i := g']> gs) s.
Proof.
  intros [Hl Hr Hb Ha Hd Hk] E Hl' Hr' Hf Hk'.
  assert (forall j p, flight (<[i := g']> gs j) = Some p -> flight (gs j) = Some p) as Hfl.
  { intros j p. at_thread j i; [|done]. destruct Hf; congruence. }
  constructor; rewrite ?E; [done|done|done|eauto|eauto|]. intros j. at_thread j i; [done|apply Hk].
Qed.

Lemma regrade_sent b log gs i g' :
  sent_ok b log gs -> flight g' = flight (gs i) \/ flight g' = None ->
  batch g' = batch (gs i) \/
  (settled_batch (batch (gs i)) = true /\
   (batch g' = NoBatch \/ (batch g' = Serving /\ forall j, settles (batch (gs j)) = false))) ->
  sent_ok b log (<[i := g']> gs).
Proof.
  intros [Hn Hk Hm Hc Ha Hf Ho] Hfl Hbt.
  assert (forall j p, flight (<[i := g']> gs j) = Some p -> flight (gs j) = Some p) as Hflight.
  { intros j p. at_thread j i; [|done]. destruct Hfl; congruence. }
  assert (forall j ids, batch (<[i := g']> gs j) = Collected ids -> batch (gs j) = Collected ids) as Hcol.
  { intros j ids. at_thread j i; [|done]. destruct Hbt as [->|[_ [->|[-> _]]]]; done. }
  assert (forall j seq ids, batch (<[i := g']> gs j) = Accepted seq ids <-> batch (gs j) = Accepted seq ids) as Hacc.
  { intros j seq ids. at_thread j i; [|done]. destruct Hbt as [->|[Hs [->|[-> _]]]]; [done|..];
      (split; [done|]; intros E; by rewrite E in Hs). }
  constructor; [done|done|..].
  - intros seq ids q Hin Hq. destruct (Hm seq ids q Hin Hq) as [?|[j Hj]]; [by left|right]. exists j. by apply Hacc.
  - intros j ids Hj. by apply (Hc j), Hcol.
  - intros j seq ids Hj. by apply (Ha j), Hacc.
  - intros j p q Hp Hq. destruct (Hf j p q (Hflight _ _ Hp) Hq) as [? Hno]. split; [done|]. eauto.
  - intros j k. at_thread j i; at_thread k i; [done|..|auto]; destruct Hbt as [->|[_ [->|[-> Hnone]]]]; simpl; eauto;
      rewrite ?Hnone; done.
Qed.

(** A rail accepts what was collected. *)
Lemma sent_accept b log gs i seq ids :
  sent_ok b log gs -> batch (gs i) = Collected ids ->
  sent_ok b (log ++ [(seq, ids)]) (<[i := set_batch (Accepted seq ids) (gs i)]> gs).
Proof.
  intros [Hn Hk Hm Hc Ha Hf Ho] Hi. destruct (Hc i ids Hi) as [Hnd Hids].
  assert (forall q, q ∈ concat (log ++ [(seq, ids)]).*2 <-> q ∈ concat log.*2 \/ q ∈ ids) as Hin.
  { intros q. rewrite fmap_app, concat_app, elem_of_app. simpl. by rewrite app_nil_r. }
  assert (forall j, j <> i -> settles (batch (gs j)) = false) as Hone.
  { intros j Hj. destruct (settles (batch (gs j))) eqn:E; [|done]. destruct Hj. apply Ho; by rewrite ?Hi. }
  constructor.
  - rewrite fmap_app, concat_app, NoDup_app. simpl. rewrite app_nil_r. split_and!; [done| |done].
    intros q Hq Hq'. by destruct (Hids q Hq') as (_ & [] & _).
  - intros q [Hq|Hq]%Hin; [by apply Hk|by apply Hids].
  - intros seq' ids' q [Hl|Hl]%elem_of_app Hq.
    + destruct (Hm seq' ids' q Hl Hq) as [?|[j Hj]]; [by left|].
      assert (j = i) as -> by (apply Ho; by rewrite ?Hj, ?Hi). congruence.
    + apply list_elem_of_singleton in Hl as [= -> ->]. right. exists i. by rewrite fn_lookup_insert.
  - intros j js. at_thread j i; [done|]. intros E. specialize (Hone j ltac:(done)). by rewrite E in Hone.
  - intros j seq' js. at_thread j i.
    + intros [= <- <-]. split; [apply elem_of_app; right; left|]. intros q Hq. by apply Hids.
    + intros E. specialize (Hone j ltac:(done)). by rewrite E in Hone.
  - assert (forall j p q, flight (gs j) = Some p -> posted_transfer_id p = Some q ->
      (q ∉ concat (log ++ [(seq, ids)]).*2) /\
      forall k js, batch (<[i := set_batch (Accepted seq ids) (gs i)]> gs k) = Collected js -> (q ∉ js)) as Hall.
    { intros j p q Hp Hq. destruct (Hf j p q Hp Hq) as [Hl Hcq]. split.
      - rewrite Hin. intros [?|?]; [done|]. by eapply Hcq.
      - intros k js. at_thread k i; [done|]. apply Hcq. }
    intros j p q. at_thread j i; apply Hall.
  - intros j k. at_thread j i; at_thread k i; auto; rewrite Hone; done.
Qed.

(** ** Pools *)

Record core_ok (sc : Scale) (s : App) (g : list (nat * (Lock * Mode))) (log : list (N * list N))
    (holder : option nat) (gs : nat -> Ghost) : Prop := {
  pc_writer : forall i, (i, (PaymentsLock, Write)) ∈ g <-> holder = Some i;
  pc_reader : forall i, (i, (PaymentsLock, Read)) ∈ g <-> exists m, own (gs i) = Looking m;
  pc_settling : forall i, (i, (SettlementLock, Write)) ∈ g <-> settles (batch (gs i)) = true;
  pc_ghost : ghost_ok sc holder gs s;
  pc_sent : sent_ok (shown holder gs s) log gs;
}.

(** The locks that the invariant looks at. *)
Definition watched (e : Lock * Mode) : bool :=
  bool_decide (e ∈ [(PaymentsLock, Write); (PaymentsLock, Read); (SettlementLock, Write)]).

(** Other locks come and go. *)
Lemma core_guards sc s g g1 log holder gs :
  core_ok sc s g log holder gs -> (forall i e, watched e = true -> (i, e) ∈ g1 <-> (i, e) ∈ g) ->
  core_ok sc s g1 log holder gs.
Proof.
  intros [Hw Hr Hse Hg Hsn] E. constructor; [| | |done|done]; intros i; by rewrite E.
Qed.

(** Ghosts of the thread that steps. *)
Ltac by_thread j i := destruct (decide (j = i)) as [->|?]; rewrite ?fn_lookup_insert, ?fn_lookup_insert_ne by done.

Section lock_steps.
Context (sc : Scale) (s : App) (g : list (nat * (Lock * Mode))) (log : list (N * list N)).
Context (holder : option nat) (gs : nat -> Ghost) (i : nat) (Hcore : core_ok sc s g log holder gs).

Lemma unwritten : (forall j, (j, (PaymentsLock, Write)) ∉ g) -> holder = None.
Proof. intros Hno. destruct holder as [j|] eqn:E; [|done]. by destruct (Hno j); apply (pc_writer _ _ _ _ _ _ Hcore). Qed.

Lemma core_take_write :
  lockable PaymentsLock Write g = true -> own (gs i) = Out ->
  core_ok sc s ((i, (PaymentsLock, Write)) :: g) log (Some i) (<[i := set_own Reading (gs i)]> gs).
Proof.
  intros Hfree Hi. rewrite lockable_spec in Hfree.
  assert (forall j m, (j, (PaymentsLock, m)) ∉ g) as Hno by (intros j m Hin; by destruct (Hfree j m Hin)).
  pose proof (unwritten (fun j => Hno j Write)) as Eh. destruct Hcore as [Hw Hr Hse Hg Hsn].
  assert (shown (Some i) (<[i := set_own Reading (gs i)]> gs) s = shown holder gs s) as Es.
  { unfold shown. rewrite Eh. simpl. by rewrite fn_lookup_insert. }
  assert (forall j, writing (own (gs j)) = false) as Hnw.
  { intros j. destruct (writing (own (gs j))) eqn:E; [|done]. apply (go_lock _ _ _ _ Hg) in E. congruence. }
  assert (forall j m, own (gs j) = Looking m -> False) as Hnr.
  { intros j m E. apply (Hno j Read), Hr. eauto. }
  constructor.
  - intros j. rewrite elem_of_cons. split; [intros [[= ->]|?]; [done|by destruct (Hno j Write)]|intros [= ->]; by left].
  - intros j. rewrite elem_of_cons. split; [intros [?|?]; [done|by destruct (Hno j Read)]|].
    by_thread j i; [by intros [? ?]|]. intros [m ?]. by destruct (Hnr j m).
  - intros j. rewrite elem_of_cons, Hse. by_thread j i; simpl; naive_solver.
  - apply (regrade_ghost sc holder); [done|done|..|by left|done].
    + intros j. by_thread j i; [done|]. rewrite Hnw. split; congruence.
    + intros j m. by_thread j i; [done|]. intros E. by destruct (Hnr j m).
  - rewrite Es. apply regrade_sent; [done|by left|by left].
Qed.

Lemma core_take_read :
  lockable PaymentsLock Read g = true -> own (gs i) = Out ->
  core_ok sc s ((i, (PaymentsLock, Read)) :: g) log holder (<[i := set_own (Looking (payments s)) (gs i)]> gs).
Proof.
  intros Hfree Hi. rewrite lockable_spec in Hfree.
  assert (forall j, (j, (PaymentsLock, Write)) ∉ g) as Hno by (intros j Hin; by destruct (Hfree j _ Hin)).
  pose proof (unwritten Hno) as Eh. destruct Hcore as [Hw Hr Hse Hg Hsn].
  assert (shown holder (<[i := set_own (Looking (payments s)) (gs i)]> gs) s = shown holder gs s) as Es
    by (unfold shown; by rewrite Eh).
  constructor.
  - intros j. rewrite elem_of_cons, <- Hw. naive_solver.
  - intros j. rewrite elem_of_cons, Hr. by_thread j i; simpl; naive_solver.
  - intros j. rewrite elem_of_cons, Hse. by_thread j i; simpl; naive_solver.
  - apply (regrade_ghost sc holder); [done|done|..|by left|done].
    + intros j. rewrite (go_lock _ _ _ _ Hg). by_thread j i; [by rewrite Hi|done].
    + done.
  - rewrite Es. apply regrade_sent; [done|by left|by left].
Qed.

Lemma core_take_settlement :
  lockable SettlementLock Write g = true -> batch (gs i) = NoBatch ->
  core_ok sc s ((i, (SettlementLock, Write)) :: g) log holder (<[i := set_batch Serving (gs i)]> gs).
Proof.
  intros Hfree Hi. rewrite lockable_spec in Hfree. destruct Hcore as [Hw Hr Hse Hg Hsn].
  assert (forall j, settles (batch (gs j)) = false) as Hno.
  { intros j. destruct (settles (batch (gs j))) eqn:E; [|done]. apply Hse in E. by destruct (Hfree j _ E). }
  assert (shown holder (<[i := set_batch Serving (gs i)]> gs) s = shown holder gs s) as Es.
  { unfold shown. f_equal. destruct holder as [j|]; [|done]. simpl. by_thread j i; done. }
  constructor.
  - intros j. rewrite elem_of_cons, <- Hw. naive_solver.
  - intros j. rewrite elem_of_cons, Hr. by_thread j i; simpl; naive_solver.
  - intros j. rewrite elem_of_cons, Hse. by_thread j i; simpl; [naive_solver|]. rewrite Hno. naive_solver.
  - apply (regrade_ghost sc holder); [done|done|..|by left|apply (go_knows _ _ _ _ Hg)].
    + intros j. rewrite (go_lock _ _ _ _ Hg). by_thread j i; done.
    + intros j m. by_thread j i; apply (go_readers _ _ _ _ Hg).
  - rewrite Es. apply regrade_sent; [done|by left|]. right. split; [by rewrite Hi|]. by right.
Qed.

(** The thread gives back the lock on the payments, and perhaps all it has. *)
Lemma core_release g' g1 :
  settled_own (own (gs i)) = true -> own g' = Out -> flight g' = flight (gs i) \/ flight g' = None ->
  batch g' = batch (gs i) \/ (settled_batch (batch (gs i)) = true /\ batch g' = NoBatch) ->
  (forall j e, j <> i -> (j, e) ∈ g1 <-> (j, e) ∈ g) -> (forall m, (i, (PaymentsLock, m)) ∉ g1) ->
  ((i, (SettlementLock, Write)) ∈ g1 <-> settles (batch g') = true) ->
  core_ok sc s g1 log (if decide (holder = Some i) then None else holder) (<[i := g']> gs).
Proof.
  intros Hso Ho Hf Hb Hothers Hown Hsettle. destruct Hcore as [Hw Hr Hse Hg Hsn].
  assert (shown (if decide (holder = Some i) then None else holder) (<[i := g']> gs) s = shown holder gs s) as Es.
  { unfold shown. f_equal. case_decide as Ed.
    - rewrite Ed. simpl. by destruct (own (gs i)).
    - destruct holder as [j|]; [|done]. simpl. rewrite fn_lookup_insert_ne by congruence. done. }
  constructor.
  - intros j. destruct (decide (j = i)) as [->|Hj].
    + split; [by intros ?%Hown|]. case_decide; congruence.
    + rewrite Hothers, Hw by done. case_decide; [split; congruence|done].
  - intros j. destruct (decide (j = i)) as [->|Hj].
    + rewrite fn_lookup_insert, Ho. split; [by intros ?%Hown|by intros [? ?]].
    + rewrite fn_lookup_insert_ne, Hothers by done. apply Hr.
  - intros j. destruct (decide (j = i)) as [->|Hj]; [by rewrite fn_lookup_insert|].
    rewrite fn_lookup_insert_ne, Hothers by done. apply Hse.
  - apply (regrade_ghost sc holder); [done|done|..|done|by rewrite Ho].
    + intros j. destruct (decide (j = i)) as [->|Hj].
      * rewrite fn_lookup_insert, Ho. simpl. case_decide; split; congruence.
      * rewrite fn_lookup_insert_ne, <- (go_lock _ _ _ _ Hg) by done. case_decide; [split; congruence|done].
    + intros j m. destruct (decide (j = i)) as [->|Hj]; [rewrite fn_lookup_insert; congruence|].
      rewrite fn_lookup_insert_ne by done. intros E. rewrite (go_readers _ _ _ _ Hg j m E). by case_decide.
  - rewrite Es. apply regrade_sent; [done|done|]. destruct Hb as [?|[? ?]]; [by left|right; auto].
Qed.

Lemma core_sent seq ids :
  batch (gs i) = Collected ids ->
  core_ok sc s g (log ++ [(seq, ids)]) holder (<[i := set_batch (Accepted seq ids) (gs i)]> gs).
Proof.
  intros Hi. destruct Hcore as [Hw Hr Hse Hg Hsn].
  assert (shown holder (<[i := set_batch (Accepted seq ids) (gs i)]> gs) s = shown holder gs s) as Es.
  { unfold shown. f_equal. destruct holder as [j|]; [|done]. simpl. by_thread j i; done. }
  constructor.
  - done.
  - intros j. rewrite Hr. by_thread j i; done.
  - intros j. rewrite Hse. by_thread j i; [by rewrite Hi|done].
  - apply (regrade_ghost sc holder); [done|done|..|by left|apply (go_knows _ _ _ _ Hg)].
    + intros j. rewrite (go_lock _ _ _ _ Hg). by_thread j i; done.
    + intros j m. by_thread j i; apply (go_readers _ _ _ _ Hg).
  - rewrite Es. by apply sent_accept.
Qed.

Lemma core_section s' g' : may s s' (gs i) g' -> core_ok sc s' g log holder (<[i := g']> gs).
Proof.
  intros Hmay. destruct Hcore as [Hw Hr Hse Hg Hsn]. constructor.
  - done.
  - intros j. rewrite Hr. by_thread j i; [|done]. by split; intros [m E]; exists m; apply (may_looking gs s s' i g' Hmay).
  - intros j. rewrite Hse. by_thread j i; [|done]. by rewrite (settles_same sc holder gs s s' i g' Hg Hmay).
  - by apply (section_ok sc holder gs s s').
  - by apply (sent_section sc holder gs s s').
Qed.
End lock_steps.

Definition pool_ok (sc : Scale) (p : Pool) : Prop :=
  exists holder gs, core_ok sc (pool_app p) (guards p) (sent p) holder gs /\
    forall i t, threads p !! i = Some t -> safe sc (gs i) t.

(** A thread goes on as [k], and gives back its locks if it has returned. *)
Lemma core_goes sc s g log holder gs i k ts :
  core_ok sc s g log holder gs -> safe sc (gs i) k -> is_Some (ts !! i) ->
  (forall j t, j <> i -> ts !! j = Some t -> safe sc (gs j) t) ->
  pool_ok sc (mkPool s (returned i k g) (<[i := k]> ts) log).
Proof.
  intros Hc Hk Hi Hts. assert (<[i := k]> ts !! i = Some k) as Hki
    by (apply list_lookup_insert_eq; by apply lookup_lt_is_Some).
  destruct (is_done k) eqn:Ed.
  - exists (if decide (holder = Some i) then None else holder), (<[i := idle]> gs). split; simpl.
    + destruct k as [r| | | |]; [|done..]. destruct Hk as [Ho Hb].
      eapply core_release; [exact Hc|done|done|by right|by right|..]; unfold returned; simpl.
      * intros j e Hj. rewrite list_elem_of_filter. naive_solver.
      * intros m [[] _]%list_elem_of_filter. done.
      * split; [|done]. by intros [[] _]%list_elem_of_filter.
    + intros j t. by_thread j i; [|rewrite list_lookup_insert_ne by done; by apply Hts].
      rewrite Hki. intros [= <-]. by destruct k.
  - exists holder, gs. split; simpl; [unfold returned; by rewrite Ed|].
    intros j t. destruct (decide (j = i)) as [->|Hj]; [rewrite Hki; by intros [= <-]|].
    rewrite list_lookup_insert_ne by done. by apply Hts.
Qed.

Lemma pool_step_ok sc p i p' : pool_ok sc p -> pool_step i p = Some p' -> pool_ok sc p'.
Proof.
  intros (holder & gs & Hc & Hs) (k & s & g & log & Hstep & ->)%pool_step_inv.
  destruct (stepped_thread _ _ _ _ _ _ Hstep) as [t0 Et0].
  assert (forall holder' g', core_ok sc s g log holder' (<[i := g']> gs) -> safe sc g' k ->
    pool_ok sc (mkPool s (returned i k g) (<[i := k]> (threads p)) log)) as Hgo.
  { intros holder' g' Hc' Hk. eapply core_goes; [exact Hc'|by rewrite fn_lookup_insert|by rewrite Et0|].
    intros j t Hj Et. rewrite fn_lookup_insert_ne by done. by apply Hs. }
  assert (core_ok sc s g log holder gs -> safe sc (gs i) k ->
    pool_ok sc (mkPool s (returned i k g) (<[i := k]> (threads p)) log)) as Hsame.
  { intros Hc' Hk. eapply core_goes; [exact Hc'|done|by rewrite Et0|]. intros j t _. by apply Hs. }
  destruct Hstep as [l m k Et El|l k Et|seq ids k Et|u k Et]; pose proof (Hs i _ Et) as Hi.
  - destruct l; [|destruct m|..]; cbn [safe] in Hi;
      try (apply Hsame; [|exact Hi]; eapply core_guards; [exact Hc|]; intros j e He; rewrite elem_of_cons; naive_solver).
    + destruct Hi as (-> & Hb & Hk). eapply Hgo; [by apply core_take_settlement|exact Hk].
    + destruct Hi as [Ho Hk]. eapply Hgo; [by apply core_take_read|apply Hk].
    + destruct Hi as [Ho Hk]. eapply Hgo; [by eapply core_take_write|exact Hk].
  - destruct l; cbn [safe] in Hi; [done| |
      apply Hsame; [|exact Hi]; eapply core_guards; [exact Hc|]; intros j [l' m'] He; rewrite list_elem_of_filter; naive_solver..].
    destruct Hi as [Ho Hk]. eapply Hgo; [|exact Hk].
    eapply core_release; [exact Hc|done|done|by left|by left|..].
    + intros j e Hj. rewrite list_elem_of_filter. naive_solver.
    + intros m [Hn _]%list_elem_of_filter. naive_solver.
    + rewrite list_elem_of_filter. simpl. rewrite (pc_settling _ _ _ _ _ _ Hc). naive_solver.
  - destruct Hi as [Hb Hk]. eapply Hgo; [by apply core_sent|exact Hk].
  - pose proof (pc_ghost _ _ _ _ _ _ Hc) as Hg.
    destruct (Hi (pool_app p)) as (g' & Hmay & Hk); [apply (go_knows _ _ _ _ Hg)| |].
    { intros id q Eo. pose proof (go_book _ _ _ _ Hg) as Hb.
      assert (holder = Some i) as Eh by (apply (go_lock _ _ _ _ Hg); by rewrite Eo).
      unfold shown in Hb. rewrite Eh in Hb. simpl in Hb. by rewrite Eo in Hb. }
    eapply Hgo; [by eapply core_section|exact Hk].
Qed.

(** Requests that start when no other runs. *)
Lemma pool_of_ok sc s ps : book_inv sc (book s) -> Forall (safe sc idle) ps -> pool_ok sc (pool_of s ps).
Proof.
  intros Hb Hs. exists None, (fun _ => idle). split; simpl.
  - constructor; simpl.
    + intros i. split; [by intros ?%elem_of_nil|done].
    + intros i. split; [by intros ?%elem_of_nil|by intros [? ?]].
    + intros i. split; [by intros ?%elem_of_nil|done].
    + by constructor.
    + constructor; try done; [constructor|by intros ? ?%elem_of_nil|by intros ? ? ? ?%elem_of_nil].
  - intros i t Et. rewrite Forall_forall in Hs. apply Hs. by eapply list_elem_of_lookup_2.
Qed.
