(* ===== verification/ApiThreadsProps.v ===== *)
(** * Properties of concurrent requests

    Whatever the schedule: the requests end, the payments are backed, what is settled is
    settled once and marked with its batch, and requests that run alone are the handlers
    of [Api]. *)

From S2P Require Import Bytes Error Amount Account Transfer Ledger LedgerStep LedgerInv Merkle MerkleProps Codec Settle SettleInv SettleFormat SettleProps Payment Rail Api PaymentBook ApiInv ApiProps ApiThreads ApiLocks ApiPool.
From stdpp Require Import list strings gmap functions relations.
From S2P Require Import Prelude Api ApiThreads.
#[local] Open Scope N_scope.

(** ** The handlers keep to it *)

Definition may_return (g : Ghost) : bool := settled_own (own g) && settled_batch (batch g).

Lemma safe_done {A} sc g (r : result (failure HttpError) A) : may_return g = true -> safe sc g (Done r).
Proof. intros [? ?]%andb_prop. done. Qed.

Lemma safe_quiet {A B} sc g (m : app A) (k : A -> prog B) :
  Quiet m -> may_return g = true -> (forall s a, (m s).2 = Ok a -> safe sc g (k a)) -> safe sc g (section m k).
Proof.
  intros Hq Ho Hk s _ _. exists g. split; [apply may_quiet, Hq|].
  destruct (m s).2 eqn:E; [by eapply Hk|by apply safe_done].
Qed.

Lemma safe_modify {B} sc g f (k : unit -> prog B) :
  (forall s, book (f s) = book s) -> safe sc g (k tt) -> safe sc g (section (st_modify f) k).
Proof. intros Hf Hk s _ _. exists g. split; [apply may_quiet, Hf|done]. Qed.

(** Locks that protect neither payments nor settlement. *)
Definition plain_lock (l : Lock) : bool := match l with PaymentsLock | SettlementLock => false | _ => true end.

Lemma safe_take {A} sc g l m (k : prog A) : plain_lock l = true -> safe sc g k -> safe sc g (Take l m k).
Proof. by destruct l. Qed.
Lemma safe_drop {A} sc g l (k : prog A) : plain_lock l = true -> safe sc g k -> safe sc g (Drop l k).
Proof. by destruct l. Qed.
Lemma safe_locking {A B} sc g l mode (m : app A) (k : A -> prog B) :
  plain_lock l = true -> safe sc g (section m (fun a => Drop l (k a))) -> safe sc g (locking l mode m k).
Proof. intros Hl Hk. by apply safe_take. Qed.

(** Looking at the payments. *)
Lemma safe_look {A B} sc f b (m : app A) (k : A -> prog B) :
  Quiet m -> settled_batch b = true -> (forall a, safe sc (mkGhost Out f b) (k a)) ->
  safe sc (mkGhost Out f b) (locking PaymentsLock Read m k).
Proof.
  intros Hq Hb Hk. split; [done|]. intros m0. apply safe_quiet; [done|by rewrite <- Hb|]. intros s a _. split; [done|apply Hk].
Qed.

(** Placing a hold. *)
Lemma safe_hold {B} sc o b t p c (k : result (failure HttpError) unit -> prog B) :
  entered t p -> (forall e, safe sc (mkGhost o None b) (k (Err (Fails e)))) ->
  safe sc (mkGhost o (Some p) b) (k (Ok tt)) ->
  safe sc (mkGhost o None b) (attempt (ledger_op (create_pending t) c id) k).
Proof.
  intros Hen He Hk s _ _. pose proof (create_pending_respects t (app_ledger s)) as Hr. unfold ledger_op.
  destruct (create_pending t (app_ledger s)) as [l [[]|e]]; simpl in *.
  - exists (mkGhost o (Some p) b). split; [by eapply may_hold|done].
  - exists (mkGhost o None b). subst. split; [by apply may_quiet|apply He].
Qed.

(** Entering the payment in flight. *)
Lemma safe_enter {B} sc p (k : unit -> prog B) :
  safe sc idle (k tt) -> safe sc (mkGhost Out (Some p) NoBatch) (locking PaymentsLock Write (insert_payment (pay_id p) p) k).
Proof.
  intros Hk. split; [done|]. intros s _ _. exists (mkGhost Reading None NoBatch).
  split; [by apply may_enter|]. by split.
Qed.

(** Ending the hold of the payment in flight. *)
Lemma safe_bring_post {B} sc o b p h q ts (k : unit -> prog B) :
  settled_own o = true -> settled_batch b = true -> pay_state p = Authorized -> pending_transfer_id p = Some h ->
  safe sc (mkGhost o (Some (set_state Captured (Some q) ts p)) b) (k tt) ->
  safe sc (mkGhost o (Some p) b) (section (ledger_op (post_pending h q (pay_amount p) ts) INTERNAL_SERVER_ERROR id) k).
Proof.
  intros Ho Hb Ha Hh Hk s _ _. pose proof (post_pending_respects h q (pay_amount p) ts (app_ledger s)) as Hr. unfold ledger_op.
  destruct (post_pending _ _ _ _ (app_ledger s)) as [l [[]|e]]; simpl in *.
  - eexists. split; [|exact Hk]. apply may_bring; [done|]. split; [done|]. exists h. split; [done|]. left. eauto.
  - exists (mkGhost o (Some p) b). subst. split; [by apply may_quiet|done].
Qed.

Lemma safe_bring_void {B} sc o b p h ts (k : unit -> prog B) :
  settled_own o = true -> settled_batch b = true -> pay_state p = Authorized -> pending_transfer_id p = Some h ->
  safe sc (mkGhost o (Some (set_state PVoided (posted_transfer_id p) ts p)) b) (k tt) ->
  safe sc (mkGhost o (Some p) b) (section (ledger_op (void_pending h ts) INTERNAL_SERVER_ERROR id) k).
Proof.
  intros Ho Hb Ha Hh Hk s _ _. unfold ledger_op.
  destruct (void_pending h ts (app_ledger s)) as [l [[]|e]] eqn:E; apply void_pending_respects in E; simpl in *.
  - destruct E as (t & _ & Hr). eexists. split; [|exact Hk]. apply may_bring; [done|]. split; [done|]. exists h.
    split; [done|]. right. eauto.
  - exists (mkGhost o (Some p) b). subst. split; [by apply may_quiet|done].
Qed.

(** Reading a payment, changing the ledger, writing the payment. *)
Abbreviation working := (fun o => mkGhost o None NoBatch).

Lemma safe_capture {B} sc id p h q ts (k : Payment -> prog B) :
  pending_transfer_id p = Some h -> (forall p', safe sc (working Reading) (k p')) ->
  safe sc (working (Working id p)) (capture_found id p h q ts k).
Proof.
  intros Hh Hk. apply safe_locking; [done|]. intros s Hs Hb. specialize (Hb id p eq_refl). simpl in Hs.
  pose proof (post_pending_respects h q (pay_amount p) ts (app_ledger s)) as Hr. unfold ledger_op.
  destruct (post_pending _ _ _ _ (app_ledger s)) as [l [[]|e]]; simpl in *.
  - pose proof (posting_authorized sc (book s) id p h _ _ _ _ Hb Hs Hh Hr) as Ha.
    exists (working (Changed id (set_state Captured (Some q) ts p))). split.
    + apply may_end; [done|]. split; [done|]. exists h. split; [done|]. left. eauto.
    + unfold transition_to_captured. rewrite bool_decide_eq_true_2 by done. intros s1 _ _. exists (working Reading).
      split; [by apply may_write|apply Hk].
  - exists (working (Working id p)). subst. split; [by apply may_quiet|done].
Qed.

Lemma safe_void {B} sc id p h ts (k : Payment -> prog B) :
  pending_transfer_id p = Some h -> (forall p', safe sc (working Reading) (k p')) ->
  safe sc (working (Working id p))
    (locking LedgerLock Write (ledger_op (void_pending h ts) INTERNAL_SERVER_ERROR Datatypes.id) (fun _ =>
     match transition_to_voided ts p with
     | Err e => Done (Err (Fails (mkHttp BAD_REQUEST (OfPayment e))))
     | Ok p => section (insert_payment id p) (fun _ => k p)
     end)).
Proof.
  intros Hh Hk. apply safe_locking; [done|]. intros s Hs Hb. specialize (Hb id p eq_refl). simpl in Hs. unfold ledger_op.
  destruct (void_pending h ts (app_ledger s)) as [l [[]|e]] eqn:E; apply void_pending_respects in E; simpl in *.
  - destruct E as (t & _ & Hr). pose proof (voiding_authorized sc (book s) id p h _ _ _ Hb Hs Hh Hr) as Ha.
    exists (working (Changed id (set_state PVoided (posted_transfer_id p) ts p))). split.
    + apply may_end; [done|]. split; [done|]. exists h. split; [done|]. right. eauto.
    + unfold transition_to_voided. rewrite bool_decide_eq_true_2 by done. intros s1 _ _. exists (working Reading).
      split; [by apply may_write|apply Hk].
  - exists (working (Working id p)). subst. split; [by apply may_quiet|done].
Qed.

Lemma safe_read {B} sc id (k : Payment -> prog B) :
  (forall p, safe sc (working (Working id p)) (k p)) -> safe sc (working Reading) (section (get_payment id) k).
Proof.
  intros Hk s _ _. unfold get_payment. destruct (payments s !! id) as [p|] eqn:E; simpl.
  - exists (working (Working id p)). split; [by apply may_read|apply Hk].
  - exists (working Reading). split; [by apply may_quiet|done].
Qed.

(** A deposit. *)
Lemma safe_deposit {B} sc g t c (k : unit -> prog B) :
  may_return g = true -> pending_id t = None -> safe sc g (k tt) ->
  safe sc g (section (ledger_op (create_transfer t) c id) k).
Proof.
  intros Hg Ht Hk s _ _. pose proof (create_transfer_respects t (app_ledger s)) as Hr. unfold ledger_op.
  destruct (create_transfer t (app_ledger s)) as [l [[]|e]]; simpl in *.
  - exists g. split; [by eapply may_deposit|done].
  - exists g. subst. split; [by apply may_quiet|by apply andb_prop].
Qed.

Lemma or_panic_value {A} (o : option A) (s : App) (a : A) : (or_panic (E := HttpError) o s).2 = Ok a -> o = Some a.
Proof. unfold or_panic. by destruct o; intros [= <-]. Qed.

Lemma pending_of_value p s h : (pending_of p s).2 = Ok h -> pending_transfer_id p = Some h.
Proof. unfold pending_of. simpl. by destruct (pending_transfer_id p); intros [= <-]. Qed.

Ltac branch E := match goal with |- safe _ _ (match ?x with _ => _ end) => destruct x eqn:E end.
(** A section that leaves the book alone, and locks that are not watched. *)
Ltac quiet := apply safe_quiet; [typeclasses eauto|done|intros ? ? ?].
Ltac pass :=
  first [ apply safe_locking; [reflexivity|] | apply safe_take; [reflexivity|] | apply safe_drop; [reflexivity|]
        | apply safe_modify; [done|] | quiet ].
Ltac panics := repeat match goal with H : (or_panic _ _).2 = Ok _ |- _ => apply or_panic_value in H end.

Section handlers.
Context (sha256 : bytes -> Hash32) (display : ProofError -> string) (display_hex : HexError -> string).
Context (transfer_bytes : Transfer -> result string bytes).
Context (program_error_string : ProgramError -> string).
Context (settlement_error_string : SettlementProgramError -> string).
Context (hmac_sha256 : bytes -> bytes -> Hash32).
Context `{Borsh, Runtime, ProofBytes, Json}.
Context (sc : Scale).

Lemma rejected_safe {A} key e : safe sc idle (rejected (A := A) key e).
Proof. unfold rejected. by repeat pass. Qed.

Lemma authorize_safe req : safe sc idle (authorize_thread req).
Proof.
  unfold authorize_thread. do 3 pass. branch Ec; [done|]. do 6 pass. branch Et; [|apply rejected_safe].
  apply new_pending_ok in Et as ->. panics. pass.
  match goal with |- context [new_authorized ?a ?b ?c ?d ?e ?f ?g] => apply (safe_hold _ _ _ _ (new_authorized a b c d e f g)) end;
    [done|intros e; apply rejected_safe|]. cbv zeta. do 2 pass. apply safe_enter.
  branch Ej; [|done]. by repeat pass.
Qed.

Lemma capture_safe id : safe sc idle (capture_thread id).
Proof.
  split; [done|]. apply safe_read. intros p. do 3 pass. apply safe_capture; [by eapply pending_of_value|done].
Qed.

Lemma void_safe id : safe sc idle (void_thread id).
Proof.
  split; [done|]. apply safe_read. intros p. do 2 pass. apply safe_void; [by eapply pending_of_value|done].
Qed.

Lemma deposit_safe id x : safe sc idle (deposit_thread id x).
Proof.
  unfold deposit_thread. cbv zeta. do 3 pass. branch Et; [|done]. apply new_immediate_ok in Et as ->. pass.
  apply safe_deposit; [done|done|]. by repeat pass.
Qed.

Lemma event_safe pl : safe sc idle (event_thread pl).
Proof.
  unfold event_thread. case_decide; [|case_decide; [|done]].
  - do 3 pass. branch Et; [|done]. apply new_pending_ok in Et as ->. panics. pass.
    match goal with |- context [new_authorized ?a ?b ?c ?d ?e ?f ?g] => apply (safe_hold _ _ _ _ (new_authorized a b c d e f g)) end;
      [done|done|]. pass.
    match goal with |- safe _ _ (locking _ _ (insert_payment _ ?p) _) => apply (safe_enter _ p) end; done.
  - split; [done|]. intros s _ _. simpl. destruct (payments s !! wh_payment_id pl) as [p|] eqn:E.
    + destruct (pending_transfer_id p) as [h|] eqn:Eh; [|exists (working Reading); split; [by apply may_quiet|done]].
      exists (working (Working (wh_payment_id pl) p)). split; [by apply may_read|]. pass. by apply safe_capture.
    + exists (working Reading). split; [by apply may_quiet|done].
Qed.

Lemma webhook_safe sig body : safe sc idle (webhook_thread hmac_sha256 sig body).
Proof. unfold webhook_thread. do 8 pass. apply event_safe. Qed.

(** Marking the batch that was accepted. *)
Lemma settled_safe ts sub :
  safe sc (mkGhost Out None (Collected (tr_id <$> ts))) (settled_thread ts sub).
Proof.
  split; [done|]. do 2 pass. split; [done|]. intros s _ _. exists (mkGhost Reading None Serving).
  split; [by apply may_mark|]. split; [done|]. by repeat pass.
Qed.

Lemma submit_commit_quiet seq ts mmr total pda :
  Quiet (submit_commit sha256 display program_error_string settlement_error_string seq ts mmr total pda).
Proof.
  intros s. unfold submit_commit. cbv zeta. destruct (mbind _ _) as [ix|e]; [|done].
  by destruct (process _ _ _ _ _ _) as [w r].
Qed.

Lemma settlement_safe rail :
  safe sc idle (settlement_thread sha256 display transfer_bytes program_error_string settlement_error_string rail).
Proof.
  split; [done|]. split; [done|]. split; [done|]. intros m s Hs _. exists (mkGhost (Looking m) None Serving).
  split; [by apply may_quiet|]. simpl in Hs. simpl snd. cbv iota. pass. intros s1 Hs1 _. simpl in Hs1.
  exists (mkGhost (Looking m) None (Collected (tr_id <$> batch_transfers s1))). split; [by apply may_collect|].
  assert (filter (fun t => tr_id t ∈ posted_ids s) (btree_values (transfers (app_ledger s1))) = batch_transfers s1) as Eb.
  { unfold batch_transfers, posted_ids. by rewrite Hs, Hs1. }
  cbn [st_reads snd]. rewrite Eb. pass. split; [done|]. case_bool_decide; [done|]. case_bool_decide.
  - do 2 pass. apply settled_safe.
  - do 4 pass. unfold submit_thread. pass. branch Ep. branch Ep'. pass.
    apply safe_quiet; [apply submit_commit_quiet|done|]. intros ? sub _. repeat pass. apply settled_safe.
Qed.

Lemma reconciliation_safe : safe sc idle reconciliation_thread.
Proof. split; [done|]. intros m. by repeat pass. Qed.

Lemma drift_safe d : safe sc idle (drift_thread d).
Proof. unfold drift_thread. pass. apply reconciliation_safe. Qed.

Lemma dashboard_safe : safe sc idle dashboard_thread.
Proof. unfold dashboard_thread. apply safe_look; [typeclasses eauto|done|]. intros ps. by repeat pass. Qed.

Lemma seed_deposit_safe {B} c (k : prog B) : safe sc idle k -> safe sc idle (seed_deposit_thread c k).
Proof.
  intros Hk. unfold seed_deposit_thread. do 3 pass. branch Et; [|done]. apply new_immediate_ok in Et as ->.
  by apply safe_deposit.
Qed.

Lemma seed_target_safe {B} target p h (k : Payment -> prog B) :
  pay_state p = Authorized -> pending_transfer_id p = Some h ->
  (forall p', pay_id p' = pay_id p -> safe sc (mkGhost Out (Some p') NoBatch) (k p')) ->
  safe sc (mkGhost Out (Some p) NoBatch) (seed_target_thread target h (pay_amount p) p k).
Proof.
  intros Ha Hh Hk. destruct target; cbn [seed_target_thread]; [|by apply Hk|].
  - do 3 pass. apply safe_bring_post; [done..|]. pass. unfold transition_to_captured.
    rewrite bool_decide_eq_true_2 by done. by apply Hk.
  - do 2 pass. apply safe_bring_void; [done..|]. pass. unfold transition_to_voided.
    rewrite bool_decide_eq_true_2 by done. by apply Hk.
Qed.

Lemma seed_safe {B} seed (k : prog B) : safe sc idle k -> safe sc idle (seed_thread seed k).
Proof.
  intros Hk. destruct seed as [[[[cust merch] amt] fee] target]. unfold seed_thread. do 5 pass.
  branch Et; [|done]. apply new_pending_ok in Et as ->. panics. pass.
  match goal with |- context [new_authorized ?a ?b ?c ?d ?e ?f ?g] => set (p := new_authorized a b c d e f g) end.
  apply (safe_hold _ _ _ _ p); [done|done|]. pass.
  match goal with |- context [seed_target_thread _ ?h _ _ _] => apply (seed_target_safe _ p h) end; [done|done|].
  intros p' Hp'. change (pay_id p) with (pay_id p) in Hp'. simpl in Hp'. rewrite <- Hp'. by apply safe_enter.
Qed.

Lemma quick_seed_safe : safe sc idle quick_seed_thread.
Proof.
  unfold quick_seed_thread. pass. generalize [101; 102; 103]. intros cs. induction cs as [|c cs IH].
  - cbn [each]. pass. generalize (Done (A := N) (Ok (N.of_nat (length seeds)))) (safe_done (A := N) sc idle (Ok (N.of_nat (length seeds))) eq_refl).
    intros k Hk. induction seeds as [|x l IH]; [exact Hk|]. cbn [each]. by apply seed_safe.
  - cbn [each]. by apply seed_deposit_safe.
Qed.

Lemma receipt_safe {B} tid (k : result (failure RailError) TransferReceipt -> prog B) :
  (forall r, safe sc idle (k r)) -> safe sc idle (receipt_thread sha256 transfer_bytes tid k).
Proof.
  intros Hk. unfold receipt_thread. do 2 pass. branch El. branch Eb; [pass; apply Hk|].
  branch Ep; [|pass; apply Hk]. branch Ei. do 4 pass. apply Hk.
Qed.

Lemma verify_safe id : safe sc idle (verify_thread sha256 display_hex transfer_bytes id).
Proof.
  unfold verify_thread. apply safe_look; [typeclasses eauto|done|]. intros p. pass. branch Epo; [|done].
  apply receipt_safe. intros [r|[|e]]; [|done|by repeat pass]. branch Ev; [by repeat pass|done].
Qed.

Lemma verify_receipt_safe r : safe sc idle (verify_receipt_thread sha256 display_hex r).
Proof. unfold verify_receipt_thread. branch E; [by repeat pass|done]. Qed.

Lemma safe_answering {A} (f : A -> Answer) g p : safe sc g p -> safe sc g (answering f p).
Proof.
  revert g. induction p as [r|l m k IH|l k IH|seq ids k IH|u k IH]; intros g Hp; [done|..].
  - destruct l; [|destruct m|..]; simpl in *; naive_solver.
  - destruct l; simpl in *; naive_solver.
  - simpl in *. naive_solver.
  - intros s Hs Hb. destruct (Hp s Hs Hb) as (g' & Hm & Hk). exists g'. split; [done|by apply IH].
Qed.

Abbreviation thread := (thread_of sha256 display display_hex transfer_bytes program_error_string settlement_error_string hmac_sha256).

Lemma thread_safe r : safe sc idle (thread r).
Proof.
  destruct r; apply safe_answering; auto using authorize_safe, capture_safe, void_safe, deposit_safe,
    webhook_safe, settlement_safe, reconciliation_safe, drift_safe, quick_seed_safe, dashboard_safe, verify_safe,
    verify_receipt_safe.
Qed.

(** ** Any schedule *)

Abbreviation routed := (route sha256 display display_hex transfer_bytes program_error_string
  settlement_error_string hmac_sha256).

Lemma threads_ok s rs : book_inv sc (book s) -> pool_ok sc (pool_of s (thread <$> rs)).
Proof. intros Hb. apply pool_of_ok; [done|]. apply Forall_fmap, Forall_true. apply thread_safe. Qed.

Lemma threads_table s rs : table_ok (pool_of s (thread <$> rs)).
Proof. apply table_of, Forall_fmap, Forall_true. apply thread_disciplined. Qed.

Lemma threads_within s rs : Forall2 within (steps_of <$> rs) (threads (pool_of s (thread <$> rs))).
Proof. simpl. induction rs as [|r rs IH]; [constructor|]. constructor; [apply thread_within|apply IH]. Qed.

Lemma discard_run {A} (f : A -> Answer) (m : app A) s :
  (m s).1 = (discard m s).1 /\ (fun _ => tt) <$> (f <$> (m s).2) = (discard m s).2.
Proof. unfold discard, st_bind. by destruct (m s) as [s' [a|e]]. Qed.

(** A request whose thread is not disturbed does what its handler does, in state and in
    outcome. *)
Theorem undisturbed_threads r s :
  (alone (thread r) s).1 = (routed r s).1 /\ (fun _ => tt) <$> (alone (thread r) s).2 = (routed r s).2.
Proof.
  destruct r; cbn [thread_of]; rewrite alone_answering; cbn [fst snd route];
    rewrite ?authorize_alone, ?capture_alone, ?void_alone, ?deposit_alone, ?webhook_alone, ?settlement_alone,
      ?reconciliation_alone, ?drift_alone, ?quick_seed_alone, ?dashboard_alone, ?verify_alone, ?verify_receipt_alone;
    try apply discard_run.
  destruct (handle_webhook _ _ _ _) as [s' [[]|e]]; done.
Qed.
End handlers.

Section schedules.
Context (sha256 : bytes -> Hash32) (display : ProofError -> string) (display_hex : HexError -> string).
Context (transfer_bytes : Transfer -> result string bytes).
Context (program_error_string : ProgramError -> string).
Context (settlement_error_string : SettlementProgramError -> string).
Context (hmac_sha256 : bytes -> bytes -> Hash32).
Context `{Borsh, Runtime, ProofBytes, Json}.
Abbreviation served_state := (served sha256 display display_hex transfer_bytes program_error_string
  settlement_error_string hmac_sha256).
Abbreviation thread := (thread_of sha256 display display_hex transfer_bytes program_error_string settlement_error_string hmac_sha256).

Lemma reached_ok s rs n p :
  served_state s -> nsteps pool_goes n (pool_of s (thread <$> rs)) p -> pool_ok Scale_usdc p.
Proof.
  intros Hs Hn. apply served_inv in Hs. eapply goes_keep; [|by apply threads_ok|exact Hn].
  intros p0 i p1. apply pool_step_ok.
Qed.

(** C21: however concurrent requests interleave, whenever no handler has the payments locked for
    writing every payment is backed by its own hold and settlement in the ledger. *)
Theorem concurrent_backed s rs n p :
  served_state s -> nsteps pool_goes n (pool_of s (thread <$> rs)) p ->
  (forall i, (i, (PaymentsLock, Write)) ∉ guards p) ->
  (forall id q, payments (pool_app p) !! id = Some q -> pay_id q = id /\ backed (app_ledger (pool_app p)) q) /\
  (forall i j q q', payments (pool_app p) !! i = Some q -> payments (pool_app p) !! j = Some q' ->
     pending_transfer_id q = pending_transfer_id q' -> i = j).
Proof.
  intros Hs Hn Hfree. destruct (reached_ok _ _ _ _ Hs Hn) as (holder & gs & Hc & _).
  pose proof (go_book _ _ _ _ (pc_ghost _ _ _ _ _ _ Hc)) as [_ Hk Hb Hh].
  rewrite (unwritten _ _ _ _ _ _ Hc Hfree) in *. simpl in *. split; [eauto|done].
Qed.

(** C24: concurrent requests of every kind all return.  Each takes a bounded number of steps, and as
    long as one has not returned, some request's next step takes no lock or a lock that no
    request has: the locks never deadlock, whichever of the waiting readers and writers they
    prefer.  When all have returned no lock is held. *)
Theorem concurrent_requests_end s rs n p :
  nsteps pool_goes n (pool_of s (thread <$> rs)) p ->
  (n <= sum_list (steps_of <$> rs))%nat /\
  ((Forall (fun t => is_done t = true) (threads p) /\ guards p = []) \/
   exists i, unhindered i p /\ exists p', pool_step i p = Some p').
Proof.
  intros Hn. split.
  - eapply goes_bounded; [apply threads_within|exact Hn].
  - assert (table_ok p) as Hp.
    { eapply goes_keep; [|apply threads_table|exact Hn]. intros p0 i p1. apply table_step. }
    destruct (table_progress p Hp) as [?|[i Hi]]; [by left|right]. exists i. split; [done|]. by apply unhindered_goes.
Qed.

(** C22: however settlements interleave with each other and with other requests, no transfer is
    accepted by a rail twice, only transfers of the ledger are, and once no settlement runs
    every payment captured by a transfer that was accepted is marked with the number of the
    batch it was accepted in. *)
Theorem concurrent_settles_once s rs n p :
  served_state s -> nsteps pool_goes n (pool_of s (thread <$> rs)) p ->
  NoDup (concat (sent p).*2) /\
  (forall q, q ∈ concat (sent p).*2 -> is_Some (transfers (app_ledger (pool_app p)) !! q)) /\
  ((forall i, ((i, (SettlementLock, Write)) ∉ guards p) /\ ((i, (PaymentsLock, Write)) ∉ guards p)) ->
   forall seq ids q id pay, (seq, ids) ∈ sent p -> q ∈ ids ->
     payments (pool_app p) !! id = Some pay -> posted_transfer_id pay = Some q ->
     settlement_batch_seq pay = Some seq).
Proof.
  intros Hs Hn. destruct (reached_ok _ _ _ _ Hs Hn) as (holder & gs & Hc & _).
  pose proof (pc_sent _ _ _ _ _ _ Hc) as [Hnd Hk Hm _ _ _ _].
  split_and!; [done|done|]. intros Hfree seq ids q id pay Hin Hq Hp Hpo.
  destruct (Hm seq ids q Hin Hq) as [Hb|[i Hi]].
  - rewrite (unwritten _ _ _ _ _ _ Hc (fun i => proj2 (Hfree i))) in Hb. by eapply Hb.
  - destruct (Hfree i) as [[] _]. apply (pc_settling _ _ _ _ _ _ Hc). by rewrite Hi.
Qed.
End schedules.

(** ** Worked schedules *)

Section worked.
#[local] Existing Instance borsh_le.
#[local] Existing Instance toy_runtime.
#[local] Existing Instance varint_proof.
#[local] Existing Instance toy_json.

Definition toy_thread : Request -> prog Answer :=
  thread_of toy_hash toy_display toy_hex toy_transfer_bytes toy_text toy_settle_text toy_hmac.
Definition toy_pool (rs : list Request) : Pool := pool_of toy_app (toy_thread <$> rs).

(** Two captures of one payment, a void of it, an authorisation, two settlements, a report and
    a verification: the authorisation first, the others in turns. *)
Definition toy_requests : list Request :=
  [Capture 5001; Capture 5001; Void 5001; Authorize (mkAuthorize 1 103 70 0 "order-4");
   SettlementBatch None; SettlementBatch None; Reconciliation; PaymentVerify 5001].
Definition in_turns (k n : nat) : list nat := concat (replicate n (seq 0 k)).
Definition toy_schedule : list nat := replicate 30 3%nat ++ in_turns 8 80.
Definition toy_finished : Pool := run_schedule toy_schedule (toy_pool toy_requests).

(** The answers of a finished pool: whether each request succeeded. *)
Definition outcomes (p : Pool) : list (option bool) :=
  (fun t => match t with Done r => Some (is_ok r) | _ => None end) <$> threads p.

Lemma toy_goes rs sched : exists n, nsteps pool_goes n (toy_pool rs) (run_schedule sched (toy_pool rs)).
Proof. apply schedule_goes. Qed.

Lemma toy_unlocked i e : (i, e) ∉ guards toy_finished.
Proof. assert (guards toy_finished = []) as -> by (vm_compute; reflexivity). apply not_elem_of_nil. Qed.

Lemma concurrent_backed_witness :
  map_to_list (pay_state <$> payments (pool_app toy_finished)) =
    [(5002, PVoided); (5000, Captured); (5001, Captured); (5003, Authorized)] /\
  (forall id q, payments (pool_app toy_finished) !! id = Some q ->
     pay_id q = id /\ backed (app_ledger (pool_app toy_finished)) q).
Proof.
  split; [vm_compute; reflexivity|]. destruct (toy_goes toy_requests toy_schedule) as [n Hn].
  apply (concurrent_backed toy_hash toy_display toy_hex toy_transfer_bytes toy_text toy_settle_text toy_hmac
    toy_app toy_requests n toy_finished); [apply toy_served|exact Hn|intros i; apply toy_unlocked].
Defined.

(** One batch of two transfers, which are the captures of two payments. *)
Lemma concurrent_settles_once_witness :
  sent toy_finished = [(1, [20001; 20006])] /\ NoDup (concat (sent toy_finished).*2) /\
  (forall id pay, payments (pool_app toy_finished) !! id = Some pay ->
     posted_transfer_id pay = Some 20006 -> settlement_batch_seq pay = Some 1).
Proof.
  assert (sent toy_finished = [(1, [20001; 20006])]) as Es by (vm_compute; reflexivity).
  destruct (toy_goes toy_requests toy_schedule) as [n Hn].
  destruct (concurrent_settles_once toy_hash toy_display toy_hex toy_transfer_bytes toy_text toy_settle_text toy_hmac
    toy_app toy_requests n toy_finished) as (Hnd & _ & Hm); [apply toy_served|exact Hn|].
  split_and!; [exact Es|exact Hnd|]. intros id pay. apply (Hm (fun i => conj (toy_unlocked i _) (toy_unlocked i _)) 1 [20001; 20006]).
  - rewrite Es. by apply list_elem_of_singleton.
  - by apply list_elem_of_further, list_elem_of_here.
Defined.

(** The first rounds, in which all requests are on their way, and the end. *)
Definition toy_halfway : Pool := run_schedule (in_turns 8 7) (toy_pool toy_requests).

Lemma concurrent_requests_end_witness :
  (exists i, unhindered i toy_halfway) /\
  outcomes toy_finished = [Some true; Some false; Some false; Some true; Some true; Some false; Some true; Some true].
Proof.
  split; [|vm_compute; reflexivity]. destruct (toy_goes toy_requests (in_turns 8 7)) as [n Hn].
  destruct (concurrent_requests_end toy_hash toy_display toy_hex toy_transfer_bytes toy_text toy_settle_text toy_hmac
    toy_app toy_requests n toy_halfway) as [_ [[_ Hg]|(i & Hi & _)]]; [exact Hn| |by exists i].
  assert (guards toy_halfway <> []) as Hno by (vm_compute; discriminate). by destruct (Hno Hg).
Defined.

(** Timestamps are taken before the ledger's lock: an authorisation that is overtaken by
    another between its timestamp and its hold is refused, with two customers that have
    nothing to do with each other, while one after the other both succeed. *)
Definition two_orders : list Request :=
  [Authorize (mkAuthorize 1 101 10 0 "order-5"); Authorize (mkAuthorize 2 102 10 0 "order-6")].

Example overtaken_is_refused :
  outcomes (run_schedule (replicate 6 0%nat ++ replicate 30 1%nat ++ replicate 30 0%nat) (toy_pool two_orders)) =
    [Some false; Some true] /\
  outcomes (run_schedule (replicate 30 0%nat ++ replicate 30 1%nat) (toy_pool two_orders)) = [Some true; Some true].
Proof. vm_compute. split; reflexivity. Qed.

(** A quick seed that is overtaken after it has placed a hold fails and leaves the hold behind:
    no payment names it, and what captures or voids a hold goes through a payment. *)
Definition orphans (s : App) : list N :=
  filter (fun h => Forall (fun pay => pending_transfer_id pay <> Some h) (payment_values s))
    (tr_id <$> filter (fun t => tr_state t = Pending) (btree_values (transfers (app_ledger s)))).

Example overtaken_seed_leaves_hold :
  let pool := toy_pool [QuickSeed; Authorize (mkAuthorize 1 101 10 0 "order-5")] in
  let overtaken := run_schedule (replicate 24 0%nat ++ replicate 30 1%nat ++ replicate 80 0%nat) pool in
  outcomes overtaken = [Some false; Some true] /\ orphans (pool_app overtaken) = [20008] /\
  orphans toy_app = [].
Proof. vm_compute. repeat split. Qed.

(** The view of the data gives the lock on the payments back before it looks at the ledger:
    a capture in between shows as drift, of the captured amount, although there is none
    before the capture and none after it. *)
Definition viewed_drift (p : Pool) : option Z :=
  match threads p !! 0%nat with
  | Some (Done (Ok (AData d))) => Some (drift (dd_reconciliation d))
  | _ => None
  end.

Example view_shows_phantom_drift :
  let pool := toy_pool [ViewDashboard; Capture 5001] in
  viewed_drift (run_schedule (replicate 3 0%nat ++ replicate 30 1%nat ++ replicate 30 0%nat) pool) = Some 40%Z /\
  viewed_drift (run_schedule (replicate 30 0%nat ++ replicate 30 1%nat) pool) = Some 0%Z /\
  viewed_drift (run_schedule (replicate 30 1%nat ++ replicate 30 0%nat) pool) = Some 0%Z.
Proof. vm_compute. repeat split. Qed.
End worked.
