(* ===== verification/ApiKeys.v ===== *)
(** * Idempotency keys under concurrency

    What a thread knows of one idempotency key: that it has taken the key, or the response
    that was stored for it.  Requests with the same key that run at the same time have one
    response between them. *)

From S2P Require Import Bytes Error Amount Account Transfer Ledger LedgerStep LedgerInv Merkle MerkleProps Codec Settle SettleInv SettleFormat SettleProps Payment Rail Api PaymentBook ApiInv ApiProps ApiThreads ApiLocks ApiPool ApiThreadsProps.
From stdpp Require Import list strings gmap functions relations.
From S2P Require Import Prelude Api ApiThreads.
#[local] Open Scope N_scope.

Section key.
Context (key : string).

Definition entry (s : App) : option IdempotencyStatus := idempotency s !! key.

Inductive Part : Type := Free | Holds | Stored (json : string).

Definition aware (x : Part) (e : option IdempotencyStatus) : Prop :=
  match x with Free => True | Holds => e = Some InProgress | Stored json => e = Some (Completed json) end.

(** What a section may do to the entry. *)
Inductive key_may (e e' : option IdempotencyStatus) : Part -> Part -> Prop :=
| km_keep x : e' = e -> key_may e e' x x
| km_take : e = None -> e' = Some InProgress -> key_may e e' Free Holds
| km_learn json : e = Some (Completed json) -> e' = e -> key_may e e' Free (Stored json)
| km_complete json : e' = Some (Completed json) -> key_may e e' Holds (Stored json)
| km_release : e' = None -> key_may e e' Holds Free.

(** A thread that keeps to this, and returns with [Q]. *)
Fixpoint keeps_key {A} (Q : result (failure HttpError) A -> Part -> Prop) (x : Part) (p : prog A) : Prop :=
  match p with
  | Done r => Q r x
  | Take _ _ k | Drop _ k | Sent _ _ k => keeps_key Q x k
  | Atomic u k => forall s, aware x (entry s) ->
      exists x', key_may (entry s) (entry (u s)) x x' /\ keeps_key Q x' (k s)
  end.

(** ** Pools *)

Record keys_ok (Qs : nat -> result (failure HttpError) Answer -> Part -> Prop) (p : Pool) (xs : nat -> Part) : Prop := {
  ko_aware : forall i, aware (xs i) (entry (pool_app p));
  ko_one : forall i j, xs i = Holds -> xs j = Holds -> i = j;
  ko_keeps : forall i t, threads p !! i = Some t -> keeps_key (Qs i) (xs i) t;
}.

(** A section of one thread leaves what the others know. *)
Lemma key_others e e' x x' y :
  key_may e e' x x' -> aware x e -> aware y e -> (x = Holds -> y = Holds -> False) ->
  aware y e' /\ (x' = Holds -> y = Holds -> False).
Proof.
  destruct 1 as [x -> | -> -> |json -> -> |json -> | ->]; destruct y as [| |json']; simpl; naive_solver.
Qed.

Lemma own_aware e e' x x' : key_may e e' x x' -> aware x e -> aware x' e'.
Proof. destruct 1 as [x -> | -> -> |json -> -> |json -> | ->]; naive_solver. Qed.

(** What a step makes of the entry and of the thread that goes. *)
Lemma step_keeps Q i p k s g log x t :
  stepped i p k s g log -> threads p !! i = Some t -> keeps_key Q x t -> aware x (entry (pool_app p)) ->
  exists x', key_may (entry (pool_app p)) (entry s) x x' /\ keeps_key Q x' k.
Proof.
  intros Hs Et Hk Ha. destruct Hs as [l m k Ht|l k Ht|seq ids k Ht|u k Ht]; rewrite Ht in Et; injection Et as <-;
    [exists x; split; [by apply km_keep|done]..|]. by apply Hk.
Qed.

Lemma keys_step Qs p xs i p' :
  keys_ok Qs p xs -> pool_step i p = Some p' -> exists xs', keys_ok Qs p' xs'.
Proof.
  intros [Ha Ho Hk] (k & s & g & log & Hs & ->)%pool_step_inv.
  assert (exists t, threads p !! i = Some t) as [t Et] by (destruct Hs; eauto).
  destruct (step_keeps _ _ _ _ _ _ _ _ _ Hs Et (Hk i t Et) (Ha i)) as (x' & Hm & Hx).
  assert (forall j, j <> i -> aware (xs j) (entry s) /\ (x' = Holds -> xs j = Holds -> False)) as Hoth.
  { intros j Hj. eapply key_others; [exact Hm|done|done|]. intros Ei Ej. destruct Hj. eauto. }
  exists (<[i := x']> xs). constructor; simpl.
  - intros j. destruct (decide (j = i)) as [->|Hj]; [rewrite fn_lookup_insert; by eapply own_aware|].
    rewrite fn_lookup_insert_ne by done. by apply Hoth.
  - intros j k'. destruct (decide (j = i)) as [->|Hj], (decide (k' = i)) as [->|Hk'];
      rewrite ?fn_lookup_insert, ?fn_lookup_insert_ne by done; [done|..|eauto].
    + intros Ex Ek. exfalso. by apply (proj2 (Hoth k' Hk')).
    + intros Ej Ex. exfalso. by apply (proj2 (Hoth j Hj)).
  - intros j u. destruct (decide (j = i)) as [->|Hj].
    + rewrite list_lookup_insert_eq by (by eapply lookup_lt_Some). intros [= <-]. by rewrite fn_lookup_insert.
    + rewrite list_lookup_insert_ne, fn_lookup_insert_ne by done. apply Hk.
Qed.

Lemma keys_goes Qs n p p' xs : keys_ok Qs p xs -> nsteps pool_goes n p p' -> exists xs', keys_ok Qs p' xs'.
Proof.
  intros Hp Hn. revert xs Hp. induction Hn as [|n p p1 p2 [i Hs] _ IH]; intros xs Hp; [eauto|].
  destruct (keys_step _ _ _ _ _ Hp Hs) as [xs1 Hp1]. eauto.
Qed.

(** ** Threads *)

Lemma keeps_section {A B} (Q : result (failure HttpError) B -> Part -> Prop) x (m : app A) (k : A -> prog B) :
  Frame entry m -> (forall e, Q (Err e) x) -> (forall a, keeps_key Q x (k a)) -> keeps_key Q x (section m k).
Proof.
  intros Hf He Hk s _. exists x. split; [apply km_keep, Hf|]. destruct (m s).2; [apply Hk|apply He].
Qed.

Lemma keeps_attempt {A B} (Q : result (failure HttpError) B -> Part -> Prop) x (m : app A) k :
  Frame entry m -> (forall r, keeps_key Q x (k r)) -> keeps_key Q x (attempt m k).
Proof. intros Hf Hk s _. exists x. split; [apply km_keep, Hf|apply Hk]. Qed.

Lemma keeps_locking {A B} (Q : result (failure HttpError) B -> Part -> Prop) x l mode (m : app A) (k : A -> prog B) :
  keeps_key Q x (section m k) -> keeps_key Q x (locking l mode m k).
Proof. intros Hk s Hs. destruct (Hk s Hs) as (x' & Hm & Hx). exists x'. split; [done|]. by destruct (m s).2. Qed.

Lemma keeps_weaken {A} (Q Q' : result (failure HttpError) A -> Part -> Prop) x p :
  keeps_key Q x p -> (forall r y, Q r y -> Q' r y) -> keeps_key Q' x p.
Proof.
  intros Hp Hq. revert x Hp. induction p as [r|l m k IH|l k IH|seq ids k IH|u k IH]; intros x Hp; simpl in *; auto.
  intros s Hs. destruct (Hp s Hs) as (x' & Hm & Hk). exists x'. split; [done|by apply IH].
Qed.

Lemma keeps_answering {A} (Q : result (failure HttpError) Answer -> Part -> Prop) (f : A -> Answer) x p :
  keeps_key (fun r y => Q (match r with Ok a => Ok (f a) | Err e => Err e end) y) x p -> keeps_key Q x (answering f p).
Proof.
  revert x. induction p as [r|l m k IH|l k IH|seq ids k IH|u k IH]; intros x Hp; simpl in *; [done|auto..|].
  intros s Hs. destruct (Hp s Hs) as (x' & Hm & Hk). exists x'. split; [done|by apply IH].
Qed.

(** The key store is only touched at the key of the request. *)
Lemma acquire_other k m : k <> key -> (try_acquire k m).1 !! key = m !! key.
Proof. intros Hk. unfold try_acquire. repeat case_match; simpl; try done. by rewrite lookup_insert_ne. Qed.
Lemma complete_other k j m : k <> key -> complete k j m !! key = m !! key.
Proof. intros Hk. unfold complete. by rewrite lookup_insert_ne. Qed.

Definition any {A} (r : result (failure HttpError) A) (x : Part) : Prop := True.

Ltac keep :=
  cbn [keeps_key]; try lazymatch goal with |- keeps_key _ _ (locking _ _ _ _) => apply keeps_locking end;
  apply keeps_section; [framed|done|intros ?].
Ltac branch E := match goal with |- keeps_key _ _ (match ?x with _ => _ end) => destruct x eqn:E end.

Section handlers.
Context (sha256 : bytes -> Hash32) (display : ProofError -> string) (display_hex : HexError -> string).
Context (transfer_bytes : Transfer -> result string bytes).
Context (program_error_string : ProgramError -> string).
Context (settlement_error_string : SettlementProgramError -> string).
Context (hmac_sha256 : bytes -> bytes -> Hash32).
Context `{Borsh, Runtime, ProofBytes, Json}.

(** What an answer says about the key: the response is the one stored for it. *)
Definition from_store (r : result (failure HttpError) PaymentResponse) (x : Part) : Prop :=
  forall resp, r = Ok resp -> exists json, x = Stored json /\ response_from_json json = Ok resp.

Lemma rejected_keeps e : keeps_key from_store Holds (rejected key e).
Proof.
  unfold rejected. apply keeps_section; [framed|by intros|intros ?].
  intros s Hs. exists Free. split; [|by intros]. apply km_release. unfold entry in *. simpl in *.
  unfold release_on_failure. rewrite Hs. apply lookup_delete_eq.
Qed.

Lemma authorize_keeps req : idempotency_key req = key -> keeps_key from_store Free (authorize_thread req).
Proof.
  intros Hkey s _. rewrite Hkey. unfold try_acquire. destruct (idempotency s !! key) as [[|json]|] eqn:E; cbn [fst snd map_err].
  - exists Free. split; [by apply km_keep|]. by intros.
  - exists (Stored json). split; [by apply km_learn|]. intros resp. destruct (response_from_json json) eqn:Er; [|done].
    intros [= ->]. eauto.
  - exists Holds. split; [apply km_take; [done|]; unfold entry; simpl; by rewrite lookup_insert_eq|].
    do 6 (apply keeps_section; [framed|by intros|intros ?]).
    case_match; [|apply rejected_keeps]. apply keeps_attempt; [framed|]. intros [u|[|e]]; [|by intros|apply rejected_keeps].
    cbv zeta. do 2 (apply keeps_section; [framed|by intros|intros ?]).
    destruct (response_to_json _) as [json|] eqn:Ej; [|by intros]. intros s' _. exists (Stored json).
    split; [apply km_complete; unfold entry, complete; simpl; by rewrite lookup_insert_eq|].
    intros resp [= <-]. exists json. split; [done|by apply response_json_roundtrip].
Qed.

(** Other requests leave the entry alone. *)
Lemma rejected_other {A} k e : k <> key -> keeps_key (A := A) any Free (rejected k e).
Proof.
  intros Hk. unfold rejected. keep. apply keeps_section; [|done|done].
  intros s. unfold entry. simpl. by apply release_other, not_eq_sym.
Qed.

Lemma authorize_other req : idempotency_key req <> key -> keeps_key any Free (authorize_thread req).
Proof.
  intros Hk. unfold authorize_thread. apply keeps_section; [|done|].
  { intros s. unfold entry. pose proof (acquire_other _ (idempotency s) Hk) as E.
    destruct (try_acquire _ _) as [m r]. exact E. }
  intros [json|]; [done|]. do 6 keep. case_match; [|by apply rejected_other].
  apply keeps_attempt; [framed|]. intros [u|[|e]]; [|done|by apply rejected_other]. cbv zeta. do 2 keep.
  case_match; [|done]. apply keeps_section; [|done|done]. intros s. unfold entry. simpl. by apply complete_other.
Qed.

Lemma capture_found_other {B} id p h q ts (k : Payment -> prog B) :
  (forall p', keeps_key any Free (k p')) -> keeps_key any Free (capture_found id p h q ts k).
Proof. intros Hk. unfold capture_found. keep. case_match; [|done]. by keep. Qed.

Lemma event_other pl : keeps_key any Free (event_thread pl).
Proof.
  unfold event_thread. case_decide; [|case_decide; [|done]].
  - do 3 keep. case_match; [|done]. by do 2 keep.
  - cbn [keeps_key]. keep. case_match; [|done]. case_match; [|done]. keep. by apply capture_found_other.
Qed.

Lemma submit_commit_frame seq ts mmr total pda :
  Frame entry (submit_commit sha256 display program_error_string settlement_error_string seq ts mmr total pda).
Proof.
  intros s. unfold submit_commit. cbv zeta. destruct (mbind _ _) as [ix|e]; [|done].
  by destruct (process _ _ _ _ _ _) as [w r].
Qed.

Lemma settled_other ts sub : keeps_key any Free (settled_thread ts sub).
Proof. unfold settled_thread. by do 4 keep. Qed.

Lemma settlement_other rail :
  keeps_key any Free (settlement_thread sha256 display transfer_bytes program_error_string settlement_error_string rail).
Proof.
  unfold settlement_thread. do 2 keep. cbn [keeps_key]. case_bool_decide; [done|]. case_bool_decide.
  - do 2 keep. apply settled_other.
  - do 2 keep. unfold submit_thread. keep. branch Ep. branch Ep'. cbn [keeps_key].
    apply keeps_section; [apply submit_commit_frame|done|]. intros sub. do 3 keep. apply settled_other.
Qed.

Lemma reconciliation_other : keeps_key any Free reconciliation_thread.
Proof. unfold reconciliation_thread. by do 8 keep. Qed.

Lemma seed_target_other {B} target h amt p (k : Payment -> prog B) :
  (forall p', keeps_key any Free (k p')) -> keeps_key any Free (seed_target_thread target h amt p k).
Proof.
  intros Hk. destruct target; cbn [seed_target_thread]; [do 3 keep|done|do 2 keep]; (branch E; [apply Hk|done]).
Qed.

Lemma each_other {A B} (f : A -> prog B -> prog B) l k :
  (forall x k, keeps_key any Free k -> keeps_key any Free (f x k)) -> keeps_key any Free k -> keeps_key any Free (each f l k).
Proof. intros Hf Hk. induction l as [|x l IH]; [done|]. by apply Hf. Qed.

Lemma quick_seed_other : keeps_key any Free quick_seed_thread.
Proof.
  unfold quick_seed_thread. cbn [keeps_key]. apply each_other.
  - intros c k Hk. unfold seed_deposit_thread. do 3 keep. branch E; [|done]. by keep.
  - cbn [keeps_key]. apply each_other; [|done]. intros [[[[cust merch] amt] fee] target] k Hk. unfold seed_thread.
    do 5 keep. branch E; [|done]. keep. apply seed_target_other. intros p'. by keep.
Qed.

Lemma receipt_other {B} tid (k : result (failure RailError) TransferReceipt -> prog B) :
  (forall r, keeps_key any Free (k r)) -> keeps_key any Free (receipt_thread sha256 transfer_bytes tid k).
Proof.
  intros Hk. unfold receipt_thread. keep. branch El. branch Eb; [apply Hk|]. branch Ep; [|apply Hk]. branch Ei. keep.
  apply Hk.
Qed.

Lemma verify_other id : keeps_key any Free (verify_thread sha256 display_hex transfer_bytes id).
Proof.
  unfold verify_thread. do 2 keep. branch Epo; [|done]. apply receipt_other. intros [r|[|e]]; [|done|by keep].
  branch Ev; [by keep|done].
Qed.

Abbreviation thread := (thread_of sha256 display display_hex transfer_bytes program_error_string settlement_error_string hmac_sha256).

(** What is known of the answer of a request. *)
Definition said (r : Request) (res : result (failure HttpError) Answer) (x : Part) : Prop :=
  match r with
  | Authorize req => idempotency_key req = key ->
      forall resp, res = Ok (APayment resp) -> exists json, x = Stored json /\ response_from_json json = Ok resp
  | _ => True
  end.

Lemma thread_keeps r : keeps_key (said r) Free (thread r).
Proof.
  destruct r as [req|id|id|id x|sig body|rail| | | | | |id|receipt]; apply keeps_answering.
  - destruct (decide (idempotency_key req = key)) as [Hk|Hk].
    + eapply keeps_weaken; [by apply authorize_keeps|]. intros r x Hr _ resp. destruct r; [|done]. intros [= ->]. by apply Hr.
    + eapply keeps_weaken; [by apply authorize_other|]. by intros r x _ Hk'.
  - unfold capture_thread. do 4 keep. by apply capture_found_other.
  - unfold void_thread. do 4 keep. branch E; [|done]. by keep.
  - unfold deposit_thread. cbv zeta. do 3 keep. branch E; [|done]. by do 2 keep.
  - unfold webhook_thread. do 6 keep. apply event_other.
  - apply settlement_other.
  - apply reconciliation_other.
  - unfold drift_thread. keep. apply reconciliation_other.
  - unfold drift_thread. keep. apply reconciliation_other.
  - apply quick_seed_other.
  - unfold dashboard_thread. by repeat keep.
  - apply verify_other.
  - unfold verify_receipt_thread. branch E; [by keep|done].
Qed.
End handlers.
End key.

Section schedules.
Context (sha256 : bytes -> Hash32) (display : ProofError -> string) (display_hex : HexError -> string).
Context (transfer_bytes : Transfer -> result string bytes).
Context (program_error_string : ProgramError -> string).
Context (settlement_error_string : SettlementProgramError -> string).
Context (hmac_sha256 : bytes -> bytes -> Hash32).
Context `{Borsh, Runtime, ProofBytes, Json}.
Abbreviation thread := (thread_of sha256 display display_hex transfer_bytes program_error_string settlement_error_string hmac_sha256).

(** C23: requests with one idempotency key that run at the same time, with any others and in any
    schedule, have one response between them: those that succeed answer the same payment. *)
Theorem concurrent_idempotent s rs n p i j req req' resp resp' :
  nsteps pool_goes n (pool_of s (thread <$> rs)) p ->
  rs !! i = Some (Authorize req) -> rs !! j = Some (Authorize req') ->
  idempotency_key req = idempotency_key req' ->
  threads p !! i = Some (Done (Ok (APayment resp))) -> threads p !! j = Some (Done (Ok (APayment resp'))) ->
  resp = resp'.
Proof.
  intros Hn Hi Hj Hk Ti Tj.
  destruct (keys_goes (idempotency_key req) (fun n => from_option (said (idempotency_key req)) any (rs !! n)) n
    (pool_of s (thread <$> rs)) p (fun _ => Free)) as [xs [Ha _ Hkeep]]; [|exact Hn|].
  - constructor; [done|done|]. intros m t. simpl. rewrite list_lookup_fmap. destruct (rs !! m); [|done].
    intros [= <-]. apply thread_keeps.
  - pose proof (Hkeep i _ Ti) as Hqi. pose proof (Hkeep j _ Tj) as Hqj. rewrite Hi in Hqi. rewrite Hj in Hqj. simpl in *.
    destruct (Hqi eq_refl resp eq_refl) as (ji & Ei & Ri). destruct (Hqj (eq_sym Hk) resp' eq_refl) as (jj & Ej & Rj).
    pose proof (Ha i) as Ai. pose proof (Ha j) as Aj. rewrite Ei in Ai. rewrite Ej in Aj. simpl in *. congruence.
Qed.
End schedules.

(** ** A worked race *)

Section worked.
#[local] Existing Instance borsh_le.
#[local] Existing Instance toy_runtime.
#[local] Existing Instance varint_proof.
#[local] Existing Instance toy_json.

(** Three requests with one key: the second comes while the first runs, the third later. *)
Definition toy_same_key : list Request :=
  [Authorize (mkAuthorize 1 101 10 0 "order-7"); Authorize (mkAuthorize 2 102 99 0 "order-7");
   Authorize (mkAuthorize 3 103 50 0 "order-7")].
Definition toy_race : list nat := replicate 7 0%nat ++ replicate 30 1%nat ++ replicate 30 0%nat ++ replicate 30 2%nat.
Definition toy_raced : Pool := run_schedule toy_race (toy_pool toy_same_key).

Lemma concurrent_idempotent_witness :
  outcomes toy_raced = [Some true; Some false; Some true] /\
  exists resp resp', threads toy_raced !! 0%nat = Some (Done (Ok (APayment resp))) /\
    threads toy_raced !! 2%nat = Some (Done (Ok (APayment resp'))) /\ resp = resp'.
Proof.
  split; [vm_compute; reflexivity|].
  destruct (schedule_goes toy_race (toy_pool toy_same_key)) as [n Hn].
  assert (threads toy_raced !! 0%nat = Some (Done (Ok (APayment (mkResponse 5003 Authorized 10 (Some 20005) None)))))
    as E0 by (vm_compute; reflexivity).
  assert (threads toy_raced !! 2%nat = Some (Done (Ok (APayment (mkResponse 5003 Authorized 10 (Some 20005) None)))))
    as E2 by (vm_compute; reflexivity).
  eexists _, _. split; [exact E0|]. split; [exact E2|].
  apply (concurrent_idempotent toy_hash toy_display toy_hex toy_transfer_bytes toy_text toy_settle_text toy_hmac
    toy_app toy_same_key n toy_raced 0 2 (mkAuthorize 1 101 10 0 "order-7") (mkAuthorize 3 103 50 0 "order-7"));
    [exact Hn|reflexivity..|exact E0|exact E2].
Defined.
End worked.
