(* ===== verification/Verifier.v ===== *)
(** * The stand-alone verifier

    [crates/solana-settle/src/bin/verifier.rs] and the files of
    [crates/solana-settle/src/client.rs]: receipts saved and loaded as JSON, and the
    program that checks a receipt or a proof without the operator.  What it prints is left
    out; its exit status is [true] for success. *)

From S2P Require Import Bytes Error Amount Account Transfer Ledger Merkle MerkleProof MerkleProps Settle SettleFormat Payment Rail.
From S2P Require Import SettleProps RailInv ApiProps.
From stdpp Require Import list gmap strings vector.
From S2P Require Import Prelude.
#[local] Open Scope N_scope.

(** [serde_json] on receipts and on proofs. *)
Class ReceiptJson : Type := {
  receipt_to_json : TransferReceipt -> result string bytes;
  receipt_from_json : bytes -> result string TransferReceipt;
  proof_from_json : bytes -> result string MmrProof;
  receipt_json_roundtrip rc bs : receipt_to_json rc = Ok bs -> receipt_from_json bs = Ok rc;
}.

Record Cli : Type := mkCli {
  cli_receipt : option string;
  cli_root : option string;
  cli_leaf : option string;
  cli_proof_file : option string;
}.

Section verifier.
Context (sha256 : bytes -> Hash32) (display_hex : HexError -> string).
Context `{ProofBytes, ReceiptJson}.

(** The files by their paths. *)
Abbreviation files := (gmap string bytes).

(** [written] is whether [fs::write] succeeds; a failed write leaves some bytes. *)
Definition save_to_file (self : TransferReceipt) (path : string) (written : option bytes) (fs : files) :
    files * result unit unit :=
  match receipt_to_json self with
  | Err _ => (fs, Err tt)
  | Ok json =>
      match written with
      | None => (<[path := json]> fs, Ok tt)
      | Some rest => (<[path := rest]> fs, Err tt)
      end
  end.

Definition load_from_file (path : string) (fs : files) : result unit TransferReceipt :=
  match fs !! path with
  | None => Err tt
  | Some content => map_err (fun _ => tt) (receipt_from_json content)
  end.

Definition verify_receipt_file (path : string) (fs : files) : bool :=
  match load_from_file path fs with
  | Err _ => false
  | Ok receipt => is_ok (receipt_verify sha256 display_hex receipt)
  end.

Definition verifier_main (args : Cli) (fs : files) : bool :=
  match cli_receipt args with
  | Some receipt_path => verify_receipt_file receipt_path fs
  | None =>
      match cli_root args, cli_leaf args, cli_proof_file args with
      | Some root_hex, Some leaf_hex, Some proof_path =>
          verify_direct_args sha256 proof_from_json root_hex leaf_hex (fs !! proof_path)
      | _, _, _ => false
      end
  end.

(** ** Results *)

Context (display : ProofError -> string) (program_error_string : ProgramError -> string).
Context (settlement_error_string : SettlementProgramError -> string).
Context (transfer_bytes : Transfer -> result string bytes) `{Borsh, Runtime}.

(** Success by receipt, or by root, leaf and proof, of a receipt that verifies. *)
Lemma receipt_accepted rc path fs :
  receipt_verify sha256 display_hex rc = Ok tt ->
  (forall fs', save_to_file rc path None fs = (fs', Ok tt) ->
     verifier_main (mkCli (Some path) None None None) fs' = true) /\
  (forall pb, proof_to_stdvec (rc_proof rc) = Ok pb ->
     verifier_main (mkCli None (Some (rc_merkle_root rc)) (Some (rc_leaf_hash rc)) (Some path))
       (<[path := pb]> fs) = true).
Proof using Type.
  intros Hv. split.
  - intros fs' Hs. unfold save_to_file in Hs. destruct (receipt_to_json rc) as [json|] eqn:Ej; [|done]. simplify_eq.
    cbn. unfold verify_receipt_file, load_from_file. rewrite lookup_insert_eq, (receipt_json_roundtrip _ _ Ej).
    cbn. by rewrite Hv.
  - intros pb Hpb. cbn. rewrite lookup_insert_eq. unfold verify_direct_args, from_bytes.
    unfold receipt_verify in Hv. destruct (from_hex (rc_merkle_root rc)); [|done].
    destruct (from_hex (rc_leaf_hash rc)); [|done]. cbn in Hv.
    rewrite (proof_bytes_roundtrip _ _ Hpb). cbn. by rewrite Hv.
Qed.

(** C39: settled transfers can be checked without the operator.  A batch for which the
    registry has room is accepted, and then every transfer in it has a receipt under the
    root that the registry shows; the verifier succeeds on the receipt once it is saved,
    and on the root, the leaf and the bytes of the proof given one by one. *)
Theorem settled_verify_offline self r seq ts path fs :
  rail_ready self r -> ts <> [] -> N.of_nat (length ts) <= U64_MAX -> NoDup (tr_id <$> ts) ->
  (forall t, t ∈ ts -> exists h, hash_transfer sha256 transfer_bytes t = Ok h) ->
  seq = sr_batch_seq r + 1 -> seq <= U64_MAX -> sr_total_settled_amount r + list_sum tr_amount ts <= U128_MAX ->
  exists self' sub,
    solana_submit_batch sha256 display transfer_bytes program_error_string settlement_error_string seq ts self =
      (self', Ok sub) /\
    forall t, t ∈ ts ->
    exists rc, receipt_for_transfer sha256 transfer_bytes self' (tr_id t) = Ok rc /\
      rc_transfer_id rc = tr_id t /\ rc_amount rc = tr_amount t /\
      latest_root_hex self' = Some (rc_merkle_root rc) /\
      (forall fs', save_to_file rc path None fs = (fs', Ok tt) ->
         verifier_main (mkCli (Some path) None None None) fs' = true) /\
      (forall pb, proof_to_stdvec (rc_proof rc) = Ok pb ->
         verifier_main (mkCli None (Some (rc_merkle_root rc)) (Some (rc_leaf_hash rc)) (Some path))
           (<[path := pb]> fs) = true).
Proof.
  intros Hrd Hne Hlen Hn Hh Hseq H64 Htot.
  destruct (submit_accepts sha256 display transfer_bytes program_error_string settlement_error_string
    self r seq ts Hrd Hne Hlen Hh Hseq H64 Htot) as (self' & sub & Hs & Hsub).
  exists self', sub. split; [done|]. intros t Ht.
  destruct (receipt_good sha256 display_hex transfer_bytes self r seq ts self' sub t Hsub ltac:(lia) Hlen Hn Ht)
    as (rc & Hrc & Hv & Hid & Hamt & Hroot).
  exists rc. split_and!; try done; by apply receipt_accepted.
Qed.

End verifier.

(** ** A worked check *)

#[local] Existing Instance borsh_le.
#[local] Existing Instance toy_runtime.
#[local] Existing Instance varint_proof.

Definition toy_rail : SolanaRail :=
  match SolanaRail_new toy_hash toy_display toy_text toy_pid toy_authority with
  | Ok self => self
  | Err _ => mkRail toy_pid toy_pid [] Mmr_new [] 0
  end.
Definition toy_batch : list Transfer :=
  [mkTransfer 7 1 2 25 Posted None 1; mkTransfer 8 2 3 40 Posted None 2; mkTransfer 9 1 3 5 Posted None 3].

#[global] Instance proof_eq_dec : EqDecision MmrProof.
Proof. solve_decision. Defined.
#[global] Instance receipt_eq_dec : EqDecision TransferReceipt.
Proof. solve_decision. Defined.

Lemma toy_rail_ready : exists bump, rail_ready toy_rail (initial_root toy_authority bump).
Proof.
  apply (SolanaRail_new_ready toy_hash toy_display toy_text toy_pid).
  unfold toy_rail. destruct (SolanaRail_new toy_hash toy_display toy_text toy_pid toy_authority) eqn:E; [done|].
  apply (f_equal is_ok) in E. vm_compute in E. discriminate E.
Qed.

Definition toy_settled : SolanaRail :=
  (solana_submit_batch toy_hash toy_display toy_transfer_bytes toy_text toy_settle_text 1 toy_batch toy_rail).1.
Definition toy_receipt : TransferReceipt :=
  match receipt_for_transfer toy_hash toy_transfer_bytes toy_settled 8 with
  | Ok rc => rc
  | Err _ => mkReceipt 0 0 0 0 EmptyString 0 EmptyString (mkProof 0 0 [] [])
  end.

(** A format that knows one receipt. *)
Definition one_receipt : ReceiptJson.
Proof.
  refine {| receipt_to_json rc := if decide (rc = toy_receipt) then Ok [Byte.x01] else Err EmptyString;
            receipt_from_json bs := if decide (bs = [Byte.x01]) then Ok toy_receipt else Err EmptyString;
            proof_from_json _ := Err EmptyString |}.
  intros rc bs E. destruct (decide (rc = toy_receipt)) as [->|]; [|done]. injection E as <-. done.
Defined.
#[local] Existing Instance one_receipt.

Lemma settled_verify_offline_witness :
  exists rc fs, receipt_for_transfer toy_hash toy_transfer_bytes toy_settled 8 = Ok rc /\ rc_amount rc = 40 /\
    save_to_file rc "receipt.json" None ∅ = (fs, Ok tt) /\
    verifier_main toy_hash toy_hex (mkCli (Some "receipt.json") None None None) fs = true.
Proof.
  destruct toy_rail_ready as [bump Hrd].
  destruct (settled_verify_offline toy_hash toy_hex toy_display toy_text toy_settle_text toy_transfer_bytes
    toy_rail (initial_root toy_authority bump) 1 toy_batch "receipt.json" ∅ Hrd) as (self' & sub & Hs & Hall).
  - done.
  - by vm_compute.
  - apply (bool_decide_unpack _). by vm_compute.
  - intros t _. by eexists.
  - done.
  - done.
  - by vm_compute.
  - destruct (Hall (mkTransfer 8 2 3 40 Posted None 2)) as (rc & Hrc & _ & Hamt & _ & Hfile & _).
    { apply list_elem_of_In. right. by left. }
    assert (self' = toy_settled) as -> by (unfold toy_settled; by rewrite Hs).
    assert (rc = toy_receipt) as -> by (unfold toy_receipt; cbn in Hrc; by rewrite Hrc).
    exists toy_receipt, (<["receipt.json" := [Byte.x01]]> ∅).
    assert (save_to_file toy_receipt "receipt.json" None ∅ = (<["receipt.json" := [Byte.x01]]> ∅, Ok tt)) as Hsave.
    { unfold save_to_file. cbn. by rewrite decide_True. }
    split; [exact Hrc|]. split; [exact Hamt|]. split; [exact Hsave|]. by apply Hfile.
Defined.
