(* ===== verification/SimNet.v ===== *)
(** * The simulator's machine: randomness, clock, network and disk

    [simulator/src/{rng,clock,network,storage}.rs].  The generator is ChaCha8 of an
    outside library: a class, with what its ranges promise.  Code that draws from it
    runs in a monad over the state and the generator; a draw from an empty range
    panics.  The binary heap of packets is kept as a list in the order it pops. *)

From Stdlib Require Import QArith_base.
From S2P Require Import Bytes.
From stdpp Require Import list gmap.
From S2P Require Import Prelude.
#[local] Open Scope N_scope.
#[local] Open Scope st_scope.

(** ** Random choices *)

Class Rng : Type := {
  rng : Type;
  seed_from_u64 : N -> rng;
  (** A number between two bounds, both included; a coin with a probability in [0, 1];
      the index of an element of a non-empty slice. *)
  draw_range : N -> N -> rng -> N * rng;
  draw_bool : Q -> rng -> bool * rng;
  draw_index : nat -> rng -> nat * rng;
  draw_range_in lo hi g : lo <= hi -> lo <= (draw_range lo hi g).1 <= hi;
  draw_index_in n g : (0 < n)%nat -> ((draw_index n g).1 < n)%nat;
}.

(** A run can end early: a panic, or (for a loop that draws until it is content) no
    more fuel. *)
Inductive halt : Type := Panicked | NoFuel.

(** ** Packets and events *)

Abbreviation SimInstant := N.
Abbreviation SimClock := N.

Record SimPacket (T : Type) : Type := mkPacket { pk_from : N; pk_to : N; pk_payload : T }.
Record ScheduledEvent (P : Type) : Type := mkEvent { execute_at : SimInstant; sequence : N; se_payload : P }.
Arguments mkPacket {T}.
Arguments pk_from {T}.
Arguments pk_to {T}.
Arguments pk_payload {T}.
Arguments mkEvent {P}.
Arguments execute_at {P}.
Arguments sequence {P}.
Arguments se_payload {P}.

Record NetworkConfig : Type := mkNetConfig {
  min_latency_ticks : N;
  max_latency_ticks : N;
  drop_rate : Q;
  duplicate_rate : Q;
}.

Record SimNetwork (T : Type) : Type := mkNetwork {
  nw_config : NetworkConfig;
  queue : list (ScheduledEvent (SimPacket T));
  sequence_counter : N;
  isolated : gset N;
  partitions : list (gset N * gset N);
  packets_sent : N;
  packets_dropped : N;
  packets_delivered : N;
}.
Arguments mkNetwork {T}.
Arguments nw_config {T}.
Arguments queue {T}.
Arguments sequence_counter {T}.
Arguments isolated {T}.
Arguments partitions {T}.
Arguments packets_sent {T}.
Arguments packets_dropped {T}.
Arguments packets_delivered {T}.

Section machine.
Context `{Rng}.

Abbreviation sim X A := (st (X * rng) halt A).

Definition gen_range {X} (lo hi : N) : sim X N :=
  fun '(x, g) => if lo <=? hi then let '(n, g) := draw_range lo hi g in ((x, g), Ok n)
                 else ((x, g), Err Panicked).

(** [probability.clamp(0.0, 1.0)]. *)
Definition clamp_unit (p : Q) : Q :=
  if Qle_bool p 0 then 0%Q else if Qle_bool 1 p then 1%Q else p.
Definition gen_bool {X} (probability : Q) : sim X bool :=
  fun '(x, g) => let '(b, g) := draw_bool (clamp_unit probability) g in ((x, g), Ok b).

Definition rng_choose {X A} (slice : list A) : sim X (option A) :=
  fun '(x, g) => match slice with
                 | [] => ((x, g), Ok None)
                 | _ => let '(i, g) := draw_index (length slice) g in ((x, g), Ok (slice !! i))
                 end.

(** ** Clock *)

Definition u64_sat_add : N -> N -> N := saturating_add U64_MAX.

Definition clock_advance (ticks : N) (self : SimClock) : SimClock := u64_sat_add self ticks.
Definition clock_advance_to (target : SimInstant) (self : SimClock) : SimClock :=
  if self <? target then target else self.

(** ** Network *)

Section network.
Context {T : Type}.

Definition Network_new (config : NetworkConfig) : SimNetwork T := mkNetwork config [] 0 ∅ [] 0 0 0.

Definition set_queue (q : list (ScheduledEvent (SimPacket T))) (seq : N) (n : SimNetwork T) : SimNetwork T :=
  mkNetwork (nw_config n) q seq (isolated n) (partitions n) (packets_sent n) (packets_dropped n)
    (packets_delivered n).
Definition set_links (i : gset N) (p : list (gset N * gset N)) (n : SimNetwork T) : SimNetwork T :=
  mkNetwork (nw_config n) (queue n) (sequence_counter n) i p (packets_sent n) (packets_dropped n)
    (packets_delivered n).
Definition count_packets (sent dropped delivered : N) (n : SimNetwork T) : SimNetwork T :=
  mkNetwork (nw_config n) (queue n) (sequence_counter n) (isolated n) (partitions n)
    (u64_sat_add (packets_sent n) sent) (u64_sat_add (packets_dropped n) dropped)
    (u64_sat_add (packets_delivered n) delivered).

Definition link_up (self : SimNetwork T) (from to : N) : bool :=
  if bool_decide (from ∈ isolated self) || bool_decide (to ∈ isolated self) then false
  else forallb (fun '(a, b) => negb ((bool_decide (from ∈ a) && bool_decide (to ∈ b)) ||
                                     (bool_decide (from ∈ b) && bool_decide (to ∈ a)))) (partitions self).

(** The heap pops the earliest event, the first sequence number among equals. *)
Definition due_before {P} (a b : ScheduledEvent P) : bool :=
  (execute_at a <? execute_at b) || ((execute_at a =? execute_at b) && (sequence a <=? sequence b)).
Fixpoint heap_push {P} (e : ScheduledEvent P) (q : list (ScheduledEvent P)) : list (ScheduledEvent P) :=
  match q with
  | [] => [e]
  | e' :: rest => if due_before e' e then e' :: heap_push e rest else e :: q
  end.

Definition schedule (at_tick : SimInstant) (p : SimPacket T) (self : SimNetwork T) : SimNetwork T :=
  let seq := u64_sat_add (sequence_counter self) 1 in
  set_queue (heap_push (mkEvent at_tick seq p) (queue self)) seq self.

Definition net_send (from to : N) (payload : T) (now : SimInstant) : sim (SimNetwork T) unit :=
  do? st_modify (fun '(n, g) => (count_packets 1 0 0 n, g));
  let? up := st_reads (fun '(n, _) => Ok (link_up n from to)) in
  if negb up then st_modify (fun '(n, g) => (count_packets 0 1 0 n, g))
  else
    let? config := st_reads (fun '(n, _) => Ok (nw_config n)) in
    let? dropped := gen_bool (drop_rate config) in
    if (dropped : bool) then st_modify (fun '(n, g) => (count_packets 0 1 0 n, g))
    else
      let? delay := gen_range (min_latency_ticks config) (max_latency_ticks config) in
      do? st_modify (fun '(n, g) => (schedule (u64_sat_add now delay) (mkPacket from to payload) n, g));
      let? twice := gen_bool (duplicate_rate config) in
      if (twice : bool) then
        let? extra := gen_range 1 3 in
        let dup_delay := u64_sat_add delay extra in
        st_modify (fun '(n, g) => (schedule (u64_sat_add now dup_delay) (mkPacket from to payload) n, g))
      else st_ret tt.

(** The packets due by [now]; those whose link is cut are lost. *)
Fixpoint drain (now : SimInstant) (up : N -> N -> bool) (q : list (ScheduledEvent (SimPacket T))) :
    list (ScheduledEvent (SimPacket T)) * list (SimPacket T) * N :=
  match q with
  | [] => ([], [], 0)
  | e :: rest =>
      if execute_at e <=? now then
        let '(q', ready, lost) := drain now up rest in
        if up (pk_from (se_payload e)) (pk_to (se_payload e))
        then (q', se_payload e :: ready, lost) else (q', ready, lost + 1)
      else (q, [], 0)
  end.

Definition drain_ready (now : SimInstant) (self : SimNetwork T) : SimNetwork T * list (SimPacket T) :=
  let '(q, ready, lost) := drain now (link_up self) (queue self) in
  (count_packets 0 lost (N.of_nat (length ready)) (set_queue q (sequence_counter self) self), ready).

Definition next_event_time (self : SimNetwork T) : option SimInstant := execute_at <$> head (queue self).

Definition net_isolate (id : N) (self : SimNetwork T) : SimNetwork T :=
  set_links ({[id]} ∪ isolated self) (partitions self) self.
Definition net_unisolate (id : N) (self : SimNetwork T) : SimNetwork T :=
  set_links (isolated self ∖ {[id]}) (partitions self) self.
Definition net_partition (a b : gset N) (self : SimNetwork T) : SimNetwork T :=
  set_links (isolated self) (partitions self ++ [(a, b)]) self.
Definition net_heal (self : SimNetwork T) : SimNetwork T := set_links ∅ [] self.

End network.

(** ** Disk *)

Record SimDisk : Type := mkDisk {
  flushed : bytes;
  buffered : bytes;
  writes_count : N;
  syncs_count : N;
  crashes_count : N;
}.
Definition Disk_new : SimDisk := mkDisk [] [] 0 0 0.

Definition disk_write (data : bytes) (d : SimDisk) : SimDisk :=
  mkDisk (flushed d) (buffered d ++ data) (u64_sat_add (writes_count d) 1) (syncs_count d) (crashes_count d).
Definition disk_sync (d : SimDisk) : SimDisk :=
  mkDisk (flushed d ++ buffered d) [] (writes_count d) (u64_sat_add (syncs_count d) 1) (crashes_count d).

(** The trailing bytes of a torn sector: 0xEE, 0xEF, and so on, wrapping. *)
Definition torn_fragment (n : nat) : bytes := (fun i => byte_of ((N.of_nat i + 238) mod 256)) <$> seq 0 n.

Definition disk_crash (torn_write : bool) : sim SimDisk unit :=
  do? st_modify (fun '(d, g) => (mkDisk (flushed d) (buffered d) (writes_count d) (syncs_count d)
                                   (u64_sat_add (crashes_count d) 1), g));
  let? d := st_reads (fun '(d, _) => Ok d) in
  let? torn :=
    (if negb torn_write then st_ret []
     else if negb (bool_decide (buffered d = [])) then
       let len := N.of_nat (length (buffered d)) in
       let? n := gen_range 1 (N.max len 2 - 1) in
       st_ret (take (Nat.min (N.to_nat n) (length (buffered d))) (buffered d))
     else if negb (bool_decide (flushed d = [])) then
       let? n := gen_range 1 15 in
       st_ret (torn_fragment (N.to_nat n))
     else st_ret []) in
  st_modify (fun '(d, g) => (mkDisk (flushed d ++ torn) [] (writes_count d) (syncs_count d) (crashes_count d), g)).

Definition truncate_durable (len : nat) (d : SimDisk) : SimDisk :=
  mkDisk (take len (flushed d)) (buffered d) (writes_count d) (syncs_count d) (crashes_count d).

End machine.
Abbreviation sim X A := (st (X * rng) halt A).
