(* ===== verification/SimNode.v ===== *)
(** * The simulator's workload and nodes

    [simulator/src/workload.rs] and the node of [simulator/src/cluster.rs]: its ledger,
    its disk of framed log entries, applying operations and recovering after a crash.
    The entry format is a class with its round trip. *)

From Stdlib Require Import QArith_base.
From S2P Require Import Bytes Error Amount Account Transfer Ledger WalRecord WalScan SimNet.
From stdpp Require Import list gmap.
From S2P Require Import Prelude.
#[local] Open Scope N_scope.
#[local] Open Scope st_scope.

(** ** Operations *)

Inductive WorkloadOp : Type :=
| DirectTransfer (transfer_id from to amount : N)
| WCreatePending (transfer_id from to amount : N)
| WPostPending (pending_id post_id amount : N)
| WVoidPending (pending_id void_id : N).

#[global] Instance WorkloadOp_eq_dec : EqDecision WorkloadOp.
Proof. solve_decision. Defined.

Record WorkloadGenerator : Type := mkWorkload {
  wg_accounts : list N;
  active_holds : gmap N (N * N * N);
  wg_next_transfer_id : N;
}.
Definition Workload_new (accounts : list N) (initial_transfer_id : N) : WorkloadGenerator :=
  mkWorkload accounts ∅ initial_transfer_id.

Record SimWalEntry : Type := mkEntry { we_index : N; we_timestamp : N; we_op : WorkloadOp }.

(** The widths of the fields. *)
Definition op_fits (op : WorkloadOp) : Prop :=
  match op with
  | DirectTransfer i f t a | WCreatePending i f t a =>
      i <= U128_MAX /\ f <= U128_MAX /\ t <= U128_MAX /\ a <= U128_MAX
  | WPostPending p q a => p <= U128_MAX /\ q <= U128_MAX /\ a <= U128_MAX
  | WVoidPending p q => p <= U128_MAX /\ q <= U128_MAX
  end.
Definition entry_fits (e : SimWalEntry) : Prop :=
  we_index e <= U64_MAX /\ we_timestamp e <= U64_MAX /\ op_fits (we_op e).

(** [postcard] on log entries: bytes are read back, and an entry of fixed-width numbers
    takes at most a few dozen bytes. *)
Class EntryCodec : Type := {
  entry_to_allocvec : SimWalEntry -> result string bytes;
  entry_from_bytes : bytes -> result string SimWalEntry;
  entry_roundtrip e : entry_fits e -> exists bs, entry_to_allocvec e = Ok bs /\
    entry_from_bytes bs = Ok e /\ lenN bs <= 256;
}.

(** ** The generator *)

Section workload.
Context `{Rng}.

Definition next_id : sim WorkloadGenerator N :=
  fun '(w, g) => let id := u64_sat_add (wg_next_transfer_id w) 1 in
                 ((mkWorkload (wg_accounts w) (active_holds w) id, g), Ok id).

(** The loop that draws until the receiver differs; the source has no bound on it. *)
Fixpoint draw_other (fuel : nat) (from_idx : N) (to_idx : N) : sim WorkloadGenerator N :=
  fun s =>
    let n := N.of_nat (length (wg_accounts s.1)) in
    if (to_idx =? from_idx) && (1 <? n) then
      match fuel with
      | O => (s, Err NoFuel)
      | S fuel' =>
          (let? i := gen_range 0 (n - 1) in
           draw_other fuel' from_idx (i mod N.max n 2)) s
      end
    else (s, Ok to_idx).

(** A range from zero to an excluded bound; empty, it panics. *)
Definition gen_below {X} (n : N) : sim X N :=
  if n =? 0 then st_fail Panicked else gen_range 0 (n - 1).

(** Ends one of the open holds, three times out of four by posting it. *)
Definition end_hold : sim WorkloadGenerator (option WorkloadOp) :=
  let? keys := st_reads (fun '(w, _) => Ok (btree_iter (active_holds w)).*1) in
  let? chosen := rng_choose keys in
  match chosen with
  | None => st_ret None
  | Some pending_id =>
      let? held := st_reads (fun '(w, _) => Ok (active_holds w !! pending_id)) in
      match held with
      | None => st_ret None
      | Some (_, _, amount) =>
          do? st_modify (fun '(w, g) => (mkWorkload (wg_accounts w) (delete pending_id (active_holds w))
                                           (wg_next_transfer_id w), g));
          let? id := next_id in
          let? posting := gen_bool (75 # 100) in
          st_ret (Some (if (posting : bool) then WPostPending pending_id id amount
                        else WVoidPending pending_id id))
      end
  end.

Definition new_transfer (fuel : nat) : sim WorkloadGenerator WorkloadOp :=
  let? accounts := st_reads (fun '(w, _) => Ok (wg_accounts w)) in
  let n := N.of_nat (length accounts) in
  let num_accounts := N.max n 2 in
  let? f := gen_below n in
  let from_idx := f mod num_accounts in
  let? t := gen_below n in
  let? to_idx := draw_other fuel from_idx (t mod num_accounts) in
  let from := default 0 (accounts !! N.to_nat from_idx) in
  let to := default 1 (accounts !! N.to_nat to_idx) in
  let? amount := gen_range 10 500 in
  let? transfer_id := next_id in
  let? holding := gen_bool (50 # 100) in
  if (holding : bool) then
    do? st_modify (fun '(w, g) => (mkWorkload (wg_accounts w)
          (<[transfer_id := (from, to, amount)]> (active_holds w)) (wg_next_transfer_id w), g));
    st_ret (WCreatePending transfer_id from to amount)
  else st_ret (DirectTransfer transfer_id from to amount).

Definition next_op (fuel : nat) : sim WorkloadGenerator WorkloadOp :=
  let? open := st_reads (fun '(w, _) => Ok (negb (bool_decide (active_holds w = ∅)))) in
  let? ending := (if (open : bool) then gen_bool (35 # 100) else st_ret false) in
  let? ended := (if (ending : bool) then end_hold else st_ret None) in
  match ended with
  | Some op => st_ret op
  | None => new_transfer fuel
  end.

End workload.

(** ** Nodes *)

Inductive NodeStatus : Type := NodeActive | NodeCrashed.
Inductive NodeRole : Type := Follower | Candidate | Leader.
#[global] Instance NodeStatus_eq_dec : EqDecision NodeStatus.
Proof. solve_decision. Defined.
#[global] Instance NodeRole_eq_dec : EqDecision NodeRole.
Proof. solve_decision. Defined.

(** The consensus fields and the log fields of [SimNode], apart. *)
Record Ballot : Type := mkBallot {
  status : NodeStatus;
  role : NodeRole;
  term : N;
  is_leader : bool;
  voted_for : option N;
  votes_received : gset N;
  last_heartbeat_tick : N;
  election_timeout : N;
}.

Record Store : Type := mkStore {
  nd_ledger : Ledger;
  disk : SimDisk;
  committed_ops : gmap N (WorkloadOp * N);
  pending_commits : gmap N (WorkloadOp * N);
  uncommitted : gmap N (WorkloadOp * gset N);
  commit_index : N;
}.

Record SimNode : Type := mkNode {
  node_id : N;
  nd_scale : Scale;
  nd_accounts : list AccountId;
  initial_balance : N;
  ballot : Ballot;
  store : Store;
}.

Definition set_ballot (b : Ballot) (n : SimNode) : SimNode :=
  mkNode (node_id n) (nd_scale n) (nd_accounts n) (initial_balance n) b (store n).
Definition set_store (s : Store) (n : SimNode) : SimNode :=
  mkNode (node_id n) (nd_scale n) (nd_accounts n) (initial_balance n) (ballot n) s.
Definition set_pending (m : gmap N (WorkloadOp * N)) (s : Store) : Store :=
  mkStore (nd_ledger s) (disk s) (committed_ops s) m (uncommitted s) (commit_index s).
Definition set_uncommitted (m : gmap N (WorkloadOp * gset N)) (s : Store) : Store :=
  mkStore (nd_ledger s) (disk s) (committed_ops s) (pending_commits s) m (commit_index s).
Definition set_disk (d : SimDisk) (s : Store) : Store :=
  mkStore (nd_ledger s) d (committed_ops s) (pending_commits s) (uncommitted s) (commit_index s).

(** [let _ = operation]: what the operation leaves behind, its result ignored. *)
Definition ignoring {A} (m : st Ledger LedgerError A) (l : Ledger) : Ledger := (m l).1.

Definition VAULT : AccountId := 99999.

(** The accounts and their seed transfers, [idx] counting from zero. *)
Fixpoint seed_accounts (scale : Scale) (balance : N) (accounts : list AccountId) (idx timestamp : N)
    (ledger : Ledger) : Ledger :=
  match accounts with
  | [] => ledger
  | acc_id :: rest =>
      let timestamp := timestamp + 1 in
      let ledger := ignoring (create_account acc_id Liability flags_customer scale timestamp) ledger in
      if 0 <? balance then
        let timestamp := timestamp + 1 in
        let ledger := match new_immediate (50000 + idx) VAULT acc_id balance timestamp with
                      | Ok seed_tx => ignoring (create_transfer seed_tx) ledger
                      | Err _ => ledger
                      end in
        seed_accounts scale balance rest (idx + 1) timestamp ledger
      else seed_accounts scale balance rest (idx + 1) timestamp ledger
  end.

Definition base_ledger (scale : Scale) (accounts : list AccountId) (balance : N) : Ledger :=
  seed_accounts scale balance accounts 0 1000
    (ignoring (create_account VAULT Asset flags_bank_asset scale 1000) (Ledger_new scale)).

Definition Node_new (id : N) (scale : Scale) (accounts : list AccountId) (balance : N) : SimNode :=
  mkNode id scale accounts balance
    (mkBallot NodeActive (if id =? 1 then Leader else Follower) 1 (id =? 1)
       (if id =? 1 then Some 1 else None) ∅ 0 (15 + id * 5))
    (mkStore (base_ledger scale accounts balance) Disk_new ∅ ∅ ∅ 0).

(** The ledger's side of an operation. *)
Definition apply_to_ledger (op : WorkloadOp) (timestamp : N) (ledger : Ledger) : Ledger :=
  match op with
  | DirectTransfer id from to amount =>
      match new_immediate id from to amount timestamp with
      | Ok tx => ignoring (create_transfer tx) ledger
      | Err _ => ledger
      end
  | WCreatePending id from to amount =>
      match new_pending id from to amount timestamp with
      | Ok hold => ignoring (create_pending hold) ledger
      | Err _ => ledger
      end
  | WPostPending pending post amount => ignoring (post_pending pending post amount timestamp) ledger
  | WVoidPending pending _ => ignoring (void_pending pending timestamp) ledger
  end.

Definition apply_op_in_memory (index : N) (op : WorkloadOp) (timestamp : N) (s : Store) : Store :=
  mkStore (apply_to_ledger op timestamp (nd_ledger s)) (disk s)
    (<[index := (op, timestamp)]> (committed_ops s)) (pending_commits s) (uncommitted s)
    (N.max (commit_index s) index).

Section durable.
Context `{Crc32c, EntryCodec}.

Definition apply_op (index : N) (op : WorkloadOp) (timestamp : N) (s : Store) : Store :=
  let s := apply_op_in_memory index op timestamp s in
  match entry_to_allocvec (mkEntry index timestamp op) with
  | Err _ => s
  | Ok payload =>
      match WalRecord.encode index payload DEFAULT_MAX_PAYLOAD_LEN with
      | Err _ => s
      | Ok frame => set_disk (disk_sync (disk_write frame (disk s))) s
      end
  end.

(** The loop of [recover] over the bytes of the disk; a slice delivers what it is asked
    for.  Every record takes at least a frame's overhead. *)
Fixpoint recover_loop (fuel : nat) (rd : reader) (valid_bytes : nat) (s : Store) : Store * nat :=
  match fuel with
  | O => (s, valid_bytes)
  | S fuel' =>
      match next_record rd DEFAULT_MAX_PAYLOAD_LEN true with
      | (rd, Ok (ScanRecord _ len (Some payload))) =>
          match entry_from_bytes payload with
          | Ok entry =>
              recover_loop fuel' rd (valid_bytes + frame_len (N.to_nat len))
                (apply_op_in_memory (we_index entry) (we_op entry) (we_timestamp entry) s)
          | Err _ => (s, valid_bytes)
          end
      | (rd, Ok (ScanRecord _ _ None)) => recover_loop fuel' rd valid_bytes s
      | (_, _) => (s, valid_bytes)
      end
  end.

Definition recover (n : SimNode) : SimNode :=
  let d := disk (store n) in
  let base := mkStore (base_ledger (nd_scale n) (nd_accounts n) (initial_balance n)) d ∅ ∅ ∅ 0 in
  let '(s, valid_bytes) := recover_loop (S (length (flushed d))) (mkReader (flushed d) []) 0 base in
  set_store (set_disk (truncate_durable valid_bytes (disk s)) s) n.

End durable.
