(* ===== verification/SimCluster.v ===== *)
(** * The simulated cluster

    The messages and the cluster of [simulator/src/cluster.rs] and the checks of
    [simulator/src/oracle.rs].  The cluster runs in the monad of [SimNet] over its state
    and the generator. *)

From Stdlib Require Import QArith_base.
From S2P Require Import Bytes Error Amount Account Transfer Ledger LedgerVerify WalRecord WalScan SimNet SimNode.
From stdpp Require Import list gmap.
From S2P Require Import Prelude.
#[local] Open Scope N_scope.
#[local] Open Scope st_scope.

Inductive ClusterMessage : Type :=
| MsgPropose (term index : N) (op : WorkloadOp)
| MsgAck (from term index : N)
| MsgCommit (term index : N) (op : WorkloadOp) (timestamp : N)
| MsgRequestVote (term candidate_id last_index : N)
| MsgVoteGranted (from term : N)
| MsgHeartbeat (term leader_id commit_index : N)
| MsgCatchupRequest (from last_index : N)
| MsgCatchupResponse (from : N) (entries : list (N * WorkloadOp * N)).

Record SimCluster : Type := mkCluster {
  nodes : gmap N SimNode;
  network : SimNetwork ClusterMessage;
  next_log_index : N;
  cl_accounts : list AccountId;
  total_wealth : N;
}.

Definition set_nodes (m : gmap N SimNode) (c : SimCluster) : SimCluster :=
  mkCluster m (network c) (next_log_index c) (cl_accounts c) (total_wealth c).
Definition set_network (n : SimNetwork ClusterMessage) (c : SimCluster) : SimCluster :=
  mkCluster (nodes c) n (next_log_index c) (cl_accounts c) (total_wealth c).
Definition set_next_index (i : N) (c : SimCluster) : SimCluster :=
  mkCluster (nodes c) (network c) i (cl_accounts c) (total_wealth c).

Definition new_3_node (config : NetworkConfig) (account_ids : list N) (balance : N) : SimCluster :=
  let scale := Scale_usdc in
  mkCluster
    (list_to_map ((fun id => (id, Node_new id scale account_ids balance)) <$> [1; 2; 3]))
    (Network_new config) 0 account_ids
    (N.min U128_MAX (balance * N.of_nat (length account_ids))).

(** ** Ballots *)

(** A message of a later term: follow it. *)
Definition step_down (t : N) (b : Ballot) : Ballot :=
  if term b <? t then
    mkBallot (status b) Follower t false None (votes_received b) (last_heartbeat_tick b) (election_timeout b)
  else b.
Definition heard (now : N) (b : Ballot) : Ballot :=
  mkBallot (status b) (role b) (term b) (is_leader b) (voted_for b) (votes_received b) now (election_timeout b).
Definition follow (b : Ballot) : Ballot :=
  mkBallot (status b) Follower (term b) false (voted_for b) (votes_received b) (last_heartbeat_tick b)
    (election_timeout b).
Definition vote (candidate : N) (b : Ballot) : Ballot :=
  mkBallot (status b) (role b) (term b) (is_leader b) (Some candidate) (votes_received b)
    (last_heartbeat_tick b) (election_timeout b).
Definition candidacy (id now timeout : N) (b : Ballot) : Ballot :=
  mkBallot (status b) Candidate (u64_sat_add (term b) 1) false (Some id) {[id]} now timeout.

Section cluster.
Context `{Crc32c, EntryCodec, Rng}.

Definition on_network {A} (m : sim (SimNetwork ClusterMessage) A) : sim SimCluster A :=
  fun '(c, g) => match m (network c, g) with ((n, g), r) => ((set_network n c, g), r) end.
Definition change (f : SimCluster -> SimCluster) : sim SimCluster unit :=
  st_modify (fun '(c, g) => (f c, g)).
Definition look {A} (f : SimCluster -> A) : sim SimCluster A := st_reads (fun '(c, _) => Ok (f c)).
Definition put_node (id : N) (n : SimNode) : sim SimCluster unit :=
  change (fun c => set_nodes (<[id := n]> (nodes c)) c).
Definition get_node (id : N) : sim SimCluster (option SimNode) := look (fun c => nodes c !! id).

Definition send_to (from to : N) (msg : ClusterMessage) (now : N) : sim SimCluster unit :=
  on_network (net_send from to msg now).

Definition peers (id : N) (c : SimCluster) : list N :=
  filter (fun k => k <> id) (btree_iter (nodes c)).*1.
(** The messages for each peer in turn. *)
Definition broadcast (from : N) (msgs : list ClusterMessage) (now : N) : sim SimCluster unit :=
  let? ps := look (peers from) in
  st_for (fun peer => st_for (fun msg => send_to from peer msg now) msgs) ps.

(** ** Proposals *)

Definition find_leader_id (c : SimCluster) : option N :=
  node_id <$> head (filter (fun n => is_leader (ballot n) && bool_decide (status (ballot n) = NodeActive))
                      (btree_values (nodes c))).

Definition propose_op (op : WorkloadOp) (now : N) : sim SimCluster bool :=
  let? leader := look find_leader_id in
  match leader with
  | None => st_ret false
  | Some leader_id =>
      let? node := get_node leader_id in
      if negb (bool_decide (status ∘ ballot <$> node = Some NodeActive)) then st_ret false
      else
        do? change (fun c => set_next_index (u64_sat_add (next_log_index c) 1) c);
        let? index := look next_log_index in
        let term := default 0 (term ∘ ballot <$> node) in
        do? (match node with
             | None => st_ret tt
             | Some n => put_node leader_id (set_store (set_uncommitted
                           (<[index := (op, {[leader_id]})]> (uncommitted (store n))) (store n)) n)
             end);
        do? broadcast leader_id [MsgPropose term index op] now;
        st_ret true
  end.

(** ** Committed entries, in order *)

(** [while let Some(..) = pending_commits.remove(&(commit_index + 1))]: each turn removes
    an entry, so their number is enough fuel.  The addition is overflow checked. *)
Fixpoint apply_pending (fuel : nat) (s : Store) : option (Store * list (N * WorkloadOp * N)) :=
  match fuel with
  | O => Some (s, [])
  | S fuel' =>
      next_idx ← checked_add U64_MAX (commit_index s) 1;
      match pending_commits s !! next_idx with
      | None => Some (s, [])
      | Some (op, ts) =>
          let s := set_pending (delete next_idx (pending_commits s)) s in
          let s := apply_op next_idx op ts s in
          let s := set_uncommitted (delete next_idx (uncommitted s)) s in
          '(s, rest) ← apply_pending fuel' s;
          Some (s, (next_idx, op, ts) :: rest)
      end
  end.
Definition drain_pending (s : Store) : option (Store * list (N * WorkloadOp * N)) :=
  apply_pending (S (size (pending_commits s))) s.

Definition advance_node (id : N) (n : SimNode) : sim SimCluster (list (N * WorkloadOp * N)) :=
  match drain_pending (store n) with
  | None => st_fail Panicked
  | Some (s, newly) => do? put_node id (set_store s n); st_ret newly
  end.

(** ** Messages *)

Definition quorum_size (c : SimCluster) : nat := Nat.div (size (nodes c)) 2 + 1.

Definition on_propose (from to t index : N) (op : WorkloadOp) (now : N) (n : SimNode) : sim SimCluster unit :=
  let b := step_down t (ballot n) in
  if term b <=? t then
    do? put_node to (set_store (set_uncommitted (<[index := (op, ∅)]> (uncommitted (store n))) (store n))
                       (set_ballot (heard now b) n));
    send_to to from (MsgAck to t index) now
  else put_node to (set_ballot b n).

Definition on_ack (to ack_from t index now : N) (n : SimNode) : sim SimCluster unit :=
  let? quorum := look quorum_size in
  if negb (is_leader (ballot n) && (term (ballot n) =? t)) then st_ret tt
  else
    match uncommitted (store n) !! index with
    | None => st_ret tt
    | Some (op, acks) =>
        let acks := {[ack_from]} ∪ acks in
        let s := set_uncommitted (<[index := (op, acks)]> (uncommitted (store n))) (store n) in
        if bool_decide (quorum <= size acks)%nat && negb (bool_decide (is_Some (committed_ops s !! index)))
        then
          let timestamp := u64_sat_add now 1700000000 in
          let s := set_pending (<[index := (op, timestamp)]> (pending_commits s)) s in
          let? newly := advance_node to (set_store s n) in
          broadcast to ((fun '(i, o, ts) => MsgCommit t i o ts) <$> newly) now
        else put_node to (set_store s n)
    end.

Definition on_commit (to t index : N) (op : WorkloadOp) (timestamp now : N) (n : SimNode) :
    sim SimCluster unit :=
  let b := step_down t (ballot n) in
  if term b <=? t then
    let n := set_ballot (heard now b) n in
    if bool_decide (is_Some (committed_ops (store n) !! index)) then put_node to n
    else
      let s := set_pending (<[index := (op, timestamp)]> (pending_commits (store n))) (store n) in
      do? advance_node to (set_store s n); st_ret tt
  else put_node to (set_ballot b n).

Definition on_heartbeat (to t leader_id index now : N) (n : SimNode) : sim SimCluster unit :=
  let b := step_down t (ballot n) in
  if term b <=? t then
    do? put_node to (set_ballot (follow (heard now b)) n);
    if commit_index (store n) <? index
    then send_to to leader_id (MsgCatchupRequest to (commit_index (store n))) now
    else st_ret tt
  else put_node to (set_ballot b n).

Definition on_request_vote (to t candidate_id last_index now : N) (n : SimNode) : sim SimCluster unit :=
  let b := step_down t (ballot n) in
  let log_ok := commit_index (store n) <=? last_index in
  let vote_ok := bool_decide (voted_for b = None) || bool_decide (voted_for b = Some candidate_id) in
  if (t =? term b) && vote_ok && log_ok then
    do? put_node to (set_ballot (heard now (vote candidate_id b)) n);
    send_to to candidate_id (MsgVoteGranted to t) now
  else put_node to (set_ballot b n).

Definition on_vote_granted (to from t now : N) (n : SimNode) : sim SimCluster unit :=
  let? quorum := look quorum_size in
  let b := ballot n in
  if (term b =? t) && bool_decide (role b = Candidate) then
    let votes := {[from]} ∪ votes_received b in
    if bool_decide (quorum <= size votes)%nat then
      do? put_node to (set_ballot (mkBallot (status b) Leader (term b) true (voted_for b) votes now
                                     (election_timeout b)) n);
      broadcast to [MsgHeartbeat t to (commit_index (store n))] now
    else
      put_node to (set_ballot (mkBallot (status b) (role b) (term b) (is_leader b) (voted_for b) votes
                                 (last_heartbeat_tick b) (election_timeout b)) n)
  else st_ret tt.

Definition on_catchup_request (to req_from last_index now : N) (n : SimNode) : sim SimCluster unit :=
  let entries := omap (fun '(i, (op, ts)) => if last_index <? i then Some (i, op, ts) else None)
                   (btree_iter (committed_ops (store n))) in
  if negb (bool_decide (entries = [])) then send_to to req_from (MsgCatchupResponse to entries) now
  else st_ret tt.

Definition absorb (entries : list (N * WorkloadOp * N)) (s : Store) : Store :=
  foldl (fun s '(i, op, ts) =>
           if bool_decide (is_Some (committed_ops s !! i)) then s
           else set_pending (<[i := (op, ts)]> (pending_commits s)) s) s entries.

Definition process_packet (from to : N) (msg : ClusterMessage) (now : N) : sim SimCluster unit :=
  let? node := get_node to in
  match node with
  | None => st_ret tt
  | Some n =>
      if negb (bool_decide (status (ballot n) = NodeActive)) then st_ret tt
      else
        match msg with
        | MsgPropose t index op => on_propose from to t index op now n
        | MsgAck ack_from t index => on_ack to ack_from t index now n
        | MsgCommit t index op timestamp => on_commit to t index op timestamp now n
        | MsgHeartbeat t leader_id index => on_heartbeat to t leader_id index now n
        | MsgRequestVote t candidate_id last_index => on_request_vote to t candidate_id last_index now n
        | MsgVoteGranted voter t => on_vote_granted to voter t now n
        | MsgCatchupRequest req_from last_index => on_catchup_request to req_from last_index now n
        | MsgCatchupResponse _ entries =>
            do? advance_node to (set_store (absorb entries (store n)) n); st_ret tt
        end
  end.

(** ** Ticks *)

(** One node's turn of [tick_nodes]. *)
Definition tick_node (now id : N) : sim SimCluster unit :=
  let? node := get_node id in
  match node with
  | None => st_ret tt
  | Some n =>
      let b := ballot n in
      if bool_decide (role b = Leader) then
        if 5 <=? saturating_sub now (last_heartbeat_tick b) then
          do? put_node id (set_ballot (heard now b) n);
          broadcast id [MsgHeartbeat (term b) id (commit_index (store n))] now
        else st_ret tt
      else if election_timeout b <=? saturating_sub now (last_heartbeat_tick b) then
        let? timeout := gen_range 15 30 in
        let b := candidacy id now timeout b in
        do? put_node id (set_ballot b n);
        broadcast id [MsgRequestVote (term b) id (commit_index (store n))] now
      else st_ret tt
  end.

Definition active_ids (c : SimCluster) : list N :=
  node_id <$> filter (fun n => status (ballot n) = NodeActive) (btree_values (nodes c)).

Definition tick_nodes (now : N) : sim SimCluster unit :=
  let? ids := look active_ids in
  st_for (tick_node now) ids.

Definition cluster_step (now : N) : sim SimCluster unit :=
  let? packets := (fun '(c, g) => let '(n, ready) := drain_ready now (network c) in
                                  ((set_network n c, g), Ok ready)) in
  do? st_for (fun p => process_packet (pk_from p) (pk_to p) (pk_payload p) now) packets;
  tick_nodes now.

(** ** Elections and crashes *)

Definition trigger_election (candidate_id now : N) : sim SimCluster unit :=
  let? node := get_node candidate_id in
  match node with
  | None => st_ret tt
  | Some n =>
      if bool_decide (status (ballot n) = NodeActive) then
        let? timeout := gen_range 15 30 in
        let b := candidacy candidate_id now timeout (ballot n) in
        do? put_node candidate_id (set_ballot b n);
        broadcast candidate_id [MsgRequestVote (term b) candidate_id (commit_index (store n))] now
      else st_ret tt
  end.

Definition crash_node (id : N) (torn_write : bool) : sim SimCluster unit :=
  let? node := get_node id in
  do? (match node with
       | None => st_ret tt
       | Some n =>
           let b := ballot n in
           let b := mkBallot NodeCrashed Follower (term b) false None ∅ (last_heartbeat_tick b)
                      (election_timeout b) in
           let? d := (fun '(c, g) => match disk_crash torn_write (disk (store n), g) with
                                     | ((d, g), Ok _) => ((c, g), Ok d)
                                     | ((_, g), Err e) => ((c, g), Err e)
                                     end) in
           put_node id (set_store (set_disk d (set_uncommitted ∅ (set_pending ∅ (store n)))) (set_ballot b n))
       end);
  change (fun c => set_network (net_isolate id (network c)) c).

Definition reboot_node (id now : N) : sim SimCluster unit :=
  let? node := get_node id in
  let? last_index :=
    (match node with
     | None => st_ret 0
     | Some n =>
         let n := recover n in
         let b := ballot n in
         let? timeout := gen_range 15 30 in
         let b := mkBallot NodeActive Follower (term b) false None ∅ now timeout in
         do? put_node id (set_ballot b n);
         st_ret (commit_index (store n))
     end) in
  do? change (fun c => set_network (net_unisolate id (network c)) c);
  broadcast id [MsgCatchupRequest id last_index] now.

End cluster.

(** ** The oracle *)

Inductive OracleViolation : Type :=
| WealthLeak (node expected actual : N) (drift : Z)
| NegativeBalance (node : N) (account : AccountId)
| SplitBrain (node_a node_b : N) (index : nat).

(** [as i128] on a [u128]. *)
Definition as_i128 (n : N) : Z := if n <=? I128_MAX then Z.of_N n else (Z.of_N n - 2 ^ 128)%Z.

Fixpoint posted_wealth (node : N) (ledger : Ledger) (accounts : list AccountId) (expected total : N) :
    result OracleViolation N :=
  match accounts with
  | [] => Ok total
  | id :: rest =>
      account ← map_err (fun _ => NegativeBalance node id) (get_account ledger id);
      let credits := credits_posted (acc_balance account) in
      let debits := debits_posted (acc_balance account) in
      if credits <? debits then Err (NegativeBalance node id)
      else
        total ← ok_or (checked_add U128_MAX total (credits - debits))
                  (WealthLeak node expected U128_MAX (Z.of_N I128_MAX));
        posted_wealth node ledger rest expected total
  end.

(** The subtraction of the drift is overflow checked. *)
Definition assert_conservation (node : N) (ledger : Ledger) (accounts : list AccountId) (expected : N) :
    result (halt + OracleViolation) unit :=
  match verify_invariants ledger with
  | Err _ => Err (inr (WealthLeak node expected 0 (-1)))
  | Ok _ =>
      total ← map_err inr (posted_wealth node ledger accounts expected 0);
      if total =? expected then Ok tt
      else
        let drift := (as_i128 total - as_i128 expected)%Z in
        if ((- 2 ^ 127 <=? drift) && (drift <=? Z.of_N I128_MAX))%Z
        then Err (inr (WealthLeak node expected total drift)) else Err (inl Panicked)
  end.

Fixpoint first_difference (i : nat) (a b : list LedgerEvent) : option nat :=
  match a, b with
  | x :: a', y :: b' => if decide (x = y) then first_difference (S i) a' b' else Some i
  | _, _ => None
  end.
Definition assert_log_agreement (node_a : N) (a : list LedgerEvent) (node_b : N) (b : list LedgerEvent) :
    result OracleViolation unit :=
  match first_difference 0 a b with Some i => Err (SplitBrain node_a node_b i) | None => Ok tt end.

Fixpoint pairs_agree (ns : list SimNode) : result OracleViolation unit :=
  match ns with
  | [] => Ok tt
  | a :: rest =>
      _ ← try_fold (fun _ b => assert_log_agreement (node_id a) (journal (nd_ledger (store a)))
                                 (node_id b) (journal (nd_ledger (store b)))) rest tt;
      pairs_agree rest
  end.

Definition verify_cluster (c : SimCluster) : result (halt + OracleViolation) unit :=
  let active := filter (fun n => status (ballot n) = NodeActive) (btree_values (nodes c)) in
  _ ← try_fold (fun _ n => assert_conservation (node_id n) (nd_ledger (store n)) (cl_accounts c)
                             (total_wealth c)) active tt;
  map_err inr (pairs_agree active).
