(* ===== verification/SimScenario.v ===== *)
(** * The simulator's schedules and its command line

    [simulator/src/scenario.rs] and [simulator/src/main.rs].  A scenario runs the
    cluster, the workload and the clock together in the monad of [SimNet]; its rates are
    the decimal fractions of the source.  Printing is left out of [main]. *)

From Stdlib Require Import QArith_base.
From S2P Require Import Bytes Error Amount Account Transfer Ledger LedgerVerify WalRecord WalScan SimNet SimNode SimCluster.
From stdpp Require Import list gmap strings.
From S2P Require Import Prelude.
#[local] Open Scope N_scope.
#[local] Open Scope st_scope.

Inductive ScenarioType : Type := NetworkPartition | CrashTornWrite | ChaosSoak.

Record ScenarioReport : Type := mkReport {
  scenario : ScenarioType;
  rep_seed : N;
  total_ticks : N;
  ops_proposed : N;
  ops_committed : N;
  rep_delivered : N;
  rep_dropped : N;
}.

(** The local variables of a run. *)
Record Sim : Type := mkSim {
  sm_cluster : SimCluster;
  sm_workload : WorkloadGenerator;
  sm_clock : SimClock;
  sm_proposed : N;
}.

Section scenario.
Context `{Crc32c, EntryCodec, Rng}.
(** How often the workload may draw a receiver again. *)
Context (fuel : nat).

Definition in_cluster {A} (m : sim SimCluster A) : sim Sim A :=
  fun '(s, g) => match m (sm_cluster s, g) with
                 | ((c, g), r) => ((mkSim c (sm_workload s) (sm_clock s) (sm_proposed s), g), r)
                 end.
Definition in_workload {A} (m : sim WorkloadGenerator A) : sim Sim A :=
  fun '(s, g) => match m (sm_workload s, g) with
                 | ((w, g), r) => ((mkSim (sm_cluster s) w (sm_clock s) (sm_proposed s), g), r)
                 end.

(** [clock.advance(1); clock.now()]. *)
Definition next_tick : sim Sim N :=
  fun '(s, g) => let t := clock_advance 1 (sm_clock s) in
                 ((mkSim (sm_cluster s) (sm_workload s) t (sm_proposed s), g), Ok t).

(** [ops_proposed += 1], overflow checked. *)
Definition count_proposed : sim Sim unit :=
  fun '(s, g) => match checked_add U64_MAX (sm_proposed s) 1 with
                 | Some n => ((mkSim (sm_cluster s) (sm_workload s) (sm_clock s) n, g), Ok tt)
                 | None => ((s, g), Err Panicked)
                 end.

Definition propose_next (now : N) : sim Sim unit :=
  let? op := in_workload (next_op fuel) in
  let? accepted := in_cluster (propose_op op now) in
  if (accepted : bool) then count_proposed else st_ret tt.

Definition when (b : bool) (m : sim Sim unit) : sim Sim unit := if b then m else st_ret tt.
Definition with_network (f : SimNetwork ClusterMessage -> SimNetwork ClusterMessage) : sim Sim unit :=
  in_cluster (change (fun c => set_network (f (network c)) c)).

Definition ticks (max_ticks : N) : list N := N.of_nat <$> seq 1 (N.to_nat max_ticks).

(** The ticks after the workload ends. *)
Definition settle_ticks (n : nat) : sim Sim unit :=
  st_for (fun _ => let? now := next_tick in in_cluster (cluster_step now)) (seq 0 n).

Definition partition_tick (max_ticks tick : N) : sim Sim unit :=
  let? now := next_tick in
  do? when (tick =? 30) (with_network (net_partition {[1; 2]} {[3]}));
  do? when (tick =? 100) (do? with_network net_heal; in_cluster (reboot_node 3 now));
  do? when ((tick mod 3 =? 0) && (tick <? saturating_sub max_ticks 20)) (propose_next now);
  in_cluster (cluster_step now).

Definition crash_tick (max_ticks tick : N) : sim Sim unit :=
  let? now := next_tick in
  do? when (tick =? 40) (do? in_cluster (crash_node 1 true); in_cluster (trigger_election 2 now));
  do? when (tick =? 90) (in_cluster (reboot_node 1 now));
  do? when ((tick mod 3 =? 0) && (tick <? saturating_sub max_ticks 20)) (propose_next now);
  in_cluster (cluster_step now).

Definition reboot_crashed (now id : N) : sim Sim unit :=
  let? node := in_cluster (get_node id) in
  when (bool_decide (status ∘ ballot <$> node = Some NodeCrashed)) (in_cluster (reboot_node id now)).

Definition soak_tick (max_ticks tick : N) : sim Sim unit :=
  let? now := next_tick in
  do? (if tick mod 50 =? 0 then
         let? victim := gen_range 1 3 in
         in_cluster (crash_node victim true)
       else when (tick mod 50 =? 25) (st_for (reboot_crashed now) [1; 2; 3]));
  do? when ((tick mod 2 =? 0) && (tick <? saturating_sub max_ticks 40)) (propose_next now);
  in_cluster (cluster_step now).

Definition start (config : NetworkConfig) (account_ids : list N) (balance first_id : N) : Sim :=
  mkSim (new_3_node config account_ids balance) (Workload_new account_ids first_id) 0 0.

(** Runs a schedule, checks the cluster and reports. *)
Definition conclude (kind : ScenarioType) (seed : N) (committed : SimCluster -> N)
    (run : (Sim * rng) * result halt unit) : result (halt + OracleViolation) ScenarioReport :=
  match run with
  | (_, Err h) => Err (inl h)
  | ((s, _), Ok _) =>
      let c := sm_cluster s in
      _ ← verify_cluster c;
      Ok (mkReport kind seed (sm_clock s) (sm_proposed s) (committed c)
            (packets_delivered (network c)) (packets_dropped (network c)))
  end.

Definition committed_at (id : N) (c : SimCluster) : N :=
  default 0 ((fun n => N.of_nat (size (committed_ops (store n)))) <$> nodes c !! id).
Definition most_committed (c : SimCluster) : N :=
  foldr (fun n acc => N.max (N.of_nat (size (committed_ops (store n)))) acc) 0 (btree_values (nodes c)).

Definition run_partition (seed max_ticks : N) : result (halt + OracleViolation) ScenarioReport :=
  conclude NetworkPartition seed (committed_at 1)
    ((do? st_for (partition_tick max_ticks) (ticks max_ticks); settle_ticks 20)
       (start (mkNetConfig 1 5 0 0) [101; 102; 103; 104] 100000 10000, seed_from_u64 seed)).

Definition run_crash_torn_write (seed max_ticks : N) : result (halt + OracleViolation) ScenarioReport :=
  conclude CrashTornWrite seed (committed_at 2)
    ((do? st_for (crash_tick max_ticks) (ticks max_ticks); settle_ticks 25)
       (start (mkNetConfig 1 4 0 0) [201; 202; 203; 204] 200000 20000, seed_from_u64 seed)).

Definition run_chaos_soak (seed max_ticks : N) : result (halt + OracleViolation) ScenarioReport :=
  conclude ChaosSoak seed most_committed
    ((do? st_for (soak_tick max_ticks) (ticks max_ticks);
      do? with_network net_heal;
      let? now := st_reads (fun '(s, _) => Ok (sm_clock s)) in
      do? st_for (fun id => in_cluster (reboot_node id now)) [1; 2; 3];
      settle_ticks 50)
       (start (mkNetConfig 1 8 (5 # 100) (2 # 100)) [301; 302; 303; 304; 305] 500000 30000,
        seed_from_u64 seed)).

Definition run_scenario (kind : ScenarioType) (seed max_ticks : N) :
    result (halt + OracleViolation) ScenarioReport :=
  match kind with
  | NetworkPartition => run_partition seed max_ticks
  | CrashTornWrite => run_crash_torn_write seed max_ticks
  | ChaosSoak => run_chaos_soak seed max_ticks
  end.

(** ** The command line *)

Inductive ExitCode : Type := EXIT_SUCCESS | EXIT_FAILURE.

Record Args : Type := mkArgs { arg_seed : N; arg_steps : N; arg_scenario : string; arg_fuzz : option N }.
Definition default_args : Args := mkArgs 42 200 "all" None.

(** [str::parse::<u64>]. *)
Definition parse_u64 (s : string) : option N :=
  n ← parse_u128 s; if n <=? U64_MAX then Some n else None.

(** The arguments after the program's name; an exit code ends the program at once. *)
Fixpoint parse_args (args : list string) (a : Args) : ExitCode + Args :=
  match args with
  | [] => inr a
  | arg :: rest =>
      if String.eqb arg "--seed" then
        match rest with
        | val :: rest => parse_args rest (mkArgs (default 42 (parse_u64 val)) (arg_steps a) (arg_scenario a) (arg_fuzz a))
        | [] => inl EXIT_FAILURE
        end
      else if String.eqb arg "--steps" then
        match rest with
        | val :: rest => parse_args rest (mkArgs (arg_seed a) (default 200 (parse_u64 val)) (arg_scenario a) (arg_fuzz a))
        | [] => inl EXIT_FAILURE
        end
      else if String.eqb arg "--scenario" then
        match rest with
        | val :: rest => parse_args rest (mkArgs (arg_seed a) (arg_steps a) val (arg_fuzz a))
        | [] => inl EXIT_FAILURE
        end
      else if String.eqb arg "--fuzz" then
        match rest with
        | val :: rest => parse_args rest (mkArgs (arg_seed a) (arg_steps a) (arg_scenario a) (Some (default 20 (parse_u64 val))))
        | [] => inl EXIT_FAILURE
        end
      else if String.eqb arg "--help" || String.eqb arg "-h" then inl EXIT_SUCCESS
      else inl EXIT_FAILURE
  end.

Definition all_scenarios : list ScenarioType := [NetworkPartition; CrashTornWrite; ChaosSoak].

Definition scenarios_of (name : string) : option (list ScenarioType) :=
  if String.eqb name "partition" then Some [NetworkPartition]
  else if String.eqb name "crash" then Some [CrashTornWrite]
  else if String.eqb name "soak" then Some [ChaosSoak]
  else if String.eqb name "all" then Some all_scenarios
  else None.

(** Runs scenarios until one fails; a panic ends the program. *)
Fixpoint run_all (seed steps : N) (kinds : list ScenarioType) : result halt ExitCode :=
  match kinds with
  | [] => Ok EXIT_SUCCESS
  | kind :: rest =>
      match run_scenario kind seed steps with
      | Ok _ => run_all seed steps rest
      | Err (inr _) => Ok EXIT_FAILURE
      | Err (inl h) => Err h
      end
  end.

Definition wrapping_add_u64 (a b : N) : N := (a + b) mod 2 ^ 64.

(** The fuzz campaign over consecutive seeds. *)
Fixpoint fuzz (seed steps : N) (iterations : list N) : result halt ExitCode :=
  match iterations with
  | [] => Ok EXIT_SUCCESS
  | i :: rest =>
      match run_all (wrapping_add_u64 seed i) steps all_scenarios with
      | Ok EXIT_SUCCESS => fuzz seed steps rest
      | r => r
      end
  end.

Definition main (args : list string) : result halt ExitCode :=
  match parse_args (tail args) default_args with
  | inl code => Ok code
  | inr a =>
      match arg_fuzz a with
      | Some count => fuzz (arg_seed a) (arg_steps a) (N.of_nat <$> seq 0 (N.to_nat count))
      | None =>
          match scenarios_of (arg_scenario a) with
          | Some kinds => run_all (arg_seed a) (arg_steps a) kinds
          | None => Ok EXIT_FAILURE
          end
      end
  end.

End scenario.
