(* ===== verification/SimInv.v ===== *)
(** * Nodes and their disks

    What a node's store holds after a list of decided operations: the ledger they give,
    the same operations in its log, and their frames on its disk, perhaps with a torn
    tail.  Applying an operation extends the list, a crash touches the tail only, and
    recovery reads the list back and cuts the tail off. *)

From Stdlib Require Import QArith_base.
From S2P Require Import Bytes Error Amount Account Transfer Ledger LedgerStep LedgerInv WalRecord WalScan WalInv SimNet SimNode.
From stdpp Require Import list gmap.
From S2P Require Import Prelude.
#[local] Open Scope N_scope.

(** ** The ledger's side *)

Abbreviation decision := (WorkloadOp * N)%type.

Definition replay_ops (l : Ledger) (es : list decision) : Ledger :=
  foldl (fun l '(op, ts) => apply_to_ledger op ts l) l es.

Lemma replay_ops_snoc l es op ts :
  replay_ops l (es ++ [(op, ts)]) = apply_to_ledger op ts (replay_ops l es).
Proof. unfold replay_ops. by rewrite foldl_snoc. Qed.

(** The batch operation behind a workload operation, when its transfer is well formed. *)
Definition batch_op (op : WorkloadOp) (ts : N) : option BatchOp :=
  match op with
  | DirectTransfer id from to amount => OpTransfer <$> result_ok (new_immediate id from to amount ts)
  | WCreatePending id from to amount => OpPending <$> result_ok (new_pending id from to amount ts)
  | WPostPending pending post amount => Some (OpPostPending pending post amount ts)
  | WVoidPending pending _ => Some (OpVoidPending pending ts)
  end.

Lemma apply_to_ledger_batch op ts l :
  apply_to_ledger op ts l =
    match batch_op op ts with Some b => (apply_batch_op b l).1 | None => l end.
Proof. destruct op; simpl; [destruct (new_immediate _ _ _ _ _)|destruct (new_pending _ _ _ _ _)|..]; done. Qed.

(** An operation is one transition of the ledger or none. *)
Lemma apply_to_ledger_step op ts l :
  apply_to_ledger op ts l = l \/
  exists b ev, batch_op op ts = Some b /\ op_event l b = Some ev /\ lstep l ev (apply_to_ledger op ts l).
Proof.
  rewrite apply_to_ledger_batch. destruct (batch_op op ts) as [b|]; [|by left].
  destruct (apply_batch_op b l) as [l' [[]|e]] eqn:E; simpl.
  - right. apply apply_batch_op_ok in E as (ev & ? & ?). eauto.
  - left. by eapply apply_batch_op_err.
Qed.

Lemma replay_ops_run l es : exists evs, run l evs (replay_ops l es).
Proof.
  revert l. induction es as [|[op ts] es IH]; intros l; [exists []; constructor|].
  destruct (IH (apply_to_ledger op ts l)) as [evs Hr].
  destruct (apply_to_ledger_step op ts l) as [E|(b & ev & _ & _ & Hs)].
  - exists evs. cbn. by rewrite E in Hr |- *.
  - exists (ev :: evs). by econstructor.
Qed.

(** More decisions only extend the journal. *)
Lemma replay_ops_prefix l es es' :
  es `prefix_of` es' -> journal (replay_ops l es) `prefix_of` journal (replay_ops l es').
Proof.
  intros [k ->]. unfold replay_ops at 2. rewrite foldl_app. fold (replay_ops l es).
  destruct (replay_ops_run (replay_ops l es) k) as [evs Hr].
  destruct (run_frame _ _ _ Hr) as (_ & E & _). fold (replay_ops (replay_ops l es) k). rewrite E. by eexists.
Qed.

(** ** Frames on the disk *)

Definition decision_fits (v : decision) : Prop := op_fits v.1 /\ v.2 <= U64_MAX.

(** The tail a crash can leave behind: nothing, or bytes that start like no frame. *)
Definition torn_tail (tail : bytes) : Prop := tail = [] \/ exists rest, tail = xee :: rest.

Lemma lenN_snoc {A} (l : list A) x : lenN (l ++ [x]) = lenN l + 1.
Proof. unfold lenN. rewrite length_app. simpl. lia. Qed.

Lemma lenN_cons {A} (x : A) l : lenN (x :: l) = lenN l + 1.
Proof. unfold lenN. simpl. lia. Qed.

Lemma torn_fragment_tail n : torn_tail (torn_fragment n).
Proof. destruct n; [by left|right]. unfold torn_fragment. simpl. by eexists. Qed.

Lemma torn_tail_app a b : torn_tail a -> torn_tail b -> torn_tail (a ++ b).
Proof. intros [-> | [r ->]]; [done|]. intros _. right. by eexists. Qed.

Section disk.
Context `{Crc32c, EntryCodec}.

Lemma torn_tail_torn max tail : torn_tail tail -> torn max tail.
Proof.
  intros [-> | [r ->]]; [apply torn_nil|]. intros fetch seq len p E.
  apply scan_sound in E as (flags & q & rest & Ed & _). unfold frame_of, header in Ed. done.
Qed.

Definition entry_bytes (i : N) (v : decision) : bytes :=
  default [] (result_ok (entry_to_allocvec (mkEntry i v.2 v.1))).
Fixpoint entries_bytes (i : N) (es : list decision) : list bytes :=
  match es with
  | [] => []
  | v :: rest => entry_bytes i v :: entries_bytes (i + 1) rest
  end.

Lemma entry_bytes_ok i v :
  i <= U64_MAX -> decision_fits v ->
  entry_to_allocvec (mkEntry i v.2 v.1) = Ok (entry_bytes i v) /\
  entry_from_bytes (entry_bytes i v) = Ok (mkEntry i v.2 v.1) /\ lenN (entry_bytes i v) <= 256.
Proof.
  intros Hi [Ho Ht]. destruct (entry_roundtrip (mkEntry i v.2 v.1)) as (bs & E & ? & ?); [done|].
  unfold entry_bytes. by rewrite E.
Qed.

Lemma entries_bytes_snoc i es v :
  entries_bytes i (es ++ [v]) = entries_bytes i es ++ [entry_bytes (i + lenN es) v].
Proof.
  revert i. induction es as [|w es IH]; intros i; cbn [entries_bytes app].
  - unfold lenN. simpl. by rewrite N.add_0_r.
  - rewrite IH, lenN_cons. by replace (i + 1 + lenN es) with (i + (lenN es + 1)) by lia.
Qed.

Lemma length_entries_bytes i es : length (entries_bytes i es) = length es.
Proof. revert i. induction es; intros i; simpl; auto. Qed.

Lemma lenN_entries_bytes i es : lenN (entries_bytes i es) = lenN es.
Proof. unfold lenN. by rewrite length_entries_bytes. Qed.

Lemma entries_bounds i es :
  Forall decision_fits es -> i + lenN es <= U64_MAX ->
  log_bounds DEFAULT_MAX_PAYLOAD_LEN i (entries_bytes i es).
Proof.
  intros Hf Hi. constructor; [done| |rewrite lenN_entries_bytes; unfold U64_MAX in *; lia].
  revert i Hi. induction Hf as [|v es Hv _ IH]; intros i Hi; [constructor|]. rewrite lenN_cons in Hi.
  constructor; [|apply IH; lia].
  destruct (entry_bytes_ok i v) as (_ & _ & ?); [lia|done|]. unfold DEFAULT_MAX_PAYLOAD_LEN. lia.
Qed.

(** ** Stores *)

(** The numbered log: the decision at position [i] of the list has index [i + 1]. *)
Definition log_at (es : list decision) (i : N) : option decision :=
  if i =? 0 then None else es !! N.to_nat (i - 1).

Record store_ok (base : Ledger) (es : list decision) (tail : bytes) (s : Store) : Prop := {
  so_ledger : nd_ledger s = replay_ops base es;
  so_committed : forall i, committed_ops s !! i = log_at es i;
  so_index : commit_index s = lenN es;
  so_flushed : flushed (disk s) = log_from 1 (entries_bytes 1 es) ++ tail;
  so_buffered : buffered (disk s) = [];
  so_fits : Forall decision_fits es;
  so_room : lenN es < U64_MAX;
  so_tail : torn_tail tail;
}.

Lemma log_at_lt es i v : log_at es i = Some v -> 1 <= i <= lenN es.
Proof.
  unfold log_at, lenN. destruct (N.eqb_spec i 0); [done|]. intros E.
  apply lookup_lt_Some in E. lia.
Qed.

Lemma log_at_some es i : 1 <= i <= lenN es -> is_Some (log_at es i).
Proof.
  unfold log_at, lenN. intros Hi. destruct (N.eqb_spec i 0); [lia|]. apply lookup_lt_is_Some. lia.
Qed.

Lemma log_at_snoc es v i :
  log_at (es ++ [v]) i = if i =? lenN es + 1 then Some v else log_at es i.
Proof.
  unfold log_at, lenN. destruct (N.eqb_spec i 0) as [->|Hz].
  { destruct (N.eqb_spec 0 (N.of_nat (length es) + 1)); [lia|done]. }
  destruct (N.eqb_spec i (N.of_nat (length es) + 1)) as [->|Hne].
  - replace (N.to_nat _) with (length es) by lia. by rewrite lookup_app_r, Nat.sub_diag by lia.
  - destruct (decide (N.to_nat (i - 1) < length es)%nat).
    + by rewrite lookup_app_l by done.
    + rewrite lookup_app_r, lookup_ge_None_2, lookup_ge_None_2 by (simpl; lia). done.
Qed.

(** What both ways of applying the next operation do to memory. *)
Record memory_ok (base : Ledger) (es : list decision) (s : Store) : Prop := {
  mo_ledger : nd_ledger s = replay_ops base es;
  mo_committed : forall i, committed_ops s !! i = log_at es i;
  mo_index : commit_index s = lenN es;
}.

Lemma apply_in_memory_ok base es s op ts :
  memory_ok base es s -> memory_ok base (es ++ [(op, ts)]) (apply_op_in_memory (lenN es + 1) op ts s).
Proof.
  intros [Hl Hc Hi]. constructor; simpl.
  - by rewrite replay_ops_snoc, Hl.
  - intros i. rewrite log_at_snoc, <- Hc. destruct (N.eqb_spec i (lenN es + 1)) as [->|Hne].
    + by rewrite lookup_insert_eq.
    + by rewrite lookup_insert_ne.
  - rewrite lenN_snoc, Hi. lia.
Qed.

Lemma store_memory base es tail s : store_ok base es tail s -> memory_ok base es s.
Proof. by intros [? ? ? _ _ _ _ _]. Qed.

Lemma encode_entry_frame i p :
  lenN p <= 256 -> WalRecord.encode i p DEFAULT_MAX_PAYLOAD_LEN = Ok (frame_of MAGIC VERSION x00 i p).
Proof.
  intros Hp. unfold WalRecord.encode, encode_into, encode_frame_into.
  rewrite encode_frame_append_eq by lia.
  replace (DEFAULT_MAX_PAYLOAD_LEN <? lenN p) with false; [done|].
  symmetry. apply N.ltb_ge. unfold DEFAULT_MAX_PAYLOAD_LEN. lia.
Qed.

Lemma apply_op_ok base es s op ts :
  store_ok base es [] s -> decision_fits (op, ts) -> lenN es + 1 < U64_MAX ->
  store_ok base (es ++ [(op, ts)]) [] (apply_op (lenN es + 1) op ts s).
Proof.
  intros Hs Hv Hr. pose proof (apply_in_memory_ok _ _ _ op ts (store_memory _ _ _ _ Hs)) as [Hl Hc Hi].
  destruct Hs as [_ _ _ Hf Hb Hfit _ _].
  destruct (entry_bytes_ok (lenN es + 1) (op, ts)) as (E & _ & Hlen); [lia|done|].
  unfold apply_op. simpl in E. rewrite E, (encode_entry_frame _ _ Hlen).
  constructor; simpl; try done.
  - rewrite Hb, Hf, entries_bytes_snoc, log_from_app, !app_nil_r. simpl. rewrite app_nil_r.
    by rewrite lenN_entries_bytes, N.add_comm.
  - apply Forall_app. auto.
  - by rewrite lenN_snoc.
  - by left.
Qed.

(** ** Recovery *)

Lemma recover_loop_ok base es done_ s fuel rd valid tail :
  memory_ok base done_ s -> Forall decision_fits es -> lenN done_ + lenN es < U64_MAX ->
  benign rd -> rd_data rd = log_from (lenN done_ + 1) (entries_bytes (lenN done_ + 1) es) ++ tail ->
  torn_tail tail -> (length es < fuel)%nat ->
  exists s', recover_loop fuel rd valid s =
    (s', (valid + length (log_from (lenN done_ + 1) (entries_bytes (lenN done_ + 1) es)))%nat) /\
    memory_ok base (done_ ++ es) s' /\ disk s' = disk s /\
    pending_commits s' = pending_commits s /\ uncommitted s' = uncommitted s.
Proof.
  revert es done_ s rd valid. induction fuel as [|fuel IH]; intros es done_ s rd valid Hm Hf Hlt Hb Hd Ht Hfu; [lia|].
  destruct (next_record_benign rd DEFAULT_MAX_PAYLOAD_LEN true Hb) as (rd' & Hb' & E & Hd').
  cbn [recover_loop]. rewrite E, Hd in *. destruct Hf as [|[op ts] es Hv Hf].
  - cbn [entries_bytes log_from app length] in *. rewrite Nat.add_0_r, app_nil_r.
    destruct (scan _ true tail) eqn:Es; [by apply (torn_tail_torn _ _ Ht) in Es|eauto 6..].
  - assert (log_bounds DEFAULT_MAX_PAYLOAD_LEN (lenN done_ + 1) (entries_bytes (lenN done_ + 1) ((op, ts) :: es)))
      as Hlb by (apply entries_bounds; [by constructor|lia]).
    cbn [entries_bytes] in *. rewrite (scan_log _ true _ _ _ tail Hlb) in *.
    specialize (Hd' _ _ _ eq_refl). rewrite lenN_cons in Hlt.
    destruct (entry_bytes_ok (lenN done_ + 1) (op, ts)) as (_ & Er & _); [lia|done|].
    rewrite Er. cbn [we_index we_op we_timestamp fst snd].
    rewrite drop_log in Hd' by (unfold lenN; lia).
    rewrite <- (lenN_snoc done_ (op, ts)) in Hd'.
    destruct (IH es (done_ ++ [(op, ts)]) (apply_op_in_memory (lenN done_ + 1) op ts s) rd'
      (valid + frame_len (N.to_nat (lenN (entry_bytes (lenN done_ + 1) (op, ts)))))%nat)
      as (s' & Es & Hm' & Hdk & Hp & Hu);
      [by apply apply_in_memory_ok|done|rewrite lenN_snoc; lia|done|done|done|simpl in Hfu; lia|].
    exists s'. rewrite Es. rewrite <- app_assoc in Hm'. split_and!; try done.
    rewrite length_log_from_cons, lenN_snoc. unfold lenN at 1. rewrite Nat2N.id. f_equal. lia.
Qed.

Lemma recover_ok base es tail n :
  base = base_ledger (nd_scale n) (nd_accounts n) (initial_balance n) ->
  store_ok base es tail (store n) ->
  exists s, recover n = set_store s n /\ store_ok base es [] s /\ pending_commits s = ∅ /\ uncommitted s = ∅.
Proof.
  intros -> [Hl Hc Hi Hf Hb Hfit Hr Ht]. unfold recover.
  set (base := base_ledger _ _ _) in *.
  destruct (recover_loop_ok base es [] (mkStore base (disk (store n)) ∅ ∅ ∅ 0)
    (S (length (flushed (disk (store n))))) (mkReader (flushed (disk (store n))) []) 0 tail)
    as (s & -> & [Hl' Hc' Hi'] & Hdk & Hp & Hu); try done.
  - constructor; try done. intros i. unfold log_at. by destruct (i =? 0).
  - apply not_elem_of_nil.
  - rewrite Hf, length_app. pose proof (length_log_ge 1 (entries_bytes 1 es)) as Hlen.
    rewrite length_entries_bytes in Hlen. lia.
  - eexists. split; [done|]. simpl. split_and!; try done. constructor; simpl; try done.
    + rewrite Hdk. simpl. by rewrite Hf, take_app_length, app_nil_r.
    + by rewrite Hdk.
    + by left.
Qed.

(** ** Crashes *)

Lemma disk_crash_ok `{Rng} base es tail s torn_write g :
  store_ok base es tail s ->
  exists d g' tail', disk_crash torn_write (disk s, g) = ((d, g'), Ok tt) /\
    store_ok base es tail' (set_disk d (set_uncommitted ∅ (set_pending ∅ s))).
Proof.
  intros [Hl Hc Hi Hf Hb Hfit Hr Ht]. unfold disk_crash, st_bind, st_modify, st_reads, st_ret. simpl.
  assert (forall t, torn_tail t -> exists d g' tail',
    ((mkDisk (flushed (disk s) ++ t) [] (writes_count (disk s)) (syncs_count (disk s))
       (u64_sat_add (crashes_count (disk s)) 1), g), @Ok halt unit tt) = ((d, g'), Ok tt) /\
    store_ok base es tail' (set_disk d (set_uncommitted ∅ (set_pending ∅ s)))) as Hgo.
  { intros t Htt. eexists _, _, (tail ++ t). split; [done|].
    constructor; simpl; try done; [by rewrite Hf, app_assoc|by apply torn_tail_app]. }
  destruct torn_write; simpl; [|apply Hgo; by left]. rewrite Hb, bool_decide_true by done. simpl.
  case_bool_decide; simpl; [apply Hgo; by left|].
  destruct (draw_range 1 15 g) as [k g1] eqn:Eg. simpl.
  destruct (Hgo (torn_fragment (N.to_nat k)) (torn_fragment_tail _)) as (d & g2 & t & E & Hs).
  exists d, g1, t. injection E as <- _. done.
Qed.

End disk.
