(* ===== verification/SimSafe.v ===== *)
(** * The cluster's invariant

    Decisions of the simulated cluster, kept as ghost state: [D] maps an index to the
    operation and time decided for it, [P] to the node that proposed it.  Only the
    proposer of an index can decide it, because acknowledgements go to the sender of a
    proposal; every other node learns the decision from a commit or a catch-up reply.
    The invariant is proved of every handler by weakest preconditions, so that a run is
    also shown not to panic. *)

From Stdlib Require Import QArith_base.
From S2P Require Import Bytes Error Amount Account Transfer Ledger WalRecord SimNet SimNode SimCluster SimInv.
From stdpp Require Import list gmap.
From S2P Require Import Prelude.
#[local] Open Scope N_scope.
#[local] Open Scope st_scope.

(** ** Weakest preconditions over all generators *)

Section wp.
Context `{Rng}.

Definition wp {X A} (m : sim X A) (Q : A -> X -> Prop) (x : X) : Prop :=
  forall g, match m (x, g) with ((x', _), Ok a) => Q a x' | (_, Err _) => False end.

Lemma wp_run {X A} (m : sim X A) Q x g :
  wp m Q x -> exists x' g' a, m (x, g) = ((x', g'), Ok a) /\ Q a x'.
Proof. intros Hw. specialize (Hw g). destruct (m (x, g)) as [[x' g'] [a|]]; [eauto 6|done]. Qed.

Lemma wp_ret {X A} (a : A) (Q : A -> X -> Prop) x : Q a x -> wp (st_ret a) Q x.
Proof. by intros ? g. Qed.

Lemma wp_bind {X A B} (m : sim X A) (f : A -> sim X B) Q x :
  wp m (fun a => wp (f a) Q) x -> wp (st_bind m f) Q x.
Proof. intros Hw g. specialize (Hw g). unfold st_bind. destruct (m (x, g)) as [[x' g'] [a|]]; [apply Hw|done]. Qed.

Lemma wp_mono {X A} (m : sim X A) (Q Q' : A -> X -> Prop) x :
  wp m Q x -> (forall a x', Q a x' -> Q' a x') -> wp m Q' x.
Proof. intros Hw HQ g. specialize (Hw g). destruct (m (x, g)) as [[x' g'] [a|]]; [by apply HQ|done]. Qed.

Lemma wp_for {X A} (f : A -> sim X unit) (I : X -> Prop) l x :
  (forall a x, a ∈ l -> I x -> wp (f a) (fun _ => I) x) -> I x -> wp (st_for f l) (fun _ => I) x.
Proof.
  revert x. induction l as [|a l IH]; intros x Hf Hx; [by apply wp_ret|].
  apply wp_bind. eapply wp_mono; [apply Hf; [left|done]|]. intros u x' Hx'. apply IH; [|done].
  intros b y Hb. apply Hf. by right.
Qed.

Lemma wp_modify {X} (f : X -> X) (Q : unit -> X -> Prop) x :
  Q tt (f x) -> wp (st_modify (fun '(x, g) => (f x, g))) Q x.
Proof. by intros ? g. Qed.

Lemma wp_reads {X A} (f : X -> A) (Q : A -> X -> Prop) x :
  Q (f x) x -> wp (st_reads (fun '(x, _) => Ok (f x))) Q x.
Proof. by intros ? g. Qed.

Lemma wp_gen_range {X} lo hi (Q : N -> X -> Prop) x :
  lo <= hi -> (forall n, lo <= n <= hi -> Q n x) -> wp (gen_range lo hi) Q x.
Proof.
  intros Hle HQ g. unfold gen_range. rewrite (proj2 (N.leb_le _ _) Hle).
  pose proof (draw_range_in lo hi g Hle). destruct (draw_range lo hi g) as [n g']. by apply HQ.
Qed.

Lemma wp_gen_bool {X} p (Q : bool -> X -> Prop) x : (forall b, Q b x) -> wp (gen_bool p) Q x.
Proof. intros HQ g. unfold gen_bool. destruct (draw_bool _ g). apply HQ. Qed.

End wp.

(** ** Networks *)

Lemma heap_push_perm {P} (e : ScheduledEvent P) q : heap_push e q ≡ₚ e :: q.
Proof.
  induction q as [|e' q IH]; simpl; [done|]. destruct (due_before e' e); [|done].
  rewrite IH. apply Permutation_swap.
Qed.

Section network.
Context `{Rng} {T : Type} (Φ : SimPacket T -> Prop).

(** Every packet in flight satisfies [Φ], and delays can be drawn. *)
Record network_ok (n : SimNetwork T) : Prop := {
  nk_queue : Forall (fun e => Φ (se_payload e)) (queue n);
  nk_delay : min_latency_ticks (nw_config n) <= max_latency_ticks (nw_config n);
}.

Lemma schedule_ok t p n : Φ p -> network_ok n -> network_ok (schedule t p n).
Proof. intros Hp [Hq Hd]. constructor; [|done]. simpl. rewrite heap_push_perm. by constructor. Qed.

Lemma net_send_ok from to m now n :
  Φ (mkPacket from to m) -> network_ok n -> wp (net_send from to m now) (fun _ => network_ok) n.
Proof.
  intros Hp Hn. unfold net_send.
  assert (forall a b c n, network_ok n -> network_ok (count_packets a b c n)) as Hc
    by (intros a b c n' [? ?]; by constructor).
  apply wp_bind, wp_modify, wp_bind, wp_reads. destruct (negb _); [by apply wp_modify, Hc, Hc|].
  apply wp_bind, wp_reads, wp_bind, wp_gen_bool. intros [|]; [by apply wp_modify, Hc, Hc|].
  apply wp_bind, wp_gen_range; [apply Hn|]. intros delay _.
  apply wp_bind, wp_modify, wp_bind, wp_gen_bool. intros [|].
  - apply wp_bind, wp_gen_range; [done|]. intros extra _. by apply wp_modify, schedule_ok, schedule_ok, Hc.
  - by apply wp_ret, schedule_ok, Hc.
Qed.

Lemma drain_forall now up (q : list (ScheduledEvent (SimPacket T))) :
  Forall (fun e => Φ (se_payload e)) q ->
  Forall (fun e => Φ (se_payload e)) (drain now up q).1.1 /\ Forall Φ (drain now up q).1.2.
Proof.
  induction 1 as [|e q He Hq IH]; simpl; [auto|]. destruct (execute_at e <=? now); [|split; by constructor].
  destruct (drain now up q) as [[q' ready] lost]. destruct (up _ _); simpl in *; naive_solver.
Qed.

Lemma drain_ready_ok now n :
  network_ok n -> network_ok (drain_ready now n).1 /\ Forall Φ (drain_ready now n).2.
Proof.
  intros [Hq Hd]. unfold drain_ready. destruct (drain_forall now (link_up n) _ Hq) as [? ?].
  destruct (drain _ _ _) as [[q ready] lost]. done.
Qed.

Lemma set_links_ok i p n : network_ok n -> network_ok (set_links i p n).
Proof. by intros [? ?]. Qed.

End network.

Lemma network_ok_mono {T} (Φ Ψ : SimPacket T -> Prop) n :
  (forall p, Φ p -> Ψ p) -> network_ok Φ n -> network_ok Ψ n.
Proof. intros HΦ [Hq Hd]. constructor; [|done]. eapply Forall_impl; [done|]. auto. Qed.

(** ** Decisions *)

Abbreviation decisions := (gmap N decision).
Abbreviation proposers := (gmap N N).

Section cluster.
Context `{Crc32c, EntryCodec, Rng}.
(** The ledger all nodes start from, what is known of every proposed operation, the
    accounts and supply the cluster is audited against, and indices whose proposal was
    lost with its proposer. *)
Context (base : Ledger) (good : WorkloadOp -> Prop) (audit : list AccountId * N) (lost : gset N).
Hypothesis good_fits : forall op, good op -> op_fits op.

Definition good_decision (v : decision) : Prop := good v.1 /\ v.2 <= U64_MAX.

Lemma good_decision_fits v : good_decision v -> decision_fits v.
Proof. intros [? ?]. split; auto. Qed.

Record ghost_ok (m : N) (D : decisions) (P : proposers) (next : N) : Prop := {
  gh_next : next <= m;
  gh_room : m < U64_MAX;
  gh_known : forall i k, P !! i = Some k -> 1 <= i <= next;
  gh_decided : forall i v, D !! i = Some v -> good_decision v /\ is_Some (P !! i);
  gh_lost : forall i, i ∈ lost -> D !! i = None /\ is_Some (P !! i);
}.

(** What a packet in flight says. *)
Definition packet_ok (D : decisions) (P : proposers) (p : SimPacket ClusterMessage) : Prop :=
  match pk_payload p with
  | MsgPropose _ i op => P !! i = Some (pk_from p) /\ good op /\ pk_from p <> pk_to p
  | MsgAck _ _ i => P !! i = Some (pk_to p)
  | MsgCommit _ i op ts => D !! i = Some (op, ts)
  | MsgCatchupResponse _ entries => Forall (fun '(i, op, ts) => D !! i = Some (op, ts)) entries
  | _ => True
  end.

(** The store of node [k] with the decisions [es] applied. *)
Record replica (D : decisions) (P : proposers) (k : N) (es : list decision) (tail : bytes) (s : Store) :
    Prop := {
  rp_store : store_ok base es tail s;
  rp_log : forall i v, log_at es i = Some v -> D !! i = Some v;
  rp_pending : forall i v, pending_commits s !! i = Some v ->
    good_decision v /\ (D !! i = Some v \/ (D !! i = None /\ P !! i = Some k));
  rp_uncommitted : forall i op acks, uncommitted s !! i = Some (op, acks) -> good op;
  rp_mine : forall i, is_Some (D !! i) -> P !! i = Some k -> i <= lenN es;
  rp_lost : forall i, i ∈ lost -> P !! i = Some k -> uncommitted s !! i = None /\ pending_commits s !! i = None;
}.

(** Node [k] has decided more of its own proposals. *)
Record grows (k : N) (P : proposers) (D D' : decisions) : Prop := {
  gr_sub : D ⊆ D';
  gr_mine : forall i, D !! i = None -> is_Some (D' !! i) -> P !! i = Some k;
}.

Lemma grows_refl k P D : grows k P D D.
Proof. constructor; [done|]. intros i E [v ?]. congruence. Qed.

Lemma grows_trans k P D1 D2 D3 : grows k P D1 D2 -> grows k P D2 D3 -> grows k P D1 D3.
Proof.
  intros [Hs1 Hm1] [Hs2 Hm2]. constructor; [by etrans|]. intros i E1 E3.
  destruct (D2 !! i) eqn:E2; eauto.
Qed.

Lemma packet_ok_mono D P D' P' p : D ⊆ D' -> P ⊆ P' -> packet_ok D P p -> packet_ok D' P' p.
Proof.
  intros HD HP. unfold packet_ok. destruct (pk_payload p); try done.
  - intros (? & ? & ?). split_and!; [by eapply lookup_weaken|done|done].
  - intros. by eapply lookup_weaken.
  - intros. by eapply lookup_weaken.
  - intros He. eapply Forall_impl; [done|]. intros [[i op] ts] ?. by eapply lookup_weaken.
Qed.

(** Decisions of others do not disturb a node, and neither do new proposals. *)
Lemma replica_grows D D' P k k' es tail s :
  k <> k' -> grows k P D D' -> replica D P k' es tail s -> replica D' P k' es tail s.
Proof.
  intros Hk [Hs Hm] [Hst Hl Hp Hu Hmi Hlo]. constructor; try done.
  - intros i v E. eapply lookup_weaken; eauto.
  - intros i v E. destruct (Hp i v E) as [Hg [Hd|[Hd HP]]]; (split; [done|]).
    + left. by eapply lookup_weaken.
    + right. split; [|done]. destruct (D' !! i) eqn:E'; [|done].
      specialize (Hm i Hd ltac:(eauto)). congruence.
  - intros i [v E] HP. apply Hmi; [|done]. destruct (D !! i) eqn:Ei; [eauto|].
    specialize (Hm i Ei ltac:(eauto)). congruence.
Qed.

Lemma replica_propose D P k i j es tail s :
  D !! i = None -> P !! i = None -> i ∉ lost -> replica D P k es tail s ->
  replica D (<[i := j]> P) k es tail s.
Proof.
  intros HD HP Hi [Hst Hl Hp Hu Hmi Hlo]. constructor; try done.
  - intros i' v E. destruct (Hp i' v E) as [Hg [Hd|[Hd HPi]]]; (split; [done|]); [by left|right].
    split; [done|]. rewrite lookup_insert_ne; [done|]. congruence.
  - intros i' [v E] HPi. apply Hmi; [eauto|]. rewrite lookup_insert_ne in HPi; [done|]. congruence.
  - intros i' Hi' HPi. apply Hlo; [done|]. rewrite lookup_insert_ne in HPi; [done|]. by intros ->.
Qed.

(** Changing what is not the log or the disk. *)
Lemma store_ok_frame es tail s s' :
  nd_ledger s' = nd_ledger s -> disk s' = disk s -> committed_ops s' = committed_ops s ->
  commit_index s' = commit_index s -> store_ok base es tail s -> store_ok base es tail s'.
Proof. intros E1 E2 E3 E4 []. constructor; rewrite ?E1, ?E2, ?E3, ?E4; done. Qed.

Lemma apply_op_frame i op ts s :
  pending_commits (apply_op i op ts s) = pending_commits s /\ uncommitted (apply_op i op ts s) = uncommitted s.
Proof. unfold apply_op. repeat case_match; done. Qed.

(** ** Applying pending commits *)

Lemma pending_step m D P next k es s v :
  ghost_ok m D P next -> replica D P k es [] s -> pending_commits s !! (lenN es + 1) = Some v ->
  exists D', ghost_ok m D' P next /\ grows k P D D' /\ D' !! (lenN es + 1) = Some v /\
    let s' := apply_op (lenN es + 1) v.1 v.2 (set_pending (delete (lenN es + 1) (pending_commits s)) s) in
    replica D' P k (es ++ [v]) [] (set_uncommitted (delete (lenN es + 1) (uncommitted s')) s').
Proof.
  intros [Hn Hr Hk Hd Hlo] [Hst Hl Hp Hu Hm Hrl] E. set (j := lenN es + 1) in *.
  destruct (Hp j v E) as [Hg HD]. exists (<[j := v]> D).
  assert (is_Some (P !! j)) as [pj HPj] by (destruct HD as [HD|[_ HP]]; [by eapply Hd|eauto]).
  assert (forall i, <[j := v]> D !! i = if decide (i = j) then Some v else D !! i) as Ej.
  { intros i. destruct (decide (i = j)) as [->|Hne]; [apply lookup_insert_eq|by apply lookup_insert_ne]. }
  split_and!.
  - constructor; try done.
    + intros i w. rewrite Ej. destruct (decide (i = j)) as [->|Hne]; [|apply Hd]. intros [= <-]. eauto.
    + intros i Hi. rewrite Ej. destruct (decide (i = j)) as [->|Hne]; [|by apply Hlo].
      destruct (Hlo j Hi) as [HDj _]. destruct HD as [HD|[_ HP]]; [congruence|].
      destruct (Hrl j Hi HP). congruence.
  - constructor.
    + apply map_subseteq_spec. intros i w. rewrite Ej. destruct (decide (i = j)) as [->|Hne]; [|done].
      destruct HD as [HD|[HD _]]; congruence.
    + intros i Ei. rewrite Ej. destruct (decide (i = j)) as [->|Hne]; [|rewrite Ei; by intros [? ?]].
      intros _. destruct HD as [HD|[_ HP]]; congruence.
  - apply lookup_insert_eq.
  - destruct (apply_op_frame j v.1 v.2 (set_pending (delete j (pending_commits s)) s)) as [Ep Eu].
    constructor; simpl.
    + destruct v as [op ts]. eapply store_ok_frame; last apply apply_op_ok; try done.
      * by eapply store_ok_frame; last exact Hst.
      * by apply good_decision_fits.
      * specialize (Hk _ _ HPj). lia.
    + intros i w. rewrite Ej, log_at_snoc. fold j.
      destruct (N.eqb_spec i j) as [->|Hne]; destruct (decide _); try done. apply Hl.
    + intros i w. rewrite Ep. simpl. rewrite lookup_delete_Some. intros [Hne E'].
      rewrite Ej. destruct (decide _); [congruence|]. by apply Hp.
    + intros i op acks. rewrite Eu, lookup_delete_Some. intros [_ E']. by eapply Hu.
    + intros i. rewrite Ej, lenN_snoc. fold j. destruct (decide (i = j)) as [->|Hne]; [lia|].
      intros Hi HP. specialize (Hm i Hi HP). lia.
    + intros i Hi HP. destruct (Hrl i Hi HP) as [Ru Rp]. rewrite Ep, Eu. simpl.
      rewrite !lookup_delete_None. auto.
Qed.

Lemma apply_pending_ok fuel m D P next k es s :
  ghost_ok m D P next -> replica D P k es [] s ->
  exists D' es' s' newly, apply_pending fuel s = Some (s', newly) /\
    ghost_ok m D' P next /\ grows k P D D' /\ replica D' P k es' [] s' /\
    Forall (fun '(i, op, ts) => D' !! i = Some (op, ts)) newly.
Proof.
  revert D es s. induction fuel as [|fuel IH]; intros D es s Hg Hr.
  { exists D, es, s, []. split_and!; eauto using grows_refl. }
  cbn [apply_pending]. pose proof (rp_store _ _ _ _ _ _ Hr) as Hs.
  rewrite (so_index _ _ _ _ Hs). unfold checked_add.
  rewrite (proj2 (N.leb_le _ _)) by (pose proof (so_room _ _ _ _ Hs); lia). cbn [mbind option_bind].
  destruct (pending_commits s !! (lenN es + 1)) as [[op ts]|] eqn:E.
  2: { exists D, es, s, []. split_and!; eauto using grows_refl. }
  destruct (pending_step m D P next k es s _ Hg Hr E) as (D1 & Hg1 & Hgr1 & E1 & Hr1).
  cbn [fst snd] in Hr1.
  destruct (IH _ _ _ Hg1 Hr1) as (D2 & es2 & s2 & newly & -> & Hg2 & Hgr2 & Hr2 & Hn).
  exists D2, es2, s2, ((lenN es + 1, op, ts) :: newly). split_and!; eauto using grows_trans.
  constructor; [|done]. eapply lookup_weaken; [exact E1|apply Hgr2].
Qed.

(** The loop ends with nothing more to apply: its fuel is enough. *)
Lemma apply_pending_done fuel s s' newly :
  apply_pending fuel s = Some (s', newly) -> (size (pending_commits s) < fuel)%nat ->
  pending_commits s' !! (commit_index s' + 1) = None.
Proof.
  revert s newly. induction fuel as [|fuel IH]; intros s newly E Hf; [lia|]. cbn [apply_pending] in E.
  apply bind_Some in E as (j & Ej & E). apply checked_add_Some in Ej as [-> _].
  destruct (pending_commits s !! (commit_index s + 1)) as [[op ts]|] eqn:Ep; [|by simplify_eq].
  apply bind_Some in E as ([s1 rest] & E1 & [= <- <-]). eapply IH; [exact E1|].
  cbn [pending_commits set_uncommitted]. destruct (apply_op_frame (commit_index s + 1) op ts
    (set_pending (delete (commit_index s + 1) (pending_commits s)) s)) as [-> _].
  simpl. rewrite map_size_delete_Some by eauto. assert (size (pending_commits s) <> 0%nat); [|lia].
  intros Hz. apply map_size_empty_inv in Hz. by rewrite Hz in Ep.
Qed.

(** ** The invariant *)

(** A node whose disk has no torn tail. *)
Definition live (D : decisions) (P : proposers) (k : N) (n : SimNode) : Prop :=
  node_id n = k /\ base = base_ledger (nd_scale n) (nd_accounts n) (initial_balance n) /\
  exists es, replica D P k es [] (store n).

Definition node_ok (D : decisions) (P : proposers) (k : N) (n : SimNode) : Prop :=
  node_id n = k /\ base = base_ledger (nd_scale n) (nd_accounts n) (initial_balance n) /\
  exists es tail, replica D P k es tail (store n) /\ (status (ballot n) = NodeActive -> tail = []).

Record cluster_ok (m : N) (D : decisions) (P : proposers) (c : SimCluster) : Prop := {
  co_ghost : ghost_ok m D P (next_log_index c);
  co_nodes : forall k n, nodes c !! k = Some n -> node_ok D P k n;
  co_net : network_ok (packet_ok D P) (network c);
  co_audit : (cl_accounts c, total_wealth c) = audit;
}.

Lemma live_node D P k n : live D P k n -> node_ok D P k n.
Proof. intros (? & ? & es & ?). unfold node_ok. eauto 8. Qed.

Lemma node_live D P k n : node_ok D P k n -> status (ballot n) = NodeActive -> live D P k n.
Proof. intros (? & ? & es & tail & ? & Ht) Ha. rewrite (Ht Ha) in *. unfold live. eauto. Qed.

Lemma live_ballot D P k n b : live D P k n -> live D P k (set_ballot b n).
Proof. done. Qed.

Lemma live_store D P k n s es : live D P k n -> replica D P k es [] s -> live D P k (set_store s n).
Proof. intros (? & ? & _) ?. unfold live. eauto. Qed.

Lemma node_grows D D' P k k' n : k <> k' -> grows k P D D' -> node_ok D P k' n -> node_ok D' P k' n.
Proof.
  intros Hk Hg (? & ? & es & tail & Hr & ?). split; [done|]. split; [done|].
  eauto using replica_grows.
Qed.

(** Node [k] changes, deciding some of its proposals on the way. *)
Lemma put_node_grows m D D' P k n c :
  cluster_ok m D P c -> ghost_ok m D' P (next_log_index c) -> grows k P D D' -> node_ok D' P k n ->
  cluster_ok m D' P (set_nodes (<[k := n]> (nodes c)) c).
Proof.
  intros [Hg Hn Hnet Ha] Hg' Hgr Hk. constructor; simpl; [done|..|done].
  - intros k' n' E. destruct (decide (k' = k)) as [->|Hne].
    + rewrite lookup_insert_eq in E. congruence.
    + rewrite lookup_insert_ne in E by done. eapply node_grows; eauto.
  - eapply network_ok_mono; [|done]. intros p. apply packet_ok_mono; [apply Hgr|done].
Qed.

Lemma put_node_ok m D P k n c :
  cluster_ok m D P c -> node_ok D P k n -> cluster_ok m D P (set_nodes (<[k := n]> (nodes c)) c).
Proof. intros Hc. eapply put_node_grows; eauto using grows_refl. by apply Hc. Qed.

Lemma set_network_ok m D P n c :
  cluster_ok m D P c -> network_ok (packet_ok D P) n -> cluster_ok m D P (set_network n c).
Proof. by intros []. Qed.

(** ** The cluster's monad *)

Lemma wp_look {A} (f : SimCluster -> A) (Q : A -> SimCluster -> Prop) c : Q (f c) c -> wp (look f) Q c.
Proof. by intros ? g. Qed.
Lemma wp_change f (Q : unit -> SimCluster -> Prop) c : Q tt (f c) -> wp (change f) Q c.
Proof. by intros ? g. Qed.

Lemma wp_put m D P k n (Q : unit -> SimCluster -> Prop) c :
  cluster_ok m D P c -> node_ok D P k n -> (forall c, cluster_ok m D P c -> Q tt c) -> wp (put_node k n) Q c.
Proof. intros Hc Hn HQ. by apply wp_change, HQ, put_node_ok. Qed.

Lemma wp_send m D P from to msg now c :
  cluster_ok m D P c -> packet_ok D P (mkPacket from to msg) ->
  wp (send_to from to msg now) (fun _ => cluster_ok m D P) c.
Proof.
  intros Hc Hp g. unfold send_to, on_network.
  pose proof (net_send_ok (packet_ok D P) from to msg now (network c) Hp (co_net _ _ _ _ Hc) g) as Hs.
  destruct (net_send from to msg now (network c, g)) as [[n g'] [u|]]; [|done]. by apply set_network_ok.
Qed.

Lemma wp_broadcast m D P from msgs now c :
  cluster_ok m D P c -> (forall to msg, msg ∈ msgs -> from <> to -> packet_ok D P (mkPacket from to msg)) ->
  wp (broadcast from msgs now) (fun _ => cluster_ok m D P) c.
Proof.
  intros Hc Hm. apply wp_bind, wp_look, wp_for; [|done]. intros peer c1 Hpeer Hc1.
  apply list_elem_of_filter in Hpeer as [Hpeer _].
  apply wp_for; [|done]. intros msg c2 Hin Hc2. apply wp_send; auto.
Qed.

(** Deciding what can be decided. *)
Lemma wp_advance m D P k n c :
  cluster_ok m D P c -> live D P k n ->
  wp (advance_node k n) (fun newly c' => exists D', D ⊆ D' /\ cluster_ok m D' P c' /\
    Forall (fun '(i, op, ts) => D' !! i = Some (op, ts)) newly) c.
Proof.
  intros Hc (Hid & Hb & es & Hr). unfold advance_node, drain_pending.
  destruct (apply_pending_ok (S (size (pending_commits (store n)))) m D P (next_log_index c) k es (store n))
    as (D' & es' & s' & newly & -> & Hg & Hgr & Hr' & Hn); [apply Hc|done|].
  apply wp_bind, wp_change, wp_ret. exists D'. split; [apply Hgr|]. split; [|done].
  eapply put_node_grows; [done|done|done|]. apply live_node. unfold live. eauto.
Qed.

(** ** Messages *)

(** The invariant holds with what was decided so far, and perhaps more. *)
Definition decided_ok (m : N) (D : decisions) (P : proposers) (c : SimCluster) : Prop :=
  exists D', D ⊆ D' /\ cluster_ok m D' P c.

Lemma cluster_decided m D P c : cluster_ok m D P c -> decided_ok m D P c.
Proof. by exists D. Qed.

Lemma decided_mono m D D' P c : D ⊆ D' -> decided_ok m D' P c -> decided_ok m D P c.
Proof. intros Hs (D2 & ? & ?). exists D2. split; [by etrans|done]. Qed.

Lemma wp_settle {A} (a : sim SimCluster A) m D P c :
  wp a (fun _ => cluster_ok m D P) c -> wp a (fun _ => decided_ok m D P) c.
Proof. intros Hw. eapply wp_mono; [done|]. intros x c'. apply cluster_decided. Qed.

Lemma replica_uncommitted D P k es tail s i op acks :
  replica D P k es tail s -> good op -> (i ∈ lost -> P !! i <> Some k) ->
  replica D P k es tail (set_uncommitted (<[i := (op, acks)]> (uncommitted s)) s).
Proof.
  intros [Hst Hl Hp Hu Hm Hlo] Hg Hi. constructor; try done; [by eapply store_ok_frame; last exact Hst|..].
  - intros j o a. simpl. rewrite lookup_insert_Some. intros [[_ [= <- _]]|[_ E]]; [done|by eapply Hu].
  - intros j Hj HP. simpl. rewrite lookup_insert_ne by (intros ->; naive_solver). auto.
Qed.

Lemma replica_pending D P k es tail s i v :
  replica D P k es tail s -> good_decision v -> (D !! i = Some v \/ (D !! i = None /\ P !! i = Some k)) ->
  i ∉ lost -> replica D P k es tail (set_pending (<[i := v]> (pending_commits s)) s).
Proof.
  intros [Hst Hl Hp Hu Hm Hlo] Hg HD Hi. constructor; try done; [by eapply store_ok_frame; last exact Hst|..].
  - intros j w. simpl. rewrite lookup_insert_Some. intros [[<- <-]|[_ E]]; [done|by apply Hp].
  - intros j Hj HP. simpl. rewrite lookup_insert_ne by (by intros ->). auto.
Qed.

Section handlers.
Context (m : N) (D : decisions) (P : proposers) (c : SimCluster) (k : N) (n : SimNode).
Hypothesis Hc : cluster_ok m D P c.
Hypothesis Hn : live D P k n.

Lemma good_decided i v : D !! i = Some v -> good_decision v.
Proof using Hc. intros E. by eapply (gh_decided m D P), E; apply Hc. Qed.

Lemma decided_not_lost i v : D !! i = Some v -> i ∉ lost.
Proof using Hc. intros E Hi. destruct (gh_lost m D P _ (co_ghost _ _ _ _ Hc) i Hi). congruence. Qed.

Lemma wp_put_ballot b (Q : unit -> SimCluster -> Prop) :
  (forall c, cluster_ok m D P c -> Q tt c) -> wp (put_node k (set_ballot b n)) Q c.
Proof using Hc Hn. intros HQ. eapply wp_put; eauto using live_node, live_ballot. Qed.

Lemma on_propose_ok from t i op now :
  P !! i = Some from -> good op -> from <> k -> wp (on_propose from k t i op now n) (fun _ => decided_ok m D P) c.
Proof using Hc Hn.
  intros HP Hg Hk. unfold on_propose. case_match.
  - apply wp_bind. destruct Hn as (Hid & Hb & es & Hr). eapply wp_put; [done| |].
    + apply live_node. eapply live_store; [done|]. apply replica_uncommitted; [done|done|congruence].
    + intros c' Hc'. by eapply wp_settle, wp_send.
  - apply wp_put_ballot. apply cluster_decided.
Qed.

Lemma on_ack_ok from t i now :
  P !! i = Some k -> wp (on_ack k from t i now n) (fun _ => decided_ok m D P) c.
Proof using Hc Hn good_fits.
  intros HP. unfold on_ack. apply wp_bind, wp_look.
  destruct (negb (is_leader (ballot n) && (term (ballot n) =? t))); [by apply wp_ret, cluster_decided|].
  destruct (uncommitted (store n) !! i) as [[op acks]|] eqn:Eu; [|by apply wp_ret, cluster_decided].
  destruct Hn as (Hid & Hb & es & Hr). pose proof (rp_uncommitted _ _ _ _ _ _ Hr _ _ _ Eu) as Hop.
  assert (i ∉ lost) as Hi by (intros Hi; destruct (rp_lost _ _ _ _ _ _ Hr i Hi HP); congruence).
  assert (i ∈ lost -> P !! i <> Some k) as Hi' by done.
  pose proof (replica_uncommitted _ _ _ _ _ _ i op ({[from]} ∪ acks) Hr Hop Hi') as Hr1.
  destruct (_ && _) eqn:Eq.
  - apply andb_true_iff in Eq as [_ Eq]. apply negb_true_iff, bool_decide_eq_false in Eq.
    assert (D !! i = None) as HD.
    { apply eq_None_not_Some. intros HD. apply Eq. pose proof (rp_store _ _ _ _ _ _ Hr) as Hst.
      simpl. rewrite (so_committed _ _ _ _ Hst). apply log_at_some.
      split; [by apply (gh_known _ _ _ _ (co_ghost _ _ _ _ Hc) _ _ HP)|by apply (rp_mine _ _ _ _ _ _ Hr)]. }
    apply wp_bind. eapply wp_mono; [eapply wp_advance; [done|eapply live_store; [done|]]|].
    + apply replica_pending; [done| |by right|done]. split; [done|]. unfold u64_sat_add, saturating_add. simpl. lia.
    + intros newly c' (D' & Hs & Hc' & Hnew).
      eapply wp_mono; [eapply wp_settle, wp_broadcast; [done|]|intros _u c2; by apply decided_mono].
      intros to msg. rewrite list_elem_of_fmap. intros ([[j o] ts] & -> & Hin) _.
      rewrite Forall_forall in Hnew. by apply Hnew in Hin.
  - eapply wp_put; [done|apply live_node; by eapply live_store|]. apply cluster_decided.
Qed.

Lemma advance_settled n' :
  live D P k n' -> wp (do? advance_node k n'; st_ret tt) (fun _ => decided_ok m D P) c.
Proof using Hc good_fits.
  intros Hn'. apply wp_bind. eapply wp_mono; [by eapply wp_advance|].
  intros newly c' (D' & Hs & Hc' & _). by apply wp_ret, (decided_mono _ _ D'), cluster_decided.
Qed.

Lemma on_commit_ok t i op ts now :
  D !! i = Some (op, ts) -> wp (on_commit k t i op ts now n) (fun _ => decided_ok m D P) c.
Proof using Hc Hn good_fits.
  intros HD. unfold on_commit. case_match; [|apply wp_put_ballot, cluster_decided].
  case_bool_decide; [apply wp_put_ballot, cluster_decided|].
  destruct Hn as (Hid & Hb & es & Hr). apply advance_settled. eapply live_store; [done|].
  apply replica_pending; eauto using good_decided, decided_not_lost.
Qed.

Lemma on_heartbeat_ok t leader i now : wp (on_heartbeat k t leader i now n) (fun _ => decided_ok m D P) c.
Proof using Hc Hn.
  unfold on_heartbeat. case_match; [|apply wp_put_ballot, cluster_decided].
  apply wp_bind, wp_put_ballot. intros c' Hc'. case_match; [|by apply wp_ret, cluster_decided].
  by eapply wp_settle, wp_send.
Qed.

Lemma on_request_vote_ok t candidate i now :
  wp (on_request_vote k t candidate i now n) (fun _ => decided_ok m D P) c.
Proof using Hc Hn.
  unfold on_request_vote. case_match; [|apply wp_put_ballot, cluster_decided].
  apply wp_bind, wp_put_ballot. intros c' Hc'. by eapply wp_settle, wp_send.
Qed.

Lemma on_vote_granted_ok from t now : wp (on_vote_granted k from t now n) (fun _ => decided_ok m D P) c.
Proof using Hc Hn.
  unfold on_vote_granted. apply wp_bind, wp_look. case_match; [|by apply wp_ret, cluster_decided].
  destruct (bool_decide (_ <= _)%nat); [|apply wp_put_ballot, cluster_decided].
  apply wp_bind, wp_put_ballot. intros c' Hc'.
  eapply wp_settle, wp_broadcast; [done|].
  intros to msg. rewrite list_elem_of_singleton. by intros -> _.
Qed.

Lemma on_catchup_request_ok from i now : wp (on_catchup_request k from i now n) (fun _ => decided_ok m D P) c.
Proof using Hc Hn.
  unfold on_catchup_request. case_match; [|by apply wp_ret, cluster_decided].
  destruct Hn as (Hid & Hb & es & Hr).
  eapply wp_settle, wp_send; [done|].
  unfold packet_ok. simpl. apply Forall_forall. intros [[j op] ts].
  rewrite list_elem_of_omap. intros ([j' [op' ts']] & Hin & E). case_match; simplify_eq.
  apply elem_of_btree_iter in Hin. pose proof (rp_store _ _ _ _ _ _ Hr) as Hst.
  rewrite (so_committed _ _ _ _ Hst) in Hin. by apply (rp_log _ _ _ _ _ _ Hr).
Qed.

Lemma absorb_replica es entries s :
  Forall (fun '(i, op, ts) => D !! i = Some (op, ts)) entries -> replica D P k es [] s ->
  replica D P k es [] (absorb entries s).
Proof using Hc.
  unfold absorb. intros He. revert s. induction He as [|[[i op] ts] entries Hi _ IH]; intros s Hr; [done|].
  simpl. apply IH. case_bool_decide; [done|]. apply replica_pending; eauto using good_decided, decided_not_lost.
Qed.

Lemma on_catchup_response_ok entries :
  Forall (fun '(i, op, ts) => D !! i = Some (op, ts)) entries ->
  wp (do? advance_node k (set_store (absorb entries (store n)) n); st_ret tt) (fun _ => decided_ok m D P) c.
Proof using Hc Hn good_fits.
  intros He. destruct Hn as (Hid & Hb & es & Hr). apply advance_settled.
  eapply live_store; [done|]. by apply absorb_replica.
Qed.

End handlers.

Lemma process_packet_ok m D P from to msg now c :
  cluster_ok m D P c -> packet_ok D P (mkPacket from to msg) ->
  wp (process_packet from to msg now) (fun _ => decided_ok m D P) c.
Proof.
  intros Hc Hp. unfold process_packet. apply wp_bind, wp_look.
  destruct (nodes c !! to) as [n|] eqn:En; [|by apply wp_ret, cluster_decided].
  destruct (decide (status (ballot n) = NodeActive)) as [Ha|Ha];
    [rewrite bool_decide_true by done|rewrite bool_decide_false by done; by apply wp_ret, cluster_decided].
  pose proof (node_live _ _ _ _ (co_nodes _ _ _ _ Hc _ _ En) Ha) as Hn. cbn [negb]. unfold packet_ok in Hp.
  destruct msg; cbn [pk_payload pk_from pk_to] in Hp.
  - destruct Hp as (? & ? & ?). by apply on_propose_ok.
  - by apply on_ack_ok.
  - by apply on_commit_ok.
  - by apply on_request_vote_ok.
  - by apply on_vote_granted_ok.
  - by apply on_heartbeat_ok.
  - by apply on_catchup_request_ok.
  - by apply on_catchup_response_ok.
Qed.

(** ** Steps of the cluster *)

Lemma singleton_packet D P from to msg msg' :
  (from <> to -> packet_ok D P (mkPacket from to msg)) -> msg' ∈ [msg] -> from <> to ->
  packet_ok D P (mkPacket from to msg').
Proof. intros ?. rewrite list_elem_of_singleton. intros ->. auto. Qed.

(** A ballot changes and the peers are told. *)
Lemma wp_announce m D P k n b msg now c :
  cluster_ok m D P c -> node_ok D P k (set_ballot b n) ->
  (forall to, packet_ok D P (mkPacket k to msg)) ->
  wp (do? put_node k (set_ballot b n); broadcast k [msg] now) (fun _ => cluster_ok m D P) c.
Proof.
  intros Hc Hn Hp. apply wp_bind. eapply wp_put; [done|done|]. intros c' Hc'.
  apply wp_broadcast; eauto using singleton_packet.
Qed.

Lemma node_ballot D P k n b :
  node_ok D P k n -> (status b = NodeActive -> status (ballot n) = NodeActive) -> node_ok D P k (set_ballot b n).
Proof. intros (? & ? & es & tail & ? & Ht) Hb. split; [done|]. split; [done|]. exists es, tail. auto. Qed.

Lemma tick_node_ok m D P now k c :
  cluster_ok m D P c -> wp (tick_node now k) (fun _ => cluster_ok m D P) c.
Proof.
  intros Hc. unfold tick_node. apply wp_bind, wp_look.
  destruct (nodes c !! k) as [n|] eqn:En; [|by apply wp_ret].
  pose proof (co_nodes _ _ _ _ Hc _ _ En) as Hn. destruct (bool_decide (role _ = _)).
  - destruct (_ <=? _); [|by apply wp_ret]. apply wp_announce; [done|by apply node_ballot|done].
  - destruct (_ <=? _); [|by apply wp_ret]. apply wp_bind, wp_gen_range; [done|]. intros timeout _.
    apply wp_announce; [done|by apply node_ballot|done].
Qed.

Lemma cluster_step_ok m D P now c :
  cluster_ok m D P c -> wp (cluster_step now) (fun _ => decided_ok m D P) c.
Proof.
  intros Hc. unfold cluster_step. apply wp_bind. intros g.
  destruct (drain_ready_ok (packet_ok D P) now (network c) (co_net _ _ _ _ Hc)) as [Hnet Hready].
  destruct (drain_ready now (network c)) as [n ready]. simpl in Hnet, Hready.
  apply wp_bind. apply (wp_mono _ (fun _ => decided_ok m D P)).
  - apply wp_for; [|by apply cluster_decided, set_network_ok].
    intros p c' Hin (D' & Hs & Hc'). rewrite Forall_forall in Hready. specialize (Hready p Hin).
    eapply wp_mono; [apply (process_packet_ok m D' P); [done|]|intros _u c2; by apply decided_mono].
    destruct p. by eapply packet_ok_mono.
  - intros _u c' (D' & Hs & Hc'). apply wp_bind, wp_look.
    apply (wp_mono _ (fun _ => cluster_ok m D' P)); [|intros _v c2 ?; by exists D'].
    apply wp_for; [|done]. intros k c2 _ Hc2. by apply tick_node_ok.
Qed.

Lemma trigger_election_ok m D P k now c :
  cluster_ok m D P c -> wp (trigger_election k now) (fun _ => cluster_ok m D P) c.
Proof.
  intros Hc. unfold trigger_election. apply wp_bind, wp_look.
  destruct (nodes c !! k) as [n|] eqn:En; [|by apply wp_ret].
  pose proof (co_nodes _ _ _ _ Hc _ _ En) as Hn. destruct (bool_decide _); [|by apply wp_ret].
  apply wp_bind, wp_gen_range; [done|]. intros timeout _. apply wp_announce; [done|by apply node_ballot|done].
Qed.

Lemma set_links_cluster m D P i p c :
  cluster_ok m D P c -> cluster_ok m D P (set_network (set_links i p (network c)) c).
Proof. intros Hc. apply set_network_ok; [done|]. by apply set_links_ok, Hc. Qed.

(** A node that holds its log and nothing in flight. *)
Lemma replica_reset D P k es tail tail' s s' :
  replica D P k es tail s -> store_ok base es tail' s' -> pending_commits s' = ∅ -> uncommitted s' = ∅ ->
  replica D P k es tail' s'.
Proof. intros [_ Hl _ _ Hm _] Hs Hp Hu. constructor; try done; rewrite ?Hp, ?Hu; by intros. Qed.

Lemma crash_node_empties m D P k torn_write c :
  cluster_ok m D P c ->
  wp (crash_node k torn_write) (fun _ c' => cluster_ok m D P c' /\
    forall n, nodes c' !! k = Some n -> uncommitted (store n) = ∅ /\ pending_commits (store n) = ∅) c.
Proof.
  intros Hc. unfold crash_node. apply wp_bind, wp_look, wp_bind.
  destruct (nodes c !! k) as [n|] eqn:En;
    [|apply wp_ret, wp_change; split; [by apply set_links_cluster|]; simpl; congruence].
  destruct (co_nodes _ _ _ _ Hc _ _ En) as (Hid & Hb & es & tail & Hr & _).
  apply wp_bind. intros g.
  destruct (disk_crash_ok base es tail (store n) torn_write g (rp_store _ _ _ _ _ _ Hr))
    as (d & g' & tail' & -> & Hs).
  apply wp_change, wp_change. split.
  - apply set_links_cluster, put_node_ok; [done|].
    split; [done|]. split; [done|]. exists es, tail'. split; [|done]. by eapply replica_reset.
  - intros n'. simpl. rewrite lookup_insert_eq. by intros [= <-].
Qed.

Lemma crash_node_ok m D P k torn_write c :
  cluster_ok m D P c -> wp (crash_node k torn_write) (fun _ => cluster_ok m D P) c.
Proof. intros Hc. eapply wp_mono; [by apply crash_node_empties|]. by intros _u c' []. Qed.

Lemma reboot_node_ok m D P k now c :
  cluster_ok m D P c -> wp (reboot_node k now) (fun _ => cluster_ok m D P) c.
Proof.
  intros Hc. unfold reboot_node. apply wp_bind, wp_look, wp_bind.
  apply (wp_mono _ (fun _ => cluster_ok m D P)).
  - destruct (nodes c !! k) as [n|] eqn:En; [|by apply wp_ret].
    destruct (co_nodes _ _ _ _ Hc _ _ En) as (Hid & Hb & es & tail & Hr & _).
    destruct (recover_ok base es tail n Hb (rp_store _ _ _ _ _ _ Hr)) as (s & -> & Hs & Hp & Hu).
    apply wp_bind, wp_gen_range; [done|]. intros timeout _.
    apply wp_bind. eapply wp_put; [done| |intros c' Hc'; by apply wp_ret].
    apply live_node. split; [done|]. split; [done|]. exists es. by eapply replica_reset.
  - intros last c' Hc'. apply wp_bind, wp_change. apply wp_broadcast; [by apply set_links_cluster|].
    intros to msg. by apply singleton_packet.
Qed.

(** ** Proposals *)

Lemma ghost_widen m m' D P next : m <= m' -> m' < U64_MAX -> ghost_ok m D P next -> ghost_ok m' D P next.
Proof. intros ? ? []. constructor; try done. lia. Qed.

Lemma cluster_widen m m' D P c : m <= m' -> m' < U64_MAX -> cluster_ok m D P c -> cluster_ok m' D P c.
Proof. intros ? ? []. constructor; eauto using ghost_widen. Qed.

Lemma fresh_not_lost m D P c :
  m + 1 < U64_MAX -> cluster_ok m D P c -> u64_sat_add (next_log_index c) 1 ∉ lost.
Proof.
  intros Hm Hc Hi. destruct (co_ghost _ _ _ _ Hc) as [Hn _ Hk _ Hlo]. destruct (Hlo _ Hi) as [_ [k E]].
  specialize (Hk _ _ E). unfold u64_sat_add, saturating_add, U64_MAX in *. lia.
Qed.

(** A fresh index, with its proposer. *)
Lemma new_index_ok m D P j c :
  m + 1 < U64_MAX -> cluster_ok m D P c ->
  cluster_ok (m + 1) D (<[next_log_index c + 1 := j]> P)
    (set_next_index (u64_sat_add (next_log_index c) 1) c).
Proof.
  intros Hm [[Hn Hr Hk Hd Hlo] Hnodes Hnet Ha]. set (i := next_log_index c + 1).
  assert (P !! i = None) as HP.
  { destruct (P !! i) as [k|] eqn:E; [|done]. specialize (Hk _ _ E). lia. }
  assert (D !! i = None) as HD.
  { destruct (D !! i) as [v|] eqn:E; [|done]. destruct (Hd _ _ E) as [_ [? ?]]. congruence. }
  assert (i ∉ lost) as Hi by (intros Hi; destruct (Hlo i Hi) as [_ [? ?]]; congruence).
  assert (u64_sat_add (next_log_index c) 1 = i) as Ei
    by (unfold u64_sat_add, saturating_add, i, U64_MAX in *; lia).
  constructor; simpl; rewrite ?Ei.
  - constructor; [lia|lia| | |].
    + intros i' k. rewrite lookup_insert_Some. intros [[<- _]|[_ E]]; [lia|]. specialize (Hk _ _ E). lia.
    + intros i' v E. destruct (Hd _ _ E) as [? [k ?]]. split; [done|].
      rewrite lookup_insert_ne by congruence. eauto.
    + intros i' Hi'. destruct (Hlo i' Hi'). split; [done|]. rewrite lookup_insert_ne; [done|]. by intros <-.
  - intros k n E. destruct (Hnodes k n E) as (? & ? & es & tail & ? & ?). split; [done|]. split; [done|].
    exists es, tail. split; [by apply replica_propose|done].
  - eapply network_ok_mono; [|done]. intros p. apply packet_ok_mono; [done|by apply insert_subseteq].
  - done.
Qed.

Lemma leader_active m D P c k :
  cluster_ok m D P c -> find_leader_id c = Some k ->
  exists n, nodes c !! k = Some n /\ status (ballot n) = NodeActive.
Proof.
  intros Hc. unfold find_leader_id. rewrite fmap_Some. intros (n & E & ->).
  apply head_Some_elem_of in E. apply list_elem_of_filter in E as [Ha Hin].
  apply Is_true_true, andb_true_iff in Ha as [_ Ha]. apply bool_decide_eq_true in Ha.
  unfold btree_values in Hin. apply list_elem_of_fmap in Hin as ([k n'] & -> & Hin).
  apply elem_of_btree_iter in Hin. destruct (co_nodes _ _ _ _ Hc _ _ Hin) as (Hk & _). simpl in *.
  exists n'. by rewrite Hk.
Qed.

(** A proposal goes to the leader, if there is one, under the next index. *)
Lemma propose_op_indexed m D P op now c k :
  m + 1 < U64_MAX -> good op -> cluster_ok m D P c -> find_leader_id c = Some k ->
  wp (propose_op op now)
    (fun accepted => fun c' => accepted = true /\ cluster_ok (m + 1) D (<[next_log_index c + 1 := k]> P) c') c.
Proof.
  intros Hm Hg Hc Hk. unfold propose_op. apply wp_bind, wp_look. rewrite Hk.
  destruct (leader_active m D P c k Hc Hk) as (n & En & Ha).
  apply wp_bind, wp_look. rewrite En. simpl. rewrite bool_decide_true by (by rewrite Ha). simpl.
  pose proof (new_index_ok m D P k c Hm Hc) as Hc'. set (P' := <[_ := k]> P) in *.
  assert (u64_sat_add (next_log_index c) 1 = next_log_index c + 1) as Ei.
  { destruct (co_ghost _ _ _ _ Hc). unfold u64_sat_add, saturating_add, U64_MAX in *. lia. }
  apply wp_bind, wp_change, wp_bind, wp_look, wp_bind. eapply wp_put; [exact Hc'| |].
  - destruct (co_nodes _ _ _ _ Hc' k n En) as (Hid & Hb & es & tail & Hr & Hst).
    split; [done|]. split; [done|]. exists es, tail. split; [|done].
    apply replica_uncommitted; [done|done|]. by intros ?%(fresh_not_lost m D P c Hm Hc).
  - intros c2 Hc2. apply wp_bind.
    apply (wp_mono _ (fun _ => cluster_ok (m + 1) D P')); [|intros _v c3 Hc3; by apply wp_ret].
    apply wp_broadcast; [done|]. intros to msg. apply singleton_packet. intros Hne.
    unfold packet_ok, P'. simpl. rewrite Ei. split_and!; [apply lookup_insert_eq|done|done].
Qed.

Lemma propose_op_ok m D P op now c :
  m + 1 < U64_MAX -> good op -> cluster_ok m D P c ->
  wp (propose_op op now)
    (fun accepted c' => exists P', cluster_ok (if accepted then m + 1 else m) D P' c') c.
Proof.
  intros Hm Hg Hc. destruct (find_leader_id c) as [k|] eqn:Hk.
  - eapply wp_mono; [by eapply propose_op_indexed|]. intros a c' [-> Hc']. eauto.
  - unfold propose_op. apply wp_bind, wp_look. rewrite Hk. apply wp_ret. eauto.
Qed.

(** ** Agreement *)

Lemma logs_prefix (D : decisions) (es es' : list decision) :
  (forall i v, log_at es i = Some v -> D !! i = Some v) ->
  (forall i v, log_at es' i = Some v -> D !! i = Some v) ->
  (length es <= length es')%nat -> es `prefix_of` es'.
Proof.
  intros He He' Hlen. exists (drop (length es) es'). rewrite <- (take_drop (length es) es') at 1. f_equal.
  apply list_eq. intros i. destruct (decide (i < length es)%nat) as [Hi|Hi].
  2: { rewrite !lookup_ge_None_2; [done|lia|rewrite length_take; lia]. }
  rewrite lookup_take_lt by done. destruct (lookup_lt_is_Some_2 es i Hi) as [v Ev].
  destruct (lookup_lt_is_Some_2 es' i ltac:(lia)) as [v' Ev'].
  assert (forall (l : list decision) w, l !! i = Some w -> log_at l (N.of_nat i + 1) = Some w) as Hat.
  { intros l w E. unfold log_at. destruct (N.eqb_spec (N.of_nat i + 1) 0); [lia|].
    by replace (N.to_nat _) with i by lia. }
  pose proof (He _ _ (Hat _ _ Ev)). pose proof (He' _ _ (Hat _ _ Ev')). congruence.
Qed.

Lemma first_difference_prefix i a b : a `prefix_of` b \/ b `prefix_of` a -> first_difference i a b = None.
Proof.
  revert i b. induction a as [|x a IH]; intros i [|y b] Hp; try done. simpl.
  assert (x = y /\ (a `prefix_of` b \/ b `prefix_of` a)) as [-> Hp'].
  { destruct Hp as [Hp|Hp]; (split; [|apply prefix_cons_inv_2 in Hp; auto]).
    - by apply prefix_cons_inv_1 in Hp.
    - by apply prefix_cons_inv_1 in Hp. }
  rewrite decide_True by done. auto.
Qed.

Lemma nodes_agree m D P c k k' n n' a b :
  cluster_ok m D P c -> nodes c !! k = Some n -> nodes c !! k' = Some n' ->
  assert_log_agreement a (journal (nd_ledger (store n))) b (journal (nd_ledger (store n'))) = Ok tt.
Proof.
  intros Hc E E'. destruct (co_nodes _ _ _ _ Hc _ _ E) as (_ & _ & es & tail & Hr & _).
  destruct (co_nodes _ _ _ _ Hc _ _ E') as (_ & _ & es' & tail' & Hr' & _).
  unfold assert_log_agreement. rewrite first_difference_prefix; [done|].
  rewrite (so_ledger _ _ _ _ (rp_store _ _ _ _ _ _ Hr)), (so_ledger _ _ _ _ (rp_store _ _ _ _ _ _ Hr')).
  pose proof (rp_log _ _ _ _ _ _ Hr). pose proof (rp_log _ _ _ _ _ _ Hr').
  destruct (Nat.le_ge_cases (length es) (length es')); [left|right];
    apply replay_ops_prefix; eapply logs_prefix; eauto.
Qed.

Lemma pairs_agree_ok m D P c ns :
  cluster_ok m D P c -> (forall n, n ∈ ns -> exists k, nodes c !! k = Some n) -> pairs_agree ns = Ok tt.
Proof.
  intros Hc. induction ns as [|a ns IH]; intros Hin; [done|]. cbn [pairs_agree].
  assert (try_fold (fun _ b => assert_log_agreement (node_id a) (journal (nd_ledger (store a)))
            (node_id b) (journal (nd_ledger (store b)))) ns tt = Ok tt) as ->.
  { assert (forall n, n ∈ ns -> exists k, nodes c !! k = Some n) as Hns by (intros; apply Hin; by right).
    destruct (Hin a ltac:(left)) as [k Ek]. clear IH Hin.
    induction ns as [|b ns IH]; [done|]. cbn [try_fold]. destruct (Hns b ltac:(left)) as [k' Ek'].
    rewrite (nodes_agree m D P c k k' a b _ _ Hc Ek Ek').
    apply IH. intros n Hn. apply Hns. by right. }
  apply IH. intros n Hn. apply Hin. by right.
Qed.

Lemma active_nodes_known c n :
  n ∈ filter (fun n => status (ballot n) = NodeActive) (btree_values (nodes c)) -> exists k, nodes c !! k = Some n.
Proof.
  rewrite list_elem_of_filter. intros [_ Hin]. unfold btree_values in Hin.
  apply list_elem_of_fmap in Hin as ([k n'] & -> & Hin). apply elem_of_btree_iter in Hin. eauto.
Qed.

(** A node has committed at most what was proposed. *)
Lemma size_log m es : (forall i, m !! i = log_at es i) -> size (m : gmap N decision) = length es.
Proof.
  revert m. induction es as [|v es IH] using rev_ind; intros m Hm.
  - replace m with (∅ : gmap N decision); [apply map_size_empty|]. symmetry. apply map_empty. intros i.
    rewrite Hm. unfold log_at. by destruct (i =? 0).
  - rewrite length_app, <- (IH (delete (lenN es + 1) m)); simpl.
    + rewrite map_size_delete_Some by (rewrite Hm, log_at_snoc, N.eqb_refl; eauto).
      assert (size m <> 0%nat); [|lia]. intros Hz. apply map_size_empty_inv in Hz.
      specialize (Hm (lenN es + 1)). rewrite log_at_snoc, N.eqb_refl, Hz in Hm. done.
    + intros i. destruct (decide (i = lenN es + 1)) as [->|Hne].
      * rewrite lookup_delete_eq. symmetry. destruct (log_at es _) eqn:E; [|done]. apply log_at_lt in E. lia.
      * rewrite lookup_delete_ne, Hm, log_at_snoc by done. by rewrite (proj2 (N.eqb_neq _ _) Hne).
Qed.

Lemma committed_bound m D P c k n :
  cluster_ok m D P c -> nodes c !! k = Some n -> N.of_nat (size (committed_ops (store n))) <= m.
Proof.
  intros Hc En. destruct (co_nodes _ _ _ _ Hc _ _ En) as (_ & _ & es & tail & Hr & _).
  pose proof (rp_store _ _ _ _ _ _ Hr) as Hs. rewrite (size_log _ es) by apply Hs. fold (lenN es).
  destruct (co_ghost _ _ _ _ Hc) as [Hn _ Hk Hd]. destruct (N.eqb_spec (lenN es) 0); [lia|].
  destruct (log_at_some es (lenN es)) as [v Ev]; [lia|].
  apply (rp_log _ _ _ _ _ _ Hr) in Ev. destruct (Hd _ _ Ev) as [_ [j Hj]]. specialize (Hk _ _ Hj). lia.
Qed.

(** ** The initial cluster *)

Lemma new_3_node_ok config accounts balance :
  lost = ∅ -> base = base_ledger Scale_usdc accounts balance ->
  audit = (accounts, N.min U128_MAX (balance * N.of_nat (length accounts))) ->
  min_latency_ticks config <= max_latency_ticks config ->
  cluster_ok 0 ∅ ∅ (new_3_node config accounts balance).
Proof.
  intros Hlo Hb Ha Hd. constructor.
  - constructor; try done; rewrite ?Hlo; by intros; rewrite lookup_empty in *.
  - intros k n. unfold new_3_node. simpl.
    rewrite !lookup_insert_Some, lookup_empty. intros Hk.
    assert (exists i, k = i /\ n = Node_new i Scale_usdc accounts balance) as (i & -> & ->)
      by (destruct Hk as [[<- <-]|[_ [[<- <-]|[_ [[<- <-]|[_ ?]]]]]]; [eauto..|done]).
    split; [done|]. split; [done|]. exists [], []. split; [|done]. constructor; simpl; try done.
    + constructor; try done; [|by left]. intros j. unfold log_at. simpl. rewrite lookup_empty. by destruct (j =? 0).
    + intros j v. unfold log_at. by destruct (j =? 0).
  - constructor; [constructor|done].
  - done.
Qed.

(** No log ever reaches a lost index. *)
Lemma behind_lost m D P c k n i :
  cluster_ok m D P c -> i ∈ lost -> nodes c !! k = Some n -> commit_index (store n) < i.
Proof.
  intros Hc Hi En. destruct (co_nodes _ _ _ _ Hc _ _ En) as (_ & _ & es & tail & Hr & _).
  rewrite (so_index _ _ _ _ (rp_store _ _ _ _ _ _ Hr)).
  destruct (co_ghost _ _ _ _ Hc) as [_ _ Hk _ Hlo]. destruct (Hlo i Hi) as [HD [p HP]].
  specialize (Hk _ _ HP). destruct (N.lt_ge_cases (lenN es) i) as [|Hle]; [done|].
  destruct (log_at_some es i) as [v Ev]; [lia|]. apply (rp_log _ _ _ _ _ _ Hr) in Ev. congruence.
Qed.

End cluster.

(** A proposal is lost when its proposer holds it no longer and it is not decided. *)
Lemma lose_index `{Crc32c, EntryCodec} base good audit lost m D P c i k :
  cluster_ok base good audit lost m D P c -> P !! i = Some k -> D !! i = None ->
  (forall n, nodes c !! k = Some n -> uncommitted (store n) = ∅ /\ pending_commits (store n) = ∅) ->
  cluster_ok base good audit ({[i]} ∪ lost) m D P c.
Proof.
  intros [[Hn Hr Hk Hd Hlo] Hnodes Hnet Ha] HP HD He. constructor; try done.
  - constructor; try done. intros j. rewrite elem_of_union, elem_of_singleton. intros [->|Hj]; eauto.
  - intros k' n En. destruct (Hnodes k' n En) as (? & ? & es & tail & [Hst Hl Hp Hu Hm Hrl] & ?).
    split; [done|]. split; [done|]. exists es, tail. split; [|done]. constructor; try done.
    intros j. rewrite elem_of_union, elem_of_singleton. intros [->|Hj] HPj; [|by apply Hrl].
    assert (k' = k) as -> by congruence. destruct (He n En) as [-> ->]. by rewrite !lookup_empty.
Qed.
