(* ===== verification/SimWealth.v ===== *)
(** * The money supply of a simulated ledger

    The customers of a cluster are funded by the vault, and the workload moves money
    between customers only.  So the vault's balance never changes, and the double entry
    makes the customers' balances add up to the supply: what the oracle checks. *)

From Stdlib Require Import QArith_base.
From S2P Require Import Bytes Error Amount Account Transfer Ledger LedgerStep LedgerInv LedgerHistory LedgerVerify.
From S2P Require Import WalRecord SimNet SimNode SimCluster SimInv.
From stdpp Require Import list gmap.
From S2P Require Import Prelude LedgerInv.
#[local] Open Scope N_scope.

(** ** What the workload proposes *)

Definition MAX_AMOUNT : N := 500.

Definition workload_op (accts : list AccountId) (op : WorkloadOp) : Prop :=
  op_fits op /\
  match op with
  | DirectTransfer _ from to amount | WCreatePending _ from to amount =>
      from ∈ accts /\ to ∈ accts /\ amount <= MAX_AMOUNT
  | WPostPending _ _ amount => amount <= MAX_AMOUNT
  | WVoidPending _ _ => True
  end.

Lemma workload_op_fits accts op : workload_op accts op -> op_fits op.
Proof. by intros [? _]. Qed.

(** ** Funded ledgers *)

Record funded_accounts (accts : list AccountId) (supply : N) (m : gmap N Account) : Prop := {
  fa_vault : exists v, m !! VAULT = Some v /\ debits_posted (acc_balance v) = supply /\
    credits_posted (acc_balance v) = 0;
  fa_customer : forall i a, m !! i = Some a -> i = VAULT \/
    (i ∈ accts /\ debits_must_not_exceed_credits (acc_flags a) = true);
  fa_known : forall i, i ∈ accts -> is_Some (m !! i);
}.

(** A hold is between customers. *)
Definition holds_between (trs : gmap N Transfer) : Prop :=
  forall i t, trs !! i = Some t -> tr_state t = Pending -> debit_account_id t <> VAULT /\ credit_account_id t <> VAULT.

(** After [n] operations of the workload. *)
Record funded (accts : list AccountId) (supply n : N) (l : Ledger) : Prop := {
  fd_inv : ledger_inv l;
  fd_accounts : funded_accounts accts supply (accounts l);
  fd_holds : holds_between (transfers l);
  fd_posted : total debits_posted (accounts l) <= supply + MAX_AMOUNT * n;
  fd_pending : total debits_pending (accounts l) <= MAX_AMOUNT * n;
}.

Section funded.
Context (accts : list AccountId) (supply : N).
Hypothesis vault_apart : VAULT ∉ accts.

Lemma funded_upd2 d c f g m :
  d <> c -> d <> VAULT -> c <> VAULT -> funded_accounts accts supply m ->
  funded_accounts accts supply (upd2 d c f g m).
Proof.
  intros Hne Hd Hc [(v & Hv & ? & ?) Hcu Hk]. constructor.
  - exists v. unfold upd2. by rewrite !lookup_alter_ne by done.
  - intros i a E. apply upd2_lookup in E as (a0 & b & E & -> & _); [|done]. by apply Hcu in E.
  - intros i Hi. rewrite upd2_dom. auto.
Qed.

Lemma holds_insert i t trs :
  holds_between trs -> (tr_state t = Pending -> debit_account_id t <> VAULT /\ credit_account_id t <> VAULT) ->
  holds_between (<[i := t]> trs).
Proof. intros Hh Ht j u. rewrite lookup_insert_Some. intros [[_ <-]|[_ E]]; [done|]. by eapply Hh. Qed.

Lemma funded_later n n' l : n <= n' -> funded accts supply n l -> funded accts supply n' l.
Proof. intros Hn []. constructor; try done; unfold MAX_AMOUNT in *; lia. Qed.

(** A movement between two customers of at most the largest amount. *)
Lemma funded_move n l l' d c f g da ca :
  funded accts supply n l -> ledger_inv l' ->
  accounts l' = upd2 d c f g (accounts l) -> d <> c -> d <> VAULT -> c <> VAULT ->
  accounts l !! d = Some da -> accounts l !! c = Some ca ->
  debits_posted (f (acc_balance da)) <= debits_posted (acc_balance da) + MAX_AMOUNT ->
  debits_pending (f (acc_balance da)) <= debits_pending (acc_balance da) + MAX_AMOUNT ->
  debits_posted (g (acc_balance ca)) = debits_posted (acc_balance ca) ->
  debits_pending (g (acc_balance ca)) = debits_pending (acc_balance ca) ->
  holds_between (transfers l') -> funded accts supply (n + 1) l'.
Proof.
  intros [_ Ha _ Hpo Hpe] Hi E Hne Hd Hc Hda Hca H1 H2 H3 H4 Hh.
  pose proof (total_upd2 debits_posted d c f g (accounts l) da ca Hne Hda Hca) as T1.
  pose proof (total_upd2 debits_pending d c f g (accounts l) da ca Hne Hda Hca) as T2.
  constructor; [done|rewrite E; by apply funded_upd2|done|..]; rewrite E; unfold MAX_AMOUNT in *; lia.
Qed.

(** The transfer of an operation that creates one. *)
Lemma new_transfer_fields i d c x ts t :
  new_immediate i d c x ts = Ok t \/ new_pending i d c x ts = Ok t ->
  debit_account_id t = d /\ credit_account_id t = c /\ tr_amount t = x.
Proof. unfold new_immediate, new_pending. intros [E|E]; apply bind_ok in E as (u & _ & [= <-]); done. Qed.

Lemma funded_step n op ts l ev b l' :
  workload_op accts op -> funded accts supply n l ->
  batch_op op ts = Some b -> op_event l b = Some ev -> lstep l ev l' -> funded accts supply (n + 1) l'.
Proof.
  intros [_ Hop] Hf Eb Ee Hs. pose proof (lstep_inv _ _ _ Hs (fd_inv _ _ _ _ Hf)) as Hi.
  pose proof Hf as [Hinv Ha Hh Hpo Hpe].
  destruct op; simpl in Eb.
  - destruct (new_immediate _ _ _ _ _) as [t|] eqn:Et; simplify_eq/=. inversion Hs; subst.
    destruct (new_transfer_fields _ _ _ _ _ t (or_introl Et)) as (Ed & Ec & Ex). destruct Hop as (Hfr & Hto & Hx).
    match goal with H : fresh_transfer _ _ _ |- _ => destruct H as [_ Hst _ Hne _] end.
    match goal with H : can_move _ _ _ _ _ _ |- _ => destruct H as [Hda Hca _ _] end.
    eapply (funded_move n l _ _ _ _ _ da ca); try done; simpl; rewrite ?Ed, ?Ec, ?Ex in *;
      try done; try (intros ->; done); [lia|unfold MAX_AMOUNT; lia|].
    apply holds_insert; [done|]. by rewrite Hst.
  - destruct (new_pending _ _ _ _ _) as [t|] eqn:Et; simplify_eq/=. inversion Hs; subst.
    destruct (new_transfer_fields _ _ _ _ _ t (or_intror Et)) as (Ed & Ec & Ex). destruct Hop as (Hfr & Hto & Hx).
    match goal with H : fresh_transfer _ _ _ |- _ => destruct H as [_ Hst _ Hne _] end.
    match goal with H : can_move _ _ _ _ _ _ |- _ => destruct H as [Hda Hca _ _] end.
    eapply (funded_move n l _ _ _ _ _ da ca); try done; simpl; rewrite ?Ed, ?Ec, ?Ex in *;
      try done; try (intros ->; done); [unfold MAX_AMOUNT; lia|lia|].
    apply holds_insert; [done|]. rewrite Ed, Ec. intros _. split; intros E; congruence.
  - simplify_eq/=. inversion Hs; subst.
    match goal with H : live_hold _ _ _ _ _ |- _ => destruct H as [Eh Hst Hda Hca _ _] end.
    destruct (Hh _ _ Eh Hst) as [Hd Hc].
    eapply (funded_move n l _ _ _ _ _ da ca); try done; simpl; [lia|unfold MAX_AMOUNT; lia|].
    do 2 (apply holds_insert; [|done]). done.
  - simplify_eq/=. destruct (transfers l !! pending_id) as [h0|]; simplify_eq/=. inversion Hs; subst.
    match goal with H : live_hold _ _ _ _ _ |- _ => destruct H as [Eh Hst Hda Hca _ _] end.
    destruct (Hh _ _ Eh Hst) as [Hd Hc]. pose proof (tok_accounts _ _ _ _ (inv_transfers _ Hinv _ _ Eh)).
    eapply (funded_move n l _ _ _ _ _ da ca); try done; simpl; [unfold MAX_AMOUNT; lia..|].
    by apply holds_insert.
Qed.

Lemma funded_replay n l es :
  Forall (fun v => workload_op accts v.1) es -> funded accts supply n l ->
  funded accts supply (n + lenN es) (replay_ops l es).
Proof.
  intros He. revert n l. induction He as [|[op ts] es Hop _ IH]; intros n l Hf.
  - unfold lenN. simpl. by rewrite N.add_0_r.
  - rewrite lenN_cons. replace (n + (lenN es + 1)) with (n + 1 + lenN es) by lia.
    apply (IH _ (apply_to_ledger op ts l)).
    destruct (apply_to_ledger_step op ts l) as [->|(b & ev & Eb & Ee & Hs)].
    + by apply (funded_later n); [lia|].
    + by eapply funded_step.
Qed.

End funded.

(** ** The audit *)

Lemma map_sum_keys {A} (f : A -> N) (m : gmap N A) keys :
  NoDup keys -> (forall i, is_Some (m !! i) <-> i ∈ keys) ->
  map_sum f m = list_sum (fun i => default 0 (f <$> m !! i)) keys.
Proof.
  intros Hnd. revert m. induction Hnd as [|k ks Hk _ IH]; intros m Hm.
  - replace m with (∅ : gmap N A); [apply map_sum_empty|]. symmetry. apply map_empty. intros i.
    apply eq_None_not_Some. rewrite Hm. apply not_elem_of_nil.
  - destruct (proj2 (Hm k)) as [v Ev]; [left|]. rewrite (map_sum_delete f m k v Ev), (IH (delete k m)).
    + simpl. rewrite Ev. simpl. f_equal. clear IH Hm. induction ks as [|j ks IH]; [done|]. simpl.
      rewrite not_elem_of_cons in Hk. destruct Hk. rewrite lookup_delete_ne, IH by done. done.
    + intros i. rewrite lookup_delete_is_Some, Hm, elem_of_cons. split; [naive_solver|].
      intros Hi. split; [by intros ->|auto].
Qed.

(** What an account's owner has, by posted entries. *)
Definition posted (m : gmap N Account) (i : AccountId) : N :=
  balance_of credits_posted m i - balance_of debits_posted m i.

Lemma list_sum_posted m ids :
  (forall i, i ∈ ids -> balance_of debits_posted m i <= balance_of credits_posted m i) ->
  list_sum (posted m) ids + list_sum (balance_of debits_posted m) ids = list_sum (balance_of credits_posted m) ids.
Proof.
  induction ids as [|i ids IH]; intros Hle; simpl; [done|].
  pose proof (Hle i ltac:(left)). rewrite <- IH by (intros; apply Hle; by right). unfold posted at 1. lia.
Qed.

Lemma posted_wealth_sum node l ids expected t :
  (forall i, i ∈ ids -> is_Some (accounts l !! i) /\
     balance_of debits_posted (accounts l) i <= balance_of credits_posted (accounts l) i) ->
  t + list_sum (posted (accounts l)) ids <= U128_MAX ->
  posted_wealth node l ids expected t = Ok (t + list_sum (posted (accounts l)) ids).
Proof.
  revert t. induction ids as [|i ids IH]; intros t Hi Ht; cbn [posted_wealth list_sum foldr] in *.
  { by rewrite N.add_0_r. }
  fold (list_sum (posted (accounts l)) ids) in *.
  destruct (Hi i ltac:(left)) as [[a Ea] Hle]. unfold get_account. rewrite Ea. simpl.
  unfold posted at 1 in Ht. unfold posted at 1.
  rewrite (balance_of_some _ _ _ _ Ea), (balance_of_some _ _ _ _ Ea) in *.
  rewrite (proj2 (N.ltb_ge _ _) Hle). unfold checked_add.
  rewrite (proj2 (N.leb_le _ _)) by lia. simpl. rewrite IH; [f_equal; lia| |lia].
  intros j Hj. apply Hi. by right.
Qed.

Section audit.
Context (accts : list AccountId) (supply : N).
Hypothesis vault_apart : VAULT ∉ accts.
Hypothesis accts_distinct : NoDup accts.

Lemma funded_total φ m :
  funded_accounts accts supply m ->
  total φ m = balance_of φ m VAULT + list_sum (balance_of φ m) accts.
Proof.
  intros [(v & Hv & _) Hc Hk]. unfold total. rewrite (map_sum_keys _ m (VAULT :: accts)); [done|by constructor|].
  intros i. rewrite elem_of_cons. split.
  - intros [a Ea]. destruct (Hc i a Ea) as [|[? _]]; auto.
  - intros [->|Hi]; eauto.
Qed.

Lemma funded_wealth n l :
  funded accts supply n l ->
  (forall i, i ∈ accts -> is_Some (accounts l !! i) /\
     balance_of debits_posted (accounts l) i <= balance_of credits_posted (accounts l) i) /\
  list_sum (posted (accounts l)) accts = supply.
Proof.
  intros [Hi Ha _ _ _].
  assert (forall i, i ∈ accts -> is_Some (accounts l !! i) /\
     balance_of debits_posted (accounts l) i <= balance_of credits_posted (accounts l) i) as Hle.
  { intros i Hin. destruct (fa_known _ _ _ Ha i Hin) as [a Ea]. split; [eauto|].
    rewrite !(balance_of_some _ _ _ _ Ea).
    destruct (fa_customer _ _ _ Ha i a Ea) as [->|[_ Hfl]]; [done|].
    destruct (aok_limits _ _ _ _ (inv_accounts _ Hi i a Ea)) as [Hl _]. specialize (Hl Hfl). lia. }
  split; [done|]. pose proof (list_sum_posted (accounts l) accts (fun i H => proj2 (Hle i H))) as Hs.
  pose proof (inv_posted _ Hi) as Hp. rewrite !(funded_total _ _ Ha) in Hp.
  destruct (fa_vault _ _ _ Ha) as (v & Ev & Hd & Hc).
  rewrite !(balance_of_some _ _ _ _ Ev), Hd, Hc in Hp. lia.
Qed.

(** The oracle accepts a funded ledger whose totals fit. *)
Lemma funded_conservation n l node :
  funded accts supply n l -> supply + MAX_AMOUNT * n <= U128_MAX ->
  assert_conservation node l accts supply = Ok tt.
Proof.
  intros Hf Hn. pose proof Hf as [Hi Ha Hh Hpo Hpe]. unfold assert_conservation.
  rewrite verify_invariants_inv by done. rewrite bool_decide_true.
  - destruct (funded_wealth n l Hf) as [Hle Hs]. rewrite posted_wealth_sum by (rewrite ?Hs; done || lia).
    simpl. by rewrite Hs, N.eqb_refl.
  - unfold totals_fit, ledger_totals. simpl. rewrite <- (inv_posted _ Hi), <- (inv_pending _ Hi). lia.
Qed.

End audit.

(** ** Base ledgers *)

Lemma ignoring_respects m l ev : respects l ev (m l) -> ignoring m l = l \/ lstep l ev (ignoring m l).
Proof. unfold respects, ignoring. destruct (m l) as [l' []]; auto. Qed.

Lemma ignoring_reachable sc m l ev : respects l ev (m l) -> reachable sc l -> reachable sc (ignoring m l).
Proof. intros Hr Hl. destruct (ignoring_respects _ _ _ Hr) as [->|?]; eauto with ledger. Qed.

Lemma seed_accounts_reachable sc scale balance accts idx ts l :
  reachable sc l -> reachable sc (seed_accounts scale balance accts idx ts l).
Proof.
  revert idx ts l. induction accts as [|a accts IH]; intros idx ts l Hl; simpl; [done|].
  pose proof (ignoring_reachable sc _ l _ (create_account_respects a Liability flags_customer scale (ts + 1) l) Hl).
  destruct (0 <? balance); apply IH; [|done]. destruct (new_immediate _ _ _ _ _); [|done].
  eapply ignoring_reachable; [apply create_transfer_respects|done].
Qed.

Lemma base_ledger_reachable scale accts balance : reachable scale (base_ledger scale accts balance).
Proof.
  unfold base_ledger. apply seed_accounts_reachable.
  eapply ignoring_reachable; [apply create_account_respects|apply reachable_new].
Qed.

(** Being freshly funded, by computation. *)
Definition fresh_accounts (accts : list AccountId) (supply : N) (l : Ledger) : bool :=
  forallb (fun i => bool_decide (is_Some (accounts l !! i))) accts &&
  forallb (fun '(i, a) => bool_decide (i = VAULT) ||
             (bool_decide (i ∈ accts) && debits_must_not_exceed_credits (acc_flags a)))
    (btree_iter (accounts l)) &&
  match accounts l !! VAULT with
  | Some v => (debits_posted (acc_balance v) =? supply) && (credits_posted (acc_balance v) =? 0)
  | None => false
  end.

Definition freshly_funded (accts : list AccountId) (supply : N) (l : Ledger) : bool :=
  fresh_accounts accts supply l &&
  forallb (fun '(_, t) => bool_decide (tr_state t <> Pending)) (btree_iter (transfers l)) &&
  (total debits_posted (accounts l) <=? supply) && (total debits_pending (accounts l) =? 0).

Lemma fresh_accounts_ok accts supply l :
  fresh_accounts accts supply l = true -> funded_accounts accts supply (accounts l).
Proof.
  unfold fresh_accounts. rewrite !andb_true_iff, !forallb_forall. intros [[Hk Hc] Hv]. constructor.
  - destruct (accounts l !! VAULT) as [v|]; [|done]. rewrite andb_true_iff, !N.eqb_eq in Hv. eauto.
  - intros i a Ea. apply elem_of_btree_iter, list_elem_of_In, Hc in Ea.
    rewrite orb_true_iff, andb_true_iff, !bool_decide_eq_true in Ea. tauto.
  - intros i Hi. by apply list_elem_of_In, Hk, bool_decide_eq_true in Hi.
Qed.

Lemma freshly_funded_ok scale accts balance supply :
  freshly_funded accts supply (base_ledger scale accts balance) = true ->
  funded accts supply 0 (base_ledger scale accts balance).
Proof.
  unfold freshly_funded. rewrite !andb_true_iff, N.leb_le, N.eqb_eq, forallb_forall.
  intros [[[Ha Ht] Hpo] Hpe]. constructor; [|by apply fresh_accounts_ok| |lia|lia].
  - eapply reachable_inv, base_ledger_reachable.
  - intros i t Et Hp. apply elem_of_btree_iter, list_elem_of_In, Ht, bool_decide_eq_true in Et. done.
Qed.
