(* ===== verification/SimRun.v ===== *)
(** * Runs of the simulator

    The workload only proposes operations between the accounts it was given, and every
    scenario keeps the cluster's invariant through all of its ticks. *)

From Stdlib Require Import QArith_base.
From S2P Require Import Bytes Error Amount Account Transfer Ledger LedgerInv WalRecord SimNet SimNode SimCluster.
From S2P Require Import SimInv SimSafe SimWealth SimScenario.
From stdpp Require Import list gmap strings.
From S2P Require Import Prelude.
#[local] Open Scope N_scope.
#[local] Open Scope st_scope.

(** ** Runs that may still be drawing *)

(** The generator after [k] draws from one range. *)
Definition redraw `{Rng} (lo hi : N) (k : nat) (g : rng) : rng := Nat.iter k (fun g => (draw_range lo hi g).2) g.

(** Some state of the generator draws one and the same number [n] times in a row from a
    range of at least two. *)
Definition streak `{Rng} (n : nat) : Prop :=
  exists hi a g, 0 < hi /\ forall k, (k < n)%nat -> (draw_range 0 hi (redraw 0 hi k g)).1 = a.

(** Weakest preconditions where the loop for another receiver may be at it still, after
    [fuel] draws of one number. *)
Section wpf.
Context `{Rng} (fuel : nat).

Definition wpf {X A} (m : sim X A) (Q : A -> X -> Prop) (x : X) : Prop :=
  forall g, match m (x, g) with
            | ((x', _), Ok a) => Q a x'
            | (_, Err NoFuel) => streak fuel
            | (_, Err Panicked) => False
            end.

Lemma wpf_of {X A} (m : sim X A) Q x : wp m Q x -> wpf m Q x.
Proof. intros Hw g. specialize (Hw g). by destruct (m (x, g)) as [[x' g'] [a|]]. Qed.

Lemma wpf_run {X A} (m : sim X A) Q x g :
  wpf m Q x ->
  (exists x' g' a, m (x, g) = ((x', g'), Ok a) /\ Q a x') \/ (exists s, m (x, g) = (s, Err NoFuel) /\ streak fuel).
Proof. intros Hw. specialize (Hw g). destruct (m (x, g)) as [[x' g'] [a|[]]]; [left; eauto 6|done|right; eauto]. Qed.

Lemma wpf_ret {X A} (a : A) (Q : A -> X -> Prop) x : Q a x -> wpf (st_ret a) Q x.
Proof. by intros ? g. Qed.

Lemma wpf_bind {X A B} (m : sim X A) (f : A -> sim X B) Q x :
  wpf m (fun a => wpf (f a) Q) x -> wpf (st_bind m f) Q x.
Proof.
  intros Hw g. specialize (Hw g). unfold st_bind. destruct (m (x, g)) as [[x' g'] [a|[]]]; [apply Hw|done|done].
Qed.

Lemma wpf_mono {X A} (m : sim X A) (Q Q' : A -> X -> Prop) x :
  wpf m Q x -> (forall a x', Q a x' -> Q' a x') -> wpf m Q' x.
Proof. intros Hw HQ g. specialize (Hw g). destruct (m (x, g)) as [[x' g'] [a|[]]]; auto. Qed.

Lemma wpf_for {X A} (f : A -> sim X unit) (I : X -> Prop) l x :
  (forall a x, a ∈ l -> I x -> wpf (f a) (fun _ => I) x) -> I x -> wpf (st_for f l) (fun _ => I) x.
Proof.
  revert x. induction l as [|a l IH]; intros x Hf Hx; [by apply wpf_ret|].
  apply wpf_bind. eapply wpf_mono; [apply Hf; [left|done]|]. intros u x' Hx'. apply IH; [|done].
  intros b y Hb. apply Hf. by right.
Qed.

End wpf.

Section workload.
Context `{Rng}.

Lemma draw_other_run fuel from to w g (n := N.of_nat (length (wg_accounts w))) :
  1 < n -> to < n ->
  (exists i g', draw_other fuel from to (w, g) = ((w, g'), Ok i) /\ i <> from /\ i < n) \/
  ((exists s, draw_other fuel from to (w, g) = (s, Err NoFuel)) /\
   forall k, (k < fuel)%nat -> (draw_range 0 (n - 1) (redraw 0 (n - 1) k g)).1 = from).
Proof.
  intros Hn. revert to g. induction fuel as [|fuel IH]; intros to g Hto; simpl; fold n.
  - rewrite (proj2 (N.ltb_lt _ _) Hn). destruct (N.eqb_spec to from) as [->|Hne]; simpl; [right|left; eauto].
    split; [eauto|lia].
  - destruct (N.eqb_spec to from) as [->|Hne]; simpl; [|left; eauto].
    rewrite (proj2 (N.ltb_lt _ _) Hn). unfold st_bind, gen_range. rewrite (proj2 (N.leb_le 0 (n - 1))) by lia.
    pose proof (draw_range_in 0 (n - 1) g ltac:(lia)) as Hin.
    destruct (draw_range 0 (n - 1) g) as [i g1] eqn:Eg. simpl in Hin. rewrite N.mod_small by lia.
    destruct (N.eq_dec i from) as [->|Hi].
    + destruct (IH from g1) as [?|[Hs Hk]]; [lia|by left|right]. split; [exact Hs|].
      intros [|k] Hlt; [simpl; by rewrite Eg|]. unfold redraw in *. rewrite Nat.iter_succ_r, Eg. apply Hk. lia.
    + left. destruct fuel; simpl; fold n; rewrite (proj2 (N.eqb_neq _ _) Hi); simpl; exists i, g1; split_and!; done || lia.
Qed.

Lemma draw_other_ok fuel from to w (n := N.of_nat (length (wg_accounts w))) :
  1 < n -> to < n -> wpf fuel (draw_other fuel from to) (fun i w' => i < n /\ w' = w) w.
Proof.
  intros Hn Hto g. destruct (draw_other_run fuel from to w g Hn Hto) as [(i & g' & -> & _ & Hi)|[[s ->] Hk]]; [done|].
  destruct s as [x g']. exists (n - 1), from, g. split; [unfold n in *; lia|exact Hk].
Qed.

Section generator.
Context (accts : list N) (fuel : nat).
Hypothesis accts_fit : Forall (fun a => a <= U128_MAX) accts.
Hypothesis accts_two : (1 < length accts)%nat.

Record workload_ok (w : WorkloadGenerator) : Prop := {
  wo_accounts : wg_accounts w = accts;
  wo_next : wg_next_transfer_id w <= U64_MAX;
  wo_holds : forall i h, active_holds w !! i = Some h -> i <= U64_MAX /\ h.2 <= MAX_AMOUNT;
}.

Lemma wp_next_id w (Q : N -> WorkloadGenerator -> Prop) :
  workload_ok w -> (forall id w', id <= U64_MAX -> workload_ok w' -> Q id w') -> wp next_id Q w.
Proof.
  intros [Ha Hn Hh] HQ g. unfold next_id. simpl.
  assert (u64_sat_add (wg_next_transfer_id w) 1 <= U64_MAX) by (unfold u64_sat_add, saturating_add; lia).
  by apply HQ.
Qed.

Lemma end_hold_ok w :
  workload_ok w -> wp end_hold (fun r w' => workload_ok w' /\ forall op, r = Some op -> workload_op accts op) w.
Proof.
  intros Hw. unfold end_hold. apply wp_bind, wp_reads, wp_bind.
  apply (wp_mono _ (fun _ w' => w' = w)).
  { intros g. unfold rng_choose. destruct ((btree_iter (active_holds w)).*1); [done|].
    by destruct (draw_index _ g). }
  intros [p|] w1 ->; [|by apply wp_ret]. apply wp_bind, wp_reads.
  destruct (active_holds w !! p) as [[[f t] amount]|] eqn:Ep; [|by apply wp_ret].
  destruct (wo_holds w Hw p _ Ep) as [Hp Ha]. simpl in Ha. apply wp_bind, wp_modify, wp_bind.
  assert (U64_MAX <= U128_MAX) by done. apply wp_next_id.
  { constructor; simpl; [by apply Hw..|]. intros i h. rewrite lookup_delete_Some. intros [_ E]. by eapply wo_holds. }
  intros id w2 Hid Hw2. apply wp_bind, wp_gen_bool. intros b. apply wp_ret. split; [done|].
  unfold MAX_AMOUNT, U128_MAX in *.
  intros op [= <-]. destruct b; (split; [|done]); simpl; unfold U128_MAX; lia.
Qed.

Lemma wp_gen_below {X} n (Q : N -> X -> Prop) x :
  0 < n -> (forall i, i < n -> Q i x) -> wp (gen_below n) Q x.
Proof.
  intros Hn HQ. unfold gen_below. destruct (N.eqb_spec n 0); [lia|]. apply wp_gen_range; [lia|].
  intros i Hi. apply HQ. lia.
Qed.

Lemma account_at i : i < N.of_nat (length accts) -> exists a, accts !! N.to_nat i = Some a /\ a ∈ accts /\ a <= U128_MAX.
Proof using accts_fit accts_two.
  intros Hi. destruct (lookup_lt_is_Some_2 accts (N.to_nat i)) as [a Ea]; [lia|].
  exists a. split; [done|]. assert (a ∈ accts) by (by eapply list_elem_of_lookup_2).
  split; [done|]. rewrite Forall_forall in accts_fit. auto.
Qed.

Lemma new_transfer_ok w :
  workload_ok w -> wpf fuel (new_transfer fuel) (fun op w' => workload_ok w' /\ workload_op accts op) w.
Proof using All.
  intros Hw. unfold new_transfer. apply wpf_bind, wpf_of, wp_reads. rewrite (wo_accounts w Hw).
  set (n := N.of_nat (length accts)). assert (1 < n) by (unfold n; lia).
  apply wpf_bind, wpf_of, wp_gen_below; [lia|]. intros f Hf. apply wpf_bind, wpf_of, wp_gen_below; [lia|]. intros t Ht.
  rewrite !N.mod_small by lia. apply wpf_bind.
  apply (wpf_mono _ _ (fun i w' => i < n /\ w' = w)).
  { pose proof (draw_other_ok fuel f t w) as Hd. cbv zeta in Hd. rewrite (wo_accounts w Hw) in Hd. by apply Hd. }
  intros i w1 [Hi ->]. destruct (account_at f Hf) as (a & -> & Hain & Hafit).
  destruct (account_at i Hi) as (b & -> & Hbin & Hbfit). apply wpf_of.
  apply wp_bind, wp_gen_range; [done|]. intros amount Hamount. apply wp_bind, wp_next_id; [done|].
  intros id w2 Hid Hw2. apply wp_bind, wp_gen_bool. assert (U64_MAX <= U128_MAX) by done.
  assert (amount <= U128_MAX) by (unfold U128_MAX; lia). intros [|].
  - apply wp_bind, wp_modify, wp_ret. split.
    + destruct Hw2 as [? ? Hh]. constructor; try done. intros j h. simpl. rewrite lookup_insert_Some.
      intros [[<- <-]|[_ E]]; [|by eapply Hh]. split; [done|]. unfold MAX_AMOUNT. simpl. lia.
    + split; [simpl; lia|]. unfold MAX_AMOUNT. simpl. split_and!; [done|done|lia].
  - apply wp_ret. split; [done|]. split; [simpl; lia|]. unfold MAX_AMOUNT. simpl. split_and!; [done|done|lia].
Qed.

Lemma next_op_ok w :
  workload_ok w -> wpf fuel (next_op fuel) (fun op w' => workload_ok w' /\ workload_op accts op) w.
Proof using All.
  intros Hw. unfold next_op. apply wpf_bind, wpf_of, wp_reads, wpf_bind, wpf_of.
  apply (wp_mono _ (fun _ w' => workload_ok w')).
  { destruct (negb _); [by apply wp_gen_bool|by apply wp_ret]. }
  intros ending w1 Hw1. apply wpf_bind, wpf_of.
  apply (wp_mono _ (fun r w' => workload_ok w' /\ forall op, r = Some op -> workload_op accts op)).
  { destruct ending; [by apply end_hold_ok|by apply wp_ret]. }
  intros [op|] w2 [Hw2 Hop]; [apply wpf_ret; auto|by apply new_transfer_ok].
Qed.

End generator.
End workload.

(** ** The oracle *)

(** What a scenario sets up: distinct customers other than the vault, funded by it, and
    room for everything the workload can move. *)
Record setup_ok (accts : list AccountId) (supply : N) (base : Ledger) : Prop := {
  su_fit : Forall (fun a => a <= U128_MAX) accts;
  su_two : (1 < length accts)%nat;
  su_distinct : NoDup accts;
  su_vault : VAULT ∉ accts;
  su_funded : funded accts supply 0 base;
  su_room : supply + MAX_AMOUNT * U64_MAX <= U128_MAX;
}.

Section run.
Context `{Crc32c, EntryCodec, Rng}.
Context (accts : list AccountId) (supply : N) (base : Ledger) (fuel : nat).
Hypothesis setup : setup_ok accts supply base.

Abbreviation cluster_inv := (cluster_ok base (workload_op accts) (accts, supply) ∅).

Lemma op_fits_of op : workload_op accts op -> op_fits op.
Proof. apply workload_op_fits. Qed.
#[local] Hint Resolve op_fits_of : core.

Lemma try_fold_unit {E A} (f : A -> result E unit) l :
  (forall x, x ∈ l -> f x = Ok tt) -> try_fold (fun _ x => f x) l tt = Ok tt.
Proof.
  induction l as [|x l IH]; intros Hf; [done|]. cbn [try_fold]. rewrite (Hf x) by left. apply IH.
  intros y Hy. apply Hf. by right.
Qed.

Lemma node_conserves m D P c k n :
  cluster_inv m D P c -> nodes c !! k = Some n ->
  assert_conservation (node_id n) (nd_ledger (store n)) accts supply = Ok tt.
Proof using All.
  destruct setup as [_ _ Hdist Hvault Hfund Hroom].
  intros Hc En. destruct (co_nodes _ _ _ _ _ _ _ _ Hc _ _ En) as (_ & _ & es & tail & Hr & _).
  pose proof (rp_store _ _ _ _ _ _ _ _ _ Hr) as Hs. rewrite (so_ledger _ _ _ _ Hs).
  assert (Forall (fun v => workload_op accts v.1) es) as He.
  { apply Forall_lookup. intros i v Ev. assert (log_at es (N.of_nat i + 1) = Some v) as El.
    { unfold log_at. destruct (N.eqb_spec (N.of_nat i + 1) 0); [lia|]. by replace (N.to_nat _) with i by lia. }
    apply (rp_log _ _ _ _ _ _ _ _ _ Hr) in El.
    by destruct (gh_decided _ _ _ _ _ _ (co_ghost _ _ _ _ _ _ _ _ Hc) _ _ El) as [[? _] _]. }
  eapply (funded_conservation accts supply Hvault Hdist (0 + lenN es)).
  - by apply funded_replay.
  - pose proof (so_room _ _ _ _ Hs). unfold MAX_AMOUNT in *. lia.
Qed.

Lemma verify_cluster_ok m D P c : cluster_inv m D P c -> verify_cluster c = Ok tt.
Proof using All.
  intros Hc. unfold verify_cluster. pose proof (co_audit _ _ _ _ _ _ _ _ Hc) as [= Ea Et]. rewrite Ea, Et.
  rewrite try_fold_unit.
  - simpl. erewrite pairs_agree_ok; [done|exact Hc|]. apply active_nodes_known.
  - intros n Hn. apply active_nodes_known in Hn as [k En]. by eapply node_conserves.
Qed.

(** ** Runs *)

(** At tick [t], with at most [m] operations proposed. *)
Record sim_ok (m t : N) (s : Sim) : Prop := {
  sk_clock : sm_clock s = t;
  sk_proposed : sm_proposed s <= m;
  sk_workload : workload_ok accts (sm_workload s);
  sk_cluster : exists D P, cluster_inv (sm_proposed s) D P (sm_cluster s);
}.

Lemma sim_widen m m' t s : m <= m' -> sim_ok m t s -> sim_ok m' t s.
Proof. intros ? []. constructor; try done. lia. Qed.

Lemma wp_in_cluster {A} (a : sim SimCluster A) (Q : A -> Sim -> Prop) s :
  wp a (fun x c => Q x (mkSim c (sm_workload s) (sm_clock s) (sm_proposed s))) (sm_cluster s) ->
  wp (in_cluster a) Q s.
Proof. intros Hw g. specialize (Hw g). unfold in_cluster. by destruct (a (sm_cluster s, g)) as [[c g'] []]. Qed.

Lemma wpf_in_workload {A} (a : sim WorkloadGenerator A) (Q : A -> Sim -> Prop) s :
  wpf fuel a (fun x w => Q x (mkSim (sm_cluster s) w (sm_clock s) (sm_proposed s))) (sm_workload s) ->
  wpf fuel (in_workload a) Q s.
Proof. intros Hw g. specialize (Hw g). unfold in_workload. by destruct (a (sm_workload s, g)) as [[w g'] [|[]]]. Qed.

(** An action of the cluster that keeps its invariant. *)
Definition keeps {A} (a : sim SimCluster A) : Prop :=
  forall m D P c, cluster_inv m D P c -> wp a (fun _ c' => exists D' P', cluster_inv m D' P' c') c.

Lemma keeps_same {A} (a : sim SimCluster A) :
  (forall m D P c, cluster_inv m D P c -> wp a (fun _ => cluster_inv m D P) c) -> keeps a.
Proof. intros Ha m D P c Hc. apply (wp_mono _ (fun _ => cluster_inv m D P)); [by apply Ha|]. by exists D, P. Qed.

Lemma keeps_step now : keeps (cluster_step now).
Proof.
  intros m D P c Hc. eapply wp_mono; [eapply cluster_step_ok; [exact op_fits_of|exact Hc]|].
  intros _u c' (D' & _ & Hc'). by exists D', P.
Qed.
Lemma keeps_reboot id now : keeps (reboot_node id now).
Proof. apply keeps_same. intros. by apply reboot_node_ok. Qed.
Lemma keeps_crash id torn_write : keeps (crash_node id torn_write).
Proof. apply keeps_same. intros. by apply crash_node_ok. Qed.
Lemma keeps_election id now : keeps (trigger_election id now).
Proof. apply keeps_same. intros. by apply trigger_election_ok. Qed.
Lemma keeps_get id : keeps (get_node id).
Proof. apply keeps_same. intros. by apply wp_look. Qed.
Lemma keeps_heal : keeps (change (fun c => set_network (net_heal (network c)) c)).
Proof. apply keeps_same. intros. by apply wp_change, set_links_cluster. Qed.
Lemma keeps_partition a b : keeps (change (fun c => set_network (net_partition a b (network c)) c)).
Proof. apply keeps_same. intros. by apply wp_change, set_links_cluster. Qed.
Create HintDb sim.
#[local] Hint Resolve keeps_step keeps_reboot keeps_crash keeps_election keeps_get keeps_heal keeps_partition : sim.

Lemma wp_keeps {A} (a : sim SimCluster A) m t s :
  keeps a -> sim_ok m t s -> wp (in_cluster a) (fun _ => sim_ok m t) s.
Proof.
  intros Ha [Hc Hp Hw (D & P & Hcl)]. apply wp_in_cluster. eapply wp_mono; [by eapply Ha|].
  intros x c' (D' & P' & Hc'). constructor; simpl; eauto.
Qed.

Lemma wpf_when (b : bool) a m t s :
  wpf fuel a (fun _ => sim_ok m t) s -> sim_ok m t s -> wpf fuel (when b a) (fun _ => sim_ok m t) s.
Proof. intros Ha Hs. destruct b; [done|by apply wpf_ret]. Qed.

Lemma wp_next_tick m t s (Q : N -> Sim -> Prop) :
  t < U64_MAX -> sim_ok m t s -> (forall s', sim_ok m (t + 1) s' -> Q (t + 1) s') -> wp next_tick Q s.
Proof.
  intros Ht [Hc Hp Hw Hcl] HQ g. unfold next_tick. simpl.
  assert (clock_advance 1 (sm_clock s) = t + 1) as ->
    by (unfold clock_advance, u64_sat_add, saturating_add, U64_MAX in *; lia).
  by apply HQ.
Qed.

Lemma propose_next_ok m t now s :
  m + 1 < U64_MAX -> sim_ok m t s -> wpf fuel (propose_next fuel now) (fun _ => sim_ok (m + 1) t) s.
Proof using All.
  intros Hm [Hc Hp Hw (D & P & Hcl)]. apply wpf_bind, wpf_in_workload.
  eapply wpf_mono; [apply (next_op_ok accts fuel (su_fit _ _ _ setup) (su_two _ _ _ setup)); done|]. intros op w' [Hw' Hop]. apply wpf_of, wp_bind, wp_in_cluster. simpl.
  eapply wp_mono; [apply (propose_op_ok base (workload_op accts) (accts, supply) ∅ (sm_proposed s) D P); [lia|done|done]|].
  intros [|] c' (P' & Hc').
  - intros g. unfold count_proposed. simpl. unfold checked_add.
    rewrite (proj2 (N.leb_le _ _)) by lia. constructor; simpl; eauto. lia.
  - apply wp_ret. constructor; simpl; eauto. lia.
Qed.

(** Any number of ticks, each of which proposes at most [d] operations. *)
Lemma wpf_ticks {A} (f : A -> sim Sim unit) (d : N) l m t s :
  (forall x m t s, m + 1 < U64_MAX -> t < U64_MAX -> sim_ok m t s -> wpf fuel (f x) (fun _ => sim_ok (m + d) (t + 1)) s) ->
  m + d * lenN l + 1 < U64_MAX -> t + lenN l <= U64_MAX -> sim_ok m t s ->
  wpf fuel (st_for f l) (fun _ => sim_ok (m + d * lenN l) (t + lenN l)) s.
Proof.
  intros Hf. revert m t s. induction l as [|x l IH]; intros m t s Hm Ht Hs.
  - apply wpf_ret. unfold lenN. simpl. by rewrite N.mul_0_r, !N.add_0_r.
  - rewrite lenN_cons in *. apply wpf_bind. eapply wpf_mono; [apply (Hf x m t s); [lia|lia|done]|].
    intros _u s' Hs'. replace (m + d * (lenN l + 1)) with (m + d + d * lenN l) by lia.
    replace (t + (lenN l + 1)) with (t + 1 + lenN l) by lia. apply IH; [lia|lia|done].
Qed.

Lemma settle_ticks_ok n m t s :
  m + 1 < U64_MAX -> t + N.of_nat n <= U64_MAX -> sim_ok m t s ->
  wpf fuel (settle_ticks n) (fun _ => sim_ok m (t + N.of_nat n)) s.
Proof.
  intros Hm Ht Hs. unfold settle_ticks.
  pose proof (wpf_ticks (fun _ : nat => let? now := next_tick in in_cluster (cluster_step now)) 0
    (seq 0 n) m t s) as Hw.
  unfold lenN in Hw. rewrite length_seq, N.mul_0_l, N.add_0_r in Hw. apply Hw; [|done..].
  intros _x m' t' s' Hm' Ht' Hs'. rewrite N.add_0_r. apply wpf_bind, wpf_of. eapply wp_next_tick; [done|done|].
  intros s2 Hs2. apply wpf_of, wp_keeps; eauto with sim.
Qed.

(** The end of every tick: perhaps a proposal, then a step. *)
Lemma propose_and_step (b : bool) now m t s :
  m + 1 < U64_MAX -> sim_ok m t s ->
  wpf fuel (do? when b (propose_next fuel now); in_cluster (cluster_step now)) (fun _ => sim_ok (m + 1) t) s.
Proof using All.
  intros Hm Hs. apply wpf_bind. eapply wpf_mono.
  - apply (wpf_when b _ (m + 1)); [by apply propose_next_ok|]. apply (sim_widen m); [lia|done].
  - intros _u s' Hs'. apply wpf_of, wp_keeps; eauto with sim.
Qed.

(** ** The three schedules *)

(** A step of a schedule that keeps the state, then the rest. *)
Lemma wpf_then {A B} (a : sim Sim A) (b : sim Sim B) m m' t s :
  wpf fuel a (fun _ => sim_ok m t) s -> (forall s', sim_ok m t s' -> wpf fuel b (fun _ => sim_ok m' t) s') ->
  wpf fuel (do? a; b) (fun _ => sim_ok m' t) s.
Proof. intros Ha Hb. apply wpf_bind. eapply wpf_mono; [done|]. auto. Qed.

Lemma wpf_faults b (a : sim SimCluster unit) m t s : keeps a -> sim_ok m t s -> wpf fuel (when b (in_cluster a)) (fun _ => sim_ok m t) s.
Proof. intros Ha Hs. apply wpf_when; [|done]. by apply wpf_of, wp_keeps. Qed.

Section tick.
Context (max_ticks tick m t : N) (s : Sim).
Hypothesis room : m + 1 < U64_MAX.
Hypothesis clock_room : t < U64_MAX.
Hypothesis at_tick : sim_ok m t s.

Lemma partition_tick_ok : wpf fuel (partition_tick fuel max_ticks tick) (fun _ => sim_ok (m + 1) (t + 1)) s.
Proof using All.
  unfold partition_tick. apply wpf_bind, wpf_of. eapply wp_next_tick; [done|done|]. intros s1 Hs1.
  eapply wpf_then; [apply wpf_faults; eauto with sim|]. intros s2 Hs2.
  eapply wpf_then; [|intros s3 Hs3; by apply propose_and_step].
  apply wpf_when; [|done]. eapply wpf_then; [apply wpf_of, wp_keeps; eauto with sim|].
  intros s3 Hs3. apply wpf_of, wp_keeps; eauto with sim.
Qed.

Lemma crash_tick_ok : wpf fuel (crash_tick fuel max_ticks tick) (fun _ => sim_ok (m + 1) (t + 1)) s.
Proof using All.
  unfold crash_tick. apply wpf_bind, wpf_of. eapply wp_next_tick; [done|done|]. intros s1 Hs1.
  eapply wpf_then.
  - apply wpf_when; [|done]. eapply wpf_then; [apply wpf_of, wp_keeps; eauto with sim|].
    intros s2 Hs2. apply wpf_of, wp_keeps; eauto with sim.
  - intros s2 Hs2. eapply wpf_then; [apply wpf_faults; eauto with sim|].
    intros s3 Hs3. by apply propose_and_step.
Qed.

Lemma reboot_crashed_ok now id s' : sim_ok m t s' -> wpf fuel (reboot_crashed now id) (fun _ => sim_ok m t) s'.
Proof.
  intros Hs. unfold reboot_crashed. apply wpf_bind. eapply wpf_mono; [apply wpf_of, wp_keeps; eauto with sim|].
  intros node s2 Hs2. apply wpf_faults; eauto with sim.
Qed.

End tick.

Lemma soak_tick_ok max_ticks tick m t s :
  m + 1 < U64_MAX -> t < U64_MAX -> sim_ok m t s ->
  wpf fuel (soak_tick fuel max_ticks tick) (fun _ => sim_ok (m + 1) (t + 1)) s.
Proof using All.
  intros Hm Ht Hs. unfold soak_tick. apply wpf_bind, wpf_of. eapply wp_next_tick; [done|done|]. intros s1 Hs1.
  eapply wpf_then; [|intros s2 Hs2; by apply propose_and_step]. destruct (_ =? 0).
  - apply wpf_bind, wpf_of, wp_gen_range; [done|]. intros victim _. apply wpf_of, wp_keeps; eauto with sim.
  - apply wpf_when; [|done]. apply wpf_for; [|done]. intros id s2 _ Hs2. by apply reboot_crashed_ok.
Qed.

(** ** Reports *)

Lemma most_committed_bound m D P c : cluster_inv m D P c -> most_committed c <= m.
Proof.
  intros Hc. unfold most_committed, btree_values.
  assert (forall k n, (k, n) ∈ btree_iter (nodes c) -> N.of_nat (size (committed_ops (store n))) <= m) as Hn.
  { intros k n Hin. apply elem_of_btree_iter in Hin. by eapply committed_bound. }
  revert Hn. generalize (btree_iter (nodes c)) as l. induction l as [|[k n] l IH]; intros Hn; simpl; [lia|].
  apply N.max_lub; [apply (Hn k n); left|]. apply IH. intros k' n' Hin. apply (Hn k'). by right.
Qed.

Lemma committed_at_bound id m D P c : cluster_inv m D P c -> committed_at id c <= m.
Proof.
  intros Hc. unfold committed_at. destruct (nodes c !! id) as [n|] eqn:En; simpl; [|lia].
  by eapply committed_bound.
Qed.

(** What a report of a finished run says. *)
Definition report_ok (kind : ScenarioType) (seed max_ticks settled : N) (r : ScenarioReport) : Prop :=
  scenario r = kind /\ rep_seed r = seed /\ total_ticks r = max_ticks + settled /\
  ops_committed r <= ops_proposed r <= max_ticks.

(** A run finishes with a report that is [ok], or is still drawing a receiver, after
    [fuel] draws of one number. *)
Definition finishes (res : result (halt + OracleViolation) ScenarioReport) (ok : ScenarioReport -> Prop) : Prop :=
  (exists r, res = Ok r /\ ok r) \/ (res = Err (inl NoFuel) /\ streak fuel).

Lemma conclude_ok kind seed committed (a : sim Sim unit) s g m settled :
  (forall m D P c, cluster_inv m D P c -> committed c <= m) ->
  wpf fuel a (fun _ => sim_ok m (m + settled)) s ->
  finishes (conclude kind seed committed (a (s, g))) (report_ok kind seed m settled).
Proof using All.
  intros Hcom Hw. apply (wpf_run _ _ _ _ g) in Hw as [(s' & g' & u & -> & [Hc Hp _ (D & P & Hcl)])|([s' g'] & -> & Hs)];
    [left|by right]. unfold conclude. rewrite (verify_cluster_ok _ _ _ _ Hcl). simpl. eexists. split; [done|].
  unfold report_ok. simpl. rewrite Hc. split_and!; try done. by eapply Hcom.
Qed.

Lemma lenN_ticks max_ticks : lenN (ticks max_ticks) = max_ticks.
Proof. unfold lenN, ticks. rewrite length_fmap, length_seq. lia. Qed.

(** All the ticks of a schedule. *)
Lemma schedule_ticks_ok f max_ticks s :
  (forall tick m t s, m + 1 < U64_MAX -> t < U64_MAX -> sim_ok m t s -> wpf fuel (f tick) (fun _ => sim_ok (m + 1) (t + 1)) s) ->
  max_ticks + 1 < U64_MAX -> sim_ok 0 0 s ->
  wpf fuel (st_for f (ticks max_ticks)) (fun _ => sim_ok max_ticks max_ticks) s.
Proof.
  intros Hf Hm Hs. pose proof (wpf_ticks f 1 (ticks max_ticks) 0 0 s) as Hw.
  rewrite lenN_ticks, N.mul_1_l, !N.add_0_l in Hw. apply Hw; [done|done|lia|done].
Qed.

Lemma start_ok config balance first_id :
  base = base_ledger Scale_usdc accts balance ->
  supply = N.min U128_MAX (balance * N.of_nat (length accts)) ->
  min_latency_ticks config <= max_latency_ticks config -> first_id <= U64_MAX ->
  sim_ok 0 0 (start config accts balance first_id).
Proof.
  intros Hb Hs Hd Hf. constructor; simpl; [done|done| |].
  - by constructor.
  - exists ∅, ∅. apply new_3_node_ok; [done|done|by rewrite Hs|done].
Qed.

End run.
