(* ===== verification/SimProps.v ===== *)
(** * What the simulator shows, for every seed

    Theorems about the whole simulator: recovery after a crash is exact, committed
    operations are never contradicted whatever the faults, no scenario ever reports a
    violation or panics, and the program exits with success.  The generator and the
    entry format stay parameters; a counting generator and a fixed-width format show
    that what is asked of them can hold. *)

From Stdlib Require Import QArith_base.
From S2P Require Import Bytes Error Amount Account Transfer Ledger LedgerInv WalRecord SimNet SimNode SimCluster.
From S2P Require Import SimInv SimSafe SimWealth SimScenario SimRun.
From stdpp Require Import list gmap strings.
From S2P Require Import Prelude.
#[local] Open Scope N_scope.
#[local] Open Scope st_scope.

(** ** A generator and a format *)

(** Draws that count up. *)
Definition counting_range (lo hi g : N) : N * N := (lo + g mod (hi - lo + 1), g + 1).

Lemma counting_range_in lo hi g : lo <= hi -> lo <= (counting_range lo hi g).1 <= hi.
Proof.
  intros Hle. unfold counting_range. cbn [fst]. assert (hi - lo + 1 <> 0) as Hz by lia.
  pose proof (N.mod_lt g (hi - lo + 1) Hz) as Hm. generalize dependent (g mod (hi - lo + 1)). lia.
Qed.

Definition counting : Rng.
Proof.
  refine {| rng := N; seed_from_u64 := id; draw_range := counting_range;
            draw_bool := fun p g => (negb (Qle_bool p (Z.of_N (g * 37 mod 100) # 100)), g + 1);
            draw_index := fun n g => (N.to_nat (g mod N.of_nat n), g + 1) |}.
  - apply counting_range_in.
  - intros n g Hn. cbn [fst]. pose proof (N.mod_lt g (N.of_nat n) ltac:(lia)). lia.
Defined.

(** Two draws in a row from a range with two numbers differ. *)
Lemma counting_no_streak : ~ @streak counting 2.
Proof.
  intros (hi & a & g & Hhi & Hs). pose proof (Hs 0%nat ltac:(lia)) as H0. pose proof (Hs 1%nat ltac:(lia)) as H1.
  unfold redraw in *. cbn [Nat.iter nat_rect draw_range counting counting_range fst snd] in *.
  set (n := hi - 0 + 1) in *. assert ((g + 1) mod n = g mod n) as Hg by lia. rewrite N.Div0.add_mod in Hg.
  rewrite (N.mod_small 1) in Hg by (unfold n; lia).
  pose proof (N.mod_lt g n ltac:(unfold n; lia)).
  destruct (N.eq_dec (g mod n + 1) n) as [E2|E2].
  - rewrite E2, N.Div0.mod_same in Hg. unfold n in *. lia.
  - rewrite N.mod_small in Hg by lia. lia.
Qed.

Definition u128_at (k : nat) (bs : bytes) : N := le_val (slice (17 + 16 * k) 16 bs).
Definition op_bytes (op : WorkloadOp) : bytes :=
  match op with
  | DirectTransfer i f t a => x00 :: le_bytes 16 i ++ le_bytes 16 f ++ le_bytes 16 t ++ le_bytes 16 a
  | WCreatePending i f t a => x01 :: le_bytes 16 i ++ le_bytes 16 f ++ le_bytes 16 t ++ le_bytes 16 a
  | WPostPending p q a => x02 :: le_bytes 16 p ++ le_bytes 16 q ++ le_bytes 16 a
  | WVoidPending p q => x03 :: le_bytes 16 p ++ le_bytes 16 q
  end.
Definition plain_to (e : SimWalEntry) : bytes :=
  le_bytes 8 (we_index e) ++ le_bytes 8 (we_timestamp e) ++ op_bytes (we_op e).
Definition plain_from (bs : bytes) : result string SimWalEntry :=
  let entry op := Ok (mkEntry (le_val (slice 0 8 bs)) (le_val (slice 8 8 bs)) op) in
  let u k := u128_at k bs in
  match byte_at bs 16 with
  | x00 => entry (DirectTransfer (u 0) (u 1) (u 2) (u 3))
  | x01 => entry (WCreatePending (u 0) (u 1) (u 2) (u 3))
  | x02 => entry (WPostPending (u 0) (u 1) (u 2))
  | x03 => entry (WVoidPending (u 0) (u 1))
  | _ => Err "unknown operation"%string
  end%nat.

Lemma le16 n : n <= U128_MAX -> le_val (le_bytes 16 n) = n.
Proof. intros Hn. apply le_val_le_bytes. unfold U128_MAX in Hn. change (256 ^ N.of_nat 16) with (2 ^ 128). lia. Qed.
Lemma le8 n : n <= U64_MAX -> le_val (le_bytes 8 n) = n.
Proof. intros Hn. apply le_val_le_bytes. unfold U64_MAX in Hn. change (256 ^ N.of_nat 8) with (2 ^ 64). lia. Qed.

(** The fields read back, before the numbers are put together again. *)
Definition through_bytes (op : WorkloadOp) : WorkloadOp :=
  let u n := le_val (le_bytes 16 n) in
  match op with
  | DirectTransfer i f t a => DirectTransfer (u i) (u f) (u t) (u a)
  | WCreatePending i f t a => WCreatePending (u i) (u f) (u t) (u a)
  | WPostPending p q a => WPostPending (u p) (u q) (u a)
  | WVoidPending p q => WVoidPending (u p) (u q)
  end.

Lemma through_bytes_fits op : op_fits op -> through_bytes op = op.
Proof.
  destruct op; cbn [op_fits through_bytes]; intros Ho; destruct_and!; rewrite !le16 by assumption; reflexivity.
Qed.

Lemma plain_from_to e : entry_fits e -> plain_from (plain_to e) = Ok e.
Proof.
  destruct e as [i ts op]. intros (Hi & Ht & Ho). cbn [we_index we_timestamp we_op] in *.
  transitivity (@Ok string _ (mkEntry (le_val (le_bytes 8 i)) (le_val (le_bytes 8 ts)) (through_bytes op))).
  - destruct op; reflexivity.
  - rewrite !le8, through_bytes_fits by assumption. reflexivity.
Qed.

Definition plain : EntryCodec.
Proof.
  refine {| entry_to_allocvec e := Ok (plain_to e); entry_from_bytes := plain_from |}.
  intros e He. exists (plain_to e). split_and!; [done|by apply plain_from_to|].
  unfold lenN, plain_to. rewrite !length_app, !length_le_bytes.
  destruct (we_op e); cbn [op_bytes length]; rewrite ?length_app, ?length_le_bytes; lia.
Defined.

(** ** Crash and recovery of one node *)

Section recovery.
Context `{Crc32c, EntryCodec, Rng}.

(** Applying a log in order, the first entry at index [i]. *)
Fixpoint apply_log (i : N) (es : list decision) (s : Store) : Store :=
  match es with
  | [] => s
  | (op, ts) :: rest => apply_log (i + 1) rest (apply_op i op ts s)
  end.

Lemma apply_log_ok base es done_ s :
  store_ok base done_ [] s -> Forall decision_fits es -> lenN done_ + lenN es < U64_MAX ->
  store_ok base (done_ ++ es) [] (apply_log (lenN done_ + 1) es s).
Proof.
  intros Hs He. revert done_ s Hs. induction He as [|[op ts] es Hv _ IH]; intros done_ s Hs Hr.
  - by rewrite app_nil_r.
  - rewrite lenN_cons in Hr. cbn [apply_log]. rewrite <- (lenN_snoc done_ (op, ts)).
    replace (done_ ++ (op, ts) :: es) with ((done_ ++ [(op, ts)]) ++ es) by (by rewrite <- app_assoc).
    apply IH; [|rewrite lenN_snoc; lia]. rewrite lenN_snoc. apply apply_op_ok; [done|done|lia].
Qed.

Lemma Node_new_store id scale accounts balance :
  store_ok (base_ledger scale accounts balance) [] [] (store (Node_new id scale accounts balance)).
Proof. constructor; try done; [|by left]. intros i. unfold log_at. simpl. rewrite lookup_empty. by destruct (i =? 0). Qed.

(** C18: a node that has applied any log of operations, crashes, with or without a torn
    write, and recovers from its disk has the ledger, the log and the commit index it
    had before, and its disk holds exactly the frames it had synced: the torn bytes are
    cut off. *)
Theorem crash_recovery_exact id scale accounts balance es torn_write g :
  Forall decision_fits es -> lenN es < U64_MAX ->
  let n := Node_new id scale accounts balance in
  let s := apply_log 1 es (store n) in
  exists d g', disk_crash torn_write (disk s, g) = ((d, g'), Ok tt) /\
    let s' := store (recover (set_store (set_disk d s) n)) in
    nd_ledger s' = nd_ledger s /\ committed_ops s' = committed_ops s /\
    commit_index s' = lenN es /\ flushed (disk s') = flushed (disk s) /\ buffered (disk s') = [].
Proof.
  intros He Hl n s.
  assert (store_ok (base_ledger scale accounts balance) es [] s) as Hs
    by (apply (apply_log_ok _ es []); [apply Node_new_store|done|unfold lenN at 1; simpl; lia]).
  destruct (disk_crash_ok _ _ _ _ torn_write g Hs) as (d & g' & tail & Ed & Hd).
  exists d, g'. split; [done|]. intros s'.
  assert (store_ok (base_ledger scale accounts balance) es tail (set_disk d s)) as Hd'
    by (by eapply store_ok_frame; last exact Hd).
  destruct (recover_ok (base_ledger scale accounts balance) es tail (set_store (set_disk d s) n) eq_refl Hd')
    as (r & Er & Hr & _ & _). unfold s'. rewrite Er. simpl.
  destruct Hs as [Sl Sc Si Sf Sb _ _ _], Hr as [Rl Rc Ri Rf Rb _ _ _].
  split_and!; [congruence| |done|congruence|done]. apply map_eq. intros i. by rewrite Sc, Rc.
Qed.

End recovery.

(** ** Schedules of faults *)

(** What a harness can do to a cluster, in any order. *)
Inductive fault : Type :=
| FPropose (op : WorkloadOp) (now : N)
| FStep (now : N)
| FElection (id now : N)
| FCrash (id : N) (torn_write : bool)
| FReboot (id now : N)
| FPartition (a b : gset N)
| FIsolate (id : N)
| FUnisolate (id : N)
| FHeal.

Section agreement.
Context `{Crc32c, EntryCodec, Rng}.

Definition inject (f : fault) : sim SimCluster unit :=
  match f with
  | FPropose op now => do? propose_op op now; st_ret tt
  | FStep now => cluster_step now
  | FElection id now => trigger_election id now
  | FCrash id torn_write => crash_node id torn_write
  | FReboot id now => reboot_node id now
  | FPartition a b => change (fun c => set_network (net_partition a b (network c)) c)
  | FIsolate id => change (fun c => set_network (net_isolate id (network c)) c)
  | FUnisolate id => change (fun c => set_network (net_unisolate id (network c)) c)
  | FHeal => change (fun c => set_network (net_heal (network c)) c)
  end.

Definition fault_fits (f : fault) : Prop :=
  match f with FPropose op _ => op_fits op | _ => True end.

Section schedule.
Context (base : Ledger) (audit : list AccountId * N) (lost : gset N).
Abbreviation inv := (cluster_ok base op_fits audit lost).

Lemma inject_ok f m D P c :
  fault_fits f -> m + 1 < U64_MAX -> inv m D P c ->
  wp (inject f) (fun _ c' => exists D' P', D ⊆ D' /\ inv (m + 1) D' P' c') c.
Proof.
  intros Hf Hm Hc.
  assert (forall D' P' c', inv m D' P' c' -> inv (m + 1) D' P' c') as Hw
    by (intros; apply (cluster_widen _ _ _ _ m); [lia|lia|done]).
  assert (forall a, wp a (fun _ => inv m D P) c -> wp a (fun (_ : unit) c' => exists D' P', D ⊆ D' /\ inv (m + 1) D' P' c') c)
    as Hsame by (intros a Ha; eapply wp_mono; [done|]; intros; exists D, P; auto).
  destruct f; simpl in *.
  - apply wp_bind. eapply wp_mono; [by apply (propose_op_ok base op_fits audit lost m D P)|].
    intros b c' (P' & Hc'). apply wp_ret. exists D, P'. destruct b; auto.
  - eapply wp_mono; [by apply (cluster_step_ok base op_fits audit lost)|]. intros _u c' (D' & ? & ?). exists D', P. auto.
  - by apply Hsame, trigger_election_ok.
  - by apply Hsame, crash_node_ok.
  - by apply Hsame, reboot_node_ok.
  - by apply Hsame, wp_change, set_links_cluster.
  - by apply Hsame, wp_change, set_links_cluster.
  - by apply Hsame, wp_change, set_links_cluster.
  - by apply Hsame, wp_change, set_links_cluster.
Qed.

Lemma inject_all_ok fs m D P c :
  Forall fault_fits fs -> m + lenN fs + 1 < U64_MAX -> inv m D P c ->
  wp (st_for inject fs) (fun _ c' => exists D' P', D ⊆ D' /\ inv (m + lenN fs) D' P' c') c.
Proof.
  intros Hf. revert m D P c. induction Hf as [|f fs Hf _ IH]; intros m D P c Hm Hc.
  - apply wp_ret. exists D, P. unfold lenN. simpl. by rewrite N.add_0_r.
  - rewrite lenN_cons in *. apply wp_bind. eapply wp_mono; [apply (inject_ok f m D P); [done|lia|done]|].
    intros _u c1 (D1 & P1 & Hs & Hc1). eapply wp_mono; [apply (IH (m + 1) D1 P1); [lia|done]|].
    intros _v c2 (D2 & P2 & Hs2 & Hc2). exists D2, P2.
    replace (m + (lenN fs + 1)) with (m + 1 + lenN fs) by lia. split; [by etrans|done].
Qed.

Lemma committed_decided m D P c k n i v :
  inv m D P c -> nodes c !! k = Some n -> committed_ops (store n) !! i = Some v -> D !! i = Some v.
Proof.
  intros Hc En Ev. destruct (co_nodes _ _ _ _ _ _ _ _ Hc _ _ En) as (_ & _ & es & tail & Hr & _).
  rewrite (so_committed _ _ _ _ (rp_store _ _ _ _ _ _ _ _ _ Hr)) in Ev. by apply (rp_log _ _ _ _ _ _ _ _ _ Hr).
Qed.

End schedule.

(** C10: under any schedule of proposals, steps, elections, crashes, reboots and
    partitions, with any generator, a cluster never panics, what one node has committed
    at an index no node contradicts then or later, and the journals of the nodes that
    are up never diverge. *)
Theorem committed_never_contradicted config accounts balance before after g :
  min_latency_ticks config <= max_latency_ticks config ->
  Forall fault_fits (before ++ after) -> lenN (before ++ after) + 1 < U64_MAX ->
  exists c1 g1 c2 g2,
    st_for inject before (new_3_node config accounts balance, g) = ((c1, g1), Ok tt) /\
    st_for inject after (c1, g1) = ((c2, g2), Ok tt) /\
    (forall k1 n1 k2 n2 i v1 v2, nodes c1 !! k1 = Some n1 -> nodes c2 !! k2 = Some n2 ->
       committed_ops (store n1) !! i = Some v1 -> committed_ops (store n2) !! i = Some v2 -> v1 = v2) /\
    pairs_agree (filter (fun n => status (ballot n) = NodeActive) (btree_values (nodes c2))) = Ok tt.
Proof.
  intros Hd Hf Hl. set (base := base_ledger Scale_usdc accounts balance).
  set (audit := (accounts, N.min U128_MAX (balance * N.of_nat (length accounts)))).
  apply Forall_app in Hf as [Hf1 Hf2]. unfold lenN in Hl. rewrite length_app in Hl.
  pose proof (new_3_node_ok base op_fits audit ∅ config accounts balance eq_refl eq_refl eq_refl Hd) as H0'.
  destruct (wp_run _ _ _ g (inject_all_ok base audit ∅ before 0 ∅ ∅ _ Hf1 ltac:(unfold lenN; lia) H0'))
    as (c1 & g1 & [] & E1 & D1 & P1 & _ & Hc1).
  destruct (wp_run _ _ _ g1 (inject_all_ok base audit ∅ after (0 + lenN before) D1 P1 _ Hf2 ltac:(unfold lenN; lia) Hc1))
    as (c2 & g2 & [] & E2 & D2 & P2 & Hs & Hc2).
  exists c1, g1, c2, g2. split_and!; [done|done| |].
  - intros k1 n1 k2 n2 i v1 v2 En1 En2 Ev1 Ev2.
    pose proof (committed_decided _ _ _ _ _ _ _ _ _ _ _ Hc1 En1 Ev1) as Ed1.
    pose proof (committed_decided _ _ _ _ _ _ _ _ _ _ _ Hc2 En2 Ev2) as Ed2.
    eapply lookup_weaken in Ed1; [|exact Hs]. congruence.
  - eapply pairs_agree_ok; [exact Hc2|]. apply active_nodes_known.
Qed.

(** A proposal that is lost with its leader stops the cluster for good: when the
    leader crashes right after proposing, no node ever commits that index or any later
    one, whatever happens afterwards.  The index is never proposed again, and logs grow
    one index at a time. *)
Theorem lost_proposal_stalls config accounts balance before op now torn_write after g k c0 g0 :
  min_latency_ticks config <= max_latency_ticks config ->
  Forall fault_fits (before ++ FPropose op now :: FCrash k torn_write :: after) ->
  lenN (before ++ FPropose op now :: FCrash k torn_write :: after) + 1 < U64_MAX ->
  st_for inject before (new_3_node config accounts balance, g) = ((c0, g0), Ok tt) ->
  find_leader_id c0 = Some k ->
  exists c g', st_for inject (FPropose op now :: FCrash k torn_write :: after) (c0, g0) = ((c, g'), Ok tt) /\
    forall j n, nodes c !! j = Some n -> commit_index (store n) <= next_log_index c0.
Proof.
  intros Hd Hf Hl E0 Hk. set (base := base_ledger Scale_usdc accounts balance).
  set (audit := (accounts, N.min U128_MAX (balance * N.of_nat (length accounts)))).
  apply Forall_app in Hf as [Hf1 Hf2]. inversion Hf2 as [|? ? Hop Hf3]; inversion Hf3 as [|? ? _ Hf4]; subst.
  unfold lenN in Hl. rewrite length_app in Hl. simpl in Hl.
  pose proof (new_3_node_ok base op_fits audit ∅ config accounts balance eq_refl eq_refl eq_refl Hd) as Hnew.
  destruct (wp_run _ _ _ g (inject_all_ok base audit ∅ before 0 ∅ ∅ _ Hf1 ltac:(unfold lenN; lia) Hnew))
    as (c0' & g0' & [] & E0' & D & P & _ & Hc0). rewrite E0 in E0'. injection E0' as <- <-.
  set (m := 0 + lenN before) in *. assert (m + 2 + lenN after + 1 < U64_MAX) by (unfold m, lenN; lia).
  set (i := next_log_index c0 + 1).
  assert (D !! i = None) as HD.
  { destruct (co_ghost _ _ _ _ _ _ _ _ Hc0) as [_ _ Hkn Hdec _]. destruct (D !! i) as [v|] eqn:E; [|done].
    destruct (Hdec _ _ E) as [_ [p Hp]]. specialize (Hkn _ _ Hp). unfold i in *. lia. }
  assert (wp (st_for inject (FPropose op now :: FCrash k torn_write :: after))
    (fun _ c => forall j n, nodes c !! j = Some n -> commit_index (store n) <= next_log_index c0) c0) as Hw.
  { apply wp_bind, wp_bind. eapply wp_mono; [eapply propose_op_indexed; [|exact Hop|exact Hc0|exact Hk]; lia|].
    intros b c1 [_ Hc1]. fold i in Hc1. apply wp_ret, wp_bind.
    eapply wp_mono; [eapply crash_node_empties; exact Hc1|]. intros _u c2 [Hc2 He].
    eapply (lose_index _ _ _ _ _ _ _ _ i k) in Hc2; [|apply lookup_insert_eq|done|done].
    eapply wp_mono; [eapply (inject_all_ok base audit ({[i]} ∪ ∅)); [done| |exact Hc2]; lia|].
    intros _v c (D' & P' & _ & Hc) j n En.
    pose proof (behind_lost _ _ _ _ _ _ _ _ j n i Hc ltac:(set_solver) En). unfold i in *. lia. }
  destruct (wp_run _ _ _ g0 Hw) as (c & g' & [] & E & Hb). eauto.
Qed.

End agreement.

(** ** Scenarios *)

Section scenarios.
Context `{Crc32c, EntryCodec, Rng} (fuel : nat).

(** The ticks after the workload of each scenario. *)
Definition settled (kind : ScenarioType) : N :=
  match kind with NetworkPartition => 20 | CrashTornWrite => 25 | ChaosSoak => 50 end.

(** The side conditions of a scenario's accounts. *)
Ltac setup_accounts :=
  constructor; [apply (bool_decide_unpack _); by vm_compute|simpl; lia|apply (bool_decide_unpack _); by vm_compute
               |apply (bool_decide_unpack _); by vm_compute|apply freshly_funded_ok; by vm_compute|by vm_compute].

Lemma partition_setup : setup_ok [101; 102; 103; 104] 400000 (base_ledger Scale_usdc [101; 102; 103; 104] 100000).
Proof. setup_accounts. Qed.
Lemma crash_setup : setup_ok [201; 202; 203; 204] 800000 (base_ledger Scale_usdc [201; 202; 203; 204] 200000).
Proof. setup_accounts. Qed.
Lemma soak_setup :
  setup_ok [301; 302; 303; 304; 305] 2500000 (base_ledger Scale_usdc [301; 302; 303; 304; 305] 500000).
Proof. setup_accounts. Qed.

Lemma partition_ok seed max_ticks :
  max_ticks + 50 < U64_MAX ->
  finishes fuel (run_partition fuel seed max_ticks) (report_ok NetworkPartition seed max_ticks 20).
Proof using All.
  intros Hm. pose proof partition_setup as Hsetup. unfold run_partition.
  set (accts := [101; 102; 103; 104]) in *. set (base := base_ledger Scale_usdc accts 100000) in *.
  apply (conclude_ok accts 400000 base fuel Hsetup); [intros m D P c; apply committed_at_bound|].
  apply wpf_bind. eapply wpf_mono.
  - apply (schedule_ticks_ok accts 400000 base); [|lia|by apply start_ok].
    intros. by apply (partition_tick_ok accts 400000 base fuel).
  - intros _u s Hs. apply settle_ticks_ok; [lia|lia|done].
Qed.

Lemma crash_ok seed max_ticks :
  max_ticks + 50 < U64_MAX ->
  finishes fuel (run_crash_torn_write fuel seed max_ticks) (report_ok CrashTornWrite seed max_ticks 25).
Proof using All.
  intros Hm. pose proof crash_setup as Hsetup. unfold run_crash_torn_write.
  set (accts := [201; 202; 203; 204]) in *. set (base := base_ledger Scale_usdc accts 200000) in *.
  apply (conclude_ok accts 800000 base fuel Hsetup); [intros m D P c; apply committed_at_bound|].
  apply wpf_bind. eapply wpf_mono.
  - apply (schedule_ticks_ok accts 800000 base); [|lia|by apply start_ok].
    intros. by apply (crash_tick_ok accts 800000 base fuel).
  - intros _u s Hs. apply settle_ticks_ok; [lia|lia|done].
Qed.

Lemma soak_ok seed max_ticks :
  max_ticks + 50 < U64_MAX ->
  finishes fuel (run_chaos_soak fuel seed max_ticks) (report_ok ChaosSoak seed max_ticks 50).
Proof using All.
  intros Hm. pose proof soak_setup as Hsetup. unfold run_chaos_soak.
  set (accts := [301; 302; 303; 304; 305]) in *. set (base := base_ledger Scale_usdc accts 500000) in *.
  apply (conclude_ok accts 2500000 base fuel Hsetup); [intros m D P c; apply most_committed_bound|].
  apply wpf_bind. eapply wpf_mono.
  - apply (schedule_ticks_ok accts 2500000 base); [|lia|by apply start_ok].
    intros. by apply (soak_tick_ok accts 2500000 base fuel).
  - intros _u s Hs. apply wpf_bind. eapply wpf_mono; [apply wpf_of, wp_keeps; [apply keeps_heal|exact Hs]|].
    intros _v s1 Hs1. apply wpf_bind, wpf_of, wp_reads, wpf_bind. eapply wpf_mono.
    + apply wpf_of, (wp_for _ (sim_ok accts 2500000 base max_ticks max_ticks)); [|done].
      intros id s2 _ Hs2. apply wp_keeps; [apply keeps_reboot|done].
    + intros _w s2 Hs2. apply settle_ticks_ok; [lia|lia|done].
Qed.

Lemma scenario_ok kind seed max_ticks :
  max_ticks + 50 < U64_MAX ->
  finishes fuel (run_scenario fuel kind seed max_ticks) (report_ok kind seed max_ticks (settled kind)).
Proof using All.
  intros Hm. destruct kind; [by apply partition_ok|by apply crash_ok|by apply soak_ok].
Qed.

(** C9: for every generator, every seed and every number of ticks short of the clock's
    range, each scenario of the simulator finishes without a panic and its oracle finds no
    violation: no node loses or creates money and no two logs diverge.  The report counts
    every tick, and no more operations committed than proposed.  The one way not to
    finish is the workload's loop for another receiver, which is unbounded in the source:
    if it is still running after any number of draws, then the generator has drawn one
    and the same number that many times in a row. *)
Theorem simulation_never_fails kind seed max_ticks :
  max_ticks + 50 < U64_MAX ->
  (exists r, run_scenario fuel kind seed max_ticks = Ok r /\ scenario r = kind /\ rep_seed r = seed /\
    total_ticks r = max_ticks + settled kind /\ ops_committed r <= ops_proposed r <= max_ticks) \/
  (run_scenario fuel kind seed max_ticks = Err (inl NoFuel) /\ streak fuel).
Proof using All.
  apply scenario_ok.
Qed.

(** A command that succeeds, or is still drawing. *)
Definition succeeds (res : result halt ExitCode) : Prop := res = Ok EXIT_SUCCESS \/ (res = Err NoFuel /\ streak fuel).

Lemma run_all_ok seed steps kinds : steps + 50 < U64_MAX -> succeeds (run_all fuel seed steps kinds).
Proof using All.
  intros Hs. induction kinds as [|kind kinds IH]; [by left|]. cbn [run_all].
  destruct (scenario_ok kind seed steps Hs) as [(r & -> & _)|[-> ?]]; [apply IH|by right].
Qed.

Lemma fuzz_ok seed steps is_ : steps + 50 < U64_MAX -> succeeds (fuzz fuel seed steps is_).
Proof using All.
  intros Hs. induction is_ as [|i is_ IH]; [by left|]. cbn [fuzz].
  match goal with |- context [run_all _ ?n _ ?ks] => destruct (run_all_ok n steps ks Hs) as [->|[-> ?]] end; [apply IH|by right].
Qed.

(** The program's exit code is decided by its arguments alone: it fails exactly on
    an unknown option, an option without its value, or (outside a fuzz campaign) an
    unknown scenario name, and it never panics. *)
Theorem main_exit args :
  (forall a, parse_args (tail args) default_args = inr a -> arg_steps a + 50 < U64_MAX) ->
  main fuel args = Ok
    match parse_args (tail args) default_args with
    | inl code => code
    | inr a => if bool_decide (arg_fuzz a = None /\ scenarios_of (arg_scenario a) = None)
               then EXIT_FAILURE else EXIT_SUCCESS
    end \/ (main fuel args = Err NoFuel /\ streak fuel).
Proof using All.
  intros Hs. unfold main. destruct (parse_args _ _) as [code|a]; [by left|]. specialize (Hs a eq_refl).
  destruct (arg_fuzz a) as [count|]; [rewrite bool_decide_false by (by intros []); by apply fuzz_ok|].
  destruct (scenarios_of (arg_scenario a)) as [kinds|].
  - rewrite bool_decide_false by (by intros []). by apply run_all_ok.
  - left. by rewrite bool_decide_true.
Qed.

End scenarios.

(** ** Delivery *)

Section delivery.
Context `{Rng} {T : Type}.
Implicit Types (q : list (ScheduledEvent (SimPacket T))) (n : SimNetwork T).

(** Earlier, or at the same time and sent first. *)
Definition due_le (a b : ScheduledEvent (SimPacket T)) : Prop := due_before a b = true.

Lemma due_le_spec a b :
  due_le a b <-> execute_at a < execute_at b \/ (execute_at a = execute_at b /\ sequence a <= sequence b).
Proof. unfold due_le, due_before. rewrite orb_true_iff, andb_true_iff, N.ltb_lt, N.eqb_eq, N.leb_le. done. Qed.

Lemma heap_push_sorted e q : StronglySorted due_le q -> StronglySorted due_le (heap_push e q).
Proof.
  induction 1 as [|e' q Hq IH Hall]; simpl; [by repeat constructor|].
  destruct (due_before e' e) eqn:E.
  - constructor; [done|]. rewrite heap_push_perm. by constructor.
  - assert (due_le e e') as He.
    { apply due_le_spec. assert (~ due_le e' e) as Hn by (unfold due_le; by rewrite E).
      rewrite due_le_spec in Hn. lia. }
    constructor; [by constructor|]. constructor; [done|]. eapply Forall_impl; [done|].
    intros x Hx. rewrite due_le_spec in *. lia.
Qed.

Lemma net_send_sorted from to msg now n :
  min_latency_ticks (nw_config n) <= max_latency_ticks (nw_config n) -> StronglySorted due_le (queue n) ->
  wp (net_send from to msg now)
    (fun _ n' => nw_config n' = nw_config n /\ StronglySorted due_le (queue n')) n.
Proof.
  intros Hd Hs. unfold net_send. apply wp_bind, wp_modify, wp_bind, wp_reads.
  destruct (negb _); [by apply wp_modify|].
  apply wp_bind, wp_reads, wp_bind, wp_gen_bool. intros [|]; [by apply wp_modify|].
  apply wp_bind, wp_gen_range; [done|]. intros delay _. apply wp_bind, wp_modify, wp_bind, wp_gen_bool.
  intros [|].
  - apply wp_bind, wp_gen_range; [done|]. intros extra _. apply wp_modify. split; [done|].
    by apply heap_push_sorted, heap_push_sorted.
  - apply wp_ret. split; [done|]. by apply heap_push_sorted.
Qed.

Lemma drain_sorted now up q :
  StronglySorted due_le q ->
  (drain now up q).1.1 = filter (fun e => now < execute_at e) q /\
  (drain now up q).1.2 = se_payload <$>
    filter (fun e => execute_at e <= now /\ up (pk_from (se_payload e)) (pk_to (se_payload e))) q.
Proof.
  induction 1 as [|e q Hq IH Hall]; [done|]. cbn [drain]. destruct (N.leb_spec (execute_at e) now) as [Hle|Hlt].
  - destruct (drain now up q) as [[q' ready] lost]. simpl in IH. destruct IH as [-> ->].
    rewrite !filter_cons. rewrite decide_False by lia.
    destruct (up _ _); simpl.
    + by rewrite decide_True by (by split).
    + by rewrite decide_False by (by intros [_ []]).
  - assert (Forall (fun x => now < execute_at x) (e :: q)) as Hf.
    { constructor; [done|]. eapply Forall_impl; [done|]. intros x Hx. rewrite due_le_spec in Hx. lia. }
    simpl fst. simpl snd. split.
    + symmetry. by apply filter_all.
    + rewrite filter_none; [done|]. eapply Forall_impl; [exact Hf|]. intros x Hx [? _]. simpl in *. lia.
Qed.

(** Whatever was sent, a tick delivers exactly the packets that are due and whose
    link is up at that moment, the earliest first and in the order sent among equals;
    every packet not yet due stays, and no other. *)
Theorem delivery_exact config (sends : list (N * N * T * N)) g now :
  min_latency_ticks config <= max_latency_ticks config ->
  exists n g', st_for (fun '(from, to, msg, t) => net_send from to msg t) sends (Network_new config, g) = ((n, g'), Ok tt) /\
    StronglySorted due_le (queue n) /\
    queue (drain_ready now n).1 = filter (fun e => now < execute_at e) (queue n) /\
    (drain_ready now n).2 = se_payload <$>
      filter (fun e => execute_at e <= now /\ link_up n (pk_from (se_payload e)) (pk_to (se_payload e))) (queue n).
Proof.
  intros Hd.
  assert (wp (st_for (fun '(from, to, msg, t) => net_send from to msg t) sends)
    (fun _ n => nw_config n = config /\ StronglySorted due_le (queue n)) (Network_new config)) as Hw.
  { apply wp_for; [|by split; [|constructor]]. intros [[[from to] msg] t] n _ [Hc Hs].
    eapply wp_mono; [apply net_send_sorted; [by rewrite Hc|done]|]. intros _u n' [Hc' Hs']. by rewrite Hc', Hc. }
  destruct (wp_run _ _ _ g Hw) as (n & g' & [] & E & _ & Hs). exists n, g'. split; [done|]. split; [done|].
  destruct (drain_sorted now (link_up n) (queue n) Hs) as [E1 E2]. unfold drain_ready.
  destruct (drain now (link_up n) (queue n)) as [[q ready] lost]. done.
Qed.

End delivery.

(** ** Concrete runs *)

#[local] Existing Instance castagnoli.
#[local] Existing Instance counting.
#[local] Existing Instance plain.

Definition demo_log : list decision :=
  [(DirectTransfer 1 101 102 30, 1700000005); (WCreatePending 2 102 103 40, 1700000006);
   (WPostPending 2 3 25, 1700000009)].
Definition demo_net : NetworkConfig := mkNetConfig 1 5 (5 # 100) (2 # 100).
Definition demo_op : WorkloadOp := DirectTransfer 9 101 102 10.
Definition demo_faults : list fault :=
  [FPropose demo_op 1; FStep 6; FStep 12; FCrash 1 true; FElection 2 14; FStep 20; FReboot 1 30; FHeal; FStep 40].

Lemma demo_log_fits : Forall decision_fits demo_log.
Proof. repeat constructor; by vm_compute. Qed.

Lemma demo_faults_fit : Forall fault_fits demo_faults.
Proof. repeat constructor; by vm_compute. Qed.

Lemma crash_recovery_exact_witness :
  let n := Node_new 1 Scale_usdc [101; 102; 103] 1000 in
  let s := apply_log 1 demo_log (store n) in
  exists d g', disk_crash true (disk s, seed_from_u64 7) = ((d, g'), Ok tt) /\
    let s' := store (recover (set_store (set_disk d s) n)) in
    nd_ledger s' = nd_ledger s /\ committed_ops s' = committed_ops s /\
    commit_index s' = 3 /\ flushed (disk s') = flushed (disk s) /\ buffered (disk s') = [].
Proof. apply (crash_recovery_exact 1 Scale_usdc [101; 102; 103] 1000 demo_log true (seed_from_u64 7)); [apply demo_log_fits|done]. Defined.

Lemma committed_never_contradicted_witness :
  exists c1 g1 c2 g2,
    st_for inject demo_faults (new_3_node demo_net [101; 102] 1000, seed_from_u64 5) = ((c1, g1), Ok tt) /\
    st_for inject demo_faults (c1, g1) = ((c2, g2), Ok tt) /\
    (forall k1 n1 k2 n2 i v1 v2, nodes c1 !! k1 = Some n1 -> nodes c2 !! k2 = Some n2 ->
       committed_ops (store n1) !! i = Some v1 -> committed_ops (store n2) !! i = Some v2 -> v1 = v2) /\
    pairs_agree (filter (fun n => status (ballot n) = NodeActive) (btree_values (nodes c2))) = Ok tt.
Proof.
  apply (committed_never_contradicted demo_net [101; 102] 1000 demo_faults demo_faults (seed_from_u64 5)); [done| |done].
  apply Forall_app. split; apply demo_faults_fit.
Defined.

(** The leader of a new cluster is node 1. *)
Lemma lost_proposal_stalls_witness :
  exists c g', st_for inject (FPropose demo_op 1 :: FCrash 1 false :: demo_faults)
      (new_3_node demo_net [101; 102] 1000, seed_from_u64 5) = ((c, g'), Ok tt) /\
    forall j n, nodes c !! j = Some n -> commit_index (store n) <= 0.
Proof.
  apply (lost_proposal_stalls demo_net [101; 102] 1000 [] demo_op 1 false demo_faults (seed_from_u64 5) 1
    (new_3_node demo_net [101; 102] 1000) (seed_from_u64 5)); [done| |done|reflexivity|vm_compute; reflexivity].
  do 2 (constructor; [by vm_compute|]). apply demo_faults_fit.
Defined.

Lemma simulation_never_fails_witness :
  exists r, run_scenario 2 CrashTornWrite 42 200 = Ok r /\ scenario r = CrashTornWrite /\ rep_seed r = 42 /\
    total_ticks r = 225 /\ ops_committed r <= ops_proposed r <= 200.
Proof.
  destruct (simulation_never_fails 2 CrashTornWrite 42 200) as [Hr|[_ Hs]];
    [reflexivity|exact Hr|by destruct (counting_no_streak Hs)].
Defined.

(** The runs of the theorem do commit operations; after a crash of the leader with a
    proposal in flight, a longer run commits no more of them. *)
Example soak_commits : ops_committed <$> run_scenario 2 ChaosSoak 7 120 = Ok 18.
Proof. vm_compute. reflexivity. Qed.

Example crash_stalls :
  (ops_committed <$> run_scenario 2 CrashTornWrite 42 60, ops_committed <$> run_scenario 2 CrashTornWrite 42 400) = (Ok 10, Ok 10).
Proof. vm_compute. reflexivity. Qed.

Lemma main_exit_witness :
  main 2 ["simulator"; "--steps"; "60"; "--scenario"; "crash"] = Ok EXIT_SUCCESS /\
  main 2 ["simulator"; "--scenario"; "chaos"] = Ok EXIT_FAILURE.
Proof.
  split.
  - destruct (main_exit 2 ["simulator"; "--steps"; "60"; "--scenario"; "crash"]) as [Hr|[_ Hs]];
      [intros a [= <-]; reflexivity|exact Hr|by destruct (counting_no_streak Hs)].
  - destruct (main_exit 2 ["simulator"; "--scenario"; "chaos"]) as [Hr|[_ Hs]];
      [intros a [= <-]; reflexivity|exact Hr|by destruct (counting_no_streak Hs)].
Defined.

Lemma delivery_exact_witness :
  exists n g', st_for (fun '(from, to, msg, t) => net_send from to msg t) [(1, 2, true, 0); (2, 3, false, 1)]
      (Network_new demo_net, seed_from_u64 5) = ((n, g'), Ok tt) /\
    StronglySorted due_le (queue n) /\
    queue (drain_ready 4 n).1 = filter (fun e => 4 < execute_at e) (queue n) /\
    (drain_ready 4 n).2 = se_payload <$>
      filter (fun e => execute_at e <= 4 /\ link_up n (pk_from (se_payload e)) (pk_to (se_payload e))) (queue n).
Proof. apply (delivery_exact demo_net [(1, 2, true, 0); (2, 3, false, 1)] (seed_from_u64 5) 4). done. Defined.

(** ** Votes *)

(** The votes a node has on their way. *)
Definition votes_sent (from term : N) (c : SimCluster) : list N :=
  omap (fun e => match pk_payload (se_payload e) with
                 | MsgVoteGranted f t => if (f =? from) && (t =? term) then Some (pk_to (se_payload e)) else None
                 | _ => None
                 end) (queue (network c)).

(** A vote does not survive a crash: after a reboot a node votes for another candidate
    in the same term. *)
Example vote_forgotten :
  votes_sent 2 5
    ((do? process_packet 1 2 (MsgRequestVote 5 1 0) 1; do? crash_node 2 false; do? reboot_node 2 1;
      process_packet 3 2 (MsgRequestVote 5 3 0) 1)
       (new_3_node (mkNetConfig 1 1 0 0) [101; 102] 1000, seed_from_u64 5)).1.1 = [1; 3].
Proof. vm_compute. reflexivity. Qed.
