(* ===== verification/F64.v ===== *)
(** * Binary64 floating point

    The [f64] of the language, as far as the metrics use it: literals, addition,
    comparison, the conversion of durations and the shortest decimal text.  Values are
    those of the IEEE 754 specification in the Standard Library; a value stands for its
    bits ([to_bits]), since the code never makes a NaN of them. *)

From Stdlib Require Import SpecFloat.
From S2P Require Import Prelude Amount.
#[local] Open Scope Z_scope.

Abbreviation f64 := spec_float.

#[export] Instance f64_eq_dec : EqDecision f64.
Proof. solve_decision. Defined.

Definition f64_add : f64 -> f64 -> f64 := SFadd 53 1024.
Definition f64_le : f64 -> f64 -> bool := SFleb.
Definition is_nan (x : f64) : bool := match x with S754_nan => true | _ => false end.
Definition is_sign_negative (x : f64) : bool :=
  match x with S754_zero s | S754_infinity s | S754_finite s _ _ => s | S754_nan => false end.

(** The number nearest to n / d. *)
Definition f64_ratio (n d : Z) : f64 :=
  if n =? 0 then S754_zero false
  else
    let '(m, e, loc) := SFdiv_core_binary 53 1024 n 0 d 0 in
    binary_round_aux 53 1024 false m e loc.
(** The number nearest to c * 10^q. *)
Definition f64_dec (c q : Z) : f64 := if 0 <=? q then f64_ratio (c * 10 ^ q) 1 else f64_ratio c (10 ^ (- q)).
(** The literal n / 10^k, and an integer [as f64]. *)
Definition f64_of (n k : N) : f64 := f64_dec (Z.of_N n) (- Z.of_N k).
Definition f64_of_u64 (n : N) : f64 := f64_ratio (Z.of_N n) 1.
(** [Duration::as_secs_f64], of a number of nanoseconds. *)
Definition as_secs_f64 (nanos : N) : f64 :=
  f64_add (f64_of_u64 (nanos / 10 ^ 9)) (SFdiv 53 1024 (f64_of_u64 (nanos mod 10 ^ 9)) (f64_of_u64 (10 ^ 9))).

(** ** Text *)

(** The zeros between the point and the first digit of n / d, with one for the digit. *)
Fixpoint leading (fuel : nat) (n d : Z) : Z :=
  match fuel with
  | O => 0
  | S fuel => if d <=? n then 0 else 1 + leading fuel (n * 10) d
  end.
(** The exponent E with 10^(E-1) <= n / d < 10^E. *)
Definition dec_exponent (n d : Z) : Z :=
  if d <=? n then Z.of_nat (String.length (dec_string (Z.to_N (n / d)))) else 1 - leading 400 n d.

(** The decimal of [k] digits nearest to n / d that reads back as [x]. *)
Definition dec_of_length (x : f64) (n d : Z) (k : Z) : option (Z * Z) :=
  let q := dec_exponent n d - k in
  let '(n', d') := if 0 <=? q then (n, d * 10 ^ q) else (n * 10 ^ (- q), d) in
  let c := n' / d' in
  let below := bool_decide (f64_dec c q = x) in
  let above := bool_decide (f64_dec (c + 1) q = x) in
  if below && (negb above || (2 * (n' mod d') <=? d')) then Some (c, q)
  else if above then Some (c + 1, q) else None.
Fixpoint shortest (fuel : nat) (x : f64) (n d k : Z) : Z * Z :=
  match fuel with
  | O => (0, 0)
  | S fuel => match dec_of_length x n d k with Some r => r | None => shortest fuel x n d (k + 1) end
  end.
Fixpoint strip_zeros (fuel : nat) (c q : Z) : Z * Z :=
  match fuel with
  | O => (c, q)
  | S fuel => if (c mod 10 =? 0) && (q <? 0) then strip_zeros fuel (c / 10) (q + 1) else (c, q)
  end.
Fixpoint zeros (n : nat) : string := match n with O => EmptyString | S n => "0" +:+ zeros n end.
Definition positional (c q : Z) : string :=
  let digits := dec_string (Z.to_N c) in
  let len := String.length digits in
  let places := Z.to_nat (- q) in
  if 0 <=? q then digits +:+ zeros (Z.to_nat q)
  else if (places <? len)%nat
  then String.substring 0 (len - places) digits +:+ "." +:+ String.substring (len - places) places digits
  else "0." +:+ zeros (places - len) +:+ digits.

(** [Display]. *)
Definition f64_show (x : f64) : string :=
  let sign (s : bool) := if s then "-" else EmptyString in
  match x with
  | S754_nan => "NaN"
  | S754_infinity s => sign s +:+ "inf"
  | S754_zero s => sign s +:+ "0"
  | S754_finite s m e =>
      let '(n, d) := if 0 <=? e then (Z.pos m * 2 ^ e, 1) else (Z.pos m, 2 ^ (- e)) in
      let '(c, q) := shortest 17 (S754_finite false m e) n d 1 in
      let '(c, q) := strip_zeros 20 c q in
      sign s +:+ positional c q
  end.

Example f64_show_ex :
  f64_show <$> [f64_of 1 4; f64_of 25 4; f64_of 25 1; f64_of_u64 1024; f64_add (f64_of 1 1) (f64_of 2 1);
                S754_finite false 4503599627370496 (-96); f64_of 1 3; f64_of 0 0; f64_dec 1 23] =
  ["0.0001"; "0.0025"; "2.5"; "1024"; "0.30000000000000004"; "0.00000000000005684341886080802"; "0.001"; "0";
   "100000000000000000000000"].
Proof. by vm_compute. Qed.

(** ** Order *)

(** A number by the position of its sign, exponent and mantissa. *)
Definition rank (x : f64) : option (Z * Z * Z) :=
  match x with
  | S754_nan => None
  | S754_infinity s => Some (if s then (-2, 0, 0) else (2, 0, 0))
  | S754_zero _ => Some (0, 0, 0)
  | S754_finite s m e => Some (if s then (-1, - e, Z.neg m) else (1, e, Z.pos m))
  end.
Definition rank_le (a b : Z * Z * Z) : Prop :=
  let '(a1, a2, a3) := a in
  let '(b1, b2, b3) := b in
  a1 < b1 \/ (a1 = b1 /\ (a2 < b2 \/ (a2 = b2 /\ a3 <= b3))).

#[local] Ltac ranked :=
  split;
  [ intros; solve [done | eexists _, _; split; [done|]; split; [done|]; cbn; lia]
  | intros (?&?&?&?&?); simplify_eq/=; solve [done | lia] ].

Lemma f64_le_rank x y :
  f64_le x y = true <-> exists a b, rank x = Some a /\ rank y = Some b /\ rank_le a b.
Proof.
  unfold f64_le, SFleb.
  destruct x as [[]|[]| |[] m e], y as [[]|[]| |[] m' e']; cbn -[Pos.compare_cont]; try ranked;
    fold (Pos.compare m m'); destruct (Z.compare_spec e e') as [->|?|?]; cbn; try ranked;
    destruct (Pos.compare_spec m m'); cbn; ranked.
Qed.

Lemma f64_le_trans x y z : f64_le x y = true -> f64_le y z = true -> f64_le x z = true.
Proof.
  rewrite !f64_le_rank. intros ([[]]&[[]]&?&?&?) ([[]]&[[]]&?&?&?). simplify_eq.
  eexists _, _. split_and!; [done..|]. cbn in *. lia.
Qed.
Lemma f64_le_total x y : is_nan x = false -> is_nan y = false -> f64_le x y = false -> f64_le y x = true.
Proof.
  intros Hx Hy Hle. apply f64_le_rank.
  destruct (rank x) as [[[a1 a2] a3]|] eqn:Ex; [|by destruct x].
  destruct (rank y) as [[[b1 b2] b3]|] eqn:Ey; [|by destruct y].
  eexists _, _. split_and!; [done..|].
  apply not_true_iff_false in Hle. rewrite f64_le_rank in Hle.
  assert (~ rank_le (a1, a2, a3) (b1, b2, b3)) as Hn by naive_solver. cbn in *. lia.
Qed.
