(* ===== verification/Metrics.v ===== *)
(** * Metrics

    [crates/observability/src/{counter,gauge,histogram,registry,metrics}.rs].  Metrics
    are shared cells: an [Arc] is a name in a store, and the registry and the handles
    name the same cells.  Threads update them without locks: [observe] is a program of
    atomic instructions, interleaved with those of other threads, and a relaxed load may
    see any bits. *)

From S2P Require Import Prelude Error Amount F64.
From stdpp Require Import relations.
#[local] Open Scope N_scope.

(** ** Counters and gauges *)

Record Counter : Type := mkCounter { ctr_name : string; ctr_help : string; ctr_value : N }.
Definition Counter_new (name help : string) : Counter := mkCounter name help 0.
(** [fetch_add] wraps. *)
Definition counter_inc_by (val : N) (c : Counter) : Counter :=
  mkCounter (ctr_name c) (ctr_help c) ((ctr_value c + val) mod 2 ^ 64).
Definition counter_inc : Counter -> Counter := counter_inc_by 1.

Record Gauge : Type := mkGauge { gauge_name : string; gauge_help : string; gauge_value : Z }.
Definition Gauge_new (name help : string) : Gauge := mkGauge name help 0.
(** The value of 64 bits in two's complement. *)
Definition wrap_i64 (z : Z) : Z := ((z + 2 ^ 63) mod 2 ^ 64 - 2 ^ 63)%Z.
Definition gauge_set (val : Z) (g : Gauge) : Gauge := mkGauge (gauge_name g) (gauge_help g) val.
Definition gauge_add (delta : Z) (g : Gauge) : Gauge := gauge_set (wrap_i64 (gauge_value g + delta)) g.
Definition gauge_sub (delta : Z) (g : Gauge) : Gauge := gauge_set (wrap_i64 (gauge_value g - delta)) g.
Definition gauge_inc : Gauge -> Gauge := gauge_add 1.
Definition gauge_dec : Gauge -> Gauge := gauge_sub 1.

(** ** Histograms *)

Record Histogram : Type := mkHistogram {
  hist_name : string;
  hist_help : string;
  buckets : list f64;
  bucket_counts : list N;
  hist_count : N;
  hist_sum : f64;
}.

(** The stable sort of the bounds; numbers that do not compare count as equal. *)
Definition f64_lt (x y : f64) : bool := f64_le x y && negb (f64_le y x).
Fixpoint insert_bound (x : f64) (l : list f64) : list f64 :=
  match l with
  | [] => [x]
  | y :: rest => if f64_lt y x then y :: insert_bound x rest else x :: l
  end.
Definition sort_bounds (l : list f64) : list f64 := foldr insert_bound [] l.

Definition Histogram_new (name help : string) (bounds : list f64) : Histogram :=
  let sorted := sort_bounds bounds in
  mkHistogram name help sorted (replicate (length sorted) 0) 0 (f64_of 0 0).

Definition DEFAULT_LATENCY_BUCKETS : list f64 :=
  [f64_of 1 4; f64_of 5 4; f64_of 1 3; f64_of 25 4; f64_of 5 3; f64_of 1 2; f64_of 25 3; f64_of 5 2; f64_of 1 1;
   f64_of 25 2; f64_of 5 1; f64_of 1 0; f64_of 25 1; f64_of 5 0].
Definition DEFAULT_BATCH_BUCKETS : list f64 :=
  (fun n => f64_of n 0) <$> [1; 5; 10; 25; 50; 100; 256; 512; 1024].

Definition ignored (val : f64) : bool := is_nan val || is_sign_negative val.

(** Where a thread is in [observe]: before the count, before the load, in the loop with
    the bits it last saw, at a bucket, or returned. *)
Inductive obs_pc : Type :=
| AtStart
| AtLoad
| AtExchange (current : f64)
| AtBucket (i : nat)
| Returned.

Definition set_count (n : N) (h : Histogram) : Histogram :=
  mkHistogram (hist_name h) (hist_help h) (buckets h) (bucket_counts h) n (hist_sum h).
Definition set_sum (x : f64) (h : Histogram) : Histogram :=
  mkHistogram (hist_name h) (hist_help h) (buckets h) (bucket_counts h) (hist_count h) x.
Definition set_counts (l : list N) (h : Histogram) : Histogram :=
  mkHistogram (hist_name h) (hist_help h) (buckets h) l (hist_count h) (hist_sum h).

Definition incr (n : N) : N := (n + 1) mod 2 ^ 64.

(** One atomic instruction of [observe].  [seen] is what a load or a failed exchange
    reads; [spurious] is whether a weak exchange fails although the bits agree. *)
Definition observe_instr (seen : f64) (spurious : bool) (val : f64) (pc : obs_pc) (h : Histogram)
  : Histogram * obs_pc :=
  match pc with
  | AtStart => if ignored val then (h, Returned) else (set_count (incr (hist_count h)) h, AtLoad)
  | AtLoad => (h, AtExchange seen)
  | AtExchange current =>
      if bool_decide (hist_sum h = current) && negb spurious
      then (set_sum (f64_add current val) h, AtBucket 0)
      else (h, AtExchange seen)
  | AtBucket i =>
      match buckets h !! i with
      | None => (h, Returned)
      | Some bound =>
          ((if f64_le val bound then set_counts (alter incr i (bucket_counts h)) h else h), AtBucket (S i))
      end
  | Returned => (h, Returned)
  end.

(** Threads in [observe] with their values. *)
Abbreviation thread := (f64 * obs_pc)%type.

Inductive obs_step : Histogram * list thread -> Histogram * list thread -> Prop :=
| obs_instr h ts j val pc seen spurious h' pc' :
    ts !! j = Some (val, pc) -> pc <> Returned -> observe_instr seen spurious val pc h = (h', pc') ->
    obs_step (h, ts) (h', <[j := (val, pc')]> ts).

(** [observe] without interference. *)
Definition observe (val : f64) (h : Histogram) : Histogram :=
  if ignored val then h
  else
    mkHistogram (hist_name h) (hist_help h) (buckets h)
      (zip_with (fun bound n => if f64_le val bound then incr n else n) (buckets h) (bucket_counts h))
      (incr (hist_count h)) (f64_add (hist_sum h) val).

Definition observe_duration (nanos : N) : Histogram -> Histogram := observe (as_secs_f64 nanos).

Definition snapshot_buckets (h : Histogram) : list (f64 * N) := zip (buckets h) (bucket_counts h).

(** ** The registry *)

(** The cells, by the name an [Arc] carries. *)
Record Cells : Type := mkCells {
  counters : gmap N Counter;
  gauges : gmap N Gauge;
  histograms : gmap N Histogram;
}.
Record MetricsRegistry : Type := mkRegistry {
  reg_counters : list N;
  reg_gauges : list N;
  reg_histograms : list N;
}.
Definition Registry_new : MetricsRegistry := mkRegistry [] [] [].
Definition register_counter (c : N) (r : MetricsRegistry) : MetricsRegistry :=
  mkRegistry (reg_counters r ++ [c]) (reg_gauges r) (reg_histograms r).
Definition register_gauge (g : N) (r : MetricsRegistry) : MetricsRegistry :=
  mkRegistry (reg_counters r) (reg_gauges r ++ [g]) (reg_histograms r).
Definition register_histogram (h : N) (r : MetricsRegistry) : MetricsRegistry :=
  mkRegistry (reg_counters r) (reg_gauges r) (reg_histograms r ++ [h]).

(** A call through a handle. *)
Inductive Update : Type :=
| IncBy (c val : N)
| SetTo (g : N) (val : Z)
| AddTo (g : N) (delta : Z)
| SubFrom (g : N) (delta : Z)
| Observe (h : N) (val : f64).
Definition apply_update (s : Cells) (u : Update) : Cells :=
  match u with
  | IncBy c val => mkCells (alter (counter_inc_by val) c (counters s)) (gauges s) (histograms s)
  | SetTo g val => mkCells (counters s) (alter (gauge_set val) g (gauges s)) (histograms s)
  | AddTo g delta => mkCells (counters s) (alter (gauge_add delta) g (gauges s)) (histograms s)
  | SubFrom g delta => mkCells (counters s) (alter (gauge_sub delta) g (gauges s)) (histograms s)
  | Observe h val => mkCells (counters s) (gauges s) (alter (observe val) h (histograms s))
  end.

Definition newline : string := String (Ascii.ascii_of_N 10) EmptyString.
Definition quoted (s : string) : string :=
  let q := String (Ascii.ascii_of_N 34) EmptyString in q +:+ s +:+ q.
(** A signed number. *)
Definition show_i64 (z : Z) : string :=
  if (z <? 0)%Z then "-" +:+ dec_string (Z.abs_N z) else dec_string (Z.abs_N z).

Definition header_lines (name help kind : string) : list string :=
  ["# HELP " +:+ name +:+ " " +:+ help; "# TYPE " +:+ name +:+ " " +:+ kind].
Definition render_counter (c : Counter) : list string :=
  header_lines (ctr_name c) (ctr_help c) "counter" ++ [ctr_name c +:+ " " +:+ dec_string (ctr_value c)].
Definition render_gauge (g : Gauge) : list string :=
  header_lines (gauge_name g) (gauge_help g) "gauge" ++ [gauge_name g +:+ " " +:+ show_i64 (gauge_value g)].
Definition bucket_line (name bound count : string) : string :=
  name +:+ "_bucket{le=" +:+ quoted bound +:+ "} " +:+ count.
Definition render_histogram (h : Histogram) : list string :=
  let name := hist_name h in
  header_lines name (hist_help h) "histogram" ++
  ((fun '(bound, n) => bucket_line name (f64_show bound) (dec_string n)) <$> snapshot_buckets h) ++
  [bucket_line name "+Inf" (dec_string (hist_count h));
   name +:+ "_sum " +:+ f64_show (hist_sum h);
   name +:+ "_count " +:+ dec_string (hist_count h)].

Definition render_lines (r : MetricsRegistry) (s : Cells) : list string :=
  concat (render_counter <$> omap (fun i => counters s !! i) (reg_counters r)) ++
  concat (render_gauge <$> omap (fun i => gauges s !! i) (reg_gauges r)) ++
  concat (render_histogram <$> omap (fun i => histograms s !! i) (reg_histograms r)).
(** [writeln!] ends every line. *)
Definition render_prometheus (r : MetricsRegistry) (s : Cells) : string :=
  foldr (fun line text => line +:+ newline +:+ text) EmptyString (render_lines r s).

(** ** The production metrics *)

(** The metrics in the order they are created; a cell's name is its position. *)
Inductive NewMetric : Type :=
| NewCounter (name help : string)
| NewGauge (name help : string)
| NewHistogram (name help : string) (bounds : list f64).

Definition alloc (i : N) (m : NewMetric) (s : Cells) : Cells :=
  match m with
  | NewCounter name help => mkCells (<[i := Counter_new name help]> (counters s)) (gauges s) (histograms s)
  | NewGauge name help => mkCells (counters s) (<[i := Gauge_new name help]> (gauges s)) (histograms s)
  | NewHistogram name help bounds =>
      mkCells (counters s) (gauges s) (<[i := Histogram_new name help bounds]> (histograms s))
  end.
Definition register_metric (i : N) (m : NewMetric) (r : MetricsRegistry) : MetricsRegistry :=
  match m with
  | NewCounter _ _ => register_counter i r
  | NewGauge _ _ => register_gauge i r
  | NewHistogram _ _ _ => register_histogram i r
  end.

Definition transfers_received_cell : N := 0.
Definition transfers_committed_cell : N := 1.
Definition transfers_rejected_cell : N := 2.
Definition batch_size_cell : N := 3.
Definition batch_duration_seconds_cell : N := 4.
Definition wal_sync_duration_seconds_cell : N := 5.
Definition wal_records_appended_cell : N := 6.
Definition wal_bytes_written_cell : N := 7.
Definition raft_term_cell : N := 8.
Definition raft_is_leader_cell : N := 9.
Definition raft_proposals_total_cell : N := 10.
Definition settlement_batches_committed_cell : N := 11.
Definition settlement_amount_total_cell : N := 12.
Definition merkle_proofs_verified_cell : N := 13.
Definition reconciliation_audits_total_cell : N := 14.
Definition reconciliation_drift_gauge_cell : N := 15.
Definition reconciliation_incidents_total_cell : N := 16.

Definition production_metrics : list NewMetric :=
  [NewCounter "trustledger_transfers_received_total"
     "Total number of transfer commands received at ingress";
   NewCounter "trustledger_transfers_committed_total"
     "Total number of transfers successfully committed to ledger state";
   NewCounter "trustledger_transfers_rejected_total"
     "Total number of transfers rejected due to validation errors or backpressure";
   NewHistogram "trustledger_ingress_batch_size"
     "Histogram of ingress micro-batch sizes" DEFAULT_BATCH_BUCKETS;
   NewHistogram "trustledger_ingress_batch_duration_seconds"
     "Duration of batch processing and state application in seconds" DEFAULT_LATENCY_BUCKETS;
   NewHistogram "trustledger_wal_sync_duration_seconds"
     "Duration of physical storage fsync sync_data operations in seconds" DEFAULT_LATENCY_BUCKETS;
   NewCounter "trustledger_wal_records_appended_total"
     "Total number of records durably appended to the WAL";
   NewCounter "trustledger_wal_bytes_written_total"
     "Total raw bytes appended to durable storage";
   NewGauge "trustledger_consensus_term"
     "Current Raft consensus election term";
   NewGauge "trustledger_consensus_is_leader"
     "Consensus leadership status (1 for leader, 0 for follower)";
   NewCounter "trustledger_consensus_proposals_total"
     "Total consensus state proposals submitted";
   NewCounter "trustledger_settlement_batches_committed_total"
     "Total settlement batches committed to the Solana on-chain PDA";
   NewCounter "trustledger_settlement_amount_total"
     "Cumulative settlement volume anchored cryptographically on-chain";
   NewCounter "trustledger_merkle_proofs_verified_total"
     "Total cryptographic Merkle inclusion proofs verified against PDA roots";
   NewCounter "trustledger_reconciliation_audits_total"
     "Total 3-way continuous reconciliation audit runs";
   NewGauge "trustledger_reconciliation_drift_gauge"
     "Current measured financial balance drift across ledger, payments, and chain";
   NewCounter "trustledger_reconciliation_incidents_total"
     "Total financial divergence incidents flagged"].

(** [LedgerMetrics::new]: allocate and register each. *)
Fixpoint create_metrics (i : N) (ms : list NewMetric) (r : MetricsRegistry) (s : Cells) : MetricsRegistry * Cells :=
  match ms with
  | [] => (r, s)
  | m :: rest => create_metrics (i + 1) rest (register_metric i m r) (alloc i m s)
  end.
Definition LedgerMetrics_new : MetricsRegistry * Cells :=
  create_metrics 0 production_metrics Registry_new (mkCells ∅ ∅ ∅).
