(* ===== verification/MetricsProps.v ===== *)
(** * Properties of the metrics

    Concurrent observations are equivalent to a sequence of them, every run can be
    completed, bucket counts are cumulative, and the text shows the cells that the
    handles update. *)

From S2P Require Import Prelude Amount F64 Metrics.
From stdpp Require Import list relations.
From Stdlib Require Import SpecFloat.
#[local] Open Scope N_scope.

(** ** Threads as a bag *)

Fixpoint tally {A} (f : A -> bool) (l : list A) : N :=
  match l with
  | [] => 0
  | x :: rest => (if f x then 1 else 0) + tally f rest
  end.

#[export] Instance tally_proper {A} : Proper (pointwise_relation A eq ==> (≡ₚ) ==> eq) tally.
Proof.
  intros f g Hfg l l' Hl. transitivity (tally g l).
  - clear Hl. induction l; cbn; [done|]. rewrite Hfg. congruence.
  - induction Hl; cbn; solve [lia | congruence].
Qed.
Lemma tally_app {A} (f : A -> bool) l k : tally f (l ++ k) = tally f l + tally f k.
Proof. induction l; cbn; lia. Qed.
Lemma tally_le {A} (f g : A -> bool) l : (forall x, f x -> g x) -> tally f l <= tally g l.
Proof.
  intros Hfg. induction l as [|x l]; cbn; [done|].
  destruct (f x) eqn:E; [|lia]. rewrite (Is_true_true_1 _ (Hfg x (Is_true_true_2 _ E))). lia.
Qed.
Lemma tally_le_length {A} (f : A -> bool) l : tally f l <= N.of_nat (length l).
Proof. induction l; cbn; [done|]. case_match; lia. Qed.
Lemma tally_map {A B} (f : B -> bool) (g : A -> B) l : tally f (g <$> l) = tally (fun x => f (g x)) l.
Proof. induction l; cbn; congruence. Qed.
(** Changing one thread exchanges one member of the bag. *)
Lemma insert_bag {A} (l : list A) j x y :
  l !! j = Some x -> exists rest, l ≡ₚ x :: rest /\ <[j := y]> l ≡ₚ y :: rest.
Proof.
  intros Hj. exists (take j l ++ drop (S j) l).
  pose proof (lookup_lt_Some _ _ _ Hj). split.
  - rewrite <- (take_drop_middle l j x Hj) at 1. by rewrite Permutation_middle.
  - rewrite insert_take_drop by done. by rewrite Permutation_middle.
Qed.

(** ** Histograms *)

Definition hist_ok (h : Histogram) : Prop :=
  length (bucket_counts h) = length (buckets h) /\ hist_count h < 2 ^ 64 /\ Forall (fun n => n < 2 ^ 64) (bucket_counts h).

Lemma incr_add c n : incr ((c + n) mod 2 ^ 64) = (c + (1 + n)) mod 2 ^ 64.
Proof. unfold incr. rewrite N.Div0.add_mod_idemp_l. f_equal. lia. Qed.

(** What a sequence of observations leaves, given the values that count in order. *)
Record observed (h0 : Histogram) (vs : list f64) (h : Histogram) : Prop := mkObserved {
  obs_name : hist_name h = hist_name h0;
  obs_help : hist_help h = hist_help h0;
  obs_buckets : buckets h = buckets h0;
  obs_count : hist_count h = (hist_count h0 + N.of_nat (length vs)) mod 2 ^ 64;
  obs_sum : hist_sum h = foldl f64_add (hist_sum h0) vs;
  obs_counts : forall i bound c, buckets h0 !! i = Some bound -> bucket_counts h0 !! i = Some c ->
    bucket_counts h !! i = Some ((c + tally (fun v => f64_le v bound) vs) mod 2 ^ 64);
  obs_length : length (bucket_counts h) = length (bucket_counts h0);
}.

Lemma observed_unique h0 vs h h' : hist_ok h0 -> observed h0 vs h -> observed h0 vs h' -> h = h'.
Proof.
  intros Hok [] []. destruct h as [n1 p1 b1 l1 c1 s1], h' as [n2 p2 b2 l2 c2 s2]; cbn in *. simplify_eq/=. f_equal.
  apply list_eq_same_length with (length (bucket_counts h0)); [congruence..|].
  intros i x y Hi Hx Hy. destruct Hok as (Hlen & _ & _).
  destruct (lookup_lt_is_Some_2 (buckets h0) i) as [bound Hb]; [lia|].
  destruct (lookup_lt_is_Some_2 (bucket_counts h0) i) as [c Hc]; [lia|].
  naive_solver.
Qed.

Lemma observed_nil h : hist_ok h -> observed h [] h.
Proof.
  intros (Hlen & Hn & Hall). split; cbn; try done.
  - rewrite N.add_0_r, N.mod_small by done. done.
  - intros i bound c _ Hc. rewrite N.add_0_r, N.mod_small by exact (Forall_lookup_1 _ _ _ _ Hall Hc). done.
Qed.

Lemma observed_snoc h0 vs h v :
  hist_ok h0 -> ignored v = false -> observed h0 vs h -> observed h0 (vs ++ [v]) (observe v h).
Proof.
  intros Hok Hv []. unfold observe. rewrite Hv. split; cbn; try congruence.
  - rewrite obs_count0, length_app, incr_add. cbn. f_equal. lia.
  - by rewrite foldl_app, obs_sum0.
  - intros i bound c Hb Hc. rewrite lookup_zip_with, obs_buckets0, Hb. cbn.
    rewrite (obs_counts0 _ _ _ Hb Hc), tally_app. cbn.
    destruct (f64_le v bound); [rewrite incr_add|]; do 2 f_equal; lia.
  - rewrite length_zip_with, obs_buckets0, obs_length0. destruct Hok as (-> & _). lia.
Qed.

Lemma observe_seq h vs : hist_ok h -> observed h (filter (fun v => ignored v = false) vs) (foldl (fun h v => observe v h) h vs).
Proof.
  intros Hok. induction vs as [|v vs IH] using rev_ind; [by apply observed_nil|].
  rewrite filter_app, foldl_app. cbn [foldl]. destruct (ignored v) eqn:Hv.
  - rewrite filter_cons_False, filter_nil, app_nil_r by congruence. unfold observe at 1. by rewrite Hv.
  - rewrite filter_cons_True, filter_nil by done. by apply observed_snoc.
Qed.

(** ** Interleavings *)

Definition started (t : thread) : bool :=
  negb (ignored t.1) && match t.2 with AtStart => false | _ => true end.
Definition summed (t : thread) : bool :=
  negb (ignored t.1) && match t.2 with AtBucket _ | Returned => true | _ => false end.
Definition bumped (i : nat) (bound : f64) (t : thread) : bool :=
  negb (ignored t.1) &&
  (match t.2 with AtBucket k => (i <? k)%nat | Returned => true | _ => false end && f64_le t.1 bound).

(** The values whose exchange has happened. *)
Fixpoint exchanged (ts : list thread) : list f64 :=
  match ts with
  | [] => []
  | t :: rest => if summed t then t.1 :: exchanged rest else exchanged rest
  end.
#[export] Instance exchanged_perm : Proper ((≡ₚ) ==> (≡ₚ)) exchanged.
Proof.
  induction 1; cbn; [done| | |by etrans].
  - case_match; by rewrite IHPermutation.
  - repeat case_match; try done. constructor.
Qed.

(** The state of a run in terms of how far each thread is; [order] has the values in
    the order of their exchanges. *)
Record running (h0 : Histogram) (order : list f64) (h : Histogram) (ts : list thread) : Prop := mkRunning {
  run_name : hist_name h = hist_name h0;
  run_help : hist_help h = hist_help h0;
  run_buckets : buckets h = buckets h0;
  run_order : order ≡ₚ exchanged ts;
  run_count : hist_count h = (hist_count h0 + tally started ts) mod 2 ^ 64;
  run_sum : hist_sum h = foldl f64_add (hist_sum h0) order;
  run_counts : forall i bound c, buckets h0 !! i = Some bound -> bucket_counts h0 !! i = Some c ->
    bucket_counts h !! i = Some ((c + tally (bumped i bound) ts) mod 2 ^ 64);
  run_length : length (bucket_counts h) = length (bucket_counts h0);
  run_pcs : Forall (fun t => ignored t.1 -> t.2 = AtStart \/ t.2 = Returned) ts;
}.

#[export] Instance running_perm h0 order h : Proper ((≡ₚ) ==> iff) (running h0 order h).
Proof.
  intros ts ts' E. split; intros []; split; try done.
  all: try (by rewrite <- E); try (by rewrite E).
  all: intros i bound c Hb Hc; rewrite (run_counts0 _ _ _ Hb Hc); by rewrite E.
Qed.

#[local] Ltac unthread Hv :=
  unfold started, summed, bumped in *; cbn -[Nat.ltb] in *; rewrite ?Hv in *; cbn -[Nat.ltb] in *.

(** The bucket that a thread passes. *)
Lemma bump_counts (l : list N) k i b v c rest (n : N) :
  ignored v = false ->
  l !! i = Some ((c + (n + tally (bumped i b) rest)) mod 2 ^ 64) ->
  n = (if bumped i b (v, AtBucket k) then 1 else 0) ->
  forall bk, (i = k -> bk = b) ->
  (if f64_le v bk then alter incr k l else l) !! i =
  Some ((c + ((if bumped i b (v, AtBucket (S k)) then 1 else 0) + tally (bumped i b) rest)) mod 2 ^ 64).
Proof.
  intros Hv Hl -> bk Hbk.
  assert (Hb : forall k, bumped i b (v, AtBucket k) = (i <? k)%nat && f64_le v b).
  { intros k'. unfold bumped. cbn -[Nat.ltb]. by rewrite Hv. }
  rewrite Hb in Hl |- *. destruct (decide (i = k)) as [->|Hne].
  - specialize (Hbk eq_refl) as ->.
    rewrite (proj2 (Nat.ltb_ge k k)) in Hl by lia. rewrite (proj2 (Nat.ltb_lt k (S k))) by lia.
    rewrite andb_false_l in Hl. rewrite andb_true_l.
    destruct (f64_le v b); [|exact Hl]. rewrite list_lookup_alter_eq, Hl. cbn. by rewrite incr_add.
  - replace (i <? S k)%nat with (i <? k)%nat; [|destruct (Nat.ltb_spec i k), (Nat.ltb_spec i (S k)); lia || done].
    destruct (f64_le v bk); [|exact Hl]. by rewrite list_lookup_alter_ne.
Qed.

Lemma running_instr h0 order h v pc rest seen spurious h' pc' :
  hist_ok h0 -> running h0 order h ((v, pc) :: rest) -> pc <> Returned ->
  observe_instr seen spurious v pc h = (h', pc') ->
  exists order', running h0 order' h' ((v, pc') :: rest).
Proof.
  intros Hok [Hname Hhelp Hbs Hord Hcount Hsum Hcounts Hlen Hpcs] Hpc Hi.
  apply Forall_cons in Hpcs as [Hpc0 Hpcs]. cbn in Hpc0.
  assert (pc = AtStart /\ ignored v = true \/ ignored v = false) as [[-> Hv]|Hv].
  { destruct (ignored v); [|by right]. left. naive_solver. }
  { cbn in Hi. rewrite Hv in Hi. simplify_eq. exists order. unthread Hv. split; cbn; try done.
    all: unthread Hv; try done. constructor; [by right|done]. }
  destruct pc as [| |current|k|]; [..|done]; cbn in Hi.
  - rewrite Hv in Hi. simplify_eq. exists order. unthread Hv. split; cbn; unthread Hv; try done.
    + rewrite Hcount, incr_add. done.
    + constructor; [|done]. cbn. by rewrite Hv.
  - simplify_eq. exists order. unthread Hv. split; cbn; unthread Hv; try done.
    constructor; [|done]. cbn. by rewrite Hv.
  - case_match eqn:E; simplify_eq.
    + apply andb_true_iff in E as [E _]. apply bool_decide_eq_true_1 in E as <-.
      exists (order ++ [v]). unthread Hv. split; cbn; unthread Hv; try done.
      * rewrite Hord. by rewrite Permutation_app_comm.
      * by rewrite foldl_app, Hsum.
      * constructor; [|done]. cbn. by rewrite Hv.
    + exists order. unthread Hv. split; cbn; unthread Hv; try done.
      constructor; [|done]. cbn. by rewrite Hv.
  - destruct (buckets h !! k) as [b|] eqn:Hb; simplify_eq.
    + exists order. rewrite Hbs in Hb.
      assert (Hbump : forall i bound c, buckets h0 !! i = Some bound -> bucket_counts h0 !! i = Some c ->
        (if f64_le v b then alter incr k (bucket_counts h) else bucket_counts h) !! i =
        Some ((c + tally (bumped i bound) ((v, AtBucket (S k)) :: rest)) mod 2 ^ 64)).
      { intros i bound c Hi Hc. eapply bump_counts; [done|exact (Hcounts i bound c Hi Hc)|done|].
        intros ->. congruence. }
      unthread Hv. destruct (f64_le v b); split; cbn; unthread Hv; try done.
      all: try (constructor; [|done]; cbn; by rewrite Hv).
      by rewrite length_alter.
    + exists order. unthread Hv. split; cbn; unthread Hv; try done.
      * intros i bound c Hi Hc. specialize (Hcounts i bound c Hi Hc).
        apply lookup_lt_Some in Hi. apply lookup_ge_None in Hb. rewrite Hbs in Hb.
        by replace (i <? k)%nat with true in Hcounts by (symmetry; apply Nat.ltb_lt; lia).
      * constructor; [by right|done].
Qed.

Lemma running_step h0 order c c' :
  hist_ok h0 -> obs_step c c' -> running h0 order c.1 c.2 -> exists order', running h0 order' c'.1 c'.2.
Proof.
  intros Hok Hs Hrun. destruct Hs as [h ts j v pc seen spurious h' pc' Hj Hpc Hi]. cbn in *.
  destruct (insert_bag ts j (v, pc) (v, pc') Hj) as (rest & Eold & Enew).
  rewrite Eold in Hrun. setoid_rewrite Enew. by eapply running_instr.
Qed.

Lemma running_rtc h0 order c c' :
  hist_ok h0 -> rtc obs_step c c' -> running h0 order c.1 c.2 -> exists order', running h0 order' c'.1 c'.2.
Proof.
  intros Hok Hs. revert order. induction Hs as [c|c1 c2 c3 H12 _ IH]; intros order Hrun; [by exists order|].
  destruct (running_step h0 order c1 c2 Hok H12 Hrun) as [order' Hrun']. exact (IH order' Hrun').
Qed.

Lemma obs_step_values c c' : rtc obs_step c c' -> c'.2.*1 = c.2.*1.
Proof.
  induction 1 as [|c1 c2 c3 H12 _ IH]; [done|]. rewrite IH.
  destruct H12 as [h ts j v pc seen spurious h' pc' Hj Hpc Hi]. cbn.
  rewrite list_fmap_insert. cbn. apply list_insert_id. by rewrite list_lookup_fmap, Hj.
Qed.

Lemma tally_all {A} (l : list A) : tally (fun _ => true) l = N.of_nat (length l).
Proof. induction l; cbn; lia. Qed.
Lemma tally_recorded (f : f64 -> bool) vs :
  tally f (filter (fun v => ignored v = false) vs) = tally (fun v => negb (ignored v) && f v) vs.
Proof.
  induction vs as [|v vs IH]; [done|]. cbn [tally]. rewrite <- IH, filter_cons.
  destruct (ignored v); case_decide; done.
Qed.

Definition calls (vs : list f64) : list thread := (fun v => (v, AtStart)) <$> vs.
Definition all_returned (ts : list thread) : Prop := Forall (fun t => t.2 = Returned) ts.

Lemma calls_values h0 vs h ts : rtc obs_step (h0, calls vs) (h, ts) -> ts.*1 = vs.
Proof.
  intros Hrun. pose proof (obs_step_values _ _ Hrun) as E. cbn in E. rewrite E.
  unfold calls. rewrite <- list_fmap_compose. apply list_fmap_id.
Qed.

Lemma running_start h vs : hist_ok h -> running h [] h (calls vs).
Proof.
  intros (Hlen & Hn & Hall).
  assert (Hz : forall f, (forall v, f (v, AtStart) = false) -> tally f (calls vs) = 0).
  { intros f Hf. unfold calls. rewrite tally_map. induction vs; cbn; [done|]. rewrite Hf, IHvs. done. }
  split; try done.
  - clear Hz. induction vs; cbn; [done|]. unfold summed at 1. cbn. by rewrite andb_false_r.
  - rewrite Hz, N.add_0_r, N.mod_small; [done|done|]. intros v. unfold started. by rewrite andb_false_r.
  - intros i b c _ Hc. rewrite Hz, N.add_0_r, N.mod_small; [done|exact (Forall_lookup_1 _ _ _ _ Hall Hc)|].
    intros v. unfold bumped. cbn. by rewrite andb_false_r.
  - apply Forall_fmap, Forall_true. intros v _. by left.
Qed.

Lemma running_end h0 order h ts :
  all_returned ts -> running h0 order h ts ->
  order ≡ₚ filter (fun v => ignored v = false) ts.*1 /\ observed h0 order h.
Proof.
  intros Hret [Hname Hhelp Hbs Hord Hcount Hsum Hcounts Hlen Hpcs].
  assert (Hex : exchanged ts = filter (fun v => ignored v = false) ts.*1).
  { clear -Hret. induction Hret as [|[v pc] ts Hpc _ IH]; [done|]. cbn in Hpc. subst. cbn [fmap list_fmap fst exchanged].
    rewrite filter_cons. unfold summed at 1. cbn. rewrite andb_true_r, IH.
    destruct (ignored v); case_decide; done. }
  assert (Ht : forall (f : thread -> bool) g, (forall v, f (v, Returned) = negb (ignored v) && g v) ->
             tally f ts = tally g order).
  { intros f g Hfg. rewrite Hord, Hex. clear -Hret Hfg. induction Hret as [|[v pc] ts Hpc _ IH]; [done|].
    cbn in Hpc. subst. cbn [fmap list_fmap fst tally]. rewrite Hfg, IH, filter_cons.
    destruct (ignored v); case_decide; done. }
  split; [by rewrite Hord, Hex|]. split; try done.
  - rewrite Hcount, (Ht started (fun _ => true)); [|done]. do 2 f_equal.
    clear. induction order; cbn; lia.
  - intros i b c Hb Hc. rewrite (Hcounts i b c Hb Hc), (Ht _ (fun v => f64_le v b)); done.
Qed.

(** A complete run records the values that are not ignored, in the order of the exchanges. *)
Lemma run_observed h0 vs h ts :
  hist_ok h0 -> rtc obs_step (h0, calls vs) (h, ts) -> all_returned ts ->
  exists order, order ≡ₚ filter (fun v => ignored v = false) vs /\ observed h0 order h.
Proof.
  intros Hok Hrun Hret.
  destruct (running_rtc h0 [] _ _ Hok Hrun (running_start h0 vs Hok)) as [order Hr]. cbn in Hr.
  exists order. rewrite <- (calls_values _ _ _ _ Hrun). by apply running_end.
Qed.

(** ** Completing a run *)

Lemma run_instr h ts j v pc seen spurious h' pc' :
  ts !! j = Some (v, pc) -> pc <> Returned -> observe_instr seen spurious v pc h = (h', pc') ->
  (exists h'', rtc obs_step (h', <[j := (v, pc')]> ts) (h'', <[j := (v, Returned)]> (<[j := (v, pc')]> ts))) ->
  exists h'', rtc obs_step (h, ts) (h'', <[j := (v, Returned)]> ts).
Proof.
  intros Hj Hpc Hi [h'' Hrun]. exists h''. rewrite list_insert_insert_eq in Hrun.
  eapply rtc_l; [by eapply obs_instr|done].
Qed.

Lemma finish_thread h ts j v pc :
  ts !! j = Some (v, pc) -> exists h', rtc obs_step (h, ts) (h', <[j := (v, Returned)]> ts).
Proof.
  intros Hj. pose proof (lookup_lt_Some _ _ _ Hj) as Hlt.
  assert (Hret : forall h ts, ts !! j = Some (v, Returned) ->
    exists h', rtc obs_step (h, ts) (h', <[j := (v, Returned)]> ts)).
  { intros h1 ts1 H1. exists h1. by rewrite list_insert_id. }
  assert (Hbucket : forall n k h ts, ts !! j = Some (v, AtBucket k) -> (length (buckets h) - k <= n)%nat ->
    exists h', rtc obs_step (h, ts) (h', <[j := (v, Returned)]> ts)).
  { induction n as [|n IH]; intros k h1 ts1 H1 Hn; pose proof (lookup_lt_Some _ _ _ H1) as Hlt1;
      destruct (buckets h1 !! k) as [b|] eqn:Hb.
    - apply lookup_lt_Some in Hb. lia.
    - eapply (run_instr _ _ _ _ _ v false); [done..|cbn; by rewrite Hb|]. apply Hret. by apply list_lookup_insert_eq.
    - eapply (run_instr _ _ _ _ _ v false); [done..|cbn; by rewrite Hb|]. eapply IH; [by apply list_lookup_insert_eq|].
      apply lookup_lt_Some in Hb. destruct (f64_le v b); cbn; lia.
    - eapply (run_instr _ _ _ _ _ v false); [done..|cbn; by rewrite Hb|]. apply Hret. by apply list_lookup_insert_eq. }
  assert (Hload : forall h ts, ts !! j = Some (v, AtExchange (hist_sum h)) ->
    exists h', rtc obs_step (h, ts) (h', <[j := (v, Returned)]> ts)).
  { intros h1 ts1 H1. pose proof (lookup_lt_Some _ _ _ H1).
    eapply (run_instr _ _ _ _ _ v false); [done..|cbn; by rewrite bool_decide_true by done|].
    eapply Hbucket; [by apply list_lookup_insert_eq|done]. }
  assert (Hat : forall h ts, ts !! j = Some (v, AtLoad) ->
    exists h', rtc obs_step (h, ts) (h', <[j := (v, Returned)]> ts)).
  { intros h1 ts1 H1. pose proof (lookup_lt_Some _ _ _ H1).
    eapply (run_instr _ _ _ _ _ (hist_sum h1) false); [done..|]. apply Hload. by apply list_lookup_insert_eq. }
  destruct pc as [| |current|k|]; [|by apply Hat| |by eapply Hbucket|by apply Hret].
  - destruct (ignored v) eqn:Hv.
    + eapply (run_instr _ _ _ _ _ v false); [done..|cbn; by rewrite Hv|]. apply Hret. by apply list_lookup_insert_eq.
    + eapply (run_instr _ _ _ _ _ v false); [done..|cbn; by rewrite Hv|]. apply Hat. by apply list_lookup_insert_eq.
  - eapply (run_instr _ _ _ _ _ (hist_sum h) true); [done..|cbn; by rewrite andb_false_r|].
    apply Hload. by apply list_lookup_insert_eq.
Qed.

Lemma finish_all h ts : exists h' ts', rtc obs_step (h, ts) (h', ts') /\ all_returned ts'.
Proof.
  assert (Hn : forall n, (n <= length ts)%nat -> exists h' ts', rtc obs_step (h, ts) (h', ts') /\
    length ts' = length ts /\ forall j, (j < n)%nat -> snd <$> ts' !! j = Some Returned).
  { induction n as [|n IH]; intros Hle; [by exists h, ts; split; [done|]; split; [done|]; lia|].
    destruct IH as (h1 & ts1 & Hrun & Hlen & Hdone); [lia|].
    destruct (lookup_lt_is_Some_2 ts1 n) as [[v pc] Hj]; [lia|].
    destruct (finish_thread h1 ts1 n v pc Hj) as [h2 Hrun2].
    exists h2, (<[n := (v, Returned)]> ts1). split; [by etrans|]. split; [by rewrite length_insert|].
    intros j Hj'. destruct (decide (j = n)) as [->|Hne].
    - rewrite list_lookup_insert_eq by lia. done.
    - rewrite list_lookup_insert_ne by done. apply Hdone. lia. }
  destruct (Hn (length ts)) as (h' & ts' & Hrun & Hlen & Hdone); [done|].
  exists h', ts'. split; [done|]. apply Forall_lookup_2. intros j [v pc] Hj.
  specialize (Hdone j). rewrite Hj in Hdone. cbn in *. apply lookup_lt_Some in Hj.
  specialize (Hdone ltac:(lia)). congruence.
Qed.

(** ** Bounds *)

Lemma insert_bound_perm x l : insert_bound x l ≡ₚ x :: l.
Proof. induction l as [|y l IH]; cbn; [done|]. case_match; [|done]. rewrite IH. constructor. Qed.
Lemma sort_bounds_perm l : sort_bounds l ≡ₚ l.
Proof. induction l; cbn; [done|]. by rewrite insert_bound_perm, IHl. Qed.

Definition numbers (l : list f64) : Prop := Forall (fun x => is_nan x = false) l.
Definition f64_leq (x y : f64) : Prop := f64_le x y = true.

Lemma insert_bound_sorted x l :
  is_nan x = false -> numbers l -> StronglySorted f64_leq l -> StronglySorted f64_leq (insert_bound x l).
Proof.
  intros Hx Hnum Hs. induction Hs as [|y l Hs IH Hall]; cbn; [repeat constructor|].
  apply Forall_cons in Hnum as [Hy Hnum]. unfold f64_lt.
  destruct (f64_le y x) eqn:Eyx; [destruct (f64_le x y) eqn:Exy|]; cbn.
  2: { constructor; [by apply IH|]. rewrite insert_bound_perm. by constructor. }
  all: assert (f64_leq x y) as Hle by (done || by apply f64_le_total).
  all: constructor; [by constructor|]; constructor; [done|].
  all: eapply Forall_impl; [exact Hall|]; intros z Hz; by eapply f64_le_trans.
Qed.
Lemma sort_bounds_sorted l : numbers l -> StronglySorted f64_leq (sort_bounds l).
Proof.
  induction 1 as [|x l Hx Hl IH]; cbn; [constructor|]. apply insert_bound_sorted; [done| |done].
  unfold numbers. by rewrite sort_bounds_perm.
Qed.
Lemma sorted_lookup l i j x y :
  numbers l -> StronglySorted f64_leq l -> (i <= j)%nat -> l !! i = Some x -> l !! j = Some y -> f64_le x y = true.
Proof.
  intros Hnum Hs. revert i j. induction Hs as [|z l Hs IH Hall]; intros [|i] [|j] Hij Hi Hj; cbn in *; try lia; try done.
  - assert (x = y) as -> by congruence. assert (z = y) as -> by congruence. apply Forall_cons in Hnum as [Hy _].
    destruct (f64_le y y) eqn:E; [done|]. pose proof (f64_le_total y y Hy Hy E). congruence.
  - simplify_eq. exact (Forall_lookup_1 _ _ _ _ Hall Hj).
  - apply Forall_cons in Hnum as [_ Hnum]. eapply (IH Hnum i j); [lia|done..].
Qed.

Lemma Histogram_new_ok name help bounds : hist_ok (Histogram_new name help bounds).
Proof.
  split; [by cbn; rewrite length_replicate|]. split; [done|]. cbn. by apply Forall_replicate.
Qed.

(** ** The theorems on histograms *)

(** C35: threads that record values at once, in any interleaving of their
    instructions, with spurious failures and stale loads: when all have returned, the
    histogram is the one that recording the values in some order gives; and from every
    state on the way the calls can return. *)
Theorem concurrent_observations (h0 h : Histogram) (vs : list f64) (ts : list thread) :
  hist_ok h0 -> rtc obs_step (h0, calls vs) (h, ts) ->
  (all_returned ts -> exists order, order ≡ₚ vs /\ h = foldl (fun h v => observe v h) h0 order) /\
  (exists h' ts', rtc obs_step (h, ts) (h', ts') /\ all_returned ts').
Proof.
  intros Hok Hrun. split; [|apply finish_all]. intros Hret.
  destruct (run_observed _ _ _ _ Hok Hrun Hret) as (order & Hord & Hobs).
  exists (order ++ filter (fun v => ignored v = true) vs). split.
  - rewrite Hord. clear. induction vs as [|v vs IH]; [done|]. rewrite !filter_cons.
    destruct (ignored v); repeat case_decide; try done; cbn; [by rewrite <- Permutation_middle, IH|by rewrite IH].
  - apply (observed_unique h0 order); [done..|].
    assert (Hf : filter (fun v => ignored v = false) (order ++ filter (fun v => ignored v = true) vs) = order).
    { rewrite filter_app, list_filter_filter, filter_all, filter_none, app_nil_r; [done| |].
      - apply Forall_true. intros v []. congruence.
      - rewrite Hord. apply Forall_forall. intros v. by rewrite list_elem_of_filter; intros []. }
    rewrite <- Hf at 1. by apply observe_seq.
Qed.

(** After a complete run on a new histogram the buckets are the bounds in ascending
    order; the count of a bucket is the number of recorded values up to its bound, so
    counts never decrease along the buckets and the total bounds them all. *)
Theorem cumulative_buckets (name help : string) (bounds vs : list f64) (h : Histogram) (ts : list thread) :
  numbers bounds -> N.of_nat (length vs) < 2 ^ 64 ->
  rtc obs_step (Histogram_new name help bounds, calls vs) (h, ts) -> all_returned ts ->
  buckets h ≡ₚ bounds /\ StronglySorted f64_leq (buckets h) /\
  hist_count h = tally (fun v => negb (ignored v)) vs /\
  (forall i bound, buckets h !! i = Some bound ->
     bucket_counts h !! i = Some (tally (fun v => negb (ignored v) && f64_le v bound) vs)) /\
  (forall i j a b, (i <= j)%nat -> bucket_counts h !! i = Some a -> bucket_counts h !! j = Some b ->
     a <= b <= hist_count h).
Proof.
  intros Hnum Hlen Hrun Hret.
  pose proof (Histogram_new_ok name help bounds) as Hok.
  set (h0 := Histogram_new name help bounds) in *.
  destruct (run_observed _ _ _ _ Hok Hrun Hret) as (order & Hord & Hobs).
  assert (Hsmall : forall f, tally f order < 2 ^ 64).
  { intros f. eapply N.le_lt_trans; [apply tally_le_length|]. rewrite Hord.
    eapply N.le_lt_trans; [|exact Hlen]. pose proof (length_filter (fun v => ignored v = false) vs). lia. }
  assert (Hcounts : forall i bound, buckets h !! i = Some bound ->
     bucket_counts h !! i = Some (tally (fun v => f64_le v bound) order)).
  { intros i bound Hi. rewrite (obs_buckets _ _ _ Hobs) in Hi.
    rewrite (obs_counts _ _ _ Hobs i bound 0 Hi); [by rewrite N.add_0_l, N.mod_small|].
    apply lookup_replicate. split; [done|]. by apply lookup_lt_Some in Hi. }
  assert (Hcount : hist_count h = tally (fun _ => true) order).
  { rewrite (obs_count _ _ _ Hobs). cbn [hist_count h0 Histogram_new]. rewrite N.add_0_l, tally_all.
    apply N.mod_small. rewrite <- tally_all. apply Hsmall. }
  assert (Hsort : StronglySorted f64_leq (buckets h)).
  { rewrite (obs_buckets _ _ _ Hobs). by apply sort_bounds_sorted. }
  assert (Hperm : buckets h ≡ₚ bounds).
  { rewrite (obs_buckets _ _ _ Hobs). apply sort_bounds_perm. }
  split_and!; [done|done|..].
  - rewrite Hcount, Hord, tally_recorded. by setoid_rewrite andb_true_r.
  - intros i bound Hi. rewrite (Hcounts i bound Hi), Hord. by rewrite tally_recorded.
  - intros i j a b Hij Ha Hb.
    assert (Hlenb : length (bucket_counts h) = length (buckets h)).
    { rewrite (obs_length _ _ _ Hobs), (obs_buckets _ _ _ Hobs). apply Hok. }
    destruct (lookup_lt_is_Some_2 (buckets h) i) as [x Hx]; [rewrite <- Hlenb; by eapply lookup_lt_Some|].
    destruct (lookup_lt_is_Some_2 (buckets h) j) as [y Hy]; [rewrite <- Hlenb; by eapply lookup_lt_Some|].
    rewrite (Hcounts i x Hx) in Ha. rewrite (Hcounts j y Hy) in Hb. simplify_eq. rewrite Hcount. split.
    + apply tally_le. intros v Hv. apply Is_true_true. eapply f64_le_trans; [by apply Is_true_true|].
      eapply sorted_lookup; [|done..]. unfold numbers. by rewrite Hperm.
    + by apply tally_le.
Qed.

(** ** Schedules *)

Definition returned (pc : obs_pc) : bool := match pc with Returned => true | _ => false end.

(** A schedule names the thread that runs, what it reads and whether it fails. *)
Fixpoint exec (sched : list (nat * f64 * bool)) (h : Histogram) (ts : list thread) : Histogram * list thread :=
  match sched with
  | [] => (h, ts)
  | (j, seen, spurious) :: rest =>
      match ts !! j with
      | Some (v, pc) =>
          if returned pc then exec rest h ts
          else let '(h', pc') := observe_instr seen spurious v pc h in exec rest h' (<[j := (v, pc')]> ts)
      | None => exec rest h ts
      end
  end.
Lemma exec_steps sched h ts : rtc obs_step (h, ts) (exec sched h ts).
Proof.
  revert h ts. induction sched as [|[[j seen] spurious] rest IH]; intros h ts; cbn; [done|].
  destruct (ts !! j) as [[v pc]|] eqn:Hj; [|apply IH]. destruct (returned pc) eqn:Hpc; [apply IH|].
  destruct (observe_instr seen spurious v pc h) as [h' pc'] eqn:Hi.
  eapply rtc_l; [|apply IH]. eapply obs_instr; [done| |done]. by intros ->.
Qed.

Definition sizes : Histogram := Histogram_new "sizes" "Sizes" [f64_of 10 0; f64_of 1 0].
Definition three_values : list f64 := [f64_of 5 1; f64_of 7 0; S754_nan].
(** Thread 0 loads the sum; thread 1 exchanges first; the exchange of thread 0 fails. *)
Definition contended : list (nat * f64 * bool) :=
  ((fun j => (j, f64_of 0 0, false)) <$> [0; 0; 1; 1; 1]%nat) ++
  ((fun j => (j, f64_of 7 0, false)) <$> [0; 0; 2; 1; 1; 1; 0; 0; 0]%nat).

Lemma concurrent_observations_witness :
  exists h ts order, rtc obs_step (sizes, calls three_values) (h, ts) /\ order ≡ₚ three_values /\
  h = foldl (fun h v => observe v h) sizes order /\
  snapshot_buckets h = [(f64_of 1 0, 1); (f64_of 10 0, 2)] /\ hist_sum h = f64_of 75 1.
Proof.
  set (c := exec contended sizes (calls three_values)).
  assert (Hrun : rtc obs_step (sizes, calls three_values) (c.1, c.2)).
  { rewrite <- surjective_pairing. apply exec_steps. }
  destruct (concurrent_observations sizes c.1 three_values c.2 (Histogram_new_ok _ _ _) Hrun) as [Hend _].
  assert (Hret : all_returned c.2) by (vm_compute; repeat constructor).
  destruct (Hend Hret) as (order & Hord & Heq).
  exists c.1, c.2, order. split; [exact Hrun|]. split; [exact Hord|]. split; [exact Heq|]. by vm_compute.
Defined.

Lemma cumulative_buckets_witness :
  let h := (exec contended sizes (calls three_values)).1 in
  buckets h ≡ₚ [f64_of 10 0; f64_of 1 0] /\ hist_count h = 2.
Proof.
  set (c := exec contended sizes (calls three_values)).
  destruct (cumulative_buckets "sizes" "Sizes" [f64_of 10 0; f64_of 1 0] three_values c.1 c.2) as (H1 & _ & H2 & _).
  - vm_compute; repeat constructor.
  - by vm_compute.
  - rewrite <- surjective_pairing. apply exec_steps.
  - vm_compute; repeat constructor.
  - split; [exact H1|]. rewrite H2. by vm_compute.
Defined.

(** A snapshot taken between two bucket increments of one call is not cumulative. *)
Example torn_snapshot :
  exists h ts, rtc obs_step (sizes, calls [f64_of 5 1]) (h, ts) /\
    snapshot_buckets h = [(f64_of 1 0, 1); (f64_of 10 0, 0)] /\ hist_count h = 1.
Proof.
  set (c := exec ((fun j => (j, f64_of 0 0, false)) <$> [0; 0; 0; 0]%nat) sizes (calls [f64_of 5 1])).
  exists c.1, c.2. split; [rewrite <- surjective_pairing; apply exec_steps|by vm_compute].
Qed.

(** ** The text *)

(** What updates make of a counter, a gauge without its width, and a histogram. *)
Fixpoint increments (c : N) (us : list Update) : N :=
  match us with
  | [] => 0
  | IncBy c' val :: rest => (if bool_decide (c' = c) then val else 0) + increments c rest
  | _ :: rest => increments c rest
  end.
Definition net_step (g : N) (z : Z) (u : Update) : Z :=
  match u with
  | SetTo g' val => if bool_decide (g' = g) then val else z
  | AddTo g' delta => if bool_decide (g' = g) then (z + delta)%Z else z
  | SubFrom g' delta => if bool_decide (g' = g) then (z - delta)%Z else z
  | _ => z
  end.
Definition net (g : N) (us : list Update) : Z := foldl (net_step g) 0%Z us.
Definition observations (h : N) (us : list Update) : list f64 :=
  omap (fun u => match u with Observe h' val => if bool_decide (h' = h) then Some val else None | _ => None end) us.

(** The values that an [i64] has. *)
Definition i64_update (u : Update) : Prop :=
  match u with SetTo _ val => (- 2 ^ 63 <= val < 2 ^ 63)%Z | _ => True end.

Lemma wrap_i64_add a b : wrap_i64 (wrap_i64 a + b) = wrap_i64 (a + b).
Proof.
  unfold wrap_i64. f_equal.
  replace ((a + 2 ^ 63) mod 2 ^ 64 - 2 ^ 63 + b + 2 ^ 63)%Z with ((a + 2 ^ 63) mod 2 ^ 64 + b)%Z by lia.
  rewrite Zplus_mod_idemp_l. f_equal. lia.
Qed.
Lemma wrap_i64_id a : (- 2 ^ 63 <= a < 2 ^ 63)%Z -> wrap_i64 a = a.
Proof. intros Ha. unfold wrap_i64. rewrite Z.mod_small; lia. Qed.

Lemma counters_after us s c name help n :
  counters s !! c = Some (mkCounter name help n) -> n < 2 ^ 64 ->
  counters (foldl apply_update s us) !! c = Some (mkCounter name help ((n + increments c us) mod 2 ^ 64)).
Proof.
  revert s n. induction us as [|u us IH]; intros s n Hs Hn; cbn [foldl].
  { cbn. by rewrite N.add_0_r, N.mod_small. }
  destruct u as [c' val|g val|g delta|g delta|h val]; cbn [increments]; try (by apply IH).
  case_bool_decide as Hc; subst; cbn.
  - rewrite (IH _ ((n + val) mod 2 ^ 64)); [|cbn; by rewrite lookup_alter_eq, Hs|by apply N.mod_lt].
    rewrite N.Div0.add_mod_idemp_l. do 3 f_equal. lia.
  - rewrite (IH _ n); [|cbn; by rewrite lookup_alter_ne|done]. done.
Qed.
Lemma gauges_after us s g name help z :
  Forall i64_update us -> gauges s !! g = Some (mkGauge name help (wrap_i64 z)) ->
  gauges (foldl apply_update s us) !! g = Some (mkGauge name help (wrap_i64 (foldl (net_step g) z us))).
Proof.
  intros Hus. revert s z. induction Hus as [|u us Hu Hus IH]; intros s z Hs; cbn [foldl]; [done|].
  apply IH. destruct u as [c' val|g' val|g' delta|g' delta|h val]; cbn [apply_update net_step gauges]; try done;
    case_bool_decide as Hg; subst; rewrite ?lookup_alter_ne by done; try done; rewrite lookup_alter_eq, Hs; cbn;
    unfold gauge_add, gauge_sub, gauge_set; cbn; do 2 f_equal.
  - symmetry. by apply wrap_i64_id.
  - apply wrap_i64_add.
  - apply (wrap_i64_add z (- delta)).
Qed.
Lemma histograms_after us s i h :
  histograms s !! i = Some h ->
  histograms (foldl apply_update s us) !! i = Some (foldl (fun h v => observe v h) h (observations i us)).
Proof.
  revert s h. induction us as [|u us IH]; intros s h Hs; cbn [foldl]; [done|].
  destruct u as [c' val|g' val|g' delta|g' delta|i' val]; cbn; try (by apply IH).
  case_bool_decide as Hi; subst; cbn; apply IH; cbn.
  - by rewrite lookup_alter_eq, Hs.
  - by rewrite lookup_alter_ne.
Qed.

(** The lines of metric [k] after the updates. *)
Definition metric_lines (us : list Update) (k : N) : list string :=
  match production_metrics !! N.to_nat k with
  | Some (NewCounter name help) => render_counter (mkCounter name help (increments k us mod 2 ^ 64))
  | Some (NewGauge name help) => render_gauge (mkGauge name help (wrap_i64 (net k us)))
  | Some (NewHistogram name help bounds) =>
      render_histogram (foldl (fun h v => observe v h) (Histogram_new name help bounds) (observations k us))
  | None => []
  end.

Lemma counter_shown us s k name help :
  counters s !! k = Some (Counter_new name help) -> production_metrics !! N.to_nat k = Some (NewCounter name help) ->
  render_counter <$> counters (foldl apply_update s us) !! k = Some (metric_lines us k).
Proof. intros Hs Hk. unfold metric_lines. by rewrite Hk, (counters_after us s k name help 0). Qed.
Lemma gauge_shown us s k name help :
  Forall i64_update us ->
  gauges s !! k = Some (Gauge_new name help) -> production_metrics !! N.to_nat k = Some (NewGauge name help) ->
  render_gauge <$> gauges (foldl apply_update s us) !! k = Some (metric_lines us k).
Proof. intros Hus Hs Hk. unfold metric_lines. by rewrite Hk, (gauges_after us s k name help 0). Qed.
Lemma histogram_shown us s k name help bounds :
  histograms s !! k = Some (Histogram_new name help bounds) ->
  production_metrics !! N.to_nat k = Some (NewHistogram name help bounds) ->
  render_histogram <$> histograms (foldl apply_update s us) !! k = Some (metric_lines us k).
Proof. intros Hs Hk. unfold metric_lines. by rewrite Hk, (histograms_after us s k _ Hs). Qed.

Lemma rendered_block {A} (render : A -> list string) (m : gmap N A) (f : N -> list string) ids :
  Forall (fun k => render <$> m !! k = Some (f k)) ids ->
  concat (render <$> omap (fun k => m !! k) ids) = concat (f <$> ids).
Proof.
  induction 1 as [|k ids Hk _ IH]; [done|]. cbn in *. destruct (m !! k); [|done].
  cbn in *. apply (inj Some) in Hk as <-. f_equal. exact IH.
Qed.

Lemma scrape_lines us :
  Forall i64_update us ->
  let r := LedgerMetrics_new.1 in
  render_lines r (foldl apply_update LedgerMetrics_new.2 us) =
  concat (metric_lines us <$> reg_counters r ++ reg_gauges r ++ reg_histograms r).
Proof.
  intros Hus r. unfold render_lines. rewrite !fmap_app, !concat_app. f_equal; [|f_equal]; apply rendered_block.
  - change (reg_counters r) with [0; 1; 2; 6; 7; 10; 11; 12; 13; 14; 16].
    repeat (constructor; [eapply counter_shown; reflexivity|]). constructor.
  - change (reg_gauges r) with [8; 9; 15].
    repeat (constructor; [eapply gauge_shown; [done|reflexivity..]|]). constructor.
  - change (reg_histograms r) with [3; 4; 5].
    repeat (constructor; [eapply histogram_shown; reflexivity|]). constructor.
Qed.

(** The text has every production metric once, first the counters, then the gauges
    and the histograms in the order they were created, and shows what all updates through
    the handles amount to: a counter their sum modulo 2^64, a gauge the value last set
    with the deltas since, in two's complement, a histogram its observations. *)
Theorem scrape_exact (us : list Update) :
  Forall i64_update us ->
  let r := LedgerMetrics_new.1 in
  let s := foldl apply_update LedgerMetrics_new.2 us in
  let shown := reg_counters r ++ reg_gauges r ++ reg_histograms r in
  shown ≡ₚ N.of_nat <$> seq 0 17 /\ render_lines r s = concat (metric_lines us <$> shown).
Proof. intros Hus r s shown. split; [by apply (bool_decide_unpack _); vm_compute|by apply scrape_lines]. Qed.

Lemma scrape_exact_witness :
  let us := [IncBy transfers_received_cell (2 ^ 64 - 1); IncBy transfers_received_cell 3; SetTo raft_term_cell 7;
             SubFrom raft_term_cell 9; Observe batch_size_cell (f64_of 3 0)] in
  let r := LedgerMetrics_new.1 in
  let s := foldl apply_update LedgerMetrics_new.2 us in
  take 3 (render_lines r s) =
    ["# HELP trustledger_transfers_received_total Total number of transfer commands received at ingress";
     "# TYPE trustledger_transfers_received_total counter"; "trustledger_transfers_received_total 2"] /\
  render_lines r s !! 35%nat = Some "trustledger_consensus_term -2" /\
  render_lines r s = concat (metric_lines us <$> reg_counters r ++ reg_gauges r ++ reg_histograms r).
Proof.
  intros us r s. split; [by vm_compute|]. split; [by vm_compute|].
  exact (proj2 (scrape_exact us ltac:(repeat constructor; cbn; lia))).
Defined.
