(* ===== verification/Endpoints.v ===== *)
(** * Two more endpoints of the application

    [apps/demo/src/api.rs]: [handle_simulator_run], which runs the simulator on request,
    and [handle_metrics], which renders the application's metrics. *)

From Stdlib Require Import QArith_base.
From S2P Require Import Bytes Error Amount Account Transfer Ledger Merkle Settle Payment Rail Api.
From S2P Require Import SimNet SimNode SimCluster SimScenario F64 Metrics.
From stdpp Require Import list gmap strings.
From S2P Require Import Prelude.
#[local] Open Scope N_scope.

(** ** The simulator *)

Record SimulationRunRequest : Type := mkSimReq { sq_scenario : string; sq_seed : option N }.
Record SimulationRunResponse : Type := mkSimResp {
  sp_scenario : string;
  sp_seed : N;
  sp_total_ticks : N;
  sp_ops_proposed : N;
  sp_ops_committed : N;
  sp_packets_delivered : N;
  sp_packets_dropped : N;
  oracle_verdict : string;
  sp_status : string;
}.

Definition scenario_named (name : string) : option ScenarioType :=
  if String.eqb name "NetworkPartition" then Some NetworkPartition
  else if String.eqb name "CrashTornWrite" then Some CrashTornWrite
  else if String.eqb name "ChaosSoak" then Some ChaosSoak
  else None.

Definition PASSED_VERDICT : string :=
  "PASSED: Wealth conservation (zero drift), non-negative balances, and log agreement verified across simulated states.".

Section simulator.
Context `{Crc32c, EntryCodec, Rng} (fuel : nat) (violation_text : OracleViolation -> string).

Definition handle_simulator_run (req : SimulationRunRequest) : result (failure HttpError) SimulationRunResponse :=
  match scenario_named (sq_scenario req) with
  | None => Err (Fails (mkHttp BAD_REQUEST (Text ("Unknown scenario: " +:+ sq_scenario req))))
  | Some kind =>
      let seed := default 42 (sq_seed req) in
      match run_scenario fuel kind seed 150 with
      | Err (inl _) => Err Panic
      | Err (inr v) =>
          Err (Fails (mkHttp INTERNAL_SERVER_ERROR (Text ("Oracle invariant violation: " +:+ violation_text v))))
      | Ok report =>
          Ok (mkSimResp (sq_scenario req) (rep_seed report) (total_ticks report) (ops_proposed report)
                (ops_committed report) (rep_delivered report) (rep_dropped report) PASSED_VERDICT "PASSED")
      end
  end.

End simulator.

(** ** Metrics *)

Definition metric_cell (k : Metric) : N :=
  match k with
  | m_transfers_received => transfers_received_cell
  | m_transfers_committed => transfers_committed_cell
  | m_transfers_rejected => transfers_rejected_cell
  | m_settlement_batches_committed => settlement_batches_committed_cell
  | m_settlement_amount_total => settlement_amount_total_cell
  | m_merkle_proofs_verified => merkle_proofs_verified_cell
  | m_reconciliation_audits_total => reconciliation_audits_total_cell
  | m_reconciliation_incidents_total => reconciliation_incidents_total_cell
  end.
Definition app_counters : list Metric :=
  [m_transfers_received; m_transfers_committed; m_transfers_rejected; m_settlement_batches_committed;
   m_settlement_amount_total; m_merkle_proofs_verified; m_reconciliation_audits_total;
   m_reconciliation_incidents_total].

(** The cells of the application, from the values that its state keeps. *)
Definition app_updates (s : App) : list Update :=
  ((fun k => IncBy (metric_cell k) (app_metrics s k)) <$> app_counters) ++
  [SetTo reconciliation_drift_gauge_cell (drift_gauge s)].
Definition app_cells (s : App) : Cells := foldl apply_update LedgerMetrics_new.2 (app_updates s).

Definition METRICS_CONTENT_TYPE : string := "text/plain; version=0.0.4; charset=utf-8".
Definition handle_metrics (s : App) : string * string :=
  (METRICS_CONTENT_TYPE, render_prometheus LedgerMetrics_new.1 (app_cells s)).
