(* ===== verification/EndpointProps.v ===== *)
(** * Properties of the simulator and metrics endpoints *)

From Stdlib Require Import QArith_base.
From S2P Require Import Bytes Error Amount Account Transfer Ledger Merkle Settle Payment Rail Api ApiProps.
From S2P Require Import SimNet SimNode SimCluster SimScenario SimRun SimProps F64 Metrics MetricsProps Endpoints.
From stdpp Require Import list gmap strings.
From S2P Require Import Prelude.
#[local] Open Scope N_scope.

Section endpoints.
Context `{Crc32c, EntryCodec, Rng} (fuel : nat) (violation_text : OracleViolation -> string).

(** The endpoint never answers with a violation.  For each of the three scenario names and
    every seed the simulation of 150 ticks is reported as passed, under the seed that
    was asked for or 42, unless it is still drawing a receiver; every other name is a bad
    request. *)
Theorem simulator_endpoint req :
  match scenario_named (sq_scenario req) with
  | Some kind =>
      (exists resp, handle_simulator_run fuel violation_text req = Ok resp /\ sp_status resp = "PASSED" /\
        sp_scenario resp = sq_scenario req /\ sp_seed resp = default 42 (sq_seed req) /\
        sp_total_ticks resp = 150 + settled kind /\ sp_ops_committed resp <= sp_ops_proposed resp <= 150) \/
      (run_scenario fuel kind (default 42 (sq_seed req)) 150 = Err (inl NoFuel) /\ streak fuel)
  | None =>
      (sq_scenario req ∉ ["NetworkPartition"; "CrashTornWrite"; "ChaosSoak"]) /\
      exists why, handle_simulator_run fuel violation_text req = Err (Fails (mkHttp BAD_REQUEST why))
  end.
Proof using All.
  unfold handle_simulator_run. destruct (scenario_named (sq_scenario req)) as [kind|] eqn:E.
  - destruct (scenario_ok fuel kind (default 42 (sq_seed req)) 150) as [(r & -> & Hk & Hs & Ht & Ho)|?];
      [done| |by right]. left. eexists. split; [reflexivity|]. cbn. repeat split; try done; lia.
  - split; [|eauto]. unfold scenario_named in E.
    rewrite !not_elem_of_cons. destruct (String.eqb_spec (sq_scenario req) "NetworkPartition"); [done|].
    destruct (String.eqb_spec (sq_scenario req) "CrashTornWrite"); [done|].
    destruct (String.eqb_spec (sq_scenario req) "ChaosSoak"); [done|]. repeat split; [done..|].
    apply not_elem_of_nil.
Qed.

End endpoints.

(** The values fit their atomic cells. *)
Definition app_metrics_fit (s : App) : Prop :=
  (forall k, app_metrics s k < 2 ^ 64) /\ (- 2 ^ 63 <= drift_gauge s < 2 ^ 63)%Z.

(** The metrics page shows the application's counters and its drift gauge as they
    stand. *)
Theorem metrics_endpoint (s : App) (k : Metric) name help :
  app_metrics_fit s -> production_metrics !! N.to_nat (metric_cell k) = Some (NewCounter name help) ->
  name +:+ " " +:+ dec_string (app_metrics s k) ∈ render_lines LedgerMetrics_new.1 (app_cells s) /\
  "trustledger_reconciliation_drift_gauge " +:+ show_i64 (drift_gauge s) ∈
    render_lines LedgerMetrics_new.1 (app_cells s).
Proof.
  intros [Hfit Hz] Hk. unfold app_cells. rewrite scrape_lines.
  2: { unfold app_updates, app_counters. repeat constructor; cbn; lia. }
  assert (Hin : forall c line, c ∈ reg_counters LedgerMetrics_new.1 ++ reg_gauges LedgerMetrics_new.1 ++
      reg_histograms LedgerMetrics_new.1 -> line ∈ metric_lines (app_updates s) c ->
    line ∈ concat (metric_lines (app_updates s) <$> reg_counters LedgerMetrics_new.1 ++
      reg_gauges LedgerMetrics_new.1 ++ reg_histograms LedgerMetrics_new.1)).
  { intros c line Hc Hl. apply list_elem_of_In, in_concat. eexists.
    split; apply list_elem_of_In; [by apply list_elem_of_fmap_2|exact Hl]. }
  split.
  - apply (Hin (metric_cell k)); [apply (bool_decide_unpack _); destruct k; by vm_compute|].
    unfold metric_lines. rewrite Hk.
    assert (increments (metric_cell k) (app_updates s) = app_metrics s k) as ->.
    { destruct k; cbv -[N.add app_metrics]; lia. }
    rewrite N.mod_small by apply Hfit. unfold render_counter.
    rewrite elem_of_app, list_elem_of_singleton. by right.
  - apply (Hin reconciliation_drift_gauge_cell); [apply (bool_decide_unpack _); by vm_compute|].
    change (metric_lines (app_updates s) reconciliation_drift_gauge_cell) with
      (render_gauge (mkGauge "trustledger_reconciliation_drift_gauge"
         "Current measured financial balance drift across ledger, payments, and chain"
         (wrap_i64 (net reconciliation_drift_gauge_cell (app_updates s))))).
    replace (net reconciliation_drift_gauge_cell (app_updates s)) with (drift_gauge s) by reflexivity.
    rewrite wrap_i64_id by exact Hz. unfold render_gauge. rewrite elem_of_app, list_elem_of_singleton. by right.
Qed.

Lemma metrics_endpoint_witness :
  let s := inc_metric m_settlement_amount_total 77 toy_app in
  "trustledger_settlement_amount_total " +:+ dec_string (app_metrics s m_settlement_amount_total) ∈
    render_lines LedgerMetrics_new.1 (app_cells s) /\
  app_metrics s m_settlement_amount_total = 77.
Proof.
  intros s. split; [|by vm_compute].
  apply (metrics_endpoint s m_settlement_amount_total "trustledger_settlement_amount_total"
    "Cumulative settlement volume anchored cryptographically on-chain"); [|reflexivity].
  split; [intros []; by vm_compute|]. split; by vm_compute.
Defined.

#[local] Existing Instance castagnoli.
#[local] Existing Instance counting.
#[local] Existing Instance plain.

Lemma simulator_endpoint_witness :
  exists resp, handle_simulator_run 2 (fun _ => EmptyString) (mkSimReq "ChaosSoak" None) = Ok resp /\
    sp_status resp = "PASSED" /\ sp_scenario resp = "ChaosSoak" /\ sp_seed resp = 42 /\
    sp_total_ticks resp = 200 /\ sp_ops_committed resp <= sp_ops_proposed resp <= 150.
Proof.
  destruct (simulator_endpoint 2 (fun _ => EmptyString) (mkSimReq "ChaosSoak" None)) as [Hr|[_ Hs]];
    [exact Hr|by destruct (counting_no_streak Hs)].
Defined.
