(* ===== verification/Dashboard.v ===== *)
(** * The dashboard page, the routes and the start of the server

    [apps/demo/src/dashboard.rs]: [render_dashboard_html], which fills the placeholders of
    the page with [str::replace]; [apps/demo/src/api.rs]: [handle_dashboard] and the table of
    [router]; [apps/demo/src/main.rs] and [apps/demo/src/server.rs]: the port, and the start
    of the server up to the call that serves.  The static HTML of the page is an argument of
    the rendering; the textual form of a key, the parsing of an address and the serving of
    connections are library code and arguments as well. *)

From S2P Require Import Bytes Error Amount Account Transfer Ledger Merkle Settle Payment Rail Api.
From stdpp Require Import list gmap strings.
From S2P Require Import Prelude.
#[local] Open Scope N_scope.
#[local] Open Scope st_scope.

(** ** Replacing text *)

(** [str::replace] for a pattern that is not empty: the occurrences from the left, none
    overlapping the one before.  [skip] is what is left of an occurrence. *)
Fixpoint replace_from (skip : nat) (from to s : string) {struct s} : string :=
  match s with
  | EmptyString => EmptyString
  | String c s' =>
      match skip with
      | S k => replace_from k from to s'
      | O =>
          if String.prefix from s then to +:+ replace_from (pred (String.length from)) from to s'
          else String c (replace_from 0 from to s')
      end
  end.
Definition replace (from to s : string) : string := replace_from 0 from to s.

(** ** The page *)

Inductive Hole : Type := CurrentBatchSeq | SolanaAuthority | SolanaPda | LatestRootHex | PaymentsCount.
#[global] Instance Hole_eq_dec : EqDecision Hole.
Proof. solve_decision. Defined.

Definition placeholder (h : Hole) : string :=
  match h with
  | CurrentBatchSeq => "__CURRENT_BATCH_SEQ__"
  | SolanaAuthority => "__SOLANA_AUTHORITY__"
  | SolanaPda => "__SOLANA_PDA__"
  | LatestRootHex => "__LATEST_ROOT_HEX__"
  | PaymentsCount => "__PAYMENTS_COUNT__"
  end.

Definition NO_ROOT : string := "None (Awaiting first batch commit)".

Definition render_dashboard_html (template : string) (payments : list Payment) (current_batch_seq : N)
    (solana_authority solana_pda : string) (latest_root : option string) : string :=
  let root_display := default NO_ROOT latest_root in
  let page := replace "__CURRENT_BATCH_SEQ__" (dec_string current_batch_seq) template in
  let page := replace "__SOLANA_AUTHORITY__" solana_authority page in
  let page := replace "__SOLANA_PDA__" solana_pda page in
  let page := replace "__LATEST_ROOT_HEX__" root_display page in
  replace "__PAYMENTS_COUNT__" (dec_string (N.of_nat (length payments))) page.

Section handler.
Context (template : string) (key_string : Pubkey -> string) `{Borsh, Runtime}.

(** Nothing is changed, and the page cannot fail but where the address cannot be derived. *)
Definition handle_dashboard : st App (failure HttpError) string :=
  let? ps := st_reads (fun s => Ok (by_newest (payment_values s))) in
  let? batch_seq := st_reads (fun s => Ok (app_batch_seq s)) in
  let? solana_authority := st_reads (fun s => Ok (key_string (authority (solana_rail s)))) in
  let? pda := (fun s => or_panic (pda_address (solana_rail s)) s) in
  let? latest_root := st_reads (fun s => Ok (latest_root_hex (solana_rail s))) in
  st_ret (render_dashboard_html template ps batch_seq solana_authority (key_string pda) latest_root).

End handler.

(** ** Routes *)

Inductive Method : Type := GET | POST.
Inductive Handler : Type :=
| Dashboard | Metrics | Data | Seed | DoAuthorize | DoCapture | DoVoid | DoVerify | GetBalance | DoDeposit
| DoWebhook | DoSettlement | DoReconcile | DoDrift | DoHeal | RunSimulator | DoVerifyReceipt.

Definition router : list (string * (Method * Handler)) :=
  [("/", (GET, Dashboard));
   ("/metrics", (GET, Metrics));
   ("/api/dashboard/data", (GET, Data));
   ("/api/payments/quick-seed", (POST, Seed));
   ("/api/payments/authorize", (POST, DoAuthorize));
   ("/api/payments/:id/capture", (POST, DoCapture));
   ("/api/payments/:id/void", (POST, DoVoid));
   ("/api/payments/:id/verify", (POST, DoVerify));
   ("/api/balances/:merchant_id", (GET, GetBalance));
   ("/api/customers/:id/deposit", (POST, DoDeposit));
   ("/api/webhooks/card", (POST, DoWebhook));
   ("/api/settlement/batch", (POST, DoSettlement));
   ("/api/reconciliation", (GET, DoReconcile));
   ("/api/reconciliation/drift-simulate", (POST, DoDrift));
   ("/api/reconciliation/drift-heal", (POST, DoHeal));
   ("/api/simulator/run", (POST, RunSimulator));
   ("/api/verify", (POST, DoVerifyReceipt))].

(** ** Start-up *)

(** [p.parse::<u16>()]. *)
Definition parse_u16 (s : string) : option N :=
  n ← parse_u128 s; if n <=? 65535 then Some n else None.

(** The port that [main] serves on, from the variable [PORT]. *)
Definition main_port (PORT : option string) : N := default 8080 (p ← PORT; parse_u16 p).
Definition main_host (HOST : option string) : string := default "0.0.0.0" HOST.

Inductive DemoError : Type :=
| DemoPayment (e : PaymentError)
| DemoWebhook (e : WebhookError)
| DemoIdempotency (e : IdempotencyError)
| DemoRail (e : RailError)
| DemoReconciliation (e : ReconciliationError)
| DemoServer (why : string).

Section server.
Context {Ip : Type} (parse_ip : string -> result string Ip).
Context (start_server : App -> Ip -> N -> result string unit).
Context (sha256 : bytes -> Hash32) (display : ProofError -> string).
Context (program_error_string : ProgramError -> string).
Context `{Borsh, Runtime, ProofBytes}.

Definition WEBHOOK_SECRET : bytes := String.list_byte_of_string "super-secret-webhook-key-2026".

(** The state comes first, then the address; [start_server] binds and serves. *)
Definition run_default_server (program_id authority : Pubkey) (HOST : option string) (port : N) :
    result (failure DemoError) unit :=
  state ← map_err (fun f => match f with
                            | Panic => Panic
                            | Fails (inl e) => Fails (DemoPayment e)
                            | Fails (inr e) => Fails (DemoRail e)
                            end)
            (App_new sha256 display program_error_string WEBHOOK_SECRET program_id authority);
  let host := main_host HOST in
  ip ← map_err (fun e => Fails (DemoServer ("invalid HOST address '" +:+ host +:+ "': " +:+ e))) (parse_ip host);
  map_err (fun e => Fails (DemoServer e)) (start_server state ip port).

Definition demo_main (program_id authority : Pubkey) (HOST PORT : option string) : result (failure DemoError) unit :=
  run_default_server program_id authority HOST (main_port PORT).

End server.
