(* ===== verification/DashboardProps.v ===== *)
(** * Properties of the dashboard page, the routes and the start of the server *)

From Stdlib Require Import Ascii String.
From S2P Require Import Bytes Error Amount Account Transfer Ledger Merkle MerkleProps Settle SettleInv SettleFormat SettleProps Payment Rail Api ApiProps ApiAudit Dashboard.
From stdpp Require Import list gmap strings.
From S2P Require Import Prelude.
#[local] Open Scope N_scope.

(** ** Pages with holes *)

Definition underscore : ascii := "_".

(** No two underscores in a row, and none at the end: such a text neither contains the
    start of a placeholder nor begins one with what follows it. *)
Fixpoint plain_text (s : string) : bool :=
  match s with
  | EmptyString => true
  | String c s' =>
      (negb (Ascii.eqb c underscore) ||
       match s' with EmptyString => false | String d _ => negb (Ascii.eqb d underscore) end) && plain_text s'
  end.

Fixpoint no_underscore (s : string) : bool :=
  match s with
  | EmptyString => true
  | String c s' => negb (Ascii.eqb c underscore) && no_underscore s'
  end.

(** The characters of the placeholders: underscores and capitals. *)
Definition in_placeholder (c : ascii) : bool :=
  Ascii.eqb c underscore || ((65 <=? N_of_ascii c) && (N_of_ascii c <=? 90)).

(** The text after a hole starts with a character that no placeholder has. *)
Definition closes (s : string) : bool :=
  match s with EmptyString => false | String c _ => negb (in_placeholder c) end.

(** A text, then holes with the texts after them. *)
Definition Page : Type := string * list (Hole * string).

Fixpoint holes_with (value : Hole -> string) (hs : list (Hole * string)) : string :=
  match hs with [] => EmptyString | (h, t) :: rest => value h +:+ t +:+ holes_with value rest end.
Definition page_with (value : Hole -> string) (p : Page) : string := p.1 +:+ holes_with value p.2.

Definition holes_ok (hs : list (Hole * string)) : Prop := Forall (fun ht => plain_text ht.2 /\ closes ht.2) hs.
Definition page_ok (p : Page) : Prop := plain_text p.1 /\ holes_ok p.2.

(** What [render_dashboard_html] puts in each hole. *)
Definition shown (payments : list Payment) (seq : N) (authority pda : string) (root : option string) (h : Hole) : string :=
  match h with
  | CurrentBatchSeq => dec_string seq
  | SolanaAuthority => authority
  | SolanaPda => pda
  | LatestRootHex => default NO_ROOT root
  | PaymentsCount => dec_string (N.of_nat (length payments))
  end.

(** ** One replacement *)

Lemma string_app_assoc (a b c : string) : a +:+ (b +:+ c) = (a +:+ b) +:+ c.
Proof. induction a as [|x a IH]; [done|]. exact (f_equal (String x) IH). Qed.

Lemma replace_plain h to t rest :
  plain_text t -> replace_from 0 (placeholder h) to (t +:+ rest) = t +:+ replace_from 0 (placeholder h) to rest.
Proof.
  induction t as [|c t IH]; [done|]. intros [Hc Ht]%andb_True.
  assert (E : String.prefix (placeholder h) (String c (t +:+ rest)) = false).
  { assert (exists s, placeholder h = String "_" (String "_" s)) as [s ->] by (destruct h; eexists; reflexivity).
    cbn [String.prefix]. destruct (ascii_dec "_" c) as [<-|]; [|done].
    destruct t as [|d t]; [done|]. change (String d t +:+ rest) with (String d (t +:+ rest)).
    cbn [String.prefix]. by destruct (ascii_dec "_" d) as [<-|]. }
  change (String c t +:+ rest) with (String c (t +:+ rest)). cbn [replace_from]. rewrite E, (IH Ht). reflexivity.
Qed.

Lemma replace_skips from to p rest : replace_from (String.length p) from to (p +:+ rest) = replace_from 0 from to rest.
Proof. induction p as [|c p IH]; [by destruct rest|]. exact IH. Qed.

Lemma prefix_app p rest : String.prefix p (p +:+ rest) = true.
Proof.
  induction p as [|c p IH]; [by destruct rest|].
  change (String c p +:+ rest) with (String c (p +:+ rest)). cbn [String.prefix]. by destruct (ascii_dec c c).
Qed.

Lemma replace_hole h to rest :
  replace_from 0 (placeholder h) to (placeholder h +:+ rest) = to +:+ replace_from 0 (placeholder h) to rest.
Proof.
  assert (exists p, placeholder h = String "_" p) as [p E] by (destruct h; eexists; reflexivity).
  pose proof (prefix_app (placeholder h) rest) as Hp. rewrite E in *.
  change (String "_" p +:+ rest) with (String "_" (p +:+ rest)) in *.
  cbn [replace_from]. rewrite Hp. cbn [String.length pred]. by rewrite replace_skips.
Qed.

(** [p] differs from [q], or goes on after it with a character of the placeholders. *)
Fixpoint mismatch (p q : string) : bool :=
  match p, q with
  | EmptyString, _ => false
  | String c _, EmptyString => in_placeholder c
  | String c p', String d q' => negb (Ascii.eqb c d) || mismatch p' q'
  end.

Lemma mismatch_prefix p q rest : mismatch p q -> closes rest -> String.prefix p (q +:+ rest) = false.
Proof.
  intros Hm Hc. revert q Hm. induction p as [|c p IH]; [done|]. intros [|d q] Hm.
  - destruct rest as [|d rest]; [done|]. change (EmptyString +:+ String d rest) with (String d rest).
    cbn [String.prefix mismatch closes] in *. destruct (ascii_dec c d) as [->|]; [|done]. by apply negb_True in Hc.
  - change (String d q +:+ rest) with (String d (q +:+ rest)). cbn [String.prefix mismatch] in *.
    destruct (ascii_dec c d) as [->|]; [|done]. apply IH. by rewrite Ascii.eqb_refl in Hm.
Qed.

Fixpoint never_matches (p q : string) : bool :=
  match q with EmptyString => true | String _ q' => mismatch p q && never_matches p q' end.

Lemma replace_never from to q rest :
  never_matches from q -> closes rest -> replace_from 0 from to (q +:+ rest) = q +:+ replace_from 0 from to rest.
Proof.
  intros Hq Hc. induction q as [|c q IH]; [done|]. apply andb_True in Hq as [Hm Hq].
  pose proof (mismatch_prefix _ _ _ Hm Hc) as E. change (String c q +:+ rest) with (String c (q +:+ rest)) in *.
  cbn [replace_from]. rewrite E, (IH Hq). reflexivity.
Qed.

Lemma placeholders_apart h h' : h <> h' -> never_matches (placeholder h) (placeholder h').
Proof. by destruct h, h'. Qed.

(** ** Filling a hole *)

(** The value merges with the texts around it. *)
Fixpoint fill (h : Hole) (v : string) (t : string) (hs : list (Hole * string)) : Page :=
  match hs with
  | [] => (t, [])
  | (h', t') :: rest =>
      if decide (h = h') then fill h v (t +:+ v +:+ t') rest
      else let p := fill h v t' rest in (t, (h', p.1) :: p.2)
  end.

Lemma plain_app a b : plain_text a -> plain_text b -> plain_text (a +:+ b).
Proof.
  intros Ha Hb. induction a as [|c a IH]; [done|]. apply andb_True in Ha as [Hc Ha].
  change (String c a +:+ b) with (String c (a +:+ b)). apply andb_True. split; [|by apply IH].
  destruct a; [|exact Hc]. apply orb_True. left. by rewrite orb_false_r in Hc.
Qed.

Lemma no_underscore_plain v : no_underscore v -> plain_text v.
Proof.
  induction v as [|c v IH]; [done|]. intros [Hc Hv]%andb_True. apply andb_True. split; [|by apply IH].
  apply orb_True. by left.
Qed.

Lemma closes_app a b : closes a -> closes (a +:+ b).
Proof. by destruct a. Qed.

Lemma fill_closes h v t hs : closes t -> closes (fill h v t hs).1.
Proof.
  revert t. induction hs as [|[h' t'] hs IH]; intros t Ht; [done|]. simpl. case_decide; [|done].
  by apply IH, closes_app.
Qed.

Lemma fill_ok h v t hs : no_underscore v -> page_ok (t, hs) -> page_ok (fill h v t hs).
Proof.
  intros Hv. revert t. induction hs as [|[h' t'] hs IH]; intros t [Ht Hhs]; [done|].
  apply Forall_cons in Hhs as [[Ht' Hc] Hhs]. simpl. case_decide.
  - apply IH. split; [|done]. apply plain_app; [done|]. apply plain_app; [by apply no_underscore_plain|done].
  - destruct (IH t') as [Hp Hr]; [done|]. split; [done|]. apply Forall_cons. split; [|done].
    split; [done|]. by apply fill_closes.
Qed.

Lemma fill_app h v a t hs : page_with placeholder (fill h v (a +:+ t) hs) = a +:+ page_with placeholder (fill h v t hs).
Proof.
  revert t. induction hs as [|[h' t'] hs IH]; intros t; cbn [fill]; [by unfold page_with; cbn [fst snd]; rewrite <- string_app_assoc|].
  case_decide; [|by unfold page_with; cbn [fst snd]; rewrite <- string_app_assoc]. by rewrite <- string_app_assoc, IH.
Qed.

Lemma fill_replaces h v t hs :
  page_ok (t, hs) -> replace (placeholder h) v (page_with placeholder (t, hs)) = page_with placeholder (fill h v t hs).
Proof.
  unfold replace. revert t. induction hs as [|[h' t'] hs IH]; intros t [Ht Hhs]; cbn [fst snd] in *.
  - unfold page_with. cbn [fst snd fill]. by rewrite replace_plain.
  - apply Forall_cons in Hhs as [[Ht' Hc] Hhs]. cbn [fst snd] in *. specialize (IH t' (conj Ht' Hhs)).
    unfold page_with at 1. cbn [fst snd holes_with fill]. rewrite replace_plain by done. case_decide as E.
    + subst h'. rewrite replace_hole, (string_app_assoc t v t'), fill_app, <- IH. by rewrite <- string_app_assoc.
    + rewrite replace_never; [|by apply placeholders_apart|by apply closes_app].
      unfold page_with in IH |- *. cbn [fst snd holes_with] in *. rewrite IH. done.
Qed.

(** What a filled page shows, and the holes that are left. *)
Lemma fill_shows value h t hs : page_with value (fill h (value h) t hs) = page_with value (t, hs).
Proof.
  revert t. induction hs as [|[h' t'] hs IH]; intros t; cbn [fill]; [done|].
  case_decide as E.
  - subst h'. rewrite IH. unfold page_with. cbn [fst snd holes_with]. by rewrite <- !string_app_assoc.
  - specialize (IH t'). unfold page_with in *. cbn [fst snd holes_with] in *. by rewrite IH.
Qed.

Lemma fill_leaves (P : Hole -> Prop) h v t hs :
  Forall (fun ht => P ht.1) hs -> Forall (fun ht => P ht.1 /\ ht.1 <> h) (fill h v t hs).2.
Proof.
  revert t. induction hs as [|[h' t'] hs IH]; intros t Hhs; cbn [fill]; [done|].
  apply Forall_cons in Hhs as [Hh Hhs]. case_decide; [by apply IH|]. apply Forall_cons. split; [done|]. by apply IH.
Qed.

(** Filling every hole in turn. *)
Definition fill_page (value : Hole -> string) (h : Hole) (p : Page) : Page := fill h (value h) p.1 p.2.

Lemma fill_page_step value h p :
  no_underscore (value h) -> page_ok p ->
  replace (placeholder h) (value h) (page_with placeholder p) = page_with placeholder (fill_page value h p) /\
  page_ok (fill_page value h p) /\ page_with value (fill_page value h p) = page_with value p.
Proof.
  intros Hv Hp. destruct p as [t hs]. split; [by apply fill_replaces|]. split; [by apply fill_ok|]. apply fill_shows.
Qed.

Lemma fill_pages value hs0 p :
  (forall h, no_underscore (value h)) -> page_ok p ->
  let p' := foldl (fun p h => fill_page value h p) p hs0 in
  foldl (fun s h => replace (placeholder h) (value h) s) (page_with placeholder p) hs0 = page_with placeholder p' /\
  page_with value p' = page_with value p /\ Forall (fun ht => ht.1 ∉ hs0) p'.2.
Proof.
  intros Hv. assert (forall done_ p, page_ok p -> Forall (fun ht => ht.1 ∉ done_) p.2 ->
    let p' := foldl (fun p h => fill_page value h p) p hs0 in
    foldl (fun s h => replace (placeholder h) (value h) s) (page_with placeholder p) hs0 = page_with placeholder p' /\
    page_with value p' = page_with value p /\ Forall (fun ht => ht.1 ∉ done_ ++ hs0) p'.2) as Hall.
  { induction hs0 as [|h hs0 IH]; intros done_ q Hq Hd; cbn [foldl]; [by rewrite app_nil_r|].
    destruct (fill_page_step value h q (Hv h) Hq) as (-> & Hok & <-).
    rewrite cons_middle, app_assoc. apply IH; [done|].
    eapply Forall_impl; [apply (fill_leaves (.∉ done_)); exact Hd|]. intros ht [? ?].
    rewrite not_elem_of_app, list_elem_of_singleton. done. }
  intros Hp. apply (Hall [] p Hp). by apply Forall_forall; intros; apply not_elem_of_nil.
Qed.

Lemma no_holes_left value value' p :
  Forall (fun ht => ht.1 ∉ [CurrentBatchSeq; SolanaAuthority; SolanaPda; LatestRootHex; PaymentsCount]) p.2 ->
  page_with value p = page_with value' p.
Proof. destruct p as [t [|[h t'] hs]]; [done|]. intros [[] _]%Forall_cons. destruct h; set_solver. Qed.

Lemma string_of_digits_no_underscore ds : Forall (fun d => d < 10) ds -> no_underscore (string_of_digits ds).
Proof.
  induction 1 as [|d ds Hd _ IH]; [done|]. apply andb_True. split; [|done].
  apply negb_True. intros E%Is_true_true%Ascii.eqb_eq%(f_equal N_of_ascii). unfold digit_char in E.
  rewrite N_ascii_embedding in E by lia. cbn in E. lia.
Qed.

Lemma dec_digits_small fuel n acc : Forall (fun d => d < 10) acc -> Forall (fun d => d < 10) (dec_digits fuel n acc).
Proof.
  revert n acc. induction fuel as [|fuel IH]; intros n acc Ha; [done|]. simpl.
  destruct (N.ltb_spec n 10); [by constructor|]. apply IH. constructor; [|done]. apply N.mod_lt. lia.
Qed.

Lemma dec_string_no_underscore n : no_underscore (dec_string n).
Proof. by apply string_of_digits_no_underscore, dec_digits_small. Qed.

Lemma hex_digit_no_underscore n : n < 16 -> negb (Ascii.eqb (hex_digit n) underscore).
Proof.
  intros Hn. apply negb_True. intros E%Is_true_true%Ascii.eqb_eq%(f_equal N_of_ascii). unfold hex_digit in E.
  destruct (N.ltb_spec n 10); rewrite N_ascii_embedding in E by lia; cbn in E; lia.
Qed.

Lemma hex_of_no_underscore bs : no_underscore (hex_of bs).
Proof.
  induction bs as [|b bs IH]; [done|]. pose proof (Byte.to_N_bounded b) as Hb. cbn [hex_of no_underscore].
  apply andb_True. split; [apply hex_digit_no_underscore; apply N.Div0.div_lt_upper_bound; lia|].
  apply andb_True. split; [apply hex_digit_no_underscore, N.mod_lt; lia|done].
Qed.

(** ** The page that is served *)

Lemma render_fills p payments seq auth pda root :
  page_ok p -> no_underscore auth -> no_underscore pda -> no_underscore (default NO_ROOT root) ->
  render_dashboard_html (page_with placeholder p) payments seq auth pda root =
  page_with (shown payments seq auth pda root) p.
Proof.
  intros Hp Ha Hd Hr.
  destruct (fill_pages (shown payments seq auth pda root)
    [CurrentBatchSeq; SolanaAuthority; SolanaPda; LatestRootHex; PaymentsCount] p) as (E & <- & Hnone); [|done|].
  { intros []; cbn [shown]; auto using dec_string_no_underscore. }
  etrans; [exact E|]. by apply no_holes_left.
Qed.

Section page.
Context (key_string : Pubkey -> string) `{Borsh, Runtime}.
Context (Hkeys : forall k, no_underscore (key_string k)).

(** The page is the template with every hole filled by the state's own value, and nothing
    else is touched, for every template whose texts are apart from the placeholders:
    however the five replacements follow each other, none disturbs what another has put
    in.  The state does not change. *)
Theorem dashboard_page p s pda :
  page_ok p -> pda_address (solana_rail s) = Some pda ->
  handle_dashboard (page_with placeholder p) key_string s =
  (s, Ok (page_with (shown (payment_values s) (app_batch_seq s) (key_string (authority (solana_rail s)))
                       (key_string pda) (latest_root_hex (solana_rail s))) p)).
Proof using Hkeys.
  intros Hp E. unfold handle_dashboard, st_bind, st_reads, or_panic. cbn. rewrite E. cbn.
  rewrite render_fills; [|done|apply Hkeys..|].
  - unfold shown, by_newest. by rewrite (Permutation_length (merge_sort_Permutation newer (payment_values s))).
  - unfold latest_root_hex. destruct (current_settlement_root _); [apply hex_of_no_underscore|by vm_compute].
Qed.

End page.

(** ** Routes *)

(** The segments of a path, and the paths that a pattern takes: a segment that starts
    with a colon stands for any segment. *)
Fixpoint segments_from (acc : string) (s : string) : list string :=
  match s with
  | EmptyString => [acc]
  | String c s' =>
      if Ascii.eqb c "/" then acc :: segments_from EmptyString s' else segments_from (acc +:+ String c EmptyString) s'
  end.
Definition segments (s : string) : list string := segments_from EmptyString s.

Definition any_segment (s : string) : bool :=
  match s with String c _ => Ascii.eqb c ":" | EmptyString => false end.
Definition takes (pattern path : string) : Prop :=
  Forall2 (fun p s => any_segment p \/ p = s) (segments pattern) (segments path).

Fixpoint apart (ps qs : list string) : bool :=
  match ps, qs with
  | [], [] => false
  | p :: ps', q :: qs' => (negb (any_segment p) && negb (any_segment q) && negb (String.eqb p q)) || apart ps' qs'
  | _, _ => true
  end.

Lemma apart_takes ps qs path (R := fun p s : string => Is_true (any_segment p) \/ p = s) :
  apart ps qs -> Forall2 R ps path -> Forall2 R qs path -> False.
Proof.
  intros Ha Hp. revert qs Ha. induction Hp as [|p s ps path Hps _ IH]; intros qs Ha Hq; inversion Hq as [|q ? qs' ? Hqs Hq']; subst; [done|].
  apply orb_True in Ha as [[[Hnp Hnq]%andb_True Hne]%andb_True|Ha]; [|by apply (IH qs')].
  apply negb_True in Hnp, Hnq. destruct Hps as [?| ->], Hqs as [?| ->]; try done.
  by rewrite String.eqb_refl in Hne.
Qed.

(** Every path is taken by at most one route of the application, so the order of the
    table does not matter and no two routes conflict. *)
Theorem routes_apart i j path r r' :
  router !! i = Some r -> router !! j = Some r' -> takes r.1 path -> takes r'.1 path -> i = j.
Proof.
  intros Hi Hj Ht Ht'. destruct (decide (i = j)) as [|Hne]; [done|]. exfalso.
  assert (forall i j r r', i <> j -> router !! i = Some r -> router !! j = Some r' ->
    apart (segments r.1) (segments r'.1)) as Hall.
  { clear. assert (forallb (fun i => forallb (fun j => Nat.eqb i j ||
      match router !! i, router !! j with Some r, Some r' => apart (segments r.1) (segments r'.1) | _, _ => true end)
      (seq 0 17)) (seq 0 17) = true) as H by (vm_compute; reflexivity).
    intros i j r r' Hne Hi Hj. rewrite forallb_forall in H.
    pose proof (lookup_lt_Some _ _ _ Hi) as Li. pose proof (lookup_lt_Some _ _ _ Hj) as Lj.
    specialize (H i (proj2 (in_seq _ _ _) (conj (Nat.le_0_l _) Li))). rewrite forallb_forall in H.
    specialize (H j (proj2 (in_seq _ _ _) (conj (Nat.le_0_l _) Lj))). rewrite Hi, Hj in H.
    apply orb_true_iff in H as [H%Nat.eqb_eq|H]; [done|]. by apply Is_true_true. }
  by apply (apart_takes _ _ _ (Hall _ _ _ _ Hne Hi Hj) Ht).
Qed.

(** ** The start of the server *)

(** The port is a 16-bit number whatever the environment holds, and the one that is asked
    for when that is one. *)
Theorem port_in_range PORT : main_port PORT < 2 ^ 16 /\ forall n, n < 2 ^ 16 -> main_port (Some (dec_string n)) = n.
Proof.
  unfold main_port, parse_u16. split.
  - destruct PORT as [p|]; [|done]. cbn. destruct (parse_u128 p) as [n|]; [|done]. cbn.
    destruct (N.leb_spec n 65535); cbn; lia.
  - intros n Hn. cbn [mbind option_bind]. rewrite parse_u128_dec_string by (unfold U128_MAX; lia). cbn.
    destruct (N.leb_spec n 65535); [done|lia].
Qed.

Section start.
Context {Ip : Type} (parse_ip : string -> result string Ip).
Context (start_server : App -> Ip -> N -> result string unit).
Context (sha256 : bytes -> Hash32) (display : ProofError -> string) (program_error_string : ProgramError -> string).
Context `{Borsh, Runtime, ProofBytes}.

(** The server ends without an error only where serving a fresh application at the
    address of the environment does. *)
Theorem main_serves_fresh pid a HOST PORT :
  demo_main parse_ip start_server sha256 display program_error_string pid a HOST PORT = Ok tt <->
  exists s ip, App_new sha256 display program_error_string WEBHOOK_SECRET pid a = Ok s /\
    parse_ip (main_host HOST) = Ok ip /\ start_server s ip (main_port PORT) = Ok tt.
Proof.
  unfold demo_main, run_default_server. split.
  - destruct (App_new _ _ _ _ _ _) as [s|[|[]]]; [|done..]. cbn.
    destruct (parse_ip _) as [ip|]; [|done]. cbn. destruct (start_server s ip _) as [[]|] eqn:E; [|done]. eauto.
  - intros (s & ip & -> & E & E'). cbn. rewrite E. cbn. by rewrite E'.
Qed.

End start.

(** ** A worked page *)

(** The lines of the template that have holes, shortened to what is around them. *)
Definition quote : string := String (ascii_of_N 34) EmptyString.
Definition sample_page : Page :=
  ("<span title=" +:+ quote,
   [(SolanaPda, quote +:+ ">"); (SolanaPda, "</span> <span id=displayBatchSeq>#");
    (CurrentBatchSeq, "</span> <span id=displayLatestRoot title=" +:+ quote);
    (LatestRootHex, quote +:+ ">"); (LatestRootHex, "</span> "); (PaymentsCount, " records")]).

Definition toy_key_string (k : Pubkey) : string := to_hex k.

#[local] Existing Instance borsh_le.
#[local] Existing Instance toy_runtime.

Lemma dashboard_page_witness :
  exists pda, pda_address (solana_rail toy_evening) = Some pda /\
  handle_dashboard (page_with placeholder sample_page) toy_key_string toy_evening =
  (toy_evening, Ok (page_with (shown (payment_values toy_evening) (app_batch_seq toy_evening)
     (toy_key_string (authority (solana_rail toy_evening))) (toy_key_string pda)
     (latest_root_hex (solana_rail toy_evening))) sample_page)).
Proof.
  exists (default toy_pid (pda_address (solana_rail toy_evening))).
  assert (E : pda_address (solana_rail toy_evening) =
    Some (default toy_pid (pda_address (solana_rail toy_evening)))) by (vm_compute; reflexivity).
  split; [exact E|]. apply dashboard_page; [intros k; apply hex_of_no_underscore| |exact E].
  split; [by vm_compute|]. repeat constructor; by vm_compute.
Defined.

(** The replacements evaluated on that page. *)
Lemma sample_page_rendered :
  render_dashboard_html (page_with placeholder sample_page) (payment_values toy_evening) 3 "A" "P" None =
  "<span title=" +:+ quote +:+ "P" +:+ quote +:+ ">P</span> <span id=displayBatchSeq>#3</span> " +:+
  "<span id=displayLatestRoot title=" +:+ quote +:+ NO_ROOT +:+ quote +:+ ">" +:+ NO_ROOT +:+ "</span> 7 records".
Proof. vm_compute. reflexivity. Qed.
